(* ===== verification/_CoqProject ===== *)
-Q . S2P
Prelude.v
Manage.v
Builder.v
Metrics.v
Store.v
Waiters.v
Inner.v
Local.v
Effects.v
Futures.v
Balance.v
System.v
Scenario.v
Closing.v
Custody.v
Checkout.v
Queue.v
Behaviour.v
Safety.v
Registry.v
Process.v
Cpu.v
Workers.v
Text.v
Debug.v
Warmup.v
Clients.v
Fanout.v
Reader.v
Echo.v
Baseline.v
Typing.v
Sessions.v
EchoServer.v
TcpPool.v
FdPipe.v
Args.v
Mains.v
Tokio.v
Buffered.v
HttpProxy.v
ProxyServer.v
FrontServer.v
Origin.v
ScatterGather.v
Backends.v
Wal.v
WalServer.v
FileServer.v
FilesServer.v
TokioFiles.v
Float.v
Load.v
Kvload.v
KvClient.v
Percentile.v
Loaders.v
TaskMains.v
RedisProxy.v
