(* ===== verification/Prelude.v ===== *)
(** * compio-pool: a verification development

    compio-pool is a connection pool for thread-per-core runtimes.  A [Pool] is a handle
    every thread shares: the manager, the configuration, a closed flag and a registry of
    metrics blocks.  Each thread makes its own [LocalPool] of it, single-threaded, whose
    store ([Inner]) holds the idle connections, a slot count and a queue of parked tasks.
    [get], [try_get] and [warm] reserve a slot, reuse an idle connection or dial; leases
    give their slot back when dropped; a freed slot wakes the oldest parked task.

    ** Files and the code they model

    - [Prelude]: machine integers, outcomes (value, panic, out of fuel), the state monad of
      a thread, total weakest preconditions and their tactics, list lemmas.
    - [Manage] ([src/src/manage.rs]): the manager trait as the type class
      [ManageConnection], the runtime it runs on as [Runtime], [RunError].
    - [Builder] ([src/src/builder.rs]): the configuration and [build].
    - [Metrics] ([src/src/pool.rs]): [State], [Statistics] and the block of gauges and
      counters each thread keeps.
    - [Store] (the structs of [pool.rs]): [World], one thread's store; [Conn], [expiry], and
      the readings of the clock and of the shared flag.
    - [Waiters]: the queue of parked tasks ([register], [unregister], [wake], [wake_all]),
      with the binary search it uses.
    - [Inner]: slots, idle list, [notify]; the record [ledger], the invariant of a store
      together with what its clients own.
    - [Local]: [Held], [PooledConnection], [reap], [clear], [pop_fresh_idle],
      [try_reserve], the snapshots.
    - [Effects]: what each synchronous operation leaves, branch by branch, for any store.
    - [Futures]: [get], [get_inner], [try_get], [warm], [maintain] and [WaitReady], each an
      explicit state machine: a constructor per await point, one poll, one drop.
    - [Balance]: every poll and drop of these keeps the ledger, and terminates.
    - [System]: a thread at work: tasks, leases, and the [action]s an executor may take in any
      order; [reachable], and the invariant of every reachable state.
    - [Scenario]: running schedules of actions; a concrete manager, runtime and
      configuration for the examples.
    - [Closing], [Custody]: what closing leaves true of every later state; the connections a
      thread has, each in one place.
    - [Checkout]: where a connection that is handed out comes from, and what it has been checked
      for; which commands leave the count of timeouts alone.
    - [Queue], [Behaviour], [Safety]: the theorems on the queue, on the calls one by one, and
      on the running system.
    - [Registry] ([Pool], [Shared], [LocalPool::new], [Drop for Inner]): the threads that come
      and go, retirement of their counters, scrapes.
    - [Process]: the process: threads that step stores of their own, publish their blocks, exit,
      scrape and close, in any order.
    - [Cpu] ([src/src/cpu.rs]): core enumeration, selection, affinity masks, sysfs.
    - [Workers] ([src/src/workers.rs], [src/src/listener.rs]): pinned threads and the shared
      listening socket.
    - [Debug]: what [{:?}] writes of every public type.
    - [Text]: bytes, UTF-8, the [str] functions, buffers and TCP streams the example programs
      are written with; a stream is a type class with the laws relied on.
    - [Buffered], [HttpProxy] and [Origin] ([src/examples/http_proxy.rs]): the reverse proxy:
      message framing, the round trip over a leased upstream, what goes back to the pool; the
      built-in origin and the framing of the messages the example writes itself.
    - [ScatterGather] ([src/examples/scatter_gather.rs]): lines, one query to a shard, merging.
    - [Wal] ([src/examples/wal.rs]: segments named by a counter of the process, and the loop) and [FileServer] ([src/examples/file_server.rs]): the
      serving loops over an abstract log file and file system.
    - [Reader]: the standard library's [BufReader] over a stream, as the clients use it.
    - [Echo] ([src/examples/echo.rs], [task_echo.rs], [unix_echo.rs], [udp_echo.rs]), [TcpPool]
      ([tcp_pool.rs]) and [FdPipe] ([fd_pipe.rs]): the echo loops over a leased buffer, the front
      that leases an upstream for each request, the pipe between two tasks.
    - [Fanout] ([src/examples/fanout_requests.rs]): the client tasks as programs of [System]'s
      actions; [Warmup] ([warmup.rs]): the tour as a schedule of [System].
    - [Typing]: a predicate on connections through every state of [System].
    - [Clients]: programs whose steps are [System]'s actions; [Sessions]: a server on one thread's
      pool, each connection a task that borrows from it.  What a session does between two awaits
      is the class [Guest]; what its author owes, [GuestLaws]; a file each instantiates it:
      [EchoServer], [WalServer], [ProxyServer], [FrontServer] ([tcp_pool.rs]), [FilesServer].
    - [Backends]: the accept loops of the backends the examples start for themselves.
    - [Args], [Mains]: the command lines of all programs, and what becomes of the processes under
      [src/examples]: [PerCore]'s workers or the hand-written loop, panics, waiting.
    - [Load] ([load.rs], [load_churn.rs], [load_wal.rs], [load_file.rs]), [Kvload] and [KvClient]
      ([kvload.rs]): the load generators: command lines, batches, a client thread's timed rounds,
      the start barrier, the tally; [Float] and [Percentile]: doubles, the percentiles and the
      lines printed; [Loaders]: each [main] from its command line to its report.
    - [TaskMains]: the mains of [fd_pipe.rs] and [fanout_requests.rs], with what they print.
    - [Baseline], [TokioFiles], [RedisProxy] and [Tokio] (the tokio programs under
      [src/crates/deadpool-baseline/examples]): their handlers over abstract streams, files and a
      Redis connection, and the scaffolding they share.

    ** What the theorems show

    - The running system ([Safety]): slots are accounted for exactly and never exceed
      [max_size]; for 2^64 - 2 actions none panics or loops, but for a count of [warm]'s past
      [u32::MAX]; no wakeup is lost, wakes reach the task that is waiting, in the order tasks
      queued; free capacity reaches a waiter and a waiter with capacity in reach is served;
      cancelling gives everything back, and so does timing out, counted once; closing wakes
      all that are queued; the gauges show the live counts.
    - The queue ([Queue]): it refines a plain FIFO.
    - The calls ([Behaviour]): reuse is newest first, a returned lease is kept or closed for
      the reason the code names, [reap], [clear] and [warm] do exactly what they count,
      failed dials give their slot back, a closed pool hands nothing out.
    - The connections ([Custody], [Checkout]): no connection is leased twice, or leased and idle
      at once; what a checkout hands out was dialled for it, or idle and unexpired, and
      validated where the configuration asks for it.
    - The process ([Registry], [Process]): totals survive the threads that made them, the snapshot
      adds up the live threads, for scrapes that fall between whole actions and exits of the
      threads; one that races an exit never counts a value twice and may miss it;
      calls are told [Closed] only once the pool is closed, and it stays so.
    - The rest ([Builder], [Cpu], [Workers]): validation of the configuration, exact core
      selection, masks that read back, error paths of spawning and binding.
    - Types ([Typing]): what is true of every connection dialled, and kept by whoever holds it,
      is true of every connection a lease ever derefs to.
    - The example servers: the proxy accepts a head exactly when it says one length, reads one message at a time and parks an upstream
      only when nothing is left over on it; its origin answers every request, in messages the
      proxy can frame; lines read back as sent; acknowledged records are on disk; requests for
      files stay inside the directory; echo loops return what they were sent.
    - The servers at work ([Sessions] and its instances): however connections arrive and tasks are
      polled, a session that is over did what its handler does by itself with what its [get]s
      brought; sessions never outnumber [max_size] in service, never panic, a poll moves no other
      session and brings its own nearer the end or leaves it parked in [get], and while the pool is
      open some session that is not over can go on; the log's segments are never one file; the proxy's clients never see each other's
      bytes, and what any of the log's clients was told is safe stays safe.
    - The clients: the fan-out keeps within [max_size], makes every request once and does not
      deadlock; what a load generator counts was answered; a start barrier is never passed once a
      dial has failed, whatever the order of the dials; the percentiles printed are the ranks they
      name; a run prints its report, or hangs, or panics, in the cases shown.
    - The tokio programs: the Redis proxy's connection is the session of its lines, and a batch of
      [kvload]'s gets one reply a command, which is one line unless what Redis gave has a newline; a record is acknowledged after it is committed; relayed bytes
      are passed on unchanged.
    - The processes ([Mains], [Tokio]): when a server serves, panics, returns, and whose failure
      is not heard of; the hand-written worker loops are [PerCore]'s.

    ** How the model is made

    Stateful code is state passing in the monad [St]; a stretch of code between two await
    points runs without interference, since a [LocalPool] never leaves its thread.  What the
    code does not decide is an oracle indexed by the occasion it is consulted on ([tick]): the
    clock, the flag another thread may have set, the manager's answers, whether a timer has
    fired.  The theorems hold for every oracle; those that need the clock not to go back or a
    fresh sleep not to be over say so by [RuntimeLaws].

    Loops run on fuel, and running out is an outcome of its own that the theorems exclude:
    [get_loop] and [try_loop] get one round per idle connection and one more (a round that
    does not finish consumes an idle connection), [fresh_loop] the same, [warm_loop] one round
    per connection the floor is short of and one more, [drain] one round per core and one
    more; the reading loops of the examples get more rounds than there are bytes to come.
    Sums that the code checks ([next_id] in 64 bits, the count of one [warm] in 32) have room
    by the hypothesis [room], asked of each poll in [reachable]; [taken] counts the actions of a
    run instead and asks nothing of them, and [Safety.pool_never_fails] shows over it that the
    first sum has room for 2^64 - 2 actions and when the second has not.

    Integers are [N] at their width: [as_u32], [as_u64], [fetch_add32] and [fetch_add64] wrap,
    [add_u] panics in a build with overflow checks and wraps without.  Durations and instants
    are nanoseconds.

    Of a server's session the pool sees only the calls of [get] and the drops of leases, so a
    [Guest] is split at its awaits and no finer: one [read_exact] or [write_all] on a leased
    connection is one stretch.  What a session meets outside the pool (its client, the disk) is
    its own, and arbitrary.

    ** What is not modelled

    An exit and a scrape of a process are each one step, but in [Registry.race_step], which takes
    them apart for one counter.  Memory is there for whatever is asked for, up to [isize::MAX]
    bytes at once.  Destructors of connections and wakers that call back into the pool, the indented form of
    [Debug], poisoned locks, memory orderings weaker than sequential consistency, how a float or a
    [Duration] is written in decimal, the sockets and the operating system behind the
    parameters, the crate root, which holds re-exports and documentation only, and the tests.
    deadpool, tokio, the redis crate and compio are third-party: what their calls answer is given.
    A timed client's loop has fuel for as many rounds as the clock can be read before the
    deadline; the laws on the clock say it gets there.  The count of connections
    [fanout_requests] prints is given to its [main].  There is no bound on how often a waiter can
    be overtaken by direct checkouts: [Warmup.waiter_overtaken] shows that it can be.

    ** What could follow

    The echo, proxy and log servers under tokio over a model of deadpool, whose code is not
    here; one set of text functions for [Cpu] and [Text]; a session's reads and writes on a
    leased connection split at every await. *)

From stdpp Require Export base tactics list gmap sets numbers strings pretty.
From Stdlib Require Export Lia.

#[global] Open Scope N_scope.

(** ** Machine integers

    [u32], [u64] and [usize] values are [N]; the widths are written out where
    the source casts, adds or stores. *)

Definition U32 : N := 4294967296.
Definition U64 : N := 18446744073709551616.
Definition u32_max : N := 4294967295.

(** [x as u32] and [x as u64]: truncation. *)
Definition as_u32 (n : N) : N := n mod U32.
Definition as_u64 (n : N) : N := n mod U64.

(** The atomics' [fetch_add], which wraps in every build profile. *)
Definition fetch_add32 (a b : N) : N := (a + b) mod U32.
Definition fetch_add64 (a b : N) : N := (a + b) mod U64.

(** [saturating_sub] is [N]'s own truncated subtraction. *)
Definition saturating_sub (a b : N) : N := a - b.

(** [Vec::len] / [VecDeque::len], as the [usize] it is. *)
Definition len {A} (l : list A) : N := N.of_nat (length l).

(** The build: cargo's [metrics] feature, and whether the profile checks
    arithmetic overflow (a debug build panics, a release build wraps). *)
Class Features := {
  feature_metrics : bool;
  overflow_checks : bool
}.

(** ** Outcomes

    A synchronous stretch of code returns a value, panics, or (in the model
    only) exhausts the fuel its loop was given.  The theorems that matter show
    that neither of the last two is reached. *)

Inductive outcome (A : Type) : Type :=
| Val (a : A)
| Panic
| NoFuel.
Arguments Val {A} a.
Arguments Panic {A}.
Arguments NoFuel {A}.

#[global] Instance outcome_ret : MRet outcome := λ A a, Val a.
#[global] Instance outcome_bind : MBind outcome := λ A B f o,
  match o with Val a => f a | Panic => Panic | NoFuel => NoFuel end.

(** Rust's plain [+] on an unsigned integer of modulus [w]. *)
Definition add_u `{Features} (w a b : N) : outcome N :=
  if a + b <? w then Val (a + b)
  else if overflow_checks then Panic else Val ((a + b) mod w).

(** Rust's [Result]; [Poll] is the answer of polling a future once. *)
Inductive result (T E : Type) : Type := Ok (t : T) | Err (e : E).
Arguments Ok {T E} t.
Arguments Err {T E} e.

Inductive Poll (A : Type) : Type := Pending | Ready (a : A).
Arguments Pending {A}.
Arguments Ready {A} a.

(** ** The state monad of a thread

    Stateful code is explicit state passing: [St S A] runs from a store [S] to
    an outcome carrying the result and the store left behind. *)

Definition St (S A : Type) : Type := S → outcome (A * S).

#[global] Instance St_ret {S} : MRet (St S) := λ A a s, Val (a, s).
#[global] Instance St_bind {S} : MBind (St S) := λ A B f c s,
  match c s with Val (a, s') => f a s' | Panic => Panic | NoFuel => NoFuel end.

Definition gets {S A} (f : S → A) : St S A := λ s, Val (f s, s).
Definition modify {S} (f : S → S) : St S unit := λ s, Val (tt, f s).
Definition lift {S A} (o : outcome A) : St S A := λ s,
  match o with Val a => Val (a, s) | Panic => Panic | NoFuel => NoFuel end.
Definition panic {S A} : St S A := λ _, Panic.
Definition no_fuel {S A} : St S A := λ _, NoFuel.
Definition skip {S} : St S unit := mret tt.
Definition when {S} (b : bool) (c : St S unit) : St S unit :=
  if b then c else skip.

(** ** Weakest preconditions and Hoare triples, total

    [wp c Q s]: run from [s], [c] neither panics nor runs out of fuel, and its
    result and final store satisfy [Q].  A triple quantifies over the stores
    that satisfy its precondition. *)

Definition wp {S A} (c : St S A) (Q : A → S → Prop) (s : S) : Prop :=
  match c s with Val (a, s') => Q a s' | _ => False end.

Definition triple {S A} (P : S → Prop) (c : St S A) (Q : A → S → Prop) : Prop :=
  ∀ s, P s → wp c Q s.

Declare Scope triple_scope.
Delimit Scope triple_scope with triple.
Notation "{{ P }} c {{ x , Q }}" := (triple P c (λ x, Q))
  (at level 0, P at level 99, c at level 99, x name, Q at level 99,
   format "{{  P  }}  c  {{  x ,  Q  }}") : triple_scope.
#[global] Open Scope triple_scope.

Section wp.
Context {S : Type}.
Implicit Types s : S.

Lemma wp_mono {A} (c : St S A) (Q Q' : A → S → Prop) s :
  wp c Q s → (∀ a s', Q a s' → Q' a s') → wp c Q' s.
Proof. unfold wp. destruct (c s) as [[]| |]; naive_solver. Qed.

Lemma wp_ret {A} (a : A) (Q : A → S → Prop) s : Q a s → wp (mret a) Q s.
Proof. done. Qed.

Lemma wp_bind {A B} (c : St S A) (f : A → St S B) (Q : B → S → Prop) s :
  wp c (λ a, wp (f a) Q) s → wp (c ≫= f) Q s.
Proof. unfold wp, mbind, St_bind. destruct (c s) as [[]| |]; naive_solver. Qed.

Lemma wp_bind_inv {A B} (c : St S A) (f : A → St S B) (Q : B → S → Prop) s :
  wp (c ≫= f) Q s → wp c (λ a, wp (f a) Q) s.
Proof. unfold wp, mbind, St_bind. destruct (c s) as [[]| |]; naive_solver. Qed.

Lemma wp_gets {A} (f : S → A) (Q : A → S → Prop) s : Q (f s) s → wp (gets f) Q s.
Proof. done. Qed.

Lemma wp_modify (f : S → S) (Q : unit → S → Prop) s :
  Q tt (f s) → wp (modify f) Q s.
Proof. done. Qed.

Lemma wp_when (b : bool) (c : St S unit) (Q : unit → S → Prop) s :
  (b = true → wp c Q s) → (b = false → Q tt s) → wp (when b c) Q s.
Proof. destruct b; [naive_solver|]. intros _ H. by apply wp_ret, H. Qed.

Lemma wp_lift {A} (o : outcome A) a (Q : A → S → Prop) s :
  o = Val a → Q a s → wp (lift o) Q s.
Proof. intros ->. done. Qed.

Lemma wp_and {A} (c : St S A) (Q Q' : A → S → Prop) s :
  wp c Q s → wp c Q' s → wp c (λ a s', Q a s' ∧ Q' a s') s.
Proof. unfold wp. destruct (c s) as [[]| |]; naive_solver. Qed.

Lemma wp_val {A} (c : St S A) (Q : A → S → Prop) s :
  wp c Q s → ∃ a s', c s = Val (a, s') ∧ Q a s'.
Proof. unfold wp. destruct (c s) as [[]| |]; naive_solver. Qed.

Lemma wp_run {A} (c : St S A) (Q : A → S → Prop) s a s' :
  wp c Q s → c s = Val (a, s') → Q a s'.
Proof. unfold wp. intros H E. by rewrite E in H. Qed.
End wp.

(** *** Failing for a reason

    [may_fail why c Q s]: run from [s], [c] ends within its fuel; it satisfies [Q], or panics
    and [why] holds.  [wp] is the case where nothing is reason enough. *)
Definition may_fail {S A} (why : Prop) (c : St S A) (Q : A → S → Prop) (s : S) : Prop :=
  match c s with Val (a, s') => Q a s' | Panic => why | NoFuel => False end.

Section may_fail.
Context {S : Type} (why : Prop).
Implicit Types s : S.

Lemma wp_may_fail {A} (c : St S A) (Q : A → S → Prop) s : wp c Q s → may_fail why c Q s.
Proof. unfold wp, may_fail. by destruct (c s) as [[]| |]. Qed.

Lemma may_fail_wp {A} (c : St S A) (Q : A → S → Prop) s : ¬ why → may_fail why c Q s → wp c Q s.
Proof. unfold wp, may_fail. by destruct (c s) as [[]| |]. Qed.

Lemma may_fail_mono {A} (c : St S A) (Q Q' : A → S → Prop) s :
  may_fail why c Q s → (∀ a s', Q a s' → Q' a s') → may_fail why c Q' s.
Proof. unfold may_fail. destruct (c s) as [[]| |]; naive_solver. Qed.

Lemma may_fail_bind {A B} (c : St S A) (f : A → St S B) (Q : B → S → Prop) s :
  may_fail why c (λ a, may_fail why (f a) Q) s → may_fail why (c ≫= f) Q s.
Proof. unfold may_fail, mbind, St_bind. by destruct (c s) as [[]| |]. Qed.

(** A command that cannot fail, then one that may. *)
Lemma may_fail_after {A B} (c : St S A) (f : A → St S B) (Q : B → S → Prop) s :
  wp c (λ a, may_fail why (f a) Q) s → may_fail why (c ≫= f) Q s.
Proof. intros Hc. by apply may_fail_bind, wp_may_fail. Qed.

Lemma may_fail_lift {A} (o : outcome A) (Q : A → S → Prop) s :
  (∀ a, o = Val a → Q a s) → (o = Panic → why) → o ≠ NoFuel → may_fail why (lift o) Q s.
Proof. unfold may_fail, lift. destruct o; naive_solver. Qed.
End may_fail.

(** What a sequence does once its first command has run. *)
Lemma bind_val {S A B} (c : St S A) (f : A → St S B) s a s' : c s = Val (a, s') → (c ≫= f) s = f a s'.
Proof. unfold mbind, St_bind. by intros ->. Qed.

Create HintDb wpdb.
#[export] Hint Resolve wp_ret wp_gets wp_modify : wpdb.

(** One step of symbolic execution: split a bind, or discharge a primitive. *)
Ltac wp_step :=
  match goal with
  | |- wp (_ ≫= _) _ _ => apply wp_bind
  | |- wp (mret _) _ _ => apply wp_ret
  | |- wp skip _ _ => apply wp_ret
  | |- wp (gets _) _ _ => apply wp_gets
  | |- wp (modify _) _ _ => apply wp_modify
  end.
(** A conditional command: one goal per truth value of its guard. *)
Ltac wp_when := apply wp_when; intros.
Ltac wp_steps := repeat (wp_step; cbn beta).

(** Run the triple [H] on the command at the head of the goal: its precondition
    is the first goal left, the rest of the program the second. *)
Tactic Notation "wp_apply" uconstr(H) :=
  eapply wp_mono; [ eapply H | ].
Tactic Notation "wp_apply" uconstr(H) "as" simple_intropattern_list(pat) :=
  eapply wp_mono; [ eapply H | cbn beta; intros pat ].

(** ** Lists *)

(** [Vec::pop]: the last element and the rest. *)
Definition vec_pop {A} (l : list A) : option (A * list A) :=
  match rev l with [] => None | x :: r => Some (x, rev r) end.

Lemma vec_pop_snoc {A} (l : list A) x : vec_pop (l ++ [x]) = Some (x, l).
Proof. unfold vec_pop. rewrite rev_app_distr. simpl. by rewrite rev_involutive. Qed.

Lemma vec_pop_None {A} (l : list A) : vec_pop l = None → l = [].
Proof. destruct l as [|x l _] using rev_ind; [done|]. by rewrite vec_pop_snoc. Qed.

Lemma vec_pop_Some {A} (l : list A) x r : vec_pop l = Some (x, r) → l = r ++ [x].
Proof.
  destruct l as [|y l _] using rev_ind; [done|]. rewrite vec_pop_snoc. naive_solver.
Qed.

Lemma len_nil {A} : len (@nil A) = 0.
Proof. done. Qed.
Lemma len_cons {A} (x : A) l : len (x :: l) = len l + 1.
Proof. unfold len. simpl. lia. Qed.
Lemma len_app {A} (l k : list A) : len (l ++ k) = len l + len k.
Proof. unfold len. rewrite length_app. lia. Qed.
Lemma len_snoc {A} (l : list A) x : len (l ++ [x]) = len l + 1.
Proof. rewrite len_app, len_cons, len_nil. lia. Qed.
Create Rewrite HintDb len.
#[export] Hint Rewrite @len_nil @len_cons @len_app : len.

Lemma as_u32_small n : n < U32 → as_u32 n = n.
Proof. apply N.mod_small. Qed.
Lemma fetch_add32_small a b : a + b < U32 → fetch_add32 a b = a + b.
Proof. apply N.mod_small. Qed.
Lemma fetch_add64_small a b : a + b < U64 → fetch_add64 a b = a + b.
Proof. apply N.mod_small. Qed.
Lemma add_u_small `{Features} w a b : a + b < w → add_u w a b = Val (a + b).
Proof. unfold add_u. intros Hlt%N.ltb_lt. by rewrite Hlt. Qed.

Section filter.
Context {A : Type} (P : A → Prop) `{∀ x, Decision (P x)}.
Implicit Types l : list A.

Lemma filter_all l : (∀ x, x ∈ l → P x) → filter P l = l.
Proof.
  induction l as [|x l IH]; intros HP; [done|].
  rewrite filter_cons_True, IH; set_solver.
Qed.

Lemma Forall_filter_sub (Q : A → Prop) l : Forall Q l → Forall Q (filter P l).
Proof. rewrite !Forall_forall. intros HQ x [_ Hx]%list_elem_of_filter. auto. Qed.
End filter.

(** [map] with a function that leaves every element alone. *)
Lemma fmap_id_on {A} (f : A → A) (l : list A) : (∀ x, x ∈ l → f x = x) → f <$> l = l.
Proof. induction l as [|x l IH]; intros Hf; simpl; [done|]. f_equal; set_solver. Qed.

Lemma last_cons_default {A} (x : A) (l : list A) : last (x :: l) = Some (default x (last l)).
Proof. rewrite last_cons. by destruct (last l). Qed.

(** ** Calls in sequence *)

(** Each call is followed by [?]; the calls made are kept. *)
Fixpoint attempt {C E} (sys : C → result unit E) (calls : list C) : result unit E * list C :=
  match calls with
  | [] => (Ok tt, [])
  | c :: calls =>
      match sys c with
      | Err e => (Err e, [c])
      | Ok _ => let '(r, made) := attempt sys calls in (r, c :: made)
      end
  end.

Lemma attempt_spec {C E} (sys : C → result unit E) calls :
  match attempt sys calls with
  | (Ok _, made) => made = calls ∧ ∀ c, c ∈ calls → sys c = Ok tt
  | (Err e, made) => ∃ before c after, calls = before ++ c :: after ∧ made = before ++ [c] ∧
      sys c = Err e ∧ ∀ d, d ∈ before → sys d = Ok tt
  end.
Proof.
  induction calls as [|c calls IH]; cbn [attempt].
  { split; [done|]. by intros ? ?%not_elem_of_nil. }
  destruct (sys c) as [[]|e] eqn:Hc.
  - destruct (attempt sys calls) as [[[]|e] made].
    + destruct IH as [-> Hall]. split; [done|]. by intros d [->|Hd]%elem_of_cons; [|apply Hall].
    + destruct IH as (before & d & after & -> & -> & He & Hall). exists (c :: before), d, after.
      split_and!; [done..|]. by intros x [->|Hx]%elem_of_cons; [|apply Hall].
  - exists [], c, calls. split_and!; [done..|]. by intros ? ?%not_elem_of_nil.
Qed.
