(* ===== verification/Manage.v ===== *)
(** The manager the pool is given, the runtime it runs on, and the error a
    checkout can return ([src/src/manage.rs]). *)

From S2P Require Import Prelude.

(** [std::time::Instant] and [Duration] in nanoseconds. *)
Abbreviation Instant := N (only parsing).
Abbreviation Duration := N (only parsing).

Definition from_micros (us : N) : Duration := us * 1000.
Definition from_millis (ms : N) : Duration := ms * 1000000.
Definition from_secs (s : N) : Duration := s * 1000000000.
Definition as_micros (d : Duration) : N := d / 1000.

(** The largest [Duration]: [u64::MAX] seconds and 999999999 nanoseconds. *)
Definition duration_max : Duration := 18446744073709551615 * 1000000000 + 999999999.

(** [Instant::duration_since], which saturates at zero. *)
Definition duration_since (now earlier : Instant) : Duration := now - earlier.

(** ** The manager

    The trait's methods run code the pool cannot see.  Each call is answered by
    an oracle indexed by the occasion of the call (the store's tick), so a
    theorem quantifies over every manager, stateful ones included.  Polling the
    future of [connect] or [is_valid] answers [Pending] or its output; both
    [is_valid] and [has_broken] may change the connection they are lent. *)
Class ManageConnection (C E : Type) := {
  connect : nat → Poll (result C E);
  is_valid : nat → C → Poll (result unit E) * C;
  has_broken : nat → C → bool * C
}.

(** ** The runtime

    What the pool reads from outside its thread's store: the monotonic clock,
    the shared shutdown flag as other threads may have set it, and compio's
    timers.  [timer] is the verdict a [compio::time::timeout] reaches when it is
    polled: its delay is checked before the future it bounds ([Fires_before]),
    after it ([Fires_after]), or has not elapsed.  [sleep_done first t] answers a
    poll of [compio::time::sleep]; [first] tells the future's first poll. *)
Inductive timer_verdict := Not_elapsed | Fires_before | Fires_after.

Class Runtime := {
  instant_now : nat → Instant;
  close_seen : nat → bool;
  sleep_done : bool → nat → bool;
  timer : Duration → nat → timer_verdict
}.

(** What compio and the clock document: time does not go back, and a sleep of
    nonzero length suspends its task at least once. *)
Class RuntimeLaws (R : Runtime) : Prop := {
  instant_mono : ∀ s t, (s ≤ t)%nat → instant_now s ≤ instant_now t;
  sleep_suspends : ∀ t, sleep_done true t = false
}.

(** ** [RunError] *)

Inductive RunError (E : Type) : Type :=
| User (e : E)
| TimedOut
| Closed.
Arguments User {E} e.
Arguments TimedOut {E}.
Arguments Closed {E}.

(** [Display for RunError], over the manager error's own [Display]. *)
Definition RunError_fmt {E} (display : E → string) (e : RunError E) : string :=
  match e with
  | User e => display e
  | TimedOut => "timed out waiting for a pooled connection"
  | Closed => "the connection pool is closed"
  end.

(** [Error::source]: the manager's error, when there is one. *)
Definition RunError_source {E} (e : RunError E) : option E :=
  match e with User e => Some e | TimedOut | Closed => None end.
