(* ===== verification/Builder.v ===== *)
(** [Builder] and the configuration it resolves ([src/src/builder.rs]). *)

From S2P Require Import Prelude Manage.

Inductive BuildError := ZeroMaxSize.

Definition BuildError_fmt (e : BuildError) : string :=
  match e with ZeroMaxSize => "max_size must be at least 1" end.

Record PoolConfig := mkConfig {
  max_size : N;
  min_idle : N;
  connection_timeout : Duration;
  idle_timeout : option Duration;
  max_lifetime : option Duration;
  test_on_check_out : bool;
  retry_connection : bool
}.

(** [PoolConfig::default]. *)
Definition default_config : PoolConfig := {|
  max_size := 10;
  min_idle := 0;
  connection_timeout := from_secs 30;
  idle_timeout := Some (from_secs (10 * 60));
  max_lifetime := Some (from_secs (30 * 60));
  test_on_check_out := true;
  retry_connection := false
|}.

(** The builder is its configuration: the manager type is a phantom. *)
Record Builder := mkBuilder { config : PoolConfig }.

Definition builder_new : Builder := mkBuilder default_config.
Definition builder_clone (b : Builder) : Builder := mkBuilder b.(config).

Definition with_max_size (n : N) (b : Builder) : Builder :=
  let '(mkConfig _ mi ct it ml tc rc) := b.(config) in
  mkBuilder (mkConfig n mi ct it ml tc rc).
Definition with_min_idle (n : N) (b : Builder) : Builder :=
  let '(mkConfig ms _ ct it ml tc rc) := b.(config) in
  mkBuilder (mkConfig ms n ct it ml tc rc).
Definition with_connection_timeout (d : Duration) (b : Builder) : Builder :=
  let '(mkConfig ms mi _ it ml tc rc) := b.(config) in
  mkBuilder (mkConfig ms mi d it ml tc rc).
Definition with_idle_timeout (d : option Duration) (b : Builder) : Builder :=
  let '(mkConfig ms mi ct _ ml tc rc) := b.(config) in
  mkBuilder (mkConfig ms mi ct d ml tc rc).
Definition with_max_lifetime (d : option Duration) (b : Builder) : Builder :=
  let '(mkConfig ms mi ct it _ tc rc) := b.(config) in
  mkBuilder (mkConfig ms mi ct it d tc rc).
Definition with_test_on_check_out (yes : bool) (b : Builder) : Builder :=
  let '(mkConfig ms mi ct it ml _ rc) := b.(config) in
  mkBuilder (mkConfig ms mi ct it ml yes rc).
Definition with_retry_connection (yes : bool) (b : Builder) : Builder :=
  let '(mkConfig ms mi ct it ml tc _) := b.(config) in
  mkBuilder (mkConfig ms mi ct it ml tc yes).

(** [Pool::new]: the blueprint, the manager and configuration behind one [Arc].
    The shutdown flag and the metrics registry it also creates are modelled
    where they are used, in Store.v and Registry.v. *)
Record Blueprint (Mgr : Type) := mkBlueprint {
  manager : Mgr;
  shared_config : PoolConfig
}.
Arguments mkBlueprint {Mgr} _ _.
Arguments manager {Mgr} _.
Arguments shared_config {Mgr} _.

(** [Builder::build]. *)
Definition build {Mgr} (b : Builder) (m : Mgr) : result (Blueprint Mgr) BuildError :=
  if b.(config).(max_size) =? 0 then Err ZeroMaxSize
  else
    let c := (with_min_idle (b.(config).(min_idle) `min` b.(config).(max_size)) b).(config) in
    Ok (mkBlueprint m c).

(** A configuration [build] lets through, with sizes that are [u32] values. *)
Record config_ok (cfg : PoolConfig) : Prop := {
  max_size_pos : 1 ≤ cfg.(max_size);
  max_size_u32 : cfg.(max_size) < U32;
  min_idle_le : cfg.(min_idle) ≤ cfg.(max_size)
}.

(** [build] refuses exactly the zero [max_size]; every other builder yields
    a pool whose manager is the one given and whose configuration is the
    builder's with [min_idle] capped at [max_size], all other settings kept. *)
Theorem build_spec {Mgr} (b : Builder) (m : Mgr) :
  b.(config).(max_size) < U32 →
  (build b m = Err ZeroMaxSize ↔ b.(config).(max_size) = 0) ∧
  (∀ p, build b m = Ok p →
     p.(manager) = m ∧ config_ok p.(shared_config) ∧
     p.(shared_config).(max_size) = b.(config).(max_size) ∧
     p.(shared_config).(min_idle) = b.(config).(min_idle) `min` b.(config).(max_size) ∧
     p.(shared_config).(connection_timeout) = b.(config).(connection_timeout) ∧
     p.(shared_config).(idle_timeout) = b.(config).(idle_timeout) ∧
     p.(shared_config).(max_lifetime) = b.(config).(max_lifetime) ∧
     p.(shared_config).(test_on_check_out) = b.(config).(test_on_check_out) ∧
     p.(shared_config).(retry_connection) = b.(config).(retry_connection)).
Proof.
  destruct b as [[ms mi ct it ml tc rc]]. unfold build. simpl. intros Hu.
  destruct (N.eqb_spec ms 0) as [->|Hne].
  - split; [done|]. intros p Hp. discriminate Hp.
  - split; [split; [intros H; discriminate H|lia]|].
    intros p [= <-]. simpl. repeat split; simpl; lia.
Qed.

(** The default builder's pool: ten connections, no floor. *)
Lemma build_spec_witness :
  10 < U32 ∧ build builder_new tt ≠ Err ZeroMaxSize ∧
  build (with_min_idle 99 builder_new) tt =
    Ok (mkBlueprint tt (with_min_idle 10 builder_new).(config)).
Proof.
  split; [reflexivity|]. split; [|reflexivity].
  intros H. apply (proj1 (build_spec builder_new tt eq_refl)) in H. discriminate H.
Defined.
