(* ===== verification/Metrics.v ===== *)
(** The counters: [State], [Statistics] and the per-thread [Metrics] block
    ([src/src/pool.rs]). *)

From S2P Require Import Prelude Manage.

(** ** Snapshots *)

Record State := mkState {
  connections : N;
  idle_connections : N;
  pending_waiters : N
}.

Record Statistics := mkStatistics {
  get_direct : N;
  get_waited : N;
  get_timed_out : N;
  connections_created : N;
  connections_closed_broken : N;
  connections_closed_idle_timeout : N;
  connections_closed_max_lifetime : N;
  connections_closed_manual : N;
  total_wait_time : Duration
}.

#[export] Instance State_eq_dec : EqDecision State.
Proof. solve_decision. Defined.
#[export] Instance Statistics_eq_dec : EqDecision Statistics.
Proof. solve_decision. Defined.

(** [State::default] and [Statistics::default]. *)
Definition state_default : State := mkState 0 0 0.
Definition statistics_default : Statistics := mkStatistics 0 0 0 0 0 0 0 0 0.

(** [Duration::checked_div] by a [u32], and [unwrap_or_default]. *)
Definition checked_div (d : Duration) (n : N) : option Duration :=
  if n =? 0 then None else Some (d / n).

(** [Statistics::average_wait_time]. *)
Definition average_wait_time (s : Statistics) : Duration :=
  default 0 (checked_div s.(total_wait_time) (as_u32 s.(get_waited))).

(** [Duration::add_assign], which panics on overflow in every profile. *)
Definition duration_add (a b : Duration) : outcome Duration :=
  if a + b <=? duration_max then Val (a + b) else Panic.

Section add.
Context `{Features}.

(** [State::add]. *)
Definition State_add (s o : State) : outcome State :=
  c ← add_u U32 s.(connections) o.(connections);
  i ← add_u U32 s.(idle_connections) o.(idle_connections);
  w ← add_u U32 s.(pending_waiters) o.(pending_waiters);
  mret (mkState c i w).

(** [Statistics::add]. *)
Definition Statistics_add (s o : Statistics) : outcome Statistics :=
  a ← add_u U64 s.(get_direct) o.(get_direct);
  b ← add_u U64 s.(get_waited) o.(get_waited);
  c ← add_u U64 s.(get_timed_out) o.(get_timed_out);
  d ← add_u U64 s.(connections_created) o.(connections_created);
  e ← add_u U64 s.(connections_closed_broken) o.(connections_closed_broken);
  f ← add_u U64 s.(connections_closed_idle_timeout) o.(connections_closed_idle_timeout);
  g ← add_u U64 s.(connections_closed_max_lifetime) o.(connections_closed_max_lifetime);
  h ← add_u U64 s.(connections_closed_manual) o.(connections_closed_manual);
  t ← duration_add s.(total_wait_time) o.(total_wait_time);
  mret (mkStatistics a b c d e f g h t).
End add.

(** ** The block *)

Record Metrics := mkMetrics {
  m_connections : N;
  m_idle : N;
  m_waiters : N;
  m_get_direct : N;
  m_get_waited : N;
  m_get_timed_out : N;
  m_connections_created : N;
  m_connections_closed_broken : N;
  m_connections_closed_idle_timeout : N;
  m_connections_closed_max_lifetime : N;
  m_connections_closed_manual : N;
  m_wait_micros : N
}.

(** [Metrics::default]. *)
Definition metrics_default : Metrics := mkMetrics 0 0 0 0 0 0 0 0 0 0 0 0.

(** [store] on the three gauges. *)
Definition store_connections (v : N) (m : Metrics) : Metrics :=
  let '(mkMetrics _ i w a b c d e f g h t) := m in mkMetrics v i w a b c d e f g h t.
Definition store_idle (v : N) (m : Metrics) : Metrics :=
  let '(mkMetrics n _ w a b c d e f g h t) := m in mkMetrics n v w a b c d e f g h t.
Definition store_waiters (v : N) (m : Metrics) : Metrics :=
  let '(mkMetrics n i _ a b c d e f g h t) := m in mkMetrics n i v a b c d e f g h t.

(** The nine cumulative counters, by name: a read and a store each. *)
Inductive counter :=
| GetDirect | GetWaited | GetTimedOut | ConnectionsCreated | ClosedBroken
| ClosedIdleTimeout | ClosedMaxLifetime | ClosedManual | WaitMicros.

#[export] Instance counter_eq_dec : EqDecision counter.
Proof. solve_decision. Defined.

Definition load (k : counter) (m : Metrics) : N :=
  match k with
  | GetDirect => m.(m_get_direct)
  | GetWaited => m.(m_get_waited)
  | GetTimedOut => m.(m_get_timed_out)
  | ConnectionsCreated => m.(m_connections_created)
  | ClosedBroken => m.(m_connections_closed_broken)
  | ClosedIdleTimeout => m.(m_connections_closed_idle_timeout)
  | ClosedMaxLifetime => m.(m_connections_closed_max_lifetime)
  | ClosedManual => m.(m_connections_closed_manual)
  | WaitMicros => m.(m_wait_micros)
  end.

Definition store (k : counter) (v : N) (m : Metrics) : Metrics :=
  let '(mkMetrics n i w a b c d e f g h t) := m in
  match k with
  | GetDirect => mkMetrics n i w v b c d e f g h t
  | GetWaited => mkMetrics n i w a v c d e f g h t
  | GetTimedOut => mkMetrics n i w a b v d e f g h t
  | ConnectionsCreated => mkMetrics n i w a b c v e f g h t
  | ClosedBroken => mkMetrics n i w a b c d v f g h t
  | ClosedIdleTimeout => mkMetrics n i w a b c d e v g h t
  | ClosedMaxLifetime => mkMetrics n i w a b c d e f v h t
  | ClosedManual => mkMetrics n i w a b c d e f g v t
  | WaitMicros => mkMetrics n i w a b c d e f g h v
  end.

Definition count (k : counter) (n : N) (m : Metrics) : Metrics :=
  store k (fetch_add64 (load k m) n) m.

Definition inc_conn (m : Metrics) : Metrics :=
  store_connections (fetch_add32 m.(m_connections) 1) m.
Definition dec_conn (n : N) (m : Metrics) : Metrics :=
  store_connections (saturating_sub m.(m_connections) n) m.
Definition inc_idle (m : Metrics) : Metrics :=
  store_idle (fetch_add32 m.(m_idle) 1) m.
Definition dec_idle (n : N) (m : Metrics) : Metrics :=
  store_idle (saturating_sub m.(m_idle) n) m.

Inductive Expiry := IdleTimeout | MaxLifetime.

#[export] Instance Expiry_eq_dec : EqDecision Expiry.
Proof. solve_decision. Defined.

(** [Metrics::note_expired]. *)
Definition expiry_counter (reason : Expiry) : counter :=
  match reason with IdleTimeout => ClosedIdleTimeout | MaxLifetime => ClosedMaxLifetime end.
Definition metrics_note_expired (reason : Expiry) (m : Metrics) : Metrics :=
  count (expiry_counter reason) 1 m.

Definition snapshot_state (m : Metrics) : State :=
  mkState m.(m_connections) m.(m_idle) m.(m_waiters).

Definition snapshot_statistics (m : Metrics) : Statistics :=
  mkStatistics m.(m_get_direct) m.(m_get_waited) m.(m_get_timed_out)
    m.(m_connections_created) m.(m_connections_closed_broken)
    m.(m_connections_closed_idle_timeout) m.(m_connections_closed_max_lifetime)
    m.(m_connections_closed_manual) (from_micros m.(m_wait_micros)).

(** The order in which [retire_into] visits the counters. *)
Definition retire_order : list counter :=
  [GetDirect; GetWaited; GetTimedOut; ConnectionsCreated; ClosedBroken;
   ClosedIdleTimeout; ClosedMaxLifetime; ClosedManual; WaitMicros].

(** One iteration: [to.fetch_add(from.swap(0))]. *)
Definition retire_one (k : counter) (from into : Metrics) : Metrics * Metrics :=
  (store k 0 from, count k (load k from) into).

(** [Metrics::retire_into]: (the block left behind, the retired block). *)
Definition retire_into (from into : Metrics) : Metrics * Metrics :=
  foldl (λ '(f, i) k, retire_one k f i) (from, into) retire_order.

(** ** Lemmas *)

Lemma load_store k k' v m :
  load k (store k' v m) = if decide (k = k') then v else load k m.
Proof. destruct m, k, k'; reflexivity. Qed.

Lemma load_count k k' n m :
  load k (count k' n m) = if decide (k = k') then fetch_add64 (load k m) n else load k m.
Proof. unfold count. rewrite load_store. by case_decide; subst. Qed.

Lemma snapshot_state_store k v m : snapshot_state (store k v m) = snapshot_state m.
Proof. by destruct m, k. Qed.
Lemma snapshot_state_count k n m : snapshot_state (count k n m) = snapshot_state m.
Proof. apply snapshot_state_store. Qed.

Lemma metrics_ext m m' :
  snapshot_state m = snapshot_state m' → (∀ k, load k m = load k m') → m = m'.
Proof.
  destruct m, m'. intros [=] Hk.
  generalize (Hk GetDirect), (Hk GetWaited), (Hk GetTimedOut), (Hk ConnectionsCreated),
    (Hk ClosedBroken), (Hk ClosedIdleTimeout), (Hk ClosedMaxLifetime), (Hk ClosedManual),
    (Hk WaitMicros). simpl. intros. by subst.
Qed.

Create Rewrite HintDb metrics.
#[export] Hint Rewrite load_store load_count snapshot_state_store snapshot_state_count : metrics.
