(* ===== verification/Store.v ===== *)
(** The store of one thread's pool: the fields of [Inner] and [Waiters], the
    shared shutdown flag as this thread has read it, and the trace of the wakers
    it ran ([src/src/pool.rs]).  Every operation of the pool is a command of the
    state monad over this store. *)

From S2P Require Import Prelude Manage Builder Metrics.

(** One connection plus the timestamps that decide when it is retired. *)
Record Conn (C : Type) := mkConn {
  raw : C;
  created_at : Instant;
  last_used : Instant
}.
Arguments mkConn {C} _ _ _.
Arguments raw {C} _.
Arguments created_at {C} _.
Arguments last_used {C} _.

(** [max_lifetime] is checked first. *)
Definition expiry {C} (conn : Conn C) (now : Instant) (cfg : PoolConfig) : option Expiry :=
  if match cfg.(max_lifetime) with
     | Some max => max <=? duration_since now conn.(created_at)
     | None => false
     end
  then Some MaxLifetime
  else if match cfg.(idle_timeout) with
     | Some idle => idle <=? duration_since now conn.(last_used)
     | None => false
     end
  then Some IdleTimeout
  else None.

(** A [Waker] is known by the task it wakes: [will_wake] compares tasks. *)
Abbreviation Waker := nat (only parsing).

(** [Waiters], less its handle on the metrics block. *)
Record Waiters := mkWaiters {
  next_id : N;
  woken_upto : N;
  entries : list (N * Waker)
}.

(** [Waiters::new]. *)
Definition waiters_new : Waiters := mkWaiters 1 0 [].

(** [idle], [slots], [metrics] and [waiters] are [Inner]'s fields.  [closed] is
    the shared [AtomicBool] as last read or set on this thread; [tick] counts the
    thread's readings of the clock, the flag, the manager and the timers, and
    indexes the oracles that answer them; [wakes] lists the wakers run so far,
    oldest first, with the id each was queued under. *)
Record World (C : Type) := mkWorld {
  idle : list (Conn C);
  slots : N;
  metrics : Metrics;
  waiters : Waiters;
  closed : bool;
  tick : nat;
  wakes : list (N * Waker)
}.
Arguments mkWorld {C} _ _ _ _ _ _ _.
Arguments idle {C} _.
Arguments slots {C} _.
Arguments metrics {C} _.
Arguments waiters {C} _.
Arguments closed {C} _.
Arguments tick {C} _.
Arguments wakes {C} _.

Section store.
Context {C : Type}.
Implicit Types w : World C.

Definition set_idle (v : list (Conn C)) w : World C :=
  let '(mkWorld _ s m q c t l) := w in mkWorld v s m q c t l.
Definition set_slots (v : N) w : World C :=
  let '(mkWorld i _ m q c t l) := w in mkWorld i v m q c t l.
Definition map_metrics (f : Metrics → Metrics) w : World C :=
  let '(mkWorld i s m q c t l) := w in mkWorld i s (f m) q c t l.
Definition set_waiters (v : Waiters) w : World C :=
  let '(mkWorld i s m _ c t l) := w in mkWorld i s m v c t l.
Definition set_closed (v : bool) w : World C :=
  let '(mkWorld i s m q _ t l) := w in mkWorld i s m q v t l.
Definition next_tick w : World C :=
  let '(mkWorld i s m q c t l) := w in mkWorld i s m q c (S t) l.
Definition log_wake (e : N * Waker) w : World C :=
  let '(mkWorld i s m q c t l) := w in mkWorld i s m q c t (l ++ [e]).

(** The store [LocalPool::new] makes, on a pool whose flag reads [c]. *)
Definition world_new (c : bool) (t : nat) : World C :=
  mkWorld [] 0 metrics_default waiters_new c t [].
End store.

Section primitives.
Context {C : Type} `{Features} `{Runtime}.

(** Consult an oracle: the answer for this occasion, and time moves on. *)
Definition ask {A} (f : nat → A) : St (World C) A :=
  t ← gets tick; modify next_tick;; mret (f t).

(** [Instant::now()]. *)
Definition now : St (World C) Instant := ask instant_now.

(** [self.shared.closed.load(Relaxed)]: another thread may have set the flag
    since it was last read; once read as set it stays set. *)
Definition load_closed : St (World C) bool :=
  remote ← ask close_seen;
  mine ← gets closed;
  modify (set_closed (mine || remote));;
  mret (mine || remote).

(** An update of the metrics block, compiled in by the [metrics] feature. *)
Definition metric (f : Metrics → Metrics) : St (World C) unit :=
  when feature_metrics (modify (map_metrics f)).
End primitives.

(** The observable fields of an updated store. *)
Ltac world_simpl :=
  cbn [idle slots metrics waiters closed tick wakes set_idle set_slots map_metrics
       set_waiters set_closed next_tick log_wake next_id woken_upto entries] in *.

(** ** Expiry *)

Section expiry.
Context {C : Type} (cfg : PoolConfig).
Implicit Types c : Conn C.

(** Too old, or unused for too long. *)
Definition too_old c (t : Instant) : Prop :=
  ∃ max, cfg.(max_lifetime) = Some max ∧ max ≤ t - c.(created_at).
Definition too_idle c (t : Instant) : Prop :=
  ∃ d, cfg.(idle_timeout) = Some d ∧ d ≤ t - c.(last_used).

Lemma expiry_cases c t :
  match expiry c t cfg with
  | Some MaxLifetime => too_old c t
  | Some IdleTimeout => ¬ too_old c t ∧ too_idle c t
  | None => ¬ too_old c t ∧ ¬ too_idle c t
  end.
Proof.
  unfold expiry, too_old, too_idle, duration_since.
  destruct (max_lifetime cfg) as [max|], (idle_timeout cfg) as [d|];
    repeat case_match; rewrite ?N.leb_le, ?N.leb_gt in *; naive_solver lia.
Qed.

Lemma expiry_mono c t t' :
  t ≤ t' → is_Some (expiry c t cfg) → is_Some (expiry c t' cfg).
Proof.
  intros Hle. generalize (expiry_cases c t), (expiry_cases c t').
  destruct (expiry c t' cfg) as [[]|]; [by eauto..|].
  intros Ht [Hno Hni] [r Hr]. exfalso. rewrite Hr in Ht.
  destruct r; destruct_and?; unfold too_old, too_idle in *; naive_solver lia.
Qed.
End expiry.
