(* ===== verification/Waiters.v ===== *)
(** The FIFO of parked tasks: [Waiters] and its operations
    ([src/src/pool.rs]), and their refinement of a plain queue of ids. *)

From S2P Require Import Prelude Manage Builder Metrics Store.
From Stdlib Require Import Sorting.Sorted.

(** ** [slice::binary_search] on the keys

    The standard library's search: halve [size] while keeping the last position
    whose key is not greater than the target in [base, base + size). *)

Fixpoint bs_narrow (fuel : nat) (ks : list N) (x : N) (base size : nat) : nat :=
  match fuel with
  | O => base
  | S fuel =>
      if (size <=? 1)%nat then base
      else
        let half := (size / 2)%nat in
        let mid := (base + half)%nat in
        let base := match ks !! mid with
                    | Some k => if x <? k then base else mid
                    | None => base
                    end in
        bs_narrow fuel ks x base (size - half)
  end.

Definition binary_search (ks : list N) (x : N) : result nat nat :=
  match length ks with
  | O => Err O
  | n =>
      let base := bs_narrow n ks x O n in
      match ks !! base with
      | Some k => if k =? x then Ok base
                  else Err (if k <? x then S base else base)
      | None => Err base
      end
  end.

(** [entries.binary_search_by_key(&id, |(i, _)| *i)]. *)
Definition search_entries (es : list (N * Waker)) (id : N) : result nat nat :=
  binary_search es.*1 id.

Section waiters.
Context {C : Type} `{Features} `{Runtime}.
Implicit Types w : World C.

(** [Waiters::len]. *)
Definition waiters_len : St (World C) N :=
  q ← gets waiters; mret (as_u32 (len q.(entries))).

(** [Waiters::mirror]: the queue length into the cross-thread gauge. *)
Definition mirror (l : N) : St (World C) unit := metric (store_waiters (as_u32 l)).

(** [Waiters::register]: the id the waiter goes on under. *)
Definition register (id : option N) (waker : Waker) : St (World C) (option N) :=
  q ← gets waiters;
  let fresh :=
    nid ← lift (add_u U64 q.(next_id) 1);
    let es := q.(entries) ++ [(q.(next_id), waker)] in
    modify (set_waiters (mkWaiters nid q.(woken_upto) es));;
    mirror (len es);;
    mret (Some q.(next_id)) in
  match id with
  | Some existing =>
      if q.(woken_upto) <? existing then
        match search_entries q.(entries) existing with
        | Ok pos =>
            match q.(entries) !! pos with
            | Some (i, old) =>
                when (negb (old =? waker)%nat)
                  (modify (set_waiters
                    (mkWaiters q.(next_id) q.(woken_upto) (<[pos := (i, waker)]> q.(entries)))));;
                mret id
            | None => panic
            end
        | Err _ => fresh
        end
      else fresh
  | None => fresh
  end.

(** [Waiters::unregister]: was it still queued? *)
Definition unregister (id : N) : St (World C) bool :=
  q ← gets waiters;
  if id <=? q.(woken_upto) then mret false
  else
    match search_entries q.(entries) id with
    | Ok pos =>
        let es := delete pos q.(entries) in
        modify (set_waiters (mkWaiters q.(next_id) q.(woken_upto) es));;
        mirror (len es);;
        mret true
    | Err _ => mret false
    end.

(** One round of the loop of [Waiters::wake]; [false] is its [break]. *)
Definition wake_one : St (World C) bool :=
  q ← gets waiters;
  match q.(entries) with
  | [] => mret false
  | (id, waker) :: es =>
      modify (set_waiters (mkWaiters q.(next_id) q.(woken_upto) es));;
      mirror (len es);;
      modify (set_waiters (mkWaiters q.(next_id) id es));;
      modify (log_wake (id, waker));;
      mret true
  end.

Fixpoint wake_loop (n : nat) : St (World C) unit :=
  match n with
  | O => skip
  | S n => more ← wake_one; if more : bool then wake_loop n else skip
  end.

(** [Waiters::wake]. *)
Definition wake (n : N) : St (World C) unit := wake_loop (N.to_nat n).

(** [Waiters::wake_all]. *)
Definition wake_all : St (World C) unit :=
  q ← gets waiters; wake (len q.(entries) `min` u32_max).
End waiters.

(** ** Binary search on a sorted queue *)

Section search.
Implicit Types ks : list N.

Lemma sorted_lookup_lt ks i j x y :
  StronglySorted N.lt ks → ks !! i = Some x → ks !! j = Some y →
  (i < j)%nat → x < y.
Proof.
  intros Hs. revert i j. induction Hs as [|k ks Hs IH Hall]; [done|].
  intros [|i] [|j] Hi Hj Hlt; simplify_eq/=; try lia.
  - rewrite Forall_forall in Hall. apply Hall. by eapply list_elem_of_lookup_2.
  - apply (IH i j); auto; lia.
Qed.

Lemma sorted_lookup_inj ks i j x :
  StronglySorted N.lt ks → ks !! i = Some x → ks !! j = Some x → i = j.
Proof.
  intros Hs Hi Hj. destruct (Nat.lt_total i j) as [Hlt|[?|Hlt]]; [exfalso|done|exfalso].
  - eapply N.lt_irrefl, (sorted_lookup_lt ks i j); eauto.
  - eapply N.lt_irrefl, (sorted_lookup_lt ks j i); eauto.
Qed.

(** The window always holds every position of the target. *)
Lemma bs_narrow_spec fuel ks x base size :
  StronglySorted N.lt ks → (0 < size ≤ fuel)%nat → (base + size ≤ length ks)%nat →
  (∀ i, ks !! i = Some x → base ≤ i < base + size)%nat →
  (bs_narrow fuel ks x base size < length ks)%nat ∧
  ∀ i, ks !! i = Some x → i = bs_narrow fuel ks x base size.
Proof.
  revert base size. induction fuel as [|fuel IH]; intros base size Hs Hf Hlen Hwin; [lia|].
  cbn [bs_narrow]. destruct (Nat.leb_spec size 1).
  { split; [lia|]. intros i Hi%Hwin. lia. }
  assert (0 < size / 2 < size)%nat.
  { split; [apply Nat.div_str_pos; lia|apply Nat.div_lt; lia]. }
  destruct (lookup_lt_is_Some_2 ks (base + size / 2)) as [k Hk]; [lia|].
  rewrite Hk. destruct (N.ltb_spec x k) as [Hlt|Hge]; apply IH; try done; try lia.
  - intros i Hi. specialize (Hwin i Hi). pose proof (Nat.div_mod_eq size 2).
    destruct (Nat.lt_ge_cases i (base + size / 2)) as [|[Hle| <-]%Nat.lt_eq_cases];
      [lia| |simplify_eq; lia].
    assert (k < x); [|lia]. by apply (sorted_lookup_lt ks (base + size / 2)%nat i).
  - intros i Hi. specialize (Hwin i Hi).
    destruct (Nat.lt_ge_cases i (base + size / 2)) as [Hlt'|]; [|lia].
    assert (x < k) by (eapply sorted_lookup_lt; eauto). lia.
Qed.

Lemma binary_search_ok ks x i :
  StronglySorted N.lt ks → binary_search ks x = Ok i ↔ ks !! i = Some x.
Proof.
  intros Hs. unfold binary_search. destruct (length ks) as [|n] eqn:Hlen.
  { destruct ks; [|done]. done. }
  destruct (bs_narrow_spec (S n) ks x 0 (S n)) as [Hlt Huniq]; try done; try lia.
  { intros j Hj%lookup_lt_Some. lia. }
  set (b := bs_narrow (S n) ks x 0 (S n)) in *.
  destruct (lookup_lt_is_Some_2 ks b) as [k Hk]; [lia|]. rewrite Hk.
  destruct (N.eqb_spec k x) as [->|Hne]; split.
  - by intros [= <-].
  - intros Hi. f_equal. symmetry. by apply Huniq.
  - done.
  - intros Hi. rewrite (Huniq i Hi) in Hi. congruence.
Qed.

Lemma binary_search_err ks x :
  StronglySorted N.lt ks → x ∉ ks → ∃ i, binary_search ks x = Err i.
Proof.
  intros Hs Hx. destruct (binary_search ks x) as [i|i] eqn:E; [|eauto].
  apply binary_search_ok in E; [|done]. by apply list_elem_of_lookup_2 in E.
Qed.

Lemma binary_search_in ks x :
  StronglySorted N.lt ks → x ∈ ks → ∃ i, binary_search ks x = Ok i ∧ ks !! i = Some x.
Proof.
  intros Hs [i Hi]%list_elem_of_lookup. exists i. split; [|done].
  by apply binary_search_ok.
Qed.
End search.

(** ** What the queue operations do to the store *)

Section exact.
Context {C : Type} `{Features} `{Runtime}.
Implicit Types w : World C.

(** The metrics block once the queue length is mirrored into it. *)
Definition mirrored (es : list (N * Waker)) (m : Metrics) : Metrics :=
  if feature_metrics then store_waiters (as_u32 (len es)) m else m.

(** The store with queue [q], mirrored. *)
Definition requeued (q : Waiters) w : World C :=
  mkWorld w.(idle) w.(slots) (mirrored q.(entries) w.(metrics)) q w.(closed)
    w.(tick) w.(wakes).

Definition woken_queue (n : nat) (q : Waiters) : Waiters :=
  mkWaiters q.(next_id) (default q.(woken_upto) (last (take n q.(entries)).*1))
    (drop n q.(entries)).

(** The store after up to [n] wakes: the oldest [n] entries have left the
    queue for the wake trace. *)
Definition woken_world (n : nat) w : World C :=
  match take n w.(waiters).(entries) with
  | [] => w
  | taken =>
      mkWorld w.(idle) w.(slots)
        (mirrored (drop n w.(waiters).(entries)) w.(metrics))
        (woken_queue n w.(waiters)) w.(closed) w.(tick) (w.(wakes) ++ taken)
  end.

Lemma mirrored_mirrored es es' m : mirrored es (mirrored es' m) = mirrored es m.
Proof. unfold mirrored. destruct feature_metrics; [|done]. by destruct m. Qed.

Lemma wake_one_run i s m nx up id wk es c t l :
  wake_one (mkWorld (C:=C) i s m (mkWaiters nx up ((id, wk) :: es)) c t l) =
    Val (true, mkWorld i s (mirrored es m) (mkWaiters nx id es) c t (l ++ [(id, wk)])).
Proof. unfold wake_one, mirror, metric, mirrored. by destruct feature_metrics. Qed.

Lemma wake_loop_S n w b w' :
  wake_one w = Val (b, w') → wake_loop (S n) w = (if b : bool then wake_loop n else skip) w'.
Proof. intros E. cbn [wake_loop]. unfold mbind, St_bind. by rewrite E. Qed.

Lemma wake_loop_run n w : wake_loop n w = Val (tt, woken_world n w).
Proof.
  revert w. induction n as [|n IH]; intros w; [by destruct w|].
  destruct w as [i s m [nx up es] c t l].
  destruct es as [|[id wk] es]; [done|].
  rewrite (wake_loop_S _ _ _ _ (wake_one_run _ _ _ _ _ _ _ _ _ _ _)).
  rewrite IH. do 2 f_equal. unfold woken_world, woken_queue. cbn.
  destruct (take n es) as [|e tk] eqn:E.
  - cbn. destruct n as [|n]; [done|]. by destruct es.
  - rewrite fmap_cons. cbn. rewrite mirrored_mirrored, <-app_assoc. f_equal.
    f_equal. by rewrite !last_cons_default.
Qed.

Lemma wake_run n w : wake n w = Val (tt, woken_world (N.to_nat n) w).
Proof. apply wake_loop_run. Qed.

Lemma wake_all_run w :
  wake_all w = Val (tt, woken_world (N.to_nat (len w.(waiters).(entries) `min` u32_max)) w).
Proof. apply wake_run. Qed.

(** The queue as the wakes leave it, whether or not any happened. *)
Lemma woken_world_waiters n w :
  (woken_world n w).(waiters) = woken_queue n w.(waiters).
Proof.
  unfold woken_world, woken_queue. destruct w as [i s m [nx up es] c t l]. cbn.
  destruct (take n es) eqn:E; [|done]. cbn. f_equal.
  destruct n; [done|]. by destruct es.
Qed.
Lemma woken_world_wakes n w :
  (woken_world n w).(wakes) = w.(wakes) ++ take n w.(waiters).(entries).
Proof.
  unfold woken_world. destruct (take _ _) eqn:E; [|done]. by rewrite app_nil_r.
Qed.
End exact.

(** ** The abstract queue

    What the waiter list promises, without ids issued in order, watermark or
    search: a FIFO of (id, waker) from which a waiter is removed, or in which its
    waker is replaced, by looking its id up in the whole list. *)

Definition fifo_remove (id : N) (es : list (N * Waker)) : list (N * Waker) :=
  filter (λ e, e.1 ≠ id) es.

Definition fifo_refresh (id : N) (waker : Waker) (es : list (N * Waker)) :
    list (N * Waker) :=
  (λ e, if decide (e.1 = id) then (id, waker) else e) <$> es.

(** Does [id] still wait in [es]? *)
Definition fifo_queued (id : option N) (es : list (N * Waker)) : Prop :=
  match id with Some i => i ∈ es.*1 | None => False end.
#[export] Instance fifo_queued_dec id es : Decision (fifo_queued id es).
Proof. destruct id; simpl; apply _. Defined.

(** ** The invariant

    [X] is the set of ids the live [WaitReady] futures hold.  An owned id above
    the watermark is queued, one at or below it has been woken. *)
Record wait_inv (X : gset N) (q : Waiters) : Prop := {
  wi_sorted : StronglySorted N.lt q.(entries).*1;
  wi_upto : q.(woken_upto) < q.(next_id);
  wi_entries : ∀ i, i ∈ q.(entries).*1 ↔ i ∈ X ∧ q.(woken_upto) < i;
  wi_next : ∀ i, i ∈ X → i < q.(next_id)
}.

Section sorted.
Implicit Types ks : list N.

Lemma sorted_NoDup ks : StronglySorted N.lt ks → NoDup ks.
Proof.
  intros Hs. apply NoDup_alt. intros i j x Hi Hj. by eapply sorted_lookup_inj.
Qed.

Lemma sorted_snoc ks x :
  StronglySorted N.lt ks → (∀ k, k ∈ ks → k < x) → StronglySorted N.lt (ks ++ [x]).
Proof.
  induction 1 as [|k ks Hs IH Hall]; intros Hlt; simpl.
  - repeat constructor.
  - constructor; [apply IH; set_solver|].
    apply Forall_app. split; [done|]. constructor; [|done]. apply Hlt. set_solver.
Qed.

Lemma sorted_filter {A} (f : A → N) (P : A → Prop) `{∀ x, Decision (P x)} (l : list A) :
  StronglySorted N.lt (f <$> l) → StronglySorted N.lt (f <$> filter P l).
Proof.
  induction l as [|a l IH]; [done|]. inversion_clear 1 as [|?? Hs Hall].
  rewrite filter_cons. destruct (decide (P a)); [|by apply IH].
  rewrite fmap_cons. constructor; [by apply IH|].
  rewrite Forall_fmap in Hall |- *. by apply Forall_filter_sub.
Qed.

(** On a sorted queue, deleting the position found is filtering the key out,
    and writing there is refreshing the key's entry. *)
Lemma delete_fifo_remove (es : list (N * Waker)) pos id :
  StronglySorted N.lt es.*1 → es.*1 !! pos = Some id →
  delete pos es = fifo_remove id es.
Proof.
  intros Hnd%sorted_NoDup. revert pos. unfold fifo_remove.
  induction es as [|[k wk] es IH]; [done|]. inversion_clear Hnd as [|?? Hk Hnd'].
  intros [|pos] Hpos; simplify_eq/=.
  - rewrite filter_cons_False by (simpl; naive_solver).
    symmetry. apply filter_all. intros e He Heq. apply Hk. rewrite <-Heq.
    by apply list_elem_of_fmap_2.
  - rewrite filter_cons_True; [by rewrite IH|]. simpl. intros ->. apply Hk.
    by eapply list_elem_of_lookup_2.
Qed.

Lemma insert_fifo_refresh (es : list (N * Waker)) pos id wk :
  StronglySorted N.lt es.*1 → es.*1 !! pos = Some id →
  <[pos := (id, wk)]> es = fifo_refresh id wk es.
Proof.
  intros Hnd%sorted_NoDup. revert pos. unfold fifo_refresh.
  induction es as [|[k wk'] es IH]; [done|]. inversion_clear Hnd as [|?? Hk Hnd'].
  intros [|pos] Hpos; simplify_eq/=.
  - rewrite decide_True by done. f_equal. symmetry. apply fmap_id_on.
    intros e He. rewrite decide_False; [done|]. intros <-.
    by apply Hk, list_elem_of_fmap_2.
  - rewrite decide_False; [by rewrite IH|]. intros ->. apply Hk.
    by eapply list_elem_of_lookup_2.
Qed.

Lemma fifo_refresh_keys id wk es : (fifo_refresh id wk es).*1 = es.*1.
Proof.
  unfold fifo_refresh. rewrite <-list_fmap_compose. apply list_fmap_ext.
  intros _ [k wk'] _. simpl. by case_decide; subst.
Qed.

Lemma len_fifo_remove (es : list (N * Waker)) id :
  StronglySorted N.lt es.*1 → id ∈ es.*1 → len (fifo_remove id es) + 1 = len es.
Proof.
  intros Hs [pos Hpos]%list_elem_of_lookup.
  rewrite <-(delete_fifo_remove es pos id) by done. unfold len.
  apply lookup_lt_Some in Hpos as Hlt. rewrite length_fmap in Hlt.
  rewrite length_delete by (by apply lookup_lt_is_Some_2). lia.
Qed.

Lemma fifo_remove_none id (l : list (N * Waker)) : id ∉ l.*1 → fifo_remove id l = l.
Proof.
  intros Hid. apply filter_all. intros e He Heq. apply Hid. rewrite <-Heq.
  by apply list_elem_of_fmap_2.
Qed.

Lemma elem_of_fifo_remove id i es : i ∈ (fifo_remove id es).*1 ↔ i ∈ es.*1 ∧ i ≠ id.
Proof.
  unfold fifo_remove. rewrite !list_elem_of_fmap. setoid_rewrite list_elem_of_filter.
  naive_solver.
Qed.
End sorted.

(** ** The operations against the abstract queue *)

Section runs.
Context {C : Type} `{Features} `{Runtime}.
Implicit Types w : World C.

Lemma search_Ok es pos id :
  StronglySorted N.lt es.*1 → search_entries es id = Ok pos → es.*1 !! pos = Some id.
Proof. intros Hs. by apply binary_search_ok. Qed.

(** The binary search and the watermark agree with looking the id up. *)
Lemma search_queued X q id :
  wait_inv X q → q.(woken_upto) < id →
  (id ∈ q.(entries).*1 → ∃ pos, search_entries q.(entries) id = Ok pos) ∧
  (id ∉ q.(entries).*1 → ∃ pos, search_entries q.(entries) id = Err pos).
Proof.
  intros HI Hlt. unfold search_entries. split; intros Hin.
  - destruct (binary_search_in _ _ (wi_sorted _ _ HI) Hin) as (pos & ? & _). eauto.
  - apply binary_search_err; [apply HI|done].
Qed.

Lemma not_queued_woken X q id :
  wait_inv X q → id ≤ q.(woken_upto) → id ∉ q.(entries).*1.
Proof. intros HI Hle Hin. apply (wi_entries _ _ HI) in Hin. lia. Qed.

Lemma unregister_run X id w :
  wait_inv X w.(waiters) →
  unregister id w = Val (bool_decide (fifo_queued (Some id) w.(waiters).(entries)),
    if decide (id ∈ w.(waiters).(entries).*1)
    then requeued (mkWaiters w.(waiters).(next_id) w.(waiters).(woken_upto)
                     (fifo_remove id w.(waiters).(entries))) w
    else w).
Proof.
  destruct w as [i s m q c t l]. intros HI. simpl in HI.
  unfold unregister, mbind at 1, St_bind at 1. simpl.
  destruct (N.leb_spec id (woken_upto q)) as [Hle|Hlt].
  { pose proof (not_queued_woken _ _ _ HI Hle).
    by rewrite bool_decide_eq_false_2, decide_False. }
  destruct (search_queued _ _ _ HI Hlt) as [Hyes Hno].
  case_decide as Hin.
  - destruct (Hyes Hin) as [pos Hpos]. rewrite Hpos, bool_decide_eq_true_2 by done.
    erewrite delete_fifo_remove by (eauto using search_Ok, wi_sorted).
    unfold requeued, mirrored, mirror, metric. by destruct feature_metrics.
  - destruct (Hno Hin) as [pos Hpos]. by rewrite Hpos, bool_decide_eq_false_2.
Qed.

Lemma register_run X id waker w :
  wait_inv X w.(waiters) → w.(waiters).(next_id) + 1 < U64 →
  register id waker w =
    match id with
    | Some i =>
        if decide (i ∈ w.(waiters).(entries).*1)
        then Val (id, set_waiters (mkWaiters w.(waiters).(next_id) w.(waiters).(woken_upto)
                        (fifo_refresh i waker w.(waiters).(entries))) w)
        else Val (Some w.(waiters).(next_id),
               requeued (mkWaiters (w.(waiters).(next_id) + 1) w.(waiters).(woken_upto)
                 (w.(waiters).(entries) ++ [(w.(waiters).(next_id), waker)])) w)
    | None => Val (Some w.(waiters).(next_id),
               requeued (mkWaiters (w.(waiters).(next_id) + 1) w.(waiters).(woken_upto)
                 (w.(waiters).(entries) ++ [(w.(waiters).(next_id), waker)])) w)
    end.
Proof.
  destruct w as [ii s m [nx up es] c t l]. intros HI Hnx. simpl in *.
  assert (Hfresh : ∀ w', w' = mkWorld (C:=C) ii s m (mkWaiters nx up es) c t l →
    (nid ← lift (add_u U64 nx 1);
     modify (set_waiters (mkWaiters nid up (es ++ [(nx, waker)])));;
     mirror (len (es ++ [(nx, waker)]));; mret (Some nx)) w' =
    Val (Some nx, requeued (mkWaiters (nx + 1) up (es ++ [(nx, waker)])) w')).
  { intros w' ->. rewrite add_u_small by done.
    unfold requeued, mirrored, mirror, metric. by destruct feature_metrics. }
  unfold register, mbind at 1, St_bind at 1. simpl.
  destruct id as [i|]; [|by apply Hfresh].
  destruct (N.ltb_spec up i) as [Hlt|Hle].
  - destruct (search_queued _ _ _ HI Hlt) as [Hyes Hno]. simpl in *.
    case_decide as Hin.
    + destruct (Hyes Hin) as [pos Hpos]. rewrite Hpos.
      pose proof (search_Ok _ _ _ (wi_sorted _ _ HI) Hpos) as Hk.
      rewrite <-(insert_fifo_refresh es pos i waker) by (done || apply HI).
      cbn [entries] in Hk. rewrite list_lookup_fmap in Hk.
      destruct (es !! pos) as [[k old]|] eqn:He; [|discriminate Hk].
      injection Hk as ->. destruct (Nat.eqb_spec old waker) as [->|]; [|done].
      by rewrite list_insert_id.
    + destruct (Hno Hin) as [pos Hpos]. rewrite Hpos. by apply Hfresh.
  - rewrite decide_False by (apply (not_queued_woken _ _ _ HI Hle)). by apply Hfresh.
Qed.
End runs.

(** ** The operations keep the invariant *)

Section preserve.
Implicit Types (X : gset N) (q : Waiters) (es : list (N * Waker)).

Lemma wait_inv_new : wait_inv ∅ waiters_new.
Proof. split; simpl; [constructor|lia|set_solver|set_solver]. Qed.

Lemma wait_inv_pop X nx up id wk es :
  wait_inv X (mkWaiters nx up ((id, wk) :: es)) → wait_inv X (mkWaiters nx id es).
Proof.
  intros [Hs Hu He Hn]; simpl in *. inversion_clear Hs as [|?? Hs' Hall].
  rewrite Forall_forall in Hall.
  assert (Hid : id ∈ X ∧ up < id) by (apply He; set_solver).
  split; simpl; [done|naive_solver| |done].
  intros i. split.
  - intros Hi. split; [apply He; set_solver|by apply Hall].
  - intros [Hi Hlt]. assert (Hin : i ∈ id :: es.*1) by (apply He; split; [done|lia]).
    apply elem_of_cons in Hin as [->|]; [lia|done].
Qed.

Lemma woken_queue_cons n nx up id wk es :
  woken_queue (S n) (mkWaiters nx up ((id, wk) :: es)) = woken_queue n (mkWaiters nx id es).
Proof.
  unfold woken_queue. cbn [take drop entries next_id woken_upto fmap list_fmap fst].
  by rewrite last_cons_default.
Qed.

Lemma wait_inv_woken X n q : wait_inv X q → wait_inv X (woken_queue n q).
Proof.
  revert q. induction n as [|n IH]; intros [nx up es] HI; [done|].
  destruct es as [|[id wk] es]; [done|]. rewrite woken_queue_cons.
  by eapply IH, wait_inv_pop.
Qed.

Lemma wait_inv_remove X id nx up es :
  wait_inv X (mkWaiters nx up es) →
  wait_inv (X ∖ {[id]}) (mkWaiters nx up (fifo_remove id es)).
Proof.
  intros [Hs Hu He Hn]; simpl in *. split; simpl; [by apply sorted_filter|done| |set_solver].
  intros i. rewrite elem_of_fifo_remove, He. set_solver.
Qed.

Lemma wait_inv_forget X id q :
  wait_inv X q → id ∉ q.(entries).*1 → wait_inv (X ∖ {[id]}) q.
Proof.
  intros [Hs Hu He Hn] Hid. split; [done|done| |set_solver].
  intros i. rewrite He. split; [|set_solver].
  intros [Hi Hlt]. assert (i ≠ id) by (intros ->; apply Hid, He; done). set_solver.
Qed.

Lemma wait_inv_push X nx up es wk :
  wait_inv X (mkWaiters nx up es) →
  wait_inv ({[nx]} ∪ X) (mkWaiters (nx + 1) up (es ++ [(nx, wk)])).
Proof.
  intros [Hs Hu He Hn]; simpl in *. split; simpl.
  - rewrite fmap_app. apply sorted_snoc; [done|]. intros k Hk. apply He in Hk as [Hk _].
    by apply Hn.
  - lia.
  - intros i. rewrite fmap_app. set_solver by lia.
  - intros i [->%elem_of_singleton|Hi%Hn]%elem_of_union; lia.
Qed.

Lemma wait_inv_refresh X q id wk :
  wait_inv X q →
  wait_inv X (mkWaiters q.(next_id) q.(woken_upto) (fifo_refresh id wk q.(entries))).
Proof. intros [Hs Hu He Hn]. split; simpl in *; by rewrite ?fifo_refresh_keys. Qed.

Lemma wait_inv_size X q : wait_inv X q → len q.(entries) ≤ N.of_nat (size X).
Proof.
  intros HI. unfold len. rewrite <-(length_fmap fst).
  pose proof (sorted_NoDup _ (wi_sorted _ _ HI)) as Hnd.
  rewrite <-(size_list_to_set (C:=gset N)) by done.
  enough (size (list_to_set (C:=gset N) q.(entries).*1) ≤ size X)%nat by lia.
  apply subseteq_size. intros i Hi%elem_of_list_to_set. apply (wi_entries _ _ HI) in Hi. apply Hi.
Qed.

Lemma wait_inv_size_woken X id q :
  wait_inv X q → id ∈ X → id ∉ q.(entries).*1 → len q.(entries) + 1 ≤ N.of_nat (size X).
Proof.
  intros HI Hid Hno. pose proof (wait_inv_size _ _ (wait_inv_forget _ _ _ HI Hno)).
  rewrite size_difference in * by set_solver. rewrite size_singleton in *.
  assert (0 < size X)%nat; [|lia]. enough (size X ≠ 0%nat) by lia.
  rewrite size_empty_iff. set_solver.
Qed.
End preserve.
