(* ===== verification/Inner.v ===== *)
(** [Inner]: one thread's slot count, idle list and waiters, the operations the
    rest of the pool is written in ([src/src/pool.rs]), and the ledger every one
    of them keeps balanced. *)

From S2P Require Import Prelude Manage Builder Metrics Store Waiters.
From Stdlib Require Import Sorting.Sorted.

Section inner.
Context {C : Type} `{Features} `{Runtime}.
Implicit Types w : World C.

(** [Inner::connections] and [Inner::idle_len]. *)
Definition connections : St (World C) N := gets slots.
Definition idle_len : St (World C) N := l ← gets idle; mret (as_u32 (len l)).

(** [Inner::take_slot]. *)
Definition take_slot : St (World C) unit :=
  n ← gets slots;
  n' ← lift (add_u U32 n 1);
  modify (set_slots n');;
  metric inc_conn.

(** [Inner::release_slots]. *)
Definition release_slots (n : N) : St (World C) unit :=
  s ← gets slots;
  modify (set_slots (saturating_sub s n));;
  metric (dec_conn n).

(** [Inner::notify]. *)
Definition notify (n : N) : St (World C) unit :=
  c ← load_closed;
  if c : bool then wake_all else wake n.

(** [Inner::release_slot]. *)
Definition release_slot : St (World C) unit := release_slots 1;; notify 1.

(** [Inner::push_idle]. *)
Definition push_idle (conn : Conn C) : St (World C) unit :=
  l ← gets idle;
  modify (set_idle (l ++ [conn]));;
  metric inc_idle.

(** [Inner::pop_idle]. *)
Definition pop_idle : St (World C) (option (Conn C)) :=
  l ← gets idle;
  match vec_pop l with
  | Some (conn, rest) =>
      modify (set_idle rest);; metric (dec_idle 1);; mret (Some conn)
  | None => mret None
  end.

(** The counting helpers: no-ops without the [metrics] feature. *)
Definition note_expired (reason : Expiry) : St (World C) unit :=
  metric (metrics_note_expired reason).
Definition note_created : St (World C) unit := metric (count ConnectionsCreated 1).
Definition note_broken : St (World C) unit := metric (count ClosedBroken 1).
Definition note_closed_manual (n : N) : St (World C) unit := metric (count ClosedManual n).
End inner.

(** The wakes run so far: in order, up to the watermark, and every one to the
    waker the future was queued with; [own i wk] tells whose waker that must be. *)
Record wake_log (own : N → Waker → Prop) (X : gset N) (q : Waiters) (l : list (N * Waker)) :
    Prop := {
  wl_sorted : StronglySorted N.lt l.*1;
  wl_upto : ∀ i, i ∈ l.*1 → i ≤ q.(woken_upto);
  wl_owner : ∀ i wk, (i, wk) ∈ q.(entries) → own i wk;
  wl_woken : ∀ i, i ∈ X → i ≤ q.(woken_upto) → ∃ wk, own i wk ∧ (i, wk) ∈ l
}.

(** ** The ledger

    [out] slots stand for connections that are checked out or being opened,
    [X] are the ids of the live waiting futures, [nx] bounds the ids issued.
    [d] counts the units of capacity already granted to someone who has still to
    take or pass them on: a queue that is not empty never has more free capacity
    in front of it than there are wakes outstanding. *)
Record ledger {C} `{Features} (cfg : PoolConfig) (own : N → Waker → Prop) (out : N) (X : gset N) (d nx : N)
    (w : World C) : Prop := {
  lg_slots : w.(slots) = len w.(idle) + out;
  lg_max : w.(slots) ≤ cfg.(max_size);
  lg_wait : wait_inv X w.(waiters);
  lg_next : w.(waiters).(next_id) ≤ nx;
  lg_wakes : wake_log own X w.(waiters) w.(wakes);
  lg_share : w.(closed) = false → w.(waiters).(entries) ≠ [] →
             len w.(idle) + (cfg.(max_size) - w.(slots)) + len w.(waiters).(entries)
               ≤ N.of_nat (size X) + d;
  lg_gauges : feature_metrics = true →
              snapshot_state w.(metrics) =
                mkState w.(slots) (len w.(idle)) (as_u32 (len w.(waiters).(entries)))
}.

(** [w'] differs from [w] in the clock, the cumulative counters, and in having
    seen the pool closed. *)
Record same_books {C} (w w' : World C) : Prop := {
  sb_idle : w'.(idle) = w.(idle);
  sb_slots : w'.(slots) = w.(slots);
  sb_waiters : w'.(waiters) = w.(waiters);
  sb_wakes : w'.(wakes) = w.(wakes);
  sb_gauges : snapshot_state w'.(metrics) = snapshot_state w.(metrics);
  sb_closed : w.(closed) = true → w'.(closed) = true
}.

Section ledger.
Context {C : Type} `{Features} `{Runtime} (cfg : PoolConfig) (own : N → Waker → Prop)
  (Hcfg : config_ok cfg).
Implicit Types (w : World C) (X : gset N).

#[local] Hint Constructors same_books : core.

(** Split a ledger whose fields are already computed; what is left are the
    gauges, when the [metrics] feature is on. *)
Ltac ledger_split Hsh :=
  split; simpl; rewrite ?len_snoc in *; auto; try lia; try (intros; congruence);
  try (intros Hc He; specialize (Hsh Hc He); rewrite ?len_snoc in *; lia).

#[export] Instance same_books_preorder : PreOrder (@same_books C).
Proof. split; [by intros []|]. intros [] [] [] [] []. split; simpl in *; subst; auto; congruence. Qed.

Lemma ledger_same out X d nx w w' :
  same_books w w' → ledger cfg own out X d nx w → ledger cfg own out X d nx w'.
Proof.
  intros [Hi Hs Hq Hk Hg Hc] [? ? ? ? ? Hshare ?]. split; rewrite ?Hi, ?Hs, ?Hq, ?Hk, ?Hg; auto.
  intros Hc'. apply Hshare. destruct (closed w); [naive_solver congruence|done].
Qed.

Lemma ledger_weaken out X d d' nx nx' w :
  d ≤ d' → nx ≤ nx' → ledger cfg own out X d nx w → ledger cfg own out X d' nx' w.
Proof.
  intros Hd Hnx []. split; auto; [lia|]. intros Hc He. etrans; [by auto|]. lia.
Qed.

(** Only the owners of live ids matter. *)
Lemma ledger_own own' out X d nx w :
  (∀ i wk, i ∈ X → own i wk → own' i wk) →
  ledger cfg own out X d nx w → ledger cfg own' out X d nx w.
Proof.
  intros Hown [Hs Hm Hw Hn [Hk1 Hk2 Hk3 Hk4] Hsh Hg]. split; auto. split; auto.
  - intros i wk Hin. apply Hown; [|by apply Hk3].
    by apply (list_elem_of_fmap_2 fst), (wi_entries _ _ Hw) in Hin as [].
  - intros i Hi Hle. destruct (Hk4 i Hi Hle) as (wk & ? & ?). eauto.
Qed.

Lemma ledger_idle_u32 out X d nx w : ledger cfg own out X d nx w → len w.(idle) < U32.
Proof. intros []. pose proof (max_size_u32 _ Hcfg). lia. Qed.

(** Consulting an oracle, reading the flag, counting: the books are kept. *)
Lemma ask_books {A} (f : nat → A) w : ask f w = Val (f w.(tick), next_tick w).
Proof. by destruct w. Qed.
Lemma same_books_tick w : same_books w (next_tick w).
Proof. by destruct w. Qed.
Lemma same_books_count k n w :
  same_books w (map_metrics (count k n) w).
Proof. destruct w. split; simpl; auto. apply snapshot_state_count. Qed.
Lemma same_books_closed b w : same_books w (set_closed (closed w || b) w).
Proof. destruct w. split; simpl; auto. by intros ->. Qed.
Lemma same_books_metrics_refl w : same_books w (map_metrics id w).
Proof. by destruct w. Qed.

Lemma wp_ask {A} (f : nat → A) (Q : A → World C → Prop) w :
  Q (f w.(tick)) (next_tick w) → wp (ask f) Q w.
Proof. unfold wp. by rewrite ask_books. Qed.

Lemma wp_load_closed (Q : bool → World C → Prop) w :
  (∀ b w', same_books w w' → w'.(closed) = b → Q b w') → wp load_closed Q w.
Proof.
  intros HQ. unfold load_closed. wp_step. apply wp_ask. wp_steps. apply HQ.
  - destruct w; split; simpl; auto. by intros ->.
  - by destruct w.
Qed.

Lemma wp_metric f (Q : unit → World C → Prop) w :
  Q tt (if feature_metrics then map_metrics f w else w) → wp (metric f) Q w.
Proof. intros HQ. unfold metric. by destruct feature_metrics. Qed.

Lemma wp_note k n (Q : unit → World C → Prop) w :
  (∀ w', same_books w w' → w'.(closed) = w.(closed) → Q tt w') →
  wp (metric (count k n)) Q w.
Proof.
  intros HQ. apply wp_metric. destruct feature_metrics; apply HQ; try done.
  - apply same_books_count.
  - by destruct w.
Qed.

(** A new store owes nothing. *)
Lemma ledger_init c t : ledger cfg own 0 ∅ 0 1 (world_new (C:=C) c t).
Proof.
  split; simpl; rewrite ?len_nil; try done.
  - apply N.le_0_l.
  - apply wait_inv_new.
  - split; simpl; [constructor|set_solver..].
Qed.

(** *** Slots *)

Lemma take_slot_ledger out X d nx w :
  ledger cfg own out X d nx w → w.(slots) < cfg.(max_size) →
  wp take_slot (λ _ w', ledger cfg own (out + 1) X (d - 1) nx w' ∧
    w'.(waiters) = w.(waiters) ∧ w'.(idle) = w.(idle)) w.
Proof.
  intros HL Hlt. pose proof (max_size_u32 _ Hcfg). unfold take_slot. wp_steps.
  eapply wp_lift; [apply add_u_small; unfold U32 in *; lia|]. wp_steps. apply wp_metric.
  destruct HL as [Hs Hm Hw Hn Hk Hsh Hg], w as [i s m q c t l]; simpl in *.
  split; [|by destruct feature_metrics].
  destruct feature_metrics eqn:F; ledger_split Hsh.
  intros _. specialize (Hg eq_refl). destruct m; simpl in *. injection Hg as -> -> ->.
  unfold snapshot_state. simpl. by rewrite fetch_add32_small by (unfold U32 in *; lia).
Qed.

Lemma release_slots_ledger out X d nx n w :
  ledger cfg own (out + n) X d nx w →
  wp (release_slots n) (λ _ w', ledger cfg own out X (d + n) nx w') w.
Proof.
  intros [Hs Hm Hw Hn Hk Hsh Hg]. unfold release_slots. wp_steps. apply wp_metric.
  unfold saturating_sub. destruct w as [i s m q c t l]; simpl in *.
  destruct feature_metrics eqn:F; ledger_split Hsh.
  intros _. specialize (Hg eq_refl). destruct m; simpl in *. by injection Hg as -> -> ->.
Qed.

(** *** Wakes *)

Lemma ledger_woken out X d nx n w :
  ledger cfg own out X (d + N.of_nat n) nx w → ledger cfg own out X d nx (woken_world n w).
Proof.
  revert w. induction n as [|n IH]; intros w HL.
  { apply (ledger_weaken out X (d + N.of_nat 0) d nx nx); [lia|lia|exact HL]. }
  destruct w as [i s m [nxt up es] c t l].
  destruct es as [|[id wk] es].
  { destruct HL as [Hs Hm Hw Hn Hk Hsh Hg]. by split. }
  pose proof (wake_loop_S n _ _ _ (wake_one_run i s m nxt up id wk es c t l)) as E.
  rewrite !wake_loop_run in E. injection E as ->. apply IH. clear IH.
  destruct HL as [Hs Hm Hw Hn [Hk1 Hk2 Hk3 Hk4] Hsh Hg]; simpl in *.
  assert (up < id) by (apply (wi_entries _ _ Hw); set_solver).
  split; simpl; auto.
  - by eapply wait_inv_pop.
  - split; simpl; rewrite ?fmap_app.
    + apply (sorted_snoc _ id); [done|]. intros k Hin%Hk2. lia.
    + intros k [Hin%Hk2| ->%list_elem_of_singleton]%elem_of_app; simpl; lia.
    + intros k wk' Hin. apply Hk3. by right.
    + intros k Hk Hle. destruct (decide (k ≤ up)) as [Hup|Hup].
      * destruct (Hk4 k Hk Hup) as (wk' & ? & ?). exists wk'. set_solver.
      * assert (k ∈ ((id, wk) :: es).*1) as Hq by (apply (wi_entries _ _ Hw); simpl; split; [done|lia]).
        assert (k = id) as ->.
        { simpl in Hq. apply elem_of_cons in Hq as [|Hq]; [done|].
          pose proof (wi_sorted _ _ Hw) as Hso. simpl in Hso.
          apply StronglySorted_inv in Hso as [_ Hall].
          rewrite Forall_forall in Hall. specialize (Hall _ Hq). lia. }
        exists wk. split; [apply Hk3; by left|set_solver].
  - intros Hc He. rewrite len_cons in Hsh. specialize (Hsh Hc ltac:(done)). lia.
  - intros F. rewrite F in *. specialize (Hg eq_refl). unfold mirrored. rewrite F.
    destruct m. by injection Hg as -> -> ->.
Qed.

Lemma wake_ledger out X d nx n w :
  ledger cfg own out X (d + n) nx w → wp (wake n) (λ _ w', ledger cfg own out X d nx w') w.
Proof.
  intros HL. unfold wp. rewrite wake_run. apply ledger_woken. by rewrite N2Nat.id.
Qed.

(** On a pool seen closed, capacity is no longer rationed. *)
Lemma ledger_closed out X d d' nx w :
  w.(closed) = true → ledger cfg own out X d nx w → ledger cfg own out X d' nx w.
Proof. intros Hc []. split; auto. congruence. Qed.

Lemma woken_world_closed n w : (woken_world n w).(closed) = w.(closed).
Proof. unfold woken_world. by destruct (take _ _). Qed.

Lemma wake_all_ledger out X d nx w :
  w.(closed) = true → ledger cfg own out X d nx w →
  wp wake_all (λ _ w', ledger cfg own out X d nx w' ∧ w'.(closed) = true ∧
    w'.(idle) = w.(idle)) w.
Proof.
  intros Hc HL. unfold wp. rewrite wake_all_run. split_and!.
  - apply ledger_woken. by eapply ledger_closed.
  - by rewrite woken_world_closed.
  - unfold woken_world. by destruct (take _ _).
Qed.

Lemma notify_ledger out X d nx n w :
  ledger cfg own out X (d + n) nx w → wp (notify n) (λ _ w', ledger cfg own out X d nx w') w.
Proof.
  intros HL. unfold notify. wp_step. apply wp_load_closed. intros b w' Hb Hc.
  eapply ledger_same in HL; [|exact Hb]. destruct b.
  - wp_apply wake_all_ledger; [done|by eapply ledger_closed|naive_solver].
  - by apply wake_ledger.
Qed.

Lemma release_slot_ledger out X d nx w :
  ledger cfg own (out + 1) X d nx w → wp release_slot (λ _ w', ledger cfg own out X d nx w') w.
Proof.
  intros HL. unfold release_slot. wp_step. wp_apply release_slots_ledger; [done|].
  intros [] w'. apply notify_ledger.
Qed.

(** *** The idle list *)

Lemma push_idle_ledger out X d nx conn w :
  ledger cfg own (out + 1) X d nx w →
  wp (push_idle conn) (λ _ w', ledger cfg own out X (d + 1) nx w' ∧
    w'.(idle) = w.(idle) ++ [conn]) w.
Proof.
  intros HL. pose proof (max_size_u32 _ Hcfg). unfold push_idle. wp_steps. apply wp_metric.
  destruct HL as [Hs Hm Hw Hn Hk Hsh Hg], w as [i s m q c t l]; simpl in *.
  split; [|by destruct feature_metrics].
  destruct feature_metrics eqn:F; ledger_split Hsh.
  intros _. specialize (Hg eq_refl). destruct m; simpl in *. injection Hg as -> -> ->.
  unfold snapshot_state. simpl. by rewrite fetch_add32_small by (unfold U32 in *; lia).
Qed.

Lemma pop_idle_ledger out X d nx w :
  ledger cfg own out X d nx w →
  wp pop_idle (λ r w',
    match r with
    | Some conn => ledger cfg own (out + 1) X (d - 1) nx w' ∧ w.(idle) = w'.(idle) ++ [conn]
    | None => w' = w ∧ w.(idle) = []
    end) w.
Proof.
  intros HL. unfold pop_idle. wp_steps.
  destruct (vec_pop w.(idle)) as [[conn rest]|] eqn:E; [apply vec_pop_Some in E|].
  2: { apply vec_pop_None in E. by wp_steps. }
  wp_steps. apply wp_metric.
  destruct HL as [Hs Hm Hw Hn Hk Hsh Hg], w as [i s m q c t l]; simpl in *. subst i.
  rewrite len_snoc in *. destruct feature_metrics eqn:F; (split; [ledger_split Hsh|done]).
  intros _. specialize (Hg eq_refl). destruct m; simpl in *. injection Hg as -> -> ->.
  unfold snapshot_state, saturating_sub. simpl. do 2 f_equal. lia.
Qed.

(** Taking [k] connections off the idle list at once: they count as out until
    their slots are released. *)
Lemma drain_ledger out X d nx kept k w :
  ledger cfg own out X d nx w → len w.(idle) = len kept + k →
  wp (metric (dec_idle k)) (λ _ w', ledger cfg own (out + k) X d nx w' ∧ w'.(idle) = kept)
    (set_idle kept w).
Proof.
  intros HL Hlen. apply wp_metric.
  destruct HL as [Hs Hm Hw Hn Hk Hsh Hg], w as [i s m q c t l]; simpl in *.
  split; [|by destruct feature_metrics].
  destruct feature_metrics eqn:F; ledger_split Hsh.
  intros _. specialize (Hg eq_refl). destruct m; simpl in *. injection Hg as -> -> ->.
  unfold snapshot_state, saturating_sub. simpl. f_equal. lia.
Qed.
End ledger.

(** ** What waking and releasing leave alone *)

Record same_shelf {C} (w w' : World C) : Prop := {
  ss_idle : w'.(idle) = w.(idle);
  ss_next : w'.(waiters).(next_id) = w.(waiters).(next_id);
  ss_counts : ∀ k, load k w'.(metrics) = load k w.(metrics);
  ss_closed : w.(closed) = true → w'.(closed) = true
}.

Section shelf.
Context {C : Type} `{Features} `{Runtime}.
Implicit Types w : World C.

#[export] Instance same_shelf_preorder : PreOrder (@same_shelf C).
Proof.
  split; [by split|]. intros x y z [] []. split; auto; etrans; eauto.
Qed.

Lemma load_mirrored k es m : load k (mirrored es m) = load k m.
Proof. unfold mirrored. destruct feature_metrics; [|done]. by destruct m, k. Qed.

Lemma woken_world_shelf n w : same_shelf w (woken_world n w).
Proof.
  unfold woken_world. destruct (take _ _); [done|]. split; simpl; auto.
  intros k. apply load_mirrored.
Qed.

Lemma wake_shelf n w : wp (wake n) (λ _ w', same_shelf w w') w.
Proof. unfold wp. rewrite wake_run. apply woken_world_shelf. Qed.

Lemma notify_shelf n w :
  wp (notify n) (λ _ w', same_shelf w w' ∧ w'.(slots) = w.(slots)) w.
Proof.
  unfold notify, load_closed. wp_step. wp_step. apply wp_ask. wp_steps.
  destruct w as [i s m q c t l]. simpl. unfold wp.
  assert (Hsh : same_shelf (mkWorld i s m q c t l)
    (mkWorld i s m q (c || close_seen t) (S t) l)) by (split; simpl; auto; by intros ->).
  destruct (c || close_seen t); rewrite ?wake_all_run, ?wake_run; split;
    try (etrans; [exact Hsh|apply woken_world_shelf]);
    unfold woken_world; by destruct (take _ _).
Qed.

Lemma release_slots_shelf n w :
  wp (release_slots n) (λ _ w', same_shelf w w' ∧ w'.(slots) = w.(slots) - n) w.
Proof.
  unfold release_slots, metric. destruct w as [i s m q c t l].
  destruct feature_metrics; wp_steps; (split; [split|]); simpl; auto;
    intros k; by destruct m, k.
Qed.

Lemma release_slot_shelf w :
  wp release_slot (λ _ w', same_shelf w w' ∧ w'.(slots) = w.(slots) - 1) w.
Proof.
  unfold release_slot. wp_step. wp_apply release_slots_shelf as [] w1 [H1 E1].
  wp_apply notify_shelf as [] w2 [H2 E2]. split; [by etrans|congruence].
Qed.

Lemma release_slot_spec cfg own out X d nx w :
  config_ok cfg → ledger cfg own (out + 1) X d nx w →
  wp release_slot (λ _ w', ledger cfg own out X d nx w' ∧ same_shelf w w') w.
Proof.
  intros Hcfg HL. eapply wp_mono; [apply wp_and|].
  - by apply release_slot_ledger.
  - apply release_slot_shelf.
  - naive_solver.
Qed.

Lemma notify_spec cfg own out X d nx n w :
  config_ok cfg → ledger cfg own out X (d + n) nx w →
  wp (notify n) (λ _ w', ledger cfg own out X d nx w' ∧ same_shelf w w') w.
Proof.
  intros Hcfg HL. eapply wp_mono; [apply wp_and|].
  - by apply notify_ledger.
  - apply notify_shelf.
  - naive_solver.
Qed.

Lemma release_slots_spec cfg own out X d nx n w :
  config_ok cfg → ledger cfg own (out + n) X d nx w →
  wp (release_slots n) (λ _ w', ledger cfg own out X (d + n) nx w' ∧ same_shelf w w') w.
Proof.
  intros Hcfg HL. eapply wp_mono; [apply wp_and|].
  - by apply release_slots_ledger.
  - apply release_slots_shelf.
  - naive_solver.
Qed.
End shelf.
