(* ===== verification/Local.v ===== *)
(** The synchronous half of [LocalPool]: reservations ([Held]), leases
    ([PooledConnection]), [reap], [clear] and the snapshots ([src/src/pool.rs]). *)

From S2P Require Import Prelude Manage Builder Metrics Store Waiters Inner.

(** A reserved slot, filled or not, not yet owned by a lease. *)
Record Held (C : Type) := mkHeld {
  held_conn : option (Conn C);
  released : bool
}.
Arguments mkHeld {C} _ _.
Arguments held_conn {C} _.
Arguments released {C} _.

(** A connection checked out. *)
Record PooledConnection (C : Type) := mkPooled { pooled_conn : option (Conn C) }.
Arguments mkPooled {C} _.
Arguments pooled_conn {C} _.

Section local.
Context {C E : Type} `{Features} `{Runtime} `{ManageConnection C E}.
Context (cfg : PoolConfig).
Implicit Types w : World C.

(** [Drop for Held]: dropping a connection that is still inside runs no pool
    code. *)
Definition drop_held (h : Held C) : St (World C) unit :=
  when (negb h.(released)) release_slot.

(** [Held::into_pooled]: the emptied guard is dropped as released. *)
Definition into_pooled (h : Held C) : St (World C) (PooledConnection C) :=
  drop_held (mkHeld None true);; mret (mkPooled h.(held_conn)).

(** [Held::into_idle]. *)
Definition into_idle (h : Held C) : St (World C) unit :=
  match h.(held_conn) with
  | Some conn =>
      t ← now;
      push_idle (mkConn conn.(raw) conn.(created_at) t);;
      notify 1
  | None => skip
  end;;
  drop_held (mkHeld None true).

(** [LocalPool::try_reserve]. *)
Definition try_reserve : St (World C) (option (Held C)) :=
  taken ← connections;
  if taken <? cfg.(max_size)
  then take_slot;; mret (Some (mkHeld None false))
  else mret None.

(** The loop of [LocalPool::pop_fresh_idle]. *)
Fixpoint fresh_loop (fuel : nat) (t : Instant) : St (World C) (option (Held C)) :=
  match fuel with
  | O => no_fuel
  | S fuel =>
      popped ← pop_idle;
      match popped with
      | None => mret None
      | Some conn =>
          match expiry conn t cfg with
          | Some reason => note_expired reason;; release_slot;; fresh_loop fuel t
          | None => mret (Some (mkHeld (Some conn) false))
          end
      end
  end.

(** [LocalPool::pop_fresh_idle]: every round pops, so one more round than there
    are idle connections is enough. *)
Definition pop_fresh_idle : St (World C) (option (Held C)) :=
  t ← now;
  l ← gets idle;
  fresh_loop (S (length l)) t.

(** [LocalPool::record_acquire]. *)
Definition record_acquire (waited : bool) (start : Instant) : St (World C) unit :=
  when feature_metrics
    (if waited then
       metric (count GetWaited 1);;
       t ← now;
       metric (count WaitMicros (as_u64 (as_micros (duration_since t start))))
     else metric (count GetDirect 1)).

(** [LocalPool::ready_now]. *)
Definition ready_now : St (World C) bool :=
  c ← load_closed;
  if c : bool then mret true
  else
    l ← gets idle;
    match l with
    | _ :: _ => mret true
    | [] => n ← connections; mret (n <? cfg.(max_size))
    end.

(** The split loop of [LocalPool::reap]: (kept, expired), counting as it goes. *)
Fixpoint reap_split (t : Instant) (l : list (Conn C)) :
    St (World C) (list (Conn C) * list (Conn C)) :=
  match l with
  | [] => mret ([], [])
  | conn :: l =>
      match expiry conn t cfg with
      | Some reason =>
          note_expired reason;;
          r ← reap_split t l; mret (r.1, conn :: r.2)
      | None => r ← reap_split t l; mret (conn :: r.1, r.2)
      end
  end.

(** [LocalPool::reap]. *)
Definition reap : St (World C) N :=
  t ← now;
  l ← gets idle;
  r ← reap_split t l;
  modify (set_idle r.1);;
  let reaped := as_u32 (len r.2) in
  when (0 <? reaped)
    (metric (dec_idle reaped);; release_slots reaped;; notify reaped);;
  mret reaped.

(** [LocalPool::clear]. *)
Definition clear : St (World C) N :=
  l ← gets idle;
  modify (set_idle []);;
  let n := as_u32 (len l) in
  when (0 <? n)
    (metric (dec_idle n);; note_closed_manual n;; release_slots n);;
  notify n;;
  mret n.

(** [Drop for PooledConnection]. *)
Definition pooled_drop (p : PooledConnection C) : St (World C) unit :=
  match p.(pooled_conn) with
  | None => skip
  | Some conn =>
      c ← load_closed;
      if c : bool then note_closed_manual 1;; release_slot
      else
        hb ← ask (λ t, has_broken t conn.(raw));
        let conn := mkConn hb.2 conn.(created_at) conn.(last_used) in
        if hb.1 : bool then note_broken;; release_slot
        else
          t ← now;
          match expiry conn t cfg with
          | Some reason => note_expired reason;; release_slot
          | None =>
              t ← now;
              push_idle (mkConn conn.(raw) conn.(created_at) t);;
              notify 1
          end
  end.

(** [PooledConnection::take]; [expect] on an emptied lease panics. *)
Definition take (p : PooledConnection C) : St (World C) C :=
  match p.(pooled_conn) with
  | None => panic
  | Some conn =>
      release_slot;;
      pooled_drop (mkPooled None);;
      mret conn.(raw)
  end.

(** [Deref] / [DerefMut]: the connection lent to its holder, who may leave a
    changed one behind. *)
Definition deref (p : PooledConnection C) : outcome C :=
  match p.(pooled_conn) with Some conn => Val conn.(raw) | None => Panic end.
Definition deref_mut (p : PooledConnection C) (c : C) : outcome (PooledConnection C) :=
  match p.(pooled_conn) with
  | Some conn => Val (mkPooled (Some (mkConn c conn.(created_at) conn.(last_used))))
  | None => Panic
  end.

(** [LocalPool::state], [LocalPool::statistics] and [LocalPool::is_closed]. *)
Definition local_state : St (World C) State :=
  c ← connections; i ← idle_len; n ← waiters_len; mret (mkState c i n).
Definition local_statistics : St (World C) Statistics :=
  m ← gets metrics;
  mret (if feature_metrics then snapshot_statistics m else statistics_default).
Definition is_closed : St (World C) bool := load_closed.

(** [Pool::close], called on this thread. *)
Definition close : St (World C) unit := modify (set_closed true).
End local.

(** ** The ledger of the synchronous operations *)

Section ledger.
Context {C E : Type} `{Features} `{Runtime} `{ManageConnection C E}.
Context (cfg : PoolConfig) (own : N → Waker → Prop) (Hcfg : config_ok cfg).
Implicit Types (w : World C) (X : gset N).

(** A guard that still answers for its slot. *)
Definition live_held (h : Held C) : Prop := h.(released) = false.

Lemma drop_held_ledger out X d nx h w :
  live_held h → ledger cfg own (out + 1) X d nx w →
  wp (drop_held h) (λ _ w', ledger cfg own out X d nx w') w.
Proof. unfold drop_held, live_held. intros -> HL. by apply release_slot_ledger. Qed.

Lemma drop_held_spec out X d nx h w :
  live_held h → ledger cfg own (out + 1) X d nx w →
  wp (drop_held h) (λ _ w', ledger cfg own out X d nx w' ∧ same_shelf w w') w.
Proof. unfold drop_held, live_held. intros -> HL. by apply release_slot_spec. Qed.

Lemma wp_into_pooled h (Q : PooledConnection C → World C → Prop) w :
  Q (mkPooled h.(held_conn)) w → wp (into_pooled h) Q w.
Proof. intros HQ. unfold into_pooled, drop_held. by wp_steps. Qed.

Lemma ledger_note k n out X d nx w (Q : unit → World C → Prop) :
  ledger cfg own out X d nx w →
  (∀ w', ledger cfg own out X d nx w' → w'.(idle) = w.(idle) → w'.(closed) = w.(closed) → Q tt w') →
  wp (metric (count k n)) Q w.
Proof.
  intros HL HQ. apply wp_note. intros w' Hb Hc. apply HQ; [|by destruct Hb|done].
  by eapply ledger_same.
Qed.

Lemma ledger_now out X d nx w (Q : N → World C → Prop) :
  ledger cfg own out X d nx w →
  (∀ w', ledger cfg own out X d nx w' → w'.(idle) = w.(idle) → Q (instant_now w.(tick)) w') →
  wp now Q w.
Proof.
  intros HL HQ. unfold now. apply wp_ask, HQ.
  - eapply ledger_same; [apply same_books_tick|done].
  - by destruct w.
Qed.

Lemma into_idle_ledger out X d nx h conn w :
  h.(held_conn) = Some conn → ledger cfg own (out + 1) X d nx w →
  wp (into_idle h) (λ _ w', ledger cfg own out X d nx w' ∧
    w'.(idle) = w.(idle) ++ [mkConn conn.(raw) conn.(created_at) (instant_now w.(tick))]) w.
Proof.
  intros Hh HL. unfold into_idle. rewrite Hh. wp_step. wp_step.
  eapply ledger_now; [exact HL|]. intros w1 HL1 Hi1. wp_step.
  wp_apply push_idle_ledger as [] w2 [HL2 Hi2]; [done..|].
  wp_apply notify_spec as [] w3 [HL3 Hs3]; [done..|]. unfold drop_held. wp_steps.
  split; [done|]. by rewrite (ss_idle _ _ Hs3), Hi2, Hi1.
Qed.

Lemma try_reserve_spec out X d nx w :
  ledger cfg own out X d nx w →
  wp (try_reserve cfg) (λ r w',
    match r with
    | Some h => h = mkHeld None false ∧ ledger cfg own (out + 1) X (d - 1) nx w' ∧
                w'.(idle) = w.(idle)
    | None => w' = w ∧ w.(slots) = cfg.(max_size)
    end) w.
Proof.
  intros HL. unfold try_reserve, connections. wp_steps.
  destruct (N.ltb_spec (slots w) (max_size cfg)) as [Hlt|Hge].
  - wp_step. wp_apply take_slot_ledger as [] w' (HL' & _ & Hi'); [done..|]. by wp_steps.
  - wp_steps. split; [done|]. destruct HL. lia.
Qed.

Lemma try_reserve_ledger out X d nx w :
  ledger cfg own out X d nx w →
  wp (try_reserve cfg) (λ r w',
    match r with
    | Some h => h = mkHeld None false ∧ ledger cfg own (out + 1) X (d - 1) nx w'
    | None => w' = w ∧ w.(slots) = cfg.(max_size)
    end) w.
Proof.
  intros HL. eapply wp_mono; [by apply try_reserve_spec|]. intros [h|] w' Hr; [|done].
  naive_solver.
Qed.

Lemma fresh_loop_ledger fuel t out X d nx w :
  (length w.(idle) < fuel)%nat → ledger cfg own out X d nx w →
  wp (fresh_loop cfg fuel t) (λ r w',
    match r with
    | Some h => ledger cfg own (out + 1) X (d - 1) nx w' ∧
                (length w'.(idle) < length w.(idle))%nat ∧
                ∃ conn, h = mkHeld (Some conn) false ∧ expiry conn t cfg = None ∧
                        conn ∈ w.(idle)
    | None => ledger cfg own out X d nx w' ∧ w'.(idle) = []
    end) w.
Proof.
  revert d w. induction fuel as [|fuel IH]; intros d w Hfuel HL; [lia|].
  cbn [fresh_loop]. wp_step. wp_apply pop_idle_ledger as [conn|] w1 Hpop; [done|..].
  2: { destruct Hpop as [-> Hnil]. by wp_steps. }
  destruct Hpop as [HL1 Hidle]. rewrite Hidle, length_app in Hfuel. simpl in Hfuel.
  destruct (expiry conn t cfg) as [reason|] eqn:He.
  - wp_step. eapply ledger_note; [exact HL1|]. intros w2 HL2 Hi2 _. wp_step.
    wp_apply release_slot_spec as [] w3 [HL3 [Hi3 _ _ _]]; [done..|].
    eapply wp_mono; [apply (IH (d - 1)); [|exact HL3]|].
    + rewrite Hi3, Hi2. lia.
    + intros [h|] w4.
      * intros (HL4 & Hlen & c & -> & Hc & Hin). split_and!.
        -- eapply ledger_weaken; [..|exact HL4]; lia.
        -- rewrite Hidle, length_app. rewrite Hi3, Hi2 in Hlen. simpl. lia.
        -- exists c. rewrite Hidle, elem_of_app, <-Hi2, <-Hi3. eauto.
      * intros [HL4 Hnil]. split; [|done]. eapply ledger_weaken; [..|exact HL4]; lia.
  - wp_steps. split_and!; [done|rewrite Hidle, length_app; simpl; lia|].
    exists conn. rewrite Hidle. set_solver.
Qed.

Lemma pop_fresh_idle_ledger out X d nx w :
  ledger cfg own out X d nx w →
  wp (pop_fresh_idle cfg) (λ r w',
    match r with
    | Some h => ledger cfg own (out + 1) X (d - 1) nx w' ∧
                (length w'.(idle) < length w.(idle))%nat ∧
                ∃ conn, h = mkHeld (Some conn) false ∧
                        expiry conn (instant_now w.(tick)) cfg = None ∧ conn ∈ w.(idle)
    | None => ledger cfg own out X d nx w' ∧ w'.(idle) = []
    end) w.
Proof.
  intros HL. unfold pop_fresh_idle. wp_step. eapply ledger_now; [exact HL|].
  intros w1 HL1 Hi1. wp_steps. rewrite <-Hi1. apply fresh_loop_ledger; [lia|done].
Qed.

Lemma record_acquire_ledger waited start out X d nx w :
  ledger cfg own out X d nx w →
  wp (record_acquire waited start) (λ _ w', ledger cfg own out X d nx w' ∧ w'.(idle) = w.(idle)) w.
Proof.
  intros HL. unfold record_acquire. wp_when; [|done]. destruct waited.
  - wp_step. eapply ledger_note; [exact HL|]. intros w1 HL1 Hi1 _. wp_step.
    eapply ledger_now; [exact HL1|]. intros w2 HL2 Hi2.
    eapply ledger_note; [exact HL2|]. intros w3 HL3 Hi3 _. split; [done|congruence].
  - by eapply ledger_note.
Qed.

(** A pool is ready when it is closed or has capacity; the answer still holds
    in the store it leaves. *)
Lemma ready_now_books w :
  wp (ready_now cfg) (λ r w', same_books w w' ∧
    if r : bool then w'.(closed) = true ∨ w'.(idle) ≠ [] ∨ w'.(slots) < cfg.(max_size)
    else w'.(closed) = false ∧ w'.(idle) = [] ∧ cfg.(max_size) ≤ w'.(slots)) w.
Proof.
  unfold ready_now, connections. wp_step. apply wp_load_closed. intros [] w' Hb Hc.
  { wp_steps. auto. }
  wp_steps. destruct (idle w') eqn:Hi; wp_steps; (split; [done|]).
  - destruct (N.ltb_spec (slots w') (max_size cfg)); auto.
  - right. left. by rewrite Hi.
Qed.

Lemma reap_split_books t l w :
  wp (reap_split cfg t l) (λ r w', same_books w w' ∧ w'.(closed) = w.(closed) ∧
    r = (filter (λ c, expiry c t cfg = None) l, filter (λ c, expiry c t cfg ≠ None) l)) w.
Proof.
  revert w. induction l as [|conn l IH]; intros w; cbn [reap_split].
  { by wp_steps. }
  rewrite !filter_cons. destruct (expiry conn t cfg) as [reason|] eqn:He.
  - rewrite decide_False, decide_True by done. wp_step.
    apply wp_note. intros w1 Hb1 Hc1. wp_step.
    wp_apply IH as r w2 (Hb2 & Hc2 & ->). wp_steps.
    split_and!; [by etrans|congruence|done].
  - rewrite decide_True, decide_False by naive_solver.
    wp_step. wp_apply IH as r w2 (Hb2 & Hc2 & ->). by wp_steps.
Qed.

Lemma filter_split_len {A} (P : A → Prop) `{∀ x, Decision (P x)} (l : list A) :
  len l = len (filter P l) + len (filter (λ x, ¬ P x) l).
Proof.
  induction l as [|x l IH]; [done|]. rewrite !filter_cons.
  destruct (decide (P x)); rewrite ?decide_True, ?decide_False by naive_solver;
    rewrite !len_cons; lia.
Qed.

Lemma reap_ledger out X d nx w :
  ledger cfg own out X d nx w →
  wp (reap cfg) (λ r w', ledger cfg own out X d nx w' ∧
    w'.(idle) = filter (λ c, expiry c (instant_now w.(tick)) cfg = None) w.(idle) ∧
    r = len (filter (λ c, expiry c (instant_now w.(tick)) cfg ≠ None) w.(idle))) w.
Proof.
  intros HL. unfold reap. wp_step. eapply ledger_now; [exact HL|]. intros w1 HL1 Hi1.
  set (t := instant_now (tick w)). wp_steps.
  wp_apply reap_split_books as r w2 (Hb & Hc & ->). eapply ledger_same in HL1; [|exact Hb].
  assert (idle w2 = idle w) as Hi2 by (destruct Hb; congruence).
  rewrite Hi1. set (expired := filter (λ c, expiry c t cfg ≠ None) (idle w)).
  assert (len (idle w) = len (filter (λ c, expiry c t cfg = None) (idle w)) + len expired)
    as Hlen by apply filter_split_len.
  pose proof (ledger_idle_u32 cfg own Hcfg _ _ _ _ _ HL1) as Hu. rewrite Hi2 in Hu.
  wp_steps. cbn [fst snd]. rewrite as_u32_small by lia. wp_when.
  - wp_step. wp_apply drain_ledger as [] w3 [HL3 Hi3]; [done|by rewrite Hi2|].
    wp_step. wp_apply release_slots_spec as [] w4 [HL4 [Hi4 _ _ _]]; [done..|].
    wp_apply notify_spec as [] w5 [HL5 [Hi5 _ _ _]]; [done..|]. wp_steps.
    split; [done|]. split; [congruence|done].
  - wp_steps. rewrite N.ltb_ge in *.
    assert (filter (λ c, expiry c t cfg = None) (idle w) = idle w2) as ->.
    { rewrite Hi2. apply filter_all. intros c Hc'. destruct (expiry c t cfg) eqn:He; [|done].
      assert (c ∈ expired) by (apply list_elem_of_filter; by rewrite He).
      destruct expired; [set_solver|]. rewrite len_cons in *. lia. }
    split; [|split; [by destruct w2|done]]. by destruct w2.
Qed.

Lemma clear_ledger out X d nx w :
  ledger cfg own out X d nx w →
  wp clear (λ r w', ledger cfg own out X d nx w' ∧ w'.(idle) = [] ∧ r = len w.(idle)) w.
Proof.
  intros HL. pose proof (ledger_idle_u32 cfg own Hcfg _ _ _ _ _ HL) as Hu.
  unfold clear. wp_steps. rewrite as_u32_small by done. wp_when.
  - wp_step. wp_apply drain_ledger as [] w1 [HL1 Hi1]; [done|by rewrite len_nil|].
    wp_step. eapply ledger_note; [exact HL1|]. intros w2 HL2 Hi2 _.
    wp_apply release_slots_spec as [] w3 [HL3 [Hi3 _ _ _]]; [done..|].
    wp_step. wp_apply notify_spec as [] w4 [HL4 [Hi4 _ _ _]]; [done..|]. wp_steps.
    split; [done|]. split; [congruence|done].
  - wp_step. rewrite N.ltb_ge in *. assert (len (idle w) = 0) as Hz by lia.
    assert (idle w = []) as Hnil by (destruct (idle w); [done|rewrite len_cons in Hz; lia]).
    replace (set_idle [] w) with w by (destruct w; simpl in *; by subst).
    wp_apply (notify_spec cfg own out X d nx) as [] w4 [HL4 [Hi4 _ _ _]]; [done| |].
    { eapply (ledger_weaken cfg own); [..|exact HL]; lia. }
    wp_steps. split; [done|]. split; [congruence|done].
Qed.

(** A returned connection is out until it is dropped or back on the list. *)
Lemma pooled_drop_ledger out X d nx conn w :
  ledger cfg own (out + 1) X d nx w →
  wp (pooled_drop cfg (mkPooled (Some conn))) (λ _ w', ledger cfg own out X d nx w') w.
Proof.
  intros HL. unfold pooled_drop. cbn [pooled_conn]. wp_step.
  apply wp_load_closed. intros b w1 Hb Hc1. eapply ledger_same in HL; [|exact Hb].
  destruct b.
  { wp_step. eapply ledger_note; [exact HL|]. intros. by apply release_slot_ledger. }
  wp_step. apply wp_ask.
  eapply ledger_same in HL; [|apply same_books_tick].
  destruct (has_broken _ _) as [[] raw']; cbn [fst snd].
  { wp_step. eapply ledger_note; [exact HL|]. intros. by apply release_slot_ledger. }
  wp_step. eapply ledger_now; [exact HL|]. intros w2 HL2 _.
  destruct (expiry _ _ cfg) as [reason|].
  { wp_step. eapply ledger_note; [exact HL2|]. intros. by apply release_slot_ledger. }
  wp_step. eapply ledger_now; [exact HL2|]. intros w3 HL3 _. wp_step.
  wp_apply push_idle_ledger as [] w4 [HL4 _]; [done..|]. by apply notify_ledger.
Qed.

Lemma take_ledger out X d nx conn w :
  ledger cfg own (out + 1) X d nx w →
  wp (take cfg (mkPooled (Some conn)))
    (λ r w', r = conn.(raw) ∧ ledger cfg own out X d nx w') w.
Proof.
  intros HL. unfold take. cbn [pooled_conn]. wp_step.
  wp_apply release_slot_ledger as [] w1 HL1; [done..|]. by wp_steps.
Qed.
End ledger.
