(* ===== verification/Effects.v ===== *)
(** What the synchronous operations do, branch by branch: the idle list, the slot
    count and the cumulative counters they leave, for any store. *)

From S2P Require Import Prelude Manage Builder Metrics Store Waiters Inner Local.

Section effects.
Context {C E : Type} {F : Features} {R : Runtime} {M : ManageConnection C E}.
Context (cfg : PoolConfig).
Implicit Types (w : World C) (l dead : list (Conn C)) (ds : list (counter * N)).

(** A counter after the additions [ds], in order. *)
Definition load_after ds (k : counter) (v : N) : N :=
  if feature_metrics
  then foldl (λ v d, if decide (k = d.1) then fetch_add64 v d.2 else v) v ds
  else v.

(** The counters of [w'] are those of [w] after the additions [ds]. *)
Definition noted ds w w' : Prop :=
  ∀ k, load k w'.(metrics) = load_after ds k (load k w.(metrics)).

(** The counter an expired connection is charged to. *)
Definition reasons (t : Instant) l : list (counter * N) :=
  omap (λ c, (λ r, (expiry_counter r, 1)) <$> expiry c t cfg) l.

Lemma noted_nil w w' : (∀ k, load k w'.(metrics) = load k w.(metrics)) → noted [] w w'.
Proof. intros Hk k. rewrite Hk. unfold load_after. by destruct feature_metrics. Qed.

Lemma noted_app ds ds' w w1 w' :
  noted ds w w1 → noted ds' w1 w' → noted (ds ++ ds') w w'.
Proof.
  intros H1 H2 k. rewrite H2, H1. unfold load_after. destruct feature_metrics; [|done].
  by rewrite foldl_app.
Qed.

(** [w'] is [w] with the idle list [i], the slot count [n] and the additions [ds]. *)
Record leaves ds (i : list (Conn C)) (n : N) w w' : Prop := {
  lv_idle : w'.(idle) = i;
  lv_slots : w'.(slots) = n;
  lv_noted : noted ds w w'
}.

Lemma leaves_app ds ds' i n i' n' w w1 w' :
  leaves ds i n w w1 → leaves ds' i' n' w1 w' → leaves (ds ++ ds') i' n' w w'.
Proof. intros [] []. split; [done..|]. by eapply noted_app. Qed.

Lemma leaves_trans ds i n i' n' w w1 w' :
  leaves ds i n w w1 → leaves [] i' n' w1 w' → leaves ds i' n' w w'.
Proof. intros H1 H2. rewrite <-(app_nil_r ds). by eapply leaves_app. Qed.

(** Nothing but the clock and the flag moved. *)
Lemma leaves_keep ds i n w w1 w' :
  leaves ds i n w w1 → leaves [] w1.(idle) w1.(slots) w1 w' → leaves ds i n w w'.
Proof. intros H1 H2. destruct (H1) as [-> -> _] in H2. by eapply leaves_trans. Qed.

(** A connection closed for reason [k], its slot given back. *)
Lemma leaves_close k i n w w1 w' :
  leaves [] i n w w1 → leaves [(k, 1)] w1.(idle) (w1.(slots) - 1) w1 w' →
  leaves [(k, 1)] i (n - 1) w w'.
Proof.
  intros H1 H2. destruct (H1) as [-> -> _] in H2. by apply (leaves_app [] _ _ _ _ _ _ _ _ H1 H2).
Qed.

Lemma leaves_refl w : leaves [] w.(idle) w.(slots) w w.
Proof. split; [done..|]. by apply noted_nil. Qed.

Lemma leaves_tick w : leaves [] w.(idle) w.(slots) w (next_tick w).
Proof. destruct w. split; [done..|]. by apply noted_nil. Qed.

Lemma leaves_shelf w w' n :
  same_shelf w w' → w'.(slots) = n → leaves [] w.(idle) n w w'.
Proof. intros [] ?. split; [done..|]. by apply noted_nil. Qed.

(** *** The primitives *)

Lemma wp_now_leaves (Q : N → World C → Prop) w :
  (∀ w', leaves [] w.(idle) w.(slots) w w' → w'.(tick) = S w.(tick) →
     w'.(closed) = w.(closed) → Q (instant_now w.(tick)) w') → wp now Q w.
Proof. intros HQ. unfold now. apply wp_ask. apply HQ; [apply leaves_tick|by destruct w..]. Qed.

Lemma wp_load_closed_leaves (Q : bool → World C → Prop) w :
  (∀ w', leaves [] w.(idle) w.(slots) w w' → w'.(tick) = S w.(tick) →
     w'.(waiters) = w.(waiters) → w'.(wakes) = w.(wakes) →
     w'.(closed) = (w.(closed) || close_seen w.(tick)) →
     Q (w.(closed) || close_seen w.(tick)) w') →
  wp load_closed Q w.
Proof.
  intros HQ. unfold load_closed. wp_step. apply wp_ask. wp_steps.
  destruct w as [i s m q c t l]. apply HQ; try done. split; [done..|]. by apply noted_nil.
Qed.

Lemma wp_note_leaves k n (Q : unit → World C → Prop) w :
  (∀ w', leaves [(k, n)] w.(idle) w.(slots) w w' → w'.(tick) = w.(tick) →
     w'.(closed) = w.(closed) → Q tt w') →
  wp (metric (count k n)) Q w.
Proof.
  intros HQ. apply wp_metric. destruct w as [i s m q c t l]. apply HQ.
  - split; [by destruct feature_metrics..|]. intros k'. unfold load_after.
    destruct feature_metrics; [|done]. simpl. by rewrite load_count.
  - by destruct feature_metrics.
  - by destruct feature_metrics.
Qed.

Lemma release_slot_leaves w :
  wp release_slot (λ _ w', leaves [] w.(idle) (w.(slots) - 1) w w') w.
Proof.
  wp_apply release_slot_shelf as [] w' [Hs Hn]. by apply leaves_shelf.
Qed.

Lemma notify_leaves n w : wp (notify n) (λ _ w', leaves [] w.(idle) w.(slots) w w') w.
Proof. wp_apply notify_shelf as [] w' [Hs Hn]. by apply leaves_shelf. Qed.

Lemma release_slots_leaves n w :
  wp (release_slots n) (λ _ w', leaves [] w.(idle) (w.(slots) - n) w w') w.
Proof. wp_apply release_slots_shelf as [] w' [Hs Hn]. by apply leaves_shelf. Qed.

(** An update of the gauges alone. *)
Lemma wp_gauge_leaves f (Q : unit → World C → Prop) w :
  (∀ k m, load k (f m) = load k m) →
  (∀ w', leaves [] w.(idle) w.(slots) w w' → w'.(tick) = w.(tick) →
     w'.(closed) = w.(closed) → Q tt w') →
  wp (metric f) Q w.
Proof.
  intros Hf HQ. apply wp_metric. destruct w as [i s m q c t l].
  apply HQ; [|by destruct feature_metrics..].
  split; [by destruct feature_metrics..|]. apply noted_nil. intros k.
  destruct feature_metrics; [apply Hf|done].
Qed.

Lemma pop_idle_leaves w :
  wp pop_idle (λ r w', w'.(tick) = w.(tick) ∧ w'.(slots) = w.(slots) ∧ noted [] w w' ∧
    match r with
    | Some conn => w.(idle) = w'.(idle) ++ [conn]
    | None => w.(idle) = [] ∧ w'.(idle) = []
    end) w.
Proof.
  unfold pop_idle. wp_steps.
  destruct (vec_pop w.(idle)) as [[conn rest]|] eqn:Hp.
  - apply vec_pop_Some in Hp. wp_steps. apply wp_gauge_leaves; [by intros [] []|].
    intros w1 [Hi Hs Hn] Ht _. wp_steps. destruct w as [i s m q c t l]; simpl in *.
    rewrite Hi. done.
  - apply vec_pop_None in Hp. wp_steps. split_and!; [done..| |done|done]. by apply noted_nil.
Qed.

(** *** Taking from the idle list *)

Lemma fresh_loop_leaves fuel t w :
  (length w.(idle) < fuel)%nat →
  wp (fresh_loop cfg fuel t) (λ r w', ∃ rest dead,
    Forall (λ c, expiry c t cfg ≠ None) dead ∧
    leaves (reasons t (rev dead)) rest (w.(slots) - len dead) w w' ∧
    match r with
    | Some h => ∃ conn, h = mkHeld (Some conn) false ∧ expiry conn t cfg = None ∧
                        w.(idle) = rest ++ conn :: dead
    | None => rest = [] ∧ w.(idle) = dead
    end) w.
Proof.
  revert w. induction fuel as [|fuel IH]; intros w Hfuel; [lia|]. cbn [fresh_loop].
  wp_step. wp_apply pop_idle_leaves as [conn|] w1 (_ & Hs1 & Hn1 & Hi1).
  2: { wp_steps. destruct Hi1 as [Hi Hi']. exists [], []. rewrite len_nil, N.sub_0_r.
       split_and!; [constructor|by split|done|done]. }
  destruct (expiry conn t cfg) as [reason|] eqn:He.
  - wp_step. apply wp_note_leaves. intros w2 [Hi2 Hs2 Hn2] _ _.
    wp_step. wp_apply release_slot_leaves as [] w3 [Hi3 Hs3 Hn3].
    eapply wp_mono; [apply IH|].
    + rewrite Hi1, length_app in Hfuel. simpl in Hfuel. rewrite Hi3, Hi2. lia.
    + intros r w4 (rest & dead & Hd & [Hi4 Hs4 Hn4] & Hr). exists rest, (dead ++ [conn]).
      rewrite rev_app_distr, Hi3, Hi2 in *. split_and!.
      * apply Forall_app. split; [done|]. constructor; [by rewrite He|constructor].
      * split; [done|rewrite len_snoc; lia|].
        pose proof (noted_app _ _ _ _ _ Hn1 (noted_app _ _ _ _ _ Hn2
          (noted_app _ _ _ _ _ Hn3 Hn4))) as Hall.
        unfold reasons. simpl. rewrite He. exact Hall.
      * rewrite Hi1. destruct r as [h|].
        -- destruct Hr as (c & -> & Hc & ->). exists c. by rewrite <-app_assoc.
        -- by destruct Hr as [-> ->].
  - wp_steps. exists (idle w1), []. rewrite len_nil, N.sub_0_r.
    split_and!; [constructor|by split|]. by exists conn.
Qed.

(** *** Giving back *)

(** What becomes of a returned connection: the reason it is closed for, or the
    connection as it is parked.  [closing] is the shared flag as it reads, [hb]
    the manager's verdict, [t] and [t'] the two readings of the clock. *)
Definition fate (closing : bool) (hb : bool * C) (t t' : Instant) (conn : Conn C) :
    counter + Conn C :=
  let conn := mkConn hb.2 conn.(created_at) conn.(last_used) in
  if closing then inl ClosedManual
  else if hb.1 then inl ClosedBroken
  else match expiry conn t cfg with
       | Some reason => inl (expiry_counter reason)
       | None => inr (mkConn conn.(raw) conn.(created_at) t')
       end.

Lemma close_one_leaves k i n w w1 :
  leaves [] i n w w1 →
  wp (metric (count k 1);; release_slot) (λ _ w', leaves [(k, 1)] i (n - 1) w w') w1.
Proof.
  intros H1. wp_step. apply wp_note_leaves. intros w2 H2 _ _.
  wp_apply release_slot_leaves as [] w3 H3. eapply leaves_close; [exact H1|].
  destruct (H2) as [-> -> _] in H3. by eapply leaves_trans.
Qed.

Lemma push_idle_leaves conn w :
  wp (push_idle conn) (λ _ w', leaves [] (w.(idle) ++ [conn]) w.(slots) w w') w.
Proof.
  unfold push_idle. wp_steps. apply wp_gauge_leaves; [by intros [] []|].
  intros w1 [Hi Hs Hn] _ _. by destruct w.
Qed.

Lemma park_leaves conn i n w w1 :
  leaves [] i n w w1 →
  wp (push_idle conn;; notify 1) (λ _ w', leaves [] (i ++ [conn]) n w w') w1.
Proof.
  intros H1. wp_step. wp_apply push_idle_leaves as [] w2 H2.
  destruct (H1) as [-> -> _] in H2.
  wp_apply notify_leaves as [] w3 H3. eapply leaves_keep; [|exact H3].
  by eapply leaves_trans.
Qed.

Lemma pooled_drop_leaves conn w :
  let c := w.(closed) || close_seen w.(tick) in
  let f := fate c (has_broken (S w.(tick)) conn.(raw))
             (instant_now (S (S w.(tick)))) (instant_now (S (S (S w.(tick))))) conn in
  wp (pooled_drop cfg (mkPooled (Some conn))) (λ _ w',
    match f with
    | inl k => leaves [(k, 1)] w.(idle) (w.(slots) - 1) w w'
    | inr conn' => leaves [] (w.(idle) ++ [conn']) w.(slots) w w'
    end) w.
Proof.
  unfold pooled_drop. cbn [pooled_conn]. wp_step. apply wp_load_closed_leaves.
  intros w1 H1 Ht1 _ _ _. unfold fate. rewrite <-Ht1.
  destruct (closed w || close_seen (tick w)); [by apply (close_one_leaves ClosedManual)|].
  wp_step. apply wp_ask. destruct (has_broken (tick w1) (raw conn)) as [b raw']; cbn [fst snd].
  pose proof (leaves_keep _ _ _ _ _ _ H1 (leaves_tick w1)) as H2.
  assert (tick (next_tick w1) = S (tick w1)) as Ht2 by by destruct w1.
  destruct b; [by apply (close_one_leaves ClosedBroken)|]. rewrite <-Ht2.
  wp_step. apply wp_now_leaves. intros w3 H3 Ht3 _. pose proof (leaves_keep _ _ _ _ _ _ H2 H3).
  rewrite <-Ht3. destruct (expiry _ _ cfg) as [reason|];
    [by apply (close_one_leaves (expiry_counter reason))|].
  wp_step. apply wp_now_leaves. intros w4 H4 _ _.
  eapply park_leaves, leaves_keep; [done|exact H4].
Qed.

(** *** Housekeeping *)

Lemma reap_split_leaves t l w :
  wp (reap_split cfg t l) (λ r w', leaves (reasons t l) w.(idle) w.(slots) w w' ∧
    r = (filter (λ c, expiry c t cfg = None) l, filter (λ c, expiry c t cfg ≠ None) l)) w.
Proof.
  revert w. induction l as [|conn l IH]; intros w; cbn [reap_split].
  { wp_steps. split; [apply leaves_refl|done]. }
  unfold reasons. rewrite !filter_cons. simpl. destruct (expiry conn t cfg) as [reason|] eqn:He.
  - rewrite decide_False, decide_True by done. wp_step. apply wp_note_leaves.
    intros w1 H1 _ _. wp_step. wp_apply IH as r w2 [H2 ->]. wp_steps.
    split; [|done]. destruct (H1) as [-> -> _] in H2.
    apply (leaves_app [(expiry_counter reason, 1)] _ _ _ _ _ _ _ _ H1 H2).
  - rewrite decide_True, decide_False by naive_solver.
    wp_step. wp_apply IH as r w1 [H1 ->]. by wp_steps.
Qed.

Lemma len_filter_le (P : Conn C → Prop) `{∀ c, Decision (P c)} l : len (filter P l) ≤ len l.
Proof. unfold len. pose proof (length_filter P l). lia. Qed.

Lemma reap_leaves w :
  len w.(idle) < U32 →
  let t := instant_now w.(tick) in
  let expired := filter (λ c, expiry c t cfg ≠ None) w.(idle) in
  wp (reap cfg) (λ r w', r = len expired ∧
    leaves (reasons t w.(idle)) (filter (λ c, expiry c t cfg = None) w.(idle))
      (w.(slots) - len expired) w w') w.
Proof.
  intros Hlen t expired. unfold reap. wp_step. apply wp_now_leaves. intros w1 H1 _ _.
  wp_steps. rewrite (lv_idle _ _ _ _ _ H1). wp_apply reap_split_leaves as r w2 [H2 ->].
  pose proof (leaves_app _ _ _ _ _ _ _ _ _ H1 H2) as H02. simpl in H02.
  rewrite (lv_slots _ _ _ _ _ H1) in H02.
  wp_steps. cbn [fst snd]. fold t. fold expired.
  rewrite as_u32_small by (pose proof (len_filter_le (λ c, expiry c t cfg ≠ None) (idle w)); unfold expired; lia).
  set (kept := filter (λ c, expiry c t cfg = None) (idle w)).
  assert (H3 : leaves (reasons t (idle w)) kept (slots w) w (set_idle kept w2)).
  { destruct H02 as [_ Hs Hn]. by destruct w2. }
  wp_when.
  - wp_step. apply wp_gauge_leaves; [by intros [] []|]. intros w4 H4 _ _.
    pose proof (leaves_keep _ _ _ _ _ _ H3 H4) as H04.
    wp_step. wp_apply release_slots_leaves as [] w5 H5.
    destruct (H04) as [-> -> _] in H5. pose proof (leaves_trans _ _ _ _ _ _ _ _ H04 H5) as H05.
    wp_apply notify_leaves as [] w6 H6. wp_steps. split; [done|]. by eapply leaves_keep.
  - wp_steps. split; [done|]. rewrite N.ltb_ge in *.
    by replace (slots w - len expired) with (slots w) by lia.
Qed.

Lemma clear_leaves w :
  len w.(idle) < U32 →
  wp clear (λ r w', r = len w.(idle) ∧
    leaves (if 0 <? len w.(idle) then [(ClosedManual, len w.(idle))] else [])
      [] (w.(slots) - len w.(idle)) w w') w.
Proof.
  intros Hlen. unfold clear. wp_steps. rewrite as_u32_small by done.
  assert (H1 : leaves [] [] (slots w) w (set_idle [] w)).
  { destruct w. split; [done..|]. by apply noted_nil. }
  destruct (N.ltb_spec 0 (len (idle w))) as [Hpos|Hz]; unfold when.
  - wp_step. apply wp_gauge_leaves; [by intros [] []|]. intros w2 H2 _ _.
    pose proof (leaves_keep _ _ _ _ _ _ H1 H2) as H02.
    wp_step. apply wp_note_leaves. intros w3 H3 _ _.
    destruct (H02) as [-> -> _] in H3. pose proof (leaves_app _ _ _ _ _ _ _ _ _ H02 H3) as H03.
    wp_apply release_slots_leaves as [] w4 H4.
    destruct (H03) as [-> -> _] in H4. pose proof (leaves_trans _ _ _ _ _ _ _ _ H03 H4) as H04.
    wp_step. wp_apply notify_leaves as [] w5 H5. wp_steps. split; [done|]. by eapply leaves_keep.
  - wp_step. wp_step. replace (slots w - len (idle w)) with (slots w) by lia.
    wp_apply notify_leaves as [] w5 H5. wp_steps. split; [done|]. by eapply leaves_keep.
Qed.

Lemma take_leaves conn w :
  wp (take cfg (mkPooled (Some conn))) (λ r w', r = conn.(raw) ∧
    leaves [] w.(idle) (w.(slots) - 1) w w') w.
Proof.
  unfold take. cbn [pooled_conn]. wp_step. wp_apply release_slot_leaves as [] w1 H1.
  wp_step. unfold pooled_drop. cbn [pooled_conn]. by wp_steps.
Qed.

(** *** Checking out *)

(** [split_at_fresh] is unique: the newest fresh connection and what is around it. *)
Lemma newest_unique (P : Conn C → Prop) rest rest' conn conn' dead dead' :
  rest ++ conn :: dead = rest' ++ conn' :: dead' →
  P conn → P conn' → Forall (λ c, ¬ P c) dead → Forall (λ c, ¬ P c) dead' →
  rest = rest' ∧ conn = conn' ∧ dead = dead'.
Proof.
  assert (Hmid : ∀ k r c d d', c :: d = k ++ r :: d' → P r → Forall (λ c, ¬ P c) d → k = []).
  { intros [|x k] r c d d' [= -> ->] Hr Hd; [done|].
    rewrite Forall_forall in Hd. by destruct (Hd r); [set_solver|]. }
  intros Heq Hc Hc' Hd Hd'.
  destruct (app_eq_inv _ _ _ _ Heq) as [(k & -> & Hk)|(k & -> & Hk)];
    (assert (k = []) as -> by (by eapply Hmid)); rewrite app_nil_r; simpl in Hk; by simplify_eq.
Qed.

Lemma fresh_loop_newest fuel t rest conn dead w :
  (length w.(idle) < fuel)%nat →
  w.(idle) = rest ++ conn :: dead → expiry conn t cfg = None →
  Forall (λ c, expiry c t cfg ≠ None) dead →
  wp (fresh_loop cfg fuel t) (λ r w', r = Some (mkHeld (Some conn) false) ∧
    leaves (reasons t (rev dead)) rest (w.(slots) - len dead) w w') w.
Proof.
  intros Hfuel Hi Hc Hd. wp_apply fresh_loop_leaves as r w' (rest' & dead' & Hd' & HL & Hr); [done|].
  destruct r as [h|].
  - destruct Hr as (conn' & -> & Hc' & Hi'). rewrite Hi in Hi'.
    by destruct (newest_unique (λ c, expiry c t cfg = None) _ _ _ _ _ _ Hi' Hc Hc' Hd Hd')
      as (-> & -> & ->).
  - destruct Hr as [-> Hi']. rewrite Hi in Hi'. rewrite <-Hi', Forall_app, Forall_cons in Hd'.
    by destruct Hd' as (_ & [] & _).
Qed.

Lemma record_direct_leaves start w :
  wp (record_acquire false start)
    (λ _ w', leaves [(GetDirect, 1)] w.(idle) w.(slots) w w') w.
Proof.
  unfold record_acquire. wp_when; [by apply wp_note_leaves|].
  split; [done..|]. intros k. unfold load_after.
  match goal with H : feature_metrics = false |- _ => by rewrite H end.
Qed.

Lemma try_reserve_leaves w :
  cfg.(max_size) < U32 →
  wp (try_reserve cfg) (λ r w',
    if w.(slots) <? cfg.(max_size)
    then r = Some (mkHeld None false) ∧ leaves [] w.(idle) (w.(slots) + 1) w w'
    else r = None ∧ w' = w) w.
Proof.
  intros Hmax. unfold try_reserve, connections. wp_steps.
  destruct (N.ltb_spec (slots w) (max_size cfg)) as [Hlt|Hge]; [|by wp_steps].
  unfold take_slot. wp_steps. eapply wp_lift; [apply add_u_small; lia|]. wp_steps.
  apply wp_gauge_leaves; [by intros [] []|]. intros w1 [Hi Hs Hn] _ _. wp_steps.
  split; [done|]. by destruct w.
Qed.

Lemma into_idle_leaves h conn w :
  h.(held_conn) = Some conn →
  wp (into_idle h) (λ _ w', ∃ t,
    leaves [] (w.(idle) ++ [mkConn conn.(raw) conn.(created_at) t]) w.(slots) w w') w.
Proof.
  intros Hh. unfold into_idle. rewrite Hh. wp_step. wp_step.
  apply wp_now_leaves. intros w1 H1 _ _. wp_apply park_leaves as [] w2 H2; [exact H1|].
  unfold drop_held. wp_steps. by eexists.
Qed.

(** *** Closing *)

(** On a pool seen closed, a notification empties the queue into the wake trace. *)
Lemma notify_closed n w :
  w.(closed) = true →
  notify n w = Val (tt, woken_world (N.to_nat (len w.(waiters).(entries) `min` u32_max))
                          (next_tick w)).
Proof.
  intros Hc. destruct w as [i s m q c t l]. simpl in *. subst c.
  unfold notify, load_closed, ask, gets, modify, mbind, St_bind, mret, St_ret. simpl.
  by rewrite wake_all_run.
Qed.

(** Neither the queue nor the flag moved. *)
Definition same_queue w w' : Prop :=
  w'.(waiters) = w.(waiters) ∧ w'.(wakes) = w.(wakes) ∧ w'.(closed) = w.(closed) ∧
  w'.(idle) = w.(idle).

Lemma metric_queue f w : wp (metric f) (λ _ w', same_queue w w') w.
Proof. apply wp_metric. destruct w. by destruct feature_metrics. Qed.

Lemma release_slots_queue n w : wp (release_slots n) (λ _ w', same_queue w w') w.
Proof.
  unfold release_slots. wp_steps. wp_apply metric_queue as [] w' H. by destruct w.
Qed.

(** How many waiters one [wake_all] reaches. *)
Definition woken_all w : nat := N.to_nat (len w.(waiters).(entries) `min` u32_max).

Lemma clear_closed w :
  w.(closed) = true →
  wp clear (λ _ w', w'.(idle) = [] ∧
    w'.(waiters) = woken_queue (woken_all w) w.(waiters) ∧
    w'.(wakes) = w.(wakes) ++ firstn (woken_all w) w.(waiters).(entries)) w.
Proof.
  intros Hc. unfold clear. wp_steps.
  eapply wp_mono with (Q := λ _ w', same_queue (set_idle [] w) w').
  { wp_when; [|by destruct w]. wp_step. wp_apply metric_queue as [] w1 (?&?&?&?).
    wp_step. wp_apply metric_queue as [] w2 (?&?&?&?).
    wp_apply release_slots_queue as [] w3 (?&?&?&?). split_and!; congruence. }
  intros [] w1 (Hq & Hw & Hc1 & Hi). wp_step. unfold wp. rewrite notify_closed by (destruct w; simpl in *; congruence).
  assert (Ew : next_tick w1 = mkWorld [] (slots w1) (metrics w1) (waiters w) true (S (tick w1)) (wakes w))
    by (destruct w, w1; simpl in *; congruence).
  rewrite Ew. cbn. rewrite woken_world_waiters, woken_world_wakes. cbn.
  unfold woken_all. replace (waiters w1) with (waiters w) by (destruct w; simpl in *; congruence).
  split_and!; [|done|done]. unfold woken_world. by destruct (firstn _ _).
Qed.
End effects.
