(* ===== verification/Futures.v ===== *)
(** The asynchronous half of [LocalPool]: [get], [try_get], [warm] and
    [maintain], and the [WaitReady] future a [get] parks on
    ([src/src/pool.rs]).

    An [async fn] is the state machine the compiler makes of it: a value of its
    state type is the future suspended at an await point, polling runs it to the
    next one, and dropping it drops what the suspended body owns. *)

From S2P Require Import Prelude Manage Builder Metrics Store Waiters Inner Local.

(** What one poll of a future does: finish, or suspend in a new state. *)
Inductive progress (A S : Type) : Type := Done (a : A) | Yield (s : S).
Arguments Done {A S} a.
Arguments Yield {A S} s.

(** [WaitReady]. *)
Record WaitReady := mkWait { wait_id : option N; parked : bool }.

(** [get_inner], suspended at [wait_ready().await], [is_valid(..).await],
    [connect().await] or [sleep(..).await]. *)
Inductive get_state (C : Type) : Type :=
| GWait (start : Instant) (waited : bool) (wr : WaitReady)
| GValidate (start : Instant) (waited : bool) (h : Held C)
| GConnect (start : Instant) (waited : bool) (h : Held C)
| GBackoff (start : Instant) (waited : bool).
Arguments GWait {C} _ _ _.
Arguments GValidate {C} _ _ _.
Arguments GConnect {C} _ _ _.
Arguments GBackoff {C} _ _.

(** [get]: not polled yet, or inside its [timeout]. *)
Inductive get_fut (C : Type) : Type := GetNew | GetTimed (s : get_state C).
Arguments GetNew {C}.
Arguments GetTimed {C} _.

Inductive try_fut (C : Type) : Type := TryNew | TryValidate (h : Held C) | TryConnect (h : Held C).
Arguments TryNew {C}.
Arguments TryValidate {C} _.
Arguments TryConnect {C} _.

(** [warm] and [maintain]: not polled yet, or dialling with [made] opened. *)
Inductive warm_fut (C : Type) : Type := WarmNew | MaintainNew | WarmDial (made : N) (h : Held C).
Arguments WarmNew {C}.
Arguments MaintainNew {C}.
Arguments WarmDial {C} _ _.

(** 50 ms. *)
Definition CONNECT_RETRY_BACKOFF : Duration := from_millis 50.

Section futures.
Context {C E : Type} `{Features} `{Runtime} `{ManageConnection C E}.
Context (cfg : PoolConfig).
Implicit Types (w : World C) (h : Held C) (wk : Waker).

Abbreviation lease := (PooledConnection C).
Abbreviation got := (result lease (RunError E)).
Abbreviation getting := (progress got (get_state C)).

(** ** [WaitReady] *)

(** [LocalPool::wait_ready]: the future a waiting [get] makes afresh each time round. *)
Definition wait_ready : WaitReady := mkWait None false.
(** [WaitReady::poll]. *)
Definition poll_wait_ready wk (wr : WaitReady) : St (World C) (Poll bool * WaitReady) :=
  ready ← ready_now cfg;
  if ready : bool then
    match wr.(wait_id) with Some id => unregister id;; skip | None => skip end;;
    c ← load_closed;
    when c wake_all;;
    mret (Ready wr.(parked), mkWait None wr.(parked))
  else
    id ← register wr.(wait_id) wk;
    mret (Pending, mkWait id true).

(** [Drop for WaitReady]. *)
Definition drop_wait (wr : WaitReady) : St (World C) unit :=
  match wr.(wait_id) with
  | Some id => queued ← unregister id; when (negb queued) (wake 1)
  | None => skip
  end.

(** ** [get_inner]

    The pieces of the loop body between await points; [again waited] is
    [continue]. *)

Definition checked_out (waited : bool) (start : Instant) h : St (World C) lease :=
  record_acquire waited start;; into_pooled h.

(** [is_valid(&mut conn.raw)] polled once: the guard lent out and its answer. *)
Definition poll_valid h : St (World C) (Poll bool * Held C) :=
  match h.(held_conn) with
  | None => panic
  | Some conn =>
      a ← ask (λ t, is_valid t conn.(raw));
      mret (match a.1 with
            | Pending => Pending
            | Ready (Ok _) => Ready true
            | Ready (Err _) => Ready false
            end,
            mkHeld (Some (mkConn a.2 conn.(created_at) conn.(last_used))) h.(released))
  end.

(** The new connection put in the reserved slot. *)
Definition fill h (raw : C) (t : Instant) : Held C :=
  mkHeld (Some (mkConn raw t t)) h.(released).

Section get_inner.
Variable again : bool → St (World C) getting.

Definition poll_backoff (first : bool) (start : Instant) (waited : bool) :
    St (World C) getting :=
  elapsed ← ask (sleep_done first);
  if elapsed : bool then again waited else mret (Yield (GBackoff start waited)).

Definition poll_validate (start : Instant) (waited : bool) h : St (World C) getting :=
  a ← poll_valid h;
  match a.1 with
  | Pending => mret (Yield (GValidate start waited a.2))
  | Ready true => p ← checked_out waited start a.2; mret (Done (Ok p))
  | Ready false => note_broken;; drop_held a.2;; again waited
  end.

Definition poll_connect (start : Instant) (waited : bool) h : St (World C) getting :=
  a ← ask connect;
  match a with
  | Pending => mret (Yield (GConnect start waited h))
  | Ready (Ok raw) =>
      t ← now;
      note_created;;
      p ← checked_out waited start (fill h raw t);
      mret (Done (Ok p))
  | Ready (Err e) =>
      retry ← (if cfg.(retry_connection)
               then c ← load_closed; mret (negb c) else mret false);
      if retry : bool then drop_held h;; poll_backoff true start waited
      else drop_held h;; mret (Done (Err (User e)))
  end.

Definition after_wait (start : Instant) (waited : bool) : St (World C) getting :=
  c ← load_closed;
  if c : bool then mret (Done (Err Closed))
  else
    popped ← pop_fresh_idle cfg;
    match popped with
    | Some h =>
        if cfg.(test_on_check_out) then poll_validate start waited h
        else p ← checked_out waited start h; mret (Done (Ok p))
    | None =>
        reserved ← try_reserve cfg;
        match reserved with
        | Some h => poll_connect start waited h
        | None => again waited
        end
    end.

Definition poll_wait wk (start : Instant) (waited : bool) (wr : WaitReady) :
    St (World C) getting :=
  r ← poll_wait_ready wk wr;
  match r.1 with
  | Pending => mret (Yield (GWait start waited r.2))
  | Ready p => after_wait start (waited || p)
  end.
End get_inner.

(** The loop, from its top. *)
Fixpoint get_loop (fuel : nat) wk (start : Instant) (waited : bool) : St (World C) getting :=
  match fuel with
  | O => no_fuel
  | S fuel =>
      c ← load_closed;
      if c : bool then mret (Done (Err Closed))
      else poll_wait (get_loop fuel wk start) wk start waited wait_ready
  end.

(** One poll goes round the loop once per idle connection that fails its
    check-out validation, and once more. *)
Definition get_fuel : St (World C) nat := l ← gets idle; mret (S (length l)).

(** Poll [get_inner], from its start ([None]) or from where it is suspended. *)
Definition poll_get_inner wk (s : option (get_state C)) : St (World C) getting :=
  match s with
  | None =>
      start ← now;
      fuel ← get_fuel;
      get_loop fuel wk start false
  | Some s =>
      fuel ← get_fuel;
      match s with
      | GWait start waited wr => poll_wait (get_loop fuel wk start) wk start waited wr
      | GValidate start waited h => poll_validate (get_loop fuel wk start) start waited h
      | GConnect start waited h => poll_connect (get_loop fuel wk start) start waited h
      | GBackoff start waited => poll_backoff (get_loop fuel wk start) false start waited
      end
  end.

(** Dropping a suspended [get_inner]. *)
Definition drop_get_inner (s : get_state C) : St (World C) unit :=
  match s with
  | GWait _ _ wr => drop_wait wr
  | GValidate _ _ h | GConnect _ _ h => drop_held h
  | GBackoff _ _ => skip
  end.

(** [compio::time::timeout(connection_timeout, get_inner())] polled once. *)
Definition get_timed_out_now : St (World C) (progress got (get_fut C)) :=
  metric (count GetTimedOut 1);; mret (Done (Err TimedOut)).

Definition poll_timed wk (s : option (get_state C)) :
    St (World C) (progress got (get_fut C)) :=
  v ← ask (timer cfg.(connection_timeout));
  match v with
  | Fires_before =>
      match s with Some s => drop_get_inner s | None => skip end;;
      get_timed_out_now
  | _ =>
      r ← poll_get_inner wk s;
      match r, v with
      | Done a, _ => mret (Done a)
      | Yield s', Fires_after => drop_get_inner s';; get_timed_out_now
      | Yield s', _ => mret (Yield (GetTimed s'))
      end
  end.

(** [LocalPool::get], polled. *)
Definition poll_get wk (f : get_fut C) : St (World C) (progress got (get_fut C)) :=
  match f with
  | GetNew =>
      c ← load_closed;
      if c : bool then mret (Done (Err Closed))
      else
        fast ← (if negb cfg.(test_on_check_out) then pop_fresh_idle cfg else mret None);
        match fast with
        | Some h => t ← now; p ← checked_out false t h; mret (Done (Ok p))
        | None => poll_timed wk None
        end
  | GetTimed s => poll_timed wk (Some s)
  end.

Definition drop_get (f : get_fut C) : St (World C) unit :=
  match f with GetNew => skip | GetTimed s => drop_get_inner s end.

(** ** [try_get] *)

Abbreviation tried := (result (option lease) (RunError E)).
Abbreviation trying := (progress tried (try_fut C)).

Definition try_validate (again : St (World C) trying) h : St (World C) trying :=
  a ← poll_valid h;
  match a.1 with
  | Pending => mret (Yield (TryValidate a.2))
  | Ready true => t ← now; p ← checked_out false t a.2; mret (Done (Ok (Some p)))
  | Ready false => note_broken;; drop_held a.2;; again
  end.

Definition try_connect h : St (World C) trying :=
  a ← ask connect;
  match a with
  | Pending => mret (Yield (TryConnect h))
  | Ready (Ok raw) =>
      t ← now;
      note_created;;
      p ← checked_out false t (fill h raw t);
      mret (Done (Ok (Some p)))
  | Ready (Err e) => drop_held h;; mret (Done (Err (User e)))
  end.

(** The [while let] loop and what follows it. *)
Fixpoint try_loop (fuel : nat) : St (World C) trying :=
  match fuel with
  | O => no_fuel
  | S fuel =>
      popped ← pop_fresh_idle cfg;
      match popped with
      | Some h =>
          if cfg.(test_on_check_out) then try_validate (try_loop fuel) h
          else t ← now; p ← checked_out false t h; mret (Done (Ok (Some p)))
      | None =>
          reserved ← try_reserve cfg;
          match reserved with
          | Some h => try_connect h
          | None => mret (Done (Ok None))
          end
      end
  end.

(** [LocalPool::try_get], polled. *)
Definition poll_try (f : try_fut C) : St (World C) trying :=
  match f with
  | TryNew =>
      c ← load_closed;
      if c : bool then mret (Done (Err Closed))
      else fuel ← get_fuel; try_loop fuel
  | TryValidate h => fuel ← get_fuel; try_validate (try_loop fuel) h
  | TryConnect h => try_connect h
  end.

Definition drop_try (f : try_fut C) : St (World C) unit :=
  match f with TryNew => skip | TryValidate h | TryConnect h => drop_held h end.

(** ** [warm] and [maintain] *)

Abbreviation warmed := (result N (RunError E)).
Abbreviation warming := (progress warmed (warm_fut C)).

(** One dial under its timeout, polled. *)
Definition poll_dial (again : N → St (World C) warming) (made : N) h :
    St (World C) warming :=
  v ← ask (timer cfg.(connection_timeout));
  match v with
  | Fires_before => drop_held h;; mret (Done (Err TimedOut))
  | _ =>
      a ← ask connect;
      match a, v with
      | Ready (Ok raw), _ =>
          t ← now;
          note_created;;
          into_idle (fill h raw t);;
          made ← lift (add_u U32 made 1);
          again made
      | Ready (Err e), _ => drop_held h;; mret (Done (Err (User e)))
      | Pending, Fires_after => drop_held h;; mret (Done (Err TimedOut))
      | Pending, _ => mret (Yield (WarmDial made h))
      end
  end.

Fixpoint warm_loop (fuel : nat) (made : N) : St (World C) warming :=
  match fuel with
  | O => no_fuel
  | S fuel =>
      n ← idle_len;
      if n <? cfg.(min_idle) then
        reserved ← try_reserve cfg;
        match reserved with
        | None => mret (Done (Ok made))
        | Some h => poll_dial (warm_loop fuel) made h
        end
      else mret (Done (Ok made))
  end.

(** Each round of one poll parks a connection, so it goes round at most once
    per connection the floor is short of, and once more. *)
Definition warm_fuel : St (World C) nat :=
  l ← gets idle; mret (S (N.to_nat (cfg.(min_idle) - len l))).

(** [LocalPool::warm], polled. *)
Definition warm_start : St (World C) warming :=
  c ← load_closed;
  if c : bool then mret (Done (Ok 0))
  else fuel ← warm_fuel; warm_loop fuel 0.

Definition poll_warm (f : warm_fut C) : St (World C) warming :=
  match f with
  | WarmNew => warm_start
  | MaintainNew => reap cfg;; warm_start
  | WarmDial made h => fuel ← warm_fuel; poll_dial (warm_loop fuel) made h
  end.

Definition drop_warm (f : warm_fut C) : St (World C) unit :=
  match f with WarmNew | MaintainNew => skip | WarmDial _ h => drop_held h end.
End futures.
