(* ===== verification/Balance.v ===== *)
(** Every poll and every drop of the pool's futures keeps the ledger balanced,
    neither panics nor runs out of fuel, and accounts for the slot and the
    waiting id its future owns. *)

From S2P Require Import Prelude Manage Builder Metrics Store Waiters Inner Local Futures.

(** What a suspended future owns: slots, and the id of its place in the queue. *)

Definition wait_ids (wr : WaitReady) : gset N :=
  match wr.(wait_id) with Some id => {[id]} | None => ∅ end.

Section owns.
Context {C : Type}.

Definition get_state_slots (s : get_state C) : N :=
  match s with GValidate _ _ _ | GConnect _ _ _ => 1 | GWait _ _ _ | GBackoff _ _ => 0 end.
Definition get_state_ids (s : get_state C) : gset N :=
  match s with GWait _ _ wr => wait_ids wr | _ => ∅ end.
Definition get_slots (f : get_fut C) : N :=
  match f with GetNew => 0 | GetTimed s => get_state_slots s end.
Definition get_ids (f : get_fut C) : gset N :=
  match f with GetNew => ∅ | GetTimed s => get_state_ids s end.
Definition try_slots (f : try_fut C) : N :=
  match f with TryNew => 0 | TryValidate _ | TryConnect _ => 1 end.
Definition warm_slots (f : warm_fut C) : N :=
  match f with WarmNew | MaintainNew => 0 | WarmDial _ _ => 1 end.

(** A guard being validated is live and holds a connection. *)
Definition full_held (h : Held C) : Prop := ∃ conn, h = mkHeld (Some conn) false.

Definition get_state_ok (s : get_state C) : Prop :=
  match s with
  | GWait _ _ wr => is_Some wr.(wait_id)
  | GValidate _ _ h => full_held h
  | GConnect _ _ h => live_held h
  | GBackoff _ _ => True
  end.
Definition parks (s : get_state C) : Prop :=
  match s with GWait _ _ _ => True | _ => False end.
Definition get_ok (f : get_fut C) : Prop :=
  match f with GetNew => True | GetTimed s => get_state_ok s end.
Definition get_parks (f : get_fut C) : Prop :=
  match f with GetNew => False | GetTimed s => parks s end.
Definition try_ok (f : try_fut C) : Prop :=
  match f with TryNew => True | TryValidate h => full_held h | TryConnect h => live_held h end.
Definition warm_ok (f : warm_fut C) : Prop :=
  match f with WarmNew | MaintainNew => True | WarmDial _ h => live_held h end.

(** A lease that still holds its connection. *)
Definition lease_ok (p : PooledConnection C) : Prop := ∃ conn, p = mkPooled (Some conn).

Lemma full_live h : full_held h → live_held h.
Proof. by intros [conn ->]. Qed.
End owns.
#[export] Hint Resolve full_live : core.

Section balance.
Context {C E : Type} {F : Features} {R : Runtime} {RL : RuntimeLaws R}
  {M : ManageConnection C E}.
Context (cfg : PoolConfig) (own : N → Waker → Prop) (Hcfg : config_ok cfg).
Implicit Types (w : World C) (X : gset N) (h : Held C).

(** The books after a poll of [get_inner]: a lease or a suspended future has
    taken over what the poll was given. *)
Definition get_post (out : N) X (nx : N) (r : progress (result (PooledConnection C) (RunError E)) (get_state C)) w : Prop :=
  match r with
  | Done (Ok p) => lease_ok p ∧ ledger cfg own (out + 1) X 0 nx w
  | Done (Err _) => ledger cfg own out X 0 nx w
  | Yield s => get_state_ok s ∧ get_state_ids s ## X ∧
               (parks s → cfg.(max_size) ≤ out ∧ w.(closed) = false) ∧
               ledger cfg own (out + get_state_slots s) (get_state_ids s ∪ X) 0 nx w
  end.

(** *** [WaitReady] *)

Lemma requeued_ledger out X Y d d' nx nx' q w :
  ledger cfg own out X d nx w → wait_inv Y q → q.(next_id) ≤ nx' →
  q.(woken_upto) = w.(waiters).(woken_upto) →
  (∀ i wk, (i, wk) ∈ q.(entries) → own i wk) →
  (∀ i, i ∈ Y → i ≤ q.(woken_upto) → i ∈ X) →
  (w.(closed) = false → q.(entries) ≠ [] →
     len w.(idle) + (cfg.(max_size) - w.(slots)) + len q.(entries) ≤ N.of_nat (size Y) + d') →
  ledger cfg own out Y d' nx' (requeued q w).
Proof.
  intros [Hs Hm Hw Hn Hk Hsh Hg] HI Hnx Hup Hown HXY Hsh'. split; simpl; auto.
  - destruct Hk as [Hk1 Hk2 _ Hk4]. split; rewrite ?Hup in *; auto.
  - intros Hf. specialize (Hg Hf). unfold mirrored. rewrite Hf.
    destruct (metrics w). by injection Hg as -> -> ->.
Qed.

(** Leaving the queue with the wake in hand: one unit of capacity is owed. *)
Lemma unregister_ledger out X id nx w :
  id ∉ X → ledger cfg own out ({[id]} ∪ X) 0 nx w →
  wp (unregister id) (λ r w', w'.(closed) = w.(closed) ∧ w'.(idle) = w.(idle) ∧
    w'.(slots) = w.(slots) ∧
    ledger cfg own out X (if r : bool then 0 else 1) nx w') w.
Proof.
  intros Hid HL. unfold wp. rewrite (unregister_run _ _ _ (lg_wait _ _ _ _ _ _ _ HL)).
  assert (HX : ({[id]} ∪ X) ∖ {[id]} = X) by set_solver.
  assert (Hsz : size ({[id]} ∪ X) = S (size X))
    by (rewrite size_union, size_singleton; set_solver by lia).
  pose proof (lg_wait _ _ _ _ _ _ _ HL) as HI. simpl.
  case_decide as Hq; rewrite ?bool_decide_eq_true_2, ?bool_decide_eq_false_2 by done.
  - split_and!; [done..|]. eapply requeued_ledger; [exact HL| |apply HL|done|..].
    + simpl. rewrite <-HX at 1. apply wait_inv_remove. by destruct (waiters w).
    + intros i wk [_ Hin]%list_elem_of_filter. by eapply (wl_owner _ _ _ _ (lg_wakes _ _ _ _ _ _ _ HL)).
    + set_solver.
    + simpl. intros Hc He. pose proof (lg_share _ _ _ _ _ _ _ HL Hc) as Hsh.
      pose proof (len_fifo_remove _ _ (wi_sorted _ _ HI) Hq).
      destruct (entries (waiters w)); [set_solver|]. specialize (Hsh ltac:(done)). lia.
  - split_and!; [done..|]. destruct HL as [Hs Hm Hw Hn Hk Hsh Hg].
    split; auto.
    + rewrite <-HX. by apply wait_inv_forget.
    + destruct Hk as [Hk1 Hk2 Hk3 Hk4]. split; auto. intros i Hi. apply Hk4. set_solver.
    + intros Hc He. specialize (Hsh Hc He). lia.
Qed.

(** Giving up one's place passes an unused wake on. *)
Lemma drop_wait_ledger out X wr nx w :
  wait_ids wr ## X → ledger cfg own out (wait_ids wr ∪ X) 0 nx w →
  wp (drop_wait wr) (λ _ w', ledger cfg own out X 0 nx w' ∧ w'.(idle) = w.(idle)) w.
Proof.
  unfold wait_ids, drop_wait. destruct (wait_id wr) as [id|]; intros Hd HL.
  - wp_step. wp_apply (unregister_ledger out X) as [] w1 (_ & Hi1 & _ & HL1);
      [set_solver|exact HL|done|]. unfold when. simpl. eapply wp_mono; [apply wp_and|].
    + by apply wake_ledger with (d := 0); [|exact HL1].
    + apply wake_shelf.
    + intros [] w2 [HL2 Hs2]. split; [done|]. by rewrite (ss_idle _ _ Hs2).
  - wp_steps. by rewrite (left_id_L ∅ (∪)) in HL.
Qed.

(** Queueing under a fresh id, when there is no capacity to take. *)
Lemma push_ledger out X Y wk nx w :
  ledger cfg own out Y 0 nx w → wait_inv X w.(waiters) →
  w.(idle) = [] → cfg.(max_size) ≤ w.(slots) → (∀ i, i ∉ X → own i wk) → X ⊆ Y →
  let id := w.(waiters).(next_id) in
  id ∉ X ∧
  ledger cfg own out ({[id]} ∪ X) 0 (nx + 1)
    (requeued (mkWaiters (id + 1) w.(waiters).(woken_upto)
       (w.(waiters).(entries) ++ [(id, wk)])) w).
Proof.
  intros HL HI Hidle Hfull Hown HXY id. pose proof (lg_next _ _ _ _ _ _ _ HL) as Hn.
  assert (id ∉ X) as Hid by (intros Hin%(wi_next _ _ HI); unfold id in *; lia).
  split; [done|]. eapply requeued_ledger; [exact HL| |simpl; unfold id; lia|done|..].
  - apply wait_inv_push. by destruct (waiters w).
  - intros i wk' [Hin|[= -> ->]%list_elem_of_singleton]%elem_of_app; [|by apply Hown].
    by eapply (wl_owner _ _ _ _ (lg_wakes _ _ _ _ _ _ _ HL)).
  - intros i [->%elem_of_singleton|Hi]%elem_of_union Hle; [|set_solver].
    pose proof (wi_upto _ _ HI). simpl in Hle. unfold id in Hle. lia.
  - simpl. intros _ _. pose proof (wait_inv_size _ _ HI).
    rewrite Hidle, len_snoc, len_nil, size_union, size_singleton by set_solver. lia.
Qed.

(** Replacing a queued waker. *)
Lemma refresh_ledger out X id wk nx w :
  ledger cfg own out X 0 nx w → own id wk →
  ledger cfg own out X 0 (nx + 1)
    (set_waiters (mkWaiters w.(waiters).(next_id) w.(waiters).(woken_upto)
       (fifo_refresh id wk w.(waiters).(entries))) w).
Proof.
  intros [Hs Hm Hw Hn [Hk1 Hk2 Hk3 Hk4] Hsh Hg] Hown.
  assert (Hlen : len (fifo_refresh id wk (entries (waiters w))) = len (entries (waiters w)))
    by (unfold len, fifo_refresh; by rewrite length_fmap).
  pose proof (wait_inv_refresh _ _ id wk Hw).
  destruct w as [i s m q c t l]; split; simpl in *; rewrite ?Hlen; auto; [lia|..].
  { split; simpl; auto. intros j wk' (e & He & Hin)%list_elem_of_fmap.
    case_decide; [by injection He as -> ->|]. subst e. by apply Hk3. }
  intros Hc He. apply Hsh; [done|]. intros Hnil. by rewrite Hnil in He.
Qed.

(** [wk] may stand for any id nobody else owns. *)
Definition owns X (wk : Waker) : Prop := ∀ i, i ∉ X → own i wk.

Lemma register_ledger out X wr wk nx w :
  wait_ids wr ## X → ledger cfg own out (wait_ids wr ∪ X) 0 nx w → nx + 1 < U64 → owns X wk →
  w.(idle) = [] → cfg.(max_size) ≤ w.(slots) →
  wp (register wr.(wait_id) wk) (λ r w',
    is_Some r ∧ wait_ids (mkWait r true) ## X ∧ w'.(closed) = w.(closed) ∧
    ledger cfg own out (wait_ids (mkWait r true) ∪ X) 0 (nx + 1) w') w.
Proof.
  intros Hd HL Hnx Hown Hidle Hfull. pose proof (lg_wait _ _ _ _ _ _ _ HL) as HI.
  pose proof (lg_next _ _ _ _ _ _ _ HL) as Hn.
  assert (Hpush : wait_inv X w.(waiters) → wp (λ w, Val (Some w.(waiters).(next_id),
      requeued (mkWaiters (w.(waiters).(next_id) + 1) w.(waiters).(woken_upto)
        (w.(waiters).(entries) ++ [(w.(waiters).(next_id), wk)])) w)) (λ r w',
    is_Some r ∧ wait_ids (mkWait r true) ## X ∧ w'.(closed) = w.(closed) ∧
    ledger cfg own out (wait_ids (mkWait r true) ∪ X) 0 (nx + 1) w') w).
  { intros HI'. destruct (push_ledger _ _ _ wk _ _ HL HI' Hidle Hfull Hown) as [Hid HL']; [set_solver|].
    unfold wp, wait_ids. simpl. split_and!; [eauto|set_solver|by destruct w|exact HL']. }
  unfold wp in *. rewrite (register_run _ _ _ _ HI) by lia. unfold wait_ids in Hd, HL.
  destruct (wait_id wr) as [i|].
  - assert (HX : ({[i]} ∪ X) ∖ {[i]} = X) by set_solver. case_decide as Hq.
    + split_and!; [eauto|exact Hd|by destruct w|]. unfold wait_ids. simpl. apply refresh_ledger; [done|]. apply Hown. set_solver.
    + apply Hpush. rewrite <-HX. by apply wait_inv_forget; [destruct HL|].
  - apply Hpush. rewrite (left_id_L ∅ (∪)) in HL. apply (lg_wait _ _ _ _ _ _ _ HL).
Qed.

(** A poll of [WaitReady] either queues the task, or finds the pool closed or
    capacity in reach, with one unit granted. *)
Lemma poll_wait_ready_ledger out X wr wk nx w :
  wait_ids wr ## X → ledger cfg own out (wait_ids wr ∪ X) 0 nx w → nx + 1 < U64 → owns X wk →
  wp (poll_wait_ready cfg wk wr) (λ r w',
    match r.1 with
    | Pending => is_Some r.2.(wait_id) ∧ wait_ids r.2 ## X ∧
                 (cfg.(max_size) ≤ out ∧ w'.(closed) = false) ∧
                 ledger cfg own out (wait_ids r.2 ∪ X) 0 (nx + 1) w'
    | Ready p => p = wr.(parked) ∧ r.2 = mkWait None p ∧ ledger cfg own out X 1 nx w' ∧
                 (w'.(closed) = true ∨ out < cfg.(max_size)) ∧ w'.(idle) = w.(idle)
    end) w.
Proof.
  intros Hd HL Hnx Hown. unfold poll_wait_ready. wp_step.
  wp_apply ready_now_books as [] w1 [Hb1 Hr]; (eapply ledger_same in HL; [|exact Hb1]);
    pose proof (sb_idle _ _ Hb1) as Hi1.
  2: { destruct Hr as (Hc & Hidle & Hfull). pose proof (lg_slots _ _ _ _ _ _ _ HL) as Hs1.
       rewrite Hidle, len_nil in Hs1.
       wp_step. wp_apply register_ledger as r w2 (Hs & Hd2 & Hc2 & HL2); [done..|].
       wp_steps. simpl. split_and!; [done|done|lia|congruence|done]. }
  assert (Hr' : w1.(closed) = true ∨ out < cfg.(max_size)).
  { pose proof (lg_slots _ _ _ _ _ _ _ HL). pose proof (lg_max _ _ _ _ _ _ _ HL).
    destruct Hr as [?|[Hi|?]]; [auto|right|right; lia].
    destruct (idle w1); [done|]. rewrite len_cons in *. lia. }
  wp_step. eapply wp_mono with (Q := λ _ w', ledger cfg own out X 1 nx w' ∧
    (w'.(closed) = true ∨ out < cfg.(max_size)) ∧ w'.(idle) = w1.(idle)).
  { unfold wait_ids in *. destruct (wait_id wr) as [id|].
    - wp_step. wp_apply (unregister_ledger out X) as r w2 (Hc2 & Hi2 & _ & HL2);
        [set_solver|exact HL|]. wp_steps. rewrite Hc2. split; [|done].
      eapply (ledger_weaken cfg own); [..|exact HL2]; [by destruct r|done].
    - wp_steps. rewrite (left_id_L ∅ (∪)) in HL. split; [|done].
      eapply (ledger_weaken cfg own); [..|exact HL]; [lia|done]. }
  intros [] w2 (HL2 & Hr2 & Hi2). wp_step. apply wp_load_closed. intros c w3 Hb3 Hc3.
  eapply ledger_same in HL2; [|exact Hb3].
  assert (w3.(closed) = true ∨ out < cfg.(max_size)) as Hr3
    by (destruct Hr2 as [Hr2|]; [left; by apply (sb_closed _ _ Hb3)|by right]).
  rewrite <-Hi1, <-Hi2, <-(sb_idle _ _ Hb3). wp_step. wp_when; subst c.
  - wp_apply wake_all_ledger as [] w4 (HL4 & Hc4 & Hi4); [done..|]. wp_steps; simpl.
    split_and!; auto.
  - wp_steps; simpl. split_and!; auto.
Qed.

(** *** [get_inner] *)

Lemma poll_valid_full h w (Q : Poll bool * Held C → World C → Prop) :
  full_held h →
  (∀ r w', same_books w w' → full_held r.2 → w'.(idle) = w.(idle) → Q r w') →
  wp (poll_valid h) Q w.
Proof.
  intros [conn ->] HQ. unfold poll_valid. cbn [held_conn]. wp_step. apply wp_ask. wp_steps.
  apply HQ; [apply same_books_tick|simpl; eauto|by destruct w].
  by eexists.
Qed.

Lemma checked_out_ledger out X nx waited start h w :
  full_held h → ledger cfg own (out + 1) X 0 nx w →
  wp (checked_out waited start h)
    (λ p w', lease_ok p ∧ ledger cfg own (out + 1) X 0 nx w') w.
Proof.
  intros [conn ->] HL. unfold checked_out. wp_step.
  wp_apply record_acquire_ledger as [] w1 [HL1 _]; [done..|].
  apply wp_into_pooled. split; [by eexists|done].
Qed.

Lemma get_post_lease out X nx p w :
  lease_ok p ∧ ledger cfg own (out + 1) X 0 nx w → get_post out X (nx + 1) (Done (Ok p)) w.
Proof. intros [Hp HL]. split; [done|]. eapply (ledger_weaken cfg own); [..|exact HL]; lia. Qed.

Lemma get_post_err out X d nx e w :
  (d = 0 ∨ w.(closed) = true) → ledger cfg own out X d nx w →
  get_post out X (nx + 1) (Done (Err e)) w.
Proof.
  intros Hd HL. simpl. destruct Hd as [->|Hc].
  - eapply (ledger_weaken cfg own); [..|exact HL]; lia.
  - apply (ledger_weaken cfg own out X 0 0 nx (nx + 1)); [lia|lia|].
    by eapply ledger_closed.
Qed.

Section again.
Context (out : N) (X : gset N) (nx : N) (Hnx : nx + 1 < U64).
Context (fuel : nat).
Context (again : bool → St (World C) (progress (result (PooledConnection C) (RunError E)) (get_state C))).

(** [continue] is covered whenever fewer than [fuel] connections are idle. *)
Hypothesis again_ok : ∀ waited w, (length w.(idle) < fuel)%nat →
  ledger cfg own out X 0 nx w → wp (again waited) (get_post out X (nx + 1)) w.

Lemma poll_backoff_fresh start waited w :
  ledger cfg own out X 0 nx w →
  wp (poll_backoff again true start waited) (get_post out X (nx + 1)) w.
Proof.
  intros HL. unfold poll_backoff. wp_step. apply wp_ask. rewrite sleep_suspends. wp_steps.
  eapply ledger_same in HL; [|apply same_books_tick]. simpl.
  rewrite N.add_0_r, (left_id_L ∅ (∪)).
  split_and!; [done|set_solver|by intros []|]. eapply (ledger_weaken cfg own); [..|exact HL]; lia.
Qed.

Lemma poll_backoff_ledger start waited w :
  (length w.(idle) < fuel)%nat → ledger cfg own out X 0 nx w →
  wp (poll_backoff again false start waited) (get_post out X (nx + 1)) w.
Proof.
  intros Hlen HL. unfold poll_backoff. wp_step. apply wp_ask.
  eapply ledger_same in HL; [|apply same_books_tick].
  assert (length (idle (next_tick w)) < fuel)%nat by (by destruct w).
  destruct (sleep_done false (tick w)); [by apply again_ok|]. wp_steps. simpl.
  rewrite N.add_0_r, (left_id_L ∅ (∪)).
  split_and!; [done|set_solver|by intros []|]. eapply (ledger_weaken cfg own); [..|exact HL]; lia.
Qed.

Lemma poll_validate_ledger start waited h w :
  (length w.(idle) < fuel)%nat → full_held h → ledger cfg own (out + 1) X 0 nx w →
  wp (poll_validate again start waited h) (get_post out X (nx + 1)) w.
Proof.
  intros Hlen Hh HL. unfold poll_validate. wp_step.
  apply poll_valid_full; [done|]. intros [a h'] w1 Hb1 Hh1 Hi1. cbn [fst snd].
  simpl in Hh1. eapply ledger_same in HL; [|exact Hb1]. destruct a as [|[]].
  - wp_steps. simpl. rewrite (left_id_L ∅ (∪)). split_and!; [done|set_solver|by intros []|].
    eapply (ledger_weaken cfg own); [..|exact HL]; lia.
  - wp_step. wp_apply checked_out_ledger as p w2 HL2; [done..|].
    wp_steps. by apply get_post_lease.
  - wp_step. eapply ledger_note; [exact HL|]. intros w2 HL2 Hi2 _.
    wp_step. pose proof (full_live _ Hh1).
    wp_apply drop_held_spec as [] w3 [HL3 [Hi3 _ _ _]]; [done..|].
    apply again_ok; [|done]. rewrite Hi3, Hi2, Hi1. lia.
Qed.

Lemma fill_full h raw t : live_held h → full_held (fill h raw t).
Proof. unfold live_held, fill. intros ->. by eexists. Qed.

Lemma poll_connect_ledger start waited h w :
  live_held h → ledger cfg own (out + 1) X 0 nx w →
  wp (poll_connect cfg again start waited h) (get_post out X (nx + 1)) w.
Proof.
  intros Hh HL. unfold poll_connect. wp_step. apply wp_ask.
  eapply ledger_same in HL; [|apply same_books_tick].
  destruct (connect (tick w)) as [|[raw|e]].
  - wp_steps. simpl. rewrite (left_id_L ∅ (∪)). split_and!; [done|set_solver|by intros []|].
    eapply (ledger_weaken cfg own); [..|exact HL]; lia.
  - wp_step. eapply ledger_now; [exact HL|]. intros w1 HL1 _. wp_step.
    eapply ledger_note; [exact HL1|]. intros w2 HL2 _ _. wp_step.
    wp_apply checked_out_ledger as p w3 HL3; [by apply fill_full|done|].
    wp_steps. by apply get_post_lease.
  - wp_step. eapply wp_mono with (Q := λ _ w', ledger cfg own (out + 1) X 0 nx w').
    { destruct (retry_connection cfg); [|by wp_steps]. wp_step.
      apply wp_load_closed. intros c w1 Hb1 _. wp_steps. by eapply ledger_same. }
    intros [] w1 HL1; wp_step; (wp_apply drop_held_ledger as [] w2 HL2; [done..|]).
    + by apply poll_backoff_fresh.
    + wp_steps. eapply get_post_err; eauto.
Qed.

(** The wait is over: closed, or a unit of capacity is there to be taken, and
    nobody else runs before it is. *)
Lemma after_wait_ledger start waited w :
  (length w.(idle) ≤ fuel)%nat → ledger cfg own out X 1 nx w →
  w.(closed) = true ∨ out < cfg.(max_size) →
  wp (after_wait cfg again start waited) (get_post out X (nx + 1)) w.
Proof.
  intros Hlen HL Hr. unfold after_wait. wp_step. apply wp_load_closed. intros c w1 Hb1 Hc1.
  eapply ledger_same in HL; [|exact Hb1]. destruct c.
  { wp_steps. eapply get_post_err; [|exact HL]. auto. }
  assert (out < cfg.(max_size)) as Hroom.
  { destruct Hr as [Hr|]; [|done]. apply (sb_closed _ _ Hb1) in Hr. congruence. }
  rewrite <-(sb_idle _ _ Hb1) in Hlen.
  wp_step. wp_apply pop_fresh_idle_ledger as [h|] w2 Hpop; [done|done|..].
  - destruct Hpop as (HL2 & Hlen2 & conn & -> & _ & _).
    assert (full_held (mkHeld (Some conn) false)) by (by eexists).
    destruct (test_on_check_out cfg).
    + apply poll_validate_ledger; [lia|done|exact HL2].
    + wp_step. wp_apply checked_out_ledger as p w3 HL3; [done|exact HL2|].
      wp_steps. by apply get_post_lease.
  - destruct Hpop as [HL2 Hnil]. wp_step.
    wp_apply try_reserve_ledger as [h|] w3 Hres; [done|exact HL2|..].
    + destruct Hres as [-> HL3]. by apply poll_connect_ledger.
    + destruct Hres as [-> Hfull]. pose proof (lg_slots _ _ _ _ _ _ _ HL2) as Hs.
      rewrite Hnil, len_nil in Hs. lia.
Qed.

Lemma poll_wait_ledger wk start waited wr w :
  (length w.(idle) ≤ fuel)%nat → owns X wk → wait_ids wr ## X →
  ledger cfg own out (wait_ids wr ∪ X) 0 nx w →
  wp (poll_wait cfg again wk start waited wr) (get_post out X (nx + 1)) w.
Proof.
  intros Hlen Hown Hd HL. unfold poll_wait. wp_step.
  wp_apply poll_wait_ready_ledger as [[|p] wr'] w1 Hr; [done..| |]; cbn [fst snd] in *.
  - destruct Hr as (Hs & Hd' & Hf & HL'). wp_steps. simpl. rewrite N.add_0_r. auto.
  - destruct Hr as (-> & _ & HL' & Hr & Hi). apply after_wait_ledger; [|done..].
    by rewrite Hi.
Qed.
End again.

Lemma get_loop_ledger fuel wk start waited out X nx w :
  nx + 1 < U64 → owns X wk → (length w.(idle) < fuel)%nat → ledger cfg own out X 0 nx w →
  wp (get_loop cfg fuel wk start waited) (get_post out X (nx + 1)) w.
Proof.
  intros Hnx Hown. revert waited w. induction fuel as [|fuel IH]; intros waited w Hlen HL; [lia|].
  cbn [get_loop]. wp_step. apply wp_load_closed. intros [] w1 Hb1 Hc1;
    (eapply ledger_same in HL; [|exact Hb1]).
  { wp_steps. eapply get_post_err; [by left|done]. }
  apply (poll_wait_ledger out X nx Hnx fuel).
  - intros waited' w' Hlen' HL'. by apply IH.
  - rewrite (sb_idle _ _ Hb1). lia.
  - done.
  - set_solver.
  - unfold wait_ids. simpl. by rewrite (left_id_L ∅ (∪)).
Qed.

(** What a suspended [get_inner] owns, as a precondition. *)
Definition get_inner_pre (out : N) X (nx : N) (s : get_state C) w : Prop :=
  get_state_ok s ∧ get_state_ids s ## X ∧
  ledger cfg own (out + get_state_slots s) (get_state_ids s ∪ X) 0 nx w.

Lemma poll_get_inner_ledger wk s out X nx w :
  nx + 1 < U64 → owns X wk →
  match s with None => ledger cfg own out X 0 nx w | Some s => get_inner_pre out X nx s w end →
  wp (poll_get_inner cfg wk s) (get_post out X (nx + 1)) w.
Proof.
  intros Hnx Hown Hpre. unfold poll_get_inner, get_fuel.
  destruct s as [s|].
  - destruct Hpre as (Hok & Hd & HL). wp_step. wp_steps.
    assert (Hagain : ∀ start waited w', (length (idle w') < S (length (idle w)))%nat →
      ledger cfg own out X 0 nx w' →
      wp (get_loop cfg (S (length (idle w))) wk start waited) (get_post out X (nx + 1)) w')
      by (intros; by apply get_loop_ledger).
    destruct s as [start waited wr|start waited h|start waited h|start waited];
      simpl in Hok, Hd, HL; rewrite ?N.add_0_r, ?(left_id_L ∅ (∪)) in HL.
    + apply poll_wait_ledger with (fuel := S (length (idle w))); auto.
    + apply poll_validate_ledger with (fuel := S (length (idle w))); auto.
    + apply poll_connect_ledger with (fuel := S (length (idle w))); auto.
    + apply poll_backoff_ledger with (fuel := S (length (idle w))); auto.
  - wp_step. eapply ledger_now; [exact Hpre|]. intros w1 HL1 _. wp_steps.
    apply get_loop_ledger; [done|done|lia|done].
Qed.

Lemma drop_get_inner_spec s out X nx w :
  get_inner_pre out X nx s w →
  wp (drop_get_inner s) (λ _ w', ledger cfg own out X 0 nx w' ∧ w'.(idle) = w.(idle)) w.
Proof.
  assert (Hheld : ∀ h, live_held h → ledger cfg own (out + 1) X 0 nx w →
    wp (drop_held h) (λ _ w', ledger cfg own out X 0 nx w' ∧ w'.(idle) = w.(idle)) w).
  { intros h Hh HL. wp_apply drop_held_spec as [] w1 [HL1 []]; done. }
  intros (Hok & Hd & HL). destruct s as [start waited wr|start waited h|start waited h|start waited];
    simpl in *; rewrite ?N.add_0_r, ?(left_id_L ∅ (∪)) in HL; auto.
  - by apply drop_wait_ledger.
  - by wp_steps.
Qed.

Lemma drop_get_inner_ledger s out X nx w :
  get_inner_pre out X nx s w →
  wp (drop_get_inner s) (λ _ w', ledger cfg own out X 0 nx w') w.
Proof. intros Hpre. by wp_apply drop_get_inner_spec as [] w' []. Qed.

(** *** [get] *)

Definition get_fut_post (out : N) X (nx : N)
    (r : progress (result (PooledConnection C) (RunError E)) (get_fut C)) w : Prop :=
  match r with
  | Done (Ok p) => lease_ok p ∧ ledger cfg own (out + 1) X 0 nx w
  | Done (Err _) => ledger cfg own out X 0 nx w
  | Yield f => get_ok f ∧ get_ids f ## X ∧
               (get_parks f → cfg.(max_size) ≤ out ∧ w.(closed) = false) ∧
               ledger cfg own (out + get_slots f) (get_ids f ∪ X) 0 nx w
  end.

Lemma get_timed_out_ledger out X nx w :
  ledger cfg own out X 0 nx w → wp get_timed_out_now (get_fut_post out X nx) w.
Proof.
  intros HL. unfold get_timed_out_now. wp_step. eapply ledger_note; [exact HL|].
  intros w1 HL1 _ _. by wp_steps.
Qed.

Lemma poll_timed_ledger wk s out X nx w :
  nx + 1 < U64 → owns X wk →
  match s with None => ledger cfg own out X 0 nx w | Some s => get_inner_pre out X nx s w end →
  wp (poll_timed cfg wk s) (get_fut_post out X (nx + 1)) w.
Proof.
  intros Hnx Hown Hpre. unfold poll_timed. wp_step. apply wp_ask.
  assert (Hpre' : match s with
    | None => ledger cfg own out X 0 nx (next_tick w)
    | Some s => get_inner_pre out X nx s (next_tick w) end).
  { destruct s as [s|]; [destruct Hpre as (? & ? & HL); split_and!; [done..|]|];
      (eapply ledger_same; [apply same_books_tick|done]). }
  clear Hpre.
  assert (Hgo : ∀ v, wp (r ← poll_get_inner cfg wk s;
    match r, v with
    | Done a, _ => mret (Done a)
    | Yield s', Fires_after => drop_get_inner s';; get_timed_out_now
    | Yield s', _ => mret (Yield (GetTimed s'))
    end) (get_fut_post out X (nx + 1)) (next_tick w)).
  { intros v. wp_step. wp_apply poll_get_inner_ledger as [[p|e]|s'] w1 Hpost; [done..| | |].
    - by wp_steps.
    - by wp_steps.
    - destruct v; [by wp_steps|by wp_steps|]. wp_step. destruct Hpost as (?&?&_&?).
      wp_apply drop_get_inner_ledger as [] w2 HL2; [by split_and!|].
      by apply get_timed_out_ledger. }
  destruct (timer _ _); [apply (Hgo Not_elapsed)| |apply (Hgo Fires_after)].
  wp_step. eapply wp_mono with (Q := λ _ w', ledger cfg own out X 0 nx w').
  - destruct s as [s|]; [by apply drop_get_inner_ledger|by wp_steps].
  - intros [] w1 HL1. apply get_timed_out_ledger.
    eapply (ledger_weaken cfg own); [..|exact HL1]; lia.
Qed.

Lemma poll_get_ledger wk f out X nx w :
  nx + 1 < U64 → owns X wk → get_ok f → get_ids f ## X →
  ledger cfg own (out + get_slots f) (get_ids f ∪ X) 0 nx w →
  wp (poll_get cfg wk f) (get_fut_post out X (nx + 1)) w.
Proof.
  intros Hnx Hown Hok Hd HL. destruct f as [|s]; simpl in *; [|by apply poll_timed_ledger].
  rewrite N.add_0_r, (left_id_L ∅ (∪)) in HL. wp_step. apply wp_load_closed.
  intros c w1 Hb1 Hc1. eapply ledger_same in HL; [|exact Hb1]. destruct c.
  { wp_steps. simpl. eapply (ledger_weaken cfg own); [..|exact HL]; lia. }
  wp_step. eapply wp_mono with (Q := λ r w', match r with
    | Some h => full_held h ∧ ledger cfg own (out + 1) X 0 nx w'
    | None => ledger cfg own out X 0 nx w' end).
  { destruct (negb _); [|by wp_steps].
    wp_apply pop_fresh_idle_ledger as [h|] w2 Hpop; [done|done|..].
    - destruct Hpop as (HL2 & _ & conn & -> & _). split; [by eexists|done].
    - apply Hpop. }
  intros [h|] w2 Hfast; [|by apply poll_timed_ledger].
  destruct Hfast as [Hh HL2]. wp_step. eapply ledger_now; [exact HL2|]. intros w3 HL3 _.
  wp_step. wp_apply checked_out_ledger as p w4 [Hp HL4]; [done..|]. wp_steps. simpl.
  split; [done|]. eapply (ledger_weaken cfg own); [..|exact HL4]; lia.
Qed.

Lemma drop_get_ledger f out X nx w :
  get_ok f → get_ids f ## X → ledger cfg own (out + get_slots f) (get_ids f ∪ X) 0 nx w →
  wp (drop_get f) (λ _ w', ledger cfg own out X 0 nx w') w.
Proof.
  intros Hok Hd HL. destruct f as [|s]; simpl in *; [|by apply drop_get_inner_ledger].
  rewrite N.add_0_r, (left_id_L ∅ (∪)) in HL. by wp_steps.
Qed.

(** *** [try_get] *)

Definition try_post (out : N) X (nx : N)
    (r : progress (result (option (PooledConnection C)) (RunError E)) (try_fut C)) w : Prop :=
  match r with
  | Done (Ok (Some p)) => lease_ok p ∧ ledger cfg own (out + 1) X 0 nx w
  | Done _ => ledger cfg own out X 0 nx w
  | Yield f => try_ok f ∧ ledger cfg own (out + try_slots f) X 0 nx w
  end.

Lemma try_connect_ledger out X nx h w :
  live_held h → ledger cfg own (out + 1) X 0 nx w →
  wp (try_connect (E:=E) h) (try_post out X nx) w.
Proof.
  intros Hh HL. unfold try_connect. wp_step. apply wp_ask.
  eapply ledger_same in HL; [|apply same_books_tick].
  destruct (connect (tick w)) as [|[raw|e]]; [by wp_steps| |].
  - wp_step. eapply ledger_now; [exact HL|]. intros w1 HL1 _. wp_step.
    eapply ledger_note; [exact HL1|]. intros w2 HL2 _ _. wp_step.
    wp_apply checked_out_ledger as p w3 HL3; [by apply fill_full|done|]. by wp_steps.
  - wp_step. wp_apply drop_held_ledger as [] w2 HL2; [done..|]. by wp_steps.
Qed.

Lemma try_validate_ledger again fuel out X nx h w :
  (∀ w', (length w'.(idle) < fuel)%nat → ledger cfg own out X 0 nx w' →
     wp again (try_post out X nx) w') →
  (length w.(idle) < fuel)%nat → full_held h → ledger cfg own (out + 1) X 0 nx w →
  wp (try_validate (E:=E) again h) (try_post out X nx) w.
Proof.
  intros Hagain Hlen Hh HL. unfold try_validate. wp_step.
  apply poll_valid_full; [done|]. intros [a h'] w1 Hb1 Hh1 Hi1. cbn [fst snd].
  simpl in Hh1. eapply ledger_same in HL; [|exact Hb1]. destruct a as [|[]].
  - by wp_steps.
  - wp_step. eapply ledger_now; [exact HL|]. intros w2 HL2 _. wp_step.
    wp_apply checked_out_ledger as p w3 HL3; [done..|]. by wp_steps.
  - wp_step. eapply ledger_note; [exact HL|]. intros w2 HL2 Hi2 _.
    wp_step. pose proof (full_live _ Hh1).
    wp_apply drop_held_spec as [] w3 [HL3 [Hi3 _ _ _]]; [done..|].
    apply Hagain; [|done]. rewrite Hi3, Hi2, Hi1. lia.
Qed.

Lemma try_loop_ledger fuel out X nx w :
  (length w.(idle) < fuel)%nat → ledger cfg own out X 0 nx w →
  wp (try_loop (E:=E) cfg fuel) (try_post out X nx) w.
Proof.
  revert w. induction fuel as [|fuel IH]; intros w Hlen HL; [lia|]. cbn [try_loop].
  wp_step. wp_apply pop_fresh_idle_ledger as [h|] w1 Hpop; [done|done|..].
  - destruct Hpop as (HL1 & Hlen1 & conn & -> & _ & _).
    assert (full_held (mkHeld (Some conn) false)) by (by eexists).
    destruct (test_on_check_out cfg).
    + eapply try_validate_ledger; [exact IH|lia|done|exact HL1].
    + wp_step. eapply ledger_now; [exact HL1|]. intros w2 HL2 _. wp_step.
      wp_apply checked_out_ledger as p w3 HL3; [done..|]. by wp_steps.
  - destruct Hpop as [HL1 _]. wp_step.
    wp_apply try_reserve_ledger as [h|] w2 [-> HL2]; [done|exact HL1|..].
    + by apply try_connect_ledger.
    + by wp_steps.
Qed.

Lemma poll_try_ledger f out X nx w :
  try_ok f → ledger cfg own (out + try_slots f) X 0 nx w →
  wp (poll_try (E:=E) cfg f) (try_post out X nx) w.
Proof.
  intros Hok HL. unfold poll_try, get_fuel. destruct f as [|h|h]; simpl in *.
  - rewrite N.add_0_r in HL. wp_step. apply wp_load_closed. intros c w1 Hb1 _.
    eapply ledger_same in HL; [|exact Hb1]. destruct c; [by wp_steps|].
    wp_step. wp_steps. apply try_loop_ledger; [lia|done].
  - wp_step. wp_steps.
    apply try_validate_ledger with (fuel := S (length (idle w))); [|lia|done|exact HL].
    intros. by apply try_loop_ledger.
  - by apply try_connect_ledger.
Qed.

Lemma drop_try_ledger f out X nx w :
  try_ok f → ledger cfg own (out + try_slots f) X 0 nx w →
  wp (drop_try f) (λ _ w', ledger cfg own out X 0 nx w') w.
Proof.
  intros Hok HL. destruct f as [|h|h]; simpl in *; [|apply drop_held_ledger; auto..].
  rewrite N.add_0_r in HL. by wp_steps.
Qed.

(** *** [warm] and [maintain] *)

Definition warm_post (out : N) X (nx : N)
    (r : progress (result N (RunError E)) (warm_fut C)) w : Prop :=
  match r with
  | Done _ => ledger cfg own out X 0 nx w
  | Yield f => warm_ok f ∧ ledger cfg own (out + warm_slots f) X 0 nx w
  end.

(** How many connections the pool is short of its floor. *)
Definition short (n : N) : N := cfg.(min_idle) - n.

(** The sum of the connections opened panics only past its width, with overflow checked. *)
Lemma add_u_fails m a b : add_u m a b = Panic → overflow_checks = true ∧ m ≤ a + b.
Proof. unfold add_u. destruct (N.ltb_spec (a + b) m); [done|]. by destruct overflow_checks. Qed.
Lemma add_u_ends m a b : add_u m a b ≠ NoFuel.
Proof. unfold add_u. by repeat case_match. Qed.
Lemma add_u_checked m a b c : add_u m a b = Val c → overflow_checks = true → c = a + b.
Proof. unfold add_u. intros Ha Ho. rewrite Ho in Ha. by destruct (a + b <? m); simplify_eq. Qed.

Lemma poll_dial_ledger why again made out X nx h w :
  (∀ made' w', short (len w'.(idle)) = short (len w.(idle) + 1) → ledger cfg own out X 0 nx w' →
     add_u U32 made 1 = Val made' → may_fail why (again made') (warm_post out X nx) w') →
  (add_u U32 made 1 = Panic → why) → live_held h → ledger cfg own (out + 1) X 0 nx w →
  may_fail why (poll_dial (E:=E) cfg again made h) (warm_post out X nx) w.
Proof.
  intros Hagain Hmade Hh HL. unfold poll_dial. apply may_fail_after, wp_ask.
  eapply ledger_same in HL; [|apply same_books_tick].
  assert (Hdrop : ∀ w0 e, ledger cfg own (out + 1) X 0 nx w0 →
    may_fail why (drop_held h;; mret (Done (Err e))) (warm_post out X nx) w0).
  { intros w0 e HL0. apply wp_may_fail. wp_step. wp_apply drop_held_ledger as [] w2 HL2; [done..|].
    by wp_steps. }
  assert (Hgo : ∀ v, may_fail why (a ← ask connect;
      match a, v with
      | Ready (Ok raw), _ =>
          t ← now; note_created;; into_idle (fill h raw t);;
          made ← lift (add_u U32 made 1); again made
      | Ready (Err e), _ => drop_held h;; mret (Done (Err (User e)))
      | Pending, Fires_after => drop_held h;; mret (Done (Err TimedOut))
      | Pending, _ => mret (Yield (WarmDial made h))
      end) (warm_post out X nx) (next_tick w)).
  { intros v. apply may_fail_after, wp_ask.
    eapply ledger_same in HL; [|apply same_books_tick].
    destruct (connect _) as [|[raw|e]]; [|clear Hdrop|by apply Hdrop].
    { destruct v; [by apply wp_may_fail; wp_steps..|by apply Hdrop]. }
    apply may_fail_after. eapply ledger_now; [exact HL|]. intros w1 HL1 Hi1. apply may_fail_after.
    eapply ledger_note; [exact HL1|]. intros w2 HL2 Hi2 _. apply may_fail_after.
    wp_apply into_idle_ledger as [] w3 [HL3 Hi3]; [done..|]. apply may_fail_bind, may_fail_lift;
      [|done|apply add_u_ends]. intros made' Hmade'. apply Hagain; [|done|done].
    rewrite Hi3, Hi2, Hi1, len_snoc. by destruct w. }
  destruct (timer _ _); [apply (Hgo Not_elapsed)|by apply Hdrop|apply (Hgo Fires_after)].
Qed.

(** The rounds of one poll open no more than the pool is short of, so [top] bounds their sum. *)
Lemma warm_loop_ledger top fuel made out X nx w :
  short (len w.(idle)) < N.of_nat fuel →
  (overflow_checks = true → made + short (len w.(idle)) ≤ top) →
  ledger cfg own out X 0 nx w →
  may_fail (overflow_checks = true ∧ U32 ≤ top) (warm_loop (E:=E) cfg fuel made) (warm_post out X nx) w.
Proof.
  revert made w. induction fuel as [|fuel IH]; intros made w Hf Hmade HL; [lia|].
  cbn [warm_loop]. unfold idle_len. apply may_fail_after. wp_steps.
  rewrite as_u32_small by (pose proof (max_size_u32 _ Hcfg); destruct HL; lia).
  destruct (N.ltb_spec (len (idle w)) (min_idle cfg)) as [Hlt|Hge]; [|by apply wp_may_fail; wp_steps].
  apply may_fail_after. wp_apply try_reserve_spec as [h|] w1 Hr; [done..| |];
    [|by destruct Hr as [-> _]; apply wp_may_fail; wp_steps].
  destruct Hr as (-> & HL1 & Hi1). unfold short in *. rewrite <-Hi1 in *.
  apply poll_dial_ledger; [| |done|done].
  - intros made' w2 Hs HL2 Hm. apply IH; [unfold short in *; lia| |done].
    intros Ho. rewrite (add_u_checked _ _ _ _ Hm Ho). specialize (Hmade Ho). unfold short in *. lia.
  - intros [Ho Hw]%add_u_fails. specialize (Hmade Ho). split; [done|lia].
Qed.

(** What one poll can bring the count of connections opened to: [made] is a [u32]. *)
Definition warm_top (f : warm_fut C) w : N :=
  match f with WarmDial made _ => made + (1 `max` short (len w.(idle))) | _ => 0 end.
Definition warm_small (f : warm_fut C) : Prop :=
  match f with WarmDial made _ => made + cfg.(max_size) < U32 | _ => True end.

Lemma warm_small_top f w : warm_small f → warm_top f w < U32.
Proof.
  pose proof (max_size_pos _ Hcfg). pose proof (min_idle_le _ Hcfg).
  destruct f as [| |made h]; simpl; [done|done|]. unfold short. lia.
Qed.

Lemma warm_start_ledger out X nx w :
  ledger cfg own out X 0 nx w → wp (warm_start (E:=E) cfg) (warm_post out X nx) w.
Proof.
  intros HL. unfold warm_start. wp_step. apply wp_load_closed. intros c w1 Hb1 _.
  eapply ledger_same in HL; [|exact Hb1]. destruct c; [by wp_steps|].
  unfold warm_fuel. wp_step. wp_steps.
  pose proof (max_size_u32 _ Hcfg). pose proof (min_idle_le _ Hcfg).
  apply (may_fail_wp (overflow_checks = true ∧ U32 ≤ short (len w1.(idle)))); [unfold short; lia|].
  apply warm_loop_ledger; [unfold short; lia|lia|done].
Qed.

Lemma poll_warm_runs f out X nx w :
  warm_ok f → ledger cfg own (out + warm_slots f) X 0 nx w →
  may_fail (overflow_checks = true ∧ U32 ≤ warm_top f w) (poll_warm (E:=E) cfg f) (warm_post out X nx) w.
Proof.
  intros Hok HL. unfold poll_warm.
  destruct f as [| |made h]; simpl in *; rewrite ?N.add_0_r in HL.
  - by apply wp_may_fail, warm_start_ledger.
  - apply wp_may_fail. wp_step. wp_apply reap_ledger as r w1 [HL1 _]; [done..|]. by apply warm_start_ledger.
  - unfold warm_fuel. apply may_fail_after. wp_steps.
    apply poll_dial_ledger; [| |done|done].
    + intros made' w1 Hs HL1 Hm. apply warm_loop_ledger; rewrite ?Hs; [unfold short; lia| |done].
      intros Ho. rewrite (add_u_checked _ _ _ _ Hm Ho). unfold short. lia.
    + intros [Ho Hw]%add_u_fails. split; [done|lia].
Qed.

Lemma poll_warm_ledger f out X nx w :
  warm_ok f → warm_small f → ledger cfg own (out + warm_slots f) X 0 nx w →
  wp (poll_warm (E:=E) cfg f) (warm_post out X nx) w.
Proof.
  intros Hok Hsm HL. eapply may_fail_wp; [|by apply poll_warm_runs].
  pose proof (warm_small_top f w Hsm). lia.
Qed.

Lemma drop_warm_ledger f out X nx w :
  warm_ok f → ledger cfg own (out + warm_slots f) X 0 nx w →
  wp (drop_warm f) (λ _ w', ledger cfg own out X 0 nx w') w.
Proof.
  intros Hok HL. destruct f as [| |made h]; simpl in *; rewrite ?N.add_0_r in HL;
    [by wp_steps..|]. by apply drop_held_ledger.
Qed.
End balance.
