(* ===== verification/System.v ===== *)
(** One thread of the pool at work: the store, the tasks running its futures and
    the connections they hold, stepped by the executor in any order.

    Tasks are polled, dropped half-way and woken in any interleaving, leases are
    dropped, detached and written through, and the housekeeping calls happen at
    any point; the shared flag can be found set at any reading of it. *)

From Stdlib Require Import Sorting.Sorted.
From stdpp Require Import gmap.
From S2P Require Import Prelude Manage Builder Metrics Store Waiters Inner Local Futures Balance.

(** A task is the future it runs; its key is the waker it is polled with. *)
Inductive task (C : Type) : Type :=
| TGet (f : get_fut C) | TTry (f : try_fut C) | TWarm (f : warm_fut C).
Arguments TGet {C} _.
Arguments TTry {C} _.
Arguments TWarm {C} _.

(** What a finished task came back with. *)
Inductive answer (C E : Type) : Type :=
| Leased (p : PooledConnection C) | NoneFree | Warmed (made : N) | Failed (e : RunError E).
Arguments Leased {C E} _.
Arguments NoneFree {C E}.
Arguments Warmed {C E} _.
Arguments Failed {C E} _.

(** The calls a task can be made of. *)
Inductive call := CallGet | CallTryGet | CallWarm | CallMaintain.

Definition start_task {C} (k : call) : task C :=
  match k with
  | CallGet => TGet GetNew
  | CallTryGet => TTry TryNew
  | CallWarm => TWarm WarmNew
  | CallMaintain => TWarm MaintainNew
  end.

(** A lease is kept under the key of the task that checked it out. *)
Record Sys (C E : Type) := mkSys {
  world : World C;
  tasks : gmap nat (task C);
  leases : gmap nat (PooledConnection C);
  answers : list (nat * answer C E)
}.
Arguments mkSys {C E} _ _ _ _.
Arguments world {C E} _.
Arguments tasks {C E} _.
Arguments leases {C E} _.
Arguments answers {C E} _.

Inductive action (C : Type) : Type :=
| Spawn (i : nat) (k : call)
| PollTask (i : nat)
| DropTask (i : nat)
| DropLease (i : nat)
| TakeLease (i : nat)
| WriteLease (i : nat) (c : C)
| DoReap
| DoClear
| DoClose.
Arguments Spawn {C} _ _.
Arguments PollTask {C} _.
Arguments DropTask {C} _.
Arguments DropLease {C} _.
Arguments TakeLease {C} _.
Arguments WriteLease {C} _ _.
Arguments DoReap {C}.
Arguments DoClear {C}.
Arguments DoClose {C}.

Section system.
Context {C E : Type} `{Features} `{Runtime} `{ManageConnection C E}.
Context (cfg : PoolConfig).

Definition answer_of_get (r : result (PooledConnection C) (RunError E)) : answer C E :=
  match r with Ok p => Leased p | Err e => Failed e end.
Definition answer_of_try (r : result (option (PooledConnection C)) (RunError E)) : answer C E :=
  match r with Ok (Some p) => Leased p | Ok None => NoneFree | Err e => Failed e end.
Definition answer_of_warm (r : result N (RunError E)) : answer C E :=
  match r with Ok n => Warmed n | Err e => Failed e end.

Definition map_progress {A B S T} (f : A → B) (g : S → T) (r : progress A S) : progress B T :=
  match r with Done a => Done (f a) | Yield s => Yield (g s) end.

(** One poll of task [i], by its own waker. *)
Definition poll_task (i : nat) (t : task C) : St (World C) (progress (answer C E) (task C)) :=
  match t with
  | TGet f => r ← poll_get cfg i f; mret (map_progress answer_of_get TGet r)
  | TTry f => r ← poll_try cfg f; mret (map_progress answer_of_try TTry r)
  | TWarm f => r ← poll_warm cfg f; mret (map_progress answer_of_warm TWarm r)
  end.

Definition drop_task (t : task C) : St (World C) unit :=
  match t with TGet f => drop_get f | TTry f => drop_try f | TWarm f => drop_warm f end.

(** Run pool code on the store, then note its result. *)
Definition run_on {A} (c : St (World C) A) (k : A → World C → Sys C E) (s : Sys C E) :
    outcome (Sys C E) :=
  match c s.(world) with
  | Val (a, w) => Val (k a w)
  | Panic => Panic
  | NoFuel => NoFuel
  end.

Definition settle (i : nat) (s : Sys C E) (r : progress (answer C E) (task C)) (w : World C) :
    Sys C E :=
  match r with
  | Yield t => mkSys w (<[i := t]> s.(tasks)) s.(leases) s.(answers)
  | Done (Leased p) =>
      mkSys w (delete i s.(tasks)) (<[i := p]> s.(leases)) (s.(answers) ++ [(i, Leased p)])
  | Done a => mkSys w (delete i s.(tasks)) s.(leases) (s.(answers) ++ [(i, a)])
  end.

Definition set_world (s : Sys C E) (w : World C) : Sys C E :=
  mkSys w s.(tasks) s.(leases) s.(answers).

(** One action; [None] when there is nothing for it to act on. *)
Definition exec (a : action C) (s : Sys C E) : option (outcome (Sys C E)) :=
  match a with
  | Spawn i k =>
      match s.(tasks) !! i, s.(leases) !! i with
      | None, None =>
          Some (Val (mkSys s.(world) (<[i := start_task k]> s.(tasks)) s.(leases) s.(answers)))
      | _, _ => None
      end
  | PollTask i =>
      t ← s.(tasks) !! i; Some (run_on (poll_task i t) (settle i s) s)
  | DropTask i =>
      t ← s.(tasks) !! i;
      Some (run_on (drop_task t)
        (λ _ w, mkSys w (delete i s.(tasks)) s.(leases) s.(answers)) s)
  | DropLease i =>
      p ← s.(leases) !! i;
      Some (run_on (pooled_drop cfg p)
        (λ _ w, mkSys w s.(tasks) (delete i s.(leases)) s.(answers)) s)
  | TakeLease i =>
      p ← s.(leases) !! i;
      Some (run_on (Local.take cfg p)
        (λ _ w, mkSys w s.(tasks) (delete i s.(leases)) s.(answers)) s)
  | WriteLease i c =>
      p ← s.(leases) !! i;
      Some (run_on (lift (deref_mut p c))
        (λ p' w, mkSys w s.(tasks) (<[i := p']> s.(leases)) s.(answers)) s)
  | DoReap => Some (run_on (reap cfg) (λ _ w, set_world s w) s)
  | DoClear => Some (run_on clear (λ _ w, set_world s w) s)
  | DoClose => Some (run_on close (λ _ w, set_world s w) s)
  end.

(** The [u64] of the waiting ids and the [u32] of one [warm] call's count have
    room for one more poll. *)
Definition room (a : action C) (s : Sys C E) : Prop :=
  match a with
  | PollTask i =>
      s.(world).(waiters).(next_id) + 1 < U64 ∧
      match s.(tasks) !! i with Some (TWarm f) => warm_small cfg f | _ => True end
  | _ => True
  end.

Definition sys_init (c : bool) (t : nat) : Sys C E := mkSys (world_new c t) ∅ ∅ [].

Inductive reachable : Sys C E → Prop :=
| reach_init c t : reachable (sys_init c t)
| reach_step s a s' :
    reachable s → room a s → exec a s = Some (Val s') → reachable s'.

(** [s] after [n] actions, whatever the counters have come to. *)
Inductive taken : nat → Sys C E → Prop :=
| taken_init c t : taken 0 (sys_init c t)
| taken_step n s a s' : taken n s → exec a s = Some (Val s') → taken (S n) s'.

(** *** What the tasks own *)

Definition task_slots (t : task C) : N :=
  match t with TGet f => get_slots f | TTry f => try_slots f | TWarm f => warm_slots f end.
Definition task_ids (t : task C) : gset N :=
  match t with TGet f => get_ids f | _ => ∅ end.
Definition task_ok (t : task C) : Prop :=
  match t with TGet f => get_ok f | TTry f => try_ok f | TWarm f => warm_ok f end.

Definition slots_of (m : gmap nat (task C)) : N :=
  map_fold (λ _ t n, task_slots t + n) 0 m.
Definition ids_of (m : gmap nat (task C)) : gset N :=
  map_fold (λ _ t X, task_ids t ∪ X) ∅ m.

(** Slots that are neither idle nor free: leases, and tasks that dial or validate. *)
Definition outstanding (s : Sys C E) : N :=
  N.of_nat (size s.(leases)) + slots_of s.(tasks).
End system.

Section ownership.
Context {C : Type}.
Implicit Types (m : gmap nat (task C)) (t : task C).

Lemma slots_of_delete m i t :
  m !! i = Some t → slots_of m = task_slots t + slots_of (delete i m).
Proof. intros Hi. unfold slots_of. rewrite (map_fold_delete_L _ _ i t) by (done || lia). done. Qed.

Lemma slots_of_insert m i t :
  m !! i = None → slots_of (<[i := t]> m) = task_slots t + slots_of m.
Proof. intros Hi. unfold slots_of. by rewrite map_fold_insert_L by (done || lia). Qed.

Lemma ids_of_insert m i t :
  m !! i = None → ids_of (<[i := t]> m) = task_ids t ∪ ids_of m.
Proof. intros Hi. unfold ids_of. by rewrite map_fold_insert_L by (done || set_solver). Qed.

Lemma ids_of_delete m i t :
  m !! i = Some t → ids_of m = task_ids t ∪ ids_of (delete i m).
Proof.
  intros Hi. unfold ids_of. by rewrite (map_fold_delete_L _ _ i t) by (done || set_solver).
Qed.

Lemma elem_of_ids_of m x :
  x ∈ ids_of m ↔ ∃ i t, m !! i = Some t ∧ x ∈ task_ids t.
Proof.
  induction m as [|i t m Hi IH] using map_ind.
  - unfold ids_of. rewrite map_fold_empty. set_solver.
  - rewrite ids_of_insert, elem_of_union, IH by done. split.
    + intros [Hx|(j & t' & Hj & Hx)]; [exists i, t; by simplify_map_eq|].
      exists j, t'. by rewrite lookup_insert_ne by congruence.
    + intros (j & t' & Hj & Hx). apply lookup_insert_Some in Hj. naive_solver.
Qed.

(** Tasks and leases are well formed, and own what they own alone. *)
Record owned m (L : gmap nat (PooledConnection C)) : Prop := {
  ow_tasks : ∀ i t, m !! i = Some t → task_ok t;
  ow_ids : ∀ i j t t', i ≠ j → m !! i = Some t → m !! j = Some t' → task_ids t ## task_ids t';
  ow_leases : ∀ i p, L !! i = Some p → lease_ok p;
  ow_fresh : ∀ i, is_Some (m !! i) → L !! i = None
}.

Lemma owned_delete_task m L i : owned m L → owned (delete i m) L.
Proof.
  intros []. split; [| |done|].
  - intros j t Hj%lookup_delete_Some. naive_solver.
  - intros j k t t' ? [_ ?]%lookup_delete_Some [_ ?]%lookup_delete_Some. eauto.
  - intros j [t [_ ?]%lookup_delete_Some]. eauto.
Qed.

Lemma owned_insert_task m L i t :
  owned m L → m !! i = None → L !! i = None → task_ok t → task_ids t ## ids_of m →
  owned (<[i := t]> m) L.
Proof.
  intros [] Hi HL Hok Hd.
  assert (Hdis : ∀ j t', m !! j = Some t' → task_ids t ## task_ids t').
  { intros j t' Hj x Hx Hx'. apply (Hd x Hx), elem_of_ids_of. eauto. }
  split; [| |done|].
  - intros j t' [[<- <-]|[_ ?]]%lookup_insert_Some; eauto.
  - intros j k t1 t2 ? [[<- <-]|[? Hj]]%lookup_insert_Some [[<- <-]|[? Hk]]%lookup_insert_Some;
      [done|by eauto| |by eauto]. symmetry. eauto.
  - intros j [t' [[<- <-]|[_ ?]]%lookup_insert_Some]; eauto.
Qed.

Lemma owned_insert_lease m L i p :
  owned m L → m !! i = None → lease_ok p → owned m (<[i := p]> L).
Proof.
  intros [] Hi Hp. split; [done..| |].
  - intros j p' [[<- <-]|[_ ?]]%lookup_insert_Some; eauto.
  - intros j Hj. rewrite lookup_insert_ne; [by auto|]. intros ->. destruct Hj. congruence.
Qed.

Lemma owned_delete_lease m L i : owned m L → owned m (delete i L).
Proof.
  intros []. split; [done..| |].
  - intros j p [_ ?]%lookup_delete_Some. eauto.
  - intros j Hj. rewrite lookup_delete_None. eauto.
Qed.

(** Whose waker an id stands for; with task [i] running, the rest of the tasks
    in [m], any id not theirs is its own. *)
Definition own_of m (id : N) (wk : Waker) : Prop := ∃ t, m !! wk = Some t ∧ id ∈ task_ids t.
Definition own_by m (i : nat) (id : N) (wk : Waker) : Prop :=
  (wk = i ∧ id ∉ ids_of m) ∨ own_of m id wk.

Lemma own_by_done m i id wk : id ∈ ids_of m → own_by m i id wk → own_of m id wk.
Proof. intros Hid [[-> ?]|]; done. Qed.

Lemma own_by_yield m i t id wk :
  m !! i = None → id ∈ task_ids t ∪ ids_of m → own_by m i id wk → own_of (<[i := t]> m) id wk.
Proof.
  intros Hi Hid [[-> Hno]|(t' & Hwk & Ht')].
  - exists t. rewrite lookup_insert_eq. set_solver.
  - exists t'. rewrite lookup_insert_ne by congruence. done.
Qed.

Lemma own_of_by m i t id wk :
  m !! i = Some t → task_ids t ## ids_of (delete i m) →
  own_of m id wk → own_by (delete i m) i id wk.
Proof.
  intros Hi Hd (t' & Hwk & Hid). destruct (decide (wk = i)) as [->|Hne].
  - left. simplify_eq. split; [done|]. set_solver.
  - right. exists t'. by rewrite lookup_delete_ne.
Qed.
End ownership.

Section invariant.
Context {C E : Type} {F : Features} {R : Runtime} {RL : RuntimeLaws R}
  {M : ManageConnection C E}.
Context (cfg : PoolConfig) (Hcfg : config_ok cfg).
Implicit Types (m : gmap nat (task C)) (t : task C) (s : Sys C E) (w : World C).

Section running.
Context (own : N → Waker → Prop).

(** A task queued for capacity. *)
Definition task_parks (t : task C) : Prop :=
match t with TGet f => get_parks f | _ => False end.

(** What one poll of a task leaves. *)
Definition task_post (out : N) (X : gset N) (nx : N) (r : progress (answer C E) (task C)) w :
  Prop :=
match r with
| Done (Leased p) => lease_ok p ∧ ledger cfg own (out + 1) X 0 nx w
| Done _ => ledger cfg own out X 0 nx w
| Yield t => task_ok t ∧ task_ids t ## X ∧
             (task_parks t → cfg.(max_size) ≤ out ∧ w.(closed) = false) ∧
             ledger cfg own (out + task_slots t) (task_ids t ∪ X) 0 nx w
end.

(** The one sum that can pass its width: of the connections a resumed [warm] has opened. *)
Definition poll_overflows (t : task C) w : Prop :=
overflow_checks = true ∧ match t with TWarm f => U32 ≤ warm_top cfg f w | _ => False end.

Lemma poll_task_runs i t out X nx w :
nx + 1 < U64 → owns own X i → task_ok t → task_ids t ## X →
ledger cfg own (out + task_slots t) (task_ids t ∪ X) 0 nx w →
may_fail (poll_overflows t w) (poll_task cfg i t) (task_post out X (nx + 1)) w.
Proof.
intros Hnx Hown Hok Hd HL. destruct t as [f|f|f]; simpl in *;
  try rewrite (left_id_L ∅ (∪)) in HL.
- apply wp_may_fail. wp_step.
  wp_apply poll_get_ledger as [[p|e]|f'] w1 Hp; [done..| | |]; by wp_steps.
- eapply (ledger_weaken cfg own _ _ 0 0 nx (nx + 1)) in HL; [|lia..]. apply wp_may_fail. wp_step.
  wp_apply poll_try_ledger as [[[p|]|e]|f'] w1 Hp; [done..| | | |]; wp_steps; try done.
  simpl. rewrite (left_id_L ∅ (∪)). split_and!; [apply Hp|set_solver|by intros []|apply Hp].
- eapply (ledger_weaken cfg own _ _ 0 0 nx (nx + 1)) in HL; [|lia..]. apply may_fail_bind.
  eapply may_fail_mono; [by apply poll_warm_runs|].
  intros [[n|e]|f'] w1 Hp; apply wp_may_fail; wp_steps; try done.
  simpl. rewrite (left_id_L ∅ (∪)). split_and!; [apply Hp|set_solver|by intros []|apply Hp].
Qed.

Lemma poll_task_ledger i t out X nx w :
nx + 1 < U64 → owns own X i → match t with TWarm f => warm_small cfg f | _ => True end →
task_ok t → task_ids t ## X →
ledger cfg own (out + task_slots t) (task_ids t ∪ X) 0 nx w →
wp (poll_task cfg i t) (task_post out X (nx + 1)) w.
Proof.
intros Hnx Hown Hsm Hok Hd HL. eapply may_fail_wp; [|by apply poll_task_runs].
intros [_ Ht]. destruct t as [f|f|f]; [done..|]. pose proof (warm_small_top cfg Hcfg f w Hsm). lia.
Qed.

Lemma drop_task_spec t out X nx w :
task_ok t → task_ids t ## X → ledger cfg own (out + task_slots t) (task_ids t ∪ X) 0 nx w →
wp (drop_task t) (λ _ w', ledger cfg own out X 0 nx w' ∧ w'.(idle) = w.(idle)) w.
Proof.
intros Hok Hd HL.
assert (Hheld : ∀ h, live_held h → ledger cfg own (out + 1) X 0 nx w →
  wp (drop_held h) (λ _ w', ledger cfg own out X 0 nx w' ∧ w'.(idle) = w.(idle)) w).
{ intros h Hh HL'. wp_apply drop_held_spec as [] w1 [HL1 []]; done. }
assert (Hnone : ledger cfg own (out + 0) (∅ ∪ X) 0 nx w →
  wp skip (λ _ w', ledger cfg own out X 0 nx w' ∧ w'.(idle) = w.(idle)) w).
{ rewrite N.add_0_r, (left_id_L ∅ (∪)). intros. by wp_steps. }
destruct t as [[|s]|[]|[]]; simpl in *; auto;
  try (rewrite (left_id_L ∅ (∪)) in HL; auto).
by eapply drop_get_inner_spec.
Qed.

End running.

(** The books of the whole system. *)
Record sys_inv (s : Sys C E) : Prop := {
  si_owned : owned s.(tasks) s.(leases);
  si_ledger : ∃ nx, nx < U64 ∧
    ledger cfg (own_of s.(tasks)) (outstanding s) (ids_of s.(tasks)) 0 nx s.(world)
}.

(** A ledger bounds the ids issued by the next one itself. *)
Lemma ledger_tight own out X d nx w :
  ledger cfg own out X d nx w → ledger cfg own out X d w.(waiters).(next_id) w.
Proof. by intros []. Qed.

(** So the whole system's books are drawn up to the next id. *)
Lemma sys_inv_tight s : sys_inv s →
  owned s.(tasks) s.(leases) ∧ s.(world).(waiters).(next_id) < U64 ∧
  ledger cfg (own_of s.(tasks)) (outstanding s) (ids_of s.(tasks)) 0 s.(world).(waiters).(next_id) s.(world).
Proof.
  intros [Ho (nx & Hnx & HL)]. pose proof (lg_next _ _ _ _ _ _ _ HL).
  split_and!; [done|lia|by eapply ledger_tight].
Qed.

(** With the ids issued so far below [nx]. *)
Definition sys_upto (nx : N) (s : Sys C E) : Prop := sys_inv s ∧ s.(world).(waiters).(next_id) ≤ nx.

Lemma sys_inv_intro own s out X nx :
  owned s.(tasks) s.(leases) → nx < U64 → ledger cfg own out X 0 nx s.(world) →
  outstanding s = out → ids_of s.(tasks) = X →
  (∀ id wk, id ∈ X → own id wk → own_of s.(tasks) id wk) → sys_upto nx s.
Proof.
  intros ?? HL <- <- Hown. split; [|apply (lg_next _ _ _ _ _ _ _ HL)].
  split; [done|]. exists nx. split; [done|]. by eapply ledger_own.
Qed.

(** A task's share taken out of the books. *)
Lemma sys_inv_task s i t :
  sys_inv s → s.(tasks) !! i = Some t →
  task_ok t ∧ s.(leases) !! i = None ∧ owned (delete i s.(tasks)) s.(leases) ∧
  task_ids t ## ids_of (delete i s.(tasks)) ∧
  ∀ nx, s.(world).(waiters).(next_id) ≤ nx →
  ledger cfg (own_by (delete i s.(tasks)) i)
    (N.of_nat (size s.(leases)) + slots_of (delete i s.(tasks)) + task_slots t)
    (task_ids t ∪ ids_of (delete i s.(tasks))) 0 nx s.(world).
Proof.
  intros [Ho (nx0 & _ & HL)] Hi.
  assert (Hd : task_ids t ## ids_of (delete i (tasks s))).
  { intros x Hx (j & t' & Hj & Hx')%elem_of_ids_of. apply lookup_delete_Some in Hj as [Hne Hj].
    by eapply (ow_ids _ _ Ho i j). }
  split_and!.
  - by eapply ow_tasks.
  - eapply ow_fresh; eauto.
  - by apply owned_delete_task.
  - done.
  - intros nx Hnx. rewrite <-ids_of_delete by done.
    replace (_ + _ + _) with (outstanding s)
      by (unfold outstanding; rewrite (slots_of_delete _ i t); [lia|done]).
    apply ledger_tight in HL. eapply (ledger_own cfg (own_of (tasks s))).
    { intros id wk _. by eapply own_of_by. }
    by eapply (ledger_weaken cfg); [..|exact HL].
Qed.

Lemma size_leases_delete s i p :
  s.(leases) !! i = Some p → N.of_nat (size s.(leases)) = N.of_nat (size (delete i s.(leases))) + 1.
Proof.
  intros Hi. rewrite map_size_delete_Some by eauto.
  assert (size (leases s) ≠ 0%nat); [|lia].
  intros Hz%map_size_empty_inv. rewrite Hz in Hi. by rewrite lookup_empty in Hi.
Qed.

(** A lease's share taken out of the books. *)
Lemma sys_inv_lease s i p :
  sys_inv s → s.(leases) !! i = Some p →
  (∃ conn, p = mkPooled (Some conn)) ∧ owned s.(tasks) (delete i s.(leases)) ∧
  ∃ nx, nx < U64 ∧ nx = s.(world).(waiters).(next_id) ∧ ledger cfg (own_of s.(tasks))
    (N.of_nat (size (delete i s.(leases))) + slots_of s.(tasks) + 1)
    (ids_of s.(tasks)) 0 nx s.(world).
Proof.
  intros (Ho & Hnx & HL)%sys_inv_tight Hi. split_and!.
  - by eapply ow_leases.
  - by apply owned_delete_lease.
  - eexists. split; [exact Hnx|]. split; [done|]. unfold outstanding in HL.
    rewrite (size_leases_delete s i p Hi) in HL.
    replace (_ + _ + 1) with (N.of_nat (size (delete i (leases s))) + 1 + slots_of (tasks s)) by lia.
    done.
Qed.

Lemma run_on_may_fail {A} why (c : St (World C) A) k s (Q : A → World C → Prop) (P : Sys C E → Prop) o :
  may_fail why c Q s.(world) → (∀ a w, Q a w → P (k a w)) →
  run_on c k s = o → (∃ s', o = Val s' ∧ P s') ∨ o = Panic ∧ why.
Proof.
  intros Hc HP <-. unfold run_on, may_fail in *.
  destruct (c (world s)) as [[a w]| |]; [left; eauto|by right|done].
Qed.

Lemma run_on_ok {A} why (c : St (World C) A) k s (Q : A → World C → Prop) (P : Sys C E → Prop) o :
  wp c Q s.(world) → (∀ a w, Q a w → P (k a w)) →
  run_on c k s = o → (∃ s', o = Val s' ∧ P s') ∨ o = Panic ∧ why.
Proof. intros Hc. apply run_on_may_fail. by apply wp_may_fail. Qed.

Lemma settle_inv s i t r w nx :
  sys_inv s → s.(tasks) !! i = Some t → nx < U64 →
  task_post (own_by (delete i s.(tasks)) i) (N.of_nat (size s.(leases)) + slots_of (delete i s.(tasks)))
    (ids_of (delete i s.(tasks))) nx r w →
  sys_upto nx (settle i s r w).
Proof.
  intros HI Hi Hnx Hpost. destruct (sys_inv_task _ _ _ HI Hi) as (_ & Hl & Ho & Hd & _).
  assert (Hdel : delete i (tasks s) !! i = None) by apply lookup_delete_eq.
  destruct r as [[p| |n|e]|t']; simpl in *.
  - destruct Hpost as [Hp HL].
    eapply sys_inv_intro; simpl; [|done|exact HL| |done|apply own_by_done].
    + by apply owned_insert_lease.
    + unfold outstanding. simpl. rewrite map_size_insert_None by done. lia.
  - eapply sys_inv_intro; [..|apply own_by_done]; done.
  - eapply sys_inv_intro; [..|apply own_by_done]; done.
  - eapply sys_inv_intro; [..|apply own_by_done]; done.
  - destruct Hpost as (Hok & Hd' & _ & HL).
    rewrite <-insert_delete_eq. eapply sys_inv_intro; simpl; [|done|exact HL|..].
    + by apply owned_insert_task.
    + unfold outstanding. simpl. rewrite slots_of_insert by done. lia.
    + by rewrite ids_of_insert.
    + intros id wk. by apply own_by_yield.
Qed.

Lemma sys_inv_init c (tk : nat) : sys_upto 1 (sys_init c tk).
Proof.
  split; [|done]. split; [split; intros *; rewrite ?lookup_empty; try done; by intros []|].
  exists 1. split; [done|]. by apply ledger_init.
Qed.

(** A housekeeping call, which no task or lease is party to. *)
Lemma housekeeping_inv why (c : St (World C) N) Q s o :
  sys_inv s →
  (∀ own out X nx, ledger cfg own out X 0 nx s.(world) →
     wp c (λ r w, ledger cfg own out X 0 nx w ∧ Q r w) s.(world)) →
  run_on c (λ _ w, set_world s w) s = o →
  (∃ s', o = Val s' ∧ sys_upto s.(world).(waiters).(next_id) s') ∨ o = Panic ∧ why.
Proof.
  intros (Ho & Hnx & HL)%sys_inv_tight Hc. eapply run_on_ok; [by apply Hc|].
  intros r w [HL' _]. by eapply sys_inv_intro.
Qed.

Lemma spawn_inv s i k :
  sys_inv s → s.(tasks) !! i = None → s.(leases) !! i = None →
  sys_upto s.(world).(waiters).(next_id)
    (mkSys s.(world) (<[i := start_task k]> s.(tasks)) s.(leases) s.(answers)).
Proof.
  intros (Ho & Hnx & HL)%sys_inv_tight Hi Hl.
  eapply sys_inv_intro; simpl; [|exact Hnx|exact HL|..].
  - apply owned_insert_task; [done..| |]; destruct k; set_solver.
  - unfold outstanding. simpl. rewrite slots_of_insert by done. by destruct k.
  - rewrite ids_of_insert by done. destruct k; set_solver.
  - intros id wk _ (t & Hwk & Hid). exists t. by rewrite lookup_insert_ne by congruence.
Qed.

(** The poll an action makes, and whether its sum can pass its width. *)
Definition overflows (a : action C) (s : Sys C E) : Prop :=
  match a with
  | PollTask i => match s.(tasks) !! i with Some t => poll_overflows t s.(world) | None => False end
  | _ => False
  end.

(** Every enabled action keeps the invariant and issues at most one id; it succeeds, unless it
    panics on that sum. *)
Lemma exec_runs s a o :
  sys_inv s → s.(world).(waiters).(next_id) + 1 < U64 ∨ (∀ i, a ≠ PollTask i) → exec cfg a s = Some o →
  (∃ s', o = Val s' ∧ sys_upto (s.(world).(waiters).(next_id) + 1) s') ∨ o = Panic ∧ overflows a s.
Proof.
  intros HI Hroom Hex.
  assert (Hup : (∃ s', o = Val s' ∧ sys_upto (s.(world).(waiters).(next_id)) s') ∨ o = Panic ∧ overflows a s →
    (∃ s', o = Val s' ∧ sys_upto (s.(world).(waiters).(next_id) + 1) s') ∨ o = Panic ∧ overflows a s).
  { intros [(s' & -> & Hs' & Hle)|]; [left|by right]. exists s'. split; [done|]. split; [done|lia]. }
  destruct a as [i k|i|i|i|i|i c| | |]; simpl in Hex; try apply bind_Some in Hex as (? & Heqo0 & Hex);
    try injection Hex as Hex.
  - apply Hup. destruct (tasks s !! i) eqn:Hi, (leases s !! i) eqn:Hl; simplify_eq.
    left. eexists. split; [done|]. by apply spawn_inv.
  - clear Hup. destruct Hroom as [Hnx|Hno]; [|by destruct (Hno i)].
    destruct (sys_inv_task _ _ _ HI Heqo0) as (Hok & Hl & Ho & Hd & HL).
    unfold overflows. rewrite Heqo0.
    eapply run_on_may_fail; [apply (poll_task_runs (own_by (delete i (tasks s)) i)); eauto| |exact Hex].
    { intros id Hid. by left. }
    intros r w Hpost. by eapply settle_inv.
  - apply Hup. destruct (sys_inv_task _ _ _ HI Heqo0) as (Hok & Hl & Ho & Hd & HL).
    apply sys_inv_tight in HI as (_ & Hnx & HL0).
    eapply run_on_ok; [eapply drop_task_spec; [done..|by apply HL]| |done].
    intros [] w [HL' _]. eapply sys_inv_intro; [..|apply own_by_done]; done.
  - apply Hup. destruct (sys_inv_lease _ _ _ HI Heqo0) as ([conn ->] & Ho & nx & Hnx & <- & HL).
    eapply run_on_ok; [by apply pooled_drop_ledger; eauto| |done].
    intros [] w HL'. by eapply sys_inv_intro.
  - apply Hup. destruct (sys_inv_lease _ _ _ HI Heqo0) as ([conn ->] & Ho & nx & Hnx & <- & HL).
    eapply run_on_ok; [by apply take_ledger; eauto| |done].
    intros r w [_ HL']. by eapply sys_inv_intro.
  - apply Hup. apply sys_inv_tight in HI as (Ho & Hnx & HL). pose proof (ow_leases _ _ Ho _ _ Heqo0) as [conn ->].
    subst o. unfold run_on. simpl. left. eexists. split; [done|].
    eapply sys_inv_intro; simpl; [|exact Hnx|exact HL| |done|done].
    + apply owned_insert_lease; [done| |by eexists].
      apply eq_None_not_Some. intros Hj%(ow_fresh _ _ Ho). congruence.
    + unfold outstanding. simpl. by rewrite map_size_insert_Some by eauto.
  - apply Hup. eapply housekeeping_inv; [exact HI| |exact Hex]. intros own out X nx HL. by apply reap_ledger.
  - apply Hup. eapply housekeeping_inv; [exact HI| |exact Hex]. intros own out X nx HL. by apply clear_ledger.
  - apply Hup. apply sys_inv_tight in HI as (Ho & Hnx & HL). subst o. unfold run_on. simpl. left. eexists.
    split; [done|].
    eapply sys_inv_intro; simpl; [done|exact Hnx| |done|done|done].
    eapply ledger_same; [|exact HL]. destruct (world s). by split.
Qed.

(** With room for it, every enabled action succeeds. *)
Lemma exec_inv s a o :
  sys_inv s → room cfg a s → exec cfg a s = Some o → ∃ s', o = Val s' ∧ sys_inv s'.
Proof.
  intros HI Hroom Hex. destruct (exec_runs s a o HI) as [(s' & -> & Hs' & _)|[_ Hover]]; [|done|by eauto|].
  - destruct a; try (by right). left. by destruct Hroom.
  - exfalso. destruct a as [|i| | | | | | |]; try done. simpl in Hover, Hroom. destruct Hroom as [_ Hsm].
    destruct (tasks s !! i) as [t|]; [|done]. destruct Hover as [_ Hover]. destruct t as [f|f|f]; [done..|].
    pose proof (warm_small_top cfg Hcfg f (world s) Hsm). lia.
Qed.

Lemma reachable_inv s : reachable cfg s → sys_inv s.
Proof.
  induction 1 as [c tk|s a s' _ IH Hroom Hex]; [apply sys_inv_init|].
  destruct (exec_inv _ _ _ IH Hroom Hex) as (s'' & [= <-] & HI). done.
Qed.

(** [n] actions issue at most [n] ids. *)
Lemma taken_upto n s : N.of_nat n + 1 < U64 → taken cfg n s → sys_upto (N.of_nat n + 1) s.
Proof.
  intros Hn. induction 1 as [c tk|n s a s' _ IH Hex]; [apply sys_inv_init|].
  destruct IH as [HI Hle]; [lia|].
  destruct (exec_runs s a (Val s') HI) as [(s'' & [= <-] & HI' & Hle')|[? _]]; [left; lia|done| |done].
  split; [done|lia].
Qed.
End invariant.
