(* ===== verification/Scenario.v ===== *)
(** Running the system: an executable scheduler for lists of actions, and one
    concrete manager, runtime and configuration to run it with. *)

From stdpp Require Import gmap.
From S2P Require Import Prelude Manage Builder Metrics Store Waiters Inner Local Futures Balance System.

Section run.
Context {C E : Type} {F : Features} {R : Runtime} {M : ManageConnection C E}.
Context (cfg : PoolConfig).

#[export] Instance warm_small_dec (f : warm_fut C) : Decision (warm_small cfg f).
Proof. destruct f; simpl; apply _. Defined.
#[export] Instance room_dec (a : action C) (s : Sys C E) : Decision (room cfg a s).
Proof. destruct a; simpl; repeat case_match; apply _. Defined.

(** Run a schedule; [None] when an action is not enabled, has no room, or fails. *)
Fixpoint run (acts : list (action C)) (s : Sys C E) : option (Sys C E) :=
  match acts with
  | [] => Some s
  | a :: acts =>
      if decide (room cfg a s) then
        match exec cfg a s with Some (Val s') => run acts s' | _ => None end
      else None
  end.

Lemma run_reachable acts s s' : reachable cfg s → run acts s = Some s' → reachable cfg s'.
Proof.
  revert s. induction acts as [|a acts IH]; intros s Hs Hr; simpl in Hr; [by simplify_eq|].
  case_decide; [|done]. destruct (exec cfg a s) as [[s1| |]|] eqn:He; try done.
  apply (IH s1); [|done]. by eapply reach_step.
Qed.

Lemma run_taken n acts s s' : taken cfg n s → run acts s = Some s' → taken cfg (n + length acts) s'.
Proof.
  revert n s. induction acts as [|a acts IH]; intros n s Hs Hr; simpl in *.
  { simplify_eq. by rewrite Nat.add_0_r. }
  case_decide; [|done]. destruct (exec cfg a s) as [[s1| |]|] eqn:He; try done.
  rewrite Nat.add_succ_r. apply (IH (S n) s1); [|done]. by eapply taken_step.
Qed.

(** The store a computation leaves, from one that succeeds. *)
Definition final {S A} (s : S) (c : St S A) : S :=
  match c s with Val (_, s') => s' | _ => s end.
End run.

(** ** A concrete pool

    Connections are numbered by the occasion they were opened at; a connection is
    broken when its number is 999, valid unless it is 998.  The clock advances one
    millisecond per occasion.  [closes] is the occasion at which another thread
    closes the pool, if one does. *)
#[local] Instance demo_features : Features := {| feature_metrics := true; overflow_checks := true |}.

Definition demo_runtime (closes : option nat) : Runtime := {|
  instant_now t := from_millis (N.of_nat t);
  close_seen t := match closes with Some c => (c <=? t)%nat | None => false end;
  sleep_done first _ := negb first;
  timer _ _ := Not_elapsed
|}.

Definition demo_manager : ManageConnection N string := {|
  connect t := Ready (Ok (N.of_nat t));
  is_valid _ c := (if c =? 998 then Ready (Err "gone"%string) else Ready (Ok tt), c);
  has_broken _ c := (c =? 999, c)
|}.

Definition demo_config : PoolConfig :=
  mkConfig 2 1 (from_secs 30) (Some (from_secs 600)) (Some (from_secs 1800)) false true.

#[local] Instance plain_runtime : Runtime := demo_runtime None.
#[local] Existing Instance demo_manager.

Lemma demo_runtime_laws closes : RuntimeLaws (demo_runtime closes).
Proof. split; [|done]. intros s t Hle. simpl. unfold from_millis. lia. Qed.

(** Two checkouts fill the pool and a third is parked; then a lease comes back. *)
Definition demo_start : Sys N string := sys_init false 0.
Definition demo_full : Sys N string :=
  default demo_start (run demo_config
    [Spawn 0 CallGet; PollTask 0; Spawn 1 CallGet; PollTask 1; Spawn 2 CallGet; PollTask 2]
    demo_start).
Definition demo_returned : Sys N string :=
  default demo_start (run demo_config [DropLease 0] demo_full).

Lemma demo_full_reachable : reachable demo_config demo_full.
Proof.
  apply (run_reachable demo_config
    [Spawn 0 CallGet; PollTask 0; Spawn 1 CallGet; PollTask 1; Spawn 2 CallGet; PollTask 2]
    demo_start).
  - apply reach_init.
  - vm_compute. reflexivity.
Qed.
