(* ===== verification/Closing.v ===== *)
(** The shutdown flag as one thread sees it: it never reads set and then unset, and
    no call is refused with [Closed] unless it has been read as set
    ([src/src/pool.rs]).

    What a command of the pool does to the flag is a class of its own, so that the
    proof for a whole future is found from the proofs for its parts. *)

From stdpp Require Import gmap.
From S2P Require Import Prelude Manage Builder Metrics Store Waiters Inner Local Futures Balance System Scenario.

(** [c] keeps the flag once it is set, and has found it set whenever its answer
    satisfies [P]. *)
Class Tells {C A} (P : A → bool) (c : St (World C) A) : Prop :=
  tells w a w' : c w = Val (a, w') → w.(closed) || P a = true → w'.(closed) = true.

(** [c] keeps the flag once it is set. *)
Abbreviation Sticky c := (Tells (λ _, false) c).

Section rules.
Context {C : Type} {F : Features} {R : Runtime}.

#[global] Instance tells_ret {A} (a : A) (P : A → bool) :
  TCEq (P a) false → Tells (C := C) P (mret a).
Proof. intros HP%TCEq_eq w b w' [= <- <-]. by rewrite HP, orb_false_r. Qed.

Lemma tells_bind_told {A B} (P : A → bool) (Q : B → bool) (c : St (World C) A) k :
  Tells P c → (∀ x, P x = false → Tells Q (k x)) → (∀ x, P x = true → Sticky (k x)) →
  Tells Q (c ≫= k).
Proof.
  intros Hc Hk Hk' w b w' Hb. unfold mbind, St_bind in Hb.
  destruct (c w) as [[x w1]| |] eqn:Hx; [|done..]. specialize (Hc w x w1 Hx).
  destruct (P x) eqn:HP.
  - rewrite orb_true_r in Hc. intros _. apply (Hk' x HP w1 b w' Hb). by rewrite Hc.
  - rewrite orb_false_r in Hc. intros [Hw|Hq]%orb_true_iff; apply (Hk x HP w1 b w' Hb).
    + by rewrite Hc.
    + by rewrite Hq, orb_true_r.
Qed.

#[global] Instance tells_bind {A B} (Q : B → bool) (c : St (World C) A) k :
  Sticky c → (∀ x, Tells Q (k x)) → Tells Q (c ≫= k) | 10.
Proof. intros Hc Hk. by apply (tells_bind_told (λ _, false)). Qed.

#[global] Instance tells_gets {A} (f : World C → A) : Sticky (gets f).
Proof. intros w a w' [= <- <-]. by rewrite orb_false_r. Qed.

Lemma tells_modify (f : World C → World C) :
  (∀ w, w.(closed) = true → (f w).(closed) = true) → Sticky (modify f).
Proof. intros Hf w a w' [= <- <-]. rewrite orb_false_r. apply Hf. Qed.

#[global] Instance tells_lift {A} (o : outcome A) : Sticky (lift (S := World C) o).
Proof. intros w a w'. unfold lift. destruct o; [|done..]. intros [= <- <-]. by rewrite orb_false_r. Qed.

#[global] Instance tells_no_fuel {A} (P : A → bool) : Tells (C := C) P no_fuel.
Proof. by intros w a w'. Qed.
#[global] Instance tells_panic {A} (P : A → bool) : Tells (C := C) P panic.
Proof. by intros w a w'. Qed.

#[global] Instance tells_when b (c : St (World C) unit) : Sticky c → Sticky (when b c).
Proof. destruct b; [done|]. intros _. apply tells_ret, TCEq_refl. Qed.

(** Reading the flag: what it answers, the store remembers. *)
#[global] Instance load_closed_tells : Tells (C := C) id load_closed.
Proof.
  intros w a w'. unfold load_closed, ask, gets, modify, mbind, St_bind, mret, St_ret. simpl.
  intros [= <- <-]. destruct w. simpl. by destruct closed, (close_seen _).
Qed.

#[global] Instance load_closed_sticky : Sticky (load_closed (C := C)).
Proof. intros w a w' Hw Hc. apply (load_closed_tells w a w' Hw). rewrite orb_false_r in Hc. by rewrite Hc. Qed.

(** A command that gives up when the flag is set. *)
#[global] Instance tells_unless_closed {B} (Q : B → bool) (x y : St (World C) B) :
  Sticky x → Tells Q y → Tells Q (c ← load_closed; if c : bool then x else y) | 1.
Proof.
  intros Hx Hy. apply (tells_bind_told id); [apply _|..].
  - by intros [].
  - by intros [].
Qed.
End rules.

#[export] Hint Extern 3 (Tells _ (match ?x with _ => _ end)) => destruct x : typeclass_instances.
#[export] Hint Extern 3 (Tells _ (modify _)) =>
  apply tells_modify; intros []; cbn; (exact (λ h, h) || reflexivity) : typeclass_instances.
#[export] Hint Extern 2 (TCEq _ false) =>
  reflexivity || (apply TCEq_eq; assumption) : typeclass_instances.

(** The command a computation is an application of. *)
Ltac command_of c := lazymatch c with ?f _ => command_of f | _ => c end.

Section commands.
Context {C E : Type} {F : Features} {R : Runtime} {M : ManageConnection C E}.
Context (cfg : PoolConfig).

#[local] Hint Extern 4 (Tells _ ?c) =>
  let h := command_of c in progress (unfold h) : typeclass_instances.

#[global] Instance wake_sticky n : Sticky (wake (C := C) n).
Proof. unfold wake. induction (N.to_nat n) as [|m IH]; simpl; apply _. Qed.

#[global] Instance fresh_loop_sticky fuel t : Sticky (fresh_loop (C := C) cfg fuel t).
Proof. induction fuel; simpl; apply _. Qed.

#[global] Instance reap_split_sticky t l : Sticky (reap_split (C := C) cfg t l).
Proof. induction l; simpl; apply _. Qed.

(** Every synchronous command of the pool keeps the flag. *)
#[global] Instance reap_sticky : Sticky (reap (C := C) cfg).
Proof. apply _. Qed.
#[global] Instance clear_sticky : Sticky (clear (C := C)).
Proof. apply _. Qed.
#[global] Instance close_sticky : Sticky (close (C := C)).
Proof. apply _. Qed.
#[global] Instance pooled_drop_sticky p : Sticky (pooled_drop cfg p).
Proof. apply _. Qed.
#[global] Instance take_sticky p : Sticky (Local.take cfg p).
Proof. apply _. Qed.
#[global] Instance pop_fresh_idle_sticky : Sticky (pop_fresh_idle (C := C) cfg).
Proof. apply _. Qed.
#[global] Instance drop_get_inner_sticky s : Sticky (drop_get_inner (C := C) s).
Proof. apply _. Qed.

(** A future's answer that says the pool is closed. *)
Definition refused {A S} (r : progress (result A (RunError E)) S) : bool :=
  match r with Done (Err Closed) => true | _ => false end.

#[global] Instance get_loop_tells fuel wk start waited :
  Tells refused (get_loop (C := C) cfg fuel wk start waited).
Proof. revert waited. induction fuel; intros waited; simpl; apply _. Qed.
#[global] Instance try_loop_tells fuel : Tells refused (try_loop (C := C) cfg fuel).
Proof. induction fuel; simpl; apply _. Qed.
#[global] Instance warm_loop_tells fuel made : Tells refused (warm_loop (C := C) cfg fuel made).
Proof. revert made. induction fuel; intros made; simpl; apply _. Qed.

(** The futures: an answer that says closed is given only on a flag read as set. *)
#[global] Instance poll_get_inner_tells wk s : Tells refused (poll_get_inner (C := C) cfg wk s).
Proof. apply _. Qed.

#[global] Instance poll_timed_tells wk s : Tells refused (poll_timed (C := C) cfg wk s).
Proof.
  unfold poll_timed. apply tells_bind; [apply _|]. intros v.
  assert (Ht : Tells refused (r ← poll_get_inner cfg wk s;
    match r, v with
    | Done a, _ => mret (Done a)
    | Yield s', Fires_after => drop_get_inner s';; get_timed_out_now
    | Yield s', _ => mret (Yield (GetTimed s'))
    end)).
  { apply (tells_bind_told refused); [apply _|..]; intros [[]|] Hr; destruct v; try done; apply _. }
  by destruct v; [exact Ht|apply _|exact Ht].
Qed.

#[global] Instance poll_get_tells wk f : Tells refused (poll_get (C := C) cfg wk f).
Proof. apply _. Qed.
#[global] Instance poll_try_tells f : Tells refused (poll_try (C := C) cfg f).
Proof. apply _. Qed.
#[global] Instance poll_warm_tells f : Tells refused (poll_warm (C := C) cfg f).
Proof. apply _. Qed.

(** A task's poll, and its being dropped. *)
Definition task_refused (r : progress (answer C E) (task C)) : bool :=
  match r with Done (Failed Closed) => true | _ => false end.

#[global] Instance poll_task_tells i t : Tells task_refused (poll_task cfg i t).
Proof.
  destruct t; simpl; (apply (tells_bind_told refused); [apply _|..]);
    intros [[[]|[]]|] Hr; try done; apply _.
Qed.

#[global] Instance drop_task_sticky t : Sticky (drop_task (C := C) t).
Proof. destruct t; apply _. Qed.
End commands.

(** ** One thread *)

Section thread.
Context {C E : Type} {F : Features} {R : Runtime} {M : ManageConnection C E}.
Context (cfg : PoolConfig).
Implicit Types s : Sys C E.

(** The thread has told somebody that the pool is closed. *)
Definition has_refused s : Prop := ∃ i, (i, Failed Closed) ∈ s.(answers).

Lemma run_on_tells {A} (P : A → bool) (c : St (World C) A) `{!Tells P c} k s s' :
  run_on c k s = Val s' →
  ∃ a w, c s.(world) = Val (a, w) ∧ s' = k a w ∧
    (s.(world).(closed) || P a = true → w.(closed) = true).
Proof.
  unfold run_on. destruct (c (world s)) as [[a w]| |] eqn:Hc; [|done..]. intros [= <-].
  exists a, w. split_and!; [done..|]. by apply (tells (world s)).
Qed.

(** What an action leaves: the flag kept, and every refusal backed by it. *)
Lemma exec_honest s a s' :
  (has_refused s → s.(world).(closed) = true) → exec cfg a s = Some (Val s') →
  (s.(world).(closed) = true → s'.(world).(closed) = true) ∧
  (has_refused s' → s'.(world).(closed) = true).
Proof.
  intros HR Hex.
  assert (Hkeep : ∀ w t l, (s.(world).(closed) = true → w.(closed) = true) →
    (s.(world).(closed) = true → (mkSys w t l s.(answers)).(world).(closed) = true) ∧
    (has_refused (mkSys w t l s.(answers)) → (mkSys w t l s.(answers)).(world).(closed) = true)).
  { intros w t l Hw. split; [done|]. intros Hr. apply Hw, HR, Hr. }
  destruct a as [i k|i|i|i|i|i c| | |]; cbn [exec] in Hex;
    try apply bind_Some in Hex as (x & Hx & Hex); try apply (inj Some) in Hex.
  { destruct (tasks s !! i), (leases s !! i); simplify_eq. by apply Hkeep. }
  { apply (run_on_tells task_refused) in Hex as (r & w & _ & -> & Hw); [|apply _].
    assert (Hs : s.(world).(closed) = true → w.(closed) = true) by (intros H1; apply Hw; by rewrite H1).
    destruct r as [a|t]; [|by apply Hkeep]. split; [by destruct a|]. intros [j Hj].
    assert (Hans : (j, Failed Closed) ∈ s.(answers) ∨ a = Failed Closed).
    { destruct a; simpl in Hj; apply elem_of_app in Hj as [|[= -> <-]%list_elem_of_singleton]; auto. }
    assert (Hcl : w.(closed) = true).
    { destruct Hans as [Hans| ->]; [apply Hs, HR; by exists j|]. apply Hw. by rewrite orb_true_r. }
    by destruct a. }
  all: apply (run_on_tells (λ _, false)) in Hex as (r & w & _ & -> & Hw); [|apply _].
  all: rewrite orb_false_r in Hw; by apply Hkeep.
Qed.

Lemma reachable_honest s : reachable cfg s → has_refused s → s.(world).(closed) = true.
Proof.
  induction 1 as [c t|s a s' _ IH _ Hex]; [by intros [i Hi%not_elem_of_nil]|].
  by eapply exec_honest.
Qed.

Lemma exec_stays_closed s a s' :
  reachable cfg s → exec cfg a s = Some (Val s') →
  s.(world).(closed) = true → s'.(world).(closed) = true.
Proof. intros Hs Hex. by eapply exec_honest; [apply reachable_honest|]. Qed.
End thread.
