(* ===== verification/Custody.v ===== *)
(** Who has a connection: every connection a thread's pool has opened is in one place at
    a time, idle, in the hands of one suspended call, or leased to one holder
    ([src/src/pool.rs]).

    Connections are told apart by a name the manager's calls leave alone; dialling on a new
    occasion brings a new name.  What a command does with connections is the class [Hands]:
    those it is given, and those it hands on, whatever the others have in the meantime. *)

From stdpp Require Import gmap.
From S2P Require Import Prelude Manage Builder Metrics Store Waiters Inner Local Futures Balance System Scenario.

(** The connection's name is the occasion it was dialled at. *)
Class Named {C E} (M : ManageConnection C E) (name : C → nat) : Prop := {
  named_connect t c : connect t = Ready (Ok c) → name c = t;
  named_valid t c : name (is_valid t c).2 = name c;
  named_broken t c : name (has_broken t c).2 = name c
}.

Section custody.
Context {C : Type} (name : C → nat).

Definition conn_names (l : list (Conn C)) : list nat := name ∘ raw <$> l.
Definition opt_names (o : option (Conn C)) : list nat := match o with Some c => [name c.(raw)] | None => [] end.
Definition held_names (h : Held C) : list nat := opt_names h.(held_conn).
Definition lease_names (p : PooledConnection C) : list nat := opt_names p.(pooled_conn).
Definition guard_names (o : option (Held C)) : list nat := match o with Some h => held_names h | None => [] end.

(** [X] are the connections out of the idle list; all names are of occasions past. *)
Definition custody (X : list nat) (w : World C) : Prop :=
  NoDup (conn_names w.(idle) ++ X) ∧ Forall (λ x, x < w.(tick))%nat (conn_names w.(idle) ++ X).

Lemma names_sub (t : nat) l l' :
  l ⊆+ l' → NoDup l' ∧ Forall (λ x, x < t)%nat l' → NoDup l ∧ Forall (λ x, x < t)%nat l.
Proof.
  intros Hsub [Hnd Hlt]. destruct (submseteq_Permutation _ _ Hsub) as [Z HZ]. split.
  - rewrite HZ in Hnd. by apply NoDup_app in Hnd as [? _].
  - rewrite !Forall_forall in *. intros x Hx. apply Hlt. by eapply elem_of_submseteq.
Qed.

Lemma custody_less X Y w : Y ⊆+ X → custody X w → custody Y w.
Proof. intros HXY. apply names_sub. by apply submseteq_app. Qed.

Lemma custody_shrink l X w : l ⊆+ w.(idle) → custody X w → custody X (set_idle l w).
Proof.
  intros Hl Hc. destruct w. eapply names_sub; [|exact Hc]. simpl in *.
  apply submseteq_app; [|done]. by apply fmap_submseteq.
Qed.

Lemma custody_later X w w' : w'.(idle) = w.(idle) → (w.(tick) ≤ w'.(tick))%nat → custody X w → custody X w'.
Proof.
  intros Hi Ht [Hnd Hlt]. unfold custody. rewrite Hi. split; [done|].
  eapply Forall_impl; [exact Hlt|]. simpl. intros. lia.
Qed.

(** A connection between the idle list and a hand. *)
Lemma custody_idle l c X w :
  custody X (set_idle (l ++ [c]) w) ↔ custody (name c.(raw) :: X) (set_idle l w).
Proof.
  unfold custody, conn_names. destruct w; simpl. rewrite fmap_app, <-app_assoc. done.
Qed.

(** [c] is given [In] and hands on [Out], beside whatever [X] the others have. *)
Class Hands {A} (In : list nat) (c : St (World C) A) (Out : A → list nat) : Prop :=
  hands X w a w' : c w = Val (a, w') → custody (In ++ X) w → custody (Out a ++ X) w'.

(** A command that has nothing to do with connections. *)
Class Still {A} (c : St (World C) A) : Prop :=
  still w a w' : c w = Val (a, w') → w'.(idle) = w.(idle) ∧ (w.(tick) ≤ w'.(tick))%nat.

Lemma still_custody {A} (c : St (World C) A) X w a w' :
  c w = Val (a, w') → Still c → custody X w → custody X w'.
Proof. intros Hr Hc. destruct (Hc _ _ _ Hr). by apply custody_later. Qed.

Lemma hands_still {A} (c : St (World C) A) In Out :
  Still c → (∀ a, Out a ⊆+ In) → Hands In c Out.
Proof.
  intros Hc Ho X w a w' Hr Hcu. destruct (Hc w a w' Hr) as [Hi Ht].
  eapply custody_later; [done..|]. eapply custody_less; [|exact Hcu]. by apply submseteq_app.
Qed.

Lemma hands_less {A} (c : St (World C) A) In Out Out' :
  Hands In c Out → (∀ a, Out' a ⊆+ Out a) → Hands In c Out'.
Proof.
  intros Hc Ho X w a w' Hr Hcu. eapply custody_less; [|by eapply Hc]. by apply submseteq_app.
Qed.

(** Less given, as much handed on. *)
Lemma hands_more {A} (c : St (World C) A) In In' Out :
  Hands In c Out → In ⊆+ In' → Hands In' c Out.
Proof.
  intros Hc Hin X w a w' Hr Hcu. eapply Hc; [done|].
  eapply custody_less; [|exact Hcu]. by apply submseteq_app.
Qed.

Lemma hands_bind {A B} (c : St (World C) A) (f : A → St (World C) B) In Q Out :
  Hands In c Q → (∀ a, Hands (Q a) (f a) Out) → Hands In (c ≫= f) Out.
Proof.
  intros Hc Hf X w b w' Hr Hcu. unfold mbind, St_bind in Hr.
  destruct (c w) as [[a w1]| |] eqn:Ha; [|done..]. eapply Hf; [done|]. by eapply Hc.
Qed.

Lemma hands_after {A B} (c : St (World C) A) (f : A → St (World C) B) In Out :
  Still c → (∀ a, Hands In (f a) Out) → Hands In (c ≫= f) Out.
Proof. intros Hc Hf. by apply (hands_bind c f In (λ _, In)); [apply hands_still|]. Qed.

Lemma hands_ret {A} (a : A) In Out : Out a ⊆+ In → Hands In (mret a) Out.
Proof. intros Ho X w b w' [= <- <-] Hcu. eapply custody_less; [|exact Hcu]. by apply submseteq_app. Qed.

(** *** The commands that do not touch a connection *)

#[global] Instance still_ret {A} (a : A) : Still (mret a).
Proof. by intros w b w' [= <- <-]. Qed.
#[global] Instance still_bind {A B} (c : St (World C) A) (f : A → St (World C) B) :
  Still c → (∀ a, Still (f a)) → Still (c ≫= f).
Proof.
  intros Hc Hf w b w' Hr. unfold mbind, St_bind in Hr.
  destruct (c w) as [[a w1]| |] eqn:Ha; [|done..].
  destruct (Hc _ _ _ Ha) as [Hi Ht], (Hf a _ _ _ Hr) as [Hi' Ht']. split; [congruence|lia].
Qed.
#[global] Instance still_gets {A} (f : World C → A) : Still (gets f).
Proof. by intros w b w' [= <- <-]. Qed.
#[global] Instance still_lift {A} (o : outcome A) : Still (lift o).
Proof. intros w b w'. unfold lift. by destruct o; [intros [= <- <-]|..]. Qed.
#[global] Instance still_no_fuel {A} : Still (A := A) no_fuel.
Proof. by intros w b w'. Qed.
#[global] Instance still_panic {A} : Still (A := A) panic.
Proof. by intros w b w'. Qed.
#[global] Instance still_when b (c : St (World C) unit) : Still c → Still (when b c).
Proof. destruct b; [done|]. intros _. apply still_ret. Qed.
Lemma still_modify (f : World C → World C) :
  (∀ w, (f w).(idle) = w.(idle) ∧ (w.(tick) ≤ (f w).(tick))%nat) → Still (modify f).
Proof. intros Hf w b w' [= <- <-]. apply Hf. Qed.
End custody.

#[export] Hint Extern 3 (Still (match ?x with _ => _ end)) => destruct x : typeclass_instances.
#[export] Hint Extern 3 (Still (modify _)) =>
  apply still_modify; intros []; cbn; split; [reflexivity|lia] : typeclass_instances.
(** The command a computation is an application of, to be unfolded. *)
Ltac still_head c := lazymatch c with ?f _ => still_head f | _ => c end.
#[export] Hint Extern 4 (Still ?c) =>
  let h := still_head c in progress (unfold h) : typeclass_instances.

(** What is handed on is part of what was given. *)
Ltac fewer := simpl; first [done | apply submseteq_nil_l | reflexivity].
(** A result that may carry a connection is not to be passed over. *)
Ltac carries A := lazymatch A with
  | context [Held] => idtac | context [PooledConnection] => idtac | context [Conn] => idtac end.
Ltac pass_over := lazymatch goal with
  | |- Hands _ _ ?c _ =>
      lazymatch c with
      | @mbind _ _ ?A _ _ _ => assert_fails (idtac; carries A); apply hands_after; [apply _|intros ?]
      end
  end.
(** One step of a command; what is left are the commands it calls. *)
Ltac hand := repeat first
  [ pass_over
  | apply hands_ret; fewer
  | apply hands_still; [|intros ?; fewer]; apply _ ].

Section operations.
Context {C E : Type} {F : Features} {R : Runtime} {M : ManageConnection C E}.
Context (name : C → nat) {NM : Named M name}.
Context (cfg : PoolConfig).
Abbreviation Hands := (Hands name).
Abbreviation held_names := (held_names name).
Abbreviation lease_names := (lease_names name).
Abbreviation guard_names := (guard_names name).

#[global] Instance wake_still n : Still (wake (C := C) n).
Proof. unfold wake. induction (N.to_nat n) as [|m IH]; simpl; apply _. Qed.
#[global] Instance release_slot_still : Still (release_slot (C := C)).
Proof. apply _. Qed.
#[global] Instance drop_held_still h : Still (drop_held (C := C) h).
Proof. apply _. Qed.
#[global] Instance record_acquire_still b s : Still (record_acquire (C := C) b s).
Proof. apply _. Qed.
#[global] Instance ready_now_still : Still (ready_now (C := C) cfg).
Proof. apply _. Qed.
#[global] Instance poll_wait_ready_still wk wr : Still (poll_wait_ready (C := C) cfg wk wr).
Proof. apply _. Qed.
#[global] Instance drop_get_inner_still s : Still (drop_get_inner (C := C) s).
Proof. apply _. Qed.
#[global] Instance try_reserve_still : Still (try_reserve (C := C) cfg).
Proof. apply _. Qed.

Lemma now_still : Still (now (C := C)).
Proof. apply _. Qed.

(** Dialling brings a connection nobody has. *)
Definition dialled (a : Poll (result C E)) : list nat :=
  match a with Ready (Ok c) => [name c] | _ => [] end.
Lemma hands_connect In : Hands In (ask connect) (λ a, dialled a ++ In).
Proof.
  intros X w a w' Hr [Hnd Hlt]. unfold ask, gets, modify, mbind, St_bind, mret, St_ret in Hr.
  simpl in Hr. injection Hr as <- <-.
  assert (Hw : custody name (In ++ X) (next_tick w)).
  { eapply custody_later; [..|by split]; destruct w; simpl; [done|lia]. }
  destruct (connect (tick w)) as [|[c|e]] eqn:Hc; simpl; try exact Hw.
  rewrite (named_connect _ _ Hc). destruct Hw as [Hnd' Hlt'].
  assert (Hi : idle (next_tick w) = idle w) by (by destruct w).
  assert (Ht : tick (next_tick w) = S (tick w)) by (by destruct w). rewrite Hi in *. rewrite Ht in *.
  assert (Hp : conn_names name (idle w) ++ tick w :: In ++ X ≡ₚ tick w :: conn_names name (idle w) ++ In ++ X)
    by solve_Permutation.
  unfold custody. rewrite Hi, Ht. split; rewrite Hp; constructor; try done; [|lia].
  rewrite Forall_forall in Hlt. intros Hin%Hlt. lia.
Qed.

(** The idle list. *)
Lemma hands_push conn : Hands [name conn.(raw)] (push_idle conn) (λ _, []).
Proof.
  unfold push_idle. intros X w a w' Hr Hcu. unfold mbind, St_bind, gets, modify in Hr. simpl in Hr.
  assert (Hpush : custody name X (set_idle (w.(idle) ++ [conn]) w)).
  { apply custody_idle. by destruct w. }
  assert (Hs : Still (metric (C := C) inc_idle)) by apply _.
  destruct (Hs _ _ _ Hr) as [Hi Ht]. by eapply custody_later.
Qed.

Lemma hands_pop : Hands [] pop_idle (opt_names name).
Proof.
  unfold pop_idle. intros X w a w' Hr Hcu. unfold mbind at 1, St_bind at 1, gets in Hr. simpl in Hr.
  destruct (vec_pop (idle w)) as [[c rest]|] eqn:Hp; [|by injection Hr as <- <-].
  apply vec_pop_Some in Hp.
  assert (Hh : Hands [name c.(raw)] (metric (dec_idle 1);; mret (Some c)) (opt_names name)) by hand.
  eapply Hh; [exact Hr|]. apply custody_idle. rewrite <-Hp. by destruct w.
Qed.

(** *** Guards and leases *)

Lemma hands_into_pooled h : Hands (held_names h) (into_pooled h) lease_names.
Proof. unfold into_pooled. hand. Qed.

Lemma hands_into_idle h : Hands (held_names h) (into_idle h) (λ _, []).
Proof.
  unfold into_idle. apply (hands_bind name _ _ _ (λ _, [])); [|intros _; hand].
  unfold held_names, Custody.held_names. destruct (held_conn h) as [conn|]; simpl; [|hand].
  apply hands_after; [apply _|]. intros t.
  apply (hands_bind name _ _ _ (λ _, [])); [apply (hands_push (mkConn _ _ _))|]. intros _. hand.
Qed.

Lemma hands_fresh_loop fuel t : Hands [] (fresh_loop cfg fuel t) guard_names.
Proof.
  induction fuel as [|fuel IH]; simpl; [by intros X w a w'|].
  apply (hands_bind name _ _ _ (opt_names name)); [apply hands_pop|]. intros [c|]; [|hand].
  destruct (expiry c t cfg); [|hand]. hand. eapply (hands_more name); [apply IH|]. apply submseteq_nil_l.
Qed.

Lemma hands_pop_fresh_idle : Hands [] (pop_fresh_idle cfg) guard_names.
Proof. unfold pop_fresh_idle. hand. apply hands_after; [apply _|intros l]. apply hands_fresh_loop. Qed.

Lemma hands_poll_valid h : Hands (held_names h) (poll_valid h) (λ a, held_names a.2).
Proof.
  unfold poll_valid, held_names, Custody.held_names. destruct (held_conn h) as [conn|]; [|by intros X w a w'].
  intros X w a w' Hr Hcu. unfold mbind, St_bind, ask, gets, modify, mret, St_ret in Hr. simpl in Hr.
  injection Hr as <- <-. simpl. rewrite named_valid. eapply custody_later; [..|exact Hcu]; destruct w; simpl; [done|lia].
Qed.

Lemma hands_pooled_drop p : Hands (lease_names p) (pooled_drop cfg p) (λ _, []).
Proof.
  unfold pooled_drop, lease_names, Custody.lease_names. destruct (pooled_conn p) as [conn|]; [|hand].
  apply hands_after; [apply _|]. intros c. destruct c; [hand|].
  apply (hands_bind name _ _ _ (λ a, [name a.2])).
  - intros X w a w' Hr Hcu. unfold ask, gets, modify, mbind, St_bind, mret, St_ret in Hr. simpl in Hr.
    injection Hr as <- <-. simpl. rewrite named_broken. eapply custody_later; [..|exact Hcu]; destruct w; simpl; [done|lia].
  - intros [[] raw']; simpl; [hand|]. hand. case_match; hand.
    apply (hands_bind name _ _ _ (λ _, [])); [apply (hands_push (mkConn _ _ _))|]. intros _. hand.
Qed.

Lemma hands_take p : Hands (lease_names p) (Local.take cfg p) (λ _, []).
Proof.
  unfold Local.take, lease_names, Custody.lease_names. destruct (pooled_conn p) as [conn|]; [|by intros X w a w'].
  hand.
Qed.

(** *** What the futures hold *)

Definition state_names (s : get_state C) : list nat :=
  match s with GValidate _ _ h | GConnect _ _ h => held_names h | _ => [] end.
Definition get_names (f : get_fut C) : list nat := match f with GetNew => [] | GetTimed s => state_names s end.
Definition try_names (f : try_fut C) : list nat :=
  match f with TryNew => [] | TryValidate h | TryConnect h => held_names h end.
Definition warm_names (f : warm_fut C) : list nat :=
  match f with WarmDial _ h => held_names h | _ => [] end.

(** What a poll hands on: the lease it answers with, or what the future goes on holding. *)
Definition lease_answer (r : result (PooledConnection C) (RunError E)) : list nat :=
  match r with Ok p => lease_names p | Err _ => [] end.
Definition try_answer (r : result (option (PooledConnection C)) (RunError E)) : list nat :=
  match r with Ok (Some p) => lease_names p | _ => [] end.
Definition poll_names {A S} (f : A → list nat) (g : S → list nat) (r : progress A S) : list nat :=
  match r with Done a => f a | Yield s => g s end.
Abbreviation get_inner_out := (poll_names lease_answer state_names).
Abbreviation get_out := (poll_names lease_answer get_names).
Abbreviation try_out := (poll_names try_answer try_names).
Abbreviation warm_out := (poll_names (λ _ : result N (RunError E), []) warm_names).

(** What is wanted is what an earlier command handed on. *)
Ltac pass := eapply (hands_more name); [eauto|simpl; first [done|apply submseteq_nil_l|reflexivity]].

Lemma hands_checked_out waited start h : Hands (held_names h) (checked_out waited start h) lease_names.
Proof. unfold checked_out. hand. Qed.

Lemma hands_deliver waited start h {S} (g : S → list nat) :
  Hands (held_names h) (p ← checked_out waited start h; mret (Done (Ok p))) (poll_names lease_answer g).
Proof. eapply hands_bind; [apply hands_checked_out|]. intros p. hand. Qed.

Lemma hands_fresh_deliver waited start h raw t In {S} (g : S → list nat) :
  [name raw] ⊆+ In →
  Hands In (p ← checked_out waited start (fill h raw t); mret (Done (Ok p))) (poll_names lease_answer g).
Proof. intros Hin. eapply (hands_more name); [apply hands_deliver|exact Hin]. Qed.

Section get_inner.
Context (again : bool → St (World C) (progress (result (PooledConnection C) (RunError E)) (get_state C))).
Context (Hagain : ∀ b, Hands [] (again b) get_inner_out).

Lemma hands_poll_backoff first start waited : Hands [] (poll_backoff again first start waited) get_inner_out.
Proof. unfold poll_backoff. hand. case_match; [apply Hagain|hand]. Qed.

Lemma hands_poll_validate start waited h :
  Hands (held_names h) (poll_validate again start waited h) get_inner_out.
Proof.
  unfold poll_validate. eapply hands_bind; [apply hands_poll_valid|]. intros [[|[]] h']; simpl.
  - hand.
  - apply hands_deliver.
  - hand. eapply (hands_more name); [apply Hagain|apply submseteq_nil_l].
Qed.

Lemma hands_poll_connect start waited h :
  Hands (held_names h) (poll_connect cfg again start waited h) get_inner_out.
Proof.
  unfold poll_connect. eapply hands_bind; [apply hands_connect|]. intros [|[raw|e]]; simpl; [hand|..].
  - hand. apply hands_fresh_deliver. apply (proj2 (singleton_submseteq_l _ _)). by left.
  - hand. case_match; hand. eapply (hands_more name); [apply hands_poll_backoff|apply submseteq_nil_l].
Qed.

Lemma hands_after_wait start waited : Hands [] (after_wait cfg again start waited) get_inner_out.
Proof.
  unfold after_wait. hand. case_match; [hand|].
  eapply hands_bind; [apply hands_pop_fresh_idle|]. intros [h|]; simpl.
  - case_match; [apply hands_poll_validate|apply hands_deliver].
  - eapply (hands_bind name _ _ _ guard_names).
    { unfold try_reserve. hand. case_match; hand. }
    intros [h|]; [apply hands_poll_connect|apply Hagain].
Qed.

Lemma hands_poll_wait wk start waited wr : Hands [] (poll_wait cfg again wk start waited wr) get_inner_out.
Proof. unfold poll_wait. hand. case_match; [hand|apply hands_after_wait]. Qed.
End get_inner.

Lemma hands_get_loop fuel wk start waited : Hands [] (get_loop cfg fuel wk start waited) get_inner_out.
Proof.
  revert waited. induction fuel as [|fuel IH]; intros waited; simpl; [by intros X w a w'|].
  hand. case_match; [hand|]. by apply hands_poll_wait.
Qed.

Definition some_names (s : option (get_state C)) : list nat := match s with Some s => state_names s | None => [] end.
Lemma hands_poll_get_inner wk s : Hands (some_names s) (poll_get_inner cfg wk s) get_inner_out.
Proof.
  pose proof hands_get_loop as Hl. destruct s as [[]|]; simpl; hand.
  - by apply hands_poll_wait.
  - by apply hands_poll_validate.
  - by apply hands_poll_connect.
  - by apply hands_poll_backoff.
  - apply Hl.
Qed.

Lemma hands_poll_timed wk s : Hands (some_names s) (poll_timed cfg wk s) get_out.
Proof.
  unfold poll_timed, get_timed_out_now. hand.
  assert (Hrun : ∀ v, Hands (some_names s) (r ← poll_get_inner cfg wk s;
    match r, v with
    | Done a, _ => mret (Done a)
    | Yield s', Fires_after =>
        drop_get_inner s';; metric (count GetTimedOut 1);; mret (Done (Err TimedOut))
    | Yield s', _ => mret (Yield (GetTimed s'))
    end) get_out).
  { intros v. eapply hands_bind; [apply hands_poll_get_inner|]. intros [r|s']; [hand|destruct v; hand]. }
  destruct a; [exact (Hrun Not_elapsed)| |exact (Hrun Fires_after)]. hand.
Qed.

Lemma hands_poll_get wk f : Hands (get_names f) (poll_get cfg wk f) get_out.
Proof.
  destruct f as [|s]; [|apply (hands_poll_timed wk (Some s))]. unfold poll_get. hand. case_match; [hand|].
  apply (hands_bind name _ _ _ guard_names); [case_match; [apply hands_pop_fresh_idle|hand]|].
  intros [h|]; [|apply (hands_poll_timed wk None)]. hand. apply hands_deliver.
Qed.

(** *** [try_get], [warm] and [maintain] *)

Lemma hands_try_deliver t h :
  Hands (held_names h) (p ← checked_out false t h; mret (Done (Ok (Some p)))) try_out.
Proof. eapply hands_bind; [apply hands_checked_out|]. intros p. hand. Qed.

Lemma hands_try_validate again h :
  Hands [] again try_out → Hands (held_names h) (try_validate again h) try_out.
Proof.
  intros Ha. unfold try_validate. eapply hands_bind; [apply hands_poll_valid|]. intros [[|[]] h']; simpl.
  - hand.
  - hand. apply hands_try_deliver.
  - hand. eapply (hands_more name); [apply Ha|apply submseteq_nil_l].
Qed.

Lemma hands_try_connect h : Hands (held_names h) (try_connect h) try_out.
Proof.
  unfold try_connect. eapply hands_bind; [apply hands_connect|]. intros [|[raw|e]]; simpl; hand.
  eapply (hands_more name); [apply hands_try_deliver|]. apply (proj2 (singleton_submseteq_l _ _)). by left.
Qed.

Lemma hands_try_loop fuel : Hands [] (try_loop cfg fuel) try_out.
Proof.
  induction fuel as [|fuel IH]; simpl; [by intros X w a w'|].
  eapply hands_bind; [apply hands_pop_fresh_idle|]. intros [h|]; simpl.
  - case_match; [by apply hands_try_validate|]. hand. apply hands_try_deliver.
  - eapply (hands_bind name _ _ _ guard_names).
    { unfold try_reserve. hand. case_match; hand. }
    intros [h|]; [apply hands_try_connect|hand].
Qed.

Lemma hands_poll_try f : Hands (try_names f) (poll_try cfg f) try_out.
Proof.
  destruct f as [|h|h]; simpl.
  - hand. case_match; hand. apply hands_try_loop.
  - hand. apply hands_try_validate, hands_try_loop.
  - apply hands_try_connect.
Qed.

Lemma hands_poll_dial again made h :
  (∀ n, Hands [] (again n) warm_out) → Hands (held_names h) (poll_dial cfg again made h) warm_out.
Proof.
  intros Ha. unfold poll_dial. hand.
  assert (Hrun : ∀ v, Hands (held_names h) (a ← ask connect;
    match a, v with
    | Ready (Ok raw), _ =>
        t ← now; note_created;; into_idle (fill h raw t);; made ← lift (add_u U32 made 1); again made
    | Ready (Err e), _ => drop_held h;; mret (Done (Err (User e)))
    | Pending, Fires_after => drop_held h;; mret (Done (Err TimedOut))
    | Pending, _ => mret (Yield (WarmDial made h))
    end) warm_out).
  { intros v. eapply hands_bind; [apply hands_connect|]. intros [|[raw|e]]; simpl; [destruct v; hand| |hand].
    hand. eapply (hands_bind name _ _ _ (λ _, [])).
    - eapply (hands_more name); [apply hands_into_idle|]. apply (proj2 (singleton_submseteq_l _ _)). by left.
    - intros _. hand. apply Ha. }
  destruct a; [exact (Hrun Not_elapsed)| |exact (Hrun Fires_after)]. hand.
Qed.

Lemma hands_warm_loop fuel made : Hands [] (warm_loop cfg fuel made) warm_out.
Proof.
  revert made. induction fuel as [|fuel IH]; intros made; simpl; [by intros X w a w'|].
  hand. case_match; [|hand]. eapply (hands_bind name _ _ _ guard_names).
  { unfold try_reserve. hand. case_match; hand. }
  intros [h|]; [by apply hands_poll_dial|hand].
Qed.

(** Reaping and clearing throw idle connections away. *)
Lemma reap_split_keeps t l (w : World C) r w' :
  reap_split cfg t l w = Val (r, w') →
  r.1 ⊆+ l ∧ w'.(idle) = w.(idle) ∧ (w.(tick) ≤ w'.(tick))%nat.
Proof.
  assert (Hst : ∀ l, Still (reap_split (C := C) cfg t l)).
  { clear. induction l; simpl; apply _. }
  intros Hr. split; [|by eapply Hst]. revert w r w' Hr.
  induction l as [|conn l IH]; intros w r w' Hr; simpl in Hr; [by injection Hr as <- <-|].
  destruct (expiry conn t cfg) as [e|].
  - unfold mbind, St_bind in Hr. destruct (note_expired e w) as [[[] w1]| |]; [|done..].
    destruct (reap_split cfg t l w1) as [[r1 w2]| |] eqn:H1; [|done..]. injection Hr as <- <-. simpl.
    apply submseteq_cons. by eapply IH.
  - unfold mbind, St_bind in Hr. destruct (reap_split cfg t l w) as [[r1 w2]| |] eqn:H1; [|done..].
    injection Hr as <- <-. simpl. apply submseteq_skip. by eapply IH.
Qed.

Lemma hands_reap : Hands [] (reap cfg) (λ _, []).
Proof.
  unfold reap. hand. intros X w n w' Hr Hcu. unfold mbind at 1, St_bind at 1, gets in Hr. simpl in Hr.
  unfold mbind at 1, St_bind at 1 in Hr.
  destruct (reap_split cfg a (idle w) w) as [[r w1]| |] eqn:Hs; [|done..].
  destruct (reap_split_keeps _ _ _ _ _ Hs) as (Hsub & Hi & Ht).
  unfold mbind at 1, St_bind at 1, modify in Hr.
  eapply (still_custody name _ _ _ _ _ Hr); [apply _|].
  simpl. apply custody_shrink; [by rewrite Hi|]. by eapply custody_later.
Qed.

Lemma hands_clear : Hands [] clear (λ _, []).
Proof.
  unfold clear. apply hands_after; [apply _|intros l]. intros X w n w' Hr Hcu. unfold mbind at 1, St_bind at 1, modify in Hr.
  eapply (still_custody name _ _ _ _ _ Hr); [apply _|].
  apply custody_shrink; [apply submseteq_nil_l|done].
Qed.

Lemma hands_poll_warm f : Hands (warm_names f) (poll_warm cfg f) warm_out.
Proof.
  assert (Hs : Hands [] (warm_start cfg) warm_out).
  { unfold warm_start. hand. case_match; hand. apply hands_warm_loop. }
  destruct f as [| |made h]; simpl; [done| |].
  - by apply (hands_bind name _ _ _ (λ _, [])); [apply hands_reap|].
  - hand. by apply hands_poll_dial, hands_warm_loop.
Qed.
End operations.

(** ** One thread *)

(** The names in a map of things that hold some. *)
Definition all_names {X} (f : X → list nat) (m : gmap nat X) : list nat := map_to_list m ≫= λ kx, f kx.2.

Lemma all_names_insert {X} (f : X → list nat) k x (m : gmap nat X) :
  all_names f (<[k := x]> m) ≡ₚ f x ++ all_names f (delete k m).
Proof.
  unfold all_names. rewrite <-insert_delete_eq, map_to_list_insert by apply lookup_delete_eq. done.
Qed.
Lemma all_names_lookup {X} (f : X → list nat) k x (m : gmap nat X) :
  m !! k = Some x → all_names f m ≡ₚ f x ++ all_names f (delete k m).
Proof. intros Hk. by rewrite <-all_names_insert, insert_id. Qed.

Lemma all_names_delete {X} (f : X → list nat) k (m : gmap nat X) :
  all_names f (delete k m) ⊆+ all_names f m.
Proof.
  destruct (m !! k) as [x|] eqn:Hk; [|by rewrite delete_id].
  rewrite (all_names_lookup f k x m Hk). by apply submseteq_inserts_l.
Qed.

Section thread.
Context {C E : Type} {F : Features} {R : Runtime} {M : ManageConnection C E}.
Context (name : C → nat) {NM : Named M name}.
Context (cfg : PoolConfig).
Implicit Types s : Sys C E.

Definition task_names (t : task C) : list nat :=
  match t with TGet f => get_names name f | TTry f => try_names name f | TWarm f => warm_names name f end.
(** The connections in hands: suspended calls', and leases'. *)
Definition in_hands s : list nat :=
  all_names task_names s.(tasks) ++ all_names (lease_names name) s.(leases).
Definition sys_custody s : Prop := custody name (in_hands s) s.(world).

(** A holder may change the connection it has leased, not swap it for another. *)
Definition same_connection (a : action C) s : Prop :=
  match a with
  | WriteLease i c => ∀ p c', s.(leases) !! i = Some p → deref p = Val c' → name c = name c'
  | _ => True
  end.

Definition polled (r : progress (answer C E) (task C)) : list nat :=
  match r with
  | Done (Leased p) => lease_names name p
  | Done _ => []
  | Yield t => task_names t
  end.

Lemma hands_poll_task i t : Hands name (task_names t) (poll_task cfg i t) polled.
Proof.
  destruct t as [f|f|f]; simpl.
  - eapply (hands_bind name); [by apply hands_poll_get|]. intros [[p|e]|g]; simpl; hand.
  - eapply (hands_bind name); [by apply hands_poll_try|]. intros [[[p|]|e]|g]; simpl; hand.
  - eapply (hands_bind name); [by apply hands_poll_warm|]. intros [[n|e]|g]; simpl; hand.
Qed.

Lemma run_on_custody {A} (c : St (World C) A) k In Out X s s' :
  Hands name In c Out → in_hands s ≡ₚ In ++ X →
  (∀ a w, (k a w).(world) = w ∧ in_hands (k a w) ⊆+ Out a ++ X) →
  run_on c k s = Val s' → sys_custody s → sys_custody s'.
Proof.
  intros Hc Hin Hk Hrun Hs. unfold run_on in Hrun.
  destruct (c (world s)) as [[a w]| |] eqn:Hca; [|done..]. injection Hrun as <-.
  destruct (Hk a w) as [Hw Hout]. unfold sys_custody. rewrite Hw.
  eapply custody_less; [exact Hout|]. eapply Hc; [exact Hca|].
  eapply custody_less; [|exact Hs]. by rewrite Hin.
Qed.

Lemma in_hands_task s i t :
  s.(tasks) !! i = Some t →
  in_hands s ≡ₚ task_names t ++ all_names task_names (delete i s.(tasks)) ++ all_names (lease_names name) s.(leases).
Proof. intros Hi. unfold in_hands. by rewrite (all_names_lookup _ i t _ Hi), <-app_assoc. Qed.

Lemma in_hands_lease s i p :
  s.(leases) !! i = Some p →
  in_hands s ≡ₚ lease_names name p ++ all_names task_names s.(tasks) ++ all_names (lease_names name) (delete i s.(leases)).
Proof.
  intros Hi. unfold in_hands. rewrite (all_names_lookup _ i p _ Hi).
  rewrite app_assoc, (Permutation_app_comm _ (lease_names name p)), <-app_assoc. done.
Qed.

Lemma exec_custody a s s' :
  same_connection a s → exec cfg a s = Some (Val s') → sys_custody s → sys_custody s'.
Proof.
  intros Ha Hex Hs.
  destruct a as [i k|i|i|i|i|i c| | |]; cbn [exec] in Hex;
    try apply bind_Some in Hex as (x & Hx & Hex); try apply (inj Some) in Hex.
  - destruct (tasks s !! i) eqn:Hi, (leases s !! i); simplify_eq. eapply custody_less; [|exact Hs].
    unfold in_hands. simpl. rewrite all_names_insert, delete_id by done. by destruct k.
  - eapply (run_on_custody _ _ _ _ _ _ _ (hands_poll_task i x)); [by apply in_hands_task| |exact Hex|done].
    intros r w. split; [by destruct r as [[]|]|].
    destruct r as [[p| |n|e]|t]; simpl; unfold in_hands; simpl; try done.
    + rewrite all_names_insert. rewrite app_assoc, (Permutation_app_comm _ (lease_names name p)), <-app_assoc.
      do 2 apply submseteq_skips_l. apply all_names_delete.
    + rewrite all_names_insert, <-app_assoc. done.
  - eapply (run_on_custody _ _ (task_names x) (λ _, []) _ _ _); [|by apply in_hands_task| |exact Hex|done].
    { apply hands_still; [apply _|]. intros. apply submseteq_nil_l. }
    by intros [] w.
  - eapply (run_on_custody _ _ _ _ _ _ _ (hands_pooled_drop name cfg x)); [by apply in_hands_lease| |exact Hex|done].
    by intros [] w.
  - eapply (run_on_custody _ _ _ _ _ _ _ (hands_take name cfg x)); [by apply in_hands_lease| |exact Hex|done].
    by intros r w.
  - eapply (run_on_custody _ _ (lease_names name x) (lease_names name)); [|by apply in_hands_lease| |exact Hex|done].
    + unfold deref_mut, lease_names. destruct (pooled_conn x) as [conn|] eqn:Hp; [|by intros X w a w'].
      simpl in Ha. pose proof (Ha x conn.(raw) Hx) as Hn. unfold deref in Hn. rewrite Hp in Hn.
      specialize (Hn eq_refl). intros X w p w' [= <- <-]. simpl. by rewrite Hn.
    + intros p w. split; [done|]. unfold in_hands. simpl.
      rewrite all_names_insert. rewrite app_assoc, (Permutation_app_comm _ (lease_names name p)), <-app_assoc. done.
  - eapply (run_on_custody _ _ _ _ (in_hands s) s s' (hands_reap name cfg)); [reflexivity| |exact Hex|done].
    intros n w. split; reflexivity.
  - eapply (run_on_custody _ _ _ _ (in_hands s) s s' (hands_clear name)); [reflexivity| |exact Hex|done].
    intros n w. split; reflexivity.
  - eapply (run_on_custody _ _ [] (λ _, []) (in_hands s) s); [|reflexivity| |exact Hex|done]; [|intros n w; split; reflexivity].
    apply hands_still; [apply _|done].
Qed.
End thread.

(** ** The theorem *)

(** Runs in which the holders of leases leave behind the connections they were lent. *)
Inductive honest_run {C E} {F : Features} {R : Runtime} {M : ManageConnection C E} (name : C → nat) cfg :
    Sys C E → Prop :=
| honest_start c t : honest_run name cfg (sys_init c t)
| honest_step s a s' :
    honest_run name cfg s → same_connection name a s → exec cfg a s = Some (Val s') →
    honest_run name cfg s'.

Lemma honest_custody {C E} {F : Features} {R : Runtime} {M : ManageConnection C E}
    (name : C → nat) cfg (s : Sys C E) :
  Named M name → honest_run name cfg s → sys_custody name s.
Proof.
  intros NM. induction 1 as [c t|s a s' _ IH Ha Hex]; [|by eapply exec_custody].
  split; simpl; [constructor|done].
Qed.

(** C2: a connection has one holder.  In every state a run can reach, however calls are polled,
    cancelled and interleaved, the connections that are idle, in the hands of a suspended call
    and leased are all different: two leases never share one, and none is idle while it is
    leased or while a call is validating it or parking it. *)
Theorem connection_exclusive {C E} {F : Features} {R : Runtime} {M : ManageConnection C E}
    (name : C → nat) cfg (s : Sys C E) :
  Named M name → honest_run name cfg s →
  NoDup (conn_names name s.(world).(idle) ++ all_names (task_names name) s.(tasks) ++
         all_names (lease_names name) s.(leases)) ∧
  ∀ i p c, s.(leases) !! i = Some p → deref p = Val c →
    name c ∉ conn_names name s.(world).(idle) ∧
    ∀ j q d, s.(leases) !! j = Some q → deref q = Val d → name c = name d → i = j.
Proof.
  intros NM Hrun. destruct (honest_custody name cfg s NM Hrun) as [Hnd _]. split; [exact Hnd|]. intros i p c Hi Hc.
  assert (Hname : ∀ q d, deref q = Val d → lease_names name q = [name d]).
  { intros q d. unfold deref, lease_names. destruct (pooled_conn q); [|done]. by intros [= <-]. }
  unfold in_hands in Hnd. rewrite (all_names_lookup _ i p _ Hi), (Hname p c Hc) in Hnd.
  apply NoDup_app in Hnd as (_ & Hidle & Hhands). apply NoDup_app in Hhands as (_ & _ & Hleases).
  apply NoDup_cons in Hleases as [Hout _]. split.
  - intros Hin. apply (Hidle _ Hin). set_solver.
  - intros j q d Hj Hd Heq. destruct (decide (i = j)) as [|Hij]; [done|]. exfalso. apply Hout.
    rewrite (all_names_lookup _ j q); [|by rewrite lookup_delete_ne].
    rewrite (Hname q d Hd), Heq. by left.
Qed.

#[local] Existing Instances demo_features plain_runtime demo_manager.

#[local] Instance demo_named : Named demo_manager N.to_nat.
Proof. split; [intros t c [= <-]; apply Nat2N.id|done..]. Qed.

Lemma honest_run_acts {C E} {F : Features} {R : Runtime} {M : ManageConnection C E} (name : C → nat)
    cfg acts (s s' : Sys C E) :
  honest_run name cfg s → Forall (λ a, ∀ s, same_connection (E:=E) name a s) acts →
  run cfg acts s = Some s' → honest_run name cfg s'.
Proof.
  intros Hs Hacts. revert s Hs. induction Hacts as [|a acts Ha Hacts IH]; intros s Hs Hr; simpl in Hr.
  { by simplify_eq. }
  case_decide; [|done]. destruct (exec cfg a s) as [[s1| |]|] eqn:He; try done.
  apply (IH s1); [|done]. by eapply honest_step.
Qed.

(** Two leases, the third caller parked. *)
Lemma connection_exclusive_witness :
  size demo_full.(leases) = 2%nat ∧
  NoDup (conn_names N.to_nat demo_full.(world).(idle) ++ all_names (task_names N.to_nat) demo_full.(tasks) ++
         all_names (lease_names N.to_nat) demo_full.(leases)).
Proof.
  split; [vm_compute; reflexivity|].
  apply (connection_exclusive N.to_nat demo_config demo_full demo_named).
  apply (honest_run_acts N.to_nat demo_config
    [Spawn 0 CallGet; PollTask 0; Spawn 1 CallGet; PollTask 1; Spawn 2 CallGet; PollTask 2] demo_start).
  - apply honest_start.
  - by repeat constructor.
  - vm_compute. reflexivity.
Defined.
