(* ===== verification/Checkout.v ===== *)
(** What a checkout may hand out, and what counting one out leaves alone
    ([src/src/pool.rs]).

    A lease is never empty, and its connection was dialled for it, or was idle and not
    expired when it was taken; with [test_on_check_out] it has just passed validation.
    The second half is the frame of the timeout counter: which commands do not touch it. *)

From stdpp Require Import gmap.
From S2P Require Import Prelude Manage Builder Metrics Store Waiters Inner Local Futures Balance System Scenario Closing Custody.

(** ** Where a connection comes from *)

Section fit.
Context {C E : Type} {F : Features} {R : Runtime} {M : ManageConnection C E}.
Context (cfg : PoolConfig).
(** The poll starts on occasion [t0], with [l0] idle and [g] under validation. *)
Context (t0 : nat) (l0 : list (Conn C)) (g : option (Conn C)).
Implicit Types (conn : Conn C) (h : Held C) (w : World C) (t : nat).

(** On an occasion of this poll, before [t]. *)
Definition during (t k : nat) : Prop := (t0 ≤ k < t)%nat.

(** Dialled in this poll, and stamped with a later reading of the clock. *)
Definition dialled_now t conn : Prop :=
  ∃ k k', during t k ∧ (k < k' < t)%nat ∧ connect k = Ready (Ok conn.(raw)) ∧
    conn.(created_at) = instant_now k' ∧ conn.(last_used) = instant_now k'.
(** Taken off the idle list in this poll, on a reading of the clock that it had not expired at. *)
Definition taken_now t conn : Prop :=
  conn ∈ l0 ∧ ∃ k, during t k ∧ expiry conn (instant_now k) cfg = None.
(** Validation may have changed the connection itself, not its stamps. *)
Definition stamped_as (conn conn' : Conn C) : Prop :=
  conn'.(created_at) = conn.(created_at) ∧ conn'.(last_used) = conn.(last_used).
Definition validated_now t conn conn' : Prop :=
  stamped_as conn conn' ∧ ∃ k u, during t k ∧ is_valid k conn.(raw) = (Ready (Ok u), conn'.(raw)).

(** Fit to be handed out. *)
Definition fit t conn : Prop :=
  dialled_now t conn ∨
  (∃ c, taken_now t c ∧ if cfg.(test_on_check_out) then validated_now t c conn else conn = c) ∨
  (∃ c, g = Some c ∧ validated_now t c conn).
(** Still under validation. *)
Definition on_trial t conn : Prop :=
  ∃ c, stamped_as c conn ∧ (taken_now t c ∧ cfg.(test_on_check_out) = true ∨ g = Some c).

Lemma stamped_refl conn : stamped_as conn conn.
Proof. done. Qed.
Lemma stamped_trans a b c : stamped_as a b → stamped_as b c → stamped_as a c.
Proof. unfold stamped_as. intros [] []. split; congruence. Qed.

Lemma during_later t t' k : (t ≤ t')%nat → during t k → during t' k.
Proof. unfold during. lia. Qed.
Lemma taken_later t t' conn : (t ≤ t')%nat → taken_now t conn → taken_now t' conn.
Proof. intros Ht (Hin & k & Hk & He). split; [done|]. eauto using during_later. Qed.
Lemma validated_later t t' c conn : (t ≤ t')%nat → validated_now t c conn → validated_now t' c conn.
Proof. intros Ht (Hs & k & u & Hk & Hv). split; [done|]. eauto using during_later. Qed.
Lemma fit_later t t' conn : (t ≤ t')%nat → fit t conn → fit t' conn.
Proof.
  intros Ht [(k & k' & Hk & Hk' & H)|[(c & Hc & Hv)|(c & Hc & Hv)]].
  - left. exists k, k'. split_and!; [by eapply during_later|lia|lia|apply H..].
  - right. left. exists c. split; [by eapply taken_later|].
    destruct (test_on_check_out cfg); [by eapply validated_later|done].
  - right. right. exists c. split; [done|]. by eapply validated_later.
Qed.
Lemma on_trial_later t t' conn : (t ≤ t')%nat → on_trial t conn → on_trial t' conn.
Proof. intros Ht (c & Hs & [[Hc Ho]|Hc]); exists c; split; eauto using taken_later. Qed.

(** ** The judgement

    [c], begun on occasion [t] or later with no connection idle that was not at the start of
    the poll, leaves it so, and its answer satisfies [Q] on the occasion it ends. *)
Definition checks {A} (t : nat) (c : St (World C) A) (Q : nat → A → Prop) : Prop :=
  ∀ w a w', (t ≤ w.(tick))%nat → (∀ x, x ∈ w.(idle) → x ∈ l0) → c w = Val (a, w') →
    (w.(tick) ≤ w'.(tick))%nat ∧ (∀ x, x ∈ w'.(idle) → x ∈ l0) ∧ Q w'.(tick) a.

Lemma checks_bind {A B} t (c : St (World C) A) (f : A → St (World C) B) Q Q' :
  checks t c Q → (∀ a t', (t ≤ t')%nat → Q t' a → checks t' (f a) Q') → checks t (c ≫= f) Q'.
Proof.
  intros Hc Hf w b w' Ht Hi Hr. unfold mbind, St_bind in Hr.
  destruct (c w) as [[a w1]| |] eqn:Ha; [|done..].
  destruct (Hc w a w1 Ht Hi Ha) as (Ht1 & Hi1 & HQ).
  destruct (Hf a w1.(tick) ltac:(lia) HQ w1 b w' (Nat.le_refl _) Hi1 Hr) as (Ht2 & Hi2 & HQ').
  split_and!; [lia|done|done].
Qed.

Lemma checks_ret {A} t (a : A) (Q : nat → A → Prop) :
  (∀ t', (t ≤ t')%nat → Q t' a) → checks t (mret a) Q.
Proof. intros HQ w b w' Ht Hi [= <- <-]. split_and!; [done|done|by apply HQ]. Qed.

Lemma checks_still {A} t (c : St (World C) A) : Still c → checks t c (λ _ _, True).
Proof. intros Hc w a w' Ht Hi Hr. destruct (Hc _ _ _ Hr) as [-> Ht']. done. Qed.

Lemma checks_after {A B} t (c : St (World C) A) (f : A → St (World C) B) Q :
  Still c → (∀ a t', (t ≤ t')%nat → checks t' (f a) Q) → checks t (c ≫= f) Q.
Proof. intros Hc Hf. eapply checks_bind; [by apply checks_still|]. intros a t' Ht _. by apply Hf. Qed.

Lemma checks_mono {A} t (c : St (World C) A) (Q Q' : nat → A → Prop) :
  checks t c Q → (∀ t' a, Q t' a → Q' t' a) → checks t c Q'.
Proof. intros Hc HQ w a w' Ht Hi Hr. destruct (Hc _ _ _ Ht Hi Hr) as (? & ? & ?). eauto. Qed.

Lemma checks_fail {A} t (Q : nat → A → Prop) : checks t panic Q ∧ checks t no_fuel Q.
Proof. by split; intros w a w'. Qed.

(** Consulting the outside: the answer is that of an occasion from then on. *)
Lemma checks_ask {A} t (f : nat → A) : checks t (ask f) (λ t' a, ∃ k, (t ≤ k < t')%nat ∧ a = f k).
Proof.
  intros w a w' Ht Hi Hr. unfold ask, gets, modify, mbind, St_bind, mret, St_ret in Hr. simpl in Hr.
  injection Hr as <- <-. split_and!; [destruct w; simpl; lia|by destruct w|].
  exists (tick w). split; [destruct w; simpl in *; lia|done].
Qed.
End fit.

(** Pass over the commands that have nothing to do with connections. *)
Ltac check := repeat first
  [ lazymatch goal with
    | |- checks _ _ ?c _ =>
        lazymatch c with
        | @mbind _ _ ?A _ _ _ =>
            assert_fails (idtac; carries A); apply checks_after; [apply _|intros ? ? ?]
        end
    end ].

Section checkout.
Context {C E : Type} {F : Features} {R : Runtime} {M : ManageConnection C E}.
Context (cfg : PoolConfig) (t0 : nat) (l0 : list (Conn C)) (g : option (Conn C)).
Implicit Types (conn : Conn C) (h : Held C) (w : World C) (t : nat).
Abbreviation checks := (checks l0).
Abbreviation fit := (fit cfg t0 l0 g).
Abbreviation on_trial := (on_trial cfg t0 l0 g).
Abbreviation taken_now := (taken_now cfg t0 l0).

Definition guard_taken t (o : option (Held C)) : Prop :=
  match o with Some h => ∃ conn, h = mkHeld (Some conn) false ∧ taken_now t conn | None => True end.

Lemma checks_pop_idle t : checks t pop_idle (λ _ o, match o with Some conn => conn ∈ l0 | None => True end).
Proof.
  intros w a w' Ht Hi Hr. unfold pop_idle in Hr. unfold mbind at 1, St_bind at 1, gets in Hr. simpl in Hr.
  destruct (vec_pop (idle w)) as [[c rest]|] eqn:Hp; [|by injection Hr as <- <-].
  apply vec_pop_Some in Hp. unfold mbind at 1, St_bind at 1, modify in Hr.
  assert (Hs : Still (metric (C := C) (dec_idle 1);; mret (Some c))) by apply _.
  destruct (Hs _ _ _ Hr) as [Hi' Ht'].
  assert (a = Some c) as ->.
  { revert Hr. unfold metric, mbind, St_bind. destruct (when _ _ _) as [[[] w1]| |]; [|done..]. by intros [= <- _]. }
  split_and!; [by destruct w|intros x Hx; apply Hi|apply Hi]; rewrite Hp.
  - rewrite Hi' in Hx. destruct w. simpl in Hx. set_solver.
  - set_solver.
Qed.

Lemma checks_fresh_loop fuel t k now :
  during t0 t k → now = instant_now k → checks t (fresh_loop cfg fuel now) guard_taken.
Proof.
  intros Hk ->. revert t Hk. induction fuel as [|fuel IH]; intros t Hk; simpl; [apply checks_fail|].
  eapply checks_bind; [apply checks_pop_idle|]. intros [c|] t' Ht Hc; [|by apply checks_ret].
  destruct (expiry c (instant_now k) cfg) as [e|] eqn:He.
  - check. apply IH. eapply during_later; [|exact Hk]. lia.
  - apply checks_ret. intros t'' Ht'. exists c. split; [done|]. split; [done|].
    exists k. split; [|done]. eapply during_later; [|exact Hk]. lia.
Qed.

Lemma checks_now t : (t0 ≤ t)%nat → checks t now (λ t' v, ∃ k, during t0 t' k ∧ (t ≤ k)%nat ∧ v = instant_now k).
Proof.
  intros Ht. eapply checks_mono; [apply checks_ask|]. intros t' a (k & Hk & ->). exists k.
  unfold during. split_and!; [lia..|done].
Qed.

Lemma checks_pop_fresh_idle t : (t0 ≤ t)%nat → checks t (pop_fresh_idle cfg) guard_taken.
Proof.
  intros Ht. unfold pop_fresh_idle. eapply checks_bind; [by apply checks_now|].
  intros v t1 Ht1 (k & Hk & _ & ->). apply checks_after; [apply _|]. intros l t2 Ht2.
  eapply checks_fresh_loop; [|done]. by eapply during_later.
Qed.

Lemma checks_poll_valid t conn h :
  (t0 ≤ t)%nat → h.(held_conn) = Some conn →
  checks t (poll_valid h) (λ t' a, ∃ conn', a.2.(held_conn) = Some conn' ∧ stamped_as conn conn' ∧
    (a.1 = Ready true → validated_now t0 t' conn conn')).
Proof.
  intros Ht Hh. unfold poll_valid. rewrite Hh. eapply checks_bind; [apply checks_ask|].
  intros a t1 Ht1 (k & Hk & ->). apply checks_ret. intros t2 Ht2. simpl. eexists. split; [done|].
  split; [done|]. intros Hv. split; [done|]. exists k.
  destruct (is_valid k (raw conn)) as [[|[u|e]] raw'] eqn:Hvk; simpl in *; [done| |done].
  exists u. split; [unfold during; lia|done].
Qed.

Lemma checks_checked_out t waited start h :
  checks t (checked_out waited start h) (λ _ p, p = mkPooled h.(held_conn)).
Proof.
  unfold checked_out. check. unfold into_pooled. check. by apply checks_ret.
Qed.

(** A guard that may be handed out as it is. *)
Definition fit_guard t h : Prop := ∃ conn, h.(held_conn) = Some conn ∧ fit t conn.
Definition lease_fit t (p : PooledConnection C) : Prop := ∃ conn, p = mkPooled (Some conn) ∧ fit t conn.

Lemma fit_lease t t' h : (t ≤ t')%nat → fit_guard t h → lease_fit t' (mkPooled h.(held_conn)).
Proof. intros Ht (conn & Hh & Hf). exists conn. rewrite Hh. split; [done|]. by eapply fit_later. Qed.

Lemma fill_fit t h raw0 k k' :
  (t0 ≤ k)%nat → (k < k' < t)%nat → connect k = Ready (Ok raw0) →
  fit_guard t (fill h raw0 (instant_now k')).
Proof.
  intros Hk Hk' Hc. eexists. split; [done|]. left. exists k, k'. unfold during.
  split_and!; (done || lia).
Qed.

(** The connection a resumed or a new validation is of. *)
Definition trying t h conn : Prop :=
  h.(held_conn) = Some conn ∧ (g = Some conn ∨ taken_now t conn ∧ cfg.(test_on_check_out) = true).

Lemma trying_trial t t' h conn conn' :
  (t ≤ t')%nat → trying t h conn → stamped_as conn conn' → on_trial t' conn'.
Proof.
  intros Ht [_ Hg] Hs. exists conn. split; [done|]. destruct Hg as [|[Htk ?]]; [by right|left].
  split; [by eapply taken_later|done].
Qed.
Lemma trying_passed t t' h conn conn' :
  (t ≤ t')%nat → trying t h conn → validated_now t0 t' conn conn' → fit t' conn'.
Proof.
  intros Ht [_ [Hg|[Htk Ho]]] Hv; right; [right|left]; exists conn; (split; [|]); try done.
  - by eapply taken_later.
  - by rewrite Ho.
Qed.

Lemma guard_trying t h : guard_taken t (Some h) → cfg.(test_on_check_out) = true → ∃ conn, trying t h conn.
Proof. intros (conn & -> & Htk) Ho. exists conn. split; [done|]. by right. Qed.
Lemma guard_fit t h : guard_taken t (Some h) → cfg.(test_on_check_out) = false → fit_guard t h.
Proof. intros (conn & -> & Htk) Ho. exists conn. split; [done|]. right. left. exists conn. by rewrite Ho. Qed.

(** What polls may answer, and be suspended with. *)
Definition state_fit t (s : get_state C) : Prop :=
  match s with GValidate _ _ h => ∃ conn, h.(held_conn) = Some conn ∧ on_trial t conn | _ => True end.
Definition got_fit t (r : progress (result (PooledConnection C) (RunError E)) (get_state C)) : Prop :=
  match r with Done (Ok p) => lease_fit t p | Done (Err e) => e ≠ TimedOut | Yield s => state_fit t s end.
Definition get_fit t (r : progress (result (PooledConnection C) (RunError E)) (get_fut C)) : Prop :=
  match r with Done (Ok p) => lease_fit t p | Yield (GetTimed s) => state_fit t s | _ => True end.
Definition tried_fit t (r : progress (result (option (PooledConnection C)) (RunError E)) (try_fut C)) : Prop :=
  match r with
  | Done (Ok (Some p)) => lease_fit t p
  | Yield (TryValidate h) => ∃ conn, h.(held_conn) = Some conn ∧ on_trial t conn
  | _ => True
  end.

Lemma lease_fit_later t t' p : (t ≤ t')%nat → lease_fit t p → lease_fit t' p.
Proof. intros Ht (conn & -> & Hf). exists conn. split; [done|]. by eapply fit_later. Qed.
Lemma state_fit_later t t' s : (t ≤ t')%nat → state_fit t s → state_fit t' s.
Proof. intros Ht. destruct s as [|st wt h| |]; try done. intros (conn & Hh & Ho). exists conn.
  split; [done|]. by eapply on_trial_later. Qed.

Lemma checks_deliver t waited start h :
  fit_guard t h → checks t (p ← checked_out waited start h; mret (Done (Ok p))) got_fit.
Proof.
  intros Hf. eapply checks_bind; [apply checks_checked_out|]. intros p t1 Ht1 ->.
  apply checks_ret. intros t2 Ht2. simpl. eapply fit_lease; [|exact Hf]. lia.
Qed.

Section get_inner.
Context (again : bool → St (World C) (progress (result (PooledConnection C) (RunError E)) (get_state C))).
Hypothesis again_fit : ∀ b t, (t0 ≤ t)%nat → checks t (again b) got_fit.

Lemma checks_poll_backoff t first start waited :
  (t0 ≤ t)%nat → checks t (poll_backoff again first start waited) got_fit.
Proof. intros Ht. unfold poll_backoff. check. case_match; [apply again_fit; lia|by apply checks_ret]. Qed.

Lemma checks_poll_validate t start waited h conn :
  (t0 ≤ t)%nat → trying t h conn → checks t (poll_validate again start waited h) got_fit.
Proof.
  intros Ht Htry. unfold poll_validate.
  eapply checks_bind; [by eapply checks_poll_valid; [|apply Htry]|].
  intros [[|[]] h'] t1 Ht1 (conn' & Hh' & Hs & Hv); simpl in *.
  - apply checks_ret. intros t2 Ht2. exists conn'. split; [done|].
    eapply trying_trial; [|exact Htry|exact Hs]. lia.
  - apply checks_deliver. exists conn'. split; [done|]. by eapply trying_passed; [|exact Htry|auto].
  - check. apply again_fit. lia.
Qed.

Lemma checks_poll_connect t start waited h :
  (t0 ≤ t)%nat → checks t (poll_connect cfg again start waited h) got_fit.
Proof.
  intros Ht. unfold poll_connect. eapply checks_bind; [apply checks_ask|].
  intros a t1 Ht1 (k & Hk & ->). destruct (connect k) as [|[raw0|e]] eqn:Hc; [by apply checks_ret| |].
  - eapply checks_bind; [apply checks_now; lia|]. intros v t2 Ht2 (k' & Hk' & Hle & ->).
    check. apply checks_deliver. eapply fill_fit; [..|exact Hc]; unfold during in *; lia.
  - check. case_match; check; [apply checks_poll_backoff; lia|by apply checks_ret].
Qed.

Lemma checks_after_wait t start waited :
  (t0 ≤ t)%nat → checks t (after_wait cfg again start waited) got_fit.
Proof.
  intros Ht. unfold after_wait. check. case_match; [by apply checks_ret|].
  eapply checks_bind; [apply checks_pop_fresh_idle; lia|]. intros [h|] t1 Ht1 Hh.
  - destruct (test_on_check_out cfg) eqn:Ho; [|by apply checks_deliver, guard_fit].
    destruct (guard_trying _ _ Hh Ho) as [conn Hc]. eapply checks_poll_validate; [lia|exact Hc].
  - eapply checks_bind; [apply checks_still, _|]. intros [h|] t2 Ht2 _;
      [apply checks_poll_connect; lia|apply again_fit; lia].
Qed.

Lemma checks_poll_wait t wk start waited wr :
  (t0 ≤ t)%nat → checks t (poll_wait cfg again wk start waited wr) got_fit.
Proof.
  intros Ht. unfold poll_wait. check. case_match; [by apply checks_ret|apply checks_after_wait; lia].
Qed.
End get_inner.

Lemma checks_get_loop fuel t wk start waited :
  (t0 ≤ t)%nat → checks t (get_loop cfg fuel wk start waited) got_fit.
Proof.
  revert t waited. induction fuel as [|fuel IH]; intros t waited Ht; simpl; [apply checks_fail|].
  check. case_match; [by apply checks_ret|]. apply checks_poll_wait; [auto|lia].
Qed.

(** The connection a suspended call has under validation. *)
Definition state_guard (s : get_state C) : option (Conn C) :=
  match s with GValidate _ _ h => h.(held_conn) | _ => None end.

Lemma checks_poll_get_inner t wk s :
  (t0 ≤ t)%nat → (∀ s', s = Some s' → g = state_guard s') → checks t (poll_get_inner cfg wk s) got_fit.
Proof.
  intros Ht Hg. pose proof checks_get_loop as Hl. destruct s as [[| st wt h | |]|]; simpl; check.
  - apply checks_poll_wait; [auto|lia].
  - specialize (Hg _ eq_refl). simpl in Hg. destruct (held_conn h) as [conn|] eqn:Hh.
    + eapply (checks_poll_validate _ _ _ _ _ _ conn); [lia|]. by split; [|left].
    + unfold poll_validate, poll_valid. rewrite Hh. by intros w r w'.
  - apply checks_poll_connect; [auto|lia].
  - apply checks_poll_backoff; [auto|lia].
  - apply Hl. lia.
  Unshelve. auto.
Qed.

Lemma checks_timed_out t : checks t get_timed_out_now get_fit.
Proof. unfold get_timed_out_now. check. by apply checks_ret. Qed.

Lemma checks_poll_timed t wk s :
  (t0 ≤ t)%nat → (∀ s', s = Some s' → g = state_guard s') → checks t (poll_timed cfg wk s) get_fit.
Proof.
  intros Ht Hg. unfold poll_timed. check.
  assert (Hrun : ∀ v, checks t' (r ← poll_get_inner cfg wk s;
    match r, v with
    | Done a, _ => mret (Done a)
    | Yield s', Fires_after => drop_get_inner s';; get_timed_out_now
    | Yield s', _ => mret (Yield (GetTimed s'))
    end) get_fit).
  { intros v. eapply checks_bind; [apply checks_poll_get_inner; [lia|exact Hg]|]. intros [[p|e]|s'] t1 Ht1 Hr.
    - apply checks_ret. intros t2 Ht2. by eapply lease_fit_later.
    - by apply checks_ret.
    - destruct v; check; [..|apply checks_timed_out];
        (apply checks_ret; intros t2 Ht2; by eapply state_fit_later). }
  destruct a; [exact (Hrun Not_elapsed)| |exact (Hrun Fires_after)]. check. apply checks_timed_out.
Qed.

Lemma checks_poll_get t wk f :
  (t0 ≤ t)%nat → match f with GetTimed s => g = state_guard s | GetNew => True end →
  checks t (poll_get cfg wk f) get_fit.
Proof.
  intros Ht Hg. destruct f as [|s]; [|apply (checks_poll_timed t wk (Some s)); [lia|by intros s' [= <-]]].
  unfold poll_get. check. case_match; [by apply checks_ret|].
  eapply (checks_bind _ _ _ _ (λ t o, guard_taken t o ∧ (is_Some o → cfg.(test_on_check_out) = false))).
  - destruct (test_on_check_out cfg); simpl.
    + apply checks_ret. intros. split; [done|]. by intros [].
    + eapply checks_mono; [apply checks_pop_fresh_idle; lia|]. by intros t1 o.
  - intros [h|] t1 Ht1 [Hh Ho]; [|apply (checks_poll_timed _ wk None); [lia|done]]. check.
    eapply checks_bind; [apply checks_checked_out|]. intros p t2 Ht2 ->. apply checks_ret. intros t3 Ht3.
    simpl. eapply fit_lease; [|apply guard_fit; [exact Hh|eauto]]. lia.
Qed.

(** *** [try_get] *)

Lemma checks_try_deliver t v h :
  fit_guard t h → checks t (p ← checked_out false v h; mret (Done (Ok (Some p)))) tried_fit.
Proof.
  intros Hf. eapply checks_bind; [apply checks_checked_out|]. intros p t1 Ht1 ->.
  apply checks_ret. intros t2 Ht2. simpl. eapply fit_lease; [|exact Hf]. lia.
Qed.

Lemma checks_try_validate again t h conn :
  (∀ t, (t0 ≤ t)%nat → checks t again tried_fit) →
  (t0 ≤ t)%nat → trying t h conn → checks t (try_validate again h) tried_fit.
Proof.
  intros Ha Ht Htry. unfold try_validate.
  eapply checks_bind; [by eapply checks_poll_valid; [|apply Htry]|].
  intros [[|[]] h'] t1 Ht1 (conn' & Hh' & Hs & Hv); simpl in *.
  - apply checks_ret. intros t2 Ht2. exists conn'. split; [done|].
    eapply trying_trial; [|exact Htry|exact Hs]. lia.
  - check. apply checks_try_deliver. exists conn'. split; [done|].
    eapply fit_later; [eassumption|]. by eapply trying_passed; [|exact Htry|auto].
  - check. apply Ha. lia.
Qed.

Lemma checks_try_connect t h : (t0 ≤ t)%nat → checks t (try_connect h) tried_fit.
Proof.
  intros Ht. unfold try_connect. eapply checks_bind; [apply checks_ask|].
  intros a t1 Ht1 (k & Hk & ->). destruct (connect k) as [|[raw0|e]] eqn:Hc; [by apply checks_ret| |].
  - eapply checks_bind; [apply checks_now; lia|]. intros v t2 Ht2 (k' & Hk' & Hle & ->).
    check. apply checks_try_deliver. eapply fill_fit; [..|exact Hc]; unfold during in *; lia.
  - check. by apply checks_ret.
Qed.

Lemma checks_try_loop fuel t : (t0 ≤ t)%nat → checks t (try_loop cfg fuel) tried_fit.
Proof.
  revert t. induction fuel as [|fuel IH]; intros t Ht; simpl; [apply checks_fail|].
  eapply checks_bind; [by apply checks_pop_fresh_idle|]. intros [h|] t1 Ht1 Hh.
  - destruct (test_on_check_out cfg) eqn:Ho.
    + destruct (guard_trying _ _ Hh Ho) as [conn Hc]. eapply checks_try_validate; [exact IH|lia|exact Hc].
    + check. apply checks_try_deliver. destruct (guard_fit _ _ Hh Ho) as (conn & Hc & Hf).
      exists conn. split; [done|]. by eapply fit_later.
  - eapply checks_bind; [apply checks_still, _|]. intros [h|] t2 Ht2 _;
      [apply checks_try_connect; lia|by apply checks_ret].
Qed.

Lemma checks_poll_try t f :
  (t0 ≤ t)%nat → match f with TryValidate h => g = h.(held_conn) | _ => True end →
  checks t (poll_try cfg f) tried_fit.
Proof.
  intros Ht Hg. destruct f as [|h|h]; simpl; check.
  - case_match; [by apply checks_ret|]. check. apply checks_try_loop. lia.
  - destruct (held_conn h) as [conn|] eqn:Hh.
    + eapply (checks_try_validate _ _ _ conn); [intros; by apply checks_try_loop|lia|]. by split; [|left].
    + unfold try_validate, poll_valid. rewrite Hh. by intros w r w'.
  - by apply checks_try_connect.
Qed.
End checkout.

(** ** One thread *)

(** The connection task [i] has under validation. *)
Definition checking {C E} (i : nat) (s : Sys C E) : option (Conn C) :=
  match s.(tasks) !! i with
  | Some (TGet (GetTimed st)) => state_guard st
  | Some (TTry (TryValidate h)) => h.(held_conn)
  | _ => None
  end.

Section thread.
Context {C E : Type} {F : Features} {R : Runtime} {M : ManageConnection C E}.
Context (cfg : PoolConfig).
Implicit Types s : Sys C E.

Definition task_fit t0 l0 g (t : nat) (r : progress (answer C E) (task C)) : Prop :=
  match r with
  | Done (Leased p) => lease_fit cfg t0 l0 g t p
  | Yield (TGet (GetTimed st)) => state_fit cfg t0 l0 g t st
  | Yield (TTry (TryValidate h)) => ∃ conn, h.(held_conn) = Some conn ∧ on_trial cfg t0 l0 g t conn
  | _ => True
  end.

Lemma poll_task_fit s i t r w :
  s.(tasks) !! i = Some t → poll_task cfg i t s.(world) = Val (r, w) →
  task_fit s.(world).(tick) s.(world).(idle) (checking i s) w.(tick) r.
Proof.
  intros Hi. assert (Hg : checking i s = match t with
    | TGet (GetTimed st) => state_guard st | TTry (TryValidate h) => h.(held_conn) | _ => None end)
    by (unfold checking; by rewrite Hi).
  set (t0 := tick (world s)). set (l0 := idle (world s)). set (g := checking i s) in *.
  assert (Hrun : ∀ (Q : nat → progress (answer C E) (task C) → Prop), checks l0 t0 (poll_task cfg i t) Q →
    poll_task cfg i t s.(world) = Val (r, w) → Q w.(tick) r).
  { intros Q HQ Hr. by destruct (HQ _ _ _ (Nat.le_refl _) (λ _ H, H) Hr) as (_ & _ & ?). }
  destruct t as [f|f|f]; simpl.
  - apply Hrun. eapply checks_bind; [apply (checks_poll_get cfg t0 l0 g t0 i f); [done|by destruct f]|].
    intros [[p|e]|f'] t1 Ht1 Hr; apply checks_ret; intros t2 Ht2; simpl in *; [by eapply lease_fit_later|done|].
    destruct f' as [|st]; [done|by eapply state_fit_later].
  - apply Hrun. eapply checks_bind; [apply (checks_poll_try cfg t0 l0 g t0 f); [done|by destruct f]|].
    intros [[[p|]|e]|f'] t1 Ht1 Hr; apply checks_ret; intros t2 Ht2; simpl in *; try done; [by eapply lease_fit_later|].
    destruct f' as [|h|h]; try done. destruct Hr as (conn & Hh & Ho). exists conn.
    split; [done|]. by eapply on_trial_later.
  - unfold mbind, St_bind. destruct (poll_warm cfg f (world s)) as [[r0 w1]| |]; [|done..].
    intros [= <- <-]. by destruct r0 as [[n|e]|f'].
Qed.
End thread.

(** C12: a lease is fit for use.  In every reachable state each lease holds a connection, so
    its holder can always reach it; and a lease that a poll hands out is of a connection
    dialled in that poll, or taken off the idle list in it without having expired by then, or
    under validation since an earlier poll; the last, and with [test_on_check_out] the second,
    only after [is_valid] has just accepted it.  A connection a poll leaves under validation
    was taken off the idle list in the same way. *)
Theorem leases_fit {C E} {F : Features} {R : Runtime} {RL : RuntimeLaws R}
    {M : ManageConnection C E} cfg (s : Sys C E) i s' :
  config_ok cfg → reachable cfg s → exec cfg (PollTask i) s = Some (Val s') →
  let t0 := s.(world).(tick) in let t1 := s'.(world).(tick) in
  let l0 := s.(world).(idle) in let g := checking i s in
  (∀ j p, s.(leases) !! j = Some p → ∃ c, deref p = Val c) ∧
  (∀ p, s'.(leases) !! i = Some p → ∃ conn, p = mkPooled (Some conn) ∧ fit cfg t0 l0 g t1 conn) ∧
  (∀ conn, checking i s' = Some conn → on_trial cfg t0 l0 g t1 conn).
Proof.
  intros Hcfg Hs Hex t0 t1 l0 g. destruct (reachable_inv cfg Hcfg s Hs) as [Ho _]. split.
  { intros j p Hp. destruct (ow_leases _ _ Ho j p Hp) as [conn ->]. by eexists. }
  simpl in Hex. apply bind_Some in Hex as (t & Hi & [= Hex]).
  assert (Hl : s.(leases) !! i = None) by (eapply (ow_fresh _ _ Ho); eauto).
  unfold run_on in Hex. destruct (poll_task cfg i t (world s)) as [[r w]| |] eqn:Hr; simplify_eq.
  pose proof (poll_task_fit cfg s i t r w Hi Hr) as Hfit. fold t0 l0 g in Hfit.
  unfold t1, checking. destruct r as [[p| |n|e]|t']; simpl in *;
    rewrite ?Hl, ?lookup_insert_eq, ?lookup_delete_eq; (split; [|try done]).
  - by intros p' [= <-].
  - done.
  - done.
  - done.
  - done.
  - intros conn. destruct t' as [[|st]|[|h|h]|f]; simpl; try done.
    + destruct st as [|st wt h| |]; simpl; try done. intros Hh. destruct Hfit as (conn' & Hh' & Ht). congruence.
    + intros Hh. destruct Hfit as (conn' & Hh' & Ht). congruence.
Qed.

#[local] Existing Instances demo_features plain_runtime demo_manager.

(** The parked checkout takes the connection that has come back, validating it first. *)
Definition trial_config : PoolConfig :=
  mkConfig 2 1 (from_secs 30) (Some (from_secs 600)) (Some (from_secs 1800)) true true.
Definition trial_returned : Sys N string :=
  default demo_start (run trial_config
    [Spawn 0 CallGet; PollTask 0; Spawn 1 CallGet; PollTask 1; Spawn 2 CallGet; PollTask 2; DropLease 0]
    demo_start).

Definition trial_served : Sys N string :=
  default demo_start (run trial_config [PollTask 2] trial_returned).
Definition trial_conn : Conn N :=
  match trial_returned.(world).(idle) with conn :: _ => conn | [] => mkConn 0 0 0 end.

#[local] Lemma pooled_inj {C} (a b : Conn C) : mkPooled (Some a) = mkPooled (Some b) → a = b.
Proof. by intros [= ->]. Qed.

Lemma leases_fit_witness :
  trial_served.(leases) !! 2%nat = Some (mkPooled (Some trial_conn)) ∧
  fit trial_config trial_returned.(world).(tick) trial_returned.(world).(idle) (checking 2 trial_returned)
    trial_served.(world).(tick) trial_conn.
Proof.
  pose proof (demo_runtime_laws None : RuntimeLaws plain_runtime) as Hlaws.
  assert (Hserved : trial_served.(leases) !! 2%nat = Some (mkPooled (Some trial_conn))) by (vm_compute; reflexivity).
  split; [exact Hserved|].
  destruct (leases_fit trial_config trial_returned 2 trial_served) as (_ & Hp & _).
  - by split.
  - apply (run_reachable trial_config
      [Spawn 0 CallGet; PollTask 0; Spawn 1 CallGet; PollTask 1; Spawn 2 CallGet; PollTask 2; DropLease 0]
      demo_start); [apply reach_init|vm_compute; reflexivity].
  - vm_compute. reflexivity.
  - destruct (Hp _ Hserved) as (conn & Heq & Hfit). rewrite (pooled_inj _ _ Heq). exact Hfit.
Defined.

(** ** The timeout counter *)

(** [c] leaves counter [k] as it was. *)
Class Spares {C A} (k : counter) (c : St (World C) A) : Prop :=
  spares w a w' : c w = Val (a, w') → load k w'.(metrics) = load k w.(metrics).

Section spares.
Context {C : Type} {F : Features} {R : Runtime} (k : counter).

#[global] Instance spares_ret {A} (a : A) : Spares (C := C) k (mret a).
Proof. by intros w b w' [= _ <-]. Qed.
#[global] Instance spares_bind {A B} (c : St (World C) A) (f : A → St (World C) B) :
  Spares k c → (∀ a, Spares k (f a)) → Spares k (c ≫= f) | 10.
Proof.
  intros Hc Hf w b w' Hr. unfold mbind, St_bind in Hr.
  destruct (c w) as [[a w1]| |] eqn:Ha; [|done..]. rewrite (Hf a _ _ _ Hr). by eapply Hc.
Qed.
#[global] Instance spares_gets {A} (f : World C → A) : Spares k (gets f).
Proof. by intros w b w' [= _ <-]. Qed.
#[global] Instance spares_lift {A} (o : outcome A) : Spares (C := C) k (lift o).
Proof. intros w b w'. unfold lift. by destruct o; [intros [= _ <-]|..]. Qed.
#[global] Instance spares_no_fuel {A} : Spares (C := C) (A := A) k no_fuel.
Proof. by intros w b w'. Qed.
#[global] Instance spares_panic {A} : Spares (C := C) (A := A) k panic.
Proof. by intros w b w'. Qed.
#[global] Instance spares_when b (c : St (World C) unit) : Spares k c → Spares k (when b c).
Proof. destruct b; [done|]. intros _. apply spares_ret. Qed.
Lemma spares_modify (f : World C → World C) :
  (∀ w, load k (f w).(metrics) = load k w.(metrics)) → Spares k (modify f).
Proof. intros Hf w b w' [= _ <-]. apply Hf. Qed.
Lemma spares_metric f : (∀ m, load k (f m) = load k m) → Spares (C := C) k (metric f).
Proof. intros Hf. apply spares_when, spares_modify. intros []. apply Hf. Qed.
End spares.

#[export] Hint Extern 3 (Spares _ (match ?x with _ => _ end)) => destruct x : typeclass_instances.
#[export] Hint Extern 3 (Spares _ (modify _)) =>
  apply spares_modify; intros []; reflexivity : typeclass_instances.
#[export] Hint Extern 3 (Spares GetTimedOut (metric _)) =>
  apply spares_metric; intros []; reflexivity : typeclass_instances.

Section spared.
Context {C E : Type} {F : Features} {R : Runtime} {M : ManageConnection C E}.
Context (cfg : PoolConfig).
Abbreviation Untimed c := (Spares GetTimedOut c).

#[local] Hint Extern 4 (Spares _ ?c) =>
  let h := command_of c in progress (unfold h) : typeclass_instances.

#[global] Instance wake_untimed n : Untimed (wake (C := C) n).
Proof. unfold wake. induction (N.to_nat n) as [|m IH]; simpl; apply _. Qed.
#[global] Instance note_expired_untimed reason : Untimed (note_expired (C := C) reason).
Proof. destruct reason; apply _. Qed.
#[global] Instance fresh_loop_untimed fuel t : Untimed (fresh_loop (C := C) cfg fuel t).
Proof. induction fuel; simpl; apply _. Qed.
#[global] Instance record_acquire_untimed waited start : Untimed (record_acquire (C := C) waited start).
Proof. apply _. Qed.
#[global] Instance drop_get_inner_untimed s : Untimed (drop_get_inner (C := C) s).
Proof. apply _. Qed.
#[global] Instance get_loop_untimed fuel wk start waited :
  Untimed (get_loop (C := C) cfg fuel wk start waited).
Proof. revert waited. induction fuel; intros waited; simpl; apply _. Qed.

(** Only [get] itself counts timeouts. *)
#[global] Instance poll_get_inner_untimed wk s : Untimed (poll_get_inner (C := C) cfg wk s).
Proof. apply _. Qed.

(** A poll on which the deadline fires: [get] has timed out and that is counted, unless the
    deadline is looked at last and what it bounds has just finished. *)
Lemma poll_timed_fired wk st (w w' : World C) r :
  poll_timed cfg wk (Some st) w = Val (r, w') → timer cfg.(connection_timeout) w.(tick) ≠ Not_elapsed →
  r = Done (Err TimedOut) ∧
    (feature_metrics = true → load GetTimedOut w'.(metrics) = fetch_add64 (load GetTimedOut w.(metrics)) 1) ∨
  timer cfg.(connection_timeout) w.(tick) = Fires_after ∧
    (∃ a, r = Done a ∧ a ≠ Err TimedOut) ∧ load GetTimedOut w'.(metrics) = load GetTimedOut w.(metrics).
Proof.
  intros Hr Hfire. unfold poll_timed in Hr. unfold mbind at 1, St_bind at 1 in Hr. rewrite ask_books in Hr.
  assert (Ht : load GetTimedOut (next_tick w).(metrics) = load GetTimedOut w.(metrics)) by (by destruct w).
  assert (Hout : ∀ w1, load GetTimedOut w1.(metrics) = load GetTimedOut w.(metrics) →
    get_timed_out_now w1 = Val (r, w') → r = Done (Err TimedOut) ∧
    (feature_metrics = true → load GetTimedOut w'.(metrics) = fetch_add64 (load GetTimedOut w.(metrics)) 1)).
  { intros w1 Hw1. unfold get_timed_out_now, metric, when, mbind, St_bind, modify, mret, St_ret, skip.
    destruct feature_metrics; intros [= <- <-]; (split; [done|]); [intros _|done].
    rewrite <-Hw1. destruct w1 as [i s [] q c t l]. done. }
  destruct (timer _ _) eqn:Hv; [done| |].
  - left. unfold mbind, St_bind in Hr. destruct (drop_get_inner st (next_tick w)) as [[[] w1]| |] eqn:Hd; [|done..].
    eapply Hout; [|exact Hr]. by rewrite (spares _ _ _ Hd).
  - unfold mbind at 1, St_bind at 1 in Hr.
    destruct (poll_get_inner cfg wk (Some st) (next_tick w)) as [[r1 w1]| |] eqn:Hp; [|done..].
    pose proof (spares _ _ _ Hp) as Hw1. rewrite Ht in Hw1. destruct r1 as [a|st'].
    + right. injection Hr as <- <-. split; [done|]. split; [|done]. exists a. split; [done|]. intros ->.
      destruct (checks_poll_get_inner cfg (tick w) (idle (next_tick w)) (state_guard st) (tick w) wk (Some st))
        with (next_tick w) (Done (Err TimedOut) : progress (result (PooledConnection C) (RunError E)) (get_state C)) w1
        as (_ & _ & Hne); [done|by intros s' [= <-]|by destruct w; simpl; lia|done|done|done].
    + left. unfold mbind, St_bind in Hr. destruct (drop_get_inner st' w1) as [[[] w2]| |] eqn:Hd; [|done..].
      eapply Hout; [|exact Hr]. by rewrite (spares _ _ _ Hd).
Qed.
End spared.
