(* ===== verification/Queue.v ===== *)
(** The waiter queue against its contract: a plain FIFO of (id, waker) pairs, with
    no watermark and no search, answers every sequence of calls the way
    [Waiters] does ([src/src/pool.rs]). *)

From Stdlib Require Import Sorting.Sorted.
From S2P Require Import Prelude Manage Builder Metrics Store Waiters Scenario.

(** The four calls the pool makes on its queue, and what they answer. *)
Inductive qcall :=
| QRegister (id : option N) (waker : Waker) | QUnregister (id : N) | QWake (n : N) | QWakeAll.
Inductive qanswer := AId (id : option N) | AQueued (b : bool) | ADone.

(** ** The contract *)

Record Fifo := mkFifo { fifo_next : N; fifo_list : list (N * Waker); fifo_woken : list (N * Waker) }.

Definition fifo_call (c : qcall) (f : Fifo) : qanswer * Fifo :=
  let '(mkFifo nx l woken) := f in
  match c with
  | QRegister id wk =>
      if decide (fifo_queued id l)
      then (AId id, mkFifo nx (fifo_refresh (default 0 id) wk l) woken)
      else (AId (Some nx), mkFifo (nx + 1) (l ++ [(nx, wk)]) woken)
  | QUnregister id => (AQueued (bool_decide (id ∈ l.*1)), mkFifo nx (fifo_remove id l) woken)
  | QWake n => (ADone, mkFifo nx (drop (N.to_nat n) l) (woken ++ take (N.to_nat n) l))
  | QWakeAll =>
      (* everybody, as long as a [u32] can count them *)
      if len l <=? u32_max then (ADone, mkFifo nx [] (woken ++ l))
      else (ADone, mkFifo nx (drop (N.to_nat u32_max) l) (woken ++ take (N.to_nat u32_max) l))
  end.

(** The calls a client may make: it names only ids it holds, gives one up when it
    unregisters it, and holds what a registration answers instead of what it
    asked with. *)
Definition holds_after (c : qcall) (a : qanswer) (X : gset N) : gset N :=
  match c, a with
  | QRegister id _, AId id' =>
      match id' with Some i => {[i]} | None => ∅ end ∪
      X ∖ match id with Some i => {[i]} | None => ∅ end
  | QUnregister id, _ => X ∖ {[id]}
  | _, _ => X
  end.
Definition may_call (c : qcall) (X : gset N) : Prop :=
  match c with
  | QRegister (Some id) _ | QUnregister id => id ∈ X
  | _ => True
  end.

Fixpoint fifo_run (cs : list qcall) (f : Fifo) : list qanswer * Fifo :=
  match cs with
  | [] => ([], f)
  | c :: cs => let '(a, f) := fifo_call c f in
               let '(l, f) := fifo_run cs f in (a :: l, f)
  end.

Fixpoint legal (cs : list qcall) (X : gset N) (f : Fifo) : Prop :=
  match cs with
  | [] => True
  | c :: cs => may_call c X ∧ legal cs (holds_after c (fifo_call c f).1 X) (fifo_call c f).2
  end.

(** ** The implementation *)

Section refine.
Context {C : Type} `{Features} `{Runtime}.
Implicit Types w : World C.

Definition queue_call (c : qcall) : St (World C) qanswer :=
  match c with
  | QRegister id wk => r ← register id wk; mret (AId r)
  | QUnregister id => b ← unregister id; mret (AQueued b)
  | QWake n => wake n;; mret ADone
  | QWakeAll => wake_all;; mret ADone
  end.

Fixpoint queue_run (cs : list qcall) : St (World C) (list qanswer) :=
  match cs with
  | [] => mret []
  | c :: cs => a ← queue_call c; l ← queue_run cs; mret (a :: l)
  end.

(** The queue of [w] implements [f] for the holders of [X]. *)
Record implements (X : gset N) w (f : Fifo) : Prop := {
  im_inv : wait_inv X w.(waiters);
  im_next : w.(waiters).(next_id) = f.(fifo_next);
  im_list : w.(waiters).(entries) = f.(fifo_list);
  im_woken : w.(wakes) = f.(fifo_woken)
}.

Lemma queue_call_refines X c w f :
  implements X w f → may_call c X → f.(fifo_next) + 1 < U64 →
  wp (queue_call c) (λ a w', a = (fifo_call c f).1 ∧
    implements (holds_after c a X) w' (fifo_call c f).2) w.
Proof.
  intros [HI Hn Hl Hk] Hmay Hnx. destruct f as [nx l woken]; simpl in *. subst nx l woken.
  destruct c as [id wk|id|n|]; simpl; wp_step; unfold wp.
  - rewrite (register_run X) by done. destruct id as [id|]; simpl.
    + case_decide as Hq; simpl; (split; [done|]).
      * replace ({[id]} ∪ X ∖ {[id]}) with X by (apply union_difference_singleton_L; done).
        split; [|by destruct w..]. destruct w; by apply wait_inv_refresh.
      * split; [|by destruct w..]. destruct w as [i s m q c t k]; simpl in *.
        apply wait_inv_push. apply wait_inv_forget; [by destruct q|done].
    + split; [done|]. split; [|by destruct w..]. destruct w as [i s m q c t k]; simpl in *.
      rewrite (difference_empty_L X). apply wait_inv_push. by destruct q.
  - rewrite (unregister_run X) by done. simpl. case_decide as Hq; (split; [done|]).
    + split; [|by destruct w..]. destruct w as [i s m q c t k]; simpl in *.
      apply wait_inv_remove. by destruct q.
    + rewrite fifo_remove_none by done. split; [|done..]. by apply wait_inv_forget.
  - rewrite wake_run. simpl. split; [done|].
    split; rewrite ?woken_world_waiters, ?woken_world_wakes; try done. by apply wait_inv_woken.
  - rewrite wake_all_run. simpl. assert (Him : ∀ n, implements X (woken_world n w)
      (mkFifo w.(waiters).(next_id) (drop n w.(waiters).(entries)) (w.(wakes) ++ take n w.(waiters).(entries)))).
    { intros n. split; rewrite ?woken_world_waiters, ?woken_world_wakes; try done. by apply wait_inv_woken. }
    destruct (N.leb_spec (len (entries (waiters w))) u32_max) as [Hle|Hgt]; simpl; (split; [done|]).
    + rewrite N.min_l by done. unfold len. rewrite Nat2N.id.
      specialize (Him (length (entries (waiters w)))). by rewrite drop_all, firstn_all in Him.
    + rewrite N.min_r by lia. apply Him.
Qed.

Lemma fifo_call_next c f : (fifo_call c f).2.(fifo_next) ≤ f.(fifo_next) + 1.
Proof. destruct f, c; simpl; try lia; [case_decide|destruct (_ <=? _)]; simpl; lia. Qed.
End refine.

(** C11: the queue refines a FIFO.  Every sequence of registrations, removals, wakes of some
    and wakes of all that names only ids its client holds is answered by [Waiters] exactly as
    by the plain queue: the same ids, the same verdicts, the same wakers woken in the same
    order, and the same queue left. *)
Theorem queue_refines_fifo {C} `{Features} `{Runtime} (cs : list qcall) X (w : World C) f :
  implements X w f → legal cs X f → f.(fifo_next) + len cs < U64 →
  wp (queue_run cs) (λ l w', l = (fifo_run cs f).1 ∧
    w'.(waiters).(entries) = (fifo_run cs f).2.(fifo_list) ∧
    w'.(wakes) = (fifo_run cs f).2.(fifo_woken)) w.
Proof.
  revert X w f. induction cs as [|c cs IH]; intros X w f Him Hleg Hnx; simpl.
  { wp_steps. by destruct Him. }
  destruct Hleg as [Hmay Hleg]. rewrite len_cons in Hnx. wp_step.
  wp_apply (queue_call_refines X) as a w1 [-> Him1]; [done|done|lia|].
  pose proof (fifo_call_next c f). destruct (fifo_call c f) as [a f1] eqn:Hc. simpl in *.
  wp_step. wp_apply IH as l w2 (-> & Hl & Hk); [done|done|lia|].
  wp_steps. by destruct (fifo_run cs f1).
Qed.

#[local] Existing Instances demo_features plain_runtime.

Definition demo_calls : list qcall :=
  [QRegister None 7%nat; QRegister None 8%nat; QRegister (Some 1) 9%nat; QWake 1; QUnregister 2;
   QRegister None 6%nat; QRegister None 5%nat; QWakeAll].

(** Two futures queue, the first changes its waker and is woken, the second leaves; two more
    queue and all are woken. *)
Lemma queue_refines_fifo_witness :
  let w := world_new (C := N) false 0 in
  wp (queue_run demo_calls) (λ l w', l = [AId (Some 1); AId (Some 2); AId (Some 1); ADone; AQueued true;
      AId (Some 3); AId (Some 4); ADone] ∧
    w'.(waiters).(entries) = [] ∧ w'.(wakes) = [(1, 9%nat); (3, 6%nat); (4, 5%nat)]) w.
Proof.
  intros w. refine (queue_refines_fifo demo_calls ∅ w (mkFifo 1 [] []) _ _ _).
  - split; [apply wait_inv_new|reflexivity..].
  - vm_compute. repeat split; by vm_compute.
  - vm_compute. reflexivity.
Defined.

(** The search.  On a queue in id order [binary_search] finds the position of an id
    that is there, and only that, and reports every id that is not. *)
Theorem binary_search_exact ks x :
  StronglySorted N.lt ks →
  (∀ i, binary_search ks x = Ok i ↔ ks !! i = Some x) ∧
  (x ∉ ks → ∃ i, binary_search ks x = Err i).
Proof. intros Hs. split; [intros i; by apply binary_search_ok|by apply binary_search_err]. Qed.

Lemma binary_search_exact_witness :
  binary_search [2; 3; 5; 8; 13] 8 = Ok 3%nat ∧ ∃ i, binary_search [2; 3; 5; 8; 13] 6 = Err i.
Proof.
  assert (Hs : StronglySorted N.lt [2; 3; 5; 8; 13]) by (repeat constructor).
  split.
  - apply (binary_search_exact [2; 3; 5; 8; 13] 8 Hs). vm_compute. reflexivity.
  - apply (binary_search_exact [2; 3; 5; 8; 13] 6 Hs). set_solver by lia.
Defined.
