(* ===== verification/Behaviour.v ===== *)
(** What each call does, branch by branch: checkouts, returns, housekeeping,
    the expiry rule and the closed pool. *)

From S2P Require Import Prelude Manage Builder Metrics Store Waiters Inner Local Effects Futures Scenario.

#[local] Existing Instances demo_features plain_runtime demo_manager.

(** A store with the given idle connections, and one slot more than those. *)
Definition demo_world (l : list (Conn N)) (shut : bool) : World N :=
  mkWorld l (len l + 1) metrics_default waiters_new shut 100 [].

(** With these limits, at 0.1 s, when that store is looked at, the first connection
    is past its lifetime and the second is fresh. *)
Definition brief_config : PoolConfig :=
  mkConfig 4 3 (from_secs 30) (Some (from_millis 40)) (Some (from_millis 80)) false true.
Definition demo_old : Conn N := mkConn 2 0 (from_millis 90).
Definition demo_new : Conn N := mkConn 1 (from_millis 50) (from_millis 90).

(** Expiry.  A connection past [max_lifetime] is closed for its age, idle too long
    or not; one past [idle_timeout] only is closed for idling; otherwise it is kept; and
    an expired connection stays expired. *)
Theorem expiry_exact {C} (cfg : PoolConfig) (c : Conn C) (t t' : Instant) :
  t ≤ t' →
  (expiry c t cfg = Some MaxLifetime ↔ too_old cfg c t) ∧
  (expiry c t cfg = Some IdleTimeout ↔ ¬ too_old cfg c t ∧ too_idle cfg c t) ∧
  (expiry c t cfg = None ↔ ¬ too_old cfg c t ∧ ¬ too_idle cfg c t) ∧
  (is_Some (expiry c t cfg) → is_Some (expiry c t' cfg)).
Proof.
  intros Hle. pose proof (expiry_cases cfg c t) as Hc. split_and!; [..|by apply expiry_mono];
    destruct (expiry c t cfg) as [[]|]; naive_solver.
Qed.

Lemma expiry_exact_witness :
  expiry (mkConn 7 0 0) (from_secs 1800) demo_config = Some MaxLifetime ∧
  is_Some (expiry (mkConn 7 0 0) (from_secs 1801) demo_config).
Proof.
  split; [vm_compute; reflexivity|].
  assert (Hle : from_secs 1800 ≤ from_secs 1801) by (vm_compute; discriminate).
  apply (expiry_exact demo_config (mkConn 7 0 0) (from_secs 1800) (from_secs 1801) Hle).
  vm_compute. eauto.
Defined.

(** LIFO reuse.  Popping the idle list hands out the newest connection that has not
    expired; those newer than it had expired and are closed, each charged to its reason
    and its slot given back; the older ones are not looked at.  When every connection
    has expired the list ends up empty. *)
Theorem pop_fresh_idle_newest {C} {F : Features} {R : Runtime} cfg (w : World C) :
  let t := instant_now w.(tick) in
  wp (pop_fresh_idle cfg) (λ r w', ∃ rest dead,
    Forall (λ c, expiry c t cfg ≠ None) dead ∧
    leaves (reasons cfg t (rev dead)) rest (w.(slots) - len dead) w w' ∧
    match r with
    | Some h => ∃ conn, h = mkHeld (Some conn) false ∧ expiry conn t cfg = None ∧
                        w.(idle) = rest ++ conn :: dead
    | None => rest = [] ∧ w.(idle) = dead
    end) w.
Proof.
  intros t. unfold pop_fresh_idle. wp_step. apply wp_now_leaves. intros w1 H1 _ _. wp_steps.
  wp_apply fresh_loop_leaves as r w2 (rest & dead & Hd & H2 & Hr); [lia|].
  exists rest, dead. destruct (H1) as [Hi Hs _]. rewrite Hi, Hs in *.
  split_and!; [done|by apply (leaves_app [] _ _ _ _ _ _ _ _ H1 H2)|done].
Qed.

(** C15: the fast path.  On an open pool that does not validate on checkout, [get] returns
    the newest fresh idle connection in its first poll, as a direct checkout, without
    starting its timeout or touching the queue. *)
Theorem get_reuses_newest {C E} {F : Features} {R : Runtime} {M : ManageConnection C E}
    cfg wk (w : World C) rest conn dead :
  let t := instant_now (S w.(tick)) in
  cfg.(test_on_check_out) = false → w.(closed) = false → close_seen w.(tick) = false →
  w.(idle) = rest ++ conn :: dead → expiry conn t cfg = None →
  Forall (λ c, expiry c t cfg ≠ None) dead →
  wp (poll_get (E:=E) cfg wk GetNew) (λ r w', r = Done (Ok (mkPooled (Some conn))) ∧
    leaves (reasons cfg t (rev dead) ++ [(GetDirect, 1)]) rest (w.(slots) - len dead) w w') w.
Proof.
  intros t Hv Hc Hs Hi He Hd. unfold poll_get. wp_step. apply wp_load_closed_leaves.
  rewrite Hc, Hs. intros w1 H1 Ht1 _ _ _. simpl. rewrite Hv. simpl. wp_step.
  unfold pop_fresh_idle. wp_step. apply wp_now_leaves. intros w2 H2 _ _. wp_steps.
  pose proof (leaves_keep _ _ _ _ _ _ H1 H2) as H02. destruct (H02) as [Hi2 Hs2 _].
  wp_apply (fresh_loop_newest cfg _ _ rest conn dead) as r w3 [-> H3];
    [lia|by rewrite Hi2|by rewrite Ht1|by rewrite Ht1|].
  rewrite Hs2, Ht1 in H3. fold t in H3.
  pose proof (leaves_app _ _ _ _ _ _ _ _ _ H02 H3) as H03. simpl in H03.
  wp_step. apply wp_now_leaves. intros w4 H4 _ _. pose proof (leaves_keep _ _ _ _ _ _ H03 H4) as H04.
  wp_step. unfold checked_out. wp_step. wp_apply record_direct_leaves as [] w5 H5.
  unfold into_pooled, drop_held. wp_steps. split; [done|].
  destruct (H04) as [-> -> _] in H5. by eapply leaves_app.
Qed.

(** Connection 2 has outlived its lifetime and is closed; connection 1 is handed out. *)
Lemma get_reuses_newest_witness :
  wp (poll_get (E:=string) brief_config 0 GetNew) (λ r w', r = Done (Ok (mkPooled (Some demo_new))) ∧
    leaves [(ClosedMaxLifetime, 1); (GetDirect, 1)] [] 2 (demo_world [demo_new; demo_old] false) w')
    (demo_world [demo_new; demo_old] false).
Proof.
  refine (get_reuses_newest (E:=string) brief_config 0 (demo_world [demo_new; demo_old] false) []
    demo_new [demo_old] _ _ _ _ _ _); try (vm_compute; reflexivity).
  constructor; [vm_compute; discriminate|constructor].
Defined.

(** C16: a closed pool hands nothing out.  Once the flag reads set, [get] and [try_get]
    fail with [Closed], [warm] dials nothing, and none of them touches a slot, the idle
    list or a counter. *)
Theorem closed_pool_refuses {C E} {F : Features} {R : Runtime} {M : ManageConnection C E}
    cfg wk (w : World C) :
  w.(closed) || close_seen w.(tick) = true →
  wp (poll_get (E:=E) cfg wk GetNew)
    (λ r w', r = Done (Err Closed) ∧ leaves [] w.(idle) w.(slots) w w') w ∧
  wp (poll_try (E:=E) cfg TryNew)
    (λ r w', r = Done (Err Closed) ∧ leaves [] w.(idle) w.(slots) w w') w ∧
  wp (poll_warm (E:=E) cfg WarmNew)
    (λ r w', r = Done (Ok 0) ∧ leaves [] w.(idle) w.(slots) w w') w.
Proof.
  intros Hc. split_and!; [unfold poll_get|unfold poll_try|unfold poll_warm, warm_start];
    wp_step; apply wp_load_closed_leaves; rewrite Hc; intros w1 H1 _ _ _ _; by wp_steps.
Qed.

Lemma closed_pool_refuses_witness :
  wp (poll_get (E:=string) brief_config 0 GetNew)
    (λ r w', r = Done (Err Closed) ∧ leaves [] [demo_new] 2 (demo_world [demo_new] true) w')
    (demo_world [demo_new] true).
Proof.
  apply (closed_pool_refuses (E:=string) brief_config 0 (demo_world [demo_new] true) eq_refl).
Defined.

(** C14: the return of a lease.  A dropped lease is closed when the pool is closed, when
    the manager says it broke, or when it has expired (in that order, each on its own
    counter, the slot given back); otherwise it goes back to the end of the idle list,
    last used now. *)
Theorem return_decides {C E} {F : Features} {R : Runtime} {M : ManageConnection C E}
    cfg (conn : Conn C) (w : World C) :
  let shut := w.(closed) || close_seen w.(tick) in
  let broke := has_broken (S w.(tick)) conn.(raw) in
  let conn' := mkConn broke.2 conn.(created_at) conn.(last_used) in
  let t := instant_now (S (S w.(tick))) in
  let t' := instant_now (S (S (S w.(tick)))) in
  let closes k := λ (_ : unit) w', leaves [(k, 1)] w.(idle) (w.(slots) - 1) w w' in
  wp (pooled_drop cfg (mkPooled (Some conn)))
    (if shut then closes ClosedManual
     else if broke.1 then closes ClosedBroken
     else match expiry conn' t cfg with
          | Some reason => closes (expiry_counter reason)
          | None => λ _ w', leaves [] (w.(idle) ++ [mkConn broke.2 conn.(created_at) t']) w.(slots) w w'
          end) w.
Proof.
  cbn beta zeta. eapply wp_mono; [apply pooled_drop_leaves|]. intros [] w'. unfold fate.
  destruct (closed w || _); [done|]. destruct (has_broken _ _) as [[] raw']; [done|].
  cbn [fst snd]. by destruct (expiry _ _ cfg).
Qed.

(** C19: reaping.  [reap] closes exactly the idle connections that have expired, gives
    back one slot each, charges each to its reason and returns their number; the others
    stay in the order they were in. *)
Theorem reap_exact {C} {F : Features} {R : Runtime} cfg (w : World C) :
  len w.(idle) < U32 →
  let t := instant_now w.(tick) in
  let expired := filter (λ c, expiry c t cfg ≠ None) w.(idle) in
  wp (reap cfg) (λ r w', r = len expired ∧
    leaves (reasons cfg t w.(idle)) (filter (λ c, expiry c t cfg = None) w.(idle))
      (w.(slots) - len expired) w w') w.
Proof. apply reap_leaves. Qed.

Lemma reap_exact_witness :
  wp (reap brief_config) (λ r w', r = 1 ∧
    leaves [(ClosedMaxLifetime, 1)] [demo_new] 2 (demo_world [demo_new; demo_old] false) w')
    (demo_world [demo_new; demo_old] false).
Proof.
  refine (reap_exact brief_config (demo_world [demo_new; demo_old] false) _). vm_compute. reflexivity.
Defined.

(** Clearing.  [clear] empties the idle list, gives all its slots back, counts every
    connection as closed by hand and returns their number. *)
Theorem clear_exact {C} {F : Features} {R : Runtime} (w : World C) :
  len w.(idle) < U32 →
  wp clear (λ r w', r = len w.(idle) ∧
    leaves (if 0 <? len w.(idle) then [(ClosedManual, len w.(idle))] else [])
      [] (w.(slots) - len w.(idle)) w w') w.
Proof. apply clear_leaves. Qed.

Lemma clear_exact_witness :
  wp clear (λ r w', r = 2 ∧
    leaves [(ClosedManual, 2)] [] 1 (demo_world [demo_new; demo_old] false) w')
    (demo_world [demo_new; demo_old] false).
Proof.
  refine (clear_exact (demo_world [demo_new; demo_old] false) _). vm_compute. reflexivity.
Defined.

(** [take] hands the raw connection to the caller and frees its slot: nothing is
    parked, counted as closed, or released twice by the emptied lease's own drop. *)
Theorem take_detaches {C E} {F : Features} {R : Runtime} {M : ManageConnection C E}
    cfg (conn : Conn C) (w : World C) :
  wp (Local.take cfg (mkPooled (Some conn))) (λ r w', r = conn.(raw) ∧
    leaves [] w.(idle) (w.(slots) - 1) w w') w.
Proof. apply take_leaves. Qed.

(** [try_get] never waits.  With nothing idle and no slot free it answers [None] in
    its first poll: nothing is queued, dialled, counted or reserved. *)
Theorem try_get_never_waits {C E} {F : Features} {R : Runtime} {M : ManageConnection C E}
    cfg (w : World C) :
  w.(closed) = false → close_seen w.(tick) = false → w.(idle) = [] → cfg.(max_size) ≤ w.(slots) →
  cfg.(max_size) < U32 →
  wp (poll_try (E:=E) cfg TryNew) (λ r w', r = Done (Ok None) ∧
    leaves [] [] w.(slots) w w' ∧ w'.(waiters) = w.(waiters) ∧ w'.(wakes) = w.(wakes)) w.
Proof.
  intros Hc Hs Hi Hfull Hmax. destruct w as [i s m q c t l]; simpl in *. subst i c.
  unfold poll_try, load_closed. wp_step. wp_step. apply wp_ask. wp_steps. simpl.
  rewrite Hs. simpl. wp_step. unfold get_fuel. wp_steps. simpl.
  wp_step. unfold pop_fresh_idle, now. wp_step. apply wp_ask. wp_steps. simpl.
  wp_step. unfold pop_idle. wp_steps. simpl. wp_steps.
  unfold try_reserve, connections. wp_steps. simpl.
  destruct (N.ltb_spec s (max_size cfg)); [lia|]. wp_steps.
  split_and!; [done| |done|done]. split; [done..|]. by apply noted_nil.
Qed.

Lemma try_get_never_waits_witness :
  wp (poll_try (E:=string) brief_config TryNew) (λ r w', r = Done (Ok None) ∧
    leaves [] [] 4 (mkWorld [] 4 metrics_default waiters_new false 7 []) w' ∧
    w'.(waiters) = waiters_new ∧ w'.(wakes) = [])
    (mkWorld [] 4 metrics_default waiters_new false 7 []).
Proof.
  refine (try_get_never_waits (E:=string) brief_config
    (mkWorld [] 4 metrics_default waiters_new false 7 []) _ _ _ _ _);
    try (vm_compute; reflexivity). vm_compute. discriminate.
Defined.

(** C25: a failed dial.  When [connect] fails, the reserved slot is given back first; then
    [get] backs off to try again if it is configured to and the pool is open, and
    otherwise fails with the manager's own error. *)
Theorem dial_failure {C E} {F : Features} {R : Runtime} {RL : RuntimeLaws R}
    {M : ManageConnection C E} cfg wk (w : World C) start waited h (e : E) :
  h.(released) = false → connect w.(tick) = Ready (Err e) →
  let shut := w.(closed) || close_seen (S w.(tick)) in
  wp (poll_get_inner cfg wk (Some (GConnect start waited h)))
    (λ r w', leaves [] w.(idle) (w.(slots) - 1) w w' ∧
       r = if cfg.(retry_connection) && negb shut
           then Yield (GBackoff start waited) else Done (Err (User e))) w.
Proof.
  intros Hh Hdial shut. unfold poll_get_inner, get_fuel. wp_step. wp_steps.
  unfold poll_connect. wp_step. apply wp_ask. rewrite Hdial. wp_step.
  assert (Hfree : ∀ w1, leaves [] w.(idle) w.(slots) w w1 →
    wp (drop_held h) (λ _ w', leaves [] w.(idle) (w.(slots) - 1) w w') w1).
  { intros w1 H1. unfold drop_held. rewrite Hh. wp_apply release_slot_leaves as [] w2 H2.
    destruct (H1) as [-> -> _] in H2. by eapply leaves_trans. }
  eapply wp_mono with (Q := λ retry w1, leaves [] w.(idle) w.(slots) w w1 ∧
    retry = retry_connection cfg && negb shut).
  { destruct (retry_connection cfg); [|wp_steps; split; [apply leaves_tick|done]].
    wp_step. apply wp_load_closed_leaves. intros w1 H1 _ _ _ _. wp_steps. split.
    - eapply leaves_keep; [apply leaves_tick|exact H1].
    - unfold shut. by destruct w. }
  intros retry w1 [H1 ->]. destruct (retry_connection cfg && negb shut).
  - wp_step. wp_apply Hfree as [] w2 H2; [done|]. unfold poll_backoff. wp_step. apply wp_ask.
    rewrite sleep_suspends. wp_steps. split; [|done]. eapply leaves_keep; [done|apply leaves_tick].
  - wp_step. wp_apply Hfree as [] w2 H2; [done|]. by wp_steps.
Qed.

(** A manager whose every dial fails. *)
Definition failing_manager : ManageConnection N string := {|
  connect _ := Ready (Err "refused"%string);
  is_valid _ c := (Ready (Ok tt), c);
  has_broken _ c := (false, c)
|}.

Lemma dial_failure_witness :
  wp (poll_get_inner (H1 := failing_manager) brief_config 0
        (Some (GConnect 0 false (mkHeld None false))))
    (λ r w', leaves [] [] 0 (demo_world [] false) w' ∧ r = Yield (GBackoff 0 false))
    (demo_world [] false).
Proof.
  pose proof (demo_runtime_laws None).
  refine (dial_failure (M := failing_manager) brief_config 0 (demo_world [] false) 0 false
    (mkHeld None false) "refused" _ _); reflexivity.
Defined.


(** A manager that always dials at once, on a runtime whose deadlines do not pass
    meanwhile. *)
Definition dials_at_once {C E} {R : Runtime} {M : ManageConnection C E} cfg : Prop :=
  (∀ t, ∃ raw, connect t = Ready (Ok raw)) ∧
  ∀ t, timer cfg.(connection_timeout) t ≠ Fires_before.

#[local] Lemma dial_once {C E} {F : Features} {R : Runtime} {M : ManageConnection C E}
    cfg again made h (w : World C) (Q : progress (result N (RunError E)) (warm_fut C) → World C → Prop) :
  dials_at_once (E:=E) cfg → made + 1 < U32 →
  (∀ conn w', leaves [(ConnectionsCreated, 1)] (w.(idle) ++ [conn]) w.(slots) w w' →
     wp (again (made + 1)) Q w') →
  wp (poll_dial cfg again made h) Q w.
Proof.
  intros [Hdial Htimer] Hmade Hagain. unfold poll_dial. wp_step. apply wp_ask.
  pose proof (leaves_tick w) as H1. set (w1 := next_tick w) in *. clearbody w1.
  assert (Hgo : ∀ v, wp (a ← ask connect;
        match a, v with
        | Ready (Ok raw), _ =>
            t ← now; note_created;; into_idle (fill h raw t);;
            made ← lift (add_u U32 made 1); again made
        | Ready (Err e), _ => drop_held h;; mret (Done (Err (User e)))
        | Pending, Fires_after => drop_held h;; mret (Done (Err TimedOut))
        | Pending, _ => mret (Yield (WarmDial made h))
        end) Q w1).
  { intros v. wp_step. apply wp_ask. destruct (Hdial (tick w1)) as [raw ->].
    pose proof (leaves_keep _ _ _ _ _ _ H1 (leaves_tick w1)) as H2.
    wp_step. apply wp_now_leaves. intros w3 H3 _ _. pose proof (leaves_keep _ _ _ _ _ _ H2 H3) as H03.
    wp_step. apply wp_note_leaves. intros w4 H4 _ _. destruct (H03) as [-> -> _] in H4.
    pose proof (leaves_app _ _ _ _ _ _ _ _ _ H03 H4) as H04. simpl in H04.
    wp_step. wp_apply into_idle_leaves as [] w5 [t H5]; [done|].
    destruct (H04) as [-> -> _] in H5. pose proof (leaves_trans _ _ _ _ _ _ _ _ H04 H5) as H05.
    wp_step. eapply wp_lift; [by apply add_u_small|]. by eapply Hagain. }
  destruct (timer _ _) eqn:Ht; [apply (Hgo Not_elapsed)|by destruct (Htimer (tick w))|apply (Hgo Fires_after)].
Qed.

#[local] Lemma warm_loop_floor {C E} {F : Features} {R : Runtime} {M : ManageConnection C E}
    cfg fuel made (w : World C) :
  dials_at_once (E:=E) cfg → config_ok cfg → len w.(idle) ≤ w.(slots) ≤ cfg.(max_size) →
  cfg.(min_idle) - len w.(idle) < N.of_nat fuel → made + (cfg.(min_idle) - len w.(idle)) < U32 →
  let n := (cfg.(min_idle) - len w.(idle)) `min` (cfg.(max_size) - w.(slots)) in
  wp (warm_loop (E:=E) cfg fuel made) (λ r w', r = Done (Ok (made + n)) ∧
    len w'.(idle) = len w.(idle) + n ∧ w'.(slots) = w.(slots) + n ∧
    (∃ dialled, w'.(idle) = w.(idle) ++ dialled)) w.
Proof.
  intros Hd Hcfg. pose proof (max_size_u32 _ Hcfg) as Hmax.
  revert made w. induction fuel as [|fuel IH]; intros made w Hle Hf Hmade n; [lia|].
  cbn [warm_loop]. unfold idle_len. wp_step. wp_steps. rewrite as_u32_small by lia.
  assert (Hstop : n = 0 → wp (mret (Done (Ok made))) (λ (r : progress (result N (RunError E)) (warm_fut C)) w', r = Done (Ok (made + n)) ∧
    len w'.(idle) = len w.(idle) + n ∧ w'.(slots) = w.(slots) + n ∧
    (∃ dialled, w'.(idle) = w.(idle) ++ dialled)) w).
  { intros ->. wp_steps. rewrite !N.add_0_r. split_and!; [done..|]. exists []. by rewrite app_nil_r. }
  destruct (N.ltb_spec (len (idle w)) (min_idle cfg)) as [Hlt|Hge]; [|apply Hstop; lia].
  wp_step. wp_apply try_reserve_leaves as r w1 Hr; [done|].
  destruct (N.ltb_spec (slots w) (max_size cfg)) as [Hroom|Hfull].
  2: { destruct Hr as [-> ->]. apply Hstop. lia. }
  destruct Hr as [-> [Hi1 Hs1 _]]. apply dial_once; [done|lia|].
  intros conn w2 [Hi2 Hs2 _]. rewrite Hi1 in Hi2. rewrite Hs1 in Hs2.
  assert (len (idle w2) = len (idle w) + 1) as Hl2 by (by rewrite Hi2, len_snoc).
  eapply wp_mono; [apply IH; rewrite Hl2, ?Hs2; lia|]. rewrite Hl2, Hs2.
  intros r w3 (-> & Hl3 & Hs3 & dialled & Hi3).
  split_and!; [do 2 f_equal; lia|lia|lia|]. exists (conn :: dialled).
  by rewrite Hi3, Hi2, <-app_assoc.
Qed.

(** C18: warming.  When dials succeed at once, [warm] opens exactly as many connections as
    the idle floor is short of, or as many as there are free slots if those are fewer,
    parks them behind the ones already idle, and returns their number. *)
Theorem warm_reaches_floor {C E} {F : Features} {R : Runtime} {M : ManageConnection C E}
    cfg (w : World C) :
  dials_at_once (E:=E) cfg → config_ok cfg → len w.(idle) ≤ w.(slots) ≤ cfg.(max_size) →
  w.(closed) = false → close_seen w.(tick) = false →
  let n := (cfg.(min_idle) - len w.(idle)) `min` (cfg.(max_size) - w.(slots)) in
  wp (poll_warm (E:=E) cfg WarmNew) (λ r w', r = Done (Ok n) ∧
    len w'.(idle) = len w.(idle) + n ∧ w'.(slots) = w.(slots) + n ∧
    (∃ dialled, w'.(idle) = w.(idle) ++ dialled)) w.
Proof.
  intros Hd Hcfg Hle Hc Hs n. pose proof (max_size_u32 _ Hcfg). pose proof (min_idle_le _ Hcfg).
  unfold poll_warm, warm_start. wp_step. apply wp_load_closed_leaves. rewrite Hc, Hs.
  intros w1 [Hi1 Hs1 _] _ _ _ _. simpl. unfold warm_fuel. wp_step. wp_steps.
  eapply wp_mono; [apply warm_loop_floor; rewrite ?Hi1, ?Hs1; try done; lia|].
  rewrite Hi1, Hs1, N.add_0_l. done.
Qed.

(** Short of its floor by two, with one slot left: one connection is opened. *)
Lemma warm_reaches_floor_witness :
  wp (poll_warm (E:=string) brief_config WarmNew) (λ r w', r = Done (Ok 1) ∧
    len w'.(idle) = 2 ∧ w'.(slots) = 4 ∧ (∃ dialled, w'.(idle) = [demo_new] ++ dialled))
    (mkWorld [demo_new] 3 metrics_default waiters_new false 100 []).
Proof.
  refine (warm_reaches_floor (E:=string) brief_config
    (mkWorld [demo_new] 3 metrics_default waiters_new false 100 []) _ _ _ _ _).
  - split; [intros t; eexists; reflexivity|intros t; discriminate].
  - by split.
  - vm_compute. split; discriminate.
  - reflexivity.
  - reflexivity.
Defined.
