(* ===== verification/Safety.v ===== *)
(** What the running system guarantees in every reachable state: its capacity
    is respected, nothing panics or loops while its counts last, no wakeup is lost,
    waiters are woken in the order they queued, timeouts are counted, and the gauges
    show the live counts. *)

From Stdlib Require Import Sorting.Sorted.
From stdpp Require Import gmap sorting.
From S2P Require Import Prelude Manage Builder Metrics Store Waiters Inner Local Futures Balance System Effects Scenario Closing Custody Checkout.

#[local] Existing Instances demo_features plain_runtime demo_manager.

(** The ids still in the queue. *)
Definition queued_ids {C E} (s : Sys C E) : gset N :=
  list_to_set s.(world).(waiters).(entries).*1.

(** Waiting futures that have been woken and have not run since. *)
Definition woken_ids {C E} (s : Sys C E) : gset N := ids_of s.(tasks) ∖ queued_ids s.

(** Capacity nobody uses: idle connections and free slots. *)
Definition free_capacity {C E} (cfg : PoolConfig) (s : Sys C E) : N :=
  len s.(world).(idle) + (cfg.(max_size) - s.(world).(slots)).

#[local] Lemma demo_config_ok : config_ok demo_config.
Proof. by split. Qed.
#[local] Lemma demo_laws : RuntimeLaws plain_runtime.
Proof. apply demo_runtime_laws. Qed.

Section safety.
Context {C E : Type} {F : Features} {R : Runtime} {RL : RuntimeLaws R}
  {M : ManageConnection C E}.
Context (cfg : PoolConfig) (Hcfg : config_ok cfg).
Implicit Types s : Sys C E.

(** Who is queued, and who was woken. *)
Lemma queue_owners s : sys_inv cfg s →
  (∀ id wk, (id, wk) ∈ s.(world).(waiters).(entries) → own_of s.(tasks) id wk) ∧
  ∀ id, id ∈ woken_ids s → ∃ i, own_of s.(tasks) id i ∧ (id, i) ∈ s.(world).(wakes).
Proof.
  intros [_ (nx & _ & HL)]. destruct (lg_wakes _ _ _ _ _ _ _ HL) as [_ _ Hk3 Hk4].
  split; [apply Hk3|]. unfold woken_ids, queued_ids.
  intros id [Hid Hq]%elem_of_difference. apply Hk4; [done|].
  destruct (decide (id ≤ woken_upto (waiters (world s)))) as [|Hgt]; [done|].
  exfalso. apply Hq, elem_of_list_to_set, (wi_entries _ _ (lg_wait _ _ _ _ _ _ _ HL)).
  split; [done|lia].
Qed.

Lemma queued_size s : sys_inv cfg s →
  size (queued_ids s) = length s.(world).(waiters).(entries) ∧ queued_ids s ⊆ ids_of s.(tasks).
Proof.
  intros [_ (nx & _ & HL)]. pose proof (lg_wait _ _ _ _ _ _ _ HL) as HI. unfold queued_ids. split.
  - rewrite size_list_to_set by apply sorted_NoDup, HI. by rewrite length_fmap.
  - intros i Hi%elem_of_list_to_set. by apply (wi_entries _ _ HI) in Hi as [].
Qed.

(** Tasks that all wait, on an open pool with nothing leased, do not wait for each other: one of
    them has been woken. *)
Lemma all_parked_woken s :
  sys_inv cfg s → s.(world).(closed) = false → s.(leases) = ∅ → s.(tasks) ≠ ∅ →
  (∀ i t, s.(tasks) !! i = Some t → task_parks t) →
  ∃ i t id, s.(tasks) !! i = Some t ∧ id ∈ task_ids t ∧ id ∉ queued_ids s ∧
    (id, i) ∈ s.(world).(wakes).
Proof.
  intros HI Hc Hl Hne Hpk. destruct (queue_owners s HI) as [_ Hw].
  enough (∃ x, x ∈ woken_ids s) as [x Hx].
  { destruct (Hw x Hx) as (i & (t & Hi & Hid) & Hin). unfold woken_ids in Hx. set_solver. }
  destruct (queued_size s HI) as [Hsz Hsub]. destruct HI as [Ho (nx & _ & HL)].
  assert (Hz : slots_of (tasks s) = 0).
  { clear -Hpk. induction (tasks s) as [|i t m Hi IH] using map_ind; [done|].
    rewrite slots_of_insert, IH by (done || intros j t' Hj; apply (Hpk j);
      rewrite lookup_insert_ne; congruence).
    pose proof (Hpk i t (lookup_insert_eq _ _ _)) as Hp. by destruct t as [[|[]]| |]. }
  pose proof (lg_slots _ _ _ _ _ _ _ HL) as Hslots. unfold outstanding in Hslots.
  rewrite Hz, Hl, map_size_empty in Hslots.
  pose proof (lg_share _ _ _ _ _ _ _ HL Hc) as Hsh. pose proof (max_size_pos cfg Hcfg) as Hmax.
  apply size_pos_elem_of. unfold woken_ids. rewrite size_difference by done.
  destruct (entries (waiters (world s))) as [|e es] eqn:He.
  - destruct (map_choose _ Hne) as (i & t & Hi). pose proof (ow_tasks _ _ Ho i t Hi) as Hok.
    pose proof (Hpk i t Hi) as Hp. destruct t as [[|[st wt [[id|] b]| | |]]| |]; try done;
      [|by destruct Hok].
    assert (id ∈ ids_of (tasks s)) as Hid by (apply elem_of_ids_of; do 2 eexists; split; [done|set_solver]).
    rewrite Hsz. simpl. enough (size (ids_of (tasks s)) ≠ 0%nat) by lia.
    intros H0%size_empty_inv. set_solver.
  - specialize (Hsh ltac:(done)). unfold len in *. rewrite Hsz. lia.
Qed.
End safety.

(** C1: capacity accounting.  In every reachable state the slot count is exactly the
    idle connections plus the leases plus the slots reserved by tasks that dial or
    validate, and it never exceeds [max_size]: no slot leaks and none is counted twice,
    whatever is polled, dropped, cancelled or closed in whatever order. *)
Theorem capacity_respected {C E} {F : Features} {R : Runtime} {RL : RuntimeLaws R}
    {M : ManageConnection C E} cfg (s : Sys C E) :
  config_ok cfg → reachable cfg s →
  s.(world).(slots) =
    len s.(world).(idle) + N.of_nat (size s.(leases)) + slots_of s.(tasks) ∧
  s.(world).(slots) ≤ cfg.(max_size).
Proof.
  intros Hcfg Hs. destruct (reachable_inv cfg Hcfg s Hs) as [_ (nx & _ & [Hsl Hm _ _ _ _ _])].
  unfold outstanding in Hsl. split; lia.
Qed.

Lemma capacity_respected_witness :
  demo_full.(world).(slots) =
    len demo_full.(world).(idle) + N.of_nat (size demo_full.(leases)) + slots_of demo_full.(tasks) ∧
  demo_full.(world).(slots) ≤ demo_config.(max_size).
Proof.
  pose proof demo_laws.
  exact (capacity_respected demo_config demo_full demo_config_ok demo_full_reachable).
Defined.

(** The one action that can fail: the resumed poll of a [warm] whose count of connections, with
    those the pool is still short of (one at the least), comes to more than a [u32], in a build
    that checks overflow. *)
Definition count_too_large {C E} {F : Features} (cfg : PoolConfig) (a : action C) (s : Sys C E) : Prop :=
  overflow_checks = true ∧ ∃ i made h,
    a = PollTask i ∧ s.(tasks) !! i = Some (TWarm (WarmDial made h)) ∧
    U32 ≤ made + (1 `max` (cfg.(min_idle) - len s.(world).(idle))).

(** C6: no panic, no divergence.  In a run of fewer than 2^64 - 2 actions every action that has
    something to act on succeeds: no [expect] finds an empty lease or guard, the waiting ids do
    not run out, and every loop of every poll ends within its fuel.  The exception is the
    [u32] in which a resumed [warm] counts what it has opened, which can only overflow, and
    panic, past [u32::MAX] and in a build that checks. *)
Theorem pool_never_fails {C E} {F : Features} {R : Runtime} {RL : RuntimeLaws R}
    {M : ManageConnection C E} cfg n (s : Sys C E) a o :
  config_ok cfg → taken cfg n s → N.of_nat n + 2 < U64 → exec cfg a s = Some o →
  (∃ s', o = Val s') ∨ o = Panic ∧ count_too_large cfg a s.
Proof.
  intros Hcfg Hs Hn Hex. destruct (taken_upto cfg Hcfg n s) as [HI Hle]; [lia|done|].
  destruct (exec_runs cfg Hcfg s a o HI) as [(s' & -> & _)|[-> Hover]]; [left; lia|done|by left; exists s'|].
  right. split; [done|]. destruct a as [|i| | | | | | |]; try done. unfold overflows in Hover.
  destruct (tasks s !! i) as [t|] eqn:Hi; [|done]. destruct Hover as [Ho Ht]. split; [done|].
  destruct t as [f|f|[| |made h]]; simpl in Ht; try done. by exists i, made, h.
Qed.

(** The demo run, and the next poll. *)
Lemma pool_never_fails_witness :
  ∃ s', run_on (poll_task demo_config 2 (default (TTry TryNew) (demo_full.(tasks) !! 2%nat)))
    (settle 2 demo_full) demo_full = Val s'.
Proof.
  pose proof demo_laws.
  destruct (pool_never_fails demo_config 6 demo_full (PollTask 2)
    (run_on (poll_task demo_config 2 (default (TTry TryNew) (demo_full.(tasks) !! 2%nat)))
       (settle 2 demo_full) demo_full)) as [Hok|[_ (_ & i & made & h & [= <-] & Hi & _)]].
  - exact demo_config_ok.
  - apply (run_taken demo_config 0
      [Spawn 0 CallGet; PollTask 0; Spawn 1 CallGet; PollTask 1; Spawn 2 CallGet; PollTask 2] demo_start);
      [apply taken_init|vm_compute; reflexivity].
  - reflexivity.
  - vm_compute. reflexivity.
  - exact Hok.
  - exfalso. vm_compute in Hi. discriminate Hi.
Defined.

(** C3: no lost wakeup.  While the pool is open and somebody is queued, every unit of
    free capacity is matched by a waiter that has been woken and has not run yet. *)
Theorem no_lost_wakeup {C E} {F : Features} {R : Runtime} {RL : RuntimeLaws R}
    {M : ManageConnection C E} cfg (s : Sys C E) :
  config_ok cfg → reachable cfg s →
  s.(world).(closed) = false → s.(world).(waiters).(entries) ≠ [] →
  free_capacity cfg s ≤ N.of_nat (size (woken_ids s)).
Proof.
  intros Hcfg Hs Hc He. pose proof (reachable_inv cfg Hcfg s Hs) as HI.
  destruct (queued_size cfg s HI) as [Hsz Hsub].
  destruct HI as [_ (nx & _ & HL)]. pose proof (lg_share _ _ _ _ _ _ _ HL Hc He).
  unfold woken_ids, free_capacity. rewrite size_difference by done. unfold len in *. lia.
Qed.

(** One lease returned with somebody queued: the waiter has been woken. *)
Lemma no_lost_wakeup_witness :
  let s := default demo_start (run demo_config [Spawn 3 CallGet; PollTask 3; DropLease 0] demo_full) in
  free_capacity demo_config s = 1 ∧ woken_ids s = {[1]} ∧
  free_capacity demo_config s ≤ N.of_nat (size (woken_ids s)).
Proof.
  pose proof demo_laws. intros s. split_and!; [vm_compute; reflexivity..|].
  apply (no_lost_wakeup demo_config s demo_config_ok).
  - apply (run_reachable demo_config [Spawn 3 CallGet; PollTask 3; DropLease 0] demo_full);
      [apply demo_full_reachable|vm_compute; reflexivity].
  - vm_compute. reflexivity.
  - vm_compute. discriminate.
Defined.

(** C9: wakes reach their owner.  Every queued entry holds the waker of the task that is
    waiting under its id, and every waiting future no longer queued has had that very
    waker run: a wake is never sent to a task that has moved on, nor lost. *)
Theorem wakes_reach_owner {C E} {F : Features} {R : Runtime} {RL : RuntimeLaws R}
    {M : ManageConnection C E} cfg (s : Sys C E) :
  config_ok cfg → reachable cfg s →
  (∀ id wk, (id, wk) ∈ s.(world).(waiters).(entries) →
     ∃ t, s.(tasks) !! wk = Some t ∧ id ∈ task_ids t) ∧
  (∀ i t id, s.(tasks) !! i = Some t → id ∈ task_ids t → id ∉ queued_ids s →
     (id, i) ∈ s.(world).(wakes)).
Proof.
  intros Hcfg Hs. pose proof (reachable_inv cfg Hcfg s Hs) as HI.
  destruct (queue_owners cfg s HI) as [Hq Hw]. split; [exact Hq|].
  intros i t id Hi Hid Hnq. destruct (Hw id) as (j & (t' & Hj & Hid') & Hin).
  { unfold woken_ids. apply elem_of_difference. split; [|done]. apply elem_of_ids_of. eauto. }
  destruct (decide (i = j)) as [->|Hne]; [done|].
  destruct (ow_ids _ _ (si_owned _ _ HI) i j t t' Hne Hi Hj id Hid Hid').
Qed.

Lemma wakes_reach_owner_witness :
  demo_returned.(world).(wakes) = [(1, 2%nat)] ∧
  (∀ i t id, demo_returned.(tasks) !! i = Some t → id ∈ task_ids t →
     id ∉ queued_ids demo_returned → (id, i) ∈ demo_returned.(world).(wakes)).
Proof.
  pose proof demo_laws. split; [vm_compute; reflexivity|].
  apply (wakes_reach_owner demo_config demo_returned demo_config_ok).
  apply (run_reachable demo_config [DropLease 0] demo_full);
    [apply demo_full_reachable|vm_compute; reflexivity].
Defined.

(** C10: FIFO wakes.  The ids woken so far are strictly increasing, and every id still
    queued is above them all: waiters are woken in the order they queued, each at most
    once. *)
Theorem wakes_in_order {C E} {F : Features} {R : Runtime} {RL : RuntimeLaws R}
    {M : ManageConnection C E} cfg (s : Sys C E) :
  config_ok cfg → reachable cfg s →
  StronglySorted N.lt (s.(world).(wakes).*1 ++ s.(world).(waiters).(entries).*1).
Proof.
  intros Hcfg Hs. destruct (reachable_inv cfg Hcfg s Hs) as [_ (nx & _ & HL)].
  destruct (lg_wakes _ _ _ _ _ _ _ HL) as [Hk Hle _ _].
  pose proof (lg_wait _ _ _ _ _ _ _ HL) as HI.
  apply StronglySorted_app_2; [|done|apply HI].
  intros i j Hi%Hle Hj%(wi_entries _ _ HI). lia.
Qed.

Lemma wakes_in_order_witness :
  demo_returned.(world).(wakes).*1 = [1] ∧
  StronglySorted N.lt
    (demo_returned.(world).(wakes).*1 ++ demo_returned.(world).(waiters).(entries).*1).
Proof.
  pose proof demo_laws. split; [vm_compute; reflexivity|].
  apply (wakes_in_order demo_config demo_returned demo_config_ok).
  apply (run_reachable demo_config [DropLease 0] demo_full);
    [apply demo_full_reachable|vm_compute; reflexivity].
Defined.

(** C13: the gauges.  With the [metrics] feature the snapshot a scraping thread takes of
    this thread's block is what [LocalPool::state] reads from the live store: the slot
    count, the idle count and the queue length, after every action. *)
Theorem gauges_mirror_state {C E} {F : Features} {R : Runtime} {RL : RuntimeLaws R}
    {M : ManageConnection C E} cfg (s : Sys C E) :
  config_ok cfg → reachable cfg s → feature_metrics = true →
  local_state s.(world) = Val (snapshot_state s.(world).(metrics), s.(world)) ∧
  snapshot_state s.(world).(metrics) =
    mkState s.(world).(slots) (len s.(world).(idle)) (as_u32 (len s.(world).(waiters).(entries))).
Proof.
  intros Hcfg Hs Hf. destruct (reachable_inv cfg Hcfg s Hs) as [_ (nx & _ & HL)].
  pose proof (ledger_idle_u32 cfg _ Hcfg _ _ _ _ _ HL) as Hi.
  rewrite (lg_gauges _ _ _ _ _ _ _ HL Hf). split; [|done].
  unfold local_state, connections, idle_len, waiters_len, mbind, St_bind, gets, mret, St_ret.
  by rewrite (as_u32_small _ Hi).
Qed.

Lemma gauges_mirror_state_witness :
  snapshot_state demo_full.(world).(metrics) = mkState 2 0 1 ∧
  local_state demo_full.(world) =
    Val (snapshot_state demo_full.(world).(metrics), demo_full.(world)).
Proof.
  pose proof demo_laws. split; [vm_compute; reflexivity|].
  exact (proj1 (gauges_mirror_state demo_config demo_full demo_config_ok demo_full_reachable eq_refl)).
Defined.

(** Polling a task while the other tasks and the leases leave a slot unused does
    not park it. *)
#[local] Lemma poll_not_parked {C E} {F : Features} {R : Runtime} {RL : RuntimeLaws R}
    {M : ManageConnection C E} cfg (s s' : Sys C E) i t' :
  config_ok cfg → reachable cfg s → room cfg (PollTask i) s →
  N.of_nat (size s.(leases)) + slots_of (delete i s.(tasks)) < cfg.(max_size) →
  exec cfg (PollTask i) s = Some (Val s') → s'.(tasks) !! i = Some t' → ¬ task_parks t'.
Proof.
  intros Hcfg Hs [Hnx Hsm] Hcap Hex Ht' Hparks.
  pose proof (reachable_inv cfg Hcfg s Hs) as HI. simpl in Hex.
  apply bind_Some in Hex as (t & Hi & [= Hex]). rewrite Hi in Hsm.
  destruct (sys_inv_task cfg s i t HI Hi) as (Hok & _ & Ho & Hd & HL).
  unfold run_on in Hex. destruct (poll_task cfg i t (world s)) as [[r w]| |] eqn:Hp; simplify_eq.
  assert (Hpost := wp_run _ _ _ _ _
    (poll_task_ledger cfg Hcfg (own_by (delete i (tasks s)) i) i t _ _ _ _
       Hnx (λ id Hid, or_introl (conj eq_refl Hid)) Hsm Hok Hd (HL _ (N.le_refl _))) Hp).
  destruct r as [[]|t2]; simpl in *; try (by rewrite lookup_delete_eq in Ht').
  rewrite lookup_insert_eq in Ht'. injection Ht' as ->. destruct Hpost as (_ & _ & Hf & _).
  destruct (Hf Hparks). lia.
Qed.

(** C5: a waiter with capacity in reach is served.  Polling a task while the leases and
    the other tasks leave a slot unused never parks it, woken in turn or not: the task
    finishes, or goes on to dial, validate or back off. *)
Theorem waiter_served {C E} {F : Features} {R : Runtime} {RL : RuntimeLaws R}
    {M : ManageConnection C E} cfg (s : Sys C E) i :
  config_ok cfg → reachable cfg s → room cfg (PollTask i) s → is_Some (s.(tasks) !! i) →
  N.of_nat (size s.(leases)) + slots_of (delete i s.(tasks)) < cfg.(max_size) →
  ∃ s', exec cfg (PollTask i) s = Some (Val s') ∧
    ∀ t', s'.(tasks) !! i = Some t' → ¬ task_parks t'.
Proof.
  intros Hcfg Hs Hroom [t Hi] Hcap.
  destruct (exec cfg (PollTask i) s) as [o|] eqn:He; [|simpl in He; by rewrite Hi in He].
  destruct (exec_inv cfg Hcfg s _ o (reachable_inv cfg Hcfg s Hs) Hroom He) as (s' & -> & _).
  exists s'. split; [done|]. intros t' Ht'. by eapply poll_not_parked.
Qed.

Lemma waiter_served_witness :
  is_Some (demo_returned.(tasks) !! 2%nat) ∧
  ∃ s', exec demo_config (PollTask 2) demo_returned = Some (Val s') ∧
    ∀ t', s'.(tasks) !! 2%nat = Some t' → ¬ task_parks t'.
Proof.
  pose proof demo_laws. split; [vm_compute; eauto|].
  apply (waiter_served demo_config demo_returned 2 demo_config_ok).
  - apply (run_reachable demo_config [DropLease 0] demo_full);
      [apply demo_full_reachable|vm_compute; reflexivity].
  - vm_compute. split; reflexivity.
  - vm_compute. eauto.
  - vm_compute. reflexivity.
Defined.

(** C4: capacity reaches a waiter.  While the pool is open, somebody is queued and
    capacity is free, some waiting task has had its waker run, and its next poll takes
    it out of the wait. *)
Theorem capacity_reaches_waiter {C E} {F : Features} {R : Runtime} {RL : RuntimeLaws R}
    {M : ManageConnection C E} cfg (s : Sys C E) :
  config_ok cfg → reachable cfg s → s.(world).(waiters).(next_id) + 1 < U64 →
  s.(world).(closed) = false → s.(world).(waiters).(entries) ≠ [] →
  0 < free_capacity cfg s →
  ∃ i f s', s.(tasks) !! i = Some (TGet f) ∧ get_parks f ∧
    (∃ id, id ∈ get_ids f ∧ (id, i) ∈ s.(world).(wakes)) ∧
    exec cfg (PollTask i) s = Some (Val s') ∧
    ∀ t', s'.(tasks) !! i = Some t' → ¬ task_parks t'.
Proof.
  intros Hcfg Hs Hnx Hc He Hfree. pose proof (reachable_inv cfg Hcfg s Hs) as HI.
  destruct (queued_size cfg s HI) as [Hsz Hsub].
  assert (Hsh : free_capacity cfg s ≤ N.of_nat (size (woken_ids s))).
  { destruct HI as [_ (nx & _ & HL)]. pose proof (lg_share _ _ _ _ _ _ _ HL Hc He).
    unfold woken_ids, free_capacity. rewrite size_difference by done. unfold len in *. lia. }
  destruct (set_choose_or_empty (woken_ids s)) as [[x Hx]|Hnone%leibniz_equiv];
    [|rewrite Hnone, size_empty in Hsh; lia].
  destruct (proj2 (queue_owners cfg s HI) x Hx) as (i & (t & Hi & Hxi) & Hwk).
  destruct t as [f|f|f]; simpl in Hxi; try set_solver.
  assert (get_parks f) as Hparks by (destruct f as [|[]]; simpl in Hxi; set_solver).
  destruct (exec cfg (PollTask i) s) as [o|] eqn:Hex; [|simpl in Hex; by rewrite Hi in Hex].
  assert (Hroom : room cfg (PollTask i) s) by (simpl; by rewrite Hi).
  destruct (exec_inv cfg Hcfg s _ o HI Hroom Hex) as (s' & -> & _).
  exists i, f, s'. split_and!; [done|done|by exists x|done|].
  intros t' Ht'. eapply poll_not_parked; [done..| |exact Hex|exact Ht'].
  destruct HI as [_ (nx & _ & HL)]. pose proof (lg_slots _ _ _ _ _ _ _ HL) as Hsl.
  pose proof (lg_max _ _ _ _ _ _ _ HL). unfold outstanding in Hsl.
  rewrite (slots_of_delete _ i _ Hi) in Hsl. simpl in Hsl.
  assert (get_slots f = 0) as Hz by (destruct f as [|[]]; simpl in Hparks; done).
  unfold free_capacity in Hfree. lia.
Qed.

Lemma capacity_reaches_waiter_witness :
  let s := default demo_start (run demo_config [Spawn 3 CallGet; PollTask 3; DropLease 0] demo_full) in
  ∃ i f s', s.(tasks) !! i = Some (TGet f) ∧ get_parks f ∧
    (∃ id, id ∈ get_ids f ∧ (id, i) ∈ s.(world).(wakes)) ∧
    exec demo_config (PollTask i) s = Some (Val s') ∧
    ∀ t', s'.(tasks) !! i = Some t' → ¬ task_parks t'.
Proof.
  pose proof demo_laws. intros s.
  apply (capacity_reaches_waiter demo_config s demo_config_ok).
  - apply (run_reachable demo_config [Spawn 3 CallGet; PollTask 3; DropLease 0] demo_full);
      [apply demo_full_reachable|vm_compute; reflexivity].
  - vm_compute. reflexivity.
  - vm_compute. reflexivity.
  - vm_compute. discriminate.
  - vm_compute. reflexivity.
Defined.

(** What a task that goes away without an answer leaves behind. *)
Definition gone {C E} (i : nat) (t : task C) (s s' : Sys C E) : Prop :=
  s'.(tasks) = delete i s.(tasks) ∧ s'.(leases) = s.(leases) ∧
  s'.(world).(idle) = s.(world).(idle) ∧
  s'.(world).(slots) + task_slots t = s.(world).(slots) ∧
  task_ids t ## queued_ids s'.

#[local] Lemma gone_intro {C E} {F : Features} {R : Runtime} {RL : RuntimeLaws R}
    {M : ManageConnection C E} cfg i t (s s' : Sys C E) :
  sys_inv cfg s → sys_inv cfg s' → s.(tasks) !! i = Some t →
  s'.(tasks) = delete i s.(tasks) → s'.(leases) = s.(leases) →
  s'.(world).(idle) = s.(world).(idle) → gone i t s s'.
Proof.
  intros HI HI' Hi Ht Hl Hidle. split_and!; [done..| |].
  - destruct HI as [_ (nx & _ & HL)], HI' as [_ (nx' & _ & HL')].
    pose proof (lg_slots _ _ _ _ _ _ _ HL) as H1. pose proof (lg_slots _ _ _ _ _ _ _ HL') as H2.
    unfold outstanding in *. rewrite (slots_of_delete _ i t Hi) in H1.
    rewrite Ht, Hl, Hidle in H2. lia.
  - destruct (sys_inv_task cfg s i t HI Hi) as (_ & _ & _ & Hd & _).
    destruct (queued_size cfg s' HI') as [_ Hsub]. rewrite Ht in Hsub. set_solver.
Qed.

(** C7: cancellation.  Dropping a task at any await point gives back the slot it had
    reserved and its place in the queue, and changes nothing else that can be held. *)
Theorem cancel_releases {C E} {F : Features} {R : Runtime} {RL : RuntimeLaws R}
    {M : ManageConnection C E} cfg (s : Sys C E) i t :
  config_ok cfg → reachable cfg s → s.(tasks) !! i = Some t →
  ∃ s', exec cfg (DropTask i) s = Some (Val s') ∧ gone i t s s' ∧ s'.(answers) = s.(answers).
Proof.
  intros Hcfg Hs Hi. pose proof (reachable_inv cfg Hcfg s Hs) as HI.
  destruct (exec cfg (DropTask i) s) as [o|] eqn:Hex; [|simpl in Hex; by rewrite Hi in Hex].
  destruct (exec_inv cfg Hcfg s (DropTask i) o HI I Hex) as (s' & -> & HI').
  exists s'. split; [done|]. simpl in Hex. rewrite Hi in Hex. simpl in Hex. injection Hex as Hex.
  destruct (sys_inv_task cfg s i t HI Hi) as (Hok & _ & _ & Hd & HL).
  assert (Hdrop := drop_task_spec cfg Hcfg _ t _ _ _ _ Hok Hd (HL _ (N.le_refl _))).
  unfold run_on in Hex. apply wp_val in Hdrop as ([] & w & Hw & _ & Hidle).
  rewrite Hw in Hex. simplify_eq. split; [|done]. by eapply gone_intro.
Qed.

Lemma cancel_releases_witness :
  ∃ s', exec demo_config (DropTask 2) demo_full = Some (Val s') ∧
    gone 2 (TGet (GetTimed (GWait (from_millis 25) false (mkWait (Some 1) true)))) demo_full s' ∧
    s'.(answers) = demo_full.(answers).
Proof.
  pose proof demo_laws.
  apply (cancel_releases demo_config demo_full 2 _ demo_config_ok demo_full_reachable).
  vm_compute. reflexivity.
Defined.

(** What any task that goes away without a lease leaves behind: its slot and its place in the
    queue are nobody's, whatever it did to the idle list on its way. *)
Definition let_go {C E} (i : nat) (s s' : Sys C E) : Prop :=
  s'.(tasks) = delete i s.(tasks) ∧ s'.(leases) = s.(leases) ∧
  s'.(world).(slots) = len s'.(world).(idle) + N.of_nat (size s.(leases)) + slots_of (delete i s.(tasks)) ∧
  queued_ids s' ⊆ ids_of (delete i s.(tasks)).

#[local] Lemma let_go_intro {C E} {F : Features} {R : Runtime} {RL : RuntimeLaws R}
    {M : ManageConnection C E} cfg i (s s' : Sys C E) :
  sys_inv cfg s' → s'.(tasks) = delete i s.(tasks) → s'.(leases) = s.(leases) → let_go i s s'.
Proof.
  intros HI Ht Hl. destruct (queued_size cfg s' HI) as [_ Hsub]. rewrite Ht in Hsub.
  split_and!; [done..| |done]. destruct HI as [_ (nx & _ & HL)].
  pose proof (lg_slots _ _ _ _ _ _ _ HL) as Hsl. unfold outstanding in Hsl. rewrite Ht, Hl in Hsl. lia.
Qed.

(** How the counter of timeouts stands to what it was. *)
Definition timeouts {C E} (s : Sys C E) : N := load GetTimedOut s.(world).(metrics).

(** C8: timing out.  When the checkout deadline fires on a suspended [get], while the waiting
    ids last: if it is looked at before what it bounds, [get] fails with [TimedOut] whatever it
    was suspended at and leaves as a cancelled task does; if after, [get] is polled first, and
    either that finishes it, with its own answer and no timeout counted, or it fails with
    [TimedOut] too.  A [TimedOut] is counted exactly once (with metrics on), and the task lets
    go of its slot and of its place in the queue. *)
Theorem timeout_releases {C E} {F : Features} {R : Runtime} {RL : RuntimeLaws R}
    {M : ManageConnection C E} cfg (s : Sys C E) i st :
  config_ok cfg → reachable cfg s → room cfg (PollTask i) s →
  s.(tasks) !! i = Some (TGet (GetTimed st)) →
  let v := timer cfg.(connection_timeout) s.(world).(tick) in
  v ≠ Not_elapsed →
  ∃ s', exec cfg (PollTask i) s = Some (Val s') ∧
    (s'.(answers) = s.(answers) ++ [(i, Failed TimedOut)] ∧
     (feature_metrics = true → timeouts s' = fetch_add64 (timeouts s) 1) ∧
     let_go i s s' ∧ (v = Fires_before → gone i (TGet (GetTimed st)) s s') ∨
     v = Fires_after ∧ s'.(tasks) = delete i s.(tasks) ∧ timeouts s' = timeouts s ∧
     ∃ a, a ≠ Failed TimedOut ∧ s'.(answers) = s.(answers) ++ [(i, a)]).
Proof.
  intros Hcfg Hs Hroom Hi v Hfire. pose proof (reachable_inv cfg Hcfg s Hs) as HI.
  destruct (exec cfg (PollTask i) s) as [o|] eqn:Hex; [|simpl in Hex; by rewrite Hi in Hex].
  destruct (exec_inv cfg Hcfg s (PollTask i) o HI Hroom Hex) as (s' & -> & HI').
  exists s'. split; [done|]. simpl in Hex. rewrite Hi in Hex. simpl in Hex. injection Hex as Hex.
  unfold run_on, poll_task, poll_get, mbind, St_bind, mret, St_ret in Hex.
  destruct (poll_timed cfg i (Some st) (world s)) as [[r w]| |] eqn:Hp; [|done..]. injection Hex as Hex.
  destruct (poll_timed_fired cfg i st (world s) w r Hp Hfire) as [[-> Hc]|(Ha & (a & -> & Hne) & Hc)].
  - left. simpl in Hex. subst s'. split_and!; [done|done|by eapply let_go_intro|]. intros Hv.
    eapply gone_intro; [done..|]. simpl.
    destruct (sys_inv_task cfg s i _ HI Hi) as (Hok & _ & _ & Hd & HL).
    assert (Hdrop : wp (drop_get_inner st) (λ _ w', w'.(idle) = s.(world).(idle)) (next_tick s.(world))).
    { wp_apply (drop_get_inner_spec cfg _ Hcfg) as [] w1 [_ Hidle].
      - split_and!; [exact Hok|exact Hd|]. eapply ledger_same; [apply same_books_tick|].
        apply (HL _ (N.le_refl _)).
      - rewrite Hidle. by destruct (world s). }
    apply wp_val in Hdrop as ([] & w1 & Hw & <-). unfold poll_timed, mbind, St_bind in Hp.
    rewrite ask_books in Hp. unfold v in Hv. rewrite Hv, Hw in Hp.
    unfold get_timed_out_now, metric, when, mbind, St_bind, modify, mret, St_ret, skip in Hp.
    destruct feature_metrics; injection Hp as <-; by destruct w1.
  - right. destruct a as [p|e]; simpl in Hex; subst s'; (split_and!; [done..|]); eexists; (split; [|done]);
      [done|]. intros [= ->]. done.
Qed.

(** The same schedule under a clock whose deadlines pass after the third checkout has
    been parked. *)
Definition deadline_runtime : Runtime := {|
  instant_now t := from_millis (N.of_nat t);
  close_seen _ := false;
  sleep_done first _ := negb first;
  timer _ t := if (28 <=? t)%nat then Fires_before else Not_elapsed
|}.

Definition demo_late : Sys N string :=
  default demo_start (run (R := deadline_runtime) demo_config
    [Spawn 0 CallGet; PollTask 0; Spawn 1 CallGet; PollTask 1; Spawn 2 CallGet; PollTask 2]
    demo_start).

Lemma timeout_releases_witness :
  ∃ s', exec (H0 := deadline_runtime) demo_config (PollTask 2) demo_late = Some (Val s') ∧
    s'.(answers) = demo_late.(answers) ++ [(2%nat, Failed TimedOut)] ∧ timeouts s' = 1 ∧
    gone 2 (TGet (GetTimed (GWait (from_millis 25) false (mkWait (Some 1) true)))) demo_late s'.
Proof.
  assert (RuntimeLaws deadline_runtime) as Hlaws
    by (split; [|done]; intros a b Hle; simpl; unfold from_millis; lia).
  destruct (timeout_releases (R := deadline_runtime) demo_config demo_late 2
    (GWait (from_millis 25) false (mkWait (Some 1) true)) demo_config_ok)
    as (s' & He & [(Ha & Hc & _ & Hg)|[Hv _]]).
  - apply (run_reachable (R := deadline_runtime) demo_config
      [Spawn 0 CallGet; PollTask 0; Spawn 1 CallGet; PollTask 1; Spawn 2 CallGet; PollTask 2]
      demo_start); [apply reach_init|vm_compute; reflexivity].
  - vm_compute. split; reflexivity.
  - vm_compute. reflexivity.
  - vm_compute. discriminate.
  - exists s'. split; [exact He|]. split; [exact Ha|]. split; [|apply Hg; vm_compute; reflexivity].
    rewrite (Hc eq_refl). vm_compute. reflexivity.
  - exfalso. vm_compute in Hv. discriminate Hv.
Defined.

(** Everybody queued but the waiter itself. *)
Definition others (wr : WaitReady) (es : list (N * Waker)) : list (N * Waker) :=
  match wr.(wait_id) with Some id => fifo_remove id es | None => es end.

(** A poll of [WaitReady] on a closed pool is ready, and wakes everybody else. *)
#[local] Lemma poll_wait_ready_closed {C} {F : Features} {R : Runtime} cfg wk wr X (w : World C) :
  w.(closed) = true → wait_inv X w.(waiters) → len w.(waiters).(entries) ≤ u32_max →
  wp (poll_wait_ready cfg wk wr) (λ r w', r = (Ready wr.(parked), mkWait None wr.(parked)) ∧
    w'.(closed) = true ∧ w'.(waiters).(entries) = [] ∧
    w'.(wakes) = w.(wakes) ++ others wr w.(waiters).(entries)) w.
Proof.
  intros Hc HI Hlen. unfold poll_wait_ready, ready_now. wp_step. wp_step.
  apply wp_load_closed_leaves. rewrite Hc. intros w1 _ _ Hq1 Hk1 Hc1. cbn [orb]. wp_steps.
  simpl in Hc1. rewrite <-Hq1, <-Hk1 in *.
  eapply wp_mono with (Q := λ _ w2, w2.(closed) = true ∧ w2.(wakes) = w1.(wakes) ∧
    w2.(waiters).(entries) = others wr w1.(waiters).(entries) ∧ len w2.(waiters).(entries) ≤ u32_max).
  { unfold others. destruct (wait_id wr) as [id|]; [|by wp_steps]. wp_step. unfold wp.
    rewrite (unregister_run _ _ _ HI). simpl. case_decide as Hq.
    - split_and!; [by destruct w1|done|done|]. simpl. unfold fifo_remove, len in *.
      pose proof (length_filter (λ e, e.1 ≠ id) (entries (waiters w1))). lia.
    - by rewrite fifo_remove_none. }
  intros [] w2 (Hc2 & Hk2 & He2 & Hl2). wp_step. apply wp_load_closed_leaves. rewrite Hc2.
  intros w3 _ _ Hq3 Hk3 Hc3. cbn [orb]. wp_step. unfold when, wp. rewrite wake_all_run. simpl.
  assert (Hall : (length w3.(waiters).(entries) ≤ N.to_nat (len w3.(waiters).(entries) `min` u32_max))%nat)
    by (rewrite Hq3; unfold len in *; lia).
  split_and!; [done|by rewrite woken_world_closed| |].
  - rewrite woken_world_waiters. simpl. by apply skipn_all2.
  - rewrite woken_world_wakes, firstn_all2, Hq3, Hk3 by done. congruence.
Qed.

(** Closing drains.  [clear] on a pool whose flag is set leaves nothing idle, nothing
    queued, and every waiter woken in order: the slots that remain are the leases and
    the dials still under way. *)
Theorem clear_after_close {C E} {F : Features} {R : Runtime} {RL : RuntimeLaws R}
    {M : ManageConnection C E} cfg (s : Sys C E) :
  config_ok cfg → reachable cfg s → s.(world).(closed) = true →
  len s.(world).(waiters).(entries) ≤ u32_max →
  ∃ s', exec cfg DoClear s = Some (Val s') ∧
    s'.(world).(idle) = [] ∧ s'.(world).(waiters).(entries) = [] ∧
    s'.(world).(wakes) = s.(world).(wakes) ++ s.(world).(waiters).(entries) ∧
    s'.(world).(slots) = outstanding s.
Proof.
  intros Hcfg Hs Hc Hlen. pose proof (reachable_inv cfg Hcfg s Hs) as HI.
  destruct (exec_inv cfg Hcfg s DoClear _ HI I eq_refl) as (s' & Hex & HI').
  exists s'. simpl. split; [by f_equal|]. pose proof (clear_closed s.(world) Hc) as Hclear.
  apply wp_val in Hclear as (r & w & Hw & Hi & Hq & Hk).
  unfold run_on in Hex. rewrite Hw in Hex. injection Hex as <-. simpl.
  assert (Hall : firstn (woken_all (world s)) (entries (waiters (world s)))
    = entries (waiters (world s))).
  { apply firstn_all2. unfold woken_all, len in *. lia. }
  split_and!; [done| | |].
  - rewrite Hq. simpl. apply skipn_all2. unfold woken_all, len in *. lia.
  - by rewrite Hk, Hall.
  - destruct HI' as [_ (nx & _ & HL)]. pose proof (lg_slots _ _ _ _ _ _ _ HL) as Hsl.
    simpl in Hsl. rewrite Hi, len_nil in Hsl. unfold outstanding in *. by simpl in Hsl.
Qed.

Lemma clear_after_close_witness :
  let s := default demo_start (run demo_config [DoClose] demo_full) in
  ∃ s', exec demo_config DoClear s = Some (Val s') ∧
    s'.(world).(idle) = [] ∧ s'.(world).(waiters).(entries) = [] ∧
    s'.(world).(wakes) = s.(world).(wakes) ++ s.(world).(waiters).(entries) ∧
    s'.(world).(slots) = outstanding s.
Proof.
  pose proof demo_laws. intros s. apply (clear_after_close demo_config s demo_config_ok).
  - apply (run_reachable demo_config [DoClose] demo_full);
      [apply demo_full_reachable|vm_compute; reflexivity].
  - vm_compute. reflexivity.
  - vm_compute. discriminate.
Defined.

(** C17: closing reaches the parked.  A parked [get] polled on a closed pool, unless its
    deadline is found passed first, fails with [Closed], and on its way runs the waker of
    everybody else still queued, oldest first, leaving the queue empty (of a queue that a [u32]
    can count, while the waiting ids last). *)
Theorem close_reaches_parked {C E} {F : Features} {R : Runtime} {RL : RuntimeLaws R}
    {M : ManageConnection C E} cfg (s : Sys C E) i start waited wr :
  config_ok cfg → reachable cfg s → room cfg (PollTask i) s →
  s.(tasks) !! i = Some (TGet (GetTimed (GWait start waited wr))) →
  s.(world).(closed) = true → timer cfg.(connection_timeout) s.(world).(tick) ≠ Fires_before →
  len s.(world).(waiters).(entries) ≤ u32_max →
  ∃ s', exec cfg (PollTask i) s = Some (Val s') ∧
    s'.(tasks) = delete i s.(tasks) ∧ s'.(answers) = s.(answers) ++ [(i, Failed Closed)] ∧
    s'.(world).(wakes) = s.(world).(wakes) ++ others wr s.(world).(waiters).(entries) ∧
    s'.(world).(waiters).(entries) = [].
Proof.
  intros Hcfg Hs Hroom Hi Hc Htimer Hlen. pose proof (reachable_inv cfg Hcfg s Hs) as HI.
  assert (Hwait : wait_inv (ids_of s.(tasks)) s.(world).(waiters)).
  { destruct HI as [_ (nx & _ & HL)]. apply (lg_wait _ _ _ _ _ _ _ HL). }
  set (Q := λ (w : World C), w.(wakes) = s.(world).(wakes) ++ others wr s.(world).(waiters).(entries) ∧
    w.(waiters).(entries) = []).
  assert (Hinner : wp (poll_get_inner (E:=E) cfg i (Some (GWait start waited wr)))
    (λ r w, r = Done (Err Closed) ∧ Q w) (next_tick s.(world))).
  { unfold poll_get_inner, get_fuel. wp_step. wp_steps. unfold poll_wait. wp_step.
    eapply wp_mono; [eapply poll_wait_ready_closed|].
    - by destruct (world s).
    - by destruct (world s).
    - by destruct (world s).
    - intros r w (-> & Hc' & He & Hk). cbn [fst]. unfold after_wait. wp_step.
      apply wp_load_closed_leaves. rewrite Hc'. intros w1 _ _ Hq Hk1 _. cbn [orb]. wp_steps.
      unfold Q. rewrite Hq, Hk1, Hk. by destruct (world s). }
  assert (Hpoll : wp (poll_get (E:=E) cfg i (GetTimed (GWait start waited wr)))
    (λ r w, r = Done (Err Closed) ∧ Q w) s.(world)).
  { unfold poll_get, poll_timed. wp_step. apply wp_ask.
    destruct (timer _ _); [| done |]; (wp_step; eapply wp_mono; [exact Hinner|intros r w [-> ?]; by wp_steps]). }
  destruct (exec cfg (PollTask i) s) as [o|] eqn:Hex; [|simpl in Hex; by rewrite Hi in Hex].
  destruct (exec_inv cfg Hcfg s (PollTask i) o HI Hroom Hex) as (s' & -> & HI').
  exists s'. split; [done|]. simpl in Hex. rewrite Hi in Hex. simpl in Hex. injection Hex as Hex.
  apply wp_val in Hpoll as (r & w & Hw & -> & Hk & He). unfold run_on, poll_task in Hex.
  unfold mbind, St_bind, mret, St_ret in Hex. simpl in Hw. rewrite Hw in Hex. simpl in Hex. by simplify_eq.
Qed.

(** Two are parked when the pool is closed: the first to be polled wakes the other. *)
Lemma close_reaches_parked_witness :
  let s := default demo_start (run demo_config [Spawn 3 CallGet; PollTask 3; DoClose] demo_full) in
  ∃ s', exec demo_config (PollTask 2) s = Some (Val s') ∧
    s'.(tasks) = delete 2%nat s.(tasks) ∧ s'.(answers) = s.(answers) ++ [(2%nat, Failed Closed)] ∧
    s'.(world).(wakes) = s.(world).(wakes) ++ [(2, 3%nat)] ∧
    s'.(world).(waiters).(entries) = [].
Proof.
  pose proof demo_laws. intros s.
  apply (close_reaches_parked demo_config s 2 (from_millis 25) false (mkWait (Some 1) true)
    demo_config_ok); try (vm_compute; reflexivity).
  - apply (run_reachable demo_config [Spawn 3 CallGet; PollTask 3; DoClose] demo_full);
      [apply demo_full_reachable|vm_compute; reflexivity].
  - vm_compute. split; reflexivity.
  - vm_compute. discriminate.
  - vm_compute. discriminate.
Defined.
