(* ===== verification/Registry.v ===== *)
(** The pool handle shared by every thread: the closed flag, the registry of
    per-thread metrics blocks, and the totals retired with the threads that exited
    ([Pool], [Shared], [LocalPool::new] and [Drop for Inner] in [src/src/pool.rs]).

    A block is known by a number; [blocks] holds those whose [LocalPool] is alive,
    so a weak entry of the registry upgrades exactly when its number is there. *)

From stdpp Require Import gmap.
From S2P Require Import Prelude Manage Builder Metrics Store.

(** [Shared], less the manager. *)
Record Shared := mkShared {
  sh_config : PoolConfig;
  sh_closed : bool;
  registry : list nat;
  retired : Metrics;
  blocks : gmap nat Metrics;
  next_block : nat
}.

(** [Pool::new]. *)
Definition pool_new (cfg : PoolConfig) : Shared := mkShared cfg false [] metrics_default ∅ 0.

(** [Pool::max_size], [Pool::close] and [Pool::is_closed]. *)
Definition pool_max_size (sh : Shared) : N := sh.(sh_config).(max_size).
Definition pool_close (sh : Shared) : Shared :=
  let '(mkShared c _ r t b n) := sh in mkShared c true r t b n.
Definition pool_is_closed (sh : Shared) : bool := sh.(sh_closed).

(** [registry.retain(..)]: the entries whose block is alive. *)
Definition prune (sh : Shared) : list nat :=
  filter (λ i, is_Some (sh.(blocks) !! i)) sh.(registry).

Definition set_registry (r : list nat) (sh : Shared) : Shared :=
  let '(mkShared c f _ t b n) := sh in mkShared c f r t b n.
Definition set_blocks (b : gmap nat Metrics) (sh : Shared) : Shared :=
  let '(mkShared c f r t _ n) := sh in mkShared c f r t b n.

(** [LocalPool::new], called by [Pool::local]: the new thread's store and the
    number of its metrics block. *)
Definition local_new {C} `{Features} (sh : Shared) (tk : nat) : World C * nat * Shared :=
  let i := sh.(next_block) in
  (world_new sh.(sh_closed) tk, i,
   if feature_metrics then
     mkShared sh.(sh_config) sh.(sh_closed) (prune sh ++ [i]) sh.(retired)
       (<[i := metrics_default]> sh.(blocks)) (S i)
   else sh).

(** The owning thread's update of its own block. *)
Definition update_block (i : nat) (f : Metrics → Metrics) (sh : Shared) : Shared :=
  set_blocks (alter f i sh.(blocks)) sh.

(** [Drop for Inner]: zero the gauges, retire the counters, and let the block go. *)
Definition inner_drop `{Features} (i : nat) (sh : Shared) : Shared :=
  match sh.(blocks) !! i with
  | Some m =>
      if feature_metrics then
        let m := store_waiters 0 (store_idle 0 (store_connections 0 m)) in
        let '(_, t) := retire_into m sh.(retired) in
        mkShared sh.(sh_config) sh.(sh_closed) sh.(registry) t (delete i sh.(blocks)) sh.(next_block)
      else sh
  | None => sh
  end.

(** The blocks a traversal of the registry upgrades. *)
Definition live_blocks (sh : Shared) : list Metrics := omap (λ i, sh.(blocks) !! i) sh.(registry).

(** [Shared::for_each_live_block] with a closure that accumulates into [acc]. *)
Definition for_each_live_block {A} (f : A → Metrics → outcome A) (acc : A) (sh : Shared) :
    outcome (A * Shared) :=
  r ← foldl (λ o m, a ← o; f a m) (mret acc) (live_blocks sh);
  mret (r, set_registry (prune sh) sh).

(** [Pool::state] and [Pool::statistics]. *)
Definition pool_state `{Features} (sh : Shared) : outcome (State * Shared) :=
  if feature_metrics
  then for_each_live_block (λ s m, State_add s (snapshot_state m)) state_default sh
  else mret (state_default, sh).
Definition pool_statistics `{Features} (sh : Shared) : outcome (Statistics * Shared) :=
  if feature_metrics
  then for_each_live_block (λ s m, Statistics_add s (snapshot_statistics m))
         (snapshot_statistics sh.(retired)) sh
  else mret (statistics_default, sh).

(** ** What the threads do to it *)

Inductive event :=
| ENew                                  (* a thread calls [Pool::local] *)
| ECount (i : nat) (k : counter) (n : N)  (* its owner counts *)
| EGauges (i : nat) (st : State)        (* its owner stores the gauges *)
| EDrop (i : nat)                       (* a thread's pool is dropped *)
| EScrape                               (* somebody scrapes *)
| EClose.

Definition store_gauges (st : State) (m : Metrics) : Metrics :=
  store_waiters st.(pending_waiters)
    (store_idle st.(idle_connections) (store_connections st.(connections) m)).

(** A block is updated and dropped by its owner, so only while it is alive. *)
Definition apply_event `{Features} (e : event) (sh : Shared) : option Shared :=
  match e with
  | ENew => Some (local_new (C := unit) sh 0).2
  | ECount i k n => if decide (is_Some (sh.(blocks) !! i)) then Some (update_block i (count k n) sh) else None
  | EGauges i st => if decide (is_Some (sh.(blocks) !! i)) then Some (update_block i (store_gauges st) sh) else None
  | EDrop i => if decide (is_Some (sh.(blocks) !! i)) then Some (inner_drop i sh) else None
  | EScrape => match pool_state sh with Val (_, sh) => Some sh | _ => None end
  | EClose => Some (pool_close sh)
  end.

Fixpoint apply_events `{Features} (es : list event) (sh : Shared) : option Shared :=
  match es with
  | [] => Some sh
  | e :: es => match apply_event e sh with Some sh => apply_events es sh | None => None end
  end.

(** Everything ever counted on [k], by any thread. *)
Definition counted (k : counter) (es : list event) : N :=
  foldr (λ e n, match e with ECount _ k' m => if decide (k = k') then m + n else n | _ => n end) 0 es.

(** ** Lemmas *)

Lemma retire_into_spec from into :
  snapshot_state (retire_into from into).1 = snapshot_state from ∧
  snapshot_state (retire_into from into).2 = snapshot_state into ∧
  (∀ k, load k (retire_into from into).1 = 0) ∧
  (∀ k, load k (retire_into from into).2 = fetch_add64 (load k into) (load k from)).
Proof. destruct from, into. split_and!; try done; intros k; by destruct k. Qed.

(** The registry lists every live block, once. *)
Record registry_ok (sh : Shared) : Prop := {
  rg_nodup : NoDup sh.(registry);
  rg_live : ∀ i, is_Some (sh.(blocks) !! i) → i ∈ sh.(registry);
  rg_next : ∀ i, i ∈ sh.(registry) → (i < sh.(next_block))%nat
}.

Definition sum_load (k : counter) (l : list Metrics) : N := foldr (λ m n, load k m + n) 0 l.

(** What [Pool::statistics] should add up to. *)
Definition lifetime (k : counter) (sh : Shared) : N :=
  load k sh.(retired) + sum_load k (live_blocks sh).

Lemma sum_load_app k l l' : sum_load k (l ++ l') = sum_load k l + sum_load k l'.
Proof. induction l as [|m l IH]; simpl; [done|]. rewrite IH. lia. Qed.

Lemma sum_load_perm k l l' : l ≡ₚ l' → sum_load k l = sum_load k l'.
Proof. induction 1; simpl; lia. Qed.

(** A live block stands alone among the others. *)
Lemma live_split (b : gmap nat Metrics) (r : list nat) i m :
  NoDup r → i ∈ r → b !! i = Some m →
  omap (λ j, b !! j) r ≡ₚ m :: omap (λ j, delete i b !! j) r.
Proof.
  intros Hnd Hi Hm. induction Hnd as [|j r Hj Hnd IH]; [set_solver|].
  assert (Hoff : ∀ l : list nat, i ∉ l →
    omap (λ j, delete i b !! j) l = omap (λ j, b !! j) l).
  { clear. induction l as [|j l IH]; intros Hi; [done|]. csimpl.
    rewrite lookup_delete_ne by set_solver. rewrite IH by set_solver. done. }
  csimpl. destruct (decide (i = j)) as [<-|Hne].
  - rewrite Hm, lookup_delete_eq. by rewrite Hoff.
  - rewrite lookup_delete_ne by done. apply elem_of_cons in Hi as [|Hi]; [done|].
    destruct (b !! j); [|by auto]. rewrite (IH Hi). apply Permutation_swap.
Qed.

Lemma live_pruned sh : omap (λ i, sh.(blocks) !! i) (prune sh) = live_blocks sh.
Proof.
  unfold prune, live_blocks. induction (registry sh) as [|i r IH]; [done|].
  rewrite filter_cons. csimpl. case_decide as Hi; csimpl.
  - destruct Hi as [m ->]. by rewrite IH.
  - apply eq_None_not_Some in Hi as ->. done.
Qed.

Lemma elem_of_prune sh i : i ∈ prune sh ↔ is_Some (sh.(blocks) !! i) ∧ i ∈ sh.(registry).
Proof. unfold prune. by rewrite list_elem_of_filter. Qed.

Section registry.
Context `{Features}.
Implicit Types sh : Shared.

Lemma registry_ok_new cfg : registry_ok (pool_new cfg).
Proof. split; simpl; [constructor|intros i [m Hm]; by rewrite lookup_empty in Hm|set_solver]. Qed.

Lemma registry_ok_update sh b :
  (∀ i, is_Some (b !! i) → is_Some (sh.(blocks) !! i)) →
  registry_ok sh → registry_ok (set_blocks b sh).
Proof. intros Hb []. destruct sh; split; simpl in *; eauto. Qed.

Lemma registry_ok_prune sh : registry_ok sh → registry_ok (set_registry (prune sh) sh).
Proof.
  intros [Hnd Hl Hn]. assert (Hnd' : NoDup (prune sh)) by (by apply NoDup_filter).
  assert (Hl' : ∀ i, is_Some (blocks sh !! i) → i ∈ prune sh)
    by (intros i Hi; apply elem_of_prune; auto).
  assert (Hn' : ∀ i, i ∈ prune sh → (i < next_block sh)%nat)
    by (intros i [_ Hi]%elem_of_prune; auto).
  destruct sh; split; simpl in *; auto.
Qed.

(** What one block contributes, and the rest. *)
Lemma lifetime_split sh i m k :
  registry_ok sh → sh.(blocks) !! i = Some m →
  lifetime k sh = load k sh.(retired) + load k m +
    sum_load k (omap (λ j, delete i sh.(blocks) !! j) sh.(registry)).
Proof.
  intros [] Hm. unfold lifetime, live_blocks.
  rewrite (sum_load_perm _ _ _ (live_split _ _ i m rg_nodup0 (rg_live0 i (ex_intro _ _ Hm)) Hm)).
  simpl. lia.
Qed.

Lemma lifetime_update sh i m f k :
  registry_ok sh → sh.(blocks) !! i = Some m →
  lifetime k (update_block i f sh) + load k m = lifetime k sh + load k (f m).
Proof.
  intros HR Hm. rewrite (lifetime_split sh i m) by done.
  assert (HR' : registry_ok (update_block i f sh)).
  { apply registry_ok_update; [|done]. intros j. rewrite lookup_alter_is_Some. done. }
  rewrite (lifetime_split (update_block i f sh) i (f m)).
  - unfold update_block. destruct sh; simpl in *. rewrite delete_alter_eq. lia.
  - done.
  - unfold update_block. destruct sh; simpl in *. rewrite lookup_alter_eq, Hm. done.
Qed.

Lemma live_blocks_new sh i :
  (∀ j, j ∈ sh.(registry) → (j < i)%nat) →
  omap (λ j, <[i := metrics_default]> sh.(blocks) !! j) (prune sh ++ [i])
  = live_blocks sh ++ [metrics_default].
Proof.
  intros Hi. rewrite omap_app. f_equal.
  - rewrite <-live_pruned. assert (Hp : ∀ j, j ∈ prune sh → j ≠ i)
      by (intros j [_ Hj]%elem_of_prune Heq; apply Hi in Hj; lia).
    induction (prune sh) as [|j r IH]; [done|]. csimpl.
    rewrite lookup_insert_ne by (symmetry; apply Hp; set_solver). rewrite IH; set_solver.
  - simpl. by rewrite lookup_insert_eq.
Qed.

(** A dropped block's counters move to the retired block. *)
Lemma lifetime_drop sh i k :
  registry_ok sh → is_Some (sh.(blocks) !! i) → lifetime k sh < U64 → feature_metrics = true →
  lifetime k (inner_drop i sh) = lifetime k sh.
Proof.
  intros HR [m Hm] Hlt Hf. rewrite (lifetime_split sh i m) in * by done.
  unfold inner_drop. rewrite Hm, Hf.
  set (m0 := store_waiters 0 (store_idle 0 (store_connections 0 m))).
  destruct (retire_into_spec m0 (retired sh)) as (_ & _ & _ & Hk). specialize (Hk k).
  destruct (retire_into m0 (retired sh)) as [f t]. simpl in Hk.
  assert (Hm0 : load k m0 = load k m) by (subst m0; destruct m, k; done).
  unfold lifetime, live_blocks. simpl. rewrite Hk, Hm0, fetch_add64_small; lia.
Qed.

Lemma registry_ok_drop sh i : registry_ok sh → registry_ok (inner_drop i sh).
Proof.
  intros HR. unfold inner_drop. destruct (blocks sh !! i); [|done].
  destruct feature_metrics; [|done]. destruct (retire_into _ _) as [f t], HR.
  split; simpl; auto. intros j [m' Hj]. apply lookup_delete_Some in Hj. naive_solver.
Qed.

Lemma registry_ok_local sh :
  registry_ok sh → registry_ok (local_new (C := unit) sh 0).2.
Proof.
  intros HR. unfold local_new. simpl. destruct feature_metrics; [|done].
  destruct (registry_ok_prune _ HR) as [Hnd _ _], HR as [_ Hl Hn].
  assert (Hi : ∀ j, j ∈ prune sh → (j < next_block sh)%nat) by (intros j [_ Hj]%elem_of_prune; auto).
  split; simpl.
  - apply NoDup_app. split_and!; [by destruct sh| |apply NoDup_singleton].
    intros j Hj%Hi ->%list_elem_of_singleton. lia.
  - intros j [m Hj]. apply elem_of_app. apply lookup_insert_Some in Hj as [[<- _]|[_ Hj]].
    + right. by left.
    + left. apply elem_of_prune. split; [|apply Hl]; eauto.
  - intros j [Hj%Hi| ->%list_elem_of_singleton]%elem_of_app; lia.
Qed.

Lemma lifetime_local sh k :
  registry_ok sh → feature_metrics = true →
  lifetime k (local_new (C := unit) sh 0).2 = lifetime k sh.
Proof.
  intros HR Hf. unfold local_new. simpl. rewrite Hf. unfold lifetime at 1, live_blocks. simpl.
  rewrite live_blocks_new by apply HR. rewrite sum_load_app.
  assert (load k metrics_default = 0) as Hz by by destruct k.
  simpl. rewrite Hz. unfold lifetime. lia.
Qed.

Lemma live_blocks_prune sh : live_blocks (set_registry (prune sh) sh) = live_blocks sh.
Proof. rewrite <-(live_pruned sh). by destruct sh. Qed.

(** One event: the registry stays in order, and the totals grow by what was counted. *)
Lemma apply_event_lifetime e sh sh' :
  registry_ok sh → feature_metrics = true → apply_event e sh = Some sh' →
  (∀ k, lifetime k sh + counted k [e] < U64) →
  registry_ok sh' ∧ ∀ k, lifetime k sh' = lifetime k sh + counted k [e].
Proof.
  intros HR Hf He Hlt. destruct e as [|i k n|i st|i| |]; unfold apply_event in He.
  - apply (inj Some) in He as <-. split; [by apply registry_ok_local|]. intros k.
    rewrite lifetime_local by done. simpl. lia.
  - case_decide as Hi; [|done]. injection He as <-. destruct Hi as [m Hm]. split.
    { apply registry_ok_update; [|done]. intros j. rewrite lookup_alter_is_Some. done. }
    intros k'. pose proof (lifetime_update sh i m (count k n) k' HR Hm) as Hu.
    rewrite load_count in Hu. specialize (Hlt k'). simpl in *.
    rewrite (lifetime_split sh i m) in Hlt by done.
    case_decide; [|lia]. rewrite fetch_add64_small in Hu; lia.
  - case_decide as Hi; [|done]. injection He as <-. destruct Hi as [m Hm]. split.
    { apply registry_ok_update; [|done]. intros j. rewrite lookup_alter_is_Some. done. }
    intros k'. pose proof (lifetime_update sh i m (store_gauges st) k' HR Hm) as Hu.
    assert (load k' (store_gauges st m) = load k' m) as Hg by by destruct m, k'.
    simpl. lia.
  - case_decide as Hi; [|done]. injection He as <-. split; [by apply registry_ok_drop|].
    intros k. specialize (Hlt k). simpl in *. rewrite lifetime_drop by (done || lia). lia.
  - destruct (pool_state sh) as [[st sh1]| |] eqn:Hs; [|done..]. injection He as ->.
    unfold pool_state, for_each_live_block in Hs. rewrite Hf in Hs.
    destruct (foldl _ _ _) as [st'| |]; try done. cbn in Hs. injection Hs as <- <-.
    split; [by apply registry_ok_prune|]. intros k. unfold lifetime.
    rewrite live_blocks_prune. destruct sh. simpl. lia.
  - injection He as <-. destruct sh, HR. split; [by split|]. intros k. simpl. unfold lifetime, live_blocks. simpl. lia.
Qed.

Lemma apply_events_lifetime es sh sh' :
  registry_ok sh → feature_metrics = true → apply_events es sh = Some sh' →
  (∀ k, lifetime k sh + counted k es < U64) →
  registry_ok sh' ∧ ∀ k, lifetime k sh' = lifetime k sh + counted k es.
Proof.
  revert sh. induction es as [|e es IH]; intros sh HR Hf Hes Hlt; simpl in Hes.
  { injection Hes as <-. split; [done|]. intros k. simpl. lia. }
  destruct (apply_event e sh) as [sh1|] eqn:He; [|done].
  assert (Hsplit : ∀ k, counted k (e :: es) = counted k [e] + counted k es)
    by (intros k; destruct e; simpl; repeat case_decide; lia).
  destruct (apply_event_lifetime e sh sh1) as [HR1 H1]; [done..|intros k|].
  { specialize (Hlt k). rewrite Hsplit in Hlt. lia. }
  destruct (IH sh1 HR1 Hf Hes) as [HR' H'].
  { intros k. specialize (Hlt k). rewrite Hsplit in Hlt. rewrite H1. lia. }
  split; [done|]. intros k. rewrite H', H1, Hsplit. lia.
Qed.
End registry.

(** ** Scraping *)

(** The statistics whose counters are given by [f]. *)
Definition stats_of (f : counter → N) : Statistics :=
  mkStatistics (f GetDirect) (f GetWaited) (f GetTimedOut) (f ConnectionsCreated) (f ClosedBroken)
    (f ClosedIdleTimeout) (f ClosedMaxLifetime) (f ClosedManual) (from_micros (f WaitMicros)).

Lemma stats_of_snapshot m : snapshot_statistics m = stats_of (λ k, load k m).
Proof. by destruct m. Qed.

Lemma stats_of_ext f g : (∀ k, f k = g k) → stats_of f = stats_of g.
Proof. intros Hk. unfold stats_of. by rewrite !Hk. Qed.

Lemma Statistics_add_of `{Features} f g :
  (∀ k, f k + g k < U64) → Statistics_add (stats_of f) (stats_of g) = Val (stats_of (λ k, f k + g k)).
Proof.
  intros Hlt. unfold Statistics_add, stats_of. simpl. rewrite !add_u_small by apply Hlt.
  unfold duration_add, from_micros. simpl.
  pose proof (Hlt WaitMicros) as Hw. unfold U64 in Hw.
  destruct (N.leb_spec (f WaitMicros * 1000 + g WaitMicros * 1000) duration_max) as [_|Hgt].
  - simpl. do 2 f_equal. lia.
  - unfold duration_max in Hgt. lia.
Qed.

Lemma fold_statistics `{Features} l f :
  (∀ k, f k + sum_load k l < U64) →
  foldl (λ o m, a ← o; Statistics_add a (snapshot_statistics m)) (Val (stats_of f)) l
  = Val (stats_of (λ k, f k + sum_load k l)).
Proof.
  revert f. induction l as [|m l IH]; intros f Hlt; simpl in *.
  - f_equal. apply stats_of_ext. intros k. lia.
  - rewrite stats_of_snapshot, Statistics_add_of by (intros k; specialize (Hlt k); lia).
    rewrite IH by (intros k; specialize (Hlt k); lia). f_equal. apply stats_of_ext. intros k. lia.
Qed.

(** Lifetime totals.  Whatever the threads do (start, count, store their gauges, exit,
    scrape, close), [Pool::statistics] returns exactly what they have counted, threads
    that have since exited included: retiring a block loses nothing and counts nothing
    twice. *)
Theorem statistics_lifetime `{Features} cfg es sh :
  feature_metrics = true → apply_events es (pool_new cfg) = Some sh →
  (∀ k, counted k es < U64) →
  pool_statistics sh = Val (stats_of (λ k, counted k es), set_registry (prune sh) sh).
Proof.
  intros Hf Hes Hlt.
  assert (Hzero : ∀ k, lifetime k (pool_new cfg) = 0) by by intros [].
  destruct (apply_events_lifetime es _ sh (registry_ok_new cfg) Hf Hes) as [_ Hl].
  { intros k. rewrite Hzero, N.add_0_l. apply Hlt. }
  assert (Hk : ∀ k, load k (retired sh) + sum_load k (live_blocks sh) = counted k es).
  { intros k. specialize (Hl k). rewrite Hzero in Hl. unfold lifetime in Hl. lia. }
  unfold pool_statistics, for_each_live_block. rewrite Hf, stats_of_snapshot.
  change (mret (stats_of (λ k, load k (retired sh)))) with (Val (stats_of (λ k, load k (retired sh)))).
  rewrite fold_statistics by (intros k; by rewrite Hk). cbn. do 2 f_equal. by apply stats_of_ext.
Qed.

Lemma statistics_lifetime_witness :
  let _ := {| feature_metrics := true; overflow_checks := true |} : Features in
  ∃ sh, apply_events [ENew; ECount 0 GetDirect 5; ENew; ECount 1 GetDirect 2; EDrop 0; EScrape; ENew]
          (pool_new default_config) = Some sh ∧
    pool_statistics sh = Val (mkStatistics 7 0 0 0 0 0 0 0 0, set_registry (prune sh) sh).
Proof.
  intros _f. eexists. split; [vm_compute; reflexivity|].
  refine (statistics_lifetime default_config
    [ENew; ECount 0 GetDirect 5; ENew; ECount 1 GetDirect 2; EDrop 0; EScrape; ENew] _ _ _ _);
    [reflexivity|vm_compute; reflexivity|]. intros []; vm_compute; reflexivity.
Defined.

(** The live blocks in a list of their own, numbers and all. *)
Lemma live_blocks_perm sh : registry_ok sh → live_blocks sh ≡ₚ (map_to_list sh.(blocks)).*2.
Proof.
  intros [Hnd Hl _]. unfold live_blocks.
  set (g := λ i, (λ m : Metrics, (i, m)) <$> blocks sh !! i).
  assert (Hfst : ∀ r, (omap g r).*2 = omap (λ i, blocks sh !! i) r).
  { induction r as [|i r IH]; [done|]. csimpl. unfold g at 1.
    destruct (blocks sh !! i); simpl; by rewrite <-IH. }
  rewrite <-Hfst. apply fmap_Permutation. apply NoDup_Permutation.
  - apply (NoDup_fmap_1 fst). clear Hl. induction Hnd as [|i r Hi Hnd IH]; [constructor|].
    csimpl. unfold g at 1. destruct (blocks sh !! i); simpl; [|done]. constructor; [|done].
    intros ([j m'] & -> & (j' & Hj & Hg)%list_elem_of_omap)%list_elem_of_fmap.
    unfold g in Hg. destruct (blocks sh !! j'); simplify_eq/=. done.
  - apply NoDup_map_to_list.
  - intros [i m]. rewrite elem_of_map_to_list, list_elem_of_omap. split.
    + intros (j & _ & Hg). unfold g in Hg. by destruct (blocks sh !! j) eqn:?; simplify_eq/=.
    + intros Hm. exists i. split; [apply Hl; eauto|]. unfold g. by rewrite Hm.
Qed.

Definition sum_of (f : Metrics → N) (l : list Metrics) : N := foldr (λ m n, f m + n) 0 l.

Lemma sum_of_perm f l l' : l ≡ₚ l' → sum_of f l = sum_of f l'.
Proof. induction 1; simpl; lia. Qed.

Lemma fold_state `{Features} l c i w :
  c + sum_of m_connections l < U32 → i + sum_of m_idle l < U32 → w + sum_of m_waiters l < U32 →
  foldl (λ o m, a ← o; State_add a (snapshot_state m)) (Val (mkState c i w)) l
  = Val (mkState (c + sum_of m_connections l) (i + sum_of m_idle l) (w + sum_of m_waiters l)).
Proof.
  revert c i w. induction l as [|m l IH]; intros c i w Hc Hi Hw; simpl in *.
  - by rewrite !N.add_0_r.
  - unfold State_add at 2. simpl. rewrite !add_u_small by lia. simpl.
    rewrite IH by lia. do 2 f_equal; lia.
Qed.

(** The process-wide snapshot.  [Pool::state] adds up the gauges of exactly the
    threads whose pools are alive, each once, and leaves in the registry exactly their
    entries. *)
Theorem state_sums_live `{Features} cfg es sh :
  feature_metrics = true → apply_events es (pool_new cfg) = Some sh →
  (∀ k, counted k es < U64) →
  let live := (map_to_list sh.(blocks)).*2 in
  sum_of m_connections live < U32 → sum_of m_idle live < U32 → sum_of m_waiters live < U32 →
  ∃ sh', pool_state sh = Val (mkState (sum_of m_connections live) (sum_of m_idle live)
                                (sum_of m_waiters live), sh') ∧
    NoDup sh'.(registry) ∧ (∀ i, i ∈ sh'.(registry) ↔ is_Some (sh'.(blocks) !! i)) ∧
    sh'.(blocks) = sh.(blocks).
Proof.
  intros Hf Hes Hlt live Hc Hi Hw. subst live.
  assert (Hzero : ∀ k, lifetime k (pool_new cfg) = 0) by (intros []; reflexivity).
  destruct (apply_events_lifetime es _ sh (registry_ok_new cfg) Hf Hes) as [HR _].
  { intros k. rewrite Hzero, N.add_0_l. apply Hlt. }
  pose proof (live_blocks_perm sh HR) as Hp. exists (set_registry (prune sh) sh). split_and!.
  - unfold pool_state, for_each_live_block. rewrite Hf.
    change (mret state_default) with (Val (mkState 0 0 0)).
    rewrite fold_state by (rewrite (sum_of_perm _ _ _ Hp); lia).
    rewrite !(sum_of_perm _ _ _ Hp). done.
  - by apply registry_ok_prune.
  - intros i. assert (Hreg : i ∈ prune sh ↔ is_Some (blocks sh !! i)).
    { rewrite elem_of_prune. split; [by intros []|]. intros Hi'. split; [done|]. by apply HR. }
    by destruct sh.
  - by destruct sh.
Qed.

Definition demo_events : list event :=
  [ENew; EGauges 0 (mkState 3 1 0); ENew; EGauges 1 (mkState 2 0 4); ENew; EDrop 2].
Definition demo_shared : Shared :=
  let _ := {| feature_metrics := true; overflow_checks := true |} : Features in
  default (pool_new default_config) (apply_events demo_events (pool_new default_config)).

(** Three threads came, one has gone: its entry is still registered until the scrape. *)
Lemma state_sums_live_witness :
  let _ := {| feature_metrics := true; overflow_checks := true |} : Features in
  demo_shared.(registry) = [0%nat; 1%nat; 2%nat] ∧
  ∃ sh', pool_state demo_shared = Val (mkState
      (sum_of m_connections (map_to_list demo_shared.(blocks)).*2)
      (sum_of m_idle (map_to_list demo_shared.(blocks)).*2)
      (sum_of m_waiters (map_to_list demo_shared.(blocks)).*2), sh') ∧
    NoDup sh'.(registry) ∧ (∀ i, i ∈ sh'.(registry) ↔ is_Some (sh'.(blocks) !! i)) ∧
    sh'.(blocks) = demo_shared.(blocks).
Proof.
  intros _f. split; [vm_compute; reflexivity|].
  apply (state_sums_live default_config demo_events demo_shared); [reflexivity|vm_compute; reflexivity|intros []; vm_compute; reflexivity|vm_compute; reflexivity..].
Defined.

(** ** A scrape racing an exit

    One counter of an exiting thread's block, step by step: [retire_into] swaps the
    value out and then adds it; [Pool::statistics] reads the retired block and later
    the live one. *)
Inductive rstep := RSwap | RAdd | RReadRetired | RReadLive.

Record Race := mkRace {
  r_live : N; r_hand : option N; r_retired : N;
  r_swapped : bool; r_seen_retired : option N; r_seen_live : option N
}.

Definition race_step (s : rstep) (r : Race) : option Race :=
  let '(mkRace live hand ret sw sr sl) := r in
  match s with
  | RSwap => if sw then None else Some (mkRace 0 (Some live) ret true sr sl)
  | RAdd => match hand with Some v => Some (mkRace live None (fetch_add64 ret v) sw sr sl) | None => None end
  | RReadRetired => match sr with None => Some (mkRace live hand ret sw (Some ret) sl) | Some _ => None end
  | RReadLive => match sr, sl with
                 | Some _, None => Some (mkRace live hand ret sw sr (Some live))
                 | _, _ => None
                 end
  end.

Fixpoint race_run (ss : list rstep) (r : Race) : option Race :=
  match ss with
  | [] => Some r
  | s :: ss => match race_step s r with Some r => race_run ss r | None => None end
  end.

Definition race_start (v t : N) : Race := mkRace v None t false None None.

(** What holds at every point of the race for a value [v] and earlier total [t]. *)
Definition race_inv (v t : N) (r : Race) : Prop :=
  r.(r_live) + default 0 r.(r_hand) + r.(r_retired) = v + t ∧
  (r.(r_swapped) = false → r.(r_hand) = None) ∧
  match r.(r_seen_retired), r.(r_seen_live) with
  | None, None => True
  | Some a, None => a ≤ r.(r_retired)
  | Some a, Some b => a + b ≤ v + t
  | None, Some _ => False
  end.

Lemma race_step_inv v t s r r' :
  v + t < U64 → race_inv v t r → race_step s r = Some r' → race_inv v t r'.
Proof.
  destruct r as [live hand ret sw sr sl]. unfold race_inv. simpl. intros Hlt (Hsum & Hsw & Hseen) Hs.
  destruct s, sr, sl; simpl in Hs; repeat case_match; simplify_eq; simpl in *;
    try (specialize (Hsw eq_refl); subst; simpl in * );
    simplify_eq; rewrite ?fetch_add64_small by lia; unfold id in *; simpl in *;
    (split_and!; [lia|done|try done; lia]).
Qed.

(** C26: a racing scrape counts nothing twice.  However a scrape interleaves with the
    retirement of a block, what it reads from the retired block and then from the live
    one adds up to at most what was ever counted. *)
Theorem scrape_never_doubles v t ss r a b :
  v + t < U64 → race_run ss (race_start v t) = Some r →
  r.(r_seen_retired) = Some a → r.(r_seen_live) = Some b → a + b ≤ v + t.
Proof.
  intros Hlt Hrun Ha Hb. assert (Hinv : race_inv v t r).
  { assert (H0 : race_inv v t (race_start v t)) by (unfold race_inv; simpl; split_and!; [lia|done|done]).
    revert Hrun H0. generalize (race_start v t). induction ss as [|s ss IH]; intros r0 Hrun H0;
      simpl in Hrun; [by simplify_eq|].
    destruct (race_step s r0) as [r1|] eqn:Hs; [|done].
    apply (IH r1); [done|]. by eapply race_step_inv. }
  destruct Hinv as (_ & _ & Hseen). by rewrite Ha, Hb in Hseen.
Qed.

Lemma scrape_never_doubles_witness :
  ∃ r, race_run [RSwap; RReadRetired; RAdd; RReadLive] (race_start 5 2) = Some r ∧ 2 + 0 ≤ 5 + 2.
Proof.
  eexists. split; [vm_compute; reflexivity|].
  eapply (scrape_never_doubles 5 2 [RSwap; RReadRetired; RAdd; RReadLive]);
    [vm_compute; reflexivity..].
Defined.

(** But it may miss a value: a scrape that reads the retired block before an exit and
    the live block after it sees the value in neither place. *)
Theorem scrape_can_miss v t :
  ∃ r, race_run [RReadRetired; RSwap; RAdd; RReadLive] (race_start v t) = Some r ∧
    r.(r_seen_retired) = Some t ∧ r.(r_seen_live) = Some 0.
Proof. eexists. split; [reflexivity|done]. Qed.

(** Retiring a block moves every counter.  Afterwards each cumulative counter of the
    block is zero and its value has been added, modulo 2^64, to the retired one; the
    gauges of neither are touched. *)
Theorem retire_moves_all (from into : Metrics) (k : counter) :
  let '(emptied, total) := retire_into from into in
  load k emptied = 0 ∧ load k total = fetch_add64 (load k into) (load k from) ∧
  snapshot_state emptied = snapshot_state from ∧ snapshot_state total = snapshot_state into.
Proof.
  destruct (retire_into_spec from into) as (H1 & H2 & H3 & H4).
  destruct (retire_into from into). split_and!; [apply H3|apply H4|done|done].
Qed.

(** The mean wait.  [average_wait_time] is the total over the number of checkouts that
    waited as long as that number fits 32 bits, and zero when there were none.  Beyond that
    it divides by the number modulo 2^32: the 2^32nd waiter resets it to zero. *)
Theorem average_wait_time_exact (s : Statistics) :
  (s.(get_waited) = 0 → average_wait_time s = 0) ∧
  (0 < s.(get_waited) < U32 → average_wait_time s = s.(total_wait_time) / s.(get_waited)) ∧
  (∀ q, s.(get_waited) = q * U32 → average_wait_time s = 0) ∧
  (∀ q k, s.(get_waited) = q * U32 + k → 0 < k < U32 → average_wait_time s = s.(total_wait_time) / k).
Proof.
  unfold average_wait_time, checked_div.
  assert (Hk : ∀ k, 0 < k < U32 → default 0 (if k =? 0 then None else Some (total_wait_time s / k))
    = total_wait_time s / k) by (intros k Hk; destruct (N.eqb_spec k 0); [lia|done]).
  split_and!.
  - by intros ->.
  - intros Hw. rewrite as_u32_small by lia. by apply Hk.
  - intros q ->. unfold as_u32. by rewrite N.Div0.mod_mul.
  - intros q k -> Hr. unfold as_u32. rewrite N.add_comm, N.Div0.mod_add, N.mod_small by lia. by apply Hk.
Qed.
