(* ===== verification/Process.v ===== *)
(** A whole process: the shared [Pool], and on each of its threads a [LocalPool] at
    work ([src/src/pool.rs]).

    Every thread steps its own store, in any interleaving with the others; what it
    writes to its metrics block is what a scrape on any thread reads.  An action of a
    thread, and its exit, is taken whole: a scrape falls between two of them ([Registry] has
    a scrape that does not). *)

From stdpp Require Import gmap.
From S2P Require Import Prelude Manage Builder Metrics Store Waiters Inner Local Futures Balance System Scenario Closing Registry.

(** [pr_threads] has the threads whose pool is alive, each with the number of its
    metrics block; [pr_gone], a ghost, the blocks of the pools since dropped as they
    stood. *)
Record Process (C E : Type) := mkProcess {
  pr_shared : Shared;
  pr_threads : gmap nat (nat * Sys C E);
  pr_gone : list Metrics
}.
Arguments mkProcess {C E} _ _ _.
Arguments pr_shared {C E} _.
Arguments pr_threads {C E} _.
Arguments pr_gone {C E} _.

Inductive pevent (C : Type) : Type :=
| PLocal (n : nat) (tk : nat)          (* thread [n] calls [Pool::local] *)
| PAct (n : nat) (a : action C)        (* thread [n] runs one action of its pool *)
| PExit (n : nat)                      (* the last handle on its pool is dropped *)
| PState                               (* somebody calls [Pool::state] *)
| PStatistics                          (* somebody calls [Pool::statistics] *)
| PClose.                              (* somebody calls [Pool::close] *)
Arguments PLocal {C} _ _.
Arguments PAct {C} _ _.
Arguments PExit {C} _.
Arguments PState {C}.
Arguments PStatistics {C}.
Arguments PClose {C}.

Section process.
Context {C E : Type} {F : Features}.
(** Each thread has its own clock and timers, and its own answers from the servers. *)
Context (R : nat → Runtime) (M : nat → ManageConnection C E).
Context (cfg : PoolConfig).
Implicit Types (p : Process C E) (s : Sys C E).

Definition thread_exec (n : nat) (a : action C) s : option (outcome (Sys C E)) :=
  @exec C E F (R n) (M n) cfg a s.

Definition is_close (a : action C) : bool := match a with DoClose => true | _ => false end.

(** The shared side of a thread's action: its block is rewritten, and a [close] sets
    the flag. *)
Definition publish (b : nat) (a : action C) s (sh : Shared) : Shared :=
  let sh := update_block b (λ _, s.(world).(metrics)) sh in
  if is_close a then pool_close sh else sh.

(** A thread reads the flag as set only when it is. *)
Definition coherent s (sh : Shared) : bool :=
  implb s.(world).(closed) (pool_is_closed sh).

Definition process_new : Process C E := mkProcess (pool_new cfg) ∅ [].

Definition with_shared p (sh : Shared) : Process C E := mkProcess sh p.(pr_threads) p.(pr_gone).

(** A scrape's answer is read off its result; the process keeps the pruned registry. *)
Definition scrape {A} p (o : outcome (A * Shared)) : outcome (Process C E) :=
  r ← o; mret (with_shared p r.2).

(** [None] where the event cannot happen. *)
Definition pexec (e : pevent C) p : option (outcome (Process C E)) :=
  match e with
  | PLocal n tk =>
      match p.(pr_threads) !! n with
      | None =>
          let '(w, b, sh) := local_new p.(pr_shared) tk in
          Some (Val (mkProcess sh (<[n := (b, mkSys w ∅ ∅ [])]> p.(pr_threads)) p.(pr_gone)))
      | Some _ => None
      end
  | PAct n a =>
      t ← p.(pr_threads) !! n;
      o ← thread_exec n a t.2;
      match o with
      | Val s =>
          let sh := publish t.1 a s p.(pr_shared) in
          if coherent s sh
          then Some (Val (mkProcess sh (<[n := (t.1, s)]> p.(pr_threads)) p.(pr_gone)))
          else None
      | Panic => Some Panic
      | NoFuel => Some NoFuel
      end
  | PExit n =>
      t ← p.(pr_threads) !! n;
      if decide (t.2.(tasks) = ∅ ∧ t.2.(leases) = ∅) then
        Some (Val (mkProcess (inner_drop t.1 p.(pr_shared)) (delete n p.(pr_threads))
                     (p.(pr_gone) ++ [t.2.(world).(metrics)])))
      else None
  | PState => Some (scrape p (pool_state p.(pr_shared)))
  | PStatistics => Some (scrape p (pool_statistics p.(pr_shared)))
  | PClose => Some (Val (with_shared p (pool_close p.(pr_shared))))
  end.

(** The widths a thread's action needs. *)
Definition proom (e : pevent C) p : Prop :=
  match e with
  | PAct n a => match p.(pr_threads) !! n with Some t => room cfg a t.2 | None => True end
  | _ => True
  end.

Inductive preachable : Process C E → Prop :=
| preach_new : preachable process_new
| preach_step p e p' :
    preachable p → proom e p → pexec e p = Some (Val p') → preachable p'.

#[export] Instance proom_dec e p : Decision (proom e p).
Proof. destruct e; simpl; repeat case_match; apply _. Defined.

(** Run a list of events, as [Scenario.run] does on one thread. *)
Fixpoint prun (es : list (pevent C)) p : option (Process C E) :=
  match es with
  | [] => Some p
  | e :: es =>
      if decide (proom e p) then
        match pexec e p with Some (Val p') => prun es p' | _ => None end
      else None
  end.

Lemma prun_reachable es p p' : preachable p → prun es p = Some p' → preachable p'.
Proof.
  revert p. induction es as [|e es IH]; intros p Hp Hr; simpl in Hr; [by simplify_eq|].
  case_decide; [|done]. destruct (pexec e p) as [[p1| |]|] eqn:He; try done.
  apply (IH p1); [|done]. by eapply preach_step.
Qed.

(** ** Sums over the threads *)

(** The pools alive, in the order of their threads' numbers. *)
Definition stores p : list (World C) := (λ t, t.2.2.(world)) <$> map_to_list p.(pr_threads).

Definition total (f : World C → N) p : N := foldr (λ w n, f w + n) 0 (stores p).

(** What the process has counted on [k]: its live threads and those that have exited. *)
Definition ever_counted (k : counter) p : N :=
  sum_load k p.(pr_gone) + total (λ w, load k w.(metrics)) p.

(** The shared side mirrors the threads. *)
Record process_inv p : Prop := {
  pi_registry : registry_ok p.(pr_shared);
  pi_thread : ∀ n t, p.(pr_threads) !! n = Some t → @reachable C E F (R n) (M n) cfg t.2;
  pi_block : feature_metrics = true → ∀ n t, p.(pr_threads) !! n = Some t →
    p.(pr_shared).(blocks) !! t.1 = Some t.2.(world).(metrics);
  pi_owner : feature_metrics = true → ∀ b, is_Some (p.(pr_shared).(blocks) !! b) →
    ∃ n s, p.(pr_threads) !! n = Some (b, s);
  pi_apart : feature_metrics = true → ∀ n n' t t',
    p.(pr_threads) !! n = Some t → p.(pr_threads) !! n' = Some t' → t.1 = t'.1 → n = n';
  pi_retired : feature_metrics = true →
    ∀ k, load k p.(pr_shared).(retired) = sum_load k p.(pr_gone) mod U64;
  pi_closed : ∀ n t, p.(pr_threads) !! n = Some t →
    t.2.(world).(closed) = true → p.(pr_shared).(sh_closed) = true
}.
End process.

(** ** The shared side, field by field *)

Section fields.
Context {F : Features}.
Implicit Types sh : Shared.

Lemma update_block_fields b f sh :
  (update_block b f sh).(blocks) = alter f b sh.(blocks) ∧
  (update_block b f sh).(retired) = sh.(retired) ∧
  (update_block b f sh).(sh_closed) = sh.(sh_closed).
Proof. by destruct sh. Qed.

Lemma pool_close_fields sh :
  (pool_close sh).(blocks) = sh.(blocks) ∧ (pool_close sh).(retired) = sh.(retired) ∧
  (pool_close sh).(registry) = sh.(registry) ∧ (pool_close sh).(sh_closed) = true.
Proof. by destruct sh. Qed.

Lemma set_registry_fields r sh :
  (set_registry r sh).(blocks) = sh.(blocks) ∧ (set_registry r sh).(retired) = sh.(retired) ∧
  (set_registry r sh).(sh_closed) = sh.(sh_closed).
Proof. by destruct sh. Qed.

Lemma registry_ok_close sh : registry_ok sh → registry_ok (pool_close sh).
Proof. intros []. by destruct sh. Qed.

(** What a scrape leaves: the registry pruned, and nothing else touched. *)
Lemma for_each_live_block_leaves {A} (f : A → Metrics → outcome A) acc sh r sh' :
  for_each_live_block f acc sh = Val (r, sh') → sh' = set_registry (prune sh) sh.
Proof.
  unfold for_each_live_block. destruct (foldl _ _ _) as [x| |]; try done. by intros [= _ <-].
Qed.

Lemma pool_state_leaves sh r sh' :
  pool_state sh = Val (r, sh') → sh' = set_registry (prune sh) sh ∨ sh' = sh.
Proof.
  unfold pool_state. destruct feature_metrics.
  - intros Heq%for_each_live_block_leaves. by left.
  - cbn. intros [= <- <-]. by right.
Qed.

Lemma pool_statistics_leaves sh r sh' :
  pool_statistics sh = Val (r, sh') → sh' = set_registry (prune sh) sh ∨ sh' = sh.
Proof.
  unfold pool_statistics. destruct feature_metrics.
  - intros Heq%for_each_live_block_leaves. by left.
  - cbn. intros [= <- <-]. by right.
Qed.

Lemma inner_drop_fields i sh :
  (∀ b, is_Some ((inner_drop i sh).(blocks) !! b) → is_Some (sh.(blocks) !! b)) ∧
  (feature_metrics = true → (inner_drop i sh).(blocks) = delete i sh.(blocks)) ∧
  (inner_drop i sh).(sh_closed) = sh.(sh_closed) ∧
  (feature_metrics = true → ∀ m k, sh.(blocks) !! i = Some m →
     load k (inner_drop i sh).(retired) = fetch_add64 (load k sh.(retired)) (load k m)).
Proof.
  unfold inner_drop. destruct (blocks sh !! i) as [m|] eqn:Hi.
  - destruct feature_metrics; [|by split_and!].
    set (m0 := store_waiters 0 (store_idle 0 (store_connections 0 m))).
    destruct (retire_into_spec m0 (retired sh)) as (_ & _ & _ & Hk).
    destruct (retire_into m0 (retired sh)) as [f t]. simpl in *. split_and!; [|done..|].
    + intros b [m' Hb]. apply lookup_delete_Some in Hb as [_ ?]. eauto.
    + intros _ m' k [= <-]. rewrite Hk. subst m0. by destruct m, k.
  - split_and!; [done| |done|done]. intros _. by rewrite delete_id.
Qed.
End fields.

Section invariant.
Context {C E : Type} {F : Features}.
Context (R : nat → Runtime) (M : nat → ManageConnection C E).
Context (cfg : PoolConfig).
Implicit Types (p : Process C E) (s : Sys C E).
#[local] Abbreviation process_inv := (process_inv R M cfg).

Lemma process_inv_new : process_inv (process_new cfg).
Proof.
  split; simpl; [apply registry_ok_new|intros *; rewrite lookup_empty; done| | | | |].
  - intros _ n t. by rewrite lookup_empty.
  - intros _ b [m Hm]. by rewrite lookup_empty in Hm.
  - intros _ n n' t t'. by rewrite lookup_empty.
  - intros _ k. by destruct k.
  - intros n t. by rewrite lookup_empty.
Qed.

(** A change of the shared side that touches no block. *)
Lemma process_inv_shared p sh :
  process_inv p → registry_ok sh → sh.(blocks) = p.(pr_shared).(blocks) →
  sh.(retired) = p.(pr_shared).(retired) →
  (p.(pr_shared).(sh_closed) = true → sh.(sh_closed) = true) →
  process_inv (with_shared p sh).
Proof.
  intros [] Hr Hb Ht Hc. split; simpl; [done|done| | |done| |].
  - by rewrite Hb.
  - by rewrite Hb.
  - by rewrite Ht.
  - eauto.
Qed.

Lemma process_inv_scrape p sh :
  process_inv p → sh = set_registry (prune p.(pr_shared)) p.(pr_shared) ∨ sh = p.(pr_shared) →
  process_inv (with_shared p sh).
Proof.
  intros HI [->| ->]; [|by destruct p].
  destruct (set_registry_fields (prune (pr_shared p)) (pr_shared p)) as (Hb & Ht & Hc).
  apply process_inv_shared; try done; [|by rewrite Hc].
  apply registry_ok_prune, HI.
Qed.

Lemma process_inv_local p n tk :
  process_inv p → p.(pr_threads) !! n = None →
  process_inv (mkProcess (local_new (C := C) p.(pr_shared) tk).2
    (<[n := (p.(pr_shared).(next_block),
             mkSys (world_new p.(pr_shared).(sh_closed) tk) ∅ ∅ [])]> p.(pr_threads))
    p.(pr_gone)).
Proof.
  intros [] Hn. pose proof (registry_ok_local _ pi_registry0) as Hr.
  change (local_new (C := C) (pr_shared p) tk).2 with (local_new (C := unit) (pr_shared p) 0).2.
  assert (Hfresh : feature_metrics = true → ∀ n' t, pr_threads p !! n' = Some t →
    t.1 ≠ next_block (pr_shared p)).
  { intros Hf n' t Hn' Heq. pose proof (pi_block0 Hf _ _ Hn') as Hb.
    pose proof (rg_next _ pi_registry0 _ (rg_live _ pi_registry0 _ (ex_intro _ _ Hb))). lia. }
  unfold local_new in *. simpl in *. split; simpl; [done| | | | | |].
  - intros n' t [[<- <-]|[_ Ht]]%lookup_insert_Some; [apply reach_init|eauto].
  - intros Hf n' t. rewrite Hf. simpl. intros [[<- <-]|[_ Ht]]%lookup_insert_Some; simpl.
    + by rewrite lookup_insert_eq.
    + rewrite lookup_insert_ne; [by eapply pi_block0|]. symmetry. by eapply Hfresh.
  - intros Hf b Hb. destruct (decide (b = next_block (pr_shared p))) as [->|Hne].
    + exists n. eexists. by rewrite lookup_insert_eq.
    + destruct (pi_owner0 Hf b) as (n' & s & Hs).
      { rewrite Hf in Hb. simpl in Hb. by rewrite lookup_insert_ne in Hb. }
      exists n', s. rewrite lookup_insert_ne; [done|]. intros ->. congruence.
  - intros Hf n1 n2 t1 t2 [[<- <-]|[_ H1]]%lookup_insert_Some [[<- <-]|[_ H2]]%lookup_insert_Some;
      simpl; [done|..|by eapply pi_apart0]; intros Heq; exfalso.
    + by eapply Hfresh.
    + by eapply Hfresh.
  - intros Hf k. rewrite Hf. simpl. by apply pi_retired0.
  - intros n' t [[<- <-]|[_ Ht]]%lookup_insert_Some; simpl.
    + by destruct feature_metrics.
    + intros Hc. destruct feature_metrics; eauto.
Qed.

Lemma publish_fields b a s sh :
  (publish b a s sh).(blocks) = alter (λ _, s.(world).(metrics)) b sh.(blocks) ∧
  (publish b a s sh).(retired) = sh.(retired) ∧
  (sh.(sh_closed) = true → (publish b a s sh).(sh_closed) = true) ∧
  (registry_ok sh → registry_ok (publish b a s sh)).
Proof.
  unfold publish.
  destruct (update_block_fields b (λ _, metrics (world s)) sh) as (Hb & Ht & Hc).
  destruct (pool_close_fields (update_block b (λ _, metrics (world s)) sh)) as (Hb' & Ht' & _ & Hc').
  assert (Hr : registry_ok sh → registry_ok (update_block b (λ _, metrics (world s)) sh)).
  { apply registry_ok_update. intros j. by rewrite lookup_alter_is_Some. }
  destruct (is_close a).
  - rewrite Hb', Ht', Hc'. split_and!; try done. auto using registry_ok_close.
  - rewrite Hb, Ht, Hc. by split_and!.
Qed.

Lemma process_inv_act p n b a s s' :
  process_inv p → p.(pr_threads) !! n = Some (b, s) → @reachable C E F (R n) (M n) cfg s' →
  coherent s' (publish b a s' p.(pr_shared)) = true →
  process_inv (mkProcess (publish b a s' p.(pr_shared)) (<[n := (b, s')]> p.(pr_threads)) p.(pr_gone)).
Proof.
  intros [] Hn Hs Hcoh. destruct (publish_fields b a s' (pr_shared p)) as (Hb & Ht & Hc & Hr).
  split; simpl; [by auto| | | | | |].
  - intros n' t [[<- <-]|[_ Hn']]%lookup_insert_Some; eauto.
  - intros Hf n' t. rewrite Hb. intros [[<- <-]|[Hne Hn']]%lookup_insert_Some; simpl.
    + pose proof (pi_block0 Hf _ _ Hn) as Hbs. simpl in Hbs. by rewrite lookup_alter_eq, Hbs.
    + rewrite lookup_alter_ne; [by eapply pi_block0|]. intros Heq. apply Hne.
      by eapply (pi_apart0 Hf _ _ (b, s) t).
  - intros Hf b'. rewrite Hb, lookup_alter_is_Some. intros (n' & s1 & Hn')%(pi_owner0 Hf).
    destruct (decide (n' = n)) as [->|Hne].
    + exists n, s'. rewrite lookup_insert_eq. by simplify_eq.
    + exists n', s1. by rewrite lookup_insert_ne.
  - intros Hf n1 n2 t1 t2 [[<- <-]|[? H1]]%lookup_insert_Some [[<- <-]|[? H2]]%lookup_insert_Some;
      simpl; [done|..|by eapply pi_apart0]; intros Heq.
    + by eapply (pi_apart0 Hf _ _ (b, s) t2).
    + by eapply (pi_apart0 Hf _ _ t1 (b, s)).
  - by rewrite Ht.
  - intros n' t [[<- <-]|[_ Hn']]%lookup_insert_Some; simpl; [|by eauto].
    intros Hcl. unfold coherent in Hcoh. by rewrite Hcl in Hcoh.
Qed.

Lemma sum_load_snoc k l m : sum_load k (l ++ [m]) = sum_load k l + load k m.
Proof. rewrite sum_load_app. simpl. lia. Qed.

Lemma process_inv_exit p n b s :
  process_inv p → p.(pr_threads) !! n = Some (b, s) →
  process_inv (mkProcess (inner_drop b p.(pr_shared)) (delete n p.(pr_threads))
                 (p.(pr_gone) ++ [s.(world).(metrics)])).
Proof.
  intros [] Hn. destruct (inner_drop_fields b (pr_shared p)) as (Hsome & Hb & Hc & Ht).
  split; simpl; [by apply registry_ok_drop| | | | | |].
  - intros n' t [_ ?]%lookup_delete_Some. eauto.
  - intros Hf n' t [Hne Hn']%lookup_delete_Some. rewrite (Hb Hf), lookup_delete_ne; [by eapply pi_block0|].
    intros Heq. apply Hne. by eapply (pi_apart0 Hf _ _ (b, s) t).
  - intros Hf b' Hb'. rewrite (Hb Hf) in Hb'. destruct Hb' as [m [Hne Hm]%lookup_delete_Some].
    destruct (pi_owner0 Hf b' (ex_intro _ _ Hm)) as (n' & s' & Hn'). exists n', s'.
    rewrite lookup_delete_ne; [done|]. intros ->. by simplify_eq.
  - intros Hf n1 n2 t1 t2 [_ H1]%lookup_delete_Some [_ H2]%lookup_delete_Some. by eapply pi_apart0.
  - intros Hf k. rewrite (Ht Hf _ k (pi_block0 Hf _ _ Hn)), (pi_retired0 Hf), sum_load_snoc.
    unfold fetch_add64. by rewrite N.Div0.add_mod_idemp_l.
  - intros n' t [_ ?]%lookup_delete_Some. rewrite Hc. eauto.
Qed.

Lemma pexec_inv p e p' :
  process_inv p → proom cfg e p → pexec R M cfg e p = Some (Val p') → process_inv p'.
Proof.
  intros HI Hroom He. destruct e as [n tk|n a|n| | |]; simpl in He.
  - destruct (pr_threads p !! n) eqn:Hn; simplify_eq/=. by apply process_inv_local.
  - apply bind_Some in He as ([b s] & Hn & He). apply bind_Some in He as ([s'| |] & Hs & He); [|done..].
    simpl in He, Hroom. rewrite Hn in Hroom. destruct (coherent _ _) eqn:Hcoh; simplify_eq.
    eapply process_inv_act; [done|done| |done].
    eapply reach_step; [by eapply pi_thread; [|exact Hn]|done|exact Hs].
  - apply bind_Some in He as ([b s] & Hn & He). case_decide; simplify_eq. by apply process_inv_exit.
  - unfold scrape in He. destruct (pool_state _) as [[r sh]| |] eqn:Hs; [|done..].
    injection He as <-.
    apply process_inv_scrape; [done|]. by eapply pool_state_leaves.
  - unfold scrape in He. destruct (pool_statistics _) as [[r sh]| |] eqn:Hs; [|done..].
    injection He as <-.
    apply process_inv_scrape; [done|]. by eapply pool_statistics_leaves.
  - simplify_eq. destruct (pool_close_fields (pr_shared p)) as (Hb & Ht & _ & Hc).
    apply process_inv_shared; try done. apply registry_ok_close, HI.
Qed.

Lemma preachable_inv p : preachable R M cfg p → process_inv p.
Proof. induction 1; [apply process_inv_new|by eapply pexec_inv]. Qed.

(** The blocks a scrape reads are the threads' own, in some order. *)
Lemma blocks_are_stores p :
  process_inv p → feature_metrics = true →
  live_blocks p.(pr_shared) ≡ₚ metrics <$> stores p.
Proof.
  intros HI Hf. rewrite live_blocks_perm by apply HI. unfold stores. rewrite <-list_fmap_compose.
  rewrite (list_fmap_ext (metrics ∘ (λ t : nat * (nat * Sys C E), world t.2.2))
    (snd ∘ (λ t : nat * (nat * Sys C E), (t.2.1, metrics (world t.2.2))))) by done.
  rewrite (list_fmap_compose _ snd). apply fmap_Permutation, NoDup_Permutation.
  - apply NoDup_map_to_list.
  - apply NoDup_fmap_2_strong; [|apply NoDup_map_to_list].
    intros [n t] [n' t'] Hn%elem_of_map_to_list Hn'%elem_of_map_to_list [= Heq _].
    assert (n = n') as <- by (by eapply (pi_apart _ _ _ _ HI Hf _ _ t t')). by simplify_eq.
  - intros [b m]. rewrite elem_of_map_to_list, list_elem_of_fmap. split.
    + intros Hm. destruct (pi_owner _ _ _ _ HI Hf b (ex_intro _ _ Hm)) as (n & s & Hn).
      exists (n, (b, s)). split; [|by apply elem_of_map_to_list].
      pose proof (pi_block _ _ _ _ HI Hf _ _ Hn) as Hb. simpl in *. by simplify_eq.
    + intros ([n t] & Heq & Hn%elem_of_map_to_list). simplify_eq/=. by eapply pi_block.
Qed.
End invariant.

(** ** What a scrape answers *)

Section totals.
Context {C E : Type} {F : Features}.
Context (R : nat → Runtime) (M : nat → ManageConnection C E).
Context (cfg : PoolConfig).
Implicit Types (p : Process C E) (w : World C).

Lemma elem_of_stores p w :
  w ∈ stores p ↔ ∃ n t, p.(pr_threads) !! n = Some t ∧ w = t.2.(world).
Proof.
  unfold stores. rewrite list_elem_of_fmap. split.
  - intros ([n t] & -> & Hn%elem_of_map_to_list). by exists n, t.
  - intros (n & t & Hn & ->). exists (n, t). by rewrite elem_of_map_to_list.
Qed.

Lemma length_stores p : length (stores p) = size p.(pr_threads).
Proof. unfold stores. by rewrite length_fmap, length_map_to_list. Qed.

Lemma total_ext (f g : World C → N) p : (∀ w, w ∈ stores p → f w = g w) → total f p = total g p.
Proof.
  unfold total. generalize (stores p). induction l as [|w l IH]; intros Hfg; [done|]. simpl.
  rewrite Hfg, IH; [done|set_solver..].
Qed.

Lemma total_le (f g : World C → N) p : (∀ w, w ∈ stores p → f w ≤ g w) → total f p ≤ total g p.
Proof.
  unfold total. generalize (stores p). induction l as [|w l IH]; intros Hfg; simpl; [done|].
  apply N.add_le_mono; [|apply IH]; set_solver.
Qed.

Lemma total_const c p : total (λ _, c) p = N.of_nat (size p.(pr_threads)) * c.
Proof.
  rewrite <-length_stores. unfold total. induction (stores p) as [|w l IH]; [simpl; lia|].
  cbn [foldr length]. rewrite IH. lia.
Qed.

Lemma total_elem (f : World C → N) p w : w ∈ stores p → f w ≤ total f p.
Proof. unfold total. induction 1 as [w l|w v l _ IH]; simpl; lia. Qed.

Lemma total_blocks (f : Metrics → N) p :
  process_inv R M cfg p → feature_metrics = true →
  sum_of f (live_blocks p.(pr_shared)) = total (λ w, f w.(metrics)) p.
Proof.
  intros HI Hf. rewrite (sum_of_perm _ _ _ (blocks_are_stores R M cfg p HI Hf)).
  unfold total. induction (stores p) as [|w l IH]; [done|]. cbn [foldr]. by rewrite <-IH.
Qed.

(** What each thread's own books say of its store. *)
Lemma thread_books p w :
  (∀ n, RuntimeLaws (R n)) → config_ok cfg → process_inv R M cfg p → feature_metrics = true →
  w ∈ stores p →
  w.(slots) ≤ cfg.(max_size) ∧ len w.(idle) ≤ w.(slots) ∧
  m_connections w.(metrics) = w.(slots) ∧ m_idle w.(metrics) = len w.(idle) ∧
  m_waiters w.(metrics) = as_u32 (len w.(waiters).(entries)).
Proof.
  intros HR Hcfg HI Hf (n & t & Hn & ->)%elem_of_stores.
  pose proof (pi_thread _ _ _ _ HI _ _ Hn) as Ht. pose proof (HR n).
  destruct (reachable_inv cfg Hcfg t.2 Ht) as [_ (nx & _ & [Hsl Hm _ _ _ _ Hg])].
  specialize (Hg Hf). injection Hg as -> -> ->. split_and!; [lia|lia|done..].
Qed.

(** C22: [Pool::state] is the sum of the threads' own states.  With the [metrics] feature
    on, the snapshot taken between any two actions of any threads is the slot, idle and
    queue counts of the pools alive, each once, and of no pool that is gone; there are
    never more connections than [max_size] a thread; and the registry is left with
    exactly the live pools' entries.  This is for sums within the [u32] fields of
    [State]: [max_size] a thread and the tasks queued both add up to less than 2^32.
    With the feature off there is nothing to sum: the snapshot is all zeros and nothing
    changes. *)
Theorem state_is_threads_sum p :
  (∀ n, RuntimeLaws (R n)) → config_ok cfg → preachable R M cfg p →
  N.of_nat (size p.(pr_threads)) * cfg.(max_size) < U32 →
  total (λ w, len w.(waiters).(entries)) p < U32 →
  let open := total slots p in
  let free := total (λ w, len w.(idle)) p in
  if feature_metrics then
    ∃ sh, pool_state p.(pr_shared)
          = Val (mkState open free (total (λ w, len w.(waiters).(entries)) p), sh) ∧
      free ≤ open ≤ N.of_nat (size p.(pr_threads)) * cfg.(max_size) ∧
      (∀ b, b ∈ sh.(registry) ↔ ∃ n s, p.(pr_threads) !! n = Some (b, s))
  else pool_state p.(pr_shared) = Val (mkState 0 0 0, p.(pr_shared)).
Proof.
  destruct feature_metrics eqn:Hf; intros HR Hcfg Hp Hsize Hwait open free;
    [|unfold pool_state; by rewrite Hf].
  apply preachable_inv in Hp as HI.
  pose proof (λ w, thread_books p w HR Hcfg HI Hf) as Hbooks.
  assert (Hfree : free ≤ open) by (apply total_le; intros w Hw; by destruct (Hbooks w Hw) as (_ & ? & _)).
  assert (Hopen : open ≤ N.of_nat (size (pr_threads p)) * max_size cfg).
  { rewrite <-total_const. apply total_le. intros w Hw. by destruct (Hbooks w Hw). }
  assert (H1 : sum_of m_connections (live_blocks (pr_shared p)) = open).
  { rewrite total_blocks by done. apply total_ext. intros w Hw. apply (Hbooks w Hw). }
  assert (H2 : sum_of m_idle (live_blocks (pr_shared p)) = free).
  { rewrite total_blocks by done. apply total_ext. intros w Hw. apply (Hbooks w Hw). }
  assert (H3 : sum_of m_waiters (live_blocks (pr_shared p)) = total (λ w, len w.(waiters).(entries)) p).
  { rewrite total_blocks by done. apply total_ext. intros w Hw.
    destruct (Hbooks w Hw) as (_ & _ & _ & _ & ->). apply as_u32_small.
    pose proof (total_elem (λ w, len (entries (waiters w))) p w Hw). simpl in *. lia. }
  exists (set_registry (prune p.(pr_shared)) p.(pr_shared)). split_and!; [|done..|].
  - unfold pool_state, for_each_live_block. rewrite Hf.
    change (mret state_default) with (Val (mkState 0 0 0)).
    rewrite fold_state by lia. rewrite H1, H2, H3, !N.add_0_l. done.
  - intros b. assert (Hreg : b ∈ prune (pr_shared p) ↔ is_Some (blocks (pr_shared p) !! b)).
    { rewrite elem_of_prune. split; [by intros []|]. intros Hb. split; [done|]. by apply HI. }
    replace (registry (set_registry (prune (pr_shared p)) (pr_shared p)))
      with (prune (pr_shared p)) by (by destruct (pr_shared p)).
    rewrite Hreg. split; [by apply HI|]. intros (n & s & Hn). pose proof (pi_block _ _ _ _ HI Hf _ _ Hn). eauto.
Qed.

(** C23: [Pool::statistics] is the sum of the threads' own statistics, those that have
    exited included.  With the [metrics] feature on, a call that falls between whole
    actions and exits of the threads returns, for each counter, whatever the live pools'
    blocks say now and the dropped pools' said at their end, as long as each of these
    sums is below 2^64.  (A call that runs while a thread retires its block may find a
    counter in neither place, [Registry.scrape_can_miss], though never in both.)
    With the feature off every counter reads zero. *)
Theorem statistics_are_threads_sum p :
  preachable R M cfg p → (∀ k, ever_counted k p < U64) →
  if feature_metrics then
    ∃ sh, pool_statistics p.(pr_shared) = Val (stats_of (λ k, ever_counted k p), sh)
  else pool_statistics p.(pr_shared) = Val (stats_of (λ _, 0), p.(pr_shared)).
Proof.
  destruct feature_metrics eqn:Hf; intros Hp Hlt; [|unfold pool_statistics; by rewrite Hf].
  apply preachable_inv in Hp as HI.
  assert (Hsum : ∀ k, load k (retired (pr_shared p)) + sum_load k (live_blocks (pr_shared p))
    = ever_counted k p).
  { intros k. rewrite (pi_retired _ _ _ _ HI Hf).
    change (sum_load k) with (sum_of (load k)) at 2. rewrite total_blocks by done.
    specialize (Hlt k). unfold ever_counted in *. rewrite N.mod_small by lia. done. }
  eexists. unfold pool_statistics, for_each_live_block. rewrite Hf, stats_of_snapshot.
  change (mret (stats_of ?f)) with (Val (stats_of f)).
  rewrite fold_statistics by (intros k; by rewrite Hsum). cbn.
  rewrite (stats_of_ext _ (λ k, ever_counted k p)) by done. done.
Qed.
End totals.

(** ** Closing *)

Section closing.
Context {C E : Type} {F : Features}.
Context (R : nat → Runtime) (M : nat → ManageConnection C E).
Context (cfg : PoolConfig).
Implicit Types (p : Process C E).

(** Whatever pool thread [n] has, it has read the flag as set. *)
Definition told (n : nat) p : Prop :=
  ∀ t, p.(pr_threads) !! n = Some t → t.2.(world).(closed) = true.

Lemma pexec_closing n p e p' :
  process_inv R M cfg p → pexec R M cfg e p = Some (Val p') → p.(pr_shared).(sh_closed) = true →
  told n p → p'.(pr_shared).(sh_closed) = true ∧ told n p'.
Proof.
  intros HI He Hc Hn. destruct e as [i tk|i a|i| | |]; simpl in He.
  - destruct (pr_threads p !! i) eqn:Hi; simplify_eq/=. split; [by destruct feature_metrics|].
    intros t; cbn [pr_threads]; intros [[<- <-]|[_ Ht]]%lookup_insert_Some; simpl; [done|by apply Hn].
  - apply bind_Some in He as ([b s] & Hi & He). apply bind_Some in He as ([s'| |] & Hs & He); [|done..].
    destruct (coherent _ _); simplify_eq/=.
    destruct (publish_fields b a s' (pr_shared p)) as (_ & _ & Hkeep & _). split; [by apply Hkeep|].
    intros t; cbn [pr_threads]; intros [[<- <-]|[_ Ht]]%lookup_insert_Some; simpl; [|by apply Hn].
    eapply exec_stays_closed; [by eapply (pi_thread _ _ _ _ HI _ _ Hi)|exact Hs|by apply (Hn _ Hi)].
  - apply bind_Some in He as ([b s] & Hi & He). case_decide; simplify_eq/=.
    destruct (inner_drop_fields b (pr_shared p)) as (_ & _ & -> & _). split; [done|].
    intros t; cbn [pr_threads]; intros [_ Ht]%lookup_delete_Some. by apply Hn.
  - unfold scrape in He. destruct (pool_state _) as [[r sh]| |] eqn:Hs; [|done..].
    injection He as <-. simpl. apply pool_state_leaves in Hs as [->| ->]; [|done].
    destruct (set_registry_fields (prune (pr_shared p)) (pr_shared p)) as (_ & _ & ->). done.
  - unfold scrape in He. destruct (pool_statistics _) as [[r sh]| |] eqn:Hs; [|done..].
    injection He as <-. simpl. apply pool_statistics_leaves in Hs as [->| ->]; [|done].
    destruct (set_registry_fields (prune (pr_shared p)) (pr_shared p)) as (_ & _ & ->). done.
  - simplify_eq/=. split; [by destruct (pr_shared p)|done].
Qed.

(** C24: closing is honest and final.  A thread answers [Closed] only after somebody has
    called [close]; and from a close on the flag stays set, and a thread that makes its
    pool later, or has already noticed, reads it as set ever after, so that each of its
    calls is refused. *)
Theorem close_honest_and_final p es p' n t :
  preachable R M cfg p → prun R M cfg es p = Some p' → p'.(pr_threads) !! n = Some t →
  (has_refused t.2 → pool_is_closed p'.(pr_shared) = true) ∧
  (pool_is_closed p.(pr_shared) = true → told n p →
   pool_is_closed p'.(pr_shared) = true ∧ t.2.(world).(closed) = true).
Proof.
  intros Hp Hrun Ht. split.
  - intros Href. assert (HI : process_inv R M cfg p')
      by (eapply preachable_inv, prun_reachable; [exact Hp|exact Hrun]).
    eapply (pi_closed _ _ _ _ HI); [exact Ht|].
    eapply reachable_honest; [by eapply (pi_thread _ _ _ _ HI _ _ Ht)|done].
  - intros Hc Hn. revert p Hp Hrun Hc Hn.
    induction es as [|e es IH]; intros p Hp Hrun Hc Hn; simpl in Hrun; [simplify_eq; by split; [|apply Hn]|].
    case_decide as Hroom; [|done]. destruct (pexec R M cfg e p) as [[p1| |]|] eqn:He; try done.
    destruct (pexec_closing n p e p1) as [Hc1 Hn1]; [by apply preachable_inv|done..|].
    apply (IH p1); [by eapply preach_step|done..].
Qed.
End closing.

(** ** Two threads *)

#[local] Instance pair_features : Features := {| feature_metrics := true; overflow_checks := true |}.
#[local] Existing Instance demo_manager.

(** Another thread's [close] is seen on occasion 40 at the earliest. *)
Definition pair_runtime (n : nat) : Runtime := demo_runtime (if n is O then None else Some 40%nat).
Definition pair_manager (n : nat) : ManageConnection N string := demo_manager.

Definition pair_busy : list (pevent N) :=
  [PLocal 0 0; PAct 0 (Spawn 0 CallGet); PAct 0 (PollTask 0); PAct 0 (Spawn 1 CallGet);
   PAct 0 (PollTask 1); PAct 0 (Spawn 2 CallGet); PAct 0 (PollTask 2);
   PLocal 1 0; PAct 1 (Spawn 0 CallWarm); PAct 1 (PollTask 0)].
Definition pair_new : Process N string := process_new demo_config.
Definition pair_process : Process N string :=
  default pair_new (prun pair_runtime pair_manager demo_config pair_busy pair_new).

(** Thread 1 exits, somebody closes, and a third thread arrives. *)
Definition pair_late : list (pevent N) :=
  [PExit 1; PState; PClose; PLocal 2 50; PAct 2 (Spawn 0 CallGet); PAct 2 (PollTask 0)].
Definition pair_after : Process N string :=
  default pair_new (prun pair_runtime pair_manager demo_config pair_late pair_process).

Lemma pair_reachable : preachable pair_runtime pair_manager demo_config pair_process.
Proof.
  apply (prun_reachable _ _ _ pair_busy pair_new); [apply preach_new|vm_compute; reflexivity].
Qed.

#[local] Lemma pair_laws n : RuntimeLaws (pair_runtime n).
Proof. apply demo_runtime_laws. Qed.

#[local] Lemma pair_config_ok : config_ok demo_config.
Proof. by split. Qed.

(** Thread 0 has two leases and a parked task, thread 1 one idle connection. *)
Lemma state_is_threads_sum_witness :
  size pair_process.(pr_threads) = 2%nat ∧
  ∃ sh, pool_state pair_process.(pr_shared) = Val (mkState 3 1 1, sh).
Proof.
  split; [vm_compute; reflexivity|].
  destruct (state_is_threads_sum (F := pair_features) pair_runtime pair_manager demo_config
    pair_process pair_laws pair_config_ok pair_reachable
    ltac:(vm_compute; reflexivity) ltac:(vm_compute; reflexivity)) as (sh & Hs & _).
  exists sh. exact Hs.
Defined.

(** Thread 1's dial outlives its pool. *)
Lemma statistics_are_threads_sum_witness :
  size pair_after.(pr_threads) = 2%nat ∧
  ∃ sh, pool_statistics pair_after.(pr_shared) = Val (mkStatistics 2 0 0 3 0 0 0 0 0, sh).
Proof.
  split; [vm_compute; reflexivity|].
  destruct (statistics_are_threads_sum (F := pair_features) pair_runtime pair_manager demo_config
    pair_after) as (sh & Hs).
  - apply (prun_reachable _ _ _ pair_late pair_process); [apply pair_reachable|vm_compute; reflexivity].
  - intros []; vm_compute; reflexivity.
  - exists sh. exact Hs.
Defined.

(** The newcomer is refused, and the pool had been closed. *)
Lemma close_honest_and_final_witness :
  ∃ t, pair_after.(pr_threads) !! 2%nat = Some t ∧ t.2.(answers) = [(0%nat, Failed Closed)] ∧
    pool_is_closed pair_after.(pr_shared) = true.
Proof.
  eexists. split_and!; [vm_compute; reflexivity|vm_compute; reflexivity|].
  refine (proj1 (close_honest_and_final (F := pair_features) pair_runtime pair_manager demo_config
    pair_process pair_late pair_after 2 _ pair_reachable _ _) _);
    [vm_compute; reflexivity..|].
  exists 0%nat. vm_compute. by left.
Defined.
