(* ===== verification/Cpu.v ===== *)
(** Core enumeration, selection and masks ([src/src/cpu.rs]). *)

From Stdlib Require Import Sorting.Sorted.
From stdpp Require Import sorting pretty strings.
From S2P Require Import Prelude.

(** ** Sorting and deduplicating a [Vec]

    [sort_by_key] is stable; keys are compared lexicographically. *)

Fixpoint lex_leb (k k' : list N) : bool :=
  match k, k' with
  | [], _ => true
  | _ :: _, [] => false
  | a :: k, b :: k' => if a =? b then lex_leb k k' else a <? b
  end.

Fixpoint insert_by {A} (key : A → list N) (x : A) (l : list A) : list A :=
  match l with
  | [] => [x]
  | y :: l => if lex_leb (key x) (key y) then x :: y :: l else y :: insert_by key x l
  end.

Definition sort_by_key {A} (key : A → list N) (l : list A) : list A :=
  foldr (insert_by key) [] l.

(** [dedup_by_key]: of equal neighbours the first stays. *)
Fixpoint dedup_from {A} (key : A → N) (last : A) (l : list A) : list A :=
  match l with
  | [] => []
  | y :: l => if key y =? key last then dedup_from key last l else y :: dedup_from key y l
  end.
Definition dedup_by_key {A} (key : A → N) (l : list A) : list A :=
  match l with [] => [] | x :: l => x :: dedup_from key x l end.

(** ** Cores *)

Record CoreId := mkCoreId { id : N }.

(** [cores], from what [core_affinity::get_core_ids] returns. *)
Definition cores (get_core_ids : option (list CoreId)) : list CoreId :=
  dedup_by_key id (sort_by_key (λ c, [c.(id)]) (default [] get_core_ids)).

(** [pin_current], through [core_affinity::set_for_current]. *)
Definition pin_current (set_for_current : CoreId → bool) (core : CoreId) : bool :=
  set_for_current core.

(** ** [affinity_mask] *)

Definition hex_digit (n : N) : Ascii.ascii :=
  if n <? 10 then Ascii.ascii_of_N (48 + n) else Ascii.ascii_of_N (87 + n).

(** The lowest [k] hexadecimal digits of [n], in front of [s]. *)
Fixpoint hex_digits (k : nat) (n : N) (s : string) : string :=
  match k with
  | O => s
  | S k => hex_digits k (n / 16) (String (hex_digit (n mod 16)) s)
  end.

(** [format!("{bits:08x}")] of a [u32]. *)
Definition hex08 (bits : N) : string := hex_digits 8 bits "".

Definition affinity_mask (cpu : N) : string :=
  let words := N.to_nat (cpu / 32 + 1) in
  foldl (λ out w,
      let bits := if N.of_nat w =? cpu / 32 then N.shiftl 1 (cpu mod 32) else 0 in
      (if decide (out = ""%string) then out else out +:+ ",") +:+ hex08 bits)
    ""%string (rev (seq 0 words)).

(** Reading such a mask back: commas (44) are skipped. *)
Definition digit_value (a : Ascii.ascii) : option N :=
  let n := Ascii.N_of_ascii a in
  if (48 <=? n) && (n <=? 57) then Some (n - 48)
  else if (97 <=? n) && (n <=? 102) then Some (n - 87)
  else None.

Fixpoint parse_mask (acc : N) (s : string) : option N :=
  match s with
  | EmptyString => Some acc
  | String a s =>
      if Ascii.eqb a (Ascii.ascii_of_N 44) then parse_mask acc s
      else match digit_value a with Some d => parse_mask (acc * 16 + d) s | None => None end
  end.

(** ** [CoreInfo] and [CoreSet] *)

Record CoreInfo := mkCoreInfo { cpu_id : N; core : N; package : N; numa_node : N }.

#[export] Instance CoreInfo_eq_dec : EqDecision CoreInfo.
Proof. solve_decision. Defined.

Definition core_id (c : CoreInfo) : CoreId := mkCoreId c.(cpu_id).

Record CoreSet := mkCoreSet { infos : list CoreInfo }.

Definition from_infos (l : list CoreInfo) : CoreSet := mkCoreSet l.

(** The [HashSet] of the cores already seen. *)
Fixpoint retain_unseen (seen : list (N * N)) (l : list CoreInfo) : list CoreInfo :=
  match l with
  | [] => []
  | c :: l =>
      if decide ((c.(package), c.(core)) ∈ seen) then retain_unseen seen l
      else c :: retain_unseen ((c.(package), c.(core)) :: seen) l
  end.
Definition physical_only (s : CoreSet) : CoreSet := mkCoreSet (retain_unseen [] s.(infos)).

Definition coreset_filter (pred : CoreInfo → bool) (s : CoreSet) : CoreSet :=
  mkCoreSet (filter (λ c, pred c = true) s.(infos)).
Definition on_numa_node (node : N) (s : CoreSet) : CoreSet :=
  coreset_filter (λ c, c.(numa_node) =? node) s.
Definition on_package (pkg : N) (s : CoreSet) : CoreSet :=
  coreset_filter (λ c, c.(package) =? pkg) s.

(** The [BTreeMap] from package to its cores: ordered by package, each group in
    the order its cores came. *)
Fixpoint group_push (c : CoreInfo) (groups : list (N * list CoreInfo)) : list (N * list CoreInfo) :=
  match groups with
  | [] => [(c.(package), [c])]
  | (p, g) :: groups =>
      if c.(package) <? p then (c.(package), [c]) :: (p, g) :: groups
      else if c.(package) =? p then (p, g ++ [c]) :: groups
      else (p, g) :: group_push c groups
  end.
Definition group_by_package (l : list CoreInfo) : list (N * list CoreInfo) :=
  foldl (λ gs c, group_push c gs) [] l.

Definition spread_key (c : CoreInfo) : list N := [c.(numa_node); c.(core); c.(cpu_id)].

(** One round over the columns: what it takes, and the columns left. *)
Fixpoint take_round (columns : list (list CoreInfo)) : list CoreInfo * list (list CoreInfo) :=
  match columns with
  | [] => ([], [])
  | [] :: cols => let '(out, rest) := take_round cols in (out, [] :: rest)
  | (c :: col) :: cols => let '(out, rest) := take_round cols in (c :: out, col :: rest)
  end.

(** The [while draining] loop. *)
Fixpoint drain (fuel : nat) (columns : list (list CoreInfo)) : outcome (list CoreInfo) :=
  match fuel with
  | O => NoFuel
  | S fuel =>
      let '(out, rest) := take_round columns in
      match out with
      | [] => Val []
      | _ => match drain fuel rest with Val l => Val (out ++ l) | Panic => Panic | NoFuel => NoFuel end
      end
  end.

(** Every round but the last takes a core, so one more round than there are cores
    is enough. *)
Definition spread (s : CoreSet) : outcome CoreSet :=
  let columns := (λ pg, sort_by_key spread_key pg.2) <$> group_by_package s.(infos) in
  l ← drain (S (length s.(infos))) columns;
  mret (mkCoreSet l).

Definition pack (s : CoreSet) : CoreSet :=
  mkCoreSet (sort_by_key (λ c, [c.(package); c.(numa_node); c.(core); c.(cpu_id)]) s.(infos)).

(** [CoreSet::take], [len], [is_empty], [core_ids] and [into_iter]. *)
Definition coreset_take (n : nat) (s : CoreSet) : CoreSet := mkCoreSet (take n s.(infos)).
Definition coreset_len (s : CoreSet) : N := len s.(infos).
Definition coreset_is_empty (s : CoreSet) : bool := match s.(infos) with [] => true | _ => false end.
Definition core_ids (s : CoreSet) : list CoreId := core_id <$> s.(infos).
Definition into_iter (s : CoreSet) : list CoreId := core_ids s.

(** ** sysfs

    [read_to_string path] and [read_dir path] are the file system: a file's
    contents (ASCII, as sysfs writes it), and a directory's entry names in the
    order it lists them, or [None] when they cannot be read. *)

Definition is_white (a : Ascii.ascii) : bool :=
  let n := Ascii.N_of_ascii a in ((9 <=? n) && (n <=? 13)) || (n =? 32).

Fixpoint trim_start (s : string) : string :=
  match s with
  | String a s' => if is_white a then trim_start s' else s
  | EmptyString => EmptyString
  end.
Definition trim_end (s : string) : string := String.rev (trim_start (String.rev s)).
Definition trim (s : string) : string := trim_end (trim_start s).

(** [str::parse::<usize>()]: an optional [+] (43), then decimal digits that fit. *)
Fixpoint parse_digits (acc : N) (s : string) : option N :=
  match s with
  | EmptyString => Some acc
  | String a s =>
      let n := Ascii.N_of_ascii a in
      if (48 <=? n) && (n <=? 57) then
        let acc := acc * 10 + (n - 48) in
        if acc <? U64 then parse_digits acc s else None
      else None
  end.
Definition parse_usize (s : string) : option N :=
  match s with
  | EmptyString => None
  | String a s' =>
      if Ascii.eqb a (Ascii.ascii_of_N 43) then match s' with EmptyString => None | _ => parse_digits 0 s' end
      else parse_digits 0 s
  end.

Section sysfs.
Context (read_to_string : string → option string) (read_dir : string → option (list string)).

Definition read_sysfs_usize (path : string) : option N :=
  s ← read_to_string path; parse_usize (trim s).

(** The number after the prefix [node], for the first entry that has one. *)
Definition node_number (name : string) : option N :=
  if String.prefix "node" name then parse_usize (String.substring 4 (String.length name - 4) name)
  else None.
Fixpoint first_node (entries : list string) : N :=
  match entries with
  | [] => 0
  | e :: es => match node_number e with Some n => n | None => first_node es end
  end.
Definition numa_node_of (i : N) : N :=
  match read_dir ("/sys/devices/system/cpu/cpu" +:+ pretty i) with
  | None => 0
  | Some entries => first_node entries
  end.

Definition topology_for (ids : list N) : list CoreInfo :=
  (λ i,
    let topo := "/sys/devices/system/cpu/cpu" +:+ pretty i +:+ "/topology" in
    mkCoreInfo i (default i (read_sysfs_usize (topo +:+ "/core_id")))
      (default 0 (read_sysfs_usize (topo +:+ "/physical_package_id"))) (numa_node_of i)) <$> ids.

(** [CoreSet::permitted]. *)
Definition permitted (get_core_ids : option (list CoreId)) : CoreSet :=
  mkCoreSet (topology_for (id <$> cores get_core_ids)).
End sysfs.

(** Off Linux. *)
Definition topology_for_other (ids : list N) : list CoreInfo :=
  (λ i, mkCoreInfo i i 0 0) <$> ids.

(** ** Lemmas *)

(** *** Sorting *)

Lemma lex_leb_total k k' : lex_leb k k' = true ∨ lex_leb k' k = true.
Proof.
  revert k'. induction k as [|a k IH]; intros [|b k']; simpl; auto.
  rewrite (N.eqb_sym b a). destruct (N.eqb_spec a b); [apply IH|].
  destruct (N.ltb_spec a b); [by left|right]. apply N.ltb_lt. lia.
Qed.

Lemma lex_leb_trans k1 k2 k3 : lex_leb k1 k2 = true → lex_leb k2 k3 = true → lex_leb k1 k3 = true.
Proof.
  revert k2 k3. induction k1 as [|a k1 IH]; intros [|b k2] [|c k3]; simpl; try done.
  destruct (N.eqb_spec a b), (N.eqb_spec b c), (N.eqb_spec a c); subst; try done; try lia;
    rewrite ?N.ltb_lt; try lia. apply IH.
Qed.

Section sort.
Context {A : Type} (key : A → list N).
Implicit Types l : list A.
Let le (x y : A) : Prop := lex_leb (key x) (key y) = true.

Lemma insert_by_perm x l : insert_by key x l ≡ₚ x :: l.
Proof.
  induction l as [|y l IH]; simpl; [done|]. destruct (lex_leb _ _); [done|].
  rewrite IH. apply Permutation_swap.
Qed.

Lemma sort_by_key_perm l : sort_by_key key l ≡ₚ l.
Proof. induction l as [|x l IH]; simpl; [done|]. by rewrite insert_by_perm, IH. Qed.

Lemma insert_by_sorted x l : StronglySorted le l → StronglySorted le (insert_by key x l).
Proof.
  induction 1 as [|y l Hs IH Hall]; simpl; [repeat constructor|].
  destruct (lex_leb (key x) (key y)) eqn:Hxy.
  - constructor; [by constructor|]. constructor; [done|].
    eapply Forall_impl; [exact Hall|]. intros z Hz. by eapply lex_leb_trans.
  - constructor; [done|]. rewrite insert_by_perm. constructor; [|done].
    unfold le. destruct (lex_leb_total (key x) (key y)); congruence.
Qed.

Lemma sort_by_key_sorted l : StronglySorted le (sort_by_key key l).
Proof. induction l as [|x l IH]; simpl; [constructor|]. by apply insert_by_sorted. Qed.
End sort.

(** *** Cores *)

Lemma CoreId_inj c d : c.(id) = d.(id) → c = d.
Proof. destruct c, d. simpl. by intros ->. Qed.

Definition ids_sorted_le (l : list CoreId) : Prop := StronglySorted N.le (id <$> l).

Lemma dedup_from_spec last l :
  ids_sorted_le (last :: l) →
  StronglySorted N.lt (id <$> last :: dedup_from id last l) ∧
  ∀ c, c ∈ last :: dedup_from id last l ↔ c ∈ last :: l.
Proof.
  revert last. induction l as [|y l IH]; intros last Hs; simpl; [split; [repeat constructor|done]|].
  unfold ids_sorted_le in Hs. rewrite !fmap_cons in Hs.
  apply StronglySorted_inv in Hs as [Hs Hall]. rewrite Forall_cons in Hall. destruct Hall as [Hle Hall].
  destruct (N.eqb_spec (id y) (id last)) as [Heq|Hne].
  - apply CoreId_inj in Heq as ->. destruct (IH last Hs) as [H1 H2]. split; [done|].
    intros c. rewrite (H2 c). set_solver.
  - destruct (IH y Hs) as [H1 H2]. split.
    + rewrite fmap_cons. constructor; [done|]. rewrite Forall_forall.
      intros i Hi. change (i ∈ id <$> y :: dedup_from id y l) in Hi.
      apply list_elem_of_fmap in Hi as (c & -> & Hc). apply H2 in Hc.
      apply elem_of_cons in Hc as [->|Hc]; [lia|].
      apply StronglySorted_inv in Hs as [_ Hy]. rewrite Forall_forall in Hy.
      assert (id y ≤ id c); [|lia]. apply Hy. by apply list_elem_of_fmap_2.
    + intros c. rewrite (elem_of_cons _ c last), (H2 c), <-elem_of_cons. done.
Qed.

Lemma sort_ids_le (l : list CoreId) : ids_sorted_le (sort_by_key (λ c, [c.(id)]) l).
Proof.
  unfold ids_sorted_le. generalize (sort_by_key_sorted (λ c : CoreId, [c.(id)]) l).
  induction 1 as [|c l' Hs IH Hall]; [constructor|]. rewrite fmap_cons. constructor; [done|].
  rewrite Forall_forall. intros i (d & -> & Hd)%list_elem_of_fmap.
  rewrite Forall_forall in Hall. specialize (Hall d Hd). simpl in Hall. destruct (N.eqb_spec (id c) (id d)); [lia|].
  apply N.ltb_lt in Hall. lia.
Qed.

Lemma cores_spec (get_core_ids : option (list CoreId)) :
  StronglySorted N.lt (id <$> cores get_core_ids) ∧
  (∀ c, c ∈ cores get_core_ids ↔ c ∈ default [] get_core_ids).
Proof.
  unfold cores. set (l := default [] get_core_ids).
  pose proof (sort_ids_le l) as Hs. pose proof (sort_by_key_perm (λ c : CoreId, [c.(id)]) l) as Hp.
  destruct (sort_by_key _ l) as [|x s] eqn:E; simpl.
  - split; [constructor|]. intros c. by rewrite Hp.
  - destruct (dedup_from_spec x s Hs) as [H1 H2]. split; [done|]. intros c. by rewrite (H2 c), Hp.
Qed.

(** Enumeration.  [cores] lists exactly the cores the process may run on, in strictly
    increasing id order, and none when they cannot be read. *)
Theorem cores_exact (get_core_ids : option (list CoreId)) :
  StronglySorted N.lt (id <$> cores get_core_ids) ∧
  (∀ c, c ∈ cores get_core_ids ↔ c ∈ default [] get_core_ids).
Proof. apply cores_spec. Qed.

(** *** Masks *)

Lemma parse_mask_app acc s s' :
  parse_mask acc (s +:+ s') = (v ← parse_mask acc s; parse_mask v s').
Proof.
  revert acc. induction s as [|a s IH]; intros acc; [done|]. simpl.
  destruct (Ascii.eqb _ _); [apply IH|]. destruct (digit_value a); [apply IH|done].
Qed.

Lemma hex_digit_value d :
  d < 16 → digit_value (hex_digit d) = Some d ∧ Ascii.eqb (hex_digit d) (Ascii.ascii_of_N 44) = false.
Proof.
  rewrite <-(N2Nat.id d). generalize (N.to_nat d) as n. intros n Hn.
  do 16 (destruct n as [|n]; [done|]). lia.
Qed.

Lemma parse_hex_digits k n acc s :
  parse_mask acc (hex_digits k n s) = parse_mask (acc * 16 ^ N.of_nat k + n mod 16 ^ N.of_nat k) s.
Proof.
  revert n s. induction k as [|k IH]; intros n s; cbn [hex_digits].
  - change (16 ^ N.of_nat 0) with 1. rewrite N.mod_1_r, N.mul_1_r, N.add_0_r. done.
  - rewrite IH. cbn [parse_mask].
    destruct (hex_digit_value (n mod 16)) as [-> ->]; [apply N.mod_lt; lia|]. f_equal.
    rewrite Nat2N.inj_succ, N.pow_succ_r', (N.Div0.mod_mul_r n 16). lia.
Qed.

Lemma parse_hex08 bits acc :
  bits < U32 → parse_mask acc (hex08 bits) = Some (acc * U32 + bits).
Proof.
  intros Hb. unfold hex08. rewrite parse_hex_digits.
  change (16 ^ N.of_nat 8) with U32. by rewrite N.mod_small.
Qed.

Lemma string_length_app s s' : String.length (s +:+ s') = (String.length s + String.length s')%nat.
Proof. induction s as [|a s IH]; [done|]. simpl. by rewrite IH. Qed.

Lemma length_hex_digits k n s : String.length (hex_digits k n s) = (k + String.length s)%nat.
Proof. revert n s. induction k as [|k IH]; intros n s; [done|]. cbn. rewrite IH. cbn. lia. Qed.

(** One word added to the mask. *)
Definition mask_word (cpu : N) (out : string) (w : nat) : string :=
  let bits := if N.of_nat w =? cpu / 32 then N.shiftl 1 (cpu mod 32) else 0 in
  (if decide (out = ""%string) then out else out +:+ ",") +:+ hex08 bits.

Lemma mask_words cpu k out v :
  N.of_nat k ≤ cpu / 32 → out ≠ ""%string → parse_mask 0 out = Some v →
  let mask := foldl (mask_word cpu) out (rev (seq 0 k)) in
  parse_mask 0 mask = Some (v * 2 ^ (32 * N.of_nat k)) ∧
  String.length mask = (String.length out + 9 * k)%nat.
Proof.
  revert out v. induction k as [|k IH]; intros out v Hk Hout Hv.
  { simpl. rewrite Hv, N.mul_1_r. split; [done|lia]. }
  rewrite seq_S, rev_app_distr. cbn [rev app foldl].
  assert (Hw : mask_word cpu out k = (out +:+ ",") +:+ hex08 0).
  { unfold mask_word. destruct (N.eqb_spec (N.of_nat k) (cpu / 32)); [lia|]. by rewrite decide_False. }
  destruct (IH (mask_word cpu out k) (v * U32)) as [H1 H2]; [lia|by rewrite Hw; destruct out|..].
  { rewrite Hw, !parse_mask_app, Hv. change (parse_mask v (hex08 0) = Some (v * U32)).
    by rewrite parse_hex08, N.add_0_r. }
  cbn in H1, H2 |- *. rewrite H1, H2. split.
  - f_equal. rewrite <-N.mul_assoc. f_equal. change U32 with (2 ^ 32).
    rewrite <-N.pow_add_r. f_equal. lia.
  - rewrite Hw, !string_length_app. unfold hex08. rewrite length_hex_digits. cbn. lia.
Qed.

(** The mask names exactly one CPU.  Read back as the hexadecimal number it spells,
    [affinity_mask cpu] is [2^cpu], in 32-bit words of eight digits separated by commas. *)
Theorem affinity_mask_exact cpu :
  parse_mask 0 (affinity_mask cpu) = Some (2 ^ cpu) ∧
  String.length (affinity_mask cpu) = (9 * N.to_nat (cpu / 32 + 1) - 1)%nat.
Proof.
  unfold affinity_mask. fold (mask_word cpu).
  replace (N.to_nat (cpu / 32 + 1)) with (S (N.to_nat (cpu / 32))) by lia.
  rewrite seq_S, rev_app_distr. cbn [rev app foldl].
  assert (Hbits : N.shiftl 1 (cpu mod 32) < U32).
  { rewrite N.shiftl_1_l. change U32 with (2 ^ 32). apply N.pow_lt_mono_r; [lia|]. apply N.mod_lt. lia. }
  assert (Hw : mask_word cpu "" (0 + N.to_nat (cpu / 32)) = hex08 (N.shiftl 1 (cpu mod 32))).
  { unfold mask_word. by rewrite Nat.add_0_l, N2Nat.id, N.eqb_refl. }
  rewrite Hw.
  destruct (mask_words cpu (N.to_nat (cpu / 32)) (hex08 (N.shiftl 1 (cpu mod 32)))
    (N.shiftl 1 (cpu mod 32))) as [H1 H2].
  - rewrite N2Nat.id. lia.
  - intros He. apply (f_equal String.length) in He. unfold hex08 in He.
    by rewrite length_hex_digits in He.
  - by rewrite parse_hex08.
  - rewrite H1, H2. unfold hex08. rewrite length_hex_digits. split.
    2: { cbn [String.length]. generalize (N.to_nat (cpu / 32)). clear. intros n. lia. }
    f_equal. rewrite N2Nat.id, N.shiftl_1_l, <-N.pow_add_r. f_equal.
    pose proof (N.div_mod cpu 32). lia.
Qed.

(** *** Selections *)

Definition core_key (c : CoreInfo) : N * N := (c.(package), c.(core)).

Lemma retain_unseen_spec seen l :
  retain_unseen seen l `sublist_of` l ∧
  NoDup (core_key <$> retain_unseen seen l) ∧
  (∀ c, c ∈ retain_unseen seen l → core_key c ∉ seen) ∧
  (∀ c, c ∈ l → core_key c ∈ seen ∨ ∃ d, d ∈ retain_unseen seen l ∧ core_key d = core_key c).
Proof.
  revert seen. induction l as [|c l IH]; intros seen; simpl.
  { split_and!; [constructor|constructor|intros c Hc..]; by apply not_elem_of_nil in Hc. }
  case_decide as Hc.
  - destruct (IH seen) as (H1 & H2 & H3 & H4). split_and!; [by constructor|done|done|].
    intros d [->|Hd]%elem_of_cons; [by left|auto].
  - destruct (IH (core_key c :: seen)) as (H1 & H2 & H3 & H4). split_and!.
    + by constructor.
    + rewrite fmap_cons. constructor; [|done].
      intros (d & Hd & Hin)%list_elem_of_fmap. apply (H3 d Hin). rewrite <-Hd. by left.
    + intros d [->|Hd]%elem_of_cons; [done|]. specialize (H3 d Hd).
      rewrite not_elem_of_cons in H3. by destruct H3.
    + intros d [->|Hd]%elem_of_cons.
      * right. exists c. split; [by left|done].
      * destruct (H4 d Hd) as [[Heq|Hs]%elem_of_cons|(e & He & Hk)].
        -- right. exists c. split; [by left|done].
        -- by left.
        -- right. exists e. split; [by right|done].
Qed.

(** The survivor of a core is its first thread. *)
Lemma retain_unseen_first seen l c :
  c ∈ retain_unseen seen l →
  ∃ l1 l2, l = l1 ++ c :: l2 ∧ ∀ d, d ∈ l1 → core_key d ≠ core_key c.
Proof.
  revert seen. induction l as [|b l IH]; intros seen; simpl; [by intros ?%not_elem_of_nil|].
  case_decide as Hb.
  - intros Hc. destruct (IH seen Hc) as (l1 & l2 & -> & Hl). exists (b :: l1), l2. split; [done|].
    intros d [->|Hd]%elem_of_cons; [|auto]. intros Heq.
    destruct (retain_unseen_spec seen (l1 ++ c :: l2)) as (_ & _ & H3 & _).
    apply (H3 c Hc). unfold core_key in *. by rewrite <-Heq.
  - intros [->|Hc]%elem_of_cons.
    { exists [], l. split; [done|]. intros d Hd. by apply not_elem_of_nil in Hd. }
    destruct (IH _ Hc) as (l1 & l2 & -> & Hl). exists (b :: l1), l2. split; [done|].
    intros d [->|Hd]%elem_of_cons; [|auto]. intros Heq.
    destruct (retain_unseen_spec (core_key b :: seen) (l1 ++ c :: l2)) as (_ & _ & H3 & _).
    apply (H3 c Hc). rewrite Heq. by left.
Qed.

(** One CPU per physical core.  [physical_only] keeps, in the order they were, exactly
    the first thread of every (package, core) the set has; on a set in id order, as
    [permitted] gives, that is the lowest-numbered one. *)
Theorem physical_only_exact (s : CoreSet) :
  let kept := (physical_only s).(infos) in
  kept `sublist_of` s.(infos) ∧ NoDup (core_key <$> kept) ∧
  (∀ c, c ∈ s.(infos) → ∃ d, d ∈ kept ∧ core_key d = core_key c) ∧
  (∀ c, c ∈ kept → ∃ l1 l2, s.(infos) = l1 ++ c :: l2 ∧ ∀ d, d ∈ l1 → core_key d ≠ core_key c) ∧
  (StronglySorted N.lt (cpu_id <$> s.(infos)) →
   ∀ c d, c ∈ kept → d ∈ s.(infos) → core_key d = core_key c → c.(cpu_id) ≤ d.(cpu_id)).
Proof.
  intros kept. destruct (retain_unseen_spec [] s.(infos)) as (H1 & H2 & H3 & H4).
  assert (Hfirst := retain_unseen_first [] s.(infos)).
  split_and!; [done|done| |done|].
  - intros c Hc. destruct (H4 c Hc) as [Hn|?]; [by apply not_elem_of_nil in Hn|done].
  - intros Hs c d Hc Hd Heq. destruct (Hfirst c Hc) as (l1 & l2 & Hl & Hne).
    rewrite Hl in Hs, Hd. apply elem_of_app in Hd as [Hd|[->|Hd]%elem_of_cons]; [|done|].
    + by destruct (Hne d Hd).
    + rewrite fmap_app, fmap_cons in Hs. apply StronglySorted_app in Hs as (_ & _ & Hs).
      apply StronglySorted_inv in Hs as [_ Hall]. rewrite Forall_forall in Hall.
      specialize (Hall (cpu_id d)). assert (cpu_id c < cpu_id d); [|lia].
      apply Hall. by apply list_elem_of_fmap_2.
Qed.

(** Packing and filtering.  [pack] only reorders, by package, then node, then core, then
    id; the filters keep exactly the cores they name, in order; [take] keeps a prefix. *)
Theorem selections_exact (s : CoreSet) (node pkg : N) (n : nat) :
  (pack s).(infos) ≡ₚ s.(infos) ∧
  StronglySorted (λ c d, lex_leb [c.(package); c.(numa_node); c.(core); c.(cpu_id)]
                                 [d.(package); d.(numa_node); d.(core); d.(cpu_id)] = true)
    (pack s).(infos) ∧
  (on_numa_node node s).(infos) = filter (λ c, c.(numa_node) = node) s.(infos) ∧
  (on_package pkg s).(infos) = filter (λ c, c.(package) = pkg) s.(infos) ∧
  (coreset_take n s).(infos) `prefix_of` s.(infos) ∧
  coreset_len (coreset_take n s) = N.of_nat n `min` coreset_len s.
Proof.
  split_and!.
  - apply sort_by_key_perm.
  - apply (sort_by_key_sorted (λ c : CoreInfo, [package c; numa_node c; core c; cpu_id c])).
  - apply list_filter_iff. intros c. apply N.eqb_eq.
  - apply list_filter_iff. intros c. apply N.eqb_eq.
  - exists (drop n s.(infos)). symmetry. apply take_drop.
  - unfold coreset_len, len. simpl. rewrite length_take. lia.
Qed.

(** *** [spread] *)

(** The reference: row [j] of the columns, for every [j]. *)
Definition row (columns : list (list CoreInfo)) (j : nat) : list CoreInfo :=
  omap (λ col, col !! j) columns.

Lemma take_round_row columns :
  (take_round columns).1 = row columns 0 ∧
  ∀ j, row (take_round columns).2 j = row columns (S j).
Proof.
  induction columns as [|[|c col] cols [IH1 IH2]]; simpl.
  - done.
  - destruct (take_round cols) as [out rest]. simpl in *. split; [done|]. intros j.
    unfold row in *. csimpl. apply IH2.
  - destruct (take_round cols) as [out rest]. simpl in *. split.
    + unfold row. csimpl. by rewrite IH1.
    + intros j. unfold row in *. csimpl. by rewrite IH2.
Qed.

Definition total (columns : list (list CoreInfo)) : nat := foldr (λ col n, length col + n)%nat O columns.

Lemma take_round_total columns :
  (length (take_round columns).1 + total (take_round columns).2 = total columns)%nat ∧
  ((take_round columns).1 = [] → total columns = O) ∧
  concat columns ≡ₚ (take_round columns).1 ++ concat (take_round columns).2.
Proof.
  induction columns as [|[|c col] cols (IH1 & IH2 & IH3)]; simpl; [done|..];
    destruct (take_round cols) as [out rest]; simpl in *.
  - split_and!; [lia|done|done].
  - split_and!; [lia|done|]. constructor. rewrite IH3. rewrite !app_assoc.
    by rewrite (Permutation_app_comm col out).
Qed.

Lemma drain_rows fuel columns :
  (total columns < fuel)%nat →
  ∃ l, drain fuel columns = Val l ∧ l ≡ₚ concat columns ∧
    ∃ rounds, l = concat (row columns <$> seq 0 rounds) ∧ row columns rounds = [].
Proof.
  revert columns. induction fuel as [|fuel IH]; intros columns Hf; [lia|]. cbn [drain].
  destruct (take_round_row columns) as [Hr Hrest].
  destruct (take_round_total columns) as (Ht & Hz & Hp).
  destruct (take_round columns) as [out rest]. simpl in *. destruct out as [|c out].
  - exists []. split; [done|]. specialize (Hz eq_refl). split.
    + clear -Hz. induction columns as [|[|x col] cols IH]; simpl in *; [done|auto|lia].
    + exists O. by split.
  - destruct (IH rest) as (l & -> & Hl & rounds & Hlr & Hend); [simpl in Ht; lia|].
    eexists. split; [done|]. split.
    + rewrite Hp, Hl. done.
    + exists (S rounds). split; [|by rewrite <-Hrest].
      cbn [seq fmap list_fmap concat]. rewrite <-Hr. simpl. f_equal. f_equal.
      rewrite Hlr. f_equal. rewrite <-fmap_S_seq, <-list_fmap_compose.
      apply list_fmap_ext. intros j x _. simpl. by rewrite Hrest.
Qed.

Lemma group_push_perm c groups :
  concat (group_push c groups).*2 ≡ₚ c :: concat groups.*2.
Proof.
  induction groups as [|[p g] groups IH]; simpl; [done|].
  destruct (N.ltb_spec (package c) p); [done|].
  destruct (N.eqb_spec (package c) p); simpl.
  - rewrite <-app_assoc. simpl. by rewrite <-Permutation_middle.
  - rewrite IH. by rewrite Permutation_middle.
Qed.

Lemma group_by_package_perm l : concat (group_by_package l).*2 ≡ₚ l.
Proof.
  unfold group_by_package.
  enough (∀ gs, concat (foldl (λ gs c, group_push c gs) gs l).*2 ≡ₚ concat gs.*2 ++ l) as He
    by (rewrite He; done).
  induction l as [|c l IH]; intros gs; simpl; [by rewrite app_nil_r|].
  rewrite IH, group_push_perm. simpl. by rewrite <-Permutation_middle.
Qed.

(** The groups are keyed by strictly increasing packages, and hold their own cores. *)
Definition groups_ok (groups : list (N * list CoreInfo)) : Prop :=
  StronglySorted N.lt groups.*1 ∧ Forall (λ pg, Forall (λ c, c.(package) = pg.1) pg.2) groups.

Lemma group_push_keys c groups p : p ∈ (group_push c groups).*1 → p = c.(package) ∨ p ∈ groups.*1.
Proof.
  induction groups as [|[q g] groups IH]; simpl.
  - intros Hp. left. by apply list_elem_of_singleton in Hp.
  - destruct (N.ltb_spec (package c) q); [simpl; by intros [?|?]%elem_of_cons; auto|].
    destruct (N.eqb_spec (package c) q); simpl; [by auto|].
    intros [->|Hp]%elem_of_cons; [right; by left|]. destruct (IH Hp); [by left|right; by right].
Qed.

Lemma group_push_ok c groups : groups_ok groups → groups_ok (group_push c groups).
Proof.
  unfold groups_ok. induction groups as [|[q g] groups IH]; simpl; intros [Hs Hg].
  { split; repeat constructor. }
  apply StronglySorted_inv in Hs as [Hs Hall]. apply Forall_cons in Hg as [Hq Hg]. simpl in *.
  destruct (N.ltb_spec (package c) q) as [Hlt|Hge].
  - split; [|repeat constructor; done]. simpl. repeat constructor; [done|done|done|].
    eapply Forall_impl; [exact Hall|]. simpl. lia.
  - destruct (N.eqb_spec (package c) q) as [<-|Hne]; simpl.
    + split; [by constructor|]. constructor; [|done]. apply Forall_app. split; [done|]. by repeat constructor.
    + destruct (IH (conj Hs Hg)) as [IH1 IH2]. split; [|by constructor]. constructor; [done|].
      rewrite Forall_forall in Hall |- *. intros p [->|Hp]%group_push_keys; [lia|by apply Hall].
Qed.

Lemma group_by_package_ok l : groups_ok (group_by_package l).
Proof.
  unfold group_by_package.
  enough (∀ gs, groups_ok gs → groups_ok (foldl (λ gs c, group_push c gs) gs l)) as He
    by (apply He; split; constructor).
  induction l as [|c l IH]; intros gs Hgs; simpl; [done|]. by apply IH, group_push_ok.
Qed.

(** One column per package, each in its own order. *)
Definition columns (s : CoreSet) : list (list CoreInfo) :=
  (λ pg, sort_by_key spread_key pg.2) <$> group_by_package s.(infos).

Lemma row_packages (groups : list (N * list CoreInfo)) j :
  groups_ok groups →
  let r := row ((λ pg, sort_by_key spread_key pg.2) <$> groups) in
  StronglySorted N.lt (package <$> r j) ∧
  (∀ p, p ∈ package <$> r j → p ∈ groups.*1) ∧
  ∀ p, p ∈ package <$> r (S j) → p ∈ package <$> r j.
Proof.
  cbn beta zeta. induction groups as [|[q g] groups IH]; intros [Hs Hg].
  { unfold row. simpl. split_and!; [constructor|done|done]. }
  rewrite fmap_cons. cbn [fst snd]. rewrite fmap_cons. cbn [fst]. simpl in Hs. apply StronglySorted_inv in Hs as [Hs Hall]. apply Forall_cons in Hg as [Hq Hg].
  destruct (IH (conj Hs Hg)) as (IH1 & IH2 & IH3). clear IH. simpl in Hq.
  assert (Hcol : ∀ k c, sort_by_key spread_key g !! k = Some c → package c = q).
  { intros k c Hk. rewrite <-(sort_by_key_perm spread_key) in Hq. rewrite Forall_lookup in Hq. by eapply Hq. }
  assert (Hrow : ∀ k, row (sort_by_key spread_key g :: ((λ pg, sort_by_key spread_key pg.2) <$> groups)) k
    = option_list (sort_by_key spread_key g !! k) ++ row ((λ pg, sort_by_key spread_key pg.2) <$> groups) k).
  { intros k. unfold row. csimpl. by destruct (_ !! k). }
  rewrite !Hrow, !fmap_app. split_and!.
  - destruct (sort_by_key spread_key g !! j) as [c|] eqn:Hc; simpl; [|done]. constructor; [done|].
    rewrite (Hcol j c Hc). rewrite Forall_forall in Hall |- *. intros p Hp%IH2. by apply Hall.
  - intros p [Hp|Hp]%elem_of_app; [|right; by apply IH2].
    destruct (sort_by_key spread_key g !! j) as [c|] eqn:Hc; simpl in Hp; [|by apply not_elem_of_nil in Hp].
    apply list_elem_of_singleton in Hp as ->. rewrite (Hcol j c Hc). by left.
  - intros p [Hp|Hp]%elem_of_app; apply elem_of_app; [left|right; by apply IH3].
    destruct (sort_by_key spread_key g !! S j) as [c|] eqn:Hc; simpl in Hp; [|by apply not_elem_of_nil in Hp].
    apply list_elem_of_singleton in Hp as ->.
    destruct (lookup_lt_is_Some_2 (sort_by_key spread_key g) j) as [c' Hc'];
      [apply lookup_lt_Some in Hc; lia|].
    rewrite Hc'. simpl. rewrite (Hcol _ _ Hc), (Hcol _ _ Hc'). by left.
Qed.

(** C40: spreading.  [spread] ends, loses and repeats no core, and deals the packages out in
    rounds: each round names each package at most once, in increasing order, and a package
    missing from one round is missing from all later ones. *)
Theorem spread_round_robin (s : CoreSet) :
  ∃ s' rounds, spread s = Val s' ∧ s'.(infos) ≡ₚ s.(infos) ∧
    s'.(infos) = concat rounds ∧
    (∀ j r, rounds !! j = Some r → StronglySorted N.lt (package <$> r)) ∧
    (∀ j r r', rounds !! j = Some r → rounds !! S j = Some r' →
       ∀ p, p ∈ package <$> r' → p ∈ package <$> r).
Proof.
  assert (Hp : concat (columns s) ≡ₚ s.(infos)).
  { transitivity (concat (group_by_package (infos s)).*2); [|apply group_by_package_perm].
    unfold columns.
    induction (group_by_package (infos s)) as [|[q g] gs IH]; simpl; [done|].
    by rewrite IH, sort_by_key_perm. }
  destruct (drain_rows (S (length s.(infos))) (columns s)) as (l & Hl & Hlp & rounds & Hrows & _).
  { rewrite <-Hp. clear. induction (columns s) as [|col cols IH]; simpl; [lia|].
    rewrite length_app. lia. }
  assert (Hrow : ∀ j r, (row (columns s) <$> seq 0 rounds) !! j = Some r → r = row (columns s) j).
  { intros j r. rewrite list_lookup_fmap. intros (k & [-> _]%lookup_seq & ->)%fmap_Some. done. }
  exists (mkCoreSet l), (row (columns s) <$> seq 0 rounds). split_and!.
  - unfold spread. fold (columns s). by rewrite Hl.
  - simpl. by rewrite Hlp.
  - done.
  - intros j r ->%Hrow. by destruct (row_packages _ j (group_by_package_ok s.(infos))) as (? & _).
  - intros j r r' ->%Hrow ->%Hrow. by destruct (row_packages _ j (group_by_package_ok s.(infos))) as (_ & _ & ?).
Qed.

(** One column drains in its own order. *)
Lemma drain_one fuel (col : list CoreInfo) :
  (length col < fuel)%nat → drain fuel [col] = Val col.
Proof.
  revert fuel. induction col as [|c col IH]; intros [|fuel] Hf; simpl in *; try lia; [done|].
  by rewrite IH by lia.
Qed.

Lemma sort_by_key_ext {A} (key key' : A → list N) (l : list A) :
  (∀ x y, x ∈ l → y ∈ l → lex_leb (key x) (key y) = lex_leb (key' x) (key' y)) →
  sort_by_key key l = sort_by_key key' l.
Proof.
  intros Hk.
  assert (Hins : ∀ x l', x ∈ l → (∀ y, y ∈ l' → y ∈ l) → insert_by key x l' = insert_by key' x l').
  { intros x l' Hx. induction l' as [|y l' IH]; intros Hl'; simpl; [done|].
    rewrite (Hk x y) by auto using list_elem_of_here. case_match; [done|]. f_equal.
    apply IH. intros z Hz. apply Hl'. by right. }
  revert Hins. enough (∀ l', (∀ y, y ∈ l' → y ∈ l) →
    (∀ x l', x ∈ l → (∀ y, y ∈ l' → y ∈ l) → insert_by key x l' = insert_by key' x l') →
    sort_by_key key l' = sort_by_key key' l') as He by (intros; by apply He).
  intros l' Hl' Hins. induction l' as [|x l' IH]; simpl; [done|].
  rewrite IH by (intros; apply Hl'; by right). apply Hins; [apply Hl'; by left|].
  intros y Hy. rewrite sort_by_key_perm in Hy. apply Hl'. by right.
Qed.

Lemma group_one_package l p :
  Forall (λ c, c.(package) = p) l → l ≠ [] → group_by_package l = [(p, l)].
Proof.
  unfold group_by_package. destruct l as [|c l]; [done|]. intros [Hc Hl]%Forall_cons _.
  simpl. rewrite Hc. change (c :: l) with ([c] ++ l). generalize [c] as g. clear Hc.
  induction Hl as [|d l Hd Hl IH]; intros g; simpl; [by rewrite app_nil_r|].
  rewrite Hd, N.ltb_irrefl, N.eqb_refl, IH. by rewrite <-app_assoc.
Qed.

Lemma spread_one_package s p : Forall (λ c, c.(package) = p) s.(infos) → spread s = Val (pack s).
Proof.
  intros Hp. unfold spread, pack. destruct s as [[|c l]]; [done|]. simpl infos in *.
  rewrite (group_one_package _ p) by done. cbn [fmap list_fmap snd]. rewrite drain_one.
  2: { rewrite sort_by_key_perm. lia. }
  cbn. do 2 f_equal. apply (sort_by_key_ext _ (λ c, [package c; numa_node c; core c; cpu_id c]) (c :: l)).
  rewrite Forall_forall in Hp. intros x y Hx Hy. unfold spread_key. simpl.
  by rewrite (Hp x Hx), (Hp y Hy), N.eqb_refl.
Qed.

(** Equal up to the id at both ends, equal in between. *)
Lemma lex_between (a b c i j k x y z : N) :
  lex_leb [a; b; i] [x; y; j] = true → lex_leb [x; y; j] [a; b; k] = true → x = a ∧ y = b.
Proof.
  clear c z. simpl. repeat case_match; rewrite ?N.eqb_eq, ?N.eqb_neq, ?N.ltb_lt in *; subst;
    intros; try done; try lia.
Qed.

(** Hyperthreads are not spread.  On one package [spread] is [pack]: the threads of a core
    (same node, same core) come out next to each other, with no other core between them. *)
Theorem spread_keeps_siblings (s : CoreSet) (p : N) :
  Forall (λ c, c.(package) = p) s.(infos) →
  spread s = Val (pack s) ∧
  ∀ l1 c l2 d l3, (pack s).(infos) = l1 ++ c :: l2 ++ d :: l3 →
    c.(numa_node) = d.(numa_node) → c.(core) = d.(core) →
    ∀ e, e ∈ l2 → e.(numa_node) = c.(numa_node) ∧ e.(core) = c.(core).
Proof.
  intros Hp. split; [by eapply spread_one_package|]. intros l1 c l2 d l3 Hl Hn Hc e He.
  pose proof (sort_by_key_sorted (λ c : CoreInfo, [package c; numa_node c; core c; cpu_id c]) s.(infos)) as Hs.
  assert (Hin : ∀ x, x ∈ (pack s).(infos) → package x = p).
  { intros x Hx. unfold pack in Hx. simpl in Hx. rewrite sort_by_key_perm in Hx.
    rewrite Forall_forall in Hp. by apply Hp. }
  change (sort_by_key _ _) with (pack s).(infos) in Hs. rewrite Hl in Hs, Hin.
  apply StronglySorted_app in Hs as (_ & _ & Hs). apply StronglySorted_inv in Hs as [Hs Hall].
  rewrite Forall_forall in Hall. specialize (Hall e).
  apply StronglySorted_app in Hs as (Hed & _ & _). specialize (Hed e d).
  rewrite (Hin c), (Hin e) in Hall by set_solver. rewrite (Hin d), (Hin e) in Hed by set_solver.
  simpl in Hall, Hed. rewrite N.eqb_refl in Hall, Hed.
  apply (lex_between (numa_node c) (core c) 0 (cpu_id c) (cpu_id e) (cpu_id d) _ _ 0).
  - apply Hall. set_solver.
  - rewrite Hn, Hc. apply Hed; set_solver.
Qed.

(** Four hardware threads of two cores on one package: its first two cores, spread, share
    one physical core. *)
Definition demo_smt : CoreSet :=
  from_infos [mkCoreInfo 0 0 0 0; mkCoreInfo 1 0 0 0; mkCoreInfo 2 1 0 0; mkCoreInfo 3 1 0 0].

Lemma spread_keeps_siblings_witness :
  spread demo_smt = Val (pack demo_smt) ∧
  (physical_only (coreset_take 2 (pack demo_smt))).(infos) = [mkCoreInfo 0 0 0 0].
Proof.
  split; [|vm_compute; reflexivity].
  apply (spread_keeps_siblings demo_smt 0). repeat constructor.
Defined.

(** *** sysfs *)

Lemma retain_unseen_all seen l :
  NoDup (core_key <$> l) → (∀ c, c ∈ l → core_key c ∉ seen) → retain_unseen seen l = l.
Proof.
  revert seen. induction l as [|c l IH]; intros seen Hnd Hs; simpl; [done|].
  rewrite fmap_cons, NoDup_cons in Hnd. destruct Hnd as [Hc Hnd].
  case_decide as Hin; [by destruct (Hs c ltac:(by left))|]. f_equal. apply IH; [done|].
  intros d Hd [Heq|Hd']%elem_of_cons; [|by apply (Hs d); [right|]].
  apply Hc. change (core_key d = core_key c) in Heq. rewrite <-Heq. by apply list_elem_of_fmap_2.
Qed.

(** Without a topology.  Where sysfs shows nothing every permitted core is a physical
    core of its own on package 0, node 0, and [physical_only] changes nothing. *)
Theorem permitted_without_sysfs (get_core_ids : option (list CoreId)) :
  let s := permitted (λ _, None) (λ _, None) get_core_ids in
  s.(infos) = topology_for_other (id <$> cores get_core_ids) ∧ physical_only s = s ∧
  core_ids s = cores get_core_ids.
Proof.
  intros s. assert (Hs : s.(infos) = topology_for_other (id <$> cores get_core_ids)) by done.
  destruct (cores_spec get_core_ids) as [Hsort _]. split_and!; [done| |].
  - unfold physical_only. rewrite retain_unseen_all; [by destruct s| |].
    + rewrite Hs. unfold topology_for_other. rewrite <-list_fmap_compose.
      assert (NoDup (id <$> cores get_core_ids)) as Hnd.
      { revert Hsort. generalize (id <$> cores get_core_ids). clear. intros ids Hsort.
        induction Hsort as [|i l Hl IH Hall]; constructor; [|done].
        intros Hi. rewrite Forall_forall in Hall. specialize (Hall i Hi). lia. }
      apply NoDup_fmap_2_strong; [|done]. intros i j _ _. unfold core_key. simpl. by intros [= ->].
    + intros c _. apply not_elem_of_nil.
  - unfold core_ids. rewrite Hs. unfold topology_for_other. rewrite <-!list_fmap_compose.
    rewrite <-(list_fmap_id (cores get_core_ids)) at 2. apply list_fmap_ext.
    intros j c _. by apply CoreId_inj.
Qed.
