(* ===== verification/Workers.v ===== *)
(** The thread-per-core harness ([src/src/workers.rs]) and the [SO_REUSEPORT]
    listener ([src/src/listener.rs]).

    What the operating system and compio answer is a parameter: whether a thread
    can be spawned, a pin is accepted, a runtime built, a socket call succeeds. *)

From stdpp Require Import pretty strings.
From S2P Require Import Prelude Cpu.

(** [io::Error]: of kind [Unsupported], or the operating system's. *)
Inductive io_error (OsError : Type) : Type := Unsupported (message : string) | Os (e : OsError).
Arguments Unsupported {OsError} _.
Arguments Os {OsError} _.

Record WorkerCtx := mkWorkerCtx { index : nat; ctx_core : CoreId; pinned : bool }.

(** [PerCore]; [P] is compio's [ProactorBuilder]. *)
Record PerCore (P : Type) := mkPerCore {
  pc_cores : list CoreId;
  pc_name : string;
  pc_proactor : option P
}.
Arguments mkPerCore {P} _ _ _.
Arguments pc_cores {P} _.
Arguments pc_name {P} _.
Arguments pc_proactor {P} _.

Section percore.
Context {P : Type}.
Implicit Types pc : PerCore P.

(** [PerCore::new], [name] and [proactor]. *)
Definition percore_new (cores : list CoreId) : PerCore P := mkPerCore cores "worker" None.
Definition with_name (prefix : string) pc : PerCore P :=
  mkPerCore pc.(pc_cores) prefix pc.(pc_proactor).
Definition with_proactor (p : P) pc : PerCore P :=
  mkPerCore pc.(pc_cores) pc.(pc_name) (Some p).
End percore.

(** A running worker thread: its name, what it was told, and how it ends, its
    value or a panic. *)
Record Worker (T Panics : Type) := mkWorker {
  thread_name : string;
  told : WorkerCtx;
  ends : result T Panics
}.
Arguments mkWorker {T Panics} _ _ _.
Arguments thread_name {T Panics} _.
Arguments told {T Panics} _.
Arguments ends {T Panics} _.

(** [Workers]: the join handles, in spawn order. *)
Record Workers (T Panics : Type) := mkWorkers { handles : list (Worker T Panics) }.
Arguments mkWorkers {T Panics} _.
Arguments handles {T Panics} _.

Section workers.
Context {P RT Fut T OsError Panics : Type}.
Context (set_for_current : CoreId → bool).
Context (spawn : string → result unit OsError).

(** The spawn loop from worker [i] on: the handles collected or the error, and
    the threads started. *)
Fixpoint spawn_loop (prefix : string) (body : WorkerCtx → result T Panics) (i : nat)
    (cores : list CoreId) : result (list (Worker T Panics)) (io_error OsError) * list (Worker T Panics) :=
  match cores with
  | [] => (Ok [], [])
  | core :: cores =>
      let name := prefix +:+ "/" +:+ pretty i in
      match spawn name with
      | Err e => (Err (Os e), [])
      | Ok _ =>
          let ctx := mkWorkerCtx i core (pin_current set_for_current core) in
          let w := mkWorker name ctx (body ctx) in
          let '(r, started) := spawn_loop prefix body (S i) cores in
          (match r with Ok hs => Ok (w :: hs) | Err e => Err e end, w :: started)
      end
  end.

(** [PerCore::spawn_each]; dropped handles leave their threads running. *)
Definition spawn_each (pc : PerCore P) (body : WorkerCtx → result T Panics) :
    result (Workers T Panics) (io_error OsError) * list (Worker T Panics) :=
  match pc.(pc_cores) with
  | [] => (Err (Unsupported "no cores to run on"), [])
  | cores =>
      let '(r, started) := spawn_loop pc.(pc_name) body 0 cores in
      (match r with Ok hs => Ok (mkWorkers hs) | Err e => Err e end, started)
  end.

Context (build : option P → result RT Panics) (block_on : RT → Fut → result T Panics).

(** [PerCore::block_on_each]; a runtime that fails to build panics its worker. *)
Definition block_on_each (pc : PerCore P) (body : WorkerCtx → Fut) :
    result (Workers T Panics) (io_error OsError) * list (Worker T Panics) :=
  spawn_each pc (λ ctx,
    match build pc.(pc_proactor) with
    | Ok runtime => block_on runtime (body ctx)
    | Err e => Err e
    end).

(** [Workers::len], [is_empty], [into_handles] and [join]. *)
Definition workers_len (ws : Workers T Panics) : N := len ws.(handles).
Definition workers_is_empty (ws : Workers T Panics) : bool :=
  match ws.(handles) with [] => true | _ => false end.
Definition into_handles (ws : Workers T Panics) : list (Worker T Panics) := ws.(handles).
Definition join (ws : Workers T Panics) : list (result T Panics) := ends <$> ws.(handles).

(** The worker core [c] gets as the [i]th. *)
Definition worker_of (prefix : string) (body : WorkerCtx → result T Panics) (i : nat)
    (c : CoreId) : Worker T Panics :=
  let ctx := mkWorkerCtx i c (set_for_current c) in
  mkWorker (prefix +:+ "/" +:+ pretty i) ctx (body ctx).

Lemma spawn_loop_spec prefix body i cores :
  let all := imap (λ j c, worker_of prefix body (i + j) c) cores in
  match spawn_loop prefix body i cores with
  | (Ok hs, started) => hs = all ∧ started = all ∧
      ∀ j, (j < length cores)%nat → spawn (prefix +:+ "/" +:+ pretty (i + j)%nat) = Ok tt
  | (Err e, started) => ∃ k os, e = Os os ∧ (k < length cores)%nat ∧ started = take k all ∧
      spawn (prefix +:+ "/" +:+ pretty (i + k)%nat) = Err os ∧
      ∀ j, (j < k)%nat → spawn (prefix +:+ "/" +:+ pretty (i + j)%nat) = Ok tt
  end.
Proof.
  revert i. induction cores as [|c cores IH]; intros i; cbn beta zeta.
  { simpl. split_and!; [done|done|]. simpl. lia. }
  cbn [spawn_loop]. rewrite imap_cons. destruct (spawn (prefix +:+ "/" +:+ pretty i)) as [[]|os] eqn:Hsp.
  - specialize (IH (S i)). cbn beta zeta in IH.
    assert (Himap : imap ((λ j c0, worker_of prefix body (i + j) c0) ∘ S) cores
      = imap (λ j c0, worker_of prefix body (S i + j) c0) cores).
    { apply imap_ext. intros j x _. simpl. by replace (i + S j)%nat with (S (i + j)) by lia. }
    rewrite Himap. replace (worker_of prefix body (i + 0) c) with (worker_of prefix body i c)
      by (by rewrite Nat.add_0_r).
    destruct (spawn_loop prefix body (S i) cores) as [[hs|e] started].
    + destruct IH as (-> & -> & Hall). split_and!; [done..|].
      intros [|j] Hj; [by rewrite Nat.add_0_r|]. simpl in Hj.
      replace (i + S j)%nat with (S i + j)%nat by lia. apply Hall. lia.
    + destruct IH as (k & os & -> & Hk & -> & Hos & Hall). exists (S k), os.
      replace (i + S k)%nat with (S i + k)%nat by lia. split_and!; [done|simpl; lia|done|done|].
      intros [|j] Hj; [by rewrite Nat.add_0_r|].
      replace (i + S j)%nat with (S i + j)%nat by lia. apply Hall. lia.
  - exists O, os. rewrite Nat.add_0_r. split_and!; [done|simpl; lia|done|done|]. lia.
Qed.
End workers.

(** One pinned worker per core.  [spawn_each] refuses an empty core list; otherwise it
    starts worker [i] as "prefix/i" on the [i]th core, pinned before its body runs, for
    every core up to the first the system cannot spawn.  If there is none it returns all the
    handles and [join] gives their results in core order; if there is one it returns that
    error, the earlier workers left running. *)
Theorem spawn_each_exact {P T OsError Panics} (set_for_current : CoreId → bool)
    (spawn : string → result unit OsError) (pc : PerCore P) (body : WorkerCtx → result T Panics) :
  let all := imap (worker_of set_for_current pc.(pc_name) body) pc.(pc_cores) in
  let name i := pc.(pc_name) +:+ "/" +:+ pretty (i : nat) in
  match spawn_each set_for_current spawn pc body with
  | (Ok ws, started) => pc.(pc_cores) ≠ [] ∧ ws.(handles) = all ∧ started = all ∧
      join ws = ends <$> all ∧ workers_len ws = len pc.(pc_cores)
  | (Err (Unsupported _), started) => pc.(pc_cores) = [] ∧ started = []
  | (Err (Os e), started) => ∃ k, spawn (name k) = Err e ∧ (k < length pc.(pc_cores))%nat ∧
      started = take k all ∧ ∀ j, (j < k)%nat → spawn (name j) = Ok tt
  end.
Proof.
  cbn beta zeta. unfold spawn_each. destruct (pc_cores pc) as [|c cores] eqn:Hc; [done|].
  pose proof (spawn_loop_spec set_for_current spawn (pc_name pc) body 0 (c :: cores)) as Hspec.
  cbn beta zeta in Hspec.
  destruct (spawn_loop _ _ _ _ _ _) as [[hs|e] started].
  - destruct Hspec as (-> & -> & _). split_and!; [done..|]. unfold workers_len, len. simpl.
    by rewrite length_imap.
  - destruct Hspec as (k & os & -> & Hk & -> & Hos & Hall). exists k. split_and!; [done..|].
    intros j Hj. by apply Hall.
Qed.

(** ** The listener *)

(** [SocketAddr]: an address of either family, and a port. *)
Inductive SocketAddr := V4 (ip port : N) | V6 (ip port : N).
Inductive Domain := IPV4 | IPV6.
Definition for_address (a : SocketAddr) : Domain :=
  match a with V4 _ _ => IPV4 | V6 _ _ => IPV6 end.

(** The socket calls, in the order they are made; [CloseSocket] is the drop of a
    socket that is not handed out. *)
Inductive socket_call :=
| NewSocket (d : Domain) | SetReuseAddress | SetReusePort | SetCpuAffinity (cpu : N)
| Bind (a : SocketAddr) | Listen (backlog : Z) | IntoListener | CloseSocket.

Section listener.
Context {E : Type}.
(** How the system answers a call. *)
Context (sys : socket_call → result unit E).

(** A call and [?]: on failure the socket is dropped, if there is one. *)
Definition try_call (made : bool) (c : socket_call)
    (k : result unit E * list socket_call) : result unit E * list socket_call :=
  match sys c with
  | Ok _ => (k.1, c :: k.2)
  | Err e => (Err e, c :: if made then [CloseSocket] else [])
  end.

(** Calls whose answer is ignored. *)
Definition ignoring (calls : list socket_call)
    (k : result unit E * list socket_call) : result unit E * list socket_call :=
  (k.1, calls ++ k.2).

(** [set_incoming_cpu]: on Linux a hint whose failure is ignored; elsewhere nothing. *)
Definition set_incoming_cpu (linux : bool) (cpu : N) : list socket_call :=
  if linux then [SetCpuAffinity cpu] else [].

Definition bind_reuseport (linux : bool) (addr : SocketAddr) (backlog : Z)
    (incoming_cpu : option N) : result unit E * list socket_call :=
  try_call false (NewSocket (for_address addr))
    (try_call true SetReuseAddress
      (try_call true SetReusePort
        (ignoring match incoming_cpu with Some cpu => set_incoming_cpu linux cpu | None => [] end
          (try_call true (Bind addr)
            (try_call true (Listen backlog)
              (Ok tt, [IntoListener])))))).

(** The calls of a listener that comes up. *)
Definition full_calls (linux : bool) addr backlog (incoming_cpu : option N) : list socket_call :=
  [NewSocket (for_address addr); SetReuseAddress; SetReusePort] ++
  match incoming_cpu with Some cpu => set_incoming_cpu linux cpu | None => [] end ++
  [Bind addr; Listen backlog; IntoListener].
End listener.

(** The listener.  [bind_reuseport] makes its calls in order, both sharing options set
    before the address is bound; it succeeds exactly when every call but the CPU hint does,
    and a failed one ends it with that call's error and the socket closed. *)
Theorem bind_reuseport_exact {E} (sys : socket_call → result unit E) linux addr backlog cpu :
  let plan := full_calls linux addr backlog cpu in
  match bind_reuseport sys linux addr backlog cpu with
  | (Ok _, calls) => calls = plan ∧
      ∀ c, c ∈ plan → c ≠ IntoListener → (∀ n, c ≠ SetCpuAffinity n) → sys c = Ok tt
  | (Err e, calls) => ∃ before c after, plan = before ++ c :: after ∧ sys c = Err e ∧
      calls = before ++ c :: (match before with [] => [] | _ => [CloseSocket] end)
  end.
Proof.
  cbn beta zeta. unfold bind_reuseport, try_call, ignoring, full_calls, set_incoming_cpu.
  destruct (sys (NewSocket _)) as [[]|e] eqn:H1; simpl.
  2: { by eexists [], (NewSocket (for_address addr)), _. }
  destruct (sys SetReuseAddress) as [[]|e] eqn:H2; simpl.
  2: { by eexists [NewSocket (for_address addr)], SetReuseAddress, _. }
  destruct (sys SetReusePort) as [[]|e] eqn:H3; simpl.
  2: { by eexists [NewSocket (for_address addr); SetReuseAddress], SetReusePort, _. }
  set (hint := match cpu with Some n => if linux then [SetCpuAffinity n] else [] | None => [] end).
  assert (Hhint : ∀ c, c ∈ hint → ∃ n, c = SetCpuAffinity n).
  { intros c Hc. destruct cpu as [n|]; [|by apply not_elem_of_nil in Hc]. simpl in hint.
    destruct linux; [|by apply not_elem_of_nil in Hc]. apply list_elem_of_singleton in Hc. eauto. }
  set (pre := NewSocket (for_address addr) :: SetReuseAddress :: SetReusePort :: hint).
  destruct (sys (Bind addr)) as [[]|e] eqn:H4; simpl.
  2: { exists pre, (Bind addr), [Listen backlog; IntoListener]. done. }
  destruct (sys (Listen backlog)) as [[]|e] eqn:H5; simpl.
  2: { exists (pre ++ [Bind addr]), (Listen backlog), [IntoListener]. unfold pre. simpl.
       by rewrite <-!app_assoc. }
  split; [done|]. intros c Hc Hinto Hnot.
  apply elem_of_cons in Hc as [->|Hc]; [done|]. apply elem_of_cons in Hc as [->|Hc]; [done|].
  apply elem_of_cons in Hc as [->|Hc]; [done|]. apply elem_of_app in Hc as [Hc|Hc].
  - destruct (Hhint c Hc) as [n ->]. by destruct (Hnot n).
  - apply elem_of_cons in Hc as [->|Hc]; [done|]. apply elem_of_cons in Hc as [->|Hc]; [done|].
    by apply list_elem_of_singleton in Hc.
Qed.
