(* ===== verification/Text.v ===== *)
(** Rust's bytes and text, as far as the example programs use them: lossy UTF-8
    decoding, trimming, splitting, searching and parsing, and the [Vec] buffers
    and sockets they read into and write to. *)

From S2P Require Import Prelude.

(** A byte is below 256; a [char] is a code point. *)

(** The bytes of an ASCII literal. *)
Definition codes (s : string) : list N := Ascii.N_of_ascii <$> String.list_ascii_of_string s.

(** ** UTF-8

    [decode_utf8] reads the characters of a byte string; a maximal ill-formed sequence reads
    as one [None].  [from_utf8_lossy] puts U+FFFD for each, [from_utf8] refuses them. *)

Definition REPLACEMENT : N := 65533.
Definition between (lo hi b : N) : bool := (lo <=? b) && (b <=? hi).
Definition continuation (b : N) : bool := between 128 191 b.

(** What may follow the first byte of a three- and of a four-byte sequence. *)
Definition second_of_3 (b c : N) : bool :=
  if b =? 224 then between 160 191 c
  else if b =? 237 then between 128 159 c
  else continuation c.
Definition second_of_4 (b c : N) : bool :=
  if b =? 240 then between 144 191 c
  else if b =? 244 then between 128 143 c
  else continuation c.

Fixpoint decode_utf8 (bs : list N) : list (option N) :=
  match bs with
  | [] => []
  | b :: r =>
      if b <? 128 then Some b :: decode_utf8 r
      else if between 194 223 b then
        match r with
        | c :: r1 =>
            if continuation c then Some ((b - 192) * 64 + (c - 128)) :: decode_utf8 r1
            else None :: decode_utf8 r
        | [] => [None]
        end
      else if between 224 239 b then
        match r with
        | c :: r1 =>
            if second_of_3 b c then
              match r1 with
              | d :: r2 =>
                  if continuation d
                  then Some ((b - 224) * 4096 + (c - 128) * 64 + (d - 128)) :: decode_utf8 r2
                  else None :: decode_utf8 r1
              | [] => [None]
              end
            else None :: decode_utf8 r
        | [] => [None]
        end
      else if between 240 244 b then
        match r with
        | c :: r1 =>
            if second_of_4 b c then
              match r1 with
              | d :: r2 =>
                  if continuation d then
                    match r2 with
                    | e :: r3 =>
                        if continuation e
                        then Some ((b - 240) * 262144 + (c - 128) * 4096 + (d - 128) * 64 + (e - 128))
                               :: decode_utf8 r3
                        else None :: decode_utf8 r2
                    | [] => [None]
                    end
                  else None :: decode_utf8 r1
              | [] => [None]
              end
            else None :: decode_utf8 r
        | [] => [None]
        end
      else None :: decode_utf8 r
  end.

Definition from_utf8_lossy (bs : list N) : list N := default REPLACEMENT <$> decode_utf8 bs.
Definition from_utf8 (bs : list N) : option (list N) := mapM id (decode_utf8 bs).

(** [str::as_bytes]: UTF-8. *)
Definition encode_char (c : N) : list N :=
  if c <? 128 then [c]
  else if c <? 2048 then [192 + c / 64; 128 + c mod 64]
  else if c <? 65536 then [224 + c / 4096; 128 + (c / 64) mod 64; 128 + c mod 64]
  else [240 + c / 262144; 128 + (c / 4096) mod 64; 128 + (c / 64) mod 64; 128 + c mod 64].
Definition as_bytes (s : list N) : list N := s ≫= encode_char.

(** What a [char] can be: a Unicode scalar value. *)
Definition is_char (c : N) : Prop := c < 55296 ∨ 57344 ≤ c < 1114112.

#[export] Instance is_char_dec c : Decision (is_char c).
Proof. unfold is_char. apply _. Defined.

(** ** [str] *)

Definition to_ascii_lowercase (s : list N) : list N :=
  (λ c, if between 65 90 c then c + 32 else c) <$> s.

(** [char::is_whitespace]: the White_Space property. *)
Definition is_whitespace (c : N) : bool :=
  between 9 13 c || between 8192 8202 c
  || bool_decide (c ∈ [32; 133; 160; 5760; 8232; 8233; 8239; 8287; 12288]).

Fixpoint drop_while (p : N → bool) (s : list N) : list N :=
  match s with
  | c :: s' => if p c then drop_while p s' else s
  | [] => []
  end.
Definition trim_end_matches (p : N → bool) (s : list N) : list N := rev (drop_while p (rev s)).
Definition trim_text (s : list N) : list N := trim_end_matches is_whitespace (drop_while is_whitespace s).

(** [split] on CR LF; there is always at least one piece. *)
Fixpoint split_crlf (s : list N) : list (list N) :=
  match s with
  | [] => [[]]
  | c :: s' =>
      match s' with
      | d :: s'' =>
          if (c =? 13) && (d =? 10) then [] :: split_crlf s''
          else match split_crlf s' with l :: ls => (c :: l) :: ls | [] => [[c]] end
      | [] => [[c]]
      end
  end.

(** [split_once] on a character. *)
Fixpoint split_once (sep : N) (s : list N) : option (list N * list N) :=
  match s with
  | [] => None
  | c :: s' =>
      if c =? sep then Some ([], s')
      else match split_once sep s' with Some (a, b) => Some (c :: a, b) | None => None end
  end.

Fixpoint split_on (p : N → bool) (s : list N) : list (list N) :=
  match s with
  | [] => [[]]
  | c :: s' =>
      if p c then [] :: split_on p s'
      else match split_on p s' with l :: ls => (c :: l) :: ls | [] => [[c]] end
  end.
Definition split_whitespace (s : list N) : list (list N) :=
  filter (λ w, w ≠ []) (split_on is_whitespace s).

(** [parse::<usize>()]: an optional plus sign, then decimal digits that fit. *)
Fixpoint digits_value (acc : N) (s : list N) : option N :=
  match s with
  | [] => Some acc
  | c :: s' =>
      if between 48 57 c then
        let acc' := acc * 10 + (c - 48) in
        if acc' <? U64 then digits_value acc' s' else None
      else None
  end.
Definition parse_number (s : list N) : option N :=
  match s with
  | [] => None
  | c :: s' => if c =? 43 then match s' with [] => None | _ => digits_value 0 s' end
               else digits_value 0 s
  end.

(** ** Slices *)

Fixpoint starts_with (needle hay : list N) : bool :=
  match needle, hay with
  | [], _ => true
  | a :: needle, b :: hay => (a =? b) && starts_with needle hay
  | _ :: _, [] => false
  end.

(** The first window equal to the needle. *)
Fixpoint window_position (needle hay : list N) : option N :=
  if starts_with needle hay then Some 0
  else match hay with
       | [] => None
       | _ :: hay' => N.succ <$> window_position needle hay'
       end.

(** [Path::join]: an absolute path takes the place of the directory. *)
Definition path_join (dir name : list N) : list N :=
  if starts_with (codes "/") name then name
  else if bool_decide (dir = []) || bool_decide (last dir = Some 47) then dir ++ name
  else dir ++ codes "/" ++ name.

(** ** [std::io::Error] *)

Inductive ErrorKind := InvalidData | InvalidInput | BrokenPipe | UnexpectedEof | OtherKind (n : N).
#[export] Instance ErrorKind_eq_dec : EqDecision ErrorKind.
Proof. solve_decision. Defined.
Record io_error := mkIoError { err_kind : ErrorKind; message : string }.

(** ** [Vec<u8>] *)

Record Vec := mkVec { contents : list N; capacity : N }.
Definition with_capacity (n : N) : Vec := mkVec [] n.
(** [clear]: the room stays. *)
Definition vec_clear (v : Vec) : Vec := mkVec [] v.(capacity).
Definition vec_ok (v : Vec) : Prop := len v.(contents) ≤ v.(capacity).

(** [reserve]: at least [additional] more bytes of room, by doubling. *)
Definition reserve (additional : N) (v : Vec) : Vec :=
  if v.(capacity) - len v.(contents) <? additional
  then mkVec v.(contents) (2 * v.(capacity) `max` (len v.(contents) + additional))
  else v.

(** ** Sockets

    A stream is known by what [read] and [write_all] answer on it. *)

Class Tcp := {
  stream : Type;
  (** What a read into [room] bytes of spare capacity brings, or why it failed. *)
  recv : N → stream → result (list N) io_error * stream;
  send : list N → stream → result unit io_error * stream
}.

(** What the programs rely on.  [incoming s] is all the peer will have sent by the time it
    closes: a read takes the next bytes of it, at most as many as there is room for, and
    brings none only when there is no room or nothing left.  [outgoing s] is all that was
    written.  [steady] streams are those whose reads do not fail. *)
Class TcpLaws (T : Tcp) := {
  incoming : stream → list N;
  outgoing : stream → list N;
  steady : stream → Prop;
  recv_takes room s bs s' : recv room s = (Ok bs, s') →
    incoming s = bs ++ incoming s' ∧ len bs ≤ room;
  recv_eof room s s' : recv room s = (Ok [], s') → 0 < room → incoming s = [];
  recv_steady room s r s' : recv room s = (r, s') → steady s → steady s' ∧ ∃ bs, r = Ok bs;
  recv_keeps room s r s' : recv room s = (r, s') → outgoing s' = outgoing s;
  send_reads bs s r s' : send bs s = (r, s') → incoming s' = incoming s ∧ (steady s → steady s');
  send_writes bs s s' : send bs s = (Ok tt, s') → outgoing s' = outgoing s ++ bs
}.

(** One [read] into the spare capacity of a buffer: how many bytes it brought. *)
Definition read_into `{Tcp} (v : Vec) (s : stream) : result N io_error * Vec * stream :=
  let '(r, s') := recv (v.(capacity) - len v.(contents)) s in
  match r with
  | Ok bs => (Ok (len bs), mkVec (v.(contents) ++ bs) v.(capacity), s')
  | Err e => (Err e, v, s')
  end.

(** [read_exact] into a buffer: reads until it is full; the peer closing before that is an
    error.  Every read that goes on fills some of the room. *)
Fixpoint fill_exact `{Tcp} (fuel : nat) (v : Vec) : St stream (result (list N) io_error) :=
  match fuel with
  | O => no_fuel
  | S fuel =>
      if len v.(contents) <? v.(capacity) then
        r ← (λ s, let '(r, v', s') := read_into v s in Val ((r, v'), s'));
        match r.1 with
        | Err e => mret (Err e)
        | Ok n =>
            if n =? 0 then mret (Err (mkIoError UnexpectedEof "failed to fill whole buffer"))
            else fill_exact fuel r.2
        end
      else mret (Ok v.(contents))
  end.
Definition read_exact `{Tcp} (n : N) : St stream (result (list N) io_error) :=
  fill_exact (S (N.to_nat n)) (with_capacity n).

(** A scripted stream: the bytes to come, how many each read finds at most, the
    reads and writes that fail, and what was written. *)
Record script := mkScript {
  to_come : list N;
  chunks : list (result N io_error);
  refusals : list (result unit io_error);
  written : list N
}.
Definition script_recv (room : N) (s : script) : result (list N) io_error * script :=
  let '(mkScript b cs rs o) := s in
  match cs with
  | [] => let n := N.to_nat room in (Ok (take n b), mkScript (drop n b) [] rs o)
  | Ok k :: cs => let n := N.to_nat ((k + 1) `min` room) in (Ok (take n b), mkScript (drop n b) cs rs o)
  | Err e :: cs => (Err e, mkScript b cs rs o)
  end.
Definition script_send (bs : list N) (s : script) : result unit io_error * script :=
  let '(mkScript b cs rs o) := s in
  match rs with
  | Err e :: rs => (Err e, mkScript b cs rs o)
  | _ => (Ok tt, mkScript b cs (tail rs) (o ++ bs))
  end.
Definition script_tcp : Tcp := {| stream := script; recv := script_recv; send := script_send |}.

#[export] Instance script_laws : TcpLaws script_tcp.
Proof.
  refine {| incoming := to_come : stream (Tcp:=script_tcp) → list N;
            outgoing := written : stream (Tcp:=script_tcp) → list N;
            steady := λ s, Forall (λ r, ∃ k, r = Ok k) s.(chunks) |}.
  - intros room [b [|[k|e] cs] rs o] bs s' [= <- <-]; simpl; rewrite take_drop; split; try done;
      unfold len; rewrite length_take; lia.
  - intros room [b [|[k|e] cs] rs o] s' [= Hb <-] Hroom; simpl.
    + destruct b; [done|]. by destruct (N.to_nat room) eqn:?; [lia|].
    + destruct b; [done|]. by destruct (N.to_nat ((k + 1) `min` room)) eqn:?; [lia|].
  - intros room [b [|[k|e] cs] rs o] r s' [= <- <-]; simpl; [by eauto|..].
    + intros [_ ?]%Forall_cons. by eauto.
    + by intros [[? [=]] _]%Forall_cons.
  - by intros room [b [|[k|e] cs] rs o] r s' [= <- <-].
  - by intros bs [b cs [|[[]|e] rs] o] r s' [= <- <-].
  - by intros bs [b cs [|[[]|e] rs] o] s' [= <-].
Defined.

(** ** Lemmas *)

(** What is encoded reads back. *)

Lemma between_true lo hi b : lo ≤ b ≤ hi → between lo hi b = true.
Proof. intros. unfold between. by rewrite andb_true_iff, !N.leb_le. Qed.
Lemma between_false lo hi b : b < lo ∨ hi < b → between lo hi b = false.
Proof. intros. unfold between. by rewrite andb_false_iff, !N.leb_gt. Qed.
Lemma second_of_3_true b c :
  128 ≤ c ≤ 191 → (b = 224 → 160 ≤ c) → (b = 237 → c ≤ 159) → second_of_3 b c = true.
Proof. intros. unfold second_of_3, continuation. repeat case_match; apply between_true;
  rewrite ?N.eqb_eq in *; lia. Qed.
Lemma second_of_4_true b c :
  128 ≤ c ≤ 191 → (b = 240 → 144 ≤ c) → (b = 244 → c ≤ 143) → second_of_4 b c = true.
Proof. intros. unfold second_of_4, continuation. repeat case_match; apply between_true;
  rewrite ?N.eqb_eq in *; lia. Qed.

#[local] Ltac div_lia := zify; Z.to_euclidean_division_equations; lia.

Lemma decode_encode_char c r :
  is_char c → decode_utf8 (encode_char c ++ r) = Some c :: decode_utf8 r.
Proof.
  unfold is_char, encode_char. intros Hc.
  destruct (N.ltb_spec c 128); cbn [app decode_utf8]; [by rewrite (proj2 (N.ltb_lt c 128))|].
  destruct (N.ltb_spec c 2048); cbn [app decode_utf8].
  { rewrite (proj2 (N.ltb_ge _ 128)), between_true by div_lia.
    unfold continuation. rewrite between_true by div_lia. do 2 f_equal. div_lia. }
  destruct (N.ltb_spec c 65536); cbn [app decode_utf8].
  { rewrite (proj2 (N.ltb_ge _ 128)), (between_false 194), between_true, second_of_3_true by div_lia.
    unfold continuation. rewrite between_true by div_lia. do 2 f_equal. div_lia. }
  rewrite (proj2 (N.ltb_ge _ 128)), (between_false 194), (between_false 224), between_true,
    second_of_4_true by div_lia.
  unfold continuation. rewrite !between_true by div_lia. do 2 f_equal. div_lia.
Qed.

Lemma decode_as_bytes s : Forall is_char s → decode_utf8 (as_bytes s) = Some <$> s.
Proof.
  unfold as_bytes. induction 1 as [|c s Hc Hs IH]; [done|]. cbn [mbind list_bind].
  by rewrite decode_encode_char, IH.
Qed.

Lemma lossy_as_bytes s : Forall is_char s → from_utf8_lossy (as_bytes s) = s.
Proof.
  intros Hs. unfold from_utf8_lossy. rewrite decode_as_bytes by done.
  rewrite <-list_fmap_compose. apply list_fmap_id.
Qed.

Lemma from_utf8_as_bytes s : Forall is_char s → from_utf8 (as_bytes s) = Some s.
Proof.
  intros Hs. unfold from_utf8. rewrite decode_as_bytes by done. clear Hs.
  induction s as [|c s IH]; [done|]. cbn. by rewrite IH.
Qed.

(** Only a newline is encoded with a newline in it. *)
Lemma newline_encode_char c : c ≠ 10 → 10 ∉ encode_char c.
Proof.
  intros Hc Hin. enough (Forall (λ b, b ≠ 10) (encode_char c)) as Hall.
  { rewrite Forall_forall in Hall. by apply (Hall 10). }
  unfold encode_char. repeat case_match; rewrite ?N.ltb_lt, ?N.ltb_ge in *;
    repeat constructor; first [done|div_lia].
Qed.
Lemma newline_as_bytes s : 10 ∉ s → 10 ∉ as_bytes s.
Proof.
  intros Hs (c & Hc & Hin)%list_elem_of_bind. revert Hc. apply newline_encode_char.
  intros ->. done.
Qed.

Lemma starts_with_app needle a b :
  (length needle ≤ length a)%nat → starts_with needle (a ++ b) = starts_with needle a.
Proof.
  revert a. induction needle as [|x needle IH]; intros [|y a] Hl; simpl in *; try done; [lia|].
  by rewrite IH by lia.
Qed.

Lemma starts_with_length needle hay :
  starts_with needle hay = true → (length needle ≤ length hay)%nat.
Proof.
  revert hay. induction needle as [|x needle IH]; intros [|y hay]; simpl; try done; [lia..|].
  intros [_ Hs]%andb_prop. specialize (IH _ Hs). lia.
Qed.

Lemma window_position_bound needle hay i :
  window_position needle hay = Some i → i + len needle ≤ len hay.
Proof.
  unfold len. revert i. induction hay as [|x hay IH]; intros i; cbn [window_position];
    destruct (starts_with needle _) eqn:Hs; try done.
  1,2: intros [= <-]; apply starts_with_length in Hs; simpl in *; lia.
  destruct (window_position needle hay) as [j|]; [|done]. intros [= <-].
  specialize (IH _ eq_refl). simpl. lia.
Qed.

(** A window found stays found as more bytes come in. *)
Lemma window_position_app needle a b i :
  window_position needle a = Some i → window_position needle (a ++ b) = Some i.
Proof.
  revert i. induction a as [|x a IH]; intros i Hw.
  - pose proof (window_position_bound _ _ _ Hw) as Hb. unfold len in Hb. destruct needle; [|simpl in Hb; lia].
    simpl in Hw. destruct b; done.
  - pose proof (window_position_bound _ _ _ Hw) as Hb. unfold len in Hb. revert Hw.
    cbn [window_position app]. change (x :: a ++ b) with ((x :: a) ++ b).
    rewrite starts_with_app by lia. destruct (starts_with needle (x :: a)); [done|].
    destruct (window_position needle a) as [j|]; [|done]. by rewrite (IH _ eq_refl).
Qed.

(** It was there as soon as its last byte was, and not before. *)
Lemma window_position_here needle a b i :
  window_position needle (a ++ b) = Some i → i + len needle ≤ len a →
  window_position needle a = Some i.
Proof.
  unfold len. revert i. induction a as [|x a IH]; intros i Hw Hl.
  - destruct needle; [|simpl in Hl; lia]. simpl in Hl. destruct i; [|lia]. done.
  - revert Hw. cbn [window_position app]. change (x :: a ++ b) with ((x :: a) ++ b).
    rewrite starts_with_app by lia. destruct (starts_with needle (x :: a)); [done|].
    destruct (window_position needle (a ++ b)) as [j|]; [|done]. intros [= <-].
    rewrite (IH j); [done..|]. simpl in Hl. lia.
Qed.

Lemma window_position_before needle a b i :
  window_position needle (a ++ b) = Some i → len a < i + len needle →
  window_position needle a = None.
Proof.
  intros Hw Hl. destruct (window_position needle a) as [j|] eqn:Hj; [|done].
  pose proof (window_position_bound _ _ _ Hj).
  apply (window_position_app _ _ b) in Hj. rewrite Hw in Hj. simplify_eq. lia.
Qed.

Lemma reserve_room n v : vec_ok v → 0 < n →
  contents (reserve n v) = contents v ∧ len (contents v) < capacity (reserve n v) ∧ vec_ok (reserve n v).
Proof.
  unfold reserve, vec_ok. intros Hv Hn.
  destruct (N.ltb_spec (capacity v - len (contents v)) n); simpl; split_and!; try done; lia.
Qed.

Section read_exact.
Context {T : Tcp} {TL : TcpLaws T}.

(** A read into a buffer takes the next bytes, and as many as it reports. *)
Lemma read_into_spec v s r v' s' :
  read_into v s = (r, v', s') →
  v'.(capacity) = v.(capacity) ∧ outgoing s' = outgoing s ∧ (steady s → steady s' ∧ ∃ n, r = Ok n) ∧
  match r with
  | Err _ => v' = v
  | Ok n => ∃ bs, n = len bs ∧ v'.(contents) = v.(contents) ++ bs ∧
      incoming s = bs ++ incoming s' ∧ len bs ≤ v.(capacity) - len v.(contents) ∧
      (bs = [] → len v.(contents) < v.(capacity) → incoming s = [])
  end.
Proof.
  unfold read_into. destruct (recv _ s) as [r0 s0] eqn:Hr.
  pose proof (recv_keeps _ _ _ _ Hr) as Hk.
  assert (Hst : steady s → steady s0 ∧ ∃ bs, r0 = Ok bs) by (intros; by eapply recv_steady).
  destruct r0 as [bs|e]; intros [= <- <- <-]; simpl; split_and!; try done.
  - intros [? _]%Hst. eauto.
  - destruct (recv_takes _ _ _ _ Hr) as [Hi Hl]. exists bs. split_and!; try done.
    intros -> Hlt. eapply recv_eof; [done|]. lia.
  - intros [_ [? [=]]]%Hst.
Qed.

Lemma fill_exact_spec fuel v s :
  (N.to_nat (v.(capacity) - len v.(contents)) < fuel)%nat → vec_ok v →
  wp (fill_exact fuel v) (λ r s', outgoing s' = outgoing s ∧ (steady s → steady s') ∧
    match r with
    | Ok bs => ∃ more, bs = v.(contents) ++ more ∧ len bs = v.(capacity) ∧
                       incoming s = more ++ incoming s'
    | Err _ => steady s → len (incoming s) < v.(capacity) - len v.(contents)
    end) s.
Proof.
  revert v s. induction fuel as [|fuel IH]; intros v s Hf Hv; [lia|]. cbn [fill_exact].
  unfold vec_ok in Hv. destruct (N.ltb_spec (len v.(contents)) v.(capacity)) as [Hlt|Hge].
  2: { wp_steps. split_and!; [done..|]. exists []. rewrite app_nil_r. split_and!; try done. lia. }
  wp_step. unfold wp at 1. destruct (read_into v s) as [[r v'] s1] eqn:Hr.
  destruct (read_into_spec _ _ _ _ _ Hr) as (Hc & Ho & Hst & Hm). cbn [fst snd].
  destruct r as [n|e].
  2: { wp_steps. split_and!; [done|naive_solver|]. intros [_ [? [=]]]%Hst. }
  destruct Hm as (bs & -> & Hv' & Hi & Hl & He).
  destruct (N.eqb_spec (len bs) 0) as [H0|H0].
  { wp_steps. split_and!; [done|naive_solver|]. intros _.
    assert (bs = []) as -> by (destruct bs; [done|rewrite len_cons in H0; lia]).
    rewrite He by done. rewrite len_nil. lia. }
  assert (Hlen : len v'.(contents) = len v.(contents) + len bs) by (by rewrite Hv', len_app).
  eapply wp_mono; [apply IH; unfold vec_ok; lia|]. intros r s2 (Ho2 & Hst2 & Hm2).
  split_and!; [congruence|naive_solver|]. destruct r as [all|e].
  - destruct Hm2 as (more & -> & Hn & Hi2). exists (bs ++ more).
    rewrite Hv', <-app_assoc in *. split_and!; [done|lia|].
    by rewrite Hi, Hi2, app_assoc.
  - intros Hs. specialize (Hm2 (proj1 (Hst Hs))). rewrite Hi, len_app. lia.
Qed.

(** [read_exact n] brings the next [n] bytes, and fails on a steady stream only when fewer
    are to come. *)
Lemma read_exact_spec n s :
  wp (read_exact n) (λ r s', outgoing s' = outgoing s ∧ (steady s → steady s') ∧
    match r with
    | Ok bs => len bs = n ∧ incoming s = bs ++ incoming s'
    | Err _ => steady s → len (incoming s) < n
    end) s.
Proof.
  unfold read_exact. eapply wp_mono; [apply fill_exact_spec|].
  - simpl. rewrite len_nil. lia.
  - unfold vec_ok. simpl. rewrite len_nil. lia.
  - intros r s' (Ho & Hst & Hm). split_and!; [done..|]. destruct r as [bs|e]; simpl in *.
    + destruct Hm as (more & -> & ? & ?). done.
    + intros Hs. specialize (Hm Hs). rewrite len_nil in Hm. lia.
Qed.
End read_exact.

(** ** Decimal numbers

    What [Display] prints of a number, [parse] reads. *)

Lemma codes_cons c s : codes (String c s) = Ascii.N_of_ascii c :: codes s.
Proof. done. Qed.

Lemma digit_code n : n < 10 → Ascii.N_of_ascii (pretty_N_char n) = 48 + n.
Proof.
  intros Hn. unfold pretty_N_char.
  destruct n as [|p]; [done|]. do 4 (destruct p as [p|p|]; try done; try lia).
Qed.

Lemma digits_value_go n s :
  n < U64 → digits_value 0 (codes (pretty_N_go n s)) = digits_value n (codes s).
Proof.
  revert s. induction n as [n IH] using (well_founded_induction N.lt_wf_0). intros s Hn.
  destruct (N.eq_dec n 0) as [->|Hne]; [done|]. rewrite pretty_N_go_step by lia.
  assert (Hlt : n / 10 < n) by (apply N.div_lt; lia).
  rewrite IH; [|done|by transitivity n].
  pose proof (N.mod_lt n 10 ltac:(done)) as Hm. pose proof (N.div_mod n 10 ltac:(done)) as Hd.
  rewrite codes_cons, digit_code by done. cbn [digits_value]. clear IH.
  rewrite between_true by (generalize dependent (n mod 10); intros; lia).
  assert (E : n / 10 * 10 + (48 + n mod 10 - 48) = n).
  { generalize dependent (n mod 10); generalize dependent (n / 10); intros; lia. }
  rewrite E. by rewrite (proj2 (N.ltb_lt _ _) Hn).
Qed.

Lemma codes_app a b : codes (a +:+ b) = codes a ++ codes b.
Proof. unfold codes. induction a as [|x a IH]; [done|]. simpl. by f_equal. Qed.

Definition is_digit (c : N) : Prop := 48 ≤ c ≤ 57.

Lemma pretty_N_go_digits n s : Forall is_digit (codes s) → Forall is_digit (codes (pretty_N_go n s)).
Proof.
  revert s. induction n as [n IH] using (well_founded_induction N.lt_wf_0). intros s Hs.
  destruct (N.eq_dec n 0) as [->|Hn]; [done|]. rewrite pretty_N_go_step by lia. apply IH.
  - apply N.div_lt; lia.
  - pose proof (N.mod_lt n 10 ltac:(done)) as Hm. rewrite codes_cons, digit_code by done.
    constructor; [|done]. generalize dependent (n mod 10). unfold is_digit. intros. lia.
Qed.

Lemma pretty_all_digits (n : N) : Forall is_digit (codes (pretty n)).
Proof.
  unfold pretty, pretty_N. case_decide; [by repeat constructor|]. apply pretty_N_go_digits. constructor.
Qed.

Lemma pretty_not_in c (n : N) : ¬ is_digit c → c ∉ codes (pretty n).
Proof. intros Hc Hin. by apply (proj1 (Forall_forall _ _) (pretty_all_digits n)) in Hin. Qed.

Lemma pretty_digits (n : N) : 10 ∉ codes (pretty n).
Proof. apply pretty_not_in. unfold is_digit. lia. Qed.

Lemma pretty_not_nil (n : N) : codes (pretty n) ≠ [].
Proof.
  assert (Hl : ∀ m t, t ≠ "" → codes (pretty_N_go m t) ≠ []).
  { intros m. induction m as [m IH] using (well_founded_induction N.lt_wf_0). intros t Ht.
    destruct (N.eq_dec m 0) as [->|Hm].
    - by destruct t.
    - rewrite pretty_N_go_step by lia. apply IH; [apply N.div_lt; lia|done]. }
  unfold pretty, pretty_N. case_decide as H0; [done|]. rewrite pretty_N_go_step by lia. by apply Hl.
Qed.

Lemma parse_number_pretty n : n < U64 → parse_number (codes (pretty n)) = Some n.
Proof.
  intros Hn. assert (Hd : digits_value 0 (codes (pretty n)) = Some n).
  { unfold pretty, pretty_N. case_decide as H0; [by subst|]. by rewrite digits_value_go. }
  unfold parse_number. pose proof (pretty_not_nil n) as Hne. pose proof (pretty_not_in 43 n) as Hplus.
  destruct (codes (pretty n)) as [|c s]; [done|].
  destruct (N.eqb_spec c 43) as [->|_]; [|done]. exfalso. apply Hplus; [unfold is_digit; lia|]. left.
Qed.

(** Text that is ASCII is its own encoding. *)
Lemma as_bytes_ascii s : Forall (λ c, c < 128) s → as_bytes s = s.
Proof.
  unfold as_bytes. induction 1 as [|c s Hc Hs IH]; [done|]. cbn [mbind list_bind]. rewrite IH.
  unfold encode_char. by rewrite (proj2 (N.ltb_lt _ _) Hc).
Qed.

(** Trimming takes a suffix that matches, up to a character that does not. *)
Lemma trim_end_suffix p s t c :
  Forall (λ x, p x = true) t → p c = false → trim_end_matches p ((s ++ [c]) ++ t) = s ++ [c].
Proof.
  unfold trim_end_matches. intros Ht Hc. rewrite rev_app_distr.
  induction t as [|x t IH] using rev_ind.
  - cbn [rev app]. rewrite rev_app_distr. cbn [rev app drop_while]. rewrite Hc. cbn [rev].
    by rewrite rev_involutive.
  - apply Forall_app in Ht as [Ht Hx]. rewrite rev_app_distr. cbn [rev app drop_while].
    apply Forall_cons in Hx as [Hx _]. cbn beta in Hx. rewrite Hx. by apply IH.
Qed.
