(* ===== verification/Debug.v ===== *)
(** How the crate's types print for debugging ([fmt::Debug] of [src/src/pool.rs],
    [builder.rs], [manage.rs], [cpu.rs] and [workers.rs]), in the one-line form [{:?}].
    What [Debug] writes for a type of the standard library or of another crate is a
    parameter. *)

From stdpp Require Import pretty strings.
From S2P Require Import Prelude Manage Builder Metrics Store Waiters Inner Local Registry Cpu Workers Text.

(** ** [fmt::DebugStruct], [DebugTuple] and [DebugList] *)

Fixpoint commas (l : list string) : string :=
  match l with
  | [] => ""
  | [s] => s
  | s :: l => s +:+ ", " +:+ commas l
  end.
Definition field_text (f : string * string) : string := f.1 +:+ ": " +:+ f.2.

(** [debug_struct(name)], its fields, [finish()]. *)
Definition debug_struct (name : string) (fields : list (string * string)) : string :=
  match fields with
  | [] => name
  | _ => name +:+ " { " +:+ commas (field_text <$> fields) +:+ " }"
  end.
(** The same with [finish_non_exhaustive()]. *)
Definition debug_struct_open (name : string) (fields : list (string * string)) : string :=
  match fields with
  | [] => name +:+ " { .. }"
  | _ => name +:+ " { " +:+ commas (field_text <$> fields) +:+ ", .. }"
  end.
Definition debug_tuple (name : string) (field : string) : string := name +:+ "(" +:+ field +:+ ")".
Definition debug_list (l : list string) : string := "[" +:+ commas l +:+ "]".
Definition debug_bool (b : bool) : string := if b then "true" else "false".
Definition debug_option {A} (f : A → string) (o : option A) : string :=
  match o with Some a => debug_tuple "Some" (f a) | None => "None" end.

Section debug.
(** [Debug] of [Duration], of a [String], of compio's [ProactorBuilder] and of
    [core_affinity]'s [CoreId]. *)
Context {P : Type} (debug_duration : Duration → string) (debug_str : string → string)
  (debug_proactor : P → string) (debug_core : CoreId → string).

(** The derived ones. *)
Definition debug_state (s : State) : string :=
  debug_struct "State" [("connections", pretty s.(Metrics.connections));
    ("idle_connections", pretty s.(idle_connections)); ("pending_waiters", pretty s.(pending_waiters))].
Definition debug_statistics (s : Statistics) : string :=
  debug_struct "Statistics"
    [("get_direct", pretty s.(get_direct)); ("get_waited", pretty s.(get_waited));
     ("get_timed_out", pretty s.(get_timed_out));
     ("connections_created", pretty s.(connections_created));
     ("connections_closed_broken", pretty s.(connections_closed_broken));
     ("connections_closed_idle_timeout", pretty s.(connections_closed_idle_timeout));
     ("connections_closed_max_lifetime", pretty s.(connections_closed_max_lifetime));
     ("connections_closed_manual", pretty s.(connections_closed_manual));
     ("total_wait_time", debug_duration s.(total_wait_time))].
Definition debug_build_error (e : BuildError) : string := match e with ZeroMaxSize => "ZeroMaxSize" end.
Definition debug_config (c : PoolConfig) : string :=
  debug_struct "PoolConfig"
    [("max_size", pretty c.(max_size)); ("min_idle", pretty c.(min_idle));
     ("connection_timeout", debug_duration c.(connection_timeout));
     ("idle_timeout", debug_option debug_duration c.(idle_timeout));
     ("max_lifetime", debug_option debug_duration c.(max_lifetime));
     ("test_on_check_out", debug_bool c.(test_on_check_out));
     ("retry_connection", debug_bool c.(retry_connection))].
Definition debug_run_error {E} (debug_e : E → string) (e : RunError E) : string :=
  match e with
  | User e => debug_tuple "User" (debug_e e)
  | TimedOut => "TimedOut"
  | Closed => "Closed"
  end.
Definition debug_core_info (c : CoreInfo) : string :=
  debug_struct "CoreInfo" [("id", pretty c.(cpu_id)); ("core", pretty c.(core));
    ("package", pretty c.(package)); ("numa_node", pretty c.(numa_node))].
Definition debug_core_set (s : CoreSet) : string :=
  debug_struct "CoreSet" [("infos", debug_list (debug_core_info <$> s.(infos)))].
Definition debug_worker_ctx (c : WorkerCtx) : string :=
  debug_struct "WorkerCtx" [("index", pretty (N.of_nat c.(index))); ("core", debug_core c.(ctx_core));
    ("pinned", debug_bool c.(pinned))].
Definition debug_per_core (p : PerCore P) : string :=
  debug_struct "PerCore" [("cores", debug_list (debug_core <$> p.(pc_cores)));
    ("name", debug_str p.(pc_name)); ("proactor", debug_option debug_proactor p.(pc_proactor))].

(** The hand-written ones. *)
Definition debug_pool (sh : Shared) : string :=
  debug_struct_open "Pool" [("max_size", pretty sh.(sh_config).(max_size));
    ("closed", debug_bool (pool_is_closed sh))].
Definition debug_local {C} (cfg : PoolConfig) : St (World C) string :=
  state ← local_state;
  mret (debug_struct "LocalPool" [("max_size", pretty cfg.(max_size));
    ("connections", pretty state.(Metrics.connections)); ("idle", pretty state.(idle_connections));
    ("pending_waiters", pretty state.(pending_waiters))]).
Definition debug_lease {C} (p : PooledConnection C) : string :=
  debug_struct "PooledConnection" [("held", debug_bool (bool_decide (is_Some p.(pooled_conn))))].
Definition debug_builder (b : Builder) : string :=
  debug_struct "Builder" [("config", debug_config b.(config))].
Definition debug_workers {T Panics} (w : Workers T Panics) : string :=
  debug_struct "Workers" [("len", pretty (len w.(handles)))].
End debug.

(** ** What a log line tells *)

(** Two numbers, each followed by the same thing that is not a digit, are read back. *)
Lemma number_split (a b : N) (x : N) (r r' : list N) :
  ¬ is_digit x → codes (pretty a) ++ x :: r = codes (pretty b) ++ x :: r' → a = b ∧ r = r'.
Proof.
  intros Hx. pose proof (pretty_all_digits a) as Ha. pose proof (pretty_all_digits b) as Hb.
  assert (Hsplit : ∀ l l' : list N, Forall is_digit l → Forall is_digit l' →
    l ++ x :: r = l' ++ x :: r' → l = l' ∧ r = r').
  { intros l l' Hl. revert l'. induction Hl as [|d l Hd Hl IH]; intros l' Hl' Heq.
    - destruct Hl' as [|d' l' Hd' Hl']; simplify_list_eq; done.
    - destruct Hl' as [|d' l' Hd' Hl']; simplify_list_eq; [done|].
      destruct (IH l' Hl') as [-> ->]; done. }
  intros Heq. destruct (Hsplit _ _ Ha Hb Heq) as [Hp ->]. split; [|done].
  apply (inj pretty). revert Hp. generalize (pretty a), (pretty b). clear.
  induction s as [|c s IH]; intros [|c' s'] Heq; try done. rewrite !codes_cons in Heq.
  injection Heq as Hc Hs. rewrite (IH s' Hs). f_equal.
  by rewrite <-(Ascii.ascii_N_embedding c), Hc, Ascii.ascii_N_embedding.
Qed.

(** A state's log line tells the state: two states never print the same. *)
Theorem debug_state_tells (s s' : State) : debug_state s = debug_state s' → s = s'.
Proof.
  intros Heq. apply (f_equal codes) in Heq. destruct s as [c i w], s' as [c' i' w'].
  unfold debug_state, debug_struct, field_text in Heq.
  cbn [fmap list_fmap commas fst snd Metrics.connections idle_connections pending_waiters] in Heq.
  rewrite !codes_app in Heq. rewrite <-!app_assoc in Heq.
  change (codes ", ") with [44; 32] in Heq. change (codes " }") with [32; 125] in Heq. cbn [app] in Heq.
  repeat apply app_inv_head in Heq.
  apply (number_split c c' 44) in Heq as [-> Heq]; [|unfold is_digit; lia]. injection Heq as Heq.
  repeat apply app_inv_head in Heq.
  apply (number_split i i' 44) in Heq as [-> Heq]; [|unfold is_digit; lia]. injection Heq as Heq.
  repeat apply app_inv_head in Heq.
  apply (number_split w w' 32) in Heq as [-> Heq]; [done|unfold is_digit; lia].
Qed.

(** Printing a [LocalPool] changes nothing and shows its live counts. *)
Theorem debug_local_reads {C} (cfg : PoolConfig) (w : World C) :
  debug_local cfg w = Val (debug_struct "LocalPool"
    [("max_size", pretty cfg.(max_size)); ("connections", pretty w.(slots));
     ("idle", pretty (as_u32 (len w.(idle)))); ("pending_waiters", pretty (as_u32 (len w.(waiters).(entries))))], w).
Proof. done. Qed.

(** A pool still open, and one that has been closed. *)
Example debug_pool_closed :
  debug_pool (pool_new default_config) = "Pool { max_size: 10, closed: false, .. }"%string ∧
  debug_pool (pool_close (pool_new default_config)) = "Pool { max_size: 10, closed: true, .. }"%string.
Proof. split; vm_compute; reflexivity. Qed.
