(* ===== verification/Warmup.v ===== *)
(** The tour of the pool's lifecycle ([src/examples/warmup.rs]), as a schedule of the system, and
    what a late caller can do to a woken waiter. *)

From stdpp Require Import gmap pretty strings.
From S2P Require Import Prelude Manage Builder Metrics Store Waiters Inner Local Futures Balance System Scenario Debug.

(** ** The program *)

(** [Manager]: a resource is its id; opening one always works. *)
Definition WarmupManager : ManageConnection N string := {|
  connect t := Ready (Ok (N.of_nat t));
  is_valid _ c := (Ready (Ok tt), c);
  has_broken _ c := (false, c)
|}.

(** The pool's configuration: [max_size] 8 and [min_idle] 4. *)
Definition warmup_config : option PoolConfig :=
  match build (with_min_idle 4 (with_max_size 8 builder_new)) tt with
  | Ok p => Some p.(shared_config)
  | Err _ => None
  end.

Section tour.
Context {F : Features} {R : Runtime}.
#[local] Existing Instance WarmupManager.
Context (cfg : PoolConfig).

(** [local.state()] and how many were opened: [connect] never fails here, so [OPENS] is the count
    of connections created. *)
Definition reading (s : Sys N string) : option (State * N) :=
  match local_state s.(world), local_statistics s.(world) with
  | Val (st, _), Val (stats, _) => Some (st, stats.(connections_created))
  | _, _ => None
  end.

Definition warm_call (i : nat) : list (action N) := [Spawn i CallWarm; PollTask i].
Definition get_call (i : nat) : list (action N) := [Spawn i CallGet; PollTask i].

(** The steps between the readings: warm; three checkouts, returned; a burst of eight, returned. *)
Definition tour : list (list (action N)) :=
  [ [];
    warm_call 0;
    get_call 1 ++ get_call 2 ++ get_call 3;
    [DropLease 1; DropLease 2; DropLease 3];
    seq 4 8 ≫= get_call;
    DropLease <$> seq 4 8 ].

Fixpoint readings (steps : list (list (action N))) (s : Sys N string) : option (list (State * N)) :=
  match steps with
  | [] => Some []
  | acts :: steps =>
      s ← run cfg acts s;
      r ← reading s;
      rs ← readings steps s;
      Some (r :: rs)
  end.

(** What is printed before each reading, and whether the line ends with what [warm] made. *)
Definition labels : list (string * bool) :=
  [("fresh pool:     ", false); ("after warm:     ", true); ("3 checked out:  ", false);
   ("3 returned:     ", false); ("8 checked out:  ", false); ("8 returned:     ", false)].
Definition made (s : Sys N string) : option N :=
  match s.(answers) !! 0%nat with Some (_, Warmed n) => Some n | _ => None end.
Definition line (label : string * bool) (s : Sys N string) : option string :=
  '(st, opened) ← reading s;
  warm ← (if label.2 then m ← made s; Some ("  (warm made " +:+ pretty m +:+ ")") else Some "");
  Some (label.1 +:+ debug_state st +:+ "  opened=" +:+ pretty opened +:+ warm).
Fixpoint lines (steps : list ((string * bool) * list (action N))) (s : Sys N string) :
    option (list string) :=
  match steps with
  | [] => Some []
  | (label, acts) :: steps =>
      s ← run cfg acts s;
      l ← line label s;
      ls ← lines steps s;
      Some (l :: ls)
  end.
End tour.

(** [main]; [runs] is whether a compio runtime could be built.  Without the [metrics] feature it
    only says so. *)
Definition warmup_main {F : Features} {R : Runtime} (runs : bool) (tk : nat) : outcome (list string) :=
  if feature_metrics then
    match warmup_config with
    | None => Panic
    | Some cfg =>
        if runs then
          match lines cfg (zip labels tour) (sys_init false tk) with
          | Some ls => Val ls
          | None => Panic
          end
        else Panic
    end
  else mret ["the `warmup` example needs the `metrics` feature:" +:+ String (Ascii.ascii_of_nat 10) "    " +:+
             "cargo run --release --features metrics --example warmup"].

(** ** The theorems *)

#[local] Existing Instances demo_features plain_runtime.

(** What the tour shows.  A fresh pool is empty; [warm] opens four; three checkouts and their
    return open nothing; a burst of eight opens four more, and the eight come back idle. *)
Theorem tour_readings :
  (cfg ← warmup_config; readings cfg tour (sys_init false 0)) =
    Some [ (mkState 0 0 0, 0); (mkState 4 4 0, 4); (mkState 4 1 0, 4); (mkState 4 4 0, 4);
           (mkState 8 0 0, 8); (mkState 8 8 0, 8) ].
Proof. vm_compute. reflexivity. Qed.

(** The lines it prints. *)
Theorem tour_prints :
  warmup_main true 0 = Val
    [ "fresh pool:     State { connections: 0, idle_connections: 0, pending_waiters: 0 }  opened=0";
      "after warm:     State { connections: 4, idle_connections: 4, pending_waiters: 0 }  opened=4  (warm made 4)";
      "3 checked out:  State { connections: 4, idle_connections: 1, pending_waiters: 0 }  opened=4";
      "3 returned:     State { connections: 4, idle_connections: 4, pending_waiters: 0 }  opened=4";
      "8 checked out:  State { connections: 8, idle_connections: 0, pending_waiters: 0 }  opened=8";
      "8 returned:     State { connections: 8, idle_connections: 8, pending_waiters: 0 }  opened=8" ]%string.
Proof. vm_compute. reflexivity. Qed.

#[local] Existing Instance demo_manager.

(** A late caller overtakes.  A connection comes back and the oldest waiter is woken for it; a
    task that only now calls [get] takes it, and the waiter goes back to the end of the queue. *)
Definition late_call : option (Sys N string) :=
  run demo_config [Spawn 3 CallGet; PollTask 3; PollTask 2] demo_returned.
Lemma waiter_overtaken :
  (∃ id, (id, 2%nat) ∈ demo_returned.(world).(wakes)) ∧
  ∃ s, late_call = Some s ∧ is_Some (s.(leases) !! 3%nat) ∧ s.(leases) !! 2%nat = None ∧
    is_Some (s.(tasks) !! 2%nat) ∧ s.(world).(waiters).(entries).*2 = [2%nat].
Proof.
  split; [exists 1; apply (bool_decide_unpack _); vm_compute; exact I|].
  eexists. split; [vm_compute; reflexivity|]. split_and!; vm_compute; by eauto.
Qed.
