(* ===== verification/Clients.v ===== *)
(** Programs that run on a pool: a state that holds one thread's [Sys] among its own
    things, the two ways it uses the pool (an action, and an operation on what a task has
    leased), and what they do to the tasks and leases of the others. *)

From stdpp Require Import gmap.
From S2P Require Import Prelude Manage Builder Metrics Store Waiters Inner Local Futures Balance System Scenario Safety.

(** A state of type [H] with a pool of [C]s inside. *)
Class PoolHost (H C E : Type) := {
  pool_of : H → Sys C E;
  with_pool : Sys C E → H → H
}.
Class PoolHostLaws {H C E} (P : PoolHost H C E) : Prop := {
  pool_of_with s h : pool_of (with_pool s h) = s;
  with_pool_with s s' h : with_pool s (with_pool s' h) = with_pool s h
}.

Section host.
Context {H C E : Type} {P : PoolHost H C E} {F : Features} {R : Runtime} {M : ManageConnection C E}.
Context (cfg : PoolConfig).

(** Use the pool. *)
Definition act (a : action C) : St H unit := λ h,
  match exec cfg a (pool_of h) with
  | Some (Val s) => Val (tt, with_pool s h)
  | Some NoFuel => NoFuel
  | Some Panic | None => Panic
  end.

(** Use what task [k] has leased. *)
Definition on_lease {A} (k : nat) (op : C → outcome (A * C)) : St H A := λ h,
  match (pool_of h).(leases) !! k with
  | None => Panic
  | Some p =>
      match deref p with
      | Val c =>
          match op c with
          | Val (a, c') => (act (WriteLease k c');; mret a) h
          | Panic => Panic
          | NoFuel => NoFuel
          end
      | Panic => Panic
      | NoFuel => NoFuel
      end
  end.
End host.

(** ** What the pool's actions do to tasks and leases *)

(** Only task [k]'s own part of the pool moves. *)
Definition moves {C E} (k : nat) (s s' : Sys C E) : Prop :=
  ∀ j, j ≠ k → s'.(tasks) !! j = s.(tasks) !! j ∧ s'.(leases) !! j = s.(leases) !! j.

(** The others keep what they have. *)
Ltac other := intros ? ?; simpl;
  rewrite ?lookup_insert_ne, ?lookup_delete_ne by congruence; done.

Lemma moves_trans {C E} k (s s1 s' : Sys C E) : moves k s s1 → moves k s1 s' → moves k s s'.
Proof. intros H1 H2 j Hj. destruct (H1 j Hj), (H2 j Hj). split; congruence. Qed.

Section effects.
Context {C E : Type} {F : Features} {R : Runtime} {RL : RuntimeLaws R} {M : ManageConnection C E}.
Context (cfg : PoolConfig) (Hcfg : config_ok cfg).
Implicit Types s : Sys C E.

Lemma leases_bounded s : reachable cfg s → N.of_nat (size s.(leases)) ≤ cfg.(max_size).
Proof.
  intros Hs. destruct (reachable_inv cfg Hcfg s Hs) as [_ (nx & _ & HL)].
  pose proof (lg_slots _ _ _ _ _ _ _ HL). pose proof (lg_max _ _ _ _ _ _ _ HL).
  unfold outstanding in *. lia.
Qed.

Lemma poll_get_effect s k g s' :
  s.(tasks) !! k = Some (TGet g) → exec cfg (PollTask k) s = Some (Val s') →
  (∃ p, s'.(leases) = <[k := p]> s.(leases) ∧ s'.(tasks) = delete k s.(tasks)) ∨
  (s'.(leases) = s.(leases) ∧ ∃ g', s'.(tasks) = <[k := TGet g']> s.(tasks)) ∨
  (s'.(leases) = s.(leases) ∧ s'.(tasks) = delete k s.(tasks)).
Proof.
  intros Hk. simpl. rewrite Hk. simpl. intros [= Hex]. unfold run_on in Hex. simpl in Hex.
  unfold mbind, St_bind in Hex.
  destruct (poll_get cfg k g (world s)) as [[[[p|e]|g'] w]| |]; simplify_eq/=; eauto 10.
Qed.

Lemma drop_lease_effect s k :
  reachable cfg s → is_Some (s.(leases) !! k) →
  ∃ s', exec cfg (DropLease k) s = Some (Val s') ∧ s'.(tasks) = s.(tasks) ∧
    s'.(leases) = delete k s.(leases) ∧
    s'.(world).(waiters).(next_id) ≤ s.(world).(waiters).(next_id).
Proof.
  intros Hs [p Hk]. pose proof (reachable_inv cfg Hcfg s Hs) as HI.
  destruct (sys_inv_lease cfg s k p HI Hk) as ([conn ->] & _ & nx & _ & _ & HL).
  apply ledger_tight in HL. pose proof (pooled_drop_ledger cfg _ Hcfg _ _ _ _ conn _ HL) as Hwp.
  apply wp_val in Hwp as ([] & w & Hrun & HL').
  eexists. simpl. rewrite Hk. simpl. unfold run_on. rewrite Hrun. split_and!; try done.
  apply (lg_next _ _ _ _ _ _ _ HL').
Qed.

(** A lease is never empty, and may be written through. *)
Lemma lease_full s k p : reachable cfg s → s.(leases) !! k = Some p → ∃ conn, p = mkPooled (Some conn).
Proof.
  intros Hs Hk. destruct (reachable_inv cfg Hcfg s Hs) as [Ho _].
  destruct (ow_leases _ _ Ho _ _ Hk) as [conn ->]. by exists conn.
Qed.

Lemma write_lease_effect s k conn c :
  s.(leases) !! k = Some (mkPooled (Some conn)) →
  exec cfg (WriteLease k c) s = Some (Val (mkSys s.(world) s.(tasks)
    (<[k := mkPooled (Some (mkConn c conn.(created_at) conn.(last_used)))]> s.(leases)) s.(answers))).
Proof. intros Hk. simpl. by rewrite Hk. Qed.
End effects.

Section host_spec.
Context {H C E : Type} {P : PoolHost H C E} {PL : PoolHostLaws P}.
Context {F : Features} {R : Runtime} {RL : RuntimeLaws R} {M : ManageConnection C E}.
Context (cfg : PoolConfig) (Hcfg : config_ok cfg).

Lemma wp_act a h (Q : unit → H → Prop) :
  reachable cfg (pool_of h) → room cfg a (pool_of h) → exec cfg a (pool_of h) ≠ None →
  (∀ s, exec cfg a (pool_of h) = Some (Val s) → reachable cfg s → Q tt (with_pool s h)) →
  wp (act cfg a) Q h.
Proof.
  intros Hs Hr He HQ. unfold wp, act. destruct (exec cfg a (pool_of h)) as [o|] eqn:Hex; [|done].
  destruct (exec_inv cfg Hcfg _ a o (reachable_inv cfg Hcfg _ Hs) Hr Hex) as (s' & -> & _).
  apply HQ; [done|]. by eapply reach_step.
Qed.

(** An operation on the lease: the value lent, the value left behind. *)
Lemma wp_on_lease {A} k conn (op : C → outcome (A * C)) (Q : A → H → Prop) h :
  reachable cfg (pool_of h) → (pool_of h).(leases) !! k = Some (mkPooled (Some conn)) →
  wp op (λ a c, ∀ s, s = mkSys (pool_of h).(world) (pool_of h).(tasks)
      (<[k := mkPooled (Some (mkConn c conn.(created_at) conn.(last_used)))]> (pool_of h).(leases))
      (pool_of h).(answers) → reachable cfg s → Q a (with_pool s h)) conn.(raw) →
  wp (on_lease cfg k op) Q h.
Proof.
  intros Hs Hk Hop. unfold on_lease. unfold wp at 1. rewrite Hk. cbn [deref pooled_conn].
  destruct (wp_val _ _ _ Hop) as (a & c & -> & HQ).
  change (wp (act cfg (WriteLease k c);; mret a) Q h). wp_step.
  pose proof (write_lease_effect cfg (pool_of h) k conn c Hk) as Hex.
  apply wp_act; [done|done|by rewrite Hex|]. rewrite Hex. intros s [= <-] Hs'. wp_steps. by apply HQ.
Qed.
End host_spec.

(** ** Waiting for each other *)

(** A [get] that has something to do: it is not parked in the queue with its waker still to run. *)
Definition lease_can_go {C E} (s : Sys C E) (k : nat) : bool :=
  match s.(tasks) !! k with
  | Some (TGet (GetTimed (GWait _ _ (mkWait (Some id) _)))) => bool_decide ((id, k) ∈ s.(world).(wakes))
  | _ => true
  end.

(** On an open pool with nothing leased, not every task waits. *)
Lemma not_all_waiting {C E} {F : Features} {R : Runtime} {RL : RuntimeLaws R} {M : ManageConnection C E}
    cfg (s : Sys C E) :
  config_ok cfg → reachable cfg s → s.(world).(closed) = false → s.(leases) = ∅ → s.(tasks) ≠ ∅ →
  ∃ k t, s.(tasks) !! k = Some t ∧ lease_can_go s k = true.
Proof.
  intros Hcfg Hs Hc Hl Hne.
  destruct (decide (map_Exists (λ k _, lease_can_go s k = true) s.(tasks))) as [(k & t & ? & ?)|Hno];
    [by exists k, t|exfalso]. apply map_not_Exists in Hno.
  assert (Hall : ∀ k t, s.(tasks) !! k = Some t →
    ∃ st wt id b, t = TGet (GetTimed (GWait st wt (mkWait (Some id) b))) ∧ (id, k) ∉ s.(world).(wakes)).
  { intros k t Hk. specialize (Hno k t Hk). simpl in Hno. unfold lease_can_go in Hno. rewrite Hk in Hno.
    repeat case_match; try done. apply not_true_is_false, bool_decide_eq_false in Hno. eauto 10. }
  destruct (all_parked_woken cfg Hcfg s) as (k & t & id & Hk & Hid & _ & Hw); [by apply reachable_inv|done..| |].
  - intros k t Hk. by destruct (Hall k t Hk) as (? & ? & ? & ? & -> & _).
  - destruct (Hall k t Hk) as (? & ? & id' & ? & -> & Hno').
    unfold wait_ids in Hid. simpl in Hid. assert (id = id') as -> by set_solver. done.
Qed.
