(* ===== verification/Fanout.v ===== *)
(** The fan-out client ([src/examples/fanout_requests.rs]): many client tasks on one thread
    share a [LocalPool] and drain a counter of requests.

    A client is a program of [System]'s actions: [get] is a task it spawns and polls, the
    round trip goes through the lease, and the lease is dropped at the end of the round. *)

From stdpp Require Import gmap.
From S2P Require Import Prelude Manage Builder Metrics Store Waiters Inner Local Futures Balance System Scenario Safety Clients Text.

(** ** The clients *)

(** The [Rc<Cell>]s the clients share. *)
Record Cells := mkCells { next : N; bytes : N; inflight : N; peak : N }.

(** Where a client task is suspended, with the index it has claimed: not polled yet, or in
    [get().await], [write_all(..).await] or [read_exact(..).await]. *)
Inductive client_state := Unpolled | Leasing (i : N) | Writing (i : N) | Reading (i : N) | Returned.

(** [completed] and [lost] keep a record: the indices whose round trip was made, and whether the
    reply came; and those claimed by a client whose [get] then failed. *)
Record Fan (C E : Type) := mkFan {
  sys : Sys C E;
  cells : Cells;
  clients : gmap nat client_state;
  completed : list (N * bool);
  lost : list N
}.
Arguments mkFan {C E} _ _ _ _ _.
Arguments sys {C E} _.
Arguments cells {C E} _.
Arguments clients {C E} _.
Arguments completed {C E} _.
Arguments lost {C E} _.

(** Rust's plain [-] on an unsigned integer of modulus [w]. *)
Definition sub_u `{Features} (w a b : N) : outcome N :=
  if b <=? a then Val (a - b) else if overflow_checks then Panic else Val (a + w - b).

(** [Upstreams]: dialling upstream number [t] answers [dial t]. *)
Definition Upstreams {T : Tcp} (dial : nat → Poll (result stream io_error)) : ManageConnection stream io_error := {|
  connect := dial;
  is_valid _ up := (Ready (Ok tt), up);
  has_broken _ up := (false, up)
|}.

Section fanout.
Context {T : Tcp} {F : Features} {R : Runtime} {M : ManageConnection stream io_error}.
Context (cfg : PoolConfig) (total size : N).
Abbreviation fan := (Fan stream io_error).

Definition set_sys (s : Sys stream io_error) (f : fan) : fan :=
  mkFan s f.(cells) f.(clients) f.(completed) f.(lost).
Definition set_cells (c : Cells) (f : fan) : fan :=
  mkFan f.(sys) c f.(clients) f.(completed) f.(lost).
Definition set_client (k : nat) (c : client_state) : St fan unit :=
  modify (λ f, mkFan f.(sys) f.(cells) (<[k := c]> f.(clients)) f.(completed) f.(lost)).
Definition note_completed (i : N) (ok : bool) : St fan unit :=
  modify (λ f, mkFan f.(sys) f.(cells) f.(clients) (f.(completed) ++ [(i, ok)]) f.(lost)).
Definition note_lost (i : N) : St fan unit :=
  modify (λ f, mkFan f.(sys) f.(cells) f.(clients) f.(completed) (f.(lost) ++ [i])).

#[export] Instance fan_host : PoolHost fan stream io_error := {| pool_of := sys; with_pool := set_sys |}.
#[export] Instance fan_host_laws : PoolHostLaws fan_host.
Proof. by split. Qed.

(** [inflight] and its high-water mark, once an upstream is leased. *)
Definition enter : St fan unit :=
  c ← gets cells;
  now ← lift (add_u U32 c.(inflight) 1);
  modify (set_cells (mkCells c.(next) c.(bytes) now
                       (if c.(peak) <? now then now else c.(peak)))).

(** [local.get().await], polled. *)
Definition poll_lease (k : nat) (i : N) : St fan unit :=
  act cfg (PollTask k);;
  s ← gets sys;
  match s.(leases) !! k, s.(tasks) !! k with
  | Some _, _ => enter;; set_client k (Writing i)
  | None, Some _ => set_client k (Leasing i)
  | None, None => note_lost i;; set_client k Returned
  end.

(** The top of the loop: claim an index, or stop. *)
Definition loop_top (k : nat) : St fan unit :=
  c ← gets cells;
  if total <=? c.(next) then set_client k Returned
  else
    n ← lift (add_u U64 c.(next) 1);
    modify (set_cells (mkCells n c.(bytes) c.(inflight) c.(peak)));;
    act cfg (Spawn k CallGet);;
    poll_lease k c.(next).

(** The end of the loop's body: [up] is dropped. *)
Definition end_round (k : nat) (i : N) (ok : bool) : St fan unit :=
  c ← gets cells;
  n ← lift (sub_u U32 c.(inflight) 1);
  modify (set_cells (mkCells c.(next) c.(bytes) n c.(peak)));;
  note_completed i ok;;
  act cfg (DropLease k);;
  loop_top k.

(** One poll of client [k], up to the next await point that may suspend it. *)
Definition client (k : nat) : St fan unit :=
  cs ← gets clients;
  match cs !! k with
  | Some Unpolled => loop_top k
  | Some (Leasing i) => poll_lease k i
  | Some (Writing i) =>
      written ← on_lease cfg k (λ up, Val (send (replicate (N.to_nat size) 120) up));
      match written with
      | Ok _ => set_client k (Reading i)
      | Err _ => end_round k i false
      end
  | Some (Reading i) =>
      read ← on_lease cfg k (read_exact size);
      match read with
      | Ok reply =>
          c ← gets cells;
          b ← lift (add_u U64 c.(bytes) (len reply));
          modify (set_cells (mkCells c.(next) b c.(inflight) c.(peak)));;
          end_round k i true
      | Err _ => end_round k i false
      end
  | Some Returned | None => skip
  end.

(** [main] spawns [n] of them. *)
Definition fan_init (n : nat) (closed : bool) (t : nat) : fan :=
  mkFan (sys_init closed t) (mkCells 0 0 0 0)
    (list_to_map ((λ k, (k, Unpolled)) <$> seq 0 n)) [] [].

(** The executor polls the clients in any order; the ids of the waiting queue have room for
    each poll. *)
Definition fan_room (f : fan) : Prop := f.(sys).(world).(waiters).(next_id) + 1 < U64.

Inductive fan_reachable : fan → Prop :=
| fan_start n c t : fan_reachable (fan_init n c t)
| fan_poll f k f' : fan_reachable f → fan_room f → client k f = Val (tt, f') → fan_reachable f'.
End fanout.

(** ** The books of the clients *)

Definition index_of (c : client_state) : list N :=
  match c with Leasing i | Writing i | Reading i => [i] | _ => [] end.

(** The indices clients are at work on. *)
Definition held (cs : gmap nat client_state) : list N := map_to_list cs ≫= λ kc, index_of kc.2.

(** The indices claimed so far, and the round trips whose reply came. *)
Definition upto (n : N) : list N := N.of_nat <$> seq 0 (N.to_nat n).
Definition replied (l : list (N * bool)) : list (N * bool) := filter (λ x, x.2 = true) l.

Lemma held_insert k c cs : held (<[k := c]> cs) ≡ₚ index_of c ++ held (delete k cs).
Proof.
  unfold held. rewrite <-insert_delete_eq, map_to_list_insert by apply lookup_delete_eq. done.
Qed.

Lemma held_lookup k c cs : cs !! k = Some c → held cs ≡ₚ index_of c ++ held (delete k cs).
Proof. intros Hk. by rewrite <-held_insert, insert_id. Qed.

Lemma upto_succ n : upto (n + 1) = upto n ++ [n].
Proof.
  unfold upto. rewrite N2Nat.inj_add, seq_app, fmap_app. simpl. by rewrite N2Nat.id.
Qed.

Lemma len_upto n : len (upto n) = n.
Proof. unfold len, upto. rewrite length_fmap, length_seq. lia. Qed.

Section clients.
Context {T : Tcp} {TL : TcpLaws T} {F : Features} {R : Runtime} {RL : RuntimeLaws R}
  {M : ManageConnection stream io_error}.
Context (cfg : PoolConfig) (Hcfg : config_ok cfg) (total size : N).
Context (Htotal : total < U64) (Hbytes : size * total < U64).
Abbreviation fan := (Fan stream io_error).
Implicit Types (f : fan) (s : Sys stream io_error) (cs : gmap nat client_state).

(** *** The invariant *)

(** What client [k] has in the pool. *)
Definition placed s (k : nat) (c : option client_state) : Prop :=
  match c with
  | Some (Leasing _) => (∃ g, s.(tasks) !! k = Some (TGet g)) ∧ s.(leases) !! k = None
  | Some (Writing _ | Reading _) => s.(tasks) !! k = None ∧ is_Some (s.(leases) !! k)
  | _ => s.(tasks) !! k = None ∧ s.(leases) !! k = None
  end.

(** [cs] is where the clients are; between two polls it is [f.(clients)]. *)
Record fan_inv cs f : Prop := {
  fi_sys : reachable cfg f.(sys);
  fi_placed k : placed f.(sys) k (cs !! k);
  fi_inflight : f.(cells).(inflight) = N.of_nat (base.size f.(sys).(leases));
  fi_peak : f.(cells).(inflight) ≤ f.(cells).(peak) ≤ cfg.(max_size);
  fi_next : f.(cells).(next) ≤ total;
  fi_claims : held cs ++ f.(completed).*1 ++ f.(lost) ≡ₚ upto f.(cells).(next);
  fi_bytes : f.(cells).(bytes) = size * len (replied f.(completed));
  fi_stop k : cs !! k = Some Returned → f.(cells).(next) = total ∨ f.(lost) ≠ []
}.

(** Client [k] being run, in state [c]. *)
Definition running (k : nat) (c : client_state) f : Prop := fan_inv (<[k := c]> f.(clients)) f.

Lemma placed_move k c c' cs s s' :
  (∀ j, placed s j (<[k := c]> cs !! j)) → moves k s s' → placed s' k (Some c') →
  ∀ j, placed s' j (<[k := c']> cs !! j).
Proof.
  intros Hp Hm Hk j. destruct (decide (j = k)) as [->|Hj]; [by rewrite lookup_insert_eq|].
  specialize (Hp j). rewrite !lookup_insert_ne in * by done.
  destruct (Hm j Hj) as [Ht Hl]. unfold placed. by rewrite Ht, Hl.
Qed.

Lemma stop_move k c c' cs (P : Prop) :
  (∀ j, <[k := c]> cs !! j = Some Returned → P) → (c' = Returned → P) →
  ∀ j, <[k := c']> cs !! j = Some Returned → P.
Proof.
  intros Hp Hk j. destruct (decide (j = k)) as [->|Hj].
  - rewrite lookup_insert_eq. intros [= ->]. auto.
  - rewrite lookup_insert_ne by done. intros Hc. apply (Hp j). by rewrite lookup_insert_ne.
Qed.

Lemma running_placed k c f : running k c f → placed f.(sys) k (Some c).
Proof. intros HI. pose proof (fi_placed _ _ HI k) as Hk. by rewrite lookup_insert_eq in Hk. Qed.

(** Client [k] moves on to [c']: what is left to check of the invariant. *)
Lemma running_move k c c' f f' :
  running k c f → f'.(clients) = f.(clients) ∨ f'.(clients) = <[k := c']> f.(clients) →
  reachable cfg f'.(sys) → moves k f.(sys) f'.(sys) → placed f'.(sys) k (Some c') →
  f'.(cells).(inflight) = N.of_nat (base.size f'.(sys).(leases)) →
  f'.(cells).(inflight) ≤ f'.(cells).(peak) ≤ cfg.(max_size) →
  f.(cells).(next) ≤ f'.(cells).(next) ≤ total →
  (∀ l, index_of c ++ l ++ f.(completed).*1 ++ f.(lost) ≡ₚ upto f.(cells).(next) →
        index_of c' ++ l ++ f'.(completed).*1 ++ f'.(lost) ≡ₚ upto f'.(cells).(next)) →
  f'.(cells).(bytes) = size * len (replied f'.(completed)) →
  (f.(lost) ≠ [] → f'.(lost) ≠ []) →
  (c' = Returned → f'.(cells).(next) = total ∨ f'.(lost) ≠ []) →
  running k c' f'.
Proof.
  intros [Hs Hp Hin Hpk Hn Hc Hb Hst] Hcl Hs' Hm Hk Hin' Hpk' Hn' Hc' Hb' Hl' Hst'.
  assert (E : <[k := c']> f'.(clients) = <[k := c']> f.(clients)).
  { destruct Hcl as [->| ->]; [done|]. by rewrite insert_insert_eq. }
  unfold running. rewrite E. split; try done.
  - by eapply placed_move.
  - lia.
  - rewrite held_insert, <-app_assoc. apply Hc'. by rewrite app_assoc, <-held_insert.
  - eapply stop_move; [|done]. intros j Hj. destruct (Hst j Hj); [left; lia|right; auto].
Qed.

(** Between two polls. *)
Lemma running_at k c f : f.(clients) !! k = Some c → running k c f ↔ fan_inv f.(clients) f.
Proof. intros Hk. unfold running. by rewrite insert_id. Qed.

Lemma poll_lease_spec k i f :
  running k (Leasing i) f → fan_room f →
  wp (poll_lease cfg k i) (λ _ f', fan_inv f'.(clients) f') f.
Proof.
  intros HI Hroom. destruct (running_placed _ _ _ HI) as [[g Hg] Hlk]. unfold poll_lease.
  wp_step. apply (wp_act cfg Hcfg); [apply HI|simpl; by rewrite Hg|simpl; by rewrite Hg|].
  intros s' Hex Hs'. wp_steps. simpl. pose proof HI as [_ _ Hin Hpk Hn _ Hb _].
  destruct (poll_get_effect cfg _ _ _ _ Hg Hex) as [(p & El & Et)|[(El & g' & Et)|(El & Et)]];
    rewrite El, Et.
  - rewrite lookup_insert_eq.
    assert (Hsz : base.size (leases s') = S (base.size (leases (sys f)))).
    { rewrite El. by apply map_size_insert_None. }
    pose proof (leases_bounded cfg Hcfg _ Hs') as Hbd. pose proof (max_size_u32 _ Hcfg) as Hu.
    unfold enter. wp_steps. eapply wp_lift; [apply add_u_small; simpl; lia|]. wp_steps.
    eapply (running_at k (Writing i)); [apply lookup_insert_eq|].
    eapply running_move; [exact HI|..]; unfold moves; simpl; rewrite ?El, ?Et; auto.
    + other.
    + rewrite lookup_insert_eq, lookup_delete_eq. eauto.
    + rewrite <-El. lia.
    + destruct (N.ltb_spec (peak (cells f)) (inflight (cells f) + 1)); lia.
  - rewrite Hlk, lookup_insert_eq. wp_steps.
    eapply (running_at k (Leasing i)); [apply lookup_insert_eq|].
    eapply running_move; [exact HI|..]; unfold moves; simpl; rewrite ?El, ?Et; auto; [other|].
    rewrite lookup_insert_eq. eauto.
  - rewrite Hlk, lookup_delete_eq. unfold note_lost. wp_steps.
    eapply (running_at k Returned); [apply lookup_insert_eq|].
    eapply running_move; [exact HI|..]; unfold moves; simpl; rewrite ?El, ?Et; auto; [other|..].
    + by rewrite lookup_delete_eq.
    + intros l <-. solve_Permutation.
    + by destruct (lost f).
    + right. by destruct (lost f).
Qed.

Lemma loop_top_spec k f :
  running k Unpolled f → fan_room f →
  wp (loop_top cfg total k) (λ _ f', fan_inv f'.(clients) f') f.
Proof.
  intros HI Hroom. destruct (running_placed _ _ _ HI) as [Htk Hlk]. unfold loop_top. wp_steps.
  pose proof HI as [Hs _ Hin Hpk Hn _ Hb _].
  destruct (N.leb_spec total (next (cells f))) as [Hge|Hlt].
  - unfold set_client. wp_steps. eapply (running_at k Returned); [apply lookup_insert_eq|].
    eapply running_move; [exact HI|..]; simpl; auto; [other|]. left. lia.
  - wp_step. eapply wp_lift; [apply add_u_small; lia|]. wp_steps.
    apply (wp_act cfg Hcfg); simpl; [done|done|by rewrite Htk, Hlk|].
    rewrite Htk, Hlk. intros s' [= <-] Hs'. apply poll_lease_spec; [|done].
    eapply running_move; [exact HI|..]; simpl; auto; [other| |lia|].
    + rewrite lookup_insert_eq. eauto.
    + intros l Hl. rewrite upto_succ, <-Hl. simpl. solve_Permutation.
Qed.

(** [f] with the count of bytes at [b]. *)
Definition with_bytes (b : N) f : fan :=
  set_cells (mkCells f.(cells).(next) b f.(cells).(inflight) f.(cells).(peak)) f.

Lemma end_round_spec k i ok c b f :
  running k c f → c = Writing i ∨ c = Reading i → fan_room f →
  b = size * len (replied (f.(completed) ++ [(i, ok)])) →
  wp (end_round cfg total k i ok) (λ _ f', fan_inv f'.(clients) f') (with_bytes b f).
Proof.
  intros HI Hc Hroom ->. pose proof HI as [Hs _ Hin Hpk Hn _ Hb _].
  assert (index_of c = [i] ∧ tasks (sys f) !! k = None ∧ is_Some (leases (sys f) !! k)) as (Hi & Htk & Hlk).
  { pose proof (running_placed _ _ _ HI) as Hp. by destruct Hc as [->| ->]. }
  assert (Hsz : base.size (leases (sys f)) = S (base.size (delete k (leases (sys f))))).
  { destruct Hlk as [p Hp]. pose proof (size_leases_delete (sys f) k p Hp). lia. }
  unfold end_round, note_completed. wp_steps. simpl.
  eapply wp_lift; [unfold sub_u; rewrite (proj2 (N.leb_le _ _)) by lia; done|]. wp_steps.
  destruct (drop_lease_effect cfg Hcfg _ _ Hs Hlk) as (s' & Hex & Et & El & Hnx).
  apply (wp_act cfg Hcfg); simpl; [done|done|destruct Hlk as [? Hlk]; by rewrite Hlk|].
  intros s1 Hex1 Hs1. simpl in Hex. rewrite Hex1 in Hex. simplify_eq.
  apply loop_top_spec; [|unfold fan_room in *; simpl; lia].
  eapply running_move; [exact HI|..]; unfold moves; simpl; rewrite ?El, ?Et; auto; try lia; [other|..].
  - by rewrite lookup_delete_eq.
  - intros l <-. rewrite Hi, fmap_app. simpl. solve_Permutation.
Qed.


(** Using the leased stream changes only the lease. *)
Lemma on_lease_spec {A} k c (op : stream → outcome (A * stream)) (P : A → Prop)
    (Q : A → fan → Prop) f :
  running k c f → (∃ i, c = Writing i ∨ c = Reading i) → fan_room f →
  (∀ up, wp op (λ a _, P a) up) →
  (∀ a f', P a → running k c f' → fan_room f' → f'.(cells) = f.(cells) →
     f'.(completed) = f.(completed) → Q a f') →
  wp (on_lease cfg k op) Q f.
Proof.
  intros HI Hc Hroom Hop HQ. pose proof HI as [Hs _ Hin Hpk Hn _ Hb Hst].
  assert (Hlk : tasks (sys f) !! k = None ∧ is_Some (leases (sys f) !! k)).
  { pose proof (running_placed _ _ _ HI) as Hp. by destruct Hc as [i [->| ->]]. }
  destruct Hlk as [Htk [p Hlk]]. destruct (lease_full cfg Hcfg _ _ _ Hs Hlk) as [conn ->].
  apply (wp_on_lease cfg Hcfg k conn); [done..|].
  eapply wp_mono; [apply Hop|]. intros a c' HP s' -> Hs'.
  apply HQ; try done. eapply running_move; [exact HI|..]; simpl; auto; [other|..].
  - destruct Hc as [i [->| ->]]; simpl; rewrite lookup_insert_eq; eauto.
  - rewrite Hin. by rewrite map_size_insert_Some by eauto.
  - intros l. by destruct Hc as [i [->| ->]].
Qed.

Lemma len_filter {A} (P : A → Prop) `{∀ x, Decision (P x)} (l : list A) : len (filter P l) ≤ len l.
Proof. unfold len. pose proof (length_filter P l). lia. Qed.

(** A client at work on an index has it still to complete. *)
Lemma in_hand k c i f :
  running k c f → index_of c = [i] → len (replied f.(completed)) + 1 ≤ total.
Proof.
  intros [_ _ _ _ Hn Hc _ _] Hi. rewrite held_insert, Hi in Hc.
  apply Permutation_length in Hc. simpl in Hc. rewrite !length_app, length_fmap in Hc.
  pose proof (len_upto (next (cells f))) as Hu. unfold len in Hu.
  pose proof (len_filter (λ x : N * bool, x.2 = true) (completed f)) as Hf.
  unfold replied. unfold len in *. lia.
Qed.

Lemma replied_snoc l i (ok : bool) :
  len (replied (l ++ [(i, ok)])) = len (replied l) + (if ok then 1 else 0).
Proof. unfold replied. rewrite filter_app, len_app. by destruct ok. Qed.

(** One poll of a client keeps the books and does not fail. *)
Lemma client_spec k f :
  fan_inv f.(clients) f → fan_room f →
  wp (client cfg total size k) (λ _ f', fan_inv f'.(clients) f') f.
Proof.
  intros HI Hroom. unfold client. wp_steps.
  destruct (clients f !! k) as [[|i|i|i|]|] eqn:Hk; try (by wp_steps);
    apply (running_at _ _ _ Hk) in HI.
  - by apply loop_top_spec.
  - by apply poll_lease_spec.
  - wp_step. eapply (on_lease_spec k (Writing i) _ (λ _, True)); [done|eauto|done|..].
    { intros up. unfold wp. by destruct (send _ up). }
    intros r f1 _ HI1 Hroom1 Hc Hd. pose proof HI1 as [Hs _ Hin Hpk Hn _ Hb _]. destruct r as [[]|e].
    + unfold set_client. wp_steps. eapply (running_at k (Reading i)); [apply lookup_insert_eq|].
      eapply running_move; [exact HI1|..]; simpl; auto; [other|].
      apply (running_placed _ _ _ HI1).
    + replace f1 with (with_bytes (bytes (cells f1)) f1) at 1 by (by destruct f1 as [? [] ???]).
      eapply end_round_spec; [done|by left|done|]. rewrite replied_snoc, N.add_0_r. done.
  - wp_step. eapply (on_lease_spec k (Reading i) _ (λ r, match r with Ok bs => len bs = size | Err _ => True end));
      [done|eauto|done|..].
    { intros up. wp_apply read_exact_spec as r s' (_ & _ & Hr). by destruct r as [bs|e]; [apply Hr|]. }
    intros r f1 Hr HI1 Hroom1 Hc Hd. pose proof HI1 as [Hs _ Hin Hpk Hn _ Hb _]. destruct r as [bs|e].
    + wp_steps. pose proof (in_hand k _ i f1 HI1 eq_refl) as Hlt.
      eapply wp_lift; [apply add_u_small; rewrite Hb, Hr; nia|]. wp_steps.
      change (set_cells _ f1) with (with_bytes (bytes (cells f1) + len bs) f1).
      eapply end_round_spec; [done|by right|done|]. rewrite replied_snoc, Hb, Hr. lia.
    + replace f1 with (with_bytes (bytes (cells f1)) f1) at 1 by (by destruct f1 as [? [] ???]).
      eapply end_round_spec; [done|by right|done|]. rewrite replied_snoc, N.add_0_r. done.
Qed.


(** Before the first poll. *)
Lemma init_unpolled n k c :
  (list_to_map ((λ k, (k, Unpolled)) <$> seq 0 n) : gmap nat client_state) !! k = Some c → c = Unpolled.
Proof. intros (j & [= <- <-] & _)%elem_of_list_to_map_2%list_elem_of_fmap. done. Qed.

Lemma fan_inv_init n b tk : let f := fan_init n b tk in fan_inv f.(clients) f.
Proof.
  pose proof (max_size_pos _ Hcfg) as Hmax.
  split; simpl; try (done || lia).
  - apply reach_init.
  - intros k. unfold placed. simpl. destruct (_ !! k) as [c|] eqn:Hk; [|done].
    by rewrite (init_unpolled _ _ _ Hk).
  - enough (held (list_to_map ((λ k, (k, Unpolled)) <$> seq 0 n)) = []) as ->; [done|].
    unfold held. generalize (λ k c, proj1 (elem_of_map_to_list
      (list_to_map ((λ k, (k, Unpolled)) <$> seq 0 n) : gmap nat client_state) k c)).
    induction (map_to_list _) as [|[k c] l IH]; intros Hall; [done|]. cbn [mbind list_bind].
    rewrite IH by (intros; apply Hall; by right).
    by rewrite (init_unpolled n k c) by (apply Hall; left).
  - by rewrite N.mul_0_r.
  - intros k Hk. by apply init_unpolled in Hk.
Qed.

Lemma fan_reachable_inv f : fan_reachable cfg total size f → fan_inv f.(clients) f.
Proof.
  induction 1 as [n c t|f k f' _ IH Hroom Hrun]; [apply fan_inv_init|].
  exact (wp_run _ _ _ _ _ (client_spec k f IH Hroom) Hrun).
Qed.

End clients.

(** ** The theorems *)

(** C20: backpressure.  However many clients there are and however they are scheduled, the
    in-flight count is exactly the number of upstreams leased out, its high-water mark is at
    least that, and neither ever passes [max_size]. *)
Theorem fanout_backpressure {T : Tcp} {TL : TcpLaws T} {F : Features} {R : Runtime}
    {RL : RuntimeLaws R} {M : ManageConnection stream io_error} cfg total size
    (f : Fan stream io_error) :
  config_ok cfg → total < U64 → size * total < U64 → fan_reachable cfg total size f →
  f.(cells).(inflight) = N.of_nat (base.size f.(sys).(leases)) ∧
  f.(cells).(inflight) ≤ f.(cells).(peak) ∧ f.(cells).(peak) ≤ cfg.(max_size).
Proof.
  intros Hcfg Ht Hb Hf. destruct (fan_reachable_inv cfg Hcfg total size Ht Hb f Hf). tauto.
Qed.

(** C21: every request once.  The indices in the hands of clients, those whose round trip was
    made and those lost to a failed [get] are together the indices claimed so far, each once,
    and never more than [total]; the bytes counted are [size] for each reply that came; and
    when every client has returned without a failed [get], every request was made. *)
Theorem fanout_each_once {T : Tcp} {TL : TcpLaws T} {F : Features} {R : Runtime}
    {RL : RuntimeLaws R} {M : ManageConnection stream io_error} cfg total size
    (f : Fan stream io_error) :
  config_ok cfg → total < U64 → size * total < U64 → fan_reachable cfg total size f →
  held f.(clients) ++ f.(completed).*1 ++ f.(lost) ≡ₚ upto f.(cells).(next) ∧
  f.(cells).(next) ≤ total ∧
  f.(cells).(bytes) = size * len (replied f.(completed)) ∧
  (f.(clients) ≠ ∅ → (∀ k c, f.(clients) !! k = Some c → c = Returned) → f.(lost) = [] →
   f.(completed).*1 ≡ₚ upto total).
Proof.
  intros Hcfg Ht Hb Hf.
  destruct (fan_reachable_inv cfg Hcfg total size Ht Hb f Hf) as [_ _ _ _ Hn Hc Hby Hst].
  split_and!; [done..|]. intros Hne Hall Hlost.
  destruct (map_choose _ Hne) as (k & c & Hk). rewrite (Hall k c Hk) in Hk.
  destruct (Hst k Hk) as [<-|]; [|done]. rewrite Hlost, app_nil_r in Hc.
  enough (held (clients f) = []) as Hh by (by rewrite Hh in Hc).
  unfold held. generalize (λ j c', proj1 (elem_of_map_to_list (clients f) j c')).
  induction (map_to_list (clients f)) as [|[j c'] l IH]; intros Hl; [done|]. cbn [mbind list_bind].
  rewrite IH by (intros; apply Hl; by right). by rewrite (Hall j c') by (apply Hl; left).
Qed.

(** No client fails.  Whatever the upstreams answer, polling a client in a reachable state
    neither panics nor overflows a counter nor finds a lease or a task missing. *)
Theorem fanout_never_fails {T : Tcp} {TL : TcpLaws T} {F : Features} {R : Runtime}
    {RL : RuntimeLaws R} {M : ManageConnection stream io_error} cfg total size
    (f : Fan stream io_error) k :
  config_ok cfg → total < U64 → size * total < U64 → fan_reachable cfg total size f → fan_room f →
  ∃ f', client cfg total size k f = Val (tt, f').
Proof.
  intros Hcfg Ht Hb Hf Hroom. pose proof (fan_reachable_inv cfg Hcfg total size Ht Hb f Hf) as HI.
  destruct (wp_val _ _ _ (client_spec cfg Hcfg total size Ht Hb k f HI Hroom)) as ([] & f' & ? & _).
  by exists f'.
Qed.

(** A client that has something to do: anything but a [get] parked in the queue whose waker
    has not run. *)
Definition can_go {T : Tcp} (f : Fan stream io_error) (k : nat) : bool :=
  match f.(clients) !! k with
  | Some (Unpolled | Writing _ | Reading _) => true
  | Some (Leasing _) => lease_can_go f.(sys) k
  | Some Returned | None => false
  end.

(** No deadlock.  While the pool is open and some client has not returned, some client
    has something to do. *)
Theorem fanout_no_deadlock {T : Tcp} {TL : TcpLaws T} {F : Features} {R : Runtime}
    {RL : RuntimeLaws R} {M : ManageConnection stream io_error} cfg total size
    (f : Fan stream io_error) k c :
  config_ok cfg → total < U64 → size * total < U64 → fan_reachable cfg total size f →
  f.(sys).(world).(closed) = false → f.(clients) !! k = Some c → c ≠ Returned →
  ∃ j, can_go f j = true.
Proof.
  intros Hcfg Ht Hb Hf Hc Hk Hnr.
  destruct (fan_reachable_inv cfg Hcfg total size Ht Hb f Hf) as [Hs Hp _ _ _ _ _ _].
  destruct (decide (map_Exists (λ j _, can_go f j = true) f.(clients))) as [(j & _ & _ & ?)|Hno];
    [by exists j|exfalso].
  apply map_not_Exists in Hno.
  assert (Hstuck : ∀ j c', clients f !! j = Some c' →
    (∃ i, c' = Leasing i) ∧ lease_can_go (sys f) j = false ∨ c' = Returned).
  { intros j c' Hj. specialize (Hno j c' Hj). simpl in Hno. unfold can_go in Hno. rewrite Hj in Hno.
    destruct c' as [|i|i|i|]; [done| |done..|by right]. left. split; [eauto|by apply not_true_is_false]. }
  destruct (not_all_waiting cfg (sys f)) as (j & t & Hj & Hgo); [done..| | |].
  - apply map_empty. intros j. specialize (Hp j). destruct (clients f !! j) as [c'|] eqn:Hj; [|apply Hp].
    destruct (Hstuck j c' Hj) as [[(i & ->) _]| ->]; apply Hp.
  - intros Hemp. destruct (Hstuck k c Hk) as [[(i & ->) _]|]; [|done].
    specialize (Hp k). rewrite Hk in Hp. destruct Hp as [[g Hg] _]. by rewrite Hemp in Hg.
  - specialize (Hp j). destruct (clients f !! j) as [c'|] eqn:Hcj; [|destruct Hp; congruence].
    destruct (Hstuck j c' Hcj) as [[_ ?]| ->]; [congruence|destruct Hp; congruence].
Qed.

(** ** A run

    Two clients share one upstream, and three requests of two bytes are to be made. *)

Section run.
Context {T : Tcp} {F : Features} {R : Runtime} {M : ManageConnection stream io_error}.
Context (cfg : PoolConfig) (total size : N).

(** Poll the clients of a list in turn; [None] when one fails or the ids have run out. *)
Fixpoint poll_clients (ks : list nat) (f : Fan stream io_error) : option (Fan stream io_error) :=
  match ks with
  | [] => Some f
  | k :: ks =>
      if f.(sys).(world).(waiters).(next_id) + 1 <? U64 then
        match client cfg total size k f with Val (_, f') => poll_clients ks f' | _ => None end
      else None
  end.

Lemma poll_clients_reachable ks f f' :
  fan_reachable cfg total size f → poll_clients ks f = Some f' → fan_reachable cfg total size f'.
Proof.
  revert f. induction ks as [|k ks IH]; intros f Hf; cbn [poll_clients]; [by intros [= <-]|].
  destruct (N.ltb_spec (next_id (waiters (world (sys f))) + 1) U64); [|done].
  destruct (client cfg total size k f) as [[[] f1]| |] eqn:Hc; try done.
  apply IH. by eapply fan_poll.
Qed.
End run.

#[local] Existing Instances demo_features plain_runtime script_tcp.

#[local] Instance six_bytes : ManageConnection stream io_error :=
  Upstreams (λ _, Ready (Ok (mkScript (replicate 6 120) [] [] []))).

Definition one_upstream : PoolConfig :=
  mkConfig 1 0 (from_secs 30) (Some (from_secs 600)) (Some (from_secs 1800)) false true.

Lemma one_upstream_ok : config_ok one_upstream.
Proof. by split. Qed.

Definition fan_demo : Fan stream io_error := fan_init 2 false 0.
(** Client 0 holds the upstream, client 1 is parked. *)
Definition fan_busy : Fan stream io_error :=
  default fan_demo (poll_clients one_upstream 3 2 [0; 1]%nat fan_demo).
(** Everything is done. *)
Definition fan_over : Fan stream io_error :=
  default fan_demo (poll_clients one_upstream 3 2 [0; 0; 1; 0; 1; 1; 1; 0; 0; 0; 0; 1; 1; 1]%nat fan_busy).

Lemma fan_busy_reachable : fan_reachable one_upstream 3 2 fan_busy.
Proof.
  apply (poll_clients_reachable one_upstream 3 2 [0; 1]%nat fan_demo); [apply fan_start|].
  vm_compute. reflexivity.
Qed.
Lemma fan_over_reachable : fan_reachable one_upstream 3 2 fan_over.
Proof.
  apply (poll_clients_reachable one_upstream 3 2 [0; 0; 1; 0; 1; 1; 1; 0; 0; 0; 0; 1; 1; 1]%nat fan_busy);
    [apply fan_busy_reachable|]. vm_compute. reflexivity.
Qed.

Lemma fanout_backpressure_witness :
  fan_busy.(cells) = mkCells 2 0 1 1 ∧
  fan_busy.(cells).(inflight) = N.of_nat (base.size fan_busy.(sys).(leases)) ∧
  fan_busy.(cells).(inflight) ≤ fan_busy.(cells).(peak) ∧
  fan_busy.(cells).(peak) ≤ one_upstream.(max_size).
Proof.
  pose proof (demo_runtime_laws None : RuntimeLaws plain_runtime). split; [vm_compute; reflexivity|].
  apply (fanout_backpressure one_upstream 3 2 fan_busy one_upstream_ok);
    [reflexivity..|apply fan_busy_reachable].
Defined.

Lemma fanout_each_once_witness :
  fan_over.(cells).(bytes) = 6 ∧ fan_over.(completed).*1 ≡ₚ upto 3.
Proof.
  pose proof (demo_runtime_laws None : RuntimeLaws plain_runtime). split; [vm_compute; reflexivity|].
  apply (fanout_each_once one_upstream 3 2 fan_over one_upstream_ok);
    [reflexivity|reflexivity|apply fan_over_reachable|vm_compute; discriminate| |vm_compute; reflexivity].
  intros k c Hk. assert (Hall : map_Forall (λ _ c, c = Returned) fan_over.(clients)).
  { apply map_Forall_to_list. vm_compute. repeat constructor. }
  exact (Hall k c Hk).
Defined.

Lemma fanout_never_fails_witness : ∃ f', client one_upstream 3 2 1 fan_busy = Val (tt, f').
Proof.
  pose proof (demo_runtime_laws None : RuntimeLaws plain_runtime).
  apply (fanout_never_fails one_upstream 3 2 fan_busy 1 one_upstream_ok);
    [reflexivity|reflexivity|apply fan_busy_reachable|vm_compute; reflexivity].
Defined.

Lemma fanout_no_deadlock_witness :
  can_go fan_busy 1 = false ∧ ∃ j, can_go fan_busy j = true.
Proof.
  pose proof (demo_runtime_laws None : RuntimeLaws plain_runtime). split; [vm_compute; reflexivity|].
  apply (fanout_no_deadlock one_upstream 3 2 fan_busy 1 (Leasing 1) one_upstream_ok);
    [reflexivity|reflexivity|apply fan_busy_reachable|vm_compute; reflexivity|vm_compute; reflexivity|discriminate].
Defined.
