(* ===== verification/Reader.v ===== *)
(** [BufReader], std's and tokio's, as far as the line-based programs use it: [read_until],
    [read_line] and [read_exact] over the unread part of an 8 KiB buffer and the stream behind it. *)

From S2P Require Import Prelude Text.

(** The buffer a reader is made with. *)
Definition DEFAULT_BUF_SIZE : N := 8 * 1024.

Section reader.
Context `{Tcp}.

Record BufReader := mkReader { unread : list N; inner : stream }.
Definition reader_new (s : stream) : BufReader := mkReader [] s.

(** Read into the empty buffer. *)
Definition fill_buf : St BufReader (result unit io_error) := λ r,
  match r.(unread) with
  | [] =>
      let '(a, s) := recv DEFAULT_BUF_SIZE r.(inner) in
      match a with
      | Ok bs => Val (Ok tt, mkReader bs s)
      | Err e => Val (Err e, mkReader [] s)
      end
  | _ => Val (Ok tt, r)
  end.

(** Where a byte first is. *)
Definition find_byte (d : N) (l : list N) : option nat := fst <$> list_find (λ c, c = d) l.

(** Up to and with the delimiter, or to the end of the stream; [acc] is what is read already. *)
Fixpoint read_until (fuel : nat) (d : N) (acc : list N) : St BufReader (result (list N) io_error) :=
  match fuel with
  | O => no_fuel
  | S fuel =>
      a ← fill_buf;
      match a with
      | Err e => mret (Err e)
      | Ok _ =>
          got ← gets unread;
          match got with
          | [] => mret (Ok acc)
          | _ =>
              match find_byte d got with
              | Some i =>
                  modify (λ r, mkReader (drop (S i) got) r.(inner));;
                  mret (Ok (acc ++ take (S i) got))
              | None =>
                  modify (λ r, mkReader [] r.(inner));;
                  read_until fuel d (acc ++ got)
              end
          end
      end
  end.

(** [read_line] into a cleared string: the characters read, none at the end of the stream. *)
Definition read_line (fuel : nat) : St BufReader (result (list N) io_error) :=
  a ← read_until fuel 10 [];
  match a with
  | Err e => mret (Err e)
  | Ok bs =>
      match from_utf8 bs with
      | Some text => mret (Ok text)
      | None => mret (Err (mkIoError InvalidData "stream did not contain valid UTF-8"))
      end
  end.

(** One [read] of at most [room] bytes: past the buffer when that is empty and no larger. *)
Definition recv_past (room : N) : St BufReader (result (list N) io_error) := λ r,
  let '(a, s) := recv room r.(inner) in Val (a, mkReader [] s).
Definition consume (room : N) : St BufReader (list N) := λ r,
  Val (take (N.to_nat room) r.(unread), mkReader (drop (N.to_nat room) r.(unread)) r.(inner)).
Definition read_buffered (room : N) : St BufReader (result (list N) io_error) :=
  got ← gets unread;
  if bool_decide (got = []) && (DEFAULT_BUF_SIZE <=? room) then recv_past room
  else
    a ← fill_buf;
    match a with
    | Err e => mret (Err e)
    | Ok _ => bs ← consume room; mret (Ok bs)
    end.

Fixpoint read_exact_loop (fuel : nat) (n : N) (acc : list N) : St BufReader (result (list N) io_error) :=
  match fuel with
  | O => no_fuel
  | S fuel =>
      if len acc <? n then
        a ← read_buffered (n - len acc);
        match a with
        | Err e => mret (Err e)
        | Ok [] => mret (Err (mkIoError UnexpectedEof "failed to fill whole buffer"))
        | Ok bs => read_exact_loop fuel n (acc ++ bs)
        end
      else mret (Ok acc)
  end.
Definition reader_read_exact (n : N) : St BufReader (result (list N) io_error) :=
  read_exact_loop (S (N.to_nat n)) n [].
End reader.

(** ** Lemmas *)

Lemma find_byte_Some d l i :
  find_byte d l = Some i → ∃ a b, l = a ++ d :: b ∧ d ∉ a ∧ length a = i.
Proof.
  unfold find_byte. intros ([j x] & (Hx & -> & Hno)%list_find_Some & ->)%fmap_Some. simpl.
  exists (take j l), (drop (S j) l). split_and!.
  - symmetry. by apply take_drop_middle.
  - intros Hin. apply list_elem_of_lookup in Hin as [k Hk].
    apply lookup_take_Some in Hk as [Hk Hlt]. by apply (Hno k d).
  - rewrite length_take. apply lookup_lt_Some in Hx. lia.
Qed.

Lemma find_byte_None d l : find_byte d l = None → d ∉ l.
Proof.
  unfold find_byte. intros Hn%fmap_None%list_find_None. intros Hin.
  by apply (proj1 (Forall_forall _ _) Hn d).
Qed.

Lemma take_none {A} n (l : list A) : (0 < n)%nat → take n l = [] → l = [].
Proof. destruct n, l; simpl; try done; lia. Qed.

Section reader.
Context {T : Tcp} {TL : TcpLaws T}.
Implicit Types r : BufReader.

(** All the reader will still deliver. *)
Definition pending r : list N := r.(unread) ++ incoming r.(inner).
(** Its stream is steady and what was written to it is what it was. *)
Definition same_sink r r' : Prop :=
  outgoing r'.(inner) = outgoing r.(inner) ∧ (steady r.(inner) → steady r'.(inner)).

Lemma same_sink_refl r : same_sink r r.
Proof. done. Qed.
Lemma same_sink_trans r r1 r2 : same_sink r r1 → same_sink r1 r2 → same_sink r r2.
Proof. intros [? ?] [? ?]. split; [congruence|auto]. Qed.

Lemma fill_buf_spec r :
  wp fill_buf (λ a r', same_sink r r' ∧
    match a with
    | Ok _ => pending r' = pending r ∧ (r'.(unread) = [] → pending r = [])
    | Err _ => ¬ steady r.(inner)
    end) r.
Proof.
  unfold wp, fill_buf, pending. destruct r as [[|c u] s]; simpl; [|done].
  destruct (recv _ s) as [a s'] eqn:Hr. pose proof (recv_keeps _ _ _ _ Hr) as Hk.
  assert (Hs : same_sink (mkReader [] s) (mkReader (match a with Ok bs => bs | _ => [] end) s')).
  { split; [done|]. intros Hst. eapply recv_steady; eauto. }
  destruct a as [bs|e]; simpl; split; try done.
  - destruct (recv_takes _ _ _ _ Hr) as [-> _]. split; [done|]. intros ->. simpl.
    pose proof (recv_eof _ _ _ Hr ltac:(done)) as He. destruct (recv_takes _ _ _ _ Hr) as [Hi _].
    simpl in Hi. congruence.
  - intros Hst. destruct (recv_steady _ _ _ _ Hr Hst) as [_ [? [=]]].
Qed.

(** A line of a byte string: it ends with the only delimiter in it, or the string ends with it
    and has none. *)
Definition line_of (d : N) (line rest : list N) : Prop :=
  (∃ l, line = l ++ [d] ∧ d ∉ l) ∨ (d ∉ line ∧ rest = []).

Lemma read_until_spec fuel d acc r :
  (N.to_nat (len (pending r)) < fuel)%nat →
  wp (read_until fuel d acc) (λ a r', same_sink r r' ∧
    match a with
    | Ok got => ∃ line, got = acc ++ line ∧ pending r = line ++ pending r' ∧ line_of d line (pending r')
    | Err _ => ¬ steady r.(inner)
    end) r.
Proof.
  revert acc r. induction fuel as [|fuel IH]; intros acc r Hf; [lia|]. cbn [read_until].
  wp_step. wp_apply fill_buf_spec as a r1 [Hs1 Ha]. destruct a as [[]|e]; [|by wp_steps].
  destruct Ha as [Hp He]. wp_steps. destruct (unread r1) as [|c u] eqn:Hu.
  - wp_steps. split; [done|]. exists []. rewrite app_nil_r. split_and!; [done| |].
    + by rewrite Hp.
    + right. rewrite Hp, He by done. by split; [apply not_elem_of_nil|].
  - rewrite <-Hu. destruct (find_byte d (unread r1)) as [i|] eqn:Hfind.
    + destruct (find_byte_Some _ _ _ Hfind) as (a & b & Heq & Hd & <-). wp_steps.
      assert (Hsplit : take (S (length a)) (unread r1) = a ++ [d] ∧ drop (S (length a)) (unread r1) = b).
      { rewrite Heq. rewrite (cons_middle d a b), app_assoc.
        split; [apply take_app_length'|apply drop_app_length']; rewrite length_app; simpl; lia. }
      destruct Hsplit as [-> ->]. split; [done|]. exists (a ++ [d]). split_and!; [done| |left; eauto].
      rewrite <-Hp. unfold pending. simpl. rewrite Heq. by rewrite <-!app_assoc.
    + apply find_byte_None in Hfind. wp_steps.
      assert (Hlt : (N.to_nat (len (pending (mkReader [] (inner r1)))) < fuel)%nat).
      { rewrite <-Hp in Hf. unfold pending, len in *. simpl. rewrite Hu, length_app in Hf. simpl in Hf. lia. }
      eapply wp_mono; [apply (IH _ _ Hlt)|]. intros a r2 [Hs2 Ha]. split.
      { eapply same_sink_trans; [exact Hs1|exact Hs2]. }
      destruct a as [got|e].
      * destruct Ha as (line & -> & Hp2 & Hl). exists (unread r1 ++ line). rewrite app_assoc.
        split_and!; [done| |].
        { rewrite <-Hp. unfold pending at 1. simpl in Hp2. unfold pending at 1 in Hp2. simpl in Hp2.
          by rewrite Hp2, app_assoc. }
        destruct Hl as [(l & -> & Hl)|[Hl ->]]; [left|right; set_solver].
        exists (unread r1 ++ l). rewrite app_assoc. split; [done|set_solver].
      * simpl in Ha. intros Hst. by apply Ha, Hs1.
Qed.

Lemma reader_line_spec fuel r :
  (N.to_nat (len (pending r)) < fuel)%nat →
  wp (read_line fuel) (λ a r', same_sink r r' ∧
    match a with
    | Ok text => ∃ line, from_utf8 line = Some text ∧ pending r = line ++ pending r' ∧
                         line_of 10 line (pending r')
    | Err _ => steady r.(inner) → ∃ line, from_utf8 line = None ∧ pending r = line ++ pending r' ∧
                         line_of 10 line (pending r')
    end) r.
Proof.
  intros Hf. unfold read_line. wp_step. wp_apply read_until_spec as a r1 [Hs Ha]; [done|].
  destruct a as [bs|e].
  - destruct Ha as (line & -> & Hp & Hl). simpl. destruct (from_utf8 line) as [text|] eqn:Hu; wp_steps;
      eauto 10.
  - wp_steps. split; [done|]. by intros ?%Ha.
Qed.

Lemma read_buffered_spec room r :
  0 < room →
  wp (read_buffered room) (λ a r', same_sink r r' ∧
    match a with
    | Ok bs => pending r = bs ++ pending r' ∧ len bs ≤ room ∧ (bs = [] → pending r = [])
    | Err _ => ¬ steady r.(inner)
    end) r.
Proof.
  intros Hroom. unfold read_buffered. wp_step. apply wp_gets.
  destruct (bool_decide_reflect (unread r = [])) as [Hu|Hu]; simpl;
    [destruct (N.leb_spec DEFAULT_BUF_SIZE room) as [Hbig|_]; simpl|].
  { unfold wp, recv_past. destruct (recv room (inner r)) as [a s'] eqn:Hr.
    pose proof (recv_keeps _ _ _ _ Hr) as Hk. split.
    { split; [done|]. intros Hst. by apply (recv_steady _ _ _ _ Hr Hst). }
    unfold pending. rewrite Hu. simpl. destruct a as [bs|e].
    - destruct (recv_takes _ _ _ _ Hr) as [Hi Hl]. split_and!; [done..|]. intros ->.
      by apply (recv_eof _ _ _ Hr).
    - intros Hst. by destruct (recv_steady _ _ _ _ Hr Hst) as [_ [? [=]]]. }
  all: wp_step; wp_apply fill_buf_spec as a r1 [Hs Ha]; destruct a as [[]|e]; [|by wp_steps].
  all: destruct Ha as [Hp He]; wp_step; unfold wp, consume; simpl; split; [done|]; rewrite <-Hp; unfold pending; simpl.
  all: rewrite app_assoc, take_drop; split_and!; [done|unfold len; rewrite length_take; lia|].
  all: intros Htk; assert (unread r1 = []) as H0 by (by apply (take_none (N.to_nat room)); [lia|]).
  all: specialize (He H0); unfold pending in Hp; by rewrite Hp.
Qed.

Lemma reader_read_exact_spec n r :
  wp (reader_read_exact n) (λ a r', same_sink r r' ∧
    match a with
    | Ok bs => len bs = n ∧ pending r = bs ++ pending r'
    | Err _ => steady r.(inner) → len (pending r) < n
    end) r.
Proof.
  unfold reader_read_exact.
  enough (Hloop : ∀ fuel acc r, (N.to_nat (n - len acc) < fuel)%nat → len acc ≤ n →
    wp (read_exact_loop fuel n acc) (λ a r', same_sink r r' ∧
      match a with
      | Ok bs => ∃ more, bs = acc ++ more ∧ len bs = n ∧ pending r = more ++ pending r'
      | Err _ => steady r.(inner) → len acc + len (pending r) < n
      end) r).
  { eapply wp_mono; [apply Hloop; rewrite len_nil; lia|]. intros a r' [Hs Ha]. split; [done|].
    destruct a as [bs|e]; [|rewrite len_nil in Ha; intros Hst; specialize (Ha Hst); lia].
    by destruct Ha as (more & -> & ? & ?). }
  clear r. induction fuel as [|fuel IH]; intros acc r Hf Hle; [lia|]. cbn [read_exact_loop].
  destruct (N.ltb_spec (len acc) n) as [Hlt|Hge].
  2: { wp_steps. split; [done|]. exists []. rewrite app_nil_r. split_and!; [done|lia|done]. }
  wp_step. wp_apply read_buffered_spec as a r1 [Hs Ha]; [lia|]. destruct a as [[|b bs]|e].
  - wp_steps. split; [done|]. intros _. destruct Ha as (_ & _ & Ha).
    rewrite Ha by done. rewrite len_nil. lia.
  - destruct Ha as (Hp & Hl & _). set (got := b :: bs) in *.
    assert (0 < len got) by (unfold got; rewrite len_cons; lia).
    eapply wp_mono; [apply IH; rewrite len_app; lia|]. intros a r2 [Hs2 Ha]. split.
    { by eapply same_sink_trans. }
    destruct a as [all|e].
    + destruct Ha as (more & -> & Hn & Hp2). exists (got ++ more). rewrite Hp, Hp2, !app_assoc. done.
    + intros Hst. specialize (Ha (proj2 Hs Hst)). rewrite Hp, !len_app in *. lia.
  - wp_steps. split; [done|]. by intros ?%Ha.
Qed.
End reader.
