(* ===== verification/Echo.v ===== *)
(** The echo servers: [src/examples/echo.rs], its single-threaded counterpart
    [src/examples/task_echo.rs], the Unix-socket one [src/examples/unix_echo.rs], the datagram one
    [src/examples/udp_echo.rs], and the in-process backend of
    [src/examples/fanout_requests.rs].  Each connection (or datagram) borrows a pooled buffer by
    [mem::take] and gives it back. *)

From S2P Require Import Prelude Manage Text.

(** ** The buffers *)

(** [Buffers] of a given size: never invalid, never broken. *)
Definition BuffersOf (size : N) : ManageConnection Vec io_error := {|
  connect _ := Ready (Ok (with_capacity size));
  is_valid _ buf := (Ready (Ok tt), buf);
  has_broken _ buf := (false, buf)
|}.

(** 16 KiB for a stream, 64 KiB for any datagram. *)
Definition echo_buffers : ManageConnection Vec io_error := BuffersOf (16 * 1024).
Definition task_echo_buffers : ManageConnection Vec io_error := BuffersOf (16 * 1024).
Definition unix_echo_buffers : ManageConnection Vec io_error := BuffersOf (16 * 1024).
Definition udp_echo_buffers : ManageConnection Vec io_error := BuffersOf (64 * 1024).

(** ** A connection

    The client's stream and the value behind the lease. *)

Section echo.
Context `{Tcp}.

Record Conversation := mkConversation { peer : stream; leased : Vec }.

(** [mem::take(&mut *lease)] leaves an empty [Vec], which has no room. *)
Definition take_lease : St Conversation Vec := λ s,
  Val (s.(leased), mkConversation s.(peer) (with_capacity 0)).
(** [*lease = buf]. *)
Definition give_back (buf : Vec) : St Conversation unit :=
  modify (λ s, mkConversation s.(peer) buf).

Definition read_peer (buf : Vec) : St Conversation (result N io_error * Vec) := λ s,
  let '(r, buf, p) := read_into buf s.(peer) in Val ((r, buf), mkConversation p s.(leased)).
Definition write_peer (bs : list N) : St Conversation (result unit io_error) := λ s,
  let '(r, p) := send bs s.(peer) in Val (r, mkConversation p s.(leased)).

(** The loop of [serve]. *)
Fixpoint echo_loop (fuel : nat) : St Conversation unit :=
  match fuel with
  | O => no_fuel
  | S fuel =>
      buf ← take_lease;
      r ← read_peer (vec_clear buf);
      let '(read, buf) := r in
      match read with
      | Err _ => give_back buf
      | Ok n =>
          if n =? 0 then give_back buf
          else
            written ← write_peer buf.(contents);
            give_back buf;;
            match written with
            | Err _ => skip
            | Ok _ => echo_loop fuel
            end
      end
  end.

(** [serve], [lease] being what [local.get()] answers: the buffer it gives back. *)
Definition serve (fuel : nat) (lease : option Vec) (client : stream) : outcome (option Vec * stream) :=
  match lease with
  | None => Val (None, client)
  | Some buf =>
      match echo_loop fuel (mkConversation client buf) with
      | Val (_, s) => Val (Some s.(leased), s.(peer))
      | Panic => Panic
      | NoFuel => NoFuel
      end
  end.

(** [backend_loop]'s connections: the same on a buffer of their own. *)
Fixpoint backend_conn (fuel : nat) (buf : Vec) : St stream unit :=
  match fuel with
  | O => no_fuel
  | S fuel =>
      r ← (λ s, let '(read, b, s') := read_into (vec_clear buf) s in Val ((read, b), s'));
      let '(read, buf) := r in
      match read with
      | Err _ => skip
      | Ok n =>
          if n =? 0 then skip
          else
            written ← (λ s, let '(w, s') := send buf.(contents) s in Val (w, s'));
            match written with
            | Err _ => skip
            | Ok _ => backend_conn fuel buf
            end
      end
  end.
End echo.

(** The same loop in the other servers. *)
Definition task_serve `{Tcp} := serve.
Definition unix_serve `{Tcp} := serve.

(** ** Datagrams *)

Class Udp := {
  socket : Type;
  address : Type;
  (** A datagram into [room] bytes, and who sent it. *)
  recv_from : N → socket → result (list N * address) io_error * socket;
  send_to : list N → address → socket → result N io_error * socket
}.

Section udp.
Context `{Udp}.

(** The socket, the datagrams taken from it and those handed back to it. *)
Record UdpWorker := mkUdp {
  sock : socket;
  taken : list (list N * address);
  returned : list (list N * address)
}.

(** One round of [worker]'s loop with a leased buffer: the buffer it gives back.  The answer of
    [send_to] is ignored. *)
Definition datagram (lease : Vec) : St UdpWorker Vec := λ w,
  let '(res, s) := recv_from lease.(capacity) w.(sock) in
  match res with
  | Err _ => Val (vec_clear lease, mkUdp s w.(taken) w.(returned))
  | Ok (bs, peer) =>
      let '(_, s) := send_to bs peer s in
      Val (mkVec bs lease.(capacity), mkUdp s (w.(taken) ++ [(bs, peer)]) (w.(returned) ++ [(bs, peer)]))
  end.

(** The loop never ends; this is as many rounds of it as leases are asked for, the answers of
    [local.get()] given. *)
Fixpoint worker (leases : list (option Vec)) : St UdpWorker (list Vec) :=
  match leases with
  | [] => mret []
  | None :: leases => worker leases
  | Some lease :: leases =>
      buf ← datagram lease;
      bufs ← worker leases;
      mret (buf :: bufs)
  end.
End udp.

(** ** Lemmas *)

Section echo_spec.
Context {T : Tcp} {TL : TcpLaws T}.

(** How a conversation from [p] to [p'] ends, [echoed] being what was read and written back:
    the peer closed or a read failed, or the write of the next bytes did. *)
Definition echo_end (p p' : stream) (echoed : list N) : Prop :=
  (∃ more, incoming p = echoed ++ more ∧ outgoing p' = outgoing p ++ echoed ∧
     (steady p → more = [])) ∨
  (∃ bs more p1 e, bs ≠ [] ∧ incoming p = echoed ++ bs ++ more ∧
     outgoing p1 = outgoing p ++ echoed ∧ send bs p1 = (Err e, p')).

Lemma echo_end_stop p p1 (r : result N io_error) :
  outgoing p1 = outgoing p → (steady p → steady p1 ∧ ∃ n, r = Ok n) →
  (r = Ok 0 → incoming p = []) → (∀ n, r = Ok n → n = 0) → echo_end p p1 [].
Proof.
  intros Ho Hst He H0. left. exists (incoming p). rewrite app_nil_r. split_and!; [done..|].
  intros Hs. destruct (proj2 (Hst Hs)) as [n ->]. apply He. by rewrite (H0 n).
Qed.

Lemma echo_end_step p p1 p2 p' bs echoed :
  incoming p = bs ++ incoming p1 → outgoing p1 = outgoing p → (steady p → steady p2) →
  send bs p1 = (Ok tt, p2) → echo_end p2 p' echoed → echo_end p p' (bs ++ echoed).
Proof.
  intros Hi Ho Hst Hs Hend. pose proof (send_writes _ _ _ Hs) as Hw.
  destruct (send_reads _ _ _ _ Hs) as [Hr _].
  destruct Hend as [(more & Hm & Ho' & Hend)|(b & more & p3 & e & Hne & Hm & Ho' & Hs')].
  - left. exists more. rewrite Hi, <-Hr, Hm, Ho', Hw, Ho, <-!app_assoc. split_and!; auto.
  - right. exists b, more, p3, e. rewrite Hi, <-Hr, Hm, Ho', Hw, Ho, <-!app_assoc. done.
Qed.

(** One round on a buffer with room: it ends the conversation, or it leaves less to come and
    the rest of the conversation carries on from it. *)
Lemma echo_round v p r b p1 :
  read_into (vec_clear v) p = (r, b, p1) → 0 < v.(capacity) →
  b.(capacity) = v.(capacity) ∧
  match r with
  | Err _ => echo_end p p1 []
  | Ok n =>
      (n = 0 → echo_end p p1 []) ∧
      (n ≠ 0 → ∀ w p2, send b.(contents) p1 = (w, p2) →
         match w with
         | Err _ => echo_end p p2 []
         | Ok _ => len (incoming p2) < len (incoming p) ∧
             ∀ p' echoed, echo_end p2 p' echoed → echo_end p p' (b.(contents) ++ echoed)
         end)
  end.
Proof.
  intros Hr Hc. destruct (read_into_spec _ _ _ _ _ Hr) as (Hcap & Ho & Hst & Hm). simpl in *.
  split; [done|]. destruct r as [n|e]; [|by apply (echo_end_stop _ _ (Err e))].
  destruct Hm as (bs & -> & Hb & Hi & _ & He). simpl in Hb. rewrite Hb, len_nil in *.
  split.
  - intros H0. assert (bs = []) as -> by (destruct bs; [done|rewrite len_cons in H0; lia]).
    apply (echo_end_stop _ _ (Ok 0)); auto. by intros ? [= <-].
  - intros Hn w p2 Hs. assert (bs ≠ []) by (by intros ->).
    destruct (send_reads _ _ _ _ Hs) as [Hi2 Hst2]. destruct w as [[]|e].
    + split; [rewrite Hi2, Hi, len_app; lia|]. intros p' echoed Hend.
      eapply echo_end_step; [done..| |done|done]. intros [? _]%Hst. by apply Hst2.
    + right. exists bs, (incoming p1), p1, e. by rewrite app_nil_r.
Qed.

Lemma echo_loop_spec fuel s :
  0 < s.(leased).(capacity) → (N.to_nat (len (incoming s.(peer))) < fuel)%nat →
  wp (echo_loop fuel) (λ _ s', s'.(leased).(capacity) = s.(leased).(capacity) ∧
    ∃ echoed, echo_end s.(peer) s'.(peer) echoed) s.
Proof.
  revert s. induction fuel as [|fuel IH]; intros [p v] Hc Hf; [lia|]. cbn [echo_loop leased peer] in *.
  wp_step. unfold wp at 1, take_lease. cbn [leased peer].
  wp_step. unfold wp at 1, read_peer. cbn [leased peer].
  destruct (read_into (vec_clear v) p) as [[r b] p1] eqn:Hr.
  destruct (echo_round _ _ _ _ _ Hr Hc) as [Hcap Hm]. unfold give_back.
  destruct r as [n|e]; [|wp_steps; eauto]. destruct Hm as [H0 Hn].
  destruct (N.eqb_spec n 0) as [->|Hne]; [wp_steps; simpl; eauto|].
  wp_step. unfold wp at 1, write_peer. cbn [leased peer].
  destruct (send b.(contents) p1) as [w p2] eqn:Hs. specialize (Hn Hne _ _ eq_refl).
  wp_steps. cbn [leased peer]. destruct w as [[]|e]; [|wp_steps; simpl; eauto].
  destruct Hn as [Hlt Hend].
  eapply wp_mono; [apply IH; cbn [leased peer]; [lia|lia]|].
  cbn [leased peer]. intros [] s' (Hc' & echoed & He). split; [congruence|eauto].
Qed.

Lemma backend_conn_spec fuel buf p :
  0 < buf.(capacity) → (N.to_nat (len (incoming p)) < fuel)%nat →
  wp (backend_conn fuel buf) (λ _ p', ∃ echoed, echo_end p p' echoed) p.
Proof.
  revert buf p. induction fuel as [|fuel IH]; intros v p Hc Hf; [lia|]. cbn [backend_conn].
  wp_step. unfold wp at 1.
  destruct (read_into (vec_clear v) p) as [[r b] p1] eqn:Hr.
  destruct (echo_round _ _ _ _ _ Hr Hc) as [Hcap Hm].
  destruct r as [n|e]; [|wp_steps; eauto]. destruct Hm as [H0 Hn].
  destruct (N.eqb_spec n 0) as [->|Hne]; [wp_steps; eauto|].
  wp_step. unfold wp at 1. destruct (send b.(contents) p1) as [w p2] eqn:Hs.
  specialize (Hn Hne _ _ eq_refl). destruct w as [[]|e]; [|wp_steps; eauto].
  destruct Hn as [Hlt Hend]. eapply wp_mono; [apply IH; lia|].
  intros [] p' (echoed & He). eauto.
Qed.
End echo_spec.

(** The echo server.  A connection served from a buffer with room gets back exactly the
    bytes it sent, in order, up to the point where the conversation ends: because it closed,
    because a read failed, or because the write of the next bytes did.  The loop ends, and the
    buffer goes back to the pool with the room it had, whichever way it ended. *)
Theorem echo_exact {T : Tcp} {TL : TcpLaws T} fuel buf (p : stream) :
  0 < buf.(capacity) → (N.to_nat (len (incoming p)) < fuel)%nat →
  ∃ buf' p' echoed, serve fuel (Some buf) p = Val (Some buf', p') ∧
    buf'.(capacity) = buf.(capacity) ∧ echo_end p p' echoed.
Proof.
  intros Hc Hf. destruct (wp_val _ _ _ (echo_loop_spec fuel (mkConversation p buf) Hc Hf))
    as ([] & [p' buf'] & Hrun & Hcap & echoed & Hend).
  unfold serve. rewrite Hrun. by exists buf', p', echoed.
Qed.

#[local] Existing Instance script_tcp.

Definition echo_client : stream (Tcp:=script_tcp) := mkScript [104; 105; 33] [Ok 1] [] [].

Lemma echo_exact_witness :
  serve 4 (Some (with_capacity 2)) echo_client =
    Val (Some (mkVec [] 2), mkScript [] [] [] [104; 105; 33]) ∧
  ∃ buf' p' echoed, serve 4 (Some (with_capacity 2)) echo_client = Val (Some buf', p') ∧
    buf'.(capacity) = 2 ∧ echo_end echo_client p' echoed.
Proof.
  split; [vm_compute; reflexivity|].
  apply (echo_exact 4 (with_capacity 2) echo_client).
  - reflexivity.
  - apply Nat.ltb_lt. vm_compute. reflexivity.
Defined.

(** Every datagram taken is handed back to its sender, once and in order, whatever becomes of
    the answer; every buffer goes back with the room it had. *)
Theorem datagrams_echoed {U : Udp} leases (w : UdpWorker) :
  wp (worker leases) (λ bufs w', capacity <$> bufs = capacity <$> omap id leases ∧
    ∃ new, w'.(taken) = w.(taken) ++ new ∧ w'.(returned) = w.(returned) ++ new) w.
Proof.
  revert w. induction leases as [|[lease|] leases IH]; intros w; cbn [worker].
  - wp_steps. split; [done|]. exists []. by rewrite !app_nil_r.
  - wp_step. unfold wp at 1, datagram. destruct (recv_from _ _) as [[[bs who]|e] s].
    + destruct (send_to bs who s) as [r s']. wp_step.
      eapply wp_mono; [apply IH|]. intros bufs w' (Hc & new & Ht & Hr). wp_steps. cbn in *.
      split; [by f_equal|]. exists ((bs, who) :: new). by rewrite Ht, Hr, <-!app_assoc.
    + wp_step. eapply wp_mono; [apply IH|]. intros bufs w' (Hc & new & Ht & Hr). wp_steps. cbn in *.
      split; [by f_equal|]. by exists new.
  - eapply wp_mono; [apply IH|]. intros bufs w' (Hc & Hw). by split.
Qed.
