(* ===== verification/Baseline.v ===== *)
(** The connection handlers of the tokio servers under [src/crates/deadpool-baseline/examples]:
    [echo.rs], [echo_tpc.rs], [churn.rs], [relay.rs], [fanout.rs] and [wal.rs], with the managers
    of their pools.  The answer of the pool's [get] is given; [file_server.rs] and
    [redis_proxy.rs] have files of their own. *)

From S2P Require Import Prelude Manage Text Echo.

(** ** Buffers

    Here a buffer is a slice of fixed length that is read into from the front; what lies behind
    the bytes just read is what it held before. *)

(** [Vec::resize] with zeros. *)
Definition resize (n : N) (v : list N) : list N :=
  take (N.to_nat n) v ++ replicate (N.to_nat n - length v) 0.
Definition zeros (n : N) : list N := replicate (N.to_nat n) 0.
(** [&buf[..n]]. *)
Definition up_to (n : N) (buf : list N) : list N := take (N.to_nat n) buf.

(** [read(&mut buf[..])]. *)
Definition read_slice `{Tcp} (buf : list N) (s : stream) : result N io_error * list N * stream :=
  let '(r, s') := recv (len buf) s in
  match r with
  | Ok bs => (Ok (len bs), bs ++ drop (length bs) buf, s')
  | Err e => (Err e, buf, s')
  end.

(** deadpool's [Manager]: [create], its [t]-th outcome given, and [recycle]. *)
Record Manager (T : Type) := mkManager {
  create : nat → result T io_error;
  recycle : T → result unit io_error * T
}.
Arguments mkManager {_} _ _.
Arguments create {_} _ _.
Arguments recycle {_} _ _.

Definition KIB16 : N := 16 * 1024.
Definition refit (n : N) (v : list N) : list N := if len v =? n then v else resize n v.

(** ** [echo.rs] *)

Definition BufManager : Manager (list N) := mkManager (λ _, Ok []) (λ _, (Ok tt, [])).

(** [i64] atomics wrap. *)
Definition wrap_i64 (z : Z) : Z := ((z + 2 ^ 63) mod 2 ^ 64 - 2 ^ 63)%Z.
Record Stats := mkStats { active : Z; accepted : N; completed : N; errors : N }.
Definition add_active (d : Z) (st : Stats) : Stats :=
  mkStats (wrap_i64 (st.(active) + d)%Z) st.(accepted) st.(completed) st.(errors).
Definition count_completed (st : Stats) : Stats :=
  mkStats st.(active) st.(accepted) (fetch_add64 st.(completed) 1) st.(errors).
Definition count_error (st : Stats) : Stats :=
  mkStats st.(active) st.(accepted) st.(completed) (fetch_add64 st.(errors) 1).
(** What the accept loop does to them, the accept having gone well or not. *)
Definition count_accept (ok : bool) (st : Stats) : Stats :=
  if ok then mkStats st.(active) (fetch_add64 st.(accepted) 1) st.(completed) st.(errors) else count_error st.

Section echo.
Context `{Tcp}.

(** A stream and a buffer. *)
Record Line := mkLine { line_peer : stream; line_buf : list N }.

Definition line_read : St Line (result N io_error) := λ s,
  let '(r, buf, p) := read_slice s.(line_buf) s.(line_peer) in Val (r, mkLine p buf).
Definition line_write (n : N) : St Line (result unit io_error) := λ s,
  let '(r, p) := send (up_to n s.(line_buf)) s.(line_peer) in Val (r, mkLine p s.(line_buf)).

Fixpoint echo_run (fuel : nat) : St Line (result unit io_error) :=
  match fuel with
  | O => no_fuel
  | S fuel =>
      r ← line_read;
      match r with
      | Err e => mret (Err e)
      | Ok n =>
          if n =? 0 then mret (Ok tt)
          else
            w ← line_write n;
            match w with
            | Err e => mret (Err e)
            | Ok _ => echo_run fuel
            end
      end
  end.

(** [serve]: what becomes of the counters, the leased buffer and the stream. *)
Definition serve (fuel : nat) (st : Stats) (lease : option (list N)) (client : stream) :
    outcome (Stats * option (list N) * stream) :=
  let st := add_active 1 st in
  match lease with
  | None => Val (add_active (-1) (count_error st), None, client)
  | Some buf =>
      match echo_run fuel (mkLine client (resize KIB16 buf)) with
      | Val (r, s) =>
          let st := match r with Err _ => count_error st | Ok _ => st end in
          Val (add_active (-1) (count_completed st), Some s.(line_buf), s.(line_peer))
      | Panic => Panic
      | NoFuel => NoFuel
      end
  end.

(** ** [echo_tpc.rs]: the loop of a connection, on the buffer it popped. *)
Fixpoint tpc_conn (fuel : nat) : St Line unit :=
  match fuel with
  | O => no_fuel
  | S fuel =>
      r ← line_read;
      match r with
      | Err _ => skip
      | Ok n =>
          if n =? 0 then skip
          else
            w ← line_write n;
            match w with
            | Err _ => skip
            | Ok _ => tpc_conn fuel
            end
      end
  end.

(** ** [churn.rs] *)

Definition TinyBufManager : Manager (list N) := mkManager (λ _, Ok (zeros 1)) (λ buf, (Ok tt, refit 1 buf)).
Definition churn_handle (lease : option (list N)) (client : stream) : option (list N) * stream :=
  match lease with
  | None => (None, client)
  | Some buf =>
      let '(r, buf, p) := read_slice buf client in
      match r with
      | Err _ => (Some buf, p)
      | Ok n => if n =? 0 then (Some buf, p) else let '(_, p) := send (up_to n buf) p in (Some buf, p)
      end
  end.

(** ** [relay.rs] *)

Record Upstream := mkUpstream { up_stream : stream; up_buf : list N }.
(** [dial] is [connect] and [set_nodelay]. *)
Definition UpstreamManager (dial : nat → result stream io_error) : Manager Upstream :=
  mkManager (λ t, match dial t with Ok s => Ok (mkUpstream s (zeros KIB16)) | Err e => Err e end)
            (λ up, (Ok tt, mkUpstream up.(up_stream) (refit KIB16 up.(up_buf)))).

Record Relay := mkRelay { client : stream; up : Upstream }.

Definition client_read : St Relay (result N io_error) := λ s,
  let '(r, buf, c) := read_slice s.(up).(up_buf) s.(client) in
  Val (r, mkRelay c (mkUpstream s.(up).(up_stream) buf)).
Definition up_read : St Relay (result N io_error) := λ s,
  let '(r, buf, u) := read_slice s.(up).(up_buf) s.(up).(up_stream) in
  Val (r, mkRelay s.(client) (mkUpstream u buf)).
Definition client_write (n : N) : St Relay (result unit io_error) := λ s,
  let '(r, c) := send (up_to n s.(up).(up_buf)) s.(client) in Val (r, mkRelay c s.(up)).
Definition up_write (n : N) : St Relay (result unit io_error) := λ s,
  let '(r, u) := send (up_to n s.(up).(up_buf)) s.(up).(up_stream) in
  Val (r, mkRelay s.(client) (mkUpstream u s.(up).(up_buf))).

(** The loop of [handle] over the leased upstream: client, upstream, client. *)
Fixpoint relay_loop (fuel : nat) : St Relay unit :=
  match fuel with
  | O => no_fuel
  | S fuel =>
      r ← client_read;
      match r with
      | Err _ => skip
      | Ok n =>
          if n =? 0 then skip
          else
            w ← up_write n;
            match w with
            | Err _ => skip
            | Ok _ =>
                r ← up_read;
                match r with
                | Err _ => skip
                | Ok n =>
                    if n =? 0 then skip
                    else
                      w ← client_write n;
                      match w with
                      | Err _ => skip
                      | Ok _ => relay_loop fuel
                      end
                end
            end
      end
  end.

(** [handle], the pool's answer given: what goes back to the pool. *)
Definition relay_handle (fuel : nat) (lease : option Upstream) (c : stream) : outcome (option Upstream * stream) :=
  match lease with
  | None => Val (None, c)
  | Some u =>
      match relay_loop fuel (mkRelay c u) with
      | Val (_, s) => Val (Some s.(up), s.(client))
      | Panic => Panic
      | NoFuel => NoFuel
      end
  end.

(** ** [fanout.rs] *)

Record Upstreams := mkUpstreams { streams : list stream; buf : list N; resp : list N }.

(** Dial them all, in order; the first failure is the answer. *)
Fixpoint dial_all {A} (dial : A → result stream io_error) (addrs : list A) : result (list stream) io_error :=
  match addrs with
  | [] => Ok []
  | a :: addrs =>
      match dial a with
      | Err e => Err e
      | Ok s => match dial_all dial addrs with Err e => Err e | Ok ss => Ok (s :: ss) end
      end
  end.
Definition UpstreamsManager {A} (dial : nat → A → result stream io_error) (addrs : list A) : Manager Upstreams :=
  mkManager (λ t, match dial_all (dial t) addrs with
                  | Ok ss => Ok (mkUpstreams ss (zeros KIB16) (zeros KIB16))
                  | Err e => Err e
                  end)
            (λ up, (Ok tt, mkUpstreams up.(streams) (refit KIB16 up.(buf)) (refit KIB16 up.(resp)))).

(** Write to each upstream until one refuses. *)
Fixpoint scatter (bs : list N) (ss : list stream) : bool * list stream :=
  match ss with
  | [] => (true, [])
  | s :: ss =>
      match send bs s with
      | (Err _, s) => (false, s :: ss)
      | (Ok _, s) => let '(ok, ss) := scatter bs ss in (ok, s :: ss)
      end
  end.
(** One read from each until one fails or is at its end. *)
Fixpoint gather (resp : list N) (ss : list stream) : bool * list N * list stream :=
  match ss with
  | [] => (true, resp, [])
  | s :: ss =>
      let '(r, resp, s) := read_slice resp s in
      match r with
      | Err _ => (false, resp, s :: ss)
      | Ok n => if n =? 0 then (false, resp, s :: ss)
                else let '(ok, resp, ss) := gather resp ss in (ok, resp, s :: ss)
      end
  end.

Record Fan := mkFan { asker : stream; ups : Upstreams }.
Definition ask_read : St Fan (result N io_error) := λ f,
  let '(r, b, c) := read_slice f.(ups).(buf) f.(asker) in
  Val (r, mkFan c (mkUpstreams f.(ups).(streams) b f.(ups).(resp))).
Definition scatter_all (n : N) : St Fan bool := λ f,
  let '(ok, ss) := scatter (up_to n f.(ups).(buf)) f.(ups).(streams) in
  Val (ok, mkFan f.(asker) (mkUpstreams ss f.(ups).(buf) f.(ups).(resp))).
Definition gather_all : St Fan bool := λ f,
  let '(ok, resp, ss) := gather f.(ups).(resp) f.(ups).(streams) in
  Val (ok, mkFan f.(asker) (mkUpstreams ss f.(ups).(buf) resp)).
Definition ask_write (n : N) : St Fan (result unit io_error) := λ f,
  let '(r, c) := send (up_to n f.(ups).(buf)) f.(asker) in Val (r, mkFan c f.(ups)).

Fixpoint fan_loop (fuel : nat) : St Fan unit :=
  match fuel with
  | O => no_fuel
  | S fuel =>
      r ← ask_read;
      match r with
      | Err _ => skip
      | Ok n =>
          if n =? 0 then skip
          else
            sent ← scatter_all n;
            if sent : bool then
              got ← gather_all;
              if got : bool then
                w ← ask_write n;
                match w with
                | Err _ => skip
                | Ok _ => fan_loop fuel
                end
              else skip
            else skip
      end
  end.
Definition fan_handle (fuel : nat) (lease : option Upstreams) (c : stream) : outcome (option Upstreams * stream) :=
  match lease with
  | None => Val (None, c)
  | Some u =>
      match fan_loop fuel (mkFan c u) with
      | Val (_, f) => Val (Some f.(ups), f.(asker))
      | Panic => Panic
      | NoFuel => NoFuel
      end
  end.

End echo.

(** ** [wal.rs]

    A log that is only appended to and synced.  Every call that went through is kept. *)
Class AppendLog := {
  append_file : Type;
  append_all : list N → append_file → result unit io_error * append_file;
  sync_file : append_file → result unit io_error * append_file
}.
Inductive wal_call := Appended (bs : list N) | Synced | Acked.

(** The name of segment [id]: [{dir}/{label}-{id}.wal]. *)
Definition segment_path (dir label : list N) (id : N) : list N :=
  path_join dir (label ++ codes "-" ++ codes (pretty id) ++ codes ".wal").

Section wal.
Context `{Tcp} `{AppendLog} (SYNC : bool).

Record Segment := mkSegment { seg_file : append_file; seg_buf : list N }.
(** [create] takes the next number of the process; [open path] is [File::create]. *)
Definition SegmentManager (dir label : list N) (first : N) (open : list N → result append_file io_error) :
    Manager Segment :=
  mkManager (λ t, match open (segment_path dir label (fetch_add64 first (N.of_nat t))) with
                  | Ok f => Ok (mkSegment f (zeros KIB16))
                  | Err e => Err e
                  end)
            (λ seg, (Ok tt, mkSegment seg.(seg_file) (refit KIB16 seg.(seg_buf)))).

Record WalConn := mkWalConn { wal_client : stream; seg : Segment; calls : list wal_call }.

Definition payload_read : St WalConn (result N io_error) := λ s,
  let '(r, buf, c) := read_slice s.(seg).(seg_buf) s.(wal_client) in
  Val (r, mkWalConn c (mkSegment s.(seg).(seg_file) buf) s.(calls)).
Definition seg_append (n : N) : St WalConn bool := λ s,
  let bs := up_to n s.(seg).(seg_buf) in
  let '(r, f) := append_all bs s.(seg).(seg_file) in
  let seg := mkSegment f s.(seg).(seg_buf) in
  Val match r with
      | Ok _ => (true, mkWalConn s.(wal_client) seg (s.(calls) ++ [Appended bs]))
      | Err _ => (false, mkWalConn s.(wal_client) seg s.(calls))
      end.
Definition seg_sync : St WalConn bool := λ s,
  let '(r, f) := sync_file s.(seg).(seg_file) in
  let seg := mkSegment f s.(seg).(seg_buf) in
  Val match r with
      | Ok _ => (true, mkWalConn s.(wal_client) seg (s.(calls) ++ [Synced]))
      | Err _ => (false, mkWalConn s.(wal_client) seg s.(calls))
      end.
Definition seg_ack : St WalConn bool := λ s,
  let '(r, c) := send (codes "OK" ++ [10]) s.(wal_client) in
  Val match r with
      | Ok _ => (true, mkWalConn c s.(seg) (s.(calls) ++ [Acked]))
      | Err _ => (false, mkWalConn c s.(seg) s.(calls))
      end.

Fixpoint wal_loop (fuel : nat) : St WalConn unit :=
  match fuel with
  | O => no_fuel
  | S fuel =>
      r ← payload_read;
      match r with
      | Err _ => skip
      | Ok n =>
          if n =? 0 then skip
          else
            written ← seg_append n;
            if written : bool then
              synced ← (if SYNC then seg_sync else mret true);
              if synced : bool then
                acked ← seg_ack;
                if acked : bool then wal_loop fuel else skip
              else skip
            else skip
      end
  end.
Definition wal_handle (fuel : nat) (lease : option Segment) (c : stream) :
    outcome (option Segment * stream * list wal_call) :=
  match lease with
  | None => Val (None, c, [])
  | Some sg =>
      match wal_loop fuel (mkWalConn c sg []) with
      | Val (_, s) => Val (Some s.(seg), s.(wal_client), s.(calls))
      | Panic => Panic
      | NoFuel => NoFuel
      end
  end.
End wal.

(** ** The buffer stack of [echo_tpc.rs]

    A thread's connections pop a buffer when they start and push it when they end; a new one is
    made when the stack is empty.  [made] counts those, [busiest] the most connections there
    were at once. *)
Record Stack := mkStack { stack : list nat; lent : gmap nat nat; made : nat; busiest : nat }.
Definition stack_start (c : nat) (s : Stack) : Stack :=
  let busy := S (size s.(lent)) in
  match vec_pop s.(stack) with
  | Some (b, rest) => mkStack rest (<[c := b]> s.(lent)) s.(made) (s.(busiest) `max` busy)
  | None => mkStack [] (<[c := s.(made)]> s.(lent)) (S s.(made)) (s.(busiest) `max` busy)
  end.
Definition stack_end (c : nat) (s : Stack) : Stack :=
  match s.(lent) !! c with
  | Some b => mkStack (s.(stack) ++ [b]) (delete c s.(lent)) s.(made) s.(busiest)
  | None => s
  end.
Inductive stack_step : Stack → Stack → Prop :=
| conn_starts s c : s.(lent) !! c = None → stack_step s (stack_start c s)
| conn_ends s c : is_Some (s.(lent) !! c) → stack_step s (stack_end c s).
Definition stack_reachable : Stack → Prop := rtc stack_step (mkStack [] ∅ 0 0).

(** ** Lemmas *)

Lemma len_zeros n : len (zeros n) = n.
Proof. unfold len, zeros. rewrite length_replicate. lia. Qed.
Lemma len_resize n v : len (resize n v) = n.
Proof. unfold len, resize. rewrite length_app, length_take, length_replicate. lia. Qed.
Lemma len_refit n v : len (refit n v) = n.
Proof. unfold refit. destruct (N.eqb_spec (len v) n); [done|apply len_resize]. Qed.

Section handlers.
Context {T : Tcp} {TL : TcpLaws T}.

(** A read into a slice: what it brought is in front, and the slice is as long as before. *)
Lemma read_slice_spec b s r b' s' :
  read_slice b s = (r, b', s') →
  len b' = len b ∧ outgoing s' = outgoing s ∧ (steady s → steady s' ∧ ∃ n, r = Ok n) ∧
  match r with
  | Err _ => b' = b
  | Ok n => ∃ bs, n = len bs ∧ up_to n b' = bs ∧ incoming s = bs ++ incoming s' ∧
      (n = 0 → 0 < len b → incoming s = [])
  end.
Proof.
  unfold read_slice. destruct (recv (len b) s) as [r0 s0] eqn:Hr.
  pose proof (recv_keeps _ _ _ _ Hr) as Hk.
  assert (Hst : steady s → steady s0 ∧ ∃ bs, r0 = Ok bs) by (intros; by eapply recv_steady).
  destruct r0 as [bs|e]; intros [= <- <- <-]; split_and!; try done.
  - destruct (recv_takes _ _ _ _ Hr) as [_ Hl]. unfold len in *. rewrite length_app, length_drop. lia.
  - intros [? _]%Hst. eauto.
  - destruct (recv_takes _ _ _ _ Hr) as [Hi _]. exists bs. split_and!; try done.
    + unfold up_to, len. rewrite Nat2N.id. apply take_app_length.
    + intros H0 Hlt. assert (bs = []) as -> by (destruct bs; [done|rewrite len_cons in H0; lia]).
      eapply recv_eof; done.
  - intros [_ [? [=]]]%Hst.
Qed.

(** One round of an echoing loop on a slice that is not empty. *)
Lemma slice_round b p r b' p1 :
  read_slice b p = (r, b', p1) → 0 < len b →
  len b' = len b ∧
  match r with
  | Err _ => echo_end p p1 []
  | Ok n =>
      (n = 0 → echo_end p p1 [] ∧ incoming p = []) ∧
      (n ≠ 0 → incoming p = up_to n b' ++ incoming p1 ∧ ∀ w p2, send (up_to n b') p1 = (w, p2) →
         match w with
         | Err _ => echo_end p p2 []
         | Ok _ => len (incoming p2) < len (incoming p) ∧ incoming p2 = incoming p1 ∧
             ∀ p' echoed, echo_end p2 p' echoed → echo_end p p' (up_to n b' ++ echoed)
         end)
  end.
Proof.
  intros Hr Hc. destruct (read_slice_spec _ _ _ _ _ Hr) as (Hl & Ho & Hst & Hm). split; [done|].
  destruct r as [n|e]; [|by apply (echo_end_stop _ _ (Err e))].
  destruct Hm as (bs & -> & Hb & Hi & He). rewrite Hb. split.
  - intros H0. split; [|by apply He]. apply (echo_end_stop _ _ (Ok 0)); auto; [by rewrite <-H0|by intros ? [= <-]].
  - intros Hn. assert (bs ≠ []) by (by intros ->). split; [done|]. intros w p2 Hs.
    destruct (send_reads _ _ _ _ Hs) as [Hi2 Hst2]. destruct w as [[]|e].
    + split; [|split; [done|]].
      * rewrite Hi2, Hi, len_app. destruct bs; [done|]. rewrite len_cons. lia.
      * intros p' echoed Hend. eapply echo_end_step; [done..| |done|done]. intros [? _]%Hst. by apply Hst2.
    + right. exists bs, (incoming p1), p1, e. by rewrite app_nil_r.
Qed.

Lemma echo_run_spec fuel s :
  0 < len s.(line_buf) → (N.to_nat (len (incoming s.(line_peer))) < fuel)%nat →
  wp (echo_run fuel) (λ r s', len s'.(line_buf) = len s.(line_buf) ∧
    ∃ echoed, echo_end s.(line_peer) s'.(line_peer) echoed ∧
      (r = Ok tt → echoed = incoming s.(line_peer))) s.
Proof.
  revert s. induction fuel as [|fuel IH]; intros [p b] Hc Hf; [lia|]. cbn [echo_run line_peer line_buf] in *.
  wp_step. unfold wp at 1, line_read. cbn [line_peer line_buf].
  destruct (read_slice b p) as [[r b'] p1] eqn:Hr.
  destruct (slice_round _ _ _ _ _ Hr Hc) as [Hcap Hm].
  destruct r as [n|e]; [|wp_steps; simpl; split; [done|]; exists []; by split]. destruct Hm as [H0 Hn].
  destruct (N.eqb_spec n 0) as [->|Hne].
  { wp_steps. cbn [line_peer line_buf]. split; [done|]. exists []. by destruct (H0 eq_refl) as [? ->]. }
  wp_step. unfold wp at 1, line_write. cbn [line_peer line_buf].
  destruct (send (up_to n b') p1) as [w p2] eqn:Hs. destruct (Hn Hne) as [Hi Hn']. specialize (Hn' _ _ eq_refl).
  destruct w as [[]|e]; [|wp_steps; simpl; split; [done|]; exists []; by split].
  destruct Hn' as (Hlt & Hi2 & Hend).
  eapply wp_mono; [apply IH; cbn [line_peer line_buf]; lia|].
  cbn [line_peer line_buf]. intros r s' (Hc' & echoed & He & Hok). split; [congruence|].
  exists (up_to n b' ++ echoed). split; [by apply Hend|]. intros ->. by rewrite (Hok eq_refl), Hi, Hi2.
Qed.

Lemma tpc_conn_spec fuel s :
  0 < len s.(line_buf) → (N.to_nat (len (incoming s.(line_peer))) < fuel)%nat →
  wp (tpc_conn fuel) (λ _ s', len s'.(line_buf) = len s.(line_buf) ∧
    ∃ echoed, echo_end s.(line_peer) s'.(line_peer) echoed) s.
Proof.
  revert s. induction fuel as [|fuel IH]; intros [p b] Hc Hf; [lia|]. cbn [tpc_conn line_peer line_buf] in *.
  wp_step. unfold wp at 1, line_read. cbn [line_peer line_buf].
  destruct (read_slice b p) as [[r b'] p1] eqn:Hr.
  destruct (slice_round _ _ _ _ _ Hr Hc) as [Hcap Hm].
  destruct r as [n|e]; [|wp_steps; simpl; eauto]. destruct Hm as [H0 Hn].
  destruct (N.eqb_spec n 0) as [->|Hne].
  { wp_steps. cbn [line_peer line_buf]. split; [done|]. exists []. by apply H0. }
  wp_step. unfold wp at 1, line_write. cbn [line_peer line_buf].
  destruct (send (up_to n b') p1) as [w p2] eqn:Hs. destruct (Hn Hne) as [Hi Hn']. specialize (Hn' _ _ eq_refl).
  destruct w as [[]|e]; [|wp_steps; simpl; eauto]. destruct Hn' as (Hlt & Hi2 & Hend).
  eapply wp_mono; [apply IH; cbn [line_peer line_buf]; lia|].
  cbn [line_peer line_buf]. intros [] s' (Hc' & echoed & He). split; [congruence|]. eauto.
Qed.

(** *** The relay *)

(** [bs] went out from [s], or the send of it failed and [s'] is what that left. *)
Definition sent_or_failed (s s' : stream) (sent bs : list N) : Prop :=
  outgoing s' = outgoing s ++ sent ++ bs ∨
  ∃ s1 e, bs ≠ [] ∧ outgoing s1 = outgoing s ++ sent ∧ send bs s1 = (Err e, s').

(** The bytes [a ++ q] were taken from the client and [b ++ r] from the upstream; [a ++ q] was
    passed on upstream and [b ++ r] to the client, unless the last write on the way failed. *)
Definition relayed (c u c' u' : stream) (a q b r : list N) : Prop :=
  a ++ q `prefix_of` incoming c ∧ b ++ r `prefix_of` incoming u ∧
  sent_or_failed u u' a q ∧ sent_or_failed c c' b r.

Lemma sent_or_failed_none s s' : outgoing s' = outgoing s → sent_or_failed s s' [] [].
Proof. left. by rewrite app_nil_r. Qed.
Lemma sent_or_failed_one s1 s s' bs w :
  outgoing s1 = outgoing s → bs ≠ [] → send bs s1 = (w, s') → sent_or_failed s s' [] bs.
Proof.
  intros Ho Hne Hs. destruct w as [[]|e].
  - left. by rewrite (send_writes _ _ _ Hs), Ho.
  - right. exists s1, e. by rewrite app_nil_r.
Qed.
Lemma sent_or_failed_step s s1 s' pre sent bs :
  outgoing s1 = outgoing s ++ pre → sent_or_failed s1 s' sent bs → sent_or_failed s s' (pre ++ sent) bs.
Proof.
  intros Ho [H|(s2 & e & Hne & H & Hs)]; [left|right; exists s2, e]; rewrite H, Ho, <-!app_assoc; done.
Qed.

Lemma relayed_step c u c1 u1 c' u' q1 r1 a q b r :
  incoming c = q1 ++ incoming c1 → incoming u = r1 ++ incoming u1 →
  outgoing u1 = outgoing u ++ q1 → outgoing c1 = outgoing c ++ r1 →
  relayed c1 u1 c' u' a q b r → relayed c u c' u' (q1 ++ a) q (r1 ++ b) r.
Proof.
  intros Hc Hu Hou Hoc (Hc' & Hu' & Hsu & Hsc).
  split_and!; [rewrite Hc, <-app_assoc; by apply prefix_app|rewrite Hu, <-app_assoc; by apply prefix_app| |];
    by eapply sent_or_failed_step.
Qed.

Lemma relayed_stop c u c' u' : outgoing c' = outgoing c → outgoing u' = outgoing u → relayed c u c' u' [] [] [] [].
Proof. intros. split_and!; [apply prefix_nil..| |]; by apply sent_or_failed_none. Qed.

Lemma relay_loop_spec fuel s :
  0 < len s.(up).(up_buf) → (N.to_nat (len (incoming s.(client))) < fuel)%nat →
  wp (relay_loop fuel) (λ _ s', len s'.(up).(up_buf) = len s.(up).(up_buf) ∧
    ∃ a q b r, relayed s.(client) s.(up).(up_stream) s'.(client) s'.(up).(up_stream) a q b r) s.
Proof.
  revert s. induction fuel as [|fuel IH]; intros [c [u b]] Hb Hf; [lia|].
  cbn [relay_loop client up up_stream up_buf] in *.
  wp_step. unfold wp at 1, client_read. cbn [client up up_stream up_buf].
  destruct (read_slice b c) as [[r b1] c1] eqn:Hr1.
  destruct (read_slice_spec _ _ _ _ _ Hr1) as (Hl1 & Ho1 & _ & Hm1).
  destruct r as [n|e]; [|wp_steps; split; [done|]; by eexists [], [], [], []; apply relayed_stop].
  destruct (N.eqb_spec n 0) as [_|Hn]; [wp_steps; split; [done|]; by eexists [], [], [], []; apply relayed_stop|].
  destruct Hm1 as (q & -> & Hq & Hi1 & _). assert (q ≠ []) as Hqne by (by intros ->).
  wp_step. unfold wp at 1, up_write. cbn [client up up_stream up_buf]. rewrite Hq.
  destruct (send q u) as [w u1] eqn:Hs1. destruct (send_reads _ _ _ _ Hs1) as [Hiu1 _].
  assert (Hpq : [] ++ q `prefix_of` incoming c) by (rewrite Hi1; apply prefix_app_r; done).
  destruct w as [[]|e].
  2: { wp_steps. split; [done|]. exists [], q, [], []. cbn [client up up_stream up_buf].
       split_and!; [done|apply prefix_nil| |by apply sent_or_failed_none].
       by eapply (sent_or_failed_one u). }
  pose proof (send_writes _ _ _ Hs1) as Hou1.
  wp_step. unfold wp at 1, up_read. cbn [client up up_stream up_buf].
  destruct (read_slice b1 u1) as [[r b2] u2] eqn:Hr2.
  destruct (read_slice_spec _ _ _ _ _ Hr2) as (Hl2 & Ho2 & _ & Hm2).
  assert (Hnoreply : relayed c u c1 u2 [] q [] []).
  { split_and!; [done|apply prefix_nil|left; by rewrite Ho2, Hou1|by apply sent_or_failed_none]. }
  destruct r as [n|e]; [|wp_steps; cbn [client up up_stream up_buf]; split; [congruence|]; by eexists [], q, [], []].
  destruct (N.eqb_spec n 0) as [_|Hn2];
    [wp_steps; cbn [client up up_stream up_buf]; split; [congruence|]; by eexists [], q, [], []|].
  destruct Hm2 as (r & -> & Hr & Hi2 & _). assert (r ≠ []) as Hrne by (by intros ->).
  wp_step. unfold wp at 1, client_write. cbn [client up up_stream up_buf]. rewrite Hr.
  destruct (send r c1) as [w c2] eqn:Hs2. destruct (send_reads _ _ _ _ Hs2) as [Hic2 _].
  destruct w as [[]|e].
  2: { wp_steps. cbn [client up up_stream up_buf]. split; [congruence|]. exists [], q, [], r.
       split_and!; [done| |left; by rewrite Ho2, Hou1|by eapply (sent_or_failed_one c1)].
       rewrite <-Hiu1, Hi2. apply prefix_app_r. done. }
  pose proof (send_writes _ _ _ Hs2) as Hoc2.
  eapply wp_mono; [apply IH; cbn [client up up_stream up_buf]; [lia|]|].
  { rewrite Hic2. rewrite Hi1, len_app in Hf. destruct q; [done|]. rewrite len_cons in Hf. lia. }
  cbn [client up up_stream up_buf]. intros [] s' [Hl (a & q' & b' & r' & Hrel)]. split; [congruence|].
  exists (q ++ a), q', (r ++ b'), r'. eapply relayed_step; [| | | |exact Hrel]; congruence.
Qed.

(** *** The fan-out *)

(** What happens to one upstream in a round: the request written to it, or the write failed, or
    an earlier one's did. *)
Definition scattered (bs : list N) (s s' : stream) : Prop :=
  incoming s' = incoming s ∧
  (outgoing s' = outgoing s ++ bs ∨ (∃ e, send bs s = (Err e, s')) ∨ s' = s).

Lemma scatter_spec bs ss ok ss' :
  scatter bs ss = (ok, ss') →
  Forall2 (scattered bs) ss ss' ∧
  (ok = true → Forall2 (λ s s', incoming s' = incoming s ∧ outgoing s' = outgoing s ++ bs) ss ss').
Proof.
  revert ok ss'. induction ss as [|s ss IH]; intros ok ss'; cbn [scatter]; [by intros [= <- <-]|].
  destruct (send bs s) as [[[]|e] s1] eqn:Hs; destruct (send_reads _ _ _ _ Hs) as [Hi _].
  - pose proof (send_writes _ _ _ Hs) as Ho. destruct (scatter bs ss) as [ok' ss1]. intros [= <- <-].
    destruct (IH _ _ eq_refl) as [H1 H2]. split; [constructor; [|done]; split; [done|by left]|].
    intros Hok. constructor; [done|by apply H2].
  - intros [= <- <-]. split; [|done]. constructor; [split; [done|right; left; by exists e]|].
    apply Forall_Forall2_diag, Forall_true. intros u. split; [done|by right; right].
Qed.

Lemma gather_spec b ss ok b' ss' :
  gather b ss = (ok, b', ss') →
  len b' = len b ∧ Forall2 (λ s s', outgoing s' = outgoing s) ss ss' ∧
  (ok = true → Forall2 (λ s s', ∃ got, got ≠ [] ∧ incoming s = got ++ incoming s') ss ss').
Proof.
  revert b ok b' ss'. induction ss as [|s ss IH]; intros b ok b' ss'; cbn [gather]; [by intros [= <- <- <-]|].
  destruct (read_slice b s) as [[r b1] s1] eqn:Hr. destruct (read_slice_spec _ _ _ _ _ Hr) as (Hl & Ho & _ & Hm).
  assert (Hrest : Forall2 (λ s s', outgoing s' = outgoing s) (s :: ss) (s1 :: ss)).
  { constructor; [done|]. by apply Forall_Forall2_diag, Forall_true. }
  destruct r as [n|e]; [|by intros [= <- <- <-]]. destruct (N.eqb_spec n 0) as [_|Hn]; [by intros [= <- <- <-]|].
  destruct (gather b1 ss) as [[ok' b2] ss1] eqn:Hg. intros [= <- <- <-].
  destruct (IH _ _ _ _ Hg) as (Hl2 & Ho2 & Hi2). split_and!; [congruence|by constructor|].
  intros Hok. constructor; [|by apply Hi2]. destruct Hm as (bs & -> & _ & Hi & _). exists bs.
  split; [by intros ->|done].
Qed.

(** The requests [a] were answered in full; [q] is the one at hand when it ended.  Each upstream
    got all of [a], and perhaps [q]. *)
Definition reached (a q : list N) (u u' : stream) : Prop :=
  outgoing u' = outgoing u ++ a ∨ sent_or_failed u u' a q.
Definition fanned (c c' : stream) (us us' : list stream) (a q : list N) : Prop :=
  a ++ q `prefix_of` incoming c ∧ reached a q c c' ∧ Forall2 (reached a q) us us'.

Lemma reached_step u u1 u' pre a q :
  outgoing u1 = outgoing u ++ pre → reached a q u1 u' → reached (pre ++ a) q u u'.
Proof.
  intros Ho [H|H]; [left|right; by eapply sent_or_failed_step]. by rewrite H, Ho, <-app_assoc.
Qed.

Lemma reached_all us us1 us' pre a q :
  Forall2 (λ u u1, outgoing u1 = outgoing u ++ pre) us us1 → Forall2 (reached a q) us1 us' →
  Forall2 (reached (pre ++ a) q) us us'.
Proof.
  intros H1. revert us'. induction H1 as [|u u1 us us1 Ho H1 IH]; intros us' H2.
  - inversion H2. constructor.
  - inversion H2 as [|? u' ? us2 Hu Hus]; subst. constructor; [by eapply reached_step|by apply IH].
Qed.

Lemma fan_loop_spec fuel f :
  0 < len f.(ups).(buf) → (N.to_nat (len (incoming f.(asker))) < fuel)%nat →
  wp (fan_loop fuel) (λ _ f', len f'.(ups).(buf) = len f.(ups).(buf) ∧ len f'.(ups).(resp) = len f.(ups).(resp) ∧
    ∃ a q, fanned f.(asker) f'.(asker) f.(ups).(streams) f'.(ups).(streams) a q) f.
Proof.
  revert f. induction fuel as [|fuel IH]; intros [c [us b rs]] Hb Hf; [lia|].
  cbn [fan_loop asker ups streams buf resp] in *.
  wp_step. unfold wp at 1, ask_read. cbn [asker ups streams buf resp].
  destruct (read_slice b c) as [[r b1] c1] eqn:Hr.
  destruct (read_slice_spec _ _ _ _ _ Hr) as (Hl1 & Ho1 & _ & Hm).
  assert (Hstop : fanned c c1 us us [] []).
  { split_and!; [apply prefix_nil|left; by rewrite app_nil_r|]. apply Forall_Forall2_diag, Forall_true.
    intros u. left. by rewrite app_nil_r. }
  destruct r as [n|e]; [|wp_steps; split_and!; [done|done|by exists [], []]].
  destruct (N.eqb_spec n 0) as [_|Hn]; [wp_steps; split_and!; [done|done|by exists [], []]|].
  destruct Hm as (q & -> & Hq & Hi & _). assert (q ≠ []) as Hqne by (by intros ->).
  assert (Hpq : [] ++ q `prefix_of` incoming c) by (rewrite Hi; by apply prefix_app_r).
  assert (Hc1 : reached [] q c c1) by (left; by rewrite app_nil_r).
  wp_step. unfold wp at 1, scatter_all. cbn [asker ups streams buf resp]. rewrite Hq.
  destruct (scatter q us) as [ok us1] eqn:Hsc. destruct (scatter_spec _ _ _ _ Hsc) as [Hall Hok].
  destruct ok.
  2: { wp_steps. split_and!; [done|done|]. exists [], q. split_and!; [done|done|].
       cbn [asker ups streams]. eapply Forall2_impl; [exact Hall|]. intros u u' [_ [Ho|[[e He]| ->]]].
       - right. by left.
       - right. right. exists u, e. by rewrite app_nil_r.
       - left. by rewrite app_nil_r. }
  specialize (Hok eq_refl). wp_step. unfold wp at 1, gather_all. cbn [asker ups streams buf resp].
  destruct (gather rs us1) as [[ok rs1] us2] eqn:Hg. destruct (gather_spec _ _ _ _ _ Hg) as (Hl2 & Ho2 & _).
  assert (Hus2 : Forall2 (λ u u', outgoing u' = outgoing u ++ q) us us2).
  { clear -Hok Ho2. revert us2 Ho2. induction Hok as [|u u1 us us1 [_ Ho] Hok IH]; intros us2 Ho2.
    - inversion Ho2. constructor.
    - inversion Ho2 as [|? u2 ? us3 Hu Hus]; subst. constructor; [congruence|by apply IH]. }
  assert (Hq2 : Forall2 (reached [] q) us us2).
  { eapply Forall2_impl; [exact Hus2|]. intros u u' Ho. right. by left. }
  destruct ok; [|wp_steps; split_and!; [done|done|]; by exists [], q].
  wp_step. unfold wp at 1, ask_write. cbn [asker ups streams buf resp]. rewrite Hq.
  destruct (send q c1) as [w c2] eqn:Hs. destruct (send_reads _ _ _ _ Hs) as [Hic2 _].
  destruct w as [[]|e].
  2: { wp_steps. split_and!; [done|done|]. exists [], q. split_and!; [done| |done].
       right. by eapply (sent_or_failed_one c1). }
  pose proof (send_writes _ _ _ Hs) as Hoc2.
  eapply wp_mono; [apply IH; cbn [asker ups streams buf resp]; [lia|]|].
  { rewrite Hic2. rewrite Hi, len_app in Hf. destruct q; [done|]. rewrite len_cons in Hf. lia. }
  cbn [asker ups streams buf resp]. intros [] f' (Hlb & Hlr & a & q' & Hp & Hrc & Hrus).
  split_and!; [congruence|congruence|]. exists (q ++ a), q'. split_and!.
  - rewrite Hi, <-Hic2, <-app_assoc. by apply prefix_app.
  - eapply reached_step; [|exact Hrc]. congruence.
  - by eapply reached_all.
Qed.
End handlers.

(** *** The log *)

Section wal.
Context {T : Tcp} {TL : TcpLaws T} {L : AppendLog} (SYNC : bool).

(** The calls that acknowledge [bs]. *)
Definition commit (bs : list N) : list wal_call := Appended bs :: (if SYNC then [Synced] else []) ++ [Acked].

(** The payloads [acks] were committed one after the other; for a last one the calls stop short
    of its acknowledgement. *)
Definition committed (c : stream) (before after : list wal_call) : Prop :=
  ∃ acks last rest, after = before ++ concat (commit <$> acks) ++ rest ∧
    rest `prefix_of` commit last ∧ rest ≠ commit last ∧
    concat acks ++ last `prefix_of` incoming c ∧ [] ∉ acks.

Lemma committed_stop c before last rest more :
  rest `prefix_of` commit last → rest ≠ commit last → incoming c = last ++ more →
  committed c before (before ++ rest).
Proof.
  intros. exists [], last, rest. split_and!; [done|done|done|simpl; by eexists|by apply not_elem_of_nil].
Qed.

Lemma committed_next c c1 before bs after :
  incoming c = bs ++ incoming c1 → bs ≠ [] → committed c1 (before ++ commit bs) after → committed c before after.
Proof.
  intros Hi Hne (acks & last & rest & -> & Hp & Hr & Hin & Hnil). exists (bs :: acks), last, rest.
  cbn [fmap list_fmap concat]. rewrite <-!app_assoc. split_and!; [done|done|done| |].
  - rewrite Hi. by apply prefix_app.
  - by rewrite not_elem_of_cons.
Qed.

Lemma wal_loop_spec fuel s :
  0 < len s.(seg).(seg_buf) → (N.to_nat (len (incoming s.(wal_client))) < fuel)%nat →
  wp (wal_loop SYNC fuel) (λ _ s', len s'.(seg).(seg_buf) = len s.(seg).(seg_buf) ∧
    committed s.(wal_client) s.(calls) s'.(calls)) s.
Proof.
  revert s. induction fuel as [|fuel IH]; intros [c [f b] k] Hb Hf; [lia|].
  cbn [wal_loop wal_client seg seg_file seg_buf calls] in *.
  assert (Hnone : committed c k k).
  { rewrite <-(app_nil_r k) at 2. by apply (committed_stop c k [] [] (incoming c)); [apply prefix_nil|..]. }
  wp_step. unfold wp at 1, payload_read. cbn [wal_client seg seg_file seg_buf calls].
  destruct (read_slice b c) as [[r b1] c1] eqn:Hr.
  destruct (read_slice_spec _ _ _ _ _ Hr) as (Hl & _ & _ & Hm).
  destruct r as [n|e]; [|by wp_steps]. destruct (N.eqb_spec n 0) as [_|Hn]; [by wp_steps|].
  destruct Hm as (bs & -> & Hbs & Hi & _). assert (bs ≠ []) as Hne by (by intros ->).
  wp_step. unfold wp at 1, seg_append. cbn [wal_client seg seg_file seg_buf calls]. rewrite Hbs.
  destruct (append_all bs f) as [[[]|e] f1]; [|by wp_steps]. cbn beta iota.
  assert (Hshort : ∀ rest, rest `prefix_of` commit bs → rest ≠ commit bs → committed c k (k ++ rest)).
  { intros rest H1 H2. by apply (committed_stop c k bs rest (incoming c1)). }
  wp_step. apply (wp_mono _ (λ ok s', s'.(wal_client) = c1 ∧ s'.(seg).(seg_buf) = b1 ∧
    if ok : bool then s'.(calls) ++ [Acked] = k ++ commit bs else s'.(calls) = k ++ [Appended bs])).
  { unfold commit. destruct SYNC.
    - unfold wp, seg_sync. cbn [wal_client seg seg_file seg_buf calls].
      destruct (sync_file f1) as [[[]|e] f2]; split_and!; try done. cbn. by rewrite <-!app_assoc.
    - apply wp_ret. split_and!; [done|done|]. cbn. by rewrite <-!app_assoc. }
  intros ok [c2 [f2 b2] k2] (Hc2 & Hb2 & Hk2). cbn [wal_client seg seg_file seg_buf calls] in *. subst c2 b2.
  destruct ok.
  2: { wp_steps. split; [done|]. cbn [calls]. rewrite Hk2. apply Hshort; unfold commit.
       - by eexists.
       - by destruct SYNC. }
  wp_step. unfold wp at 1, seg_ack. cbn [wal_client seg seg_file seg_buf calls].
  destruct (send (codes "OK" ++ [10]) c1) as [[[]|e] c3] eqn:Hs; destruct (send_reads _ _ _ _ Hs) as [Hi3 _]; cbn beta iota.
  2: { wp_steps. split; [done|]. cbn [calls]. unfold commit in Hk2. rewrite app_comm_cons, app_assoc in Hk2.
       apply app_inj_tail in Hk2 as [-> _]. apply Hshort; unfold commit.
       - rewrite app_comm_cons. by eexists.
       - by destruct SYNC. }
  eapply wp_mono; [apply IH; cbn [wal_client seg seg_file seg_buf calls]; [lia|]|].
  { rewrite Hi3. rewrite Hi, len_app in Hf. destruct bs; [done|]. rewrite len_cons in Hf. lia. }
  cbn [wal_client seg seg_file seg_buf calls]. intros [] s' [Hlb Hcom]. split; [congruence|].
  rewrite Hk2 in Hcom. eapply committed_next; [|done|exact Hcom]. by rewrite Hi3.
Qed.
End wal.

(** *** The buffer stack *)

Definition values (m : gmap nat nat) : list nat := (map_to_list m).*2.

(** Every buffer made is in one place, and no more were made than connections needed at once. *)
Definition stack_inv (s : Stack) : Prop :=
  values s.(lent) ++ s.(stack) ≡ₚ seq 0 s.(made) ∧ (s.(made) ≤ s.(busiest))%nat ∧ (size s.(lent) ≤ s.(busiest))%nat.

Lemma values_insert m c b : m !! c = None → values (<[c := b]> m) ≡ₚ b :: values m.
Proof. intros Hc. unfold values. by rewrite map_to_list_insert. Qed.
Lemma values_delete m c b : m !! c = Some b → values m ≡ₚ b :: values (delete c m).
Proof. intros Hc. unfold values. by rewrite <-(map_to_list_delete m c b). Qed.
Lemma size_values m : size m = length (values m).
Proof. unfold values. by rewrite length_fmap, length_map_to_list. Qed.

Lemma stack_step_inv s s' : stack_inv s → stack_step s s' → stack_inv s'.
Proof.
  intros (Hp & Hm & Hs) Hstep. pose proof (Permutation_length Hp) as Hlen.
  rewrite length_app, length_seq in Hlen. rewrite <-size_values in Hlen.
  inversion Hstep as [? c Hc|? c [b Hc]]; subst.
  - unfold stack_start. destruct (vec_pop (stack s)) as [[b rest]|] eqn:Hpop.
    + apply vec_pop_Some in Hpop. rewrite Hpop, length_app in Hlen. simpl in Hlen.
      split_and!; simpl; [|lia|rewrite map_size_insert_None by done; lia].
      rewrite values_insert by done. rewrite <-Hp, Hpop. simpl. rewrite app_assoc.
      by rewrite (Permutation_app_comm _ [b]).
    + apply vec_pop_None in Hpop. rewrite Hpop in Hlen, Hp. simpl in Hlen.
      split_and!; simpl; [|lia|rewrite map_size_insert_None by done; lia].
      rewrite values_insert by done. rewrite app_nil_r in *. rewrite Hp, Permutation_cons_append.
      transitivity (seq 0 (S (made s))); [by rewrite seq_S|done].
  - unfold stack_end. rewrite Hc. split_and!; simpl; [|done|].
    + rewrite (values_delete _ _ _ Hc) in Hp. rewrite <-Hp. simpl. rewrite app_assoc.
      by rewrite (Permutation_app_comm _ [b]).
    + rewrite map_size_delete_Some by by eexists. lia.
Qed.


(** ** The theorems *)

Lemma wrap_i64_back z : (- 2 ^ 63 ≤ z < 2 ^ 63)%Z → wrap_i64 (wrap_i64 (z + 1) + -1) = z.
Proof. unfold wrap_i64. intros Hz. Z.to_euclidean_division_equations. lia. Qed.

(** [echo.rs]: a connection with a buffer ends like one of the compio server, gives back a 16 KiB
    buffer, leaves the gauge of active connections as it was and counts once as completed; no
    error is counted only if everything that came was written back.  Without a buffer it is an
    error and nothing is read. *)
Theorem baseline_echo {T : Tcp} {TL : TcpLaws T} fuel st lease (c : stream) :
  (- 2 ^ 63 ≤ st.(active) < 2 ^ 63)%Z → (N.to_nat (len (incoming c)) < fuel)%nat →
  ∃ st' given c', serve fuel st lease c = Val (st', given, c') ∧
    st'.(active) = st.(active) ∧ st'.(accepted) = st.(accepted) ∧
    match lease with
    | None => given = None ∧ c' = c ∧ st'.(completed) = st.(completed) ∧ st'.(errors) = fetch_add64 st.(errors) 1
    | Some _ => (∃ b, given = Some b ∧ len b = KIB16) ∧ st'.(completed) = fetch_add64 st.(completed) 1 ∧
        ∃ echoed, echo_end c c' echoed ∧
          ((st'.(errors) = st.(errors) ∧ echoed = incoming c) ∨ st'.(errors) = fetch_add64 st.(errors) 1)
    end.
Proof.
  intros Ha Hf. unfold serve. destruct lease as [b|].
  2: { eexists _, None, c. split; [done|]. cbn. split_and!; try done. by apply wrap_i64_back. }
  pose proof (len_resize KIB16 b) as Hl0. generalize dependent (resize KIB16 b). intros b0 Hl0.
  assert (Hb : 0 < len b0) by (by rewrite Hl0).
  destruct (wp_val _ _ _ (echo_run_spec fuel (mkLine c b0) Hb Hf)) as (r & [c' b'] & Hrun & Hl & echoed & He & Hok).
  rewrite Hrun. cbn [line_peer line_buf] in *. rewrite Hl0 in Hl.
  exists (add_active (-1) (count_completed match r with Ok _ => add_active 1 st | Err _ => count_error (add_active 1 st) end)), (Some b'), c'.
  split; [done|]. destruct r as [[]|e]; cbn; (split_and!; [by apply wrap_i64_back|done|by eexists|done|exists echoed; split; [done|]]).
  - left. split; [done|]. by apply Hok.
  - by right.
Qed.

(** [relay.rs]: the relay invents, drops and reorders nothing on the way it gets.  What the
    upstream was sent is a prefix of what the client sent, and what the client was sent is a
    prefix of what the upstream had to say, each as far as the last write went through; the
    handler ends and gives the upstream back with its buffer. *)
Theorem relay_transparent {T : Tcp} {TL : TcpLaws T} fuel u (c : stream) :
  0 < len u.(up_buf) → (N.to_nat (len (incoming c)) < fuel)%nat →
  ∃ u' c' a q b r, relay_handle fuel (Some u) c = Val (Some u', c') ∧ len u'.(up_buf) = len u.(up_buf) ∧
    relayed c u.(up_stream) c' u'.(up_stream) a q b r.
Proof.
  intros Hb Hf. destruct (wp_val _ _ _ (relay_loop_spec fuel (mkRelay c u) Hb Hf))
    as ([] & [c' u'] & Hrun & Hl & a & q & b & r & Hrel).
  unfold relay_handle. rewrite Hrun. by exists u', c', a, q, b, r.
Qed.

(** [fanout.rs]: the handler ends; the client got back exactly the requests [a] it sent, and every
    upstream of the set got all of them, in the same order, with at most the request [q] at hand
    on top. *)
Theorem fan_reaches_all {T : Tcp} {TL : TcpLaws T} fuel u (c : stream) :
  0 < len u.(buf) → (N.to_nat (len (incoming c)) < fuel)%nat →
  ∃ u' c' a q, fan_handle fuel (Some u) c = Val (Some u', c') ∧
    length u'.(streams) = length u.(streams) ∧ len u'.(buf) = len u.(buf) ∧ len u'.(resp) = len u.(resp) ∧
    fanned c c' u.(streams) u'.(streams) a q.
Proof.
  intros Hb Hf. destruct (wp_val _ _ _ (fan_loop_spec fuel (mkFan c u) Hb Hf))
    as ([] & [c' u'] & Hrun & Hlb & Hlr & a & q & Hrel).
  unfold fan_handle. rewrite Hrun. exists u', c', a, q. split_and!; try done.
  destruct Hrel as (_ & _ & Hall). symmetry. by eapply Forall2_length.
Qed.

(** [wal.rs]: no acknowledgement without its append, and with syncing on without its sync: the
    calls of a connection are [append], [sync] and [acknowledge] for one payload after the other,
    the payloads being the client's bytes in order, and a last payload stops short of its
    acknowledgement. *)
Theorem wal_acks_after_commit {T : Tcp} {TL : TcpLaws T} {L : AppendLog} SYNC fuel sg (c : stream) :
  0 < len sg.(seg_buf) → (N.to_nat (len (incoming c)) < fuel)%nat →
  ∃ sg' c' ks, wal_handle SYNC fuel (Some sg) c = Val (Some sg', c', ks) ∧ len sg'.(seg_buf) = len sg.(seg_buf) ∧
    committed SYNC c [] ks.
Proof.
  intros Hb Hf. destruct (wp_val _ _ _ (wal_loop_spec SYNC fuel (mkWalConn c sg []) Hb Hf))
    as ([] & [c' sg' ks] & Hrun & Hl & Hcom).
  unfold wal_handle. rewrite Hrun. by exists sg', c', ks.
Qed.

(** [echo_tpc.rs]: at every moment each buffer a thread ever made is on the stack or with one
    connection, never both and never with two, and there are no more of them than there were
    connections at the busiest moment. *)
Theorem stack_exclusive s :
  stack_reachable s → NoDup (values s.(lent) ++ s.(stack)) ∧
    (length (values s.(lent)) + length s.(stack))%nat = s.(made) ∧ (s.(made) ≤ s.(busiest))%nat.
Proof.
  unfold stack_reachable. intros Hr.
  assert (Hinv : stack_inv s).
  { remember (mkStack [] ∅ 0 0) as s0 eqn:E. assert (H0 : stack_inv s0) by (subst; split_and!; simpl; done || lia).
    clear E. induction Hr as [|x y z Hstep Hr IH]; [done|]. apply IH. by eapply stack_step_inv. }
  destruct Hinv as (Hp & Hm & _). split; [rewrite Hp; apply NoDup_seq|].
  apply Permutation_length in Hp. rewrite length_app, length_seq in Hp. lia.
Qed.

(** ** Concrete runs *)

#[local] Existing Instance script_tcp.

Definition demo_stats : Stats := mkStats 3 10 6 1.
Definition demo_peer : stream (Tcp:=script_tcp) := mkScript (codes "abc") [Ok 1; Err (mkIoError BrokenPipe "reset")] [] [].
Lemma baseline_echo_witness :
  ∃ given c' echoed, serve 5 demo_stats (Some []) demo_peer = Val (mkStats 3 10 7 2, given, c') ∧
    c'.(written) = codes "ab" ∧ echo_end demo_peer c' echoed.
Proof.
  destruct (baseline_echo 5 demo_stats (Some []) demo_peer) as (st & given & c' & He & _ & _ & _ & _ & echoed & Hend & _).
  - done.
  - by apply Nat.ltb_lt.
  - exists given, c', echoed.
    assert (Hrun : match serve 5 demo_stats (Some []) demo_peer with
      | Val (st, _, c) => st = mkStats 3 10 7 2 ∧ c.(written) = codes "ab" | _ => False end) by (vm_compute; split; reflexivity).
    rewrite He in Hrun. destruct Hrun as [-> ?]. by split_and!.
Defined.

(** A client that sends "ab" and "c", and an upstream that answers in capitals. *)
Definition demo_client : stream (Tcp:=script_tcp) := mkScript (codes "abc") [Ok 1; Ok 0] [] [].
Definition demo_upstream : Upstream := mkUpstream (mkScript (codes "ABC") [Ok 1; Ok 0] [] []) (zeros KIB16).
Lemma relay_transparent_witness :
  ∃ u' c' a q b r, relay_handle 5 (Some demo_upstream) demo_client = Val (Some u', c') ∧
    c'.(written) = codes "ABC" ∧ u'.(up_stream).(written) = codes "abc" ∧
    relayed demo_client demo_upstream.(up_stream) c' u'.(up_stream) a q b r.
Proof.
  destruct (relay_transparent 5 demo_upstream demo_client) as (u' & c' & a & q & b & r & He & _ & Hrel).
  - by apply N.ltb_lt; vm_compute.
  - by apply Nat.ltb_lt.
  - exists u', c', a, q, b, r.
    assert (Hrun : match relay_handle 5 (Some demo_upstream) demo_client with
      | Val (Some u, c) => c.(written) = codes "ABC" ∧ u.(up_stream).(written) = codes "abc"
      | _ => False end) by (vm_compute; split; reflexivity).
    rewrite He in Hrun. destruct Hrun. by split_and!.
Defined.

(** Two upstreams that answer each request with something of their own. *)
Definition demo_fan : Upstreams :=
  mkUpstreams [mkScript (codes "xyz") [Ok 0] [] []; mkScript (codes "12") [Ok 0] [] []] (zeros KIB16) (zeros KIB16).
Lemma fan_reaches_all_witness :
  ∃ u' c' a q, fan_handle 5 (Some demo_fan) demo_client = Val (Some u', c') ∧
    c'.(written) = codes "abc" ∧ (written <$> u'.(streams)) = [codes "abc"; codes "abc"] ∧
    fanned demo_client c' demo_fan.(streams) u'.(streams) a q.
Proof.
  destruct (fan_reaches_all 5 demo_fan demo_client) as (u' & c' & a & q & He & _ & _ & _ & Hrel).
  - by apply N.ltb_lt; vm_compute.
  - by apply Nat.ltb_lt.
  - exists u', c', a, q.
    assert (Hrun : match fan_handle 5 (Some demo_fan) demo_client with
      | Val (Some u, c) => c.(written) = codes "abc" ∧ (written <$> u.(streams)) = [codes "abc"; codes "abc"]
      | _ => False end) by (vm_compute; split; reflexivity).
    rewrite He in Hrun. destruct Hrun. by split_and!.
Defined.

(** A log that keeps what it is given; every sync but the first fails. *)
Definition demo_log : AppendLog := {|
  append_file := list N * list (result unit io_error);
  append_all bs f := (Ok tt, (f.1 ++ bs, f.2));
  sync_file f := match f.2 with [] => (Ok tt, f) | r :: rs => (r, (f.1, rs)) end
|}.
#[local] Existing Instance demo_log.
Definition demo_segment : Segment := mkSegment ([], [Ok tt; Err (mkIoError BrokenPipe "disk")]) (zeros KIB16).
Lemma wal_acks_after_commit_witness :
  ∃ sg' c', wal_handle true 5 (Some demo_segment) demo_client =
      Val (Some sg', c', [Appended (codes "ab"); Synced; Acked; Appended (codes "c")]) ∧
    committed true demo_client [] [Appended (codes "ab"); Synced; Acked; Appended (codes "c")].
Proof.
  destruct (wal_acks_after_commit true 5 demo_segment demo_client) as (sg' & c' & ks & He & _ & Hcom).
  - by apply N.ltb_lt; vm_compute.
  - by apply Nat.ltb_lt.
  - assert (ks = [Appended (codes "ab"); Synced; Acked; Appended (codes "c")]) as ->.
    { assert (Hrun : match wal_handle true 5 (Some demo_segment) demo_client with
        | Val (_, _, ks) => ks = [Appended (codes "ab"); Synced; Acked; Appended (codes "c")]
        | _ => False end) by (vm_compute; reflexivity).
      rewrite He in Hrun. exact Hrun. }
    exists sg', c'. split; [exact He|exact Hcom].
Defined.

Lemma stack_exclusive_witness :
  ∃ s, stack_reachable s ∧ s.(made) = 2%nat ∧ NoDup (values s.(lent) ++ s.(stack)).
Proof.
  set (s := stack_end 1 (stack_start 2 (stack_start 1 (mkStack [] ∅ 0 0)))).
  assert (Hr : stack_reachable s).
  { eapply rtc_l; [by apply (conn_starts _ 1)|]. eapply rtc_l; [by apply (conn_starts _ 2)|].
    eapply rtc_l; [by apply (conn_ends _ 1); eexists|]. apply rtc_refl. }
  exists s. split_and!; [exact Hr|done|]. apply (stack_exclusive s Hr).
Defined.

(** *** An upstream goes back to the pool as it is

    The answer "AB" to the first client's "a" comes in two parts; the client leaves after the
    first, and [recycle] looks at the buffer only.  The next client to lease the upstream is
    sent the rest. *)
Definition first_client : stream (Tcp:=script_tcp) := mkScript (codes "a") [] [] [].
Definition next_client : stream (Tcp:=script_tcp) := mkScript (codes "z") [] [] [].
Definition late_upstream : Upstream := mkUpstream (mkScript (codes "ABZ") [Ok 0; Ok 0] [] []) (zeros KIB16).
Definition two_clients : outcome (list N * list N) :=
  match relay_handle 3 (Some late_upstream) first_client with
  | Val (Some u, c1) =>
      match (UpstreamManager (λ _, Err (mkIoError BrokenPipe ""))).(recycle) u with
      | (Ok _, u) =>
          match relay_handle 3 (Some u) next_client with
          | Val (_, c2) => Val (c1.(written), c2.(written))
          | _ => Panic
          end
      | _ => Panic
      end
  | _ => Panic
  end.
Lemma relay_leaks : two_clients = Val (codes "A", codes "B").
Proof. by vm_compute. Qed.
