(* ===== verification/Typing.v ===== *)
(** What a pooled connection is, the pool keeps: a predicate of connections that dialling
    establishes and that the manager's calls and the leases' holders keep holds of every
    connection the thread has, idle, leased, or in the hands of a task.

    The pool never looks inside a connection, so this is its type soundness: it neither makes
    connections up nor passes a stranger on. *)

From stdpp Require Import gmap.
From S2P Require Import Prelude Manage Builder Metrics Store Waiters Inner Local Futures Balance System Scenario Text Echo.

(** A predicate the manager keeps. *)
Class TypedManager {C E} (M : ManageConnection C E) (P : C → Prop) : Prop := {
  typed_connect t c : connect t = Ready (Ok c) → P c;
  typed_valid t c : P c → P (is_valid t c).2;
  typed_broken t c : P c → P (has_broken t c).2
}.

Section typing.
Context {C E : Type} {F : Features} {R : Runtime} {M : ManageConnection C E}.
Context (P : C → Prop) {TM : TypedManager M P}.
Context (cfg : PoolConfig).
Implicit Types (w : World C) (h : Held C).

Definition typed_conn (c : Conn C) : Prop := P c.(raw).
Definition typed_opt (o : option (Conn C)) : Prop := match o with Some c => typed_conn c | None => True end.
Definition typed_held h : Prop := typed_opt h.(held_conn).
Definition typed_lease (p : PooledConnection C) : Prop := typed_opt p.(pooled_conn).
Definition typed_guard (o : option (Held C)) : Prop := match o with Some h => typed_held h | None => True end.
Definition typed_world w : Prop := Forall typed_conn w.(idle).

Definition typed_state (s : get_state C) : Prop :=
  match s with GValidate _ _ h | GConnect _ _ h => typed_held h | _ => True end.
Definition typed_get (f : get_fut C) : Prop := match f with GetNew => True | GetTimed s => typed_state s end.
Definition typed_try (f : try_fut C) : Prop :=
  match f with TryNew => True | TryValidate h | TryConnect h => typed_held h end.
Definition typed_warm (f : warm_fut C) : Prop :=
  match f with WarmDial _ h => typed_held h | _ => True end.
Definition typed_task (t : task C) : Prop :=
  match t with TGet f => typed_get f | TTry f => typed_try f | TWarm f => typed_warm f end.
Definition typed_answer (a : answer C E) : Prop := match a with Leased p => typed_lease p | _ => True end.

(** Every connection a thread has. *)
Record typed_sys (s : Sys C E) : Prop := {
  ty_world : typed_world s.(world);
  ty_tasks : map_Forall (λ _ t, typed_task t) s.(tasks);
  ty_leases : map_Forall (λ _ p, typed_lease p) s.(leases);
  ty_answers : Forall (λ a, typed_answer a.2) s.(answers)
}.

(** The holders of leases leave typed connections behind. *)
Definition typed_action (a : action C) : Prop := match a with WriteLease _ c => P c | _ => True end.

(** [c] keeps the store typed, and if it returns, returns a [Q]. *)
Definition keeps {A} (c : St (World C) A) (Q : A → Prop) : Prop :=
  ∀ w, typed_world w → match c w with Val (a, w') => typed_world w' ∧ Q a | _ => True end.

Lemma keeps_weaken {A} (c : St (World C) A) (Q Q' : A → Prop) :
  keeps c Q → (∀ a, Q a → Q' a) → keeps c Q'.
Proof. intros Hc HQ w Hw. specialize (Hc w Hw). destruct (c w) as [[]| |]; naive_solver. Qed.
Lemma keeps_bind {A B} (c : St (World C) A) (f : A → St (World C) B) Q Q' :
  keeps c Q → (∀ a, Q a → keeps (f a) Q') → keeps (c ≫= f) Q'.
Proof.
  intros Hc Hf w Hw. specialize (Hc w Hw). unfold mbind, St_bind.
  destruct (c w) as [[a w']| |]; [|done..]. destruct Hc as [Hw' Ha]. by apply Hf.
Qed.
Lemma keeps_ret {A} (a : A) (Q : A → Prop) : Q a → keeps (mret a) Q.
Proof. by intros HQ w Hw. Qed.
Lemma keeps_skip : keeps skip (λ _, True).
Proof. by apply keeps_ret. Qed.
Lemma keeps_panic {A} (Q : A → Prop) : keeps panic Q.
Proof. by intros w Hw. Qed.
Lemma keeps_no_fuel {A} (Q : A → Prop) : keeps no_fuel Q.
Proof. by intros w Hw. Qed.
Lemma keeps_lift {A} (o : outcome A) (Q : A → Prop) : (∀ a, o = Val a → Q a) → keeps (lift o) Q.
Proof. intros HQ w Hw. unfold lift. destruct o; auto. Qed.
Lemma keeps_gets {A} (f : World C → A) : keeps (gets f) (λ _, True).
Proof. by intros w Hw. Qed.
Lemma keeps_gets_idle : keeps (gets idle) (Forall typed_conn).
Proof. by intros w Hw. Qed.
Lemma keeps_modify f : (∀ w, typed_world w → typed_world (f w)) → keeps (modify f) (λ _, True).
Proof. intros Hf w Hw. simpl. auto. Qed.
Lemma keeps_set_idle l : Forall typed_conn l → keeps (modify (set_idle l)) (λ _, True).
Proof. intros Hl. apply keeps_modify. by intros []. Qed.
Lemma keeps_ask {A} (f : nat → A) (Q : A → Prop) : (∀ t, Q (f t)) → keeps (ask f) Q.
Proof. intros HQ [] Hw. simpl. auto. Qed.
Lemma keeps_when b c : keeps c (λ _, True) → keeps (when b c) (λ _, True).
Proof. destruct b; [done|]. intros _. apply keeps_skip. Qed.
End typing.

Create HintDb keepdb.
#[export] Hint Resolve keeps_skip keeps_panic keeps_no_fuel keeps_gets keeps_when : keepdb.
#[export] Hint Resolve keeps_gets_idle | 0 : keepdb.

(** One step through a computation; what is left is the typing of its results. *)
Ltac keep_step :=
  first
    [ solve [ eauto with keepdb ]
    | eapply keeps_bind; [ solve [ eauto with keepdb ] | intros ? ?; cbn beta in * ]
    | apply keeps_ret
    | apply keeps_when
    | eapply keeps_bind; [ apply keeps_when | intros ? ?; cbn beta in * ]
    | match goal with
      | |- keeps ?P (mbind _ (match ?x with _ => _ end)) _ =>
          eapply (keeps_bind P _ _ (λ _, True)); [ | intros ? ?; cbn beta in * ]
      end
    | case_match ].
Ltac keep := repeat (keep_step; cbn beta).

Section operations.
Context {C E : Type} {F : Features} {R : Runtime} {M : ManageConnection C E}.
Context (P : C → Prop) {TM : TypedManager M P}.
Context (cfg : PoolConfig).
Implicit Types (w : World C) (h : Held C).
Abbreviation keeps := (keeps P).

(** *** The store's primitives *)

Lemma keeps_metric f : keeps (metric f) (λ _, True).
Proof. apply keeps_when, keeps_modify. by intros []. Qed.
Lemma keeps_set_closed b : keeps (modify (set_closed b)) (λ _, True).
Proof. apply keeps_modify. by intros []. Qed.
Lemma keeps_set_slots n : keeps (modify (set_slots n)) (λ _, True).
Proof. apply keeps_modify. by intros []. Qed.
Lemma keeps_set_waiters q : keeps (modify (set_waiters q)) (λ _, True).
Proof. apply keeps_modify. by intros []. Qed.
Lemma keeps_log_wake e : keeps (modify (log_wake e)) (λ _, True).
Proof. apply keeps_modify. by intros []. Qed.
Lemma keeps_lift_any {A} (o : outcome A) : keeps (lift o) (λ _, True).
Proof. by apply keeps_lift. Qed.
Lemma keeps_ask_any {A} (f : nat → A) : keeps (ask f) (λ _, True).
Proof. by apply keeps_ask. Qed.
#[local] Hint Resolve keeps_metric keeps_set_closed keeps_set_slots keeps_set_waiters keeps_log_wake
  keeps_lift_any keeps_set_idle keeps_ask_any : keepdb.

Lemma keeps_now : keeps now (λ _, True).
Proof. apply keeps_ask_any. Qed.
#[local] Hint Resolve keeps_now : keepdb.
Lemma keeps_load_closed : keeps load_closed (λ _, True).
Proof. unfold load_closed. keep. Qed.
#[local] Hint Resolve keeps_load_closed : keepdb.

(** *** Waiters *)

Lemma keeps_mirror n : keeps (mirror n) (λ _, True).
Proof. apply keeps_metric. Qed.
#[local] Hint Resolve keeps_mirror : keepdb.
Lemma keeps_register id wk : keeps (register id wk) (λ _, True).
Proof. unfold register. keep. Qed.
Lemma keeps_unregister id : keeps (unregister id) (λ _, True).
Proof. unfold unregister. keep. Qed.
Lemma keeps_wake_one : keeps wake_one (λ _, True).
Proof. unfold wake_one. keep. Qed.
#[local] Hint Resolve keeps_register keeps_unregister keeps_wake_one : keepdb.
Lemma keeps_wake n : keeps (wake n) (λ _, True).
Proof. unfold wake. induction (N.to_nat n); cbn [wake_loop]; keep. Qed.
#[local] Hint Resolve keeps_wake : keepdb.
Lemma keeps_wake_all : keeps wake_all (λ _, True).
Proof. unfold wake_all. keep. Qed.
#[local] Hint Resolve keeps_wake_all : keepdb.

(** *** Slots and the idle list *)

Lemma keeps_take_slot : keeps take_slot (λ _, True).
Proof. unfold take_slot. keep. Qed.
Lemma keeps_release_slots n : keeps (release_slots n) (λ _, True).
Proof. unfold release_slots. keep. Qed.
Lemma keeps_notify n : keeps (notify n) (λ _, True).
Proof. unfold notify. keep. Qed.
#[local] Hint Resolve keeps_take_slot keeps_release_slots keeps_notify : keepdb.
Lemma keeps_release_slot : keeps release_slot (λ _, True).
Proof. unfold release_slot. keep. Qed.
Lemma keeps_push_idle c : typed_conn P c → keeps (push_idle c) (λ _, True).
Proof.
  intros Hc. unfold push_idle. eapply keeps_bind; [apply keeps_gets_idle|]. intros l Hl. cbn beta in *.
  eapply keeps_bind; [apply keeps_set_idle|keep].
  rewrite Forall_app. by repeat constructor.
Qed.
Lemma keeps_pop_idle : keeps pop_idle (typed_opt P).
Proof.
  unfold pop_idle. eapply keeps_bind; [apply keeps_gets_idle|]. intros l Hl. cbn beta in *.
  destruct (vec_pop l) as [[c rest]|] eqn:Hp; [|by apply keeps_ret].
  apply vec_pop_Some in Hp as ->. apply Forall_app in Hl as [Hr Hc].
  eapply keeps_bind; [by apply keeps_set_idle|]. intros _ _.
  eapply keeps_bind; [apply keeps_metric|]. intros _ _. apply keeps_ret.
  exact (proj1 (Forall_singleton _ _) Hc).
Qed.
#[local] Hint Resolve keeps_release_slot keeps_push_idle keeps_pop_idle : keepdb.
(** *** Guards and leases *)

Lemma keeps_drop_held h : keeps (drop_held h) (λ _, True).
Proof. unfold drop_held. keep. Qed.
#[local] Hint Resolve keeps_drop_held : keepdb.
Lemma keeps_into_pooled h : typed_held P h → keeps (into_pooled h) (typed_lease P).
Proof. intros Hh. unfold into_pooled. keep; done. Qed.
Lemma keeps_into_idle h : typed_held P h → keeps (into_idle h) (λ _, True).
Proof.
  intros Hh. unfold into_idle. eapply (keeps_bind P _ _ (λ _, True)); [|keep].
  unfold typed_held in Hh. destruct (held_conn h); keep.
Qed.
Lemma keeps_try_reserve : keeps (try_reserve cfg) (typed_guard P).
Proof. unfold try_reserve, connections. keep; done. Qed.
Lemma keeps_fresh_loop fuel t : keeps (fresh_loop cfg fuel t) (typed_guard P).
Proof.
  induction fuel as [|fuel IH]; cbn [fresh_loop]; unfold note_expired; keep; try done.
Qed.
#[local] Hint Resolve keeps_into_pooled keeps_into_idle keeps_try_reserve keeps_fresh_loop : keepdb.
Lemma keeps_pop_fresh_idle : keeps (pop_fresh_idle cfg) (typed_guard P).
Proof. unfold pop_fresh_idle. keep. Qed.
Lemma keeps_record_acquire waited start : keeps (record_acquire waited start) (λ _, True).
Proof. unfold record_acquire. keep. Qed.
Lemma keeps_ready_now : keeps (ready_now cfg) (λ _, True).
Proof. unfold ready_now, connections. keep. Qed.
#[local] Hint Resolve keeps_pop_fresh_idle keeps_record_acquire keeps_ready_now : keepdb.

Lemma keeps_reap_split t l :
  Forall (typed_conn P) l → keeps (reap_split cfg t l) (λ r, Forall (typed_conn P) r.1).
Proof.
  induction 1 as [|c l Hc Hl IH]; cbn [reap_split]; unfold note_expired; keep; simpl; try done.
  by constructor.
Qed.
Lemma keeps_reap : keeps (reap cfg) (λ _, True).
Proof.
  unfold reap. eapply keeps_bind; [apply keeps_now|]. intros t _.
  eapply keeps_bind; [apply keeps_gets_idle|]. intros l Hl. cbn beta in *.
  eapply keeps_bind; [by apply keeps_reap_split|]. intros r Hr. cbn beta in *. keep.
Qed.
Lemma keeps_clear : keeps clear (λ _, True).
Proof.
  unfold clear, note_closed_manual. keep.
Qed.
(** A lease may be dropped on anything the manager calls broken. *)
Definition returnable (c : C) : Prop := ∀ t, (has_broken t c).1 = false → P (has_broken t c).2.
Lemma typed_returnable c : P c → returnable c.
Proof. intros Hc t _. by apply typed_broken. Qed.
Lemma keeps_pooled_drop_broken p :
  match p.(pooled_conn) with Some c => returnable c.(raw) | None => True end →
  keeps (pooled_drop cfg p) (λ _, True).
Proof.
  unfold pooled_drop, note_closed_manual, note_broken, note_expired.
  destruct (pooled_conn p) as [c|]; intros Hc; [|keep].
  eapply keeps_bind; [apply keeps_load_closed|]. intros [] _; [keep|].
  eapply keeps_bind; [apply (keeps_ask P _ (λ a, a.1 = false → P a.2)); apply Hc|].
  intros [[] c'] Hc'; cbn [fst snd] in *; [keep|]. specialize (Hc' eq_refl). keep.
Qed.
Lemma keeps_pooled_drop p : typed_lease P p → keeps (pooled_drop cfg p) (λ _, True).
Proof.
  intros Hp. apply keeps_pooled_drop_broken. unfold typed_lease in Hp.
  destruct (pooled_conn p); [by apply typed_returnable|done].
Qed.
Lemma keeps_take p : typed_lease P p → keeps (Local.take cfg p) P.
Proof.
  unfold typed_lease, Local.take. destruct (pooled_conn p) as [c|] eqn:Hp; intros Hc; [|keep].
  eapply keeps_bind; [apply keeps_release_slot|]. intros _ _.
  eapply keeps_bind; [by apply keeps_pooled_drop|]. intros _ _. by apply keeps_ret.
Qed.
#[local] Hint Resolve keeps_reap keeps_clear keeps_pooled_drop : keepdb.
(** *** The futures *)

(** What a poll comes back with. *)
Definition typed_lease_result (r : result (PooledConnection C) (RunError E)) : Prop :=
  match r with Ok p => typed_lease P p | Err _ => True end.
Definition typed_try_result (r : result (option (PooledConnection C)) (RunError E)) : Prop :=
  match r with Ok (Some p) => typed_lease P p | _ => True end.
Definition typed_progress {A S} (Q : A → Prop) (Q' : S → Prop) (r : progress A S) : Prop :=
  match r with Done a => Q a | Yield s => Q' s end.
Abbreviation getting_ok := (typed_progress typed_lease_result (typed_state P)).
Abbreviation trying_ok := (typed_progress typed_try_result (typed_try P)).
Abbreviation warming_ok := (typed_progress (λ _ : result N (RunError E), True) (typed_warm P)).

Lemma keeps_poll_wait_ready wk wr : keeps (poll_wait_ready cfg wk wr) (λ _, True).
Proof. unfold poll_wait_ready. keep. Qed.
Lemma keeps_drop_wait wr : keeps (drop_wait wr) (λ _, True).
Proof. unfold drop_wait. keep. Qed.
Lemma keeps_checked_out waited start h : typed_held P h → keeps (checked_out waited start h) (typed_lease P).
Proof. intros Hh. unfold checked_out. keep. Qed.
Lemma keeps_poll_valid h : typed_held P h → keeps (poll_valid h) (λ a, typed_held P a.2).
Proof.
  unfold typed_held, poll_valid. destruct (held_conn h) as [c|]; intros Hc; [|keep].
  eapply keeps_bind; [apply (keeps_ask P _ (λ a, P a.2)); intros t; by apply typed_valid|].
  intros [a c'] Hc'. by apply keeps_ret.
Qed.
Lemma keeps_connect : keeps (ask connect) (λ a, ∀ c, a = Ready (Ok c) → P c).
Proof. apply keeps_ask. intros t c. apply typed_connect. Qed.
Lemma typed_fill h c t : P c → typed_held P (fill h c t).
Proof. done. Qed.
#[local] Hint Resolve keeps_poll_wait_ready keeps_drop_wait keeps_checked_out keeps_poll_valid
  keeps_connect typed_fill : keepdb.

Section get_inner.
Context (again : bool → St (World C) (progress (result (PooledConnection C) (RunError E)) (get_state C))).
Context (Hagain : ∀ waited, keeps (again waited) getting_ok).
#[local] Hint Resolve Hagain : keepdb.

Lemma keeps_poll_backoff first start waited : keeps (poll_backoff again first start waited) getting_ok.
Proof. unfold poll_backoff. keep; done. Qed.
Lemma keeps_poll_validate start waited h :
  typed_held P h → keeps (poll_validate again start waited h) getting_ok.
Proof. intros Hh. unfold poll_validate, note_broken. keep; done. Qed.
#[local] Hint Resolve keeps_poll_backoff keeps_poll_validate : keepdb.
Lemma keeps_poll_connect start waited h :
  typed_held P h → keeps (poll_connect cfg again start waited h) getting_ok.
Proof.
  intros Hh. unfold poll_connect, note_created. eapply keeps_bind; [apply keeps_connect|].
  intros [|[c|e]] Hc; cbn beta in *; [by apply keeps_ret|specialize (Hc c eq_refl); keep; done|keep; done].
Qed.
#[local] Hint Resolve keeps_poll_connect : keepdb.
Lemma keeps_after_wait start waited : keeps (after_wait cfg again start waited) getting_ok.
Proof. unfold after_wait. keep; try done. all: by cbn [typed_guard] in *; eauto with keepdb. Qed.
#[local] Hint Resolve keeps_after_wait : keepdb.
Lemma keeps_poll_wait wk start waited wr : keeps (poll_wait cfg again wk start waited wr) getting_ok.
Proof. unfold poll_wait. keep; done. Qed.
End get_inner.

Lemma keeps_get_loop fuel wk start waited : keeps (get_loop cfg fuel wk start waited) getting_ok.
Proof.
  revert waited. induction fuel as [|fuel IH]; intros waited; cbn [get_loop]; [keep|].
  eapply keeps_bind; [apply keeps_load_closed|]. intros [] _; [by apply keeps_ret|].
  by apply keeps_poll_wait.
Qed.
Lemma keeps_get_fuel : keeps get_fuel (λ _, True).
Proof. unfold get_fuel. keep. Qed.
#[local] Hint Resolve keeps_get_loop keeps_get_fuel keeps_poll_wait keeps_poll_validate
  keeps_poll_connect keeps_poll_backoff : keepdb.
Definition typed_some (s : option (get_state C)) : Prop := match s with Some s => typed_state P s | None => True end.
Lemma keeps_poll_get_inner wk s : typed_some s → keeps (poll_get_inner cfg wk s) getting_ok.
Proof.
  intros Hs. unfold poll_get_inner. destruct s as [s|]; [|keep].
  eapply keeps_bind; [apply keeps_get_fuel|]. intros fuel _. destruct s; simpl in Hs; keep.
Qed.
Lemma keeps_drop_get_inner s : keeps (drop_get_inner s) (λ _, True).
Proof. destruct s; simpl; keep. Qed.
#[local] Hint Resolve keeps_poll_get_inner keeps_drop_get_inner : keepdb.

Abbreviation get_ok_progress := (typed_progress typed_lease_result (typed_get P)).
Lemma keeps_timed_out : keeps get_timed_out_now get_ok_progress.
Proof. unfold get_timed_out_now. keep; done. Qed.
#[local] Hint Resolve keeps_timed_out : keepdb.
Lemma keeps_poll_timed wk s : typed_some s → keeps (poll_timed cfg wk s) get_ok_progress.
Proof.
  intros Hs. unfold poll_timed. eapply keeps_bind; [apply keeps_ask_any|]. intros v _.
  assert (Hin : keeps (r ← poll_get_inner cfg wk s;
    match r, v with
    | Done a, _ => mret (Done a)
    | Yield s', Fires_after => drop_get_inner s';; get_timed_out_now
    | Yield s', _ => mret (Yield (GetTimed s'))
    end) get_ok_progress).
  { eapply keeps_bind; [by apply keeps_poll_get_inner|]. intros [a|s'] Hr; cbn beta in *; [by apply keeps_ret|].
    destruct v; keep; done. }
  destruct v; [exact Hin| |exact Hin]. keep.
Qed.
#[local] Hint Resolve keeps_poll_timed : keepdb.
Lemma keeps_poll_get wk f : typed_get P f → keeps (poll_get cfg wk f) get_ok_progress.
Proof.
  intros Hf. destruct f as [|s]; cbn [poll_get]; [|by apply keeps_poll_timed].
  eapply keeps_bind; [apply keeps_load_closed|]. intros [] _; [by apply keeps_ret|].
  eapply (keeps_bind P _ _ (typed_guard P)); [case_match; keep; done|].
  intros [h|] Hh; cbn beta in *; [|by apply keeps_poll_timed]. cbn in Hh. keep; done.
Qed.
Lemma keeps_drop_get f : keeps (drop_get f) (λ _, True).
Proof. destruct f; simpl; keep. Qed.

Section try_get.
Context (again : St (World C) (progress (result (option (PooledConnection C)) (RunError E)) (try_fut C))).
Context (Hagain : keeps again trying_ok).
Lemma keeps_try_validate h : typed_held P h → keeps (try_validate again h) trying_ok.
Proof. intros Hh. unfold try_validate, note_broken. keep; done. Qed.
End try_get.
Lemma keeps_try_connect h : typed_held P h → keeps (try_connect h) trying_ok.
Proof.
  intros Hh. unfold try_connect, note_created. eapply keeps_bind; [apply keeps_connect|].
  intros [|[c|e]] Hc; cbn beta in *; [by apply keeps_ret|specialize (Hc c eq_refl); keep; done|keep; done].
Qed.
#[local] Hint Resolve keeps_try_validate keeps_try_connect : keepdb.
Lemma keeps_try_loop fuel : keeps (try_loop cfg fuel) trying_ok.
Proof.
  induction fuel as [|fuel IH]; cbn [try_loop]; [keep|].
  eapply keeps_bind; [apply keeps_pop_fresh_idle|]. intros [h|] Hh; cbn in Hh; [keep; done|].
  eapply keeps_bind; [apply keeps_try_reserve|]. intros [h|] Hh'; cbn in Hh'; keep; done.
Qed.
#[local] Hint Resolve keeps_try_loop : keepdb.
Lemma keeps_poll_try f : typed_try P f → keeps (poll_try cfg f) trying_ok.
Proof. intros Hf. destruct f; cbn [poll_try]; simpl in Hf; keep; done. Qed.
Lemma keeps_drop_try f : keeps (drop_try f) (λ _, True).
Proof. destruct f; simpl; keep. Qed.

Section warm.
Context (again : N → St (World C) (progress (result N (RunError E)) (warm_fut C))).
Context (Hagain : ∀ made, keeps (again made) warming_ok).
#[local] Hint Resolve Hagain : keepdb.
Lemma keeps_poll_dial made h : typed_held P h → keeps (poll_dial cfg again made h) warming_ok.
Proof.
  intros Hh. unfold poll_dial, note_created. eapply keeps_bind; [apply keeps_ask_any|]. intros v _.
  assert (Hrest : ∀ a, (∀ c, a = Ready (Ok c) → P c) → keeps
    (match a, v with
     | Ready (Ok raw), _ =>
         t ← now; metric (count ConnectionsCreated 1);; into_idle (fill h raw t);;
         made ← lift (add_u U32 made 1); again made
     | Ready (Err e), _ => drop_held h;; mret (Done (Err (User e)))
     | Pending, Fires_after => drop_held h;; mret (Done (Err TimedOut))
     | Pending, _ => mret (Yield (WarmDial made h))
     end) warming_ok).
  { intros [|[c|e]] Hc; [destruct v; keep; done|specialize (Hc c eq_refl); keep; done|keep; done]. }
  destruct v; [| |].
  1,3: eapply keeps_bind; [apply keeps_connect|]; intros a Ha; cbn beta in *; by apply Hrest.
  keep; done.
Qed.
End warm.
#[local] Hint Resolve keeps_poll_dial : keepdb.
Lemma keeps_warm_loop fuel made : keeps (warm_loop cfg fuel made) warming_ok.
Proof.
  revert made. induction fuel as [|fuel IH]; intros made; cbn [warm_loop]; [keep|].
  unfold idle_len. eapply (keeps_bind P _ _ (λ _, True)); [keep|]. intros n _. case_match; [|by apply keeps_ret].
  eapply keeps_bind; [apply keeps_try_reserve|]. intros [h|] Hh; cbn in Hh; keep; done.
Qed.
#[local] Hint Resolve keeps_warm_loop : keepdb.
Lemma keeps_warm_fuel : keeps (warm_fuel cfg) (λ _, True).
Proof. unfold warm_fuel. keep. Qed.
#[local] Hint Resolve keeps_warm_fuel : keepdb.
Lemma keeps_warm_start : keeps (warm_start cfg) warming_ok.
Proof. unfold warm_start. keep; done. Qed.
#[local] Hint Resolve keeps_warm_start : keepdb.
Lemma keeps_poll_warm f : typed_warm P f → keeps (poll_warm cfg f) warming_ok.
Proof. intros Hf. destruct f; cbn [poll_warm]; simpl in Hf; keep; done. Qed.
Lemma keeps_drop_warm f : keeps (drop_warm f) (λ _, True).
Proof. destruct f; simpl; keep. Qed.

(** *** The system *)

Abbreviation task_typed := (typed_progress (typed_answer (E:=E) P) (typed_task P)).
Lemma keeps_poll_task i t : typed_task P t → keeps (poll_task cfg i t) task_typed.
Proof.
  destruct t as [f|f|f]; intros Hf; cbn [poll_task].
  - eapply keeps_bind; [by apply keeps_poll_get|]. intros [[p|e]|f'] Hr; by apply keeps_ret.
  - eapply keeps_bind; [by apply keeps_poll_try|]. intros [[[p|]|e]|f'] Hr; by apply keeps_ret.
  - eapply keeps_bind; [by apply keeps_poll_warm|]. intros [[p|e]|f'] Hr; by apply keeps_ret.
Qed.
Lemma keeps_drop_task t : keeps (drop_task t) (λ _, True).
Proof. destruct t; [apply keeps_drop_get|apply keeps_drop_try|apply keeps_drop_warm]. Qed.

Implicit Types s : Sys C E.

Lemma settle_typed s i r w :
  typed_sys P s → typed_world P w → task_typed r → typed_sys P (settle i s r w).
Proof.
  intros [] Hw Hr. destruct r as [[p| |n|e]|t]; simpl in *; split; simpl; try done;
    try (by apply map_Forall_delete); try (by apply map_Forall_insert_2);
    apply Forall_app; by repeat constructor.
Qed.

Lemma run_on_typed {A} (c : St (World C) A) k (Q : A → Prop) s s' :
  typed_sys P s → keeps c Q → (∀ a w, typed_world P w → Q a → typed_sys P (k a w)) →
  run_on c k s = Val s' → typed_sys P s'.
Proof.
  intros Hs Hc Hk Hr. unfold run_on in Hr. specialize (Hc _ (ty_world _ _ Hs)).
  destruct (c (world s)) as [[a w]| |]; simplify_eq. destruct Hc. by apply Hk.
Qed.

Lemma exec_typed a s s' :
  typed_sys P s → typed_action P a → exec cfg a s = Some (Val s') → typed_sys P s'.
Proof.
  intros Hs Ha Hex. pose proof Hs as [Hw Ht Hl Han].
  destruct a as [i k|i|i|i|i|i c| | |]; simpl in Hex;
    try apply bind_Some in Hex as (x & Hx & Hex); try injection Hex as Hex.
  - repeat case_match; simplify_eq. split; try done. apply map_Forall_insert_2; [by destruct k|done].
  - eapply run_on_typed; [done|apply keeps_poll_task, (Ht i x Hx)| |exact Hex].
    intros r w ??. by apply settle_typed.
  - eapply run_on_typed; [done|apply keeps_drop_task| |exact Hex].
    intros r w ??. split; simpl; try done. by apply map_Forall_delete.
  - eapply run_on_typed; [done|apply keeps_pooled_drop, (Hl i x Hx)| |exact Hex].
    intros r w ??. split; simpl; try done. by apply map_Forall_delete.
  - eapply run_on_typed; [done|apply keeps_take, (Hl i x Hx)| |exact Hex].
    intros r w ??. split; simpl; try done. by apply map_Forall_delete.
  - eapply (run_on_typed _ _ (typed_lease P)); [done| | |exact Hex].
    + apply keeps_lift. unfold deref_mut. destruct (pooled_conn x); [|done]. by intros p [= <-].
    + intros p w ??. split; simpl; try done. by apply map_Forall_insert_2.
  - eapply run_on_typed; [done|apply keeps_reap| |exact Hex]. by intros r w ??.
  - eapply run_on_typed; [done|apply keeps_clear| |exact Hex]. by intros r w ??.
  - subst s'. split; try done. by destruct (world s).
Qed.
End operations.

(** ** The theorem *)

(** Runs in which the holders of leases leave typed connections behind. *)
Inductive typed_run {C E} {F : Features} {R : Runtime} {M : ManageConnection C E} (P : C → Prop) cfg :
    Sys C E → Prop :=
| typed_start c t : typed_run P cfg (sys_init c t)
| typed_step s a s' :
    typed_run P cfg s → typed_action P a → exec cfg a s = Some (Val s') → typed_run P cfg s'.

(** Type soundness of the pool.  If dialling brings connections with a property and neither
    the manager's checks nor the holders of leases take it away, every connection of the thread
    has it, in every state a run can reach: those idle, those leased (so what a lease derefs to),
    those in the hands of a suspended call, and those ever answered. *)
Theorem pool_type_sound {C E} {F : Features} {R : Runtime} {M : ManageConnection C E} (P : C → Prop)
    cfg (s : Sys C E) :
  TypedManager M P → typed_run P cfg s →
  typed_sys P s ∧ ∀ i p c, s.(leases) !! i = Some p → deref p = Val c → P c.
Proof.
  intros TM Hrun. assert (Hs : typed_sys P s).
  { induction Hrun as [c t|s a s' _ IH Ha Hex]; [|by eapply exec_typed].
    split; simpl; try constructor; by intros i x; rewrite lookup_empty. }
  split; [done|]. intros i p c Hi Hd. pose proof (ty_leases _ _ Hs i p Hi) as Hp.
  unfold deref in Hd. unfold typed_lease, typed_opt in Hp. destruct (pooled_conn p); simplify_eq. done.
Qed.

(** ** Buffers keep their room

    [mem::take] leaves an empty buffer behind a lease for as long as the connection is read, so
    a server that forgot to give the buffer back would pool buffers with no room, and the next
    connection's first read would look like the peer closing. *)

Definition roomy (n : N) (v : Vec) : Prop := v.(capacity) = n.

#[export] Instance buffers_typed n : TypedManager (BuffersOf n) (roomy n).
Proof. split; [by intros t c [= <-]|done..]. Qed.

#[local] Existing Instances demo_features plain_runtime echo_buffers script_tcp.

(** A run of the echo server: a buffer is leased, serves a connection, and goes back. *)
Definition served_buffer : Vec :=
  match serve 4 (Some (with_capacity (16 * 1024))) echo_client with
  | Val (Some v, _) => v
  | _ => with_capacity 0
  end.
Definition echo_run : list (action Vec) :=
  [Spawn 0 CallGet; PollTask 0; WriteLease 0 served_buffer; DropLease 0].

Lemma typed_run_acts {C E} {F : Features} {R : Runtime} {M : ManageConnection C E} (P : C → Prop)
    cfg acts (s s' : Sys C E) :
  typed_run P cfg s → Forall (typed_action P) acts → run cfg acts s = Some s' → typed_run P cfg s'.
Proof.
  intros Hs Hacts. revert s Hs. induction Hacts as [|a acts Ha Hacts IH]; intros s Hs Hr; simpl in Hr.
  { by simplify_eq. }
  case_decide; [|done]. destruct (exec cfg a s) as [[s1| |]|] eqn:He; try done.
  apply (IH s1); [|done]. by eapply typed_step.
Qed.

Lemma pool_type_sound_witness :
  let s := default (sys_init false 0) (run demo_config echo_run (sys_init false 0)) in
  capacity ∘ raw <$> s.(world).(idle) = [16384] ∧
  typed_sys (roomy (16 * 1024)) s ∧
  ∀ i p c, s.(leases) !! i = Some p → deref p = Val c → roomy (16 * 1024) c.
Proof.
  intros s. split; [vm_compute; reflexivity|].
  apply (pool_type_sound (roomy (16 * 1024)) demo_config s); [apply (buffers_typed (16 * 1024))|].
  apply (typed_run_acts _ _ echo_run (sys_init false 0)); [apply typed_start| |].
  - repeat constructor.
  - vm_compute. reflexivity.
Defined.
