(* ===== verification/Sessions.v ===== *)
(** A server on one thread's pool: it accepts connections at any time and gives each to a
    task of its own, which borrows from the pool: one thing for as long as the connection
    lasts ([serve] of [src/examples/echo.rs], [wal.rs]), or one for each request
    ([tcp_pool.rs], [http_proxy.rs]).

    What a session does between two await points is the class [Guest]; a server of any of
    them is a program on the pool ([Clients]). *)

From stdpp Require Import gmap.
From S2P Require Import Prelude Manage Builder Metrics Store Waiters Inner Local Futures Balance System Scenario Custody Safety Clients Text Echo Typing.

(** ** Sessions *)

(** How a stretch of a session's code ends, up to its next await point.  Without a lease: at
    an await, calling [local.get()], or by returning. *)
Inductive want (S : Type) := Go_on (s : S) | Ask_for (s : S) | Leave (s : S).
Arguments Go_on {S} _.
Arguments Ask_for {S} _.
Arguments Leave {S} _.
(** With one: at an await, dropping the lease on the way or not, or by returning. *)
Inductive stay (S : Type) := Keep (s : S) | Give_back (s : S) | Finish (s : S).
Arguments Keep {S} _.
Arguments Give_back {S} _.
Arguments Finish {S} _.

(** The stretches of the code of a session in state [S] that borrows [C]s; [turned_away] is
    what it does when [get] fails, and whether it has then returned. *)
Class Guest (C S : Type) := {
  outside : S → outcome (want S);
  turned_away : S → S * bool;
  inside : S → C → outcome (stay S * C)
}.

(** Where a session's task is; [c0] is what it was lent. *)
Inductive place (C S : Type) : Type :=
| Outside (s : S)
| Asking (s : S)
| Inside (c0 : C) (s : S)
| Gone (s : S).
Arguments Outside {C S} _.
Arguments Asking {C S} _.
Arguments Inside {C S} _ _.
Arguments Gone {C S} _.

(** A session: the connection as it was accepted, what each of its [get]s so far brought (what
    was lent and what it was when the lease dropped, or nothing), and where it is. *)
Record visit (C S : Type) := mkVisit {
  came : S;
  loans : list (option (C * C));
  at_ : place C S
}.
Arguments mkVisit {C S} _ _ _.
Arguments came {C S} _.
Arguments loans {C S} _.
Arguments at_ {C S} _.

Record Server (C E S : Type) := mkServer { sv_pool : Sys C E; sessions : gmap nat (visit C S) }.
Arguments mkServer {C E S} _ _.
Arguments sv_pool {C E S} _.
Arguments sessions {C E S} _.

#[export] Instance server_host {C E S} : PoolHost (Server C E S) C E :=
  {| pool_of := sv_pool; with_pool s v := mkServer s v.(sessions) |}.
#[export] Instance server_host_laws {C E S} : PoolHostLaws (@server_host C E S).
Proof. by split. Qed.

Section server.
Context {C E S : Type} {F : Features} {R : Runtime} {M : ManageConnection C E} {G : Guest C S}.
Context (cfg : PoolConfig).
Abbreviation server := (Server C E S).

Definition set_visit (k : nat) (x : visit C S) : St server unit :=
  modify (λ v, mkServer v.(sv_pool) (<[k := x]> v.(sessions))).

(** Session [k], lent [c0], runs to its next await point; the lease is dropped where it says. *)
Definition run_inside (k : nat) (s0 : S) (l : list (option (C * C))) (c0 : C) (s : S) : St server unit :=
  r ← on_lease cfg k (λ c, r ← inside s c; Val (r, r.2));
  match r.1 with
  | Keep s' => set_visit k (mkVisit s0 l (Inside c0 s'))
  | Give_back s' => act cfg (DropLease k);; set_visit k (mkVisit s0 (l ++ [Some (c0, r.2)]) (Outside s'))
  | Finish s' => act cfg (DropLease k);; set_visit k (mkVisit s0 (l ++ [Some (c0, r.2)]) (Gone s'))
  end.

(** [local.get().await], polled. *)
Definition ask (k : nat) (s0 : S) (l : list (option (C * C))) (s : S) : St server unit :=
  act cfg (PollTask k);;
  p ← gets sv_pool;
  match p.(leases) !! k, p.(tasks) !! k with
  | Some lease, _ => c0 ← lift (deref lease); run_inside k s0 l c0 s
  | None, Some _ => set_visit k (mkVisit s0 l (Asking s))
  | None, None =>
      let '(s', over) := turned_away s in
      set_visit k (mkVisit s0 (l ++ [None]) (if over : bool then Gone s' else Outside s'))
  end.

(** One poll of session [k]'s task. *)
Definition session (k : nat) : St server unit :=
  v ← gets sessions;
  match v !! k with
  | Some (mkVisit s0 l p) =>
      match p with
      | Outside s =>
          w ← lift (outside s);
          match w with
          | Go_on s' => set_visit k (mkVisit s0 l (Outside s'))
          | Ask_for s' => act cfg (Spawn k CallGet);; ask k s0 l s'
          | Leave s' => set_visit k (mkVisit s0 l (Gone s'))
          end
      | Asking s => ask k s0 l s
      | Inside c0 s => run_inside k s0 l c0 s
      | Gone _ => skip
      end
  | None => skip
  end.

(** The accept loop hands a connection to a new task. *)
Definition accept (k : nat) (s0 : S) (v : server) : server :=
  mkServer v.(sv_pool) (<[k := mkVisit s0 [] (Outside s0)]> v.(sessions)).

Definition server_room (v : server) : Prop := v.(sv_pool).(world).(waiters).(next_id) + 1 < U64.

(** [opens] says which connections arrive. *)
Inductive server_reachable (opens : S → Prop) : server → Prop :=
| server_start c t : server_reachable opens (mkServer (sys_init c t) ∅)
| server_accept v k s0 :
    server_reachable opens v → v.(sessions) !! k = None → opens s0 →
    server_reachable opens (accept k s0 v)
| server_poll v k v' :
    server_reachable opens v → server_room v → session k v = Val (tt, v') →
    server_reachable opens v'.
End server.

(** ** A session by itself *)

(** Where a session is when it has the thread to itself, its lease in its hands. *)
Inductive spot (C S : Type) := Without (s : S) | Wants (s : S) | Within (c0 : C) (s : S) (c : C) | Ended (s : S).
Arguments Without {C S} _.
Arguments Wants {C S} _.
Arguments Within {C S} _ _ _.
Arguments Ended {C S} _.

Section alone.
Context {C S : Type} {G : Guest C S}.
(** What the pool may lend it. *)
Context (lends : C → Prop).
Abbreviation loan := (option (C * C)).

(** One stretch of its code, and the loan it ends, if any; the pool lends what it likes of
    that, or nothing. *)
Inductive moves_on : spot C S → option loan → spot C S → Prop :=
| out_on s s' : outside s = Val (Go_on s') → moves_on (Without s) None (Without s')
| out_asks s s' : outside s = Val (Ask_for s') → moves_on (Without s) None (Wants s')
| out_leaves s s' : outside s = Val (Leave s') → moves_on (Without s) None (Ended s')
| lent s c : lends c → moves_on (Wants s) None (Within c s c)
| refused_on s s' : turned_away s = (s', false) → moves_on (Wants s) (Some None) (Without s')
| refused_leaves s s' : turned_away s = (s', true) → moves_on (Wants s) (Some None) (Ended s')
| in_keeps c0 s c s' c' : inside s c = Val (Keep s', c') → moves_on (Within c0 s c) None (Within c0 s' c')
| in_gives c0 s c s' c' :
    inside s c = Val (Give_back s', c') → moves_on (Within c0 s c) (Some (Some (c0, c'))) (Without s')
| in_finishes c0 s c s' c' :
    inside s c = Val (Finish s', c') → moves_on (Within c0 s c) (Some (Some (c0, c'))) (Ended s').

(** From [p] to [q], and the loans ended on the way. *)
Inductive way (p : spot C S) : list loan → spot C S → Prop :=
| way_here : way p [] p
| way_more l q e r : way p l q → moves_on q e r → way p (l ++ option_list e) r.

Lemma way_trans p l q l' r : way p l q → way q l' r → way p (l ++ l') r.
Proof.
  intros Hp. induction 1 as [|l' q' e r _ IH Hm]; [by rewrite app_nil_r|].
  rewrite app_assoc. by eapply way_more.
Qed.
Lemma way_step p e q l r : moves_on p e q → way q l r → way p (option_list e ++ l) r.
Proof. intros Hm. apply way_trans. apply (way_more p [] p e q); [constructor|done]. Qed.

End alone.

(** What each [get] of a session brought, one more finding nothing; and what was given back. *)
Definition lent_by {C} (l : list (option (C * C))) : list (option C) := ((λ o : option (C * C), fst <$> o) <$> l) ++ [None].
Definition given_back {C} (l : list (option (C * C))) : list C := omap (λ o : option (C * C), snd <$> o) l.
Lemma lent_by_cons {C} (l : list (option (C * C))) : ∃ lease tl, lent_by l = lease :: tl.
Proof. destruct l; unfold lent_by; simpl; eauto. Qed.

(** Induction on a session that ends, from its end backwards. *)
Lemma way_ind_front {C S} {G : Guest C S} (lends : C → Prop) (P : spot C S → list (option (C * C)) → spot C S → Prop) :
  (∀ r, P r [] r) →
  (∀ p e q l r, moves_on lends p e q → way lends q l r → P q l r → P p (option_list e ++ l) r) →
  ∀ p l r, way lends p l r → P p l r.
Proof.
  intros Hnil Hcons p l r Hw.
  enough (Hgen : ∀ l' t, way lends r l' t → P r l' t → P p (l ++ l') t).
  { specialize (Hgen [] r (way_here lends r) (Hnil r)). by rewrite app_nil_r in Hgen. }
  induction Hw as [|l q e r Hw IH Hm]; intros l' t Ht HP; [done|].
  rewrite <-app_assoc. apply IH; [by eapply way_step|by apply (Hcons _ _ r)].
Qed.

(** A session that has something on loan ends that loan first. *)
Lemma way_loan {C S} {G : Guest C S} (lends : C → Prop) p l r : way lends p l r → ∀ s', r = Ended s' →
  match p with Within c0 _ _ => ∃ c' l', l = Some (c0, c') :: l' | _ => True end.
Proof.
  revert p l r. refine (way_ind_front lends _ _ _); [by intros r s' ->|].
  intros p e q l r Hm _ IH s' ->. specialize (IH s' eq_refl). destruct Hm; simpl; eauto.
Qed.

(** A session in its call of [get]: either answer suits it. *)
Definition wanting {C S} {G : Guest C S} (good : C → Prop) (fit : S → option C → Prop)
    (closer : relation (S * option C)) (s : S) : Prop :=
  (∀ c, good c → fit s (Some c) ∧ closer (s, Some c) (s, None)) ∧
  ((turned_away s).2 = false → fit (turned_away s).1 None ∧ closer ((turned_away s).1, None) (s, None)).

(** What a session needs of what it borrows.  [fit] is its invariant, with the loan if it has
    one; [good] things are lent, and good things or things the manager calls broken come back;
    each stretch of it succeeds and brings it closer to its end. *)
Class GuestLaws {C E S} (M : ManageConnection C E) (G : Guest C S) (opens : S → Prop) (good : C → Prop) := {
  fit : S → option C → Prop;
  closer : relation (S * option C);
  closer_wf : well_founded closer;
  closer_trans : Transitive closer;
  fit_opens s : opens s → fit s None;
  fit_outside s : fit s None → ∃ w, outside s = Val w ∧
    match w with
    | Go_on s' => fit s' None ∧ closer (s', None) (s, None)
    | Ask_for s' => wanting good fit closer s' ∧ closer (s', None) (s, None)
    | Leave _ => True
    end;
  fit_inside s c : fit s (Some c) → ∃ r c', inside s c = Val (r, c') ∧
    match r with
    | Keep s' => fit s' (Some c') ∧ closer (s', Some c') (s, Some c)
    | Give_back s' => returnable good c' ∧ fit s' None ∧ closer (s', None) (s, Some c)
    | Finish _ => returnable good c'
    end
}.
#[global] Hint Mode GuestLaws - - - - ! - - : typeclass_instances.
#[export] Existing Instance closer_trans.

(** Closeness by a count of what is left to do. *)
Definition fewer_left {A} (f : A → nat) : relation A := λ x y, (f x < f y)%nat.
Lemma fewer_left_wf {A} (f : A → nat) : well_founded (fewer_left f).
Proof. apply well_founded_ltof. Qed.
#[export] Instance fewer_left_trans {A} (f : A → nat) : Transitive (fewer_left f).
Proof. intros x y z. unfold fewer_left. lia. Qed.

(** The same when a step may add to one count to lower another. *)
Definition fewer_then {A} (f g : A → nat) : relation A := λ x y,
  (f x < f y)%nat ∨ f x = f y ∧ (g x < g y)%nat.
Lemma fewer_then_wf {A} (f g : A → nat) : well_founded (fewer_then f g).
Proof.
  intros x. remember (f x) as n eqn:Hn. revert x Hn. induction (lt_wf n) as [n _ IHn]. intros x.
  remember (g x) as m eqn:Hm. revert x Hm. induction (lt_wf m) as [m _ IHm]. intros x Hm Hn.
  constructor. intros y [Hy|[Hy Hy']]; [by eapply (IHn (f y)); [lia|]|].
  apply (IHm (g y)); [lia|done|congruence].
Qed.
#[export] Instance fewer_then_trans {A} (f g : A → nat) : Transitive (fewer_then f g).
Proof. intros x y z. unfold fewer_then. lia. Qed.

(** ** What the pool does with good things *)

Section good.
Context {C E : Type} {F : Features} {R : Runtime} {M : ManageConnection C E}.
Context (P : C → Prop) {TM : TypedManager M P} (cfg : PoolConfig).
Implicit Types s : Sys C E.

(** All that is not leased is good. *)
Definition stocked s : Prop := typed_world P s.(world) ∧ map_Forall (λ _ t, typed_task P t) s.(tasks).

Lemma stocked_poll s k s' :
  stocked s → exec cfg (PollTask k) s = Some (Val s') →
  stocked s' ∧ (s'.(leases) = s.(leases) ∨ ∃ p, s'.(leases) = <[k := p]> s.(leases) ∧ typed_lease P p).
Proof.
  intros [Hw Ht] Hex. cbn [exec] in Hex. apply bind_Some in Hex as (t & Hk & Hex). apply (inj Some) in Hex.
  unfold run_on in Hex. pose proof (keeps_poll_task P cfg k t (Ht k t Hk) _ Hw) as Hp.
  destruct (poll_task cfg k t (world s)) as [[r w]| |]; [|done..]. injection Hex as <-.
  destruct Hp as [Hw' Hr]. destruct r as [[p| |n|e]|t']; simpl in *;
    (split; [split; simpl; [done|]|eauto]); try (by apply map_Forall_delete).
  by apply map_Forall_insert_2.
Qed.

Lemma stocked_drop s k conn s' :
  stocked s → s.(leases) !! k = Some (mkPooled (Some conn)) → returnable P conn.(raw) →
  exec cfg (DropLease k) s = Some (Val s') → stocked s'.
Proof.
  intros [Hw Ht] Hk Hp Hex. cbn [exec] in Hex. rewrite Hk in Hex. simpl in Hex. apply (inj Some) in Hex.
  unfold run_on in Hex. pose proof (keeps_pooled_drop_broken P cfg (mkPooled (Some conn)) Hp _ Hw) as Hd.
  destruct (pooled_drop cfg _ (world s)) as [[r w]| |]; [|done..]. injection Hex as <-. by destruct Hd.
Qed.

Lemma stocked_spawn s k c s' : stocked s → exec cfg (Spawn k c) s = Some (Val s') → stocked s'.
Proof.
  intros [Hw Ht] Hex. cbn [exec] in Hex. repeat case_match; simplify_eq. split; [done|].
  apply map_Forall_insert_2; [by destruct c|done].
Qed.
End good.

(** ** The books of the server *)

(** Session [k] has moved, and is over or closer to its end than [x]; the others are where they
    were, with the calls and the leases they had. *)
Definition advanced {C E S} (closer : relation (S * option C)) (k : nat) (x : S * option C)
    (v v' : Server C E S) : Prop :=
  moves k v.(sv_pool) v'.(sv_pool) ∧
  ∃ y, v'.(sessions) = <[k := y]> v.(sessions) ∧
    match y.(at_) with
    | Gone _ => True
    | Outside s' | Asking s' => closer (s', None) x
    | Inside _ s' => ∃ conn, v'.(sv_pool).(leases) !! k = Some (mkPooled (Some conn)) ∧
        closer (s', Some conn.(raw)) x
    end.
Lemma advanced_trans {C E S} (closer : relation (S * option C)) `{!Transitive closer} k x y
    (v v1 v' : Server C E S) :
  v1.(sessions) = v.(sessions) → moves k v.(sv_pool) v1.(sv_pool) →
  closer y x → advanced closer k y v1 v' → advanced closer k x v v'.
Proof.
  intros Hs Hm Hc (Hm' & z & He & Hz). rewrite Hs in He.
  split; [by eapply moves_trans|]. exists z. split; [done|].
  destruct (at_ z) as [s'|s'|c0 s'|s']; [by etransitivity|by etransitivity| |done].
  destruct Hz as (conn & ? & ?). exists conn. split; [done|by etransitivity].
Qed.

(** What a poll of session [k]'s task does, wherever the session is: it ends the session or brings
    it closer to its end, or leaves it parked in its call of [get].  A task that is over, or is not
    there, is not polled. *)
Definition after_poll {C E S} (closer : relation (S * option C)) (k : nat) (v v' : Server C E S) : Prop :=
  match at_ <$> v.(sessions) !! k with
  | Some (Outside s) => advanced closer k (s, None) v v'
  | Some (Inside _ s) => ∃ conn, v.(sv_pool).(leases) !! k = Some (mkPooled (Some conn)) ∧
      advanced closer k (s, Some conn.(raw)) v v'
  | Some (Asking s) => advanced closer k (s, None) v v' ∨
      moves k v.(sv_pool) v'.(sv_pool) ∧ v'.(sessions) = v.(sessions) ∧ is_Some (v'.(sv_pool).(tasks) !! k)
  | Some (Gone _) | None => v' = v
  end.

Section spec.
Context {C E S : Type} {F : Features} {R : Runtime} {RL : RuntimeLaws R} {M : ManageConnection C E} {G : Guest C S}.
Context (opens : S → Prop) (good : C → Prop) {GL : GuestLaws M G opens good} {TM : TypedManager M good}.
Context (cfg : PoolConfig) (Hcfg : config_ok cfg).
Abbreviation server := (Server C E S).
Implicit Types v : server.

Definition loan_ok (o : option (C * C)) : Prop :=
  match o with Some (c0, c') => good c0 ∧ returnable good c' | None => True end.

(** How a session got where it is: alone, with the loans it has had. *)
Definition came_by (x : visit C S) (q : spot C S) : Prop :=
  opens x.(came) ∧ Forall loan_ok x.(loans) ∧ way good (Without x.(came)) x.(loans) q.
Definition nothing (s : Sys C E) (k : nat) : Prop := s.(tasks) !! k = None ∧ s.(leases) !! k = None.

(** What session [k] has in the pool. *)
Definition sess_placed (s : Sys C E) (k : nat) (o : option (visit C S)) : Prop :=
  match o with
  | None => nothing s k
  | Some x =>
      match x.(at_) with
      | Outside y => came_by x (Without y) ∧ fit y None ∧ nothing s k
      | Asking y => came_by x (Wants y) ∧ wanting good fit closer y ∧ (∃ g, s.(tasks) !! k = Some (TGet g)) ∧ s.(leases) !! k = None
      | Inside c0 y => good c0 ∧ s.(tasks) !! k = None ∧ ∃ conn,
          s.(leases) !! k = Some (mkPooled (Some conn)) ∧ fit y (Some conn.(raw)) ∧ came_by x (Within c0 y conn.(raw))
      | Gone y => came_by x (Ended y) ∧ nothing s k
      end
  end.

(** All but session [k] in their places. *)
Record beside (k : option nat) v : Prop := {
  be_pool : reachable cfg v.(sv_pool);
  be_stock : stocked good v.(sv_pool);
  be_placed j : Some j ≠ k → sess_placed v.(sv_pool) j (v.(sessions) !! j)
}.
Abbreviation server_inv := (beside None).

Lemma sess_placed_moves k s s' j o :
  moves k s s' → j ≠ k → sess_placed s j o → sess_placed s' j o.
Proof. intros Hm Hj. destruct (Hm j Hj) as [Ht Hl]. unfold sess_placed, nothing. by rewrite Ht, Hl. Qed.

Lemma beside_moves k v s' :
  beside (Some k) v → reachable cfg s' → stocked good s' → moves k v.(sv_pool) s' →
  beside (Some k) (with_pool s' v).
Proof.
  intros [] Hs Hst Hm. split; simpl; [done..|]. intros j Hj.
  eapply sess_placed_moves; [exact Hm|congruence|by apply be_placed0].
Qed.

Lemma beside_weaken k v : server_inv v → beside (Some k) v.
Proof. intros []. by split; auto. Qed.

(** Session [k] moves on to [x]. *)
Lemma beside_set k v x :
  beside (Some k) v → sess_placed v.(sv_pool) k (Some x) →
  server_inv (mkServer v.(sv_pool) (<[k := x]> v.(sessions))).
Proof.
  intros [] Hp. split; simpl; [done..|]. intros j _. destruct (decide (j = k)) as [->|Hj].
  - by rewrite lookup_insert_eq.
  - rewrite lookup_insert_ne by done. apply be_placed0. congruence.
Qed.

Lemma came_by_step s0 l p q p' e q' :
  came_by (mkVisit s0 l p) q → moves_on good q e q' → Forall loan_ok (option_list e) →
  came_by (mkVisit s0 (l ++ option_list e) p') q'.
Proof.
  intros (Ho & Hl & Hw) Hm He. split_and!; [done|by apply Forall_app|by eapply way_more].
Qed.
Lemma came_by_quiet s0 l p q p' q' :
  came_by (mkVisit s0 l p) q → moves_on good q None q' → came_by (mkVisit s0 l p') q'.
Proof. intros Hb Hm. rewrite <-(app_nil_r l). by eapply (came_by_step _ _ _ _ _ None). Qed.
Lemma came_by_retold s0 l p q p' : came_by (mkVisit s0 l p) q → came_by (mkVisit s0 l p') q.
Proof. done. Qed.

Abbreviation advanced := (advanced closer).

Lemma run_inside_spec k s0 l c0 x conn p v :
  beside (Some k) v → good c0 → v.(sv_pool).(tasks) !! k = None →
  v.(sv_pool).(leases) !! k = Some (mkPooled (Some conn)) → fit x (Some conn.(raw)) →
  came_by (mkVisit s0 l p) (Within c0 x conn.(raw)) →
  wp (run_inside cfg k s0 l c0 x) (λ _ v', server_inv v' ∧ advanced k (x, Some conn.(raw)) v v') v.
Proof.
  intros HB Hg Ht Hl Hfit Hby. unfold run_inside. wp_step.
  destruct (fit_inside x conn.(raw) Hfit) as (r & c' & Hv & Hnext).
  apply (wp_on_lease cfg Hcfg k conn); [apply HB|done|].
  unfold wp at 1. rewrite Hv. cbn [mbind outcome_bind fst snd]. intros s1 -> Hs1. cbn [fst snd].
  set (s1 := mkSys _ _ _ _) in *. set (conn' := mkConn c' conn.(created_at) conn.(last_used)) in *.
  assert (HB1 : beside (Some k) (with_pool s1 v)).
  { apply beside_moves; [done..|apply HB|]. intros j Hj. simpl. by rewrite lookup_insert_ne by done. }
  assert (Hl1 : s1.(leases) !! k = Some (mkPooled (Some conn'))) by (simpl; apply lookup_insert_eq).
  assert (Hdrop : returnable good c' → ∀ y q, (∀ v', moves k v.(sv_pool) v'.(sv_pool) → v'.(sessions) = <[k := y]> v.(sessions) →
      advanced k (x, Some conn.(raw)) v v') → sess_placed (mkSys s1.(world) ∅ ∅ []) k (Some y) → q = y →
      wp (act cfg (DropLease k);; set_visit k q)
        (λ _ v', server_inv v' ∧ advanced k (x, Some conn.(raw)) v v') (with_pool s1 v)).
  { intros Hret y q Hadv Hy ->.
    destruct (drop_lease_effect cfg Hcfg s1 k Hs1 (ex_intro _ _ Hl1)) as (s2 & Hex & Et & El & _).
    wp_step. apply (wp_act cfg Hcfg); change (pool_of (with_pool s1 v)) with s1; [done|done|by rewrite Hex|].
    rewrite Hex. intros s2' [= <-] Hs2. unfold set_visit. wp_step. simpl.
    assert (HI : server_inv (mkServer s2 (<[k := y]> v.(sessions))));
      [|split; [done|apply Hadv; [|done]]].
    2: { intros j Hj. simpl. rewrite Et, El. simpl. by rewrite lookup_delete_ne, lookup_insert_ne by done. }
    apply (beside_set k (mkServer s2 v.(sessions))).
    - change (mkServer s2 (sessions v)) with (with_pool s2 (with_pool s1 v)).
      apply beside_moves; [done..| |].
      + eapply (stocked_drop good cfg s1); [exact (be_stock _ _ HB1)|exact Hl1|exact Hret|exact Hex].
      + intros j Hj. simpl in *. rewrite Et, El. simpl. by rewrite lookup_delete_ne by done.
    - assert (Hno : nothing s2 k) by (unfold nothing; rewrite Et, El, lookup_delete_eq; done).
      unfold sess_placed in *. destruct (at_ y); simpl in *; [tauto|destruct Hy as (_ & _ & [g Hg'] & _); by rewrite lookup_empty in Hg'| |tauto].
      destruct Hy as (_ & _ & c & Hc & _). by rewrite lookup_empty in Hc. }
  assert (Hloan : returnable good c' → Forall loan_ok (option_list (Some (Some (c0, c'))))).
  { intros Hret. by repeat constructor. }
  destruct r as [s'|s'|s'].
  - destruct Hnext as [Hfit' Hless]. unfold set_visit. wp_step. split.
    + apply (beside_set k (with_pool s1 v)); [done|]. simpl. split_and!; [done..|]. exists conn'.
      split_and!; [exact Hl1|done|]. eapply came_by_quiet; [exact Hby|by apply in_keeps].
    + split; [unfold moves; other|]. eexists. split; [done|]. exists conn'. split; [exact Hl1|done].
  - destruct Hnext as (Hret & Hfit' & Hless). eapply Hdrop; [done| | |done].
    + intros v' Hm Hs. split; [done|]. eexists. by split; [exact Hs|].
    + split_and!; [|done|done].
      eapply (came_by_step _ _ _ _ _ (Some _)); [exact Hby|by apply in_gives|by apply Hloan].
  - eapply Hdrop; [done| | |done].
    + intros v' Hm Hs. split; [done|]. eexists. by split; [exact Hs|].
    + split; [|done].
      eapply (came_by_step _ _ _ _ _ (Some _)); [exact Hby|by apply in_finishes|by apply Hloan].
Qed.

Lemma ask_spec k s0 l x p v :
  beside (Some k) v → server_room v → came_by (mkVisit s0 l p) (Wants x) → wanting good fit closer x →
  (∃ g, v.(sv_pool).(tasks) !! k = Some (TGet g)) → v.(sv_pool).(leases) !! k = None →
  wp (ask cfg k s0 l x) (λ _ v', server_inv v' ∧
    (advanced k (x, None) v v' ∨ moves k v.(sv_pool) v'.(sv_pool) ∧
       v'.(sessions) = <[k := mkVisit s0 l (Asking x)]> v.(sessions) ∧ is_Some (v'.(sv_pool).(tasks) !! k))) v.
Proof.
  intros HB Hroom Hby [Hlent Haway] [g Hg] Hlk. unfold ask. wp_step.
  apply (wp_act cfg Hcfg); [apply HB|simpl; by rewrite Hg|simpl; by rewrite Hg|].
  intros s' Hex Hs'. change (pool_of v) with v.(sv_pool) in Hex.
  destruct (stocked_poll good cfg _ _ _ (be_stock _ _ HB) Hex) as [Hst Hnew].
  pose proof (poll_get_effect cfg _ _ _ _ Hg Hex) as Heff.
  assert (Hm : moves k v.(sv_pool) s').
  { intros j Hj. destruct Heff as [(? & -> & ->)|[(-> & ? & ->)|(-> & ->)]];
      by rewrite ?lookup_delete_ne, ?lookup_insert_ne by done. }
  assert (HB' : beside (Some k) (with_pool s' v)) by by apply beside_moves.
  wp_steps. simpl.
  destruct Heff as [(p' & El & Et)|[(El & g' & Et)|(El & Et)]].
  - rewrite El, Et, lookup_insert_eq.
    assert (Hp : typed_lease good p').
    { destruct Hnew as [Hsame|(p'' & Hp' & Hty)].
      - rewrite Hsame in El. apply (f_equal (lookup k)) in El. rewrite Hlk, lookup_insert_eq in El. done.
      - rewrite Hp' in El. apply (f_equal (lookup k)) in El. rewrite !lookup_insert_eq in El. by injection El as <-. }
    assert (Hl' : s'.(leases) !! k = Some p') by (rewrite El; apply lookup_insert_eq).
    destruct (lease_full cfg Hcfg s' k p' Hs' Hl') as [conn ->]. simpl. wp_steps.
    eapply wp_lift; [done|]. destruct (Hlent conn.(raw) Hp) as [Hfit Hless].
    eapply wp_mono; [apply (run_inside_spec k s0 l conn.(raw) x conn p)|]; simpl.
    + exact HB'.
    + exact Hp.
    + rewrite Et. apply lookup_delete_eq.
    + done.
    + done.
    + eapply came_by_quiet; [exact Hby|by constructor].
    + intros [] v' [HI Hadv]. split; [done|left]. by eapply (advanced_trans closer k _ _ v (with_pool s' v)).
  - rewrite El, Et, Hlk, lookup_insert_eq. unfold set_visit. wp_steps. split;
      [|right; split_and!; [exact Hm|done|simpl; rewrite Et, lookup_insert_eq; eauto]].
    apply (beside_set k (mkServer s' v.(sessions))).
    + exact HB'.
    + simpl. rewrite El, Et, Hlk, lookup_insert_eq. split; [by eapply came_by_retold|].
      split; [by split|]. split; [by eexists|done].
  - rewrite El, Et, Hlk, lookup_delete_eq.
    assert (Hno : nothing s' k) by (unfold nothing; by rewrite El, Et, lookup_delete_eq).
    destruct (turned_away x) as [x' over] eqn:Hx. unfold set_visit. wp_steps. simpl.
    assert (Hok : Forall loan_ok (option_list (Some None))) by by repeat constructor.
    destruct over; (split; [apply (beside_set k (mkServer s' v.(sessions)) _ HB'); simpl|left; split; [exact Hm|]; eexists; split; [done|]; simpl]).
    + split; [|done]. eapply (came_by_step _ _ _ _ _ (Some None)); [exact Hby|by constructor|done].
    + done.
    + destruct (Haway eq_refl) as [Hf _]. split_and!; [|done|done].
      eapply (came_by_step _ _ _ _ _ (Some None)); [exact Hby|by constructor|done].
    + by apply Haway.
Qed.

Lemma session_spec k v :
  server_inv v → server_room v →
  wp (session cfg k) (λ _ v', server_inv v' ∧ after_poll closer k v v') v.
Proof.
  intros HI Hroom. pose proof (be_placed _ _ HI k ltac:(done)) as Hp.
  apply (beside_weaken k) in HI as HB. unfold session, after_poll. wp_steps.
  destruct (sessions v !! k) as [[s0 l [s|s|c0 s|s]]|] eqn:Hk; simpl in Hp |- *; [..|by wp_steps|by wp_steps].
  - destruct Hp as (Hby & Hf & Ht & Hl).
    destruct (fit_outside s Hf) as (w & Hw & Hnext). wp_step. eapply wp_lift; [exact Hw|].
    destruct w as [s'|s'|s'].
    + destruct Hnext as [Hf' Hless]. unfold set_visit. wp_step. split; [|by split; [|eexists]].
      apply (beside_set k v); [done|]. split_and!; [|done|done]. eapply came_by_quiet; [exact Hby|by constructor].
    + destruct Hnext as [Hw' Hless]. wp_step.
      apply (wp_act cfg Hcfg); simpl; [apply HB|done|by rewrite Ht, Hl|].
      rewrite Ht, Hl. intros s1 [= <-] Hs1. set (s1 := mkSys _ _ _ _) in *.
      assert (Hm1 : moves k v.(sv_pool) s1) by (unfold moves; other).
      eapply wp_mono; [apply (ask_spec k s0 l s' (Outside s)); simpl|].
      * apply beside_moves; [done..| |done].
        eapply (stocked_spawn good cfg _ k CallGet); [apply HB|]. simpl. by rewrite Ht, Hl.
      * done.
      * eapply came_by_quiet; [exact Hby|by constructor].
      * done.
      * rewrite lookup_insert_eq. eauto.
      * done.
      * intros [] v' [HI' [Ha|(Hm & Ha & _)]]; (split; [done|]).
        -- by refine (advanced_trans closer k _ _ v (with_pool s1 v) v' _ Hm1 Hless Ha).
        -- split; [by eapply moves_trans|]. eexists. split; [exact Ha|done].
    + unfold set_visit. wp_step. split; [|by split; [|eexists]].
      apply (beside_set k v); [done|]. split; [|done]. eapply came_by_quiet; [exact Hby|by constructor].
  - destruct Hp as (Hby & Hw & Ht & Hl).
    eapply wp_mono; [by apply (ask_spec k s0 l s (Asking s))|].
    intros [] v' [HI' [Ha|(Hm & Ha & Htk)]]; (split; [done|]); [by left|right].
    by rewrite (insert_id _ _ _ Hk) in Ha.
  - destruct Hp as (Hg & Ht & conn & Hl & Hf & Hby).
    eapply wp_mono; [by apply (run_inside_spec k s0 l c0 s conn (Inside c0 s))|].
    intros [] v' [HI' Hadv]. split; [done|]. by exists conn.
Qed.

Lemma server_reachable_inv v : server_reachable cfg opens v → server_inv v.
Proof.
  induction 1 as [c t|v k s0 _ IH Hk Ho|v k v' _ IH Hroom Hrun].
  - split; simpl; [apply reach_init| |].
    + split; simpl; [constructor|]. intros i t'. by rewrite lookup_empty.
    + intros j _. by rewrite !lookup_empty.
  - unfold accept. apply (beside_set k v); [by apply beside_weaken|].
    pose proof (be_placed _ _ IH k ltac:(done)) as Hp. rewrite Hk in Hp. simpl in *.
    split; [|split; [by apply fit_opens|done]]. split_and!; [done|constructor|constructor].
  - exact (proj1 (wp_run _ _ _ _ _ (session_spec k v IH Hroom) Hrun)).
Qed.
End spec.

(** ** What holds of every server *)

(** The sessions being served: those with a lease. *)
Definition is_inside {C S} (x : visit C S) : bool := match x.(at_) with Inside _ _ => true | _ => false end.
Definition is_gone {C S} (x : visit C S) : bool := match x.(at_) with Gone _ => true | _ => false end.
Definition serving {C E S} (v : Server C E S) : gset nat :=
  dom (filter (λ kp : nat * visit C S, is_inside kp.2 = true) v.(sessions)).

(** A session that has something to do: anything but a [get] parked in the queue whose waker has
    not run. *)
Definition session_can_go {C E S} (v : Server C E S) (k : nat) : bool :=
  match v.(sessions) !! k with
  | Some x => match x.(at_) with Outside _ | Inside _ _ => true | Asking _ => lease_can_go v.(sv_pool) k | Gone _ => false end
  | None => false
  end.

Section theorems.
Context {C E S : Type} {F : Features} {R : Runtime} {RL : RuntimeLaws R} {M : ManageConnection C E} {G : Guest C S}.
Context (opens : S → Prop) (good : C → Prop) {GL : GuestLaws M G opens good} {TM : TypedManager M good}.
Context (cfg : PoolConfig) (Hcfg : config_ok cfg).
Implicit Types v : Server C E S.

(** As many are served as there are leases, so never more than [max_size]. *)
Lemma serving_bounded v :
  server_reachable cfg opens v →
  size (serving v) = size v.(sv_pool).(leases) ∧ N.of_nat (size (serving v)) ≤ cfg.(max_size).
Proof.
  intros Hv. pose proof (server_reachable_inv opens good cfg Hcfg v Hv) as HI.
  assert (Hdom : serving v = dom v.(sv_pool).(leases)).
  { apply set_eq. intros k. unfold serving. rewrite !elem_of_dom.
    pose proof (be_placed _ _ _ _ _ HI k ltac:(done)) as Hp. split.
    - intros [p [Hk Hb]%map_lookup_filter_Some]. rewrite Hk in Hp. destruct p as [s0 l []]; try done. simpl in Hp.
      destruct Hp as (_ & _ & conn & -> & _). eauto.
    - intros [p Hl]. unfold sess_placed, nothing in Hp.
      destruct (sessions v !! k) as [[s0 l [s|s|c0 s|s]]|] eqn:Hk; simpl in Hp;
        destruct_and?; try congruence. exists (mkVisit s0 l (Inside c0 s)). by apply map_lookup_filter_Some. }
  rewrite Hdom, size_dom. split; [done|]. apply (leases_bounded cfg Hcfg), HI.
Qed.

(** Polling a session never panics; it moves no other, and ends the session or brings it closer to
    its end, or leaves it parked in [get]. *)
Lemma session_advances v k :
  server_reachable cfg opens v → server_room v → ∃ v', session cfg k v = Val (tt, v') ∧ after_poll closer k v v'.
Proof.
  intros Hv Hroom. pose proof (server_reachable_inv opens good cfg Hcfg v Hv) as HI.
  destruct (wp_val _ _ _ (session_spec opens good cfg Hcfg k v HI Hroom)) as ([] & v' & ? & _ & ?). by exists v'.
Qed.

(** Each session is where it would be by itself with the loans it has had; all it was lent was good
    and what it gave back was good or broken. *)
Lemma session_alone v k s0 l s :
  server_reachable cfg opens v → v.(sessions) !! k = Some (mkVisit s0 l (Gone s)) →
  opens s0 ∧ Forall (loan_ok good) l ∧ way good (Without s0) l (Ended s).
Proof.
  intros Hv Hk. pose proof (server_reachable_inv opens good cfg Hcfg v Hv) as HI.
  pose proof (be_placed _ _ _ _ _ HI k ltac:(done)) as Hp. rewrite Hk in Hp. apply Hp.
Qed.
Lemma session_inside v k s0 l c0 s :
  server_reachable cfg opens v → v.(sessions) !! k = Some (mkVisit s0 l (Inside c0 s)) →
  opens s0 ∧ Forall (loan_ok good) l ∧ good c0 ∧ ∃ conn,
    v.(sv_pool).(leases) !! k = Some (mkPooled (Some conn)) ∧ fit s (Some conn.(raw)) ∧
    way good (Without s0) l (Within c0 s conn.(raw)).
Proof.
  intros Hv Hk. pose proof (server_reachable_inv opens good cfg Hcfg v Hv) as HI.
  pose proof (be_placed _ _ _ _ _ HI k ltac:(done)) as Hp. rewrite Hk in Hp.
  destruct Hp as (Hg & _ & conn & Hl & Hf & Ho & Hloans & Hw). split_and!; [done..|]. by exists conn.
Qed.

(** Whatever the pool holds ready for the next session is good. *)
Lemma idle_good v c : server_reachable cfg opens v → c ∈ v.(sv_pool).(world).(idle) → good c.(raw).
Proof.
  intros Hv Hc. pose proof (be_stock _ _ _ _ _ (server_reachable_inv opens good cfg Hcfg v Hv)) as [Hi _].
  unfold typed_world in Hi. rewrite Forall_forall in Hi. by apply Hi.
Qed.

(** While the pool is open and a session is not over, some session has something to do. *)
Lemma some_session_can_go v k x :
  server_reachable cfg opens v → v.(sv_pool).(world).(closed) = false →
  v.(sessions) !! k = Some x → is_gone x = false → ∃ j, session_can_go v j = true.
Proof.
  intros Hv Hc Hk Hno. pose proof (server_reachable_inv opens good cfg Hcfg v Hv) as HI.
  destruct (decide (map_Exists (λ j _, session_can_go v j = true) v.(sessions))) as [(j & _ & _ & ?)|Hn];
    [by exists j|exfalso]. apply map_not_Exists in Hn.
  assert (Hstuck : ∀ j x', v.(sessions) !! j = Some x' →
    (∃ s, x'.(at_) = Asking s) ∧ lease_can_go (sv_pool v) j = false ∨ is_gone x' = true).
  { intros j x' Hj. specialize (Hn j x' Hj). simpl in Hn. unfold session_can_go in Hn. rewrite Hj in Hn.
    destruct x' as [s0 l [s|s|c0 s|s]]; simpl in Hn; [done| |done|by right]. left.
    split; [eauto|by apply not_true_is_false]. }
  assert (Hplaced := λ j, be_placed _ _ _ _ _ HI j ltac:(done)).
  destruct (not_all_waiting cfg (sv_pool v)) as (j & t & Hj & Hgo); [done|apply HI|done|..].
  - apply map_empty. intros j. specialize (Hplaced j). destruct (sessions v !! j) as [x'|] eqn:Hj; [|apply Hplaced].
    destruct (Hstuck j x' Hj) as [[(s & Hs) _]|Hg]; unfold sess_placed in Hplaced.
    + rewrite Hs in Hplaced. apply Hplaced.
    + destruct x' as [s0 l []]; try done. apply Hplaced.
  - intros Hemp. destruct (Hstuck k x Hk) as [[(s & Hs) _]|Hg]; [|congruence].
    specialize (Hplaced k). rewrite Hk in Hplaced. unfold sess_placed in Hplaced. rewrite Hs in Hplaced.
    destruct Hplaced as (_ & _ & [g Hg] & _). by rewrite Hemp in Hg.
  - specialize (Hplaced j). destruct (sessions v !! j) as [x'|] eqn:Hpj; [|destruct Hplaced; congruence].
    destruct (Hstuck j x' Hpj) as [[_ ?]|Hg]; [congruence|].
    destruct x' as [s0 l []]; try done. destruct Hplaced as [_ []]. congruence.
Qed.

(** All of it together. *)
Lemma server_lively v :
  server_reachable cfg opens v → server_room v →
  size (serving v) = size v.(sv_pool).(leases) ∧ N.of_nat (size (serving v)) ≤ cfg.(max_size) ∧
  (∀ k, ∃ v', session cfg k v = Val (tt, v') ∧ after_poll closer k v v') ∧
  (v.(sv_pool).(world).(closed) = false →
   ∀ k x, v.(sessions) !! k = Some x → is_gone x = false → ∃ j, session_can_go v j = true).
Proof.
  intros Hv Hroom. destruct (serving_bounded v Hv) as [H1 H2]. split_and!; [done|done| |].
  - intros k. by apply session_advances.
  - intros Hc k x. by apply some_session_can_go.
Qed.
End theorems.

(** *** Who has what

    The runs of a server whose sessions work on what they are lent are honest ones. *)
Section honest.
Context {C E S : Type} {F : Features} {R : Runtime} {M : ManageConnection C E} {G : Guest C S}.
Context (name : C → nat) (cfg : PoolConfig).
Hypothesis inside_same : ∀ s c r c', inside s c = Val (r, c') → name c' = name c.
Abbreviation server := (Server C E S).
Implicit Types v : server.

Definition keeps_honest {A} (c : St server A) : Prop := ∀ v a v',
  c v = Val (a, v') → honest_run name cfg v.(sv_pool) → honest_run name cfg v'.(sv_pool).

Lemma honest_ret {A} (a : A) : keeps_honest (mret a).
Proof. by intros v a' v' [= <- <-]. Qed.
Lemma honest_bind {A B} (c : St server A) (k : A → St server B) :
  keeps_honest c → (∀ a, keeps_honest (k a)) → keeps_honest (a ← c; k a).
Proof.
  intros Hc Hk v b v'. unfold mbind, St_bind. destruct (c v) as [[a v1]| |] eqn:He; [|done..].
  intros Hb Hv. eapply Hk, Hc; [exact Hb|exact He|exact Hv].
Qed.
Lemma honest_gets {A} (f : server → A) : keeps_honest (gets f).
Proof. by intros v a v' [= <- <-]. Qed.
Lemma honest_lift {A} (o : outcome A) : keeps_honest (lift o).
Proof. intros v a v'. unfold lift. destruct o; [|done..]. by intros [= <- <-]. Qed.
Lemma honest_set_visit k x : keeps_honest (set_visit k x : St server unit).
Proof. by intros v a v' [= <- <-]. Qed.
Lemma honest_act a :
  (∀ s : Sys C E, same_connection (E:=E) name a s) → keeps_honest (act cfg a : St server unit).
Proof.
  intros Ha v [] v'. unfold act. destruct (exec _ _ _) as [[s| |]|] eqn:He; [|done..].
  intros [= <-] Hv. by eapply honest_step.
Qed.
Lemma honest_on_lease {A} k (op : C → outcome (A * C)) :
  (∀ c a c', op c = Val (a, c') → name c' = name c) → keeps_honest (on_lease cfg k op : St server A).
Proof.
  intros Hop v a v'. unfold on_lease. destruct (leases _ !! k) as [p|] eqn:Hk; [|done].
  destruct (deref p) as [c| |] eqn:Hd; [|done..]. destruct (op c) as [[a' c']| |] eqn:Ho; [|done..].
  unfold mbind, St_bind, act. destruct (exec _ _ _) as [[s| |]|] eqn:He; [|done..].
  intros [= <- <-] Hv. eapply honest_step; [exact Hv| |exact He].
  intros q d Hq Hqd. change (pool_of v) with v.(sv_pool) in Hk. rewrite Hk in Hq. injection Hq as <-.
  rewrite Hd in Hqd. injection Hqd as <-. by eapply Hop.
Qed.

Lemma honest_run_inside k s0 l c0 s : keeps_honest (run_inside cfg k s0 l c0 s).
Proof.
  unfold run_inside. apply honest_bind.
  - apply honest_on_lease. intros c a c'. destruct (inside s c) as [[r d]| |] eqn:Hi; [|done..].
    intros [= _ <-]. by eapply inside_same.
  - intros [[s'|s'|s'] c']; simpl; [apply honest_set_visit| |];
      (apply honest_bind; [by apply honest_act|intros _; apply honest_set_visit]).
Qed.

Lemma honest_ask k s0 l s : keeps_honest (ask cfg k s0 l s).
Proof.
  unfold ask. apply honest_bind; [by apply honest_act|intros _]. apply honest_bind; [apply honest_gets|intros p].
  destruct (p.(leases) !! k) as [lease|].
  - apply honest_bind; [apply honest_lift|intros c0; apply honest_run_inside].
  - destruct (p.(tasks) !! k); [apply honest_set_visit|].
    destruct (turned_away s) as [s' over]. apply honest_set_visit.
Qed.

Lemma honest_session k : keeps_honest (session cfg k : St server unit).
Proof.
  unfold session. apply honest_bind; [apply honest_gets|intros v].
  destruct (v !! k) as [[s0 l [s|s|c0 s|s]]|];
    [|apply honest_ask|apply honest_run_inside|apply honest_ret|apply honest_ret].
  apply honest_bind; [apply honest_lift|intros [s'|s'|s']]; [apply honest_set_visit| |apply honest_set_visit].
  apply honest_bind; [by apply honest_act|intros _; apply honest_ask].
Qed.

Lemma server_honest (opens : S → Prop) v : server_reachable cfg opens v → honest_run name cfg v.(sv_pool).
Proof.
  induction 1 as [c t|v k s0 _ IH _ _|v k v' _ IH _ Hrun]; [apply honest_start|exact IH|].
  by eapply honest_session.
Qed.
End honest.

(** ** Runs *)

Inductive server_event (S : Type) := Arrive (k : nat) (s0 : S) | Poll_session (k : nat).
Arguments Arrive {S} _ _.
Arguments Poll_session {S} _.

Section run.
Context {C E S : Type} {F : Features} {R : Runtime} {M : ManageConnection C E} {G : Guest C S}.
Context (cfg : PoolConfig).

(** A schedule; [None] when a number is taken, a poll fails or the ids have run out. *)
Fixpoint server_run (es : list (server_event S)) (v : Server C E S) : option (Server C E S) :=
  match es with
  | [] => Some v
  | Arrive k s0 :: es =>
      match v.(sessions) !! k with None => server_run es (accept k s0 v) | Some _ => None end
  | Poll_session k :: es =>
      if v.(sv_pool).(world).(waiters).(next_id) + 1 <? U64 then
        match session cfg k v with Val (_, v) => server_run es v | _ => None end
      else None
  end.

Lemma server_run_reachable (opens : S → Prop) es v v' :
  server_reachable cfg opens v →
  Forall (λ e, match e with Arrive _ s0 => opens s0 | Poll_session _ => True end) es →
  server_run es v = Some v' → server_reachable cfg opens v'.
Proof.
  intros Hv Hes. revert v Hv. induction Hes as [|e es He _ IH]; intros v Hv Hr; simpl in Hr; [by simplify_eq|].
  destruct e as [k s0|k].
  - destruct (sessions v !! k) eqn:Hk; [done|]. by eapply IH, Hr; apply server_accept.
  - destruct (N.ltb_spec (next_id (waiters (world (sv_pool v))) + 1) U64); [|done].
    destruct (session cfg k v) as [[[] v1]| |] eqn:Hs; [|done..].
    by eapply IH, Hr; eapply server_poll.
Qed.
End run.
