(* ===== verification/EchoServer.v ===== *)
(** The echo servers at work: sessions of [src/examples/echo.rs], [task_echo.rs] and
    [unix_echo.rs] accepted at any time and polled in any order on one thread's pool of
    buffers.  Each is served as [Echo.serve] serves it alone. *)

From stdpp Require Import gmap.
From S2P Require Import Prelude Manage Builder Metrics Store Waiters Inner Local Futures Balance System Scenario Clients Text Echo Typing Sessions.

(** Where [serve] is suspended: not begun, in [local.get().await], or in [read(buf).await] or
    [write_all(buf).await] with the buffer out of the lease. *)
Inductive echo_stage := Starting | Getting | In_read (buf : Vec) | In_write (buf : Vec).
Record EchoSession {T : Tcp} := mkEchoSession { stage : echo_stage; client : stream }.
Arguments mkEchoSession {T} _ _.

Section echo.
Context {T : Tcp}.

(** The top of the loop: [mem::take] and [clear], then the read is begun. *)
Definition begin_read (lease : Vec) (p : stream) : stay EchoSession * Vec :=
  (Keep (mkEchoSession (In_read (vec_clear lease)) p), with_capacity 0).

Definition echo_inside (s : EchoSession) (lease : Vec) : outcome (stay EchoSession * Vec) :=
  match s.(stage) with
  | Starting | Getting => Val (begin_read lease s.(client))
  | In_read buf =>
      let '(read, buf, p) := read_into buf s.(client) in
      match read with
      | Err _ => Val (Finish (mkEchoSession (In_read buf) p), buf)
      | Ok n =>
          if n =? 0 then Val (Finish (mkEchoSession (In_read buf) p), buf)
          else Val (Keep (mkEchoSession (In_write buf) p), lease)
      end
  | In_write buf =>
      let '(written, p) := send buf.(contents) s.(client) in
      match written with
      | Err _ => Val (Finish (mkEchoSession (In_write buf) p), buf)
      | Ok _ => Val (begin_read buf p)
      end
  end.

(** [serve]: it leases a buffer first, and returns when it cannot. *)
#[export] Instance echo_guest : Guest Vec EchoSession := {|
  outside s := Val (Ask_for (mkEchoSession Getting s.(client)));
  turned_away s := (s, true);
  inside := echo_inside
|}.

(** A connection just accepted. *)
Definition accepted (s : EchoSession) : Prop := s.(stage) = Starting.

Context {TL : TcpLaws T}.

(** How far a session is from its end. *)
Definition echo_left (x : EchoSession * option Vec) : nat :=
  2 * N.to_nat (len (incoming x.1.(client))) +
  match x.1.(stage), x.2 with
  | In_read _, _ => 1 | In_write _, _ => 2 | Getting, Some _ => 3 | Getting, None => 4 | Starting, _ => 5
  end.

(** The buffer in the session's hands, or else in its lease. *)
Definition echo_room (n : N) (s : EchoSession) (lease : option Vec) : Prop :=
  match s.(stage), lease with
  | Starting, None => True
  | Getting, Some c => c.(capacity) = n
  | In_read buf, Some _ => buf.(capacity) = n ∧ buf.(contents) = []
  | In_write buf, Some _ => buf.(capacity) = n
  | _, _ => False
  end.

#[export] Instance echo_laws n (Hn : 0 < n) : GuestLaws (BuffersOf n) echo_guest accepted (roomy n).
Proof.
  apply (Build_GuestLaws _ _ _ _ _ _ _ (echo_room n) _ (fewer_left_wf echo_left) _).
  - intros [st p] Ha. unfold accepted in Ha. simpl in Ha. by subst st.
  - intros [[| |b|b] p] Hf; try done. eexists. split; [done|].
    split; [split; [intros c Hc; split; [exact Hc|]|done]|]; unfold fewer_left, echo_left; simpl; lia.
  - assert (Hret : ∀ b : Vec, b.(capacity) = n → returnable (M := BuffersOf n) (roomy n) b) by (intros b Hb t _; exact Hb).
    intros [[| |b|b] p] c Hf; unfold inside, echo_guest, echo_inside, begin_read; cbn [stage client] in *.
    + done.
    + do 2 eexists. split; [done|]. split; [by split|]. unfold fewer_left, echo_left. simpl. lia.
    + destruct Hf as [Hc He]. destruct (read_into b p) as [[r b'] p'] eqn:Hr.
      destruct (read_into_spec _ _ _ _ _ Hr) as (Hcap & _ & _ & Hm).
      assert (Hroomy : b'.(capacity) = n) by congruence.
      destruct r as [k|e]; [|do 2 eexists; split; [done|by apply Hret]].
      destruct (N.eqb_spec k 0) as [->|Hk]; [do 2 eexists; split; [done|by apply Hret]|].
      do 2 eexists. split; [done|]. split; [done|]. destruct Hm as (bs & -> & _ & Hi & _ & _).
      unfold fewer_left, echo_left. cbn [stage client fst snd]. rewrite Hi, len_app. lia.
    + destruct (send (contents b) p) as [w p'] eqn:Hs. destruct (send_reads _ _ _ _ Hs) as [Hi _].
      destruct w as [[]|e]; [|do 2 eexists; split; [done|by apply Hret]]. do 2 eexists. split; [done|]. split; [by split|].
      unfold fewer_left, echo_left. cbn [stage client fst snd]. rewrite Hi. lia.
Defined.

(** The loop of [serve] from a suspended session on. *)
Definition resume (fuel : nat) (s : EchoSession) (lease : Vec) : outcome (unit * Conversation) :=
  match s.(stage) with
  | Starting | Getting => echo_loop fuel (mkConversation s.(client) lease)
  | In_read buf => echo_loop fuel (mkConversation s.(client) buf)
  | In_write buf =>
      let '(written, p) := send buf.(contents) s.(client) in
      match written with
      | Err _ => Val (tt, mkConversation p buf)
      | Ok _ => echo_loop fuel (mkConversation p buf)
      end
  end.

Lemma vec_clear_idem v : vec_clear (vec_clear v) = vec_clear v.
Proof. by destruct v. Qed.
Lemma vec_clear_empty v : v.(contents) = [] → vec_clear v = v.
Proof. destruct v. simpl. by intros ->. Qed.

(** One round of the loop; it looks at the lease only to clear it. *)
Lemma echo_loop_round fuel p v : echo_loop (S fuel) (mkConversation p v) =
  let '(read, b, p) := read_into (vec_clear v) p in
  if match read with Ok n => n =? 0 | Err _ => true end then Val (tt, mkConversation p b)
  else
    let '(written, p) := send b.(contents) p in
    match written with
    | Err _ => Val (tt, mkConversation p b)
    | Ok _ => echo_loop fuel (mkConversation p b)
    end.
Proof.
  cbn [echo_loop]. unfold mbind, St_bind, take_lease, read_peer, write_peer, give_back, modify.
  cbn [leased peer]. destruct (read_into _ _) as [[[n|e] b] p1]; [|done].
  destruct (n =? 0); [done|]. cbn [leased peer]. by destruct (send _ _) as [[] p2].
Qed.
Lemma echo_loop_clear fuel p v : echo_loop (S fuel) (mkConversation p (vec_clear v)) = echo_loop (S fuel) (mkConversation p v).
Proof. by rewrite !echo_loop_round, vec_clear_idem. Qed.

(** One stretch of the loop. *)
Lemma resume_step n s c r c' fuel :
  echo_room n s (Some c) → inside s c = Val (r, c') → (N.to_nat (len (incoming s.(client))) < fuel)%nat →
  match r with
  | Keep s' => ∃ fuel', (N.to_nat (len (incoming s'.(client))) < fuel')%nat ∧ resume fuel s c = resume fuel' s' c'
  | Finish s' => resume fuel s c = Val (tt, mkConversation s'.(client) c')
  | Give_back _ => False
  end.
Proof.
  intros Hf Hv Hfuel. destruct s as [[| |b|b] p]; unfold inside, echo_guest, echo_inside, begin_read in Hv;
    cbn [stage client] in *; [done|..].
  - injection Hv as <- <-. exists fuel. split; [done|]. unfold resume. cbn [stage client].
    destruct fuel; [lia|]. by rewrite echo_loop_clear.
  - destruct Hf as [Hc He]. destruct fuel as [|fuel]; [lia|]. unfold resume. cbn [stage client].
    rewrite echo_loop_round, (vec_clear_empty b He). destruct (read_into b p) as [[x b'] p'] eqn:Hr.
    destruct x as [k|e]; [|by injection Hv as <- <-].
    destruct (N.eqb_spec k 0) as [->|Hk]; [by injection Hv as <- <-|]. injection Hv as <- <-.
    destruct (read_into_spec _ _ _ _ _ Hr) as (_ & _ & _ & bs & -> & _ & Hi & _ & _).
    exists fuel. split; [cbn [client]; rewrite Hi, len_app in Hfuel; lia|done].
  - destruct (send (contents b) p) as [w p'] eqn:Hs. destruct (send_reads _ _ _ _ Hs) as [Hi _].
    destruct w as [[]|e]; injection Hv as <- <-.
    + exists fuel. split; [cbn [client]; by rewrite Hi|]. unfold resume. cbn [stage client]. rewrite Hs.
      destruct fuel; [lia|]. by rewrite echo_loop_clear.
    + unfold resume. cbn [stage client]. by rewrite Hs.
Qed.

(** What a session that came as [s] and ended as [s'] has done. *)
Definition as_served (s : EchoSession) (l : list (option (Vec * Vec))) (s' : EchoSession) : Prop :=
  ∀ fuel, (N.to_nat (len (incoming s.(client))) < fuel)%nat →
  ∃ loan, l = [loan] ∧ Echo.serve fuel (fst <$> loan) s.(client) = Val (snd <$> loan, s'.(client)).

(** A session that runs to its return does what [serve] does, from wherever it is. *)
Lemma way_resume n (Hn : 0 < n) p l r : way (roomy n) p l r → ∀ s', r = Ended s' →
  match p with
  | Without s => s.(stage) = Starting → as_served s l s'
  | Wants s => s.(stage) = Getting → as_served s l s'
  | Within c0 s c => echo_room n s (Some c) → ∀ fuel, (N.to_nat (len (incoming s.(client))) < fuel)%nat →
      ∃ c', l = [Some (c0, c')] ∧ resume fuel s c = Val (tt, mkConversation s'.(client) c')
  | Ended s => l = [] ∧ s = s'
  end.
Proof.
  revert p l r. refine (way_ind_front (roomy n) _ _ _); [by intros r s' ->|].
  intros p e q l r Hm _ IH s' ->. specialize (IH s' eq_refl).
  destruct Hm as [s x Hx|s x Hx|s x Hx|s c Hc|s x Hx|s x Hx|c0 s c x c' Hx|c0 s c x c' Hx|c0 s c x c' Hx].
  - done.
  - injection Hx as <-. intros _. by apply IH.
  - done.
  - intros Hst fuel Hfuel. destruct s as [st p]. simpl in Hst. subst st.
    destruct (IH Hc fuel Hfuel) as (c' & -> & Hrun). unfold resume in Hrun. cbn [stage client] in Hrun.
    exists (Some (c, c')). split; [done|]. unfold serve. simpl. by rewrite Hrun.
  - done.
  - injection Hx as <-. destruct IH as [-> ->]. intros _ fuel _. by exists None.
  - intros Hf fuel Hfuel. destruct (resume_step n s c _ _ fuel Hf Hx Hfuel) as (fuel' & Hf' & ->).
    apply IH; [|done]. destruct (@fit_inside _ _ _ _ _ _ _ (echo_laws n Hn) s c Hf) as (v & y & Hv & Hnext).
    rewrite Hx in Hv. injection Hv as <- <-. apply Hnext.
  - intros Hf fuel Hfuel. by destruct (resume_step n s c _ _ fuel Hf Hx Hfuel).
  - intros Hf fuel Hfuel. destruct IH as [-> ->]. exists c'. split; [done|].
    exact (resume_step n s c _ _ fuel Hf Hx Hfuel).
Qed.
End echo.

(** ** The servers *)

Section server.
Context {T : Tcp} {TL : TcpLaws T} {F : Features} {R : Runtime} {RL : RuntimeLaws R}.
Context (n : N).
#[local] Instance server_buffers : ManageConnection Vec io_error := BuffersOf n.

(** An echo server on buffers of [n] bytes, at some point of its life. *)
Definition echo_serving (cfg : PoolConfig) (v : Server Vec io_error EchoSession) : Prop :=
  server_reachable cfg accepted v.

(** C27: each client is served as if it were alone.  However connections arrive and their tasks are
    scheduled, a session that is over has done exactly what [serve] does by itself with that
    client and the buffer its one [get] brought, or failed to bring.  With a buffer, it has
    echoed back what came, up to the point where the conversation ended; the buffer had its
    full size, whatever sessions used it before, and has it again for the next. *)
Theorem echo_as_if_alone cfg v k s0 l s' fuel :
  0 < n → config_ok cfg → echo_serving cfg v →
  v.(sessions) !! k = Some (mkVisit s0 l (Gone s')) →
  (N.to_nat (len (incoming s0.(client))) < fuel)%nat →
  ∃ loan, l = [loan] ∧ Echo.serve fuel (fst <$> loan) s0.(client) = Val (snd <$> loan, s'.(client)) ∧
  ∀ c0 c', loan = Some (c0, c') → c0.(capacity) = n ∧ c'.(capacity) = n ∧
    ∃ echoed, echo_end s0.(client) s'.(client) echoed.
Proof.
  intros Hn Hcfg Hv Hk Hfuel.
  destruct (session_alone accepted (roomy n) (GL := echo_laws n Hn) cfg Hcfg v k s0 l s' Hv Hk) as (Ho & Hl & Hw).
  destruct (way_resume n Hn _ _ _ Hw s' eq_refl Ho fuel Hfuel) as (loan & -> & Hs).
  exists loan. split_and!; [done|done|]. intros c0 c' ->. apply Forall_singleton in Hl as [Hc0 Hc'].
  split_and!; [done|exact (Hc' 0%nat eq_refl)|]. unfold serve in Hs. simpl in Hs.
  destruct (echo_loop fuel _) as [[[] z]| |] eqn:Hrun; [|done..]. injection Hs as <- <-.
  assert (Hc : 0 < (mkConversation s0.(client) c0).(leased).(capacity)) by (simpl; rewrite Hc0; done).
  destruct (wp_run _ _ _ _ _ (echo_loop_spec fuel _ Hc Hfuel) Hrun) as (_ & echoed & He). by exists echoed.
Qed.

(** The server stays in bounds and keeps going.  At most [max_size] clients are in service, each
    on a lease of its own; polling a session never panics, moves no other, and ends it or brings
    it nearer its end, or leaves it parked in [get]; and while the pool is open and a session is not over, one of them has
    something to do. *)
Theorem echo_server_live cfg v :
  0 < n → config_ok cfg → echo_serving cfg v → server_room v →
  size (serving v) = size v.(sv_pool).(leases) ∧ N.of_nat (size (serving v)) ≤ cfg.(max_size) ∧
  (∀ k, ∃ v', session cfg k v = Val (tt, v') ∧ after_poll (fewer_left echo_left) k v v') ∧
  (v.(sv_pool).(world).(closed) = false →
   ∀ k x, v.(sessions) !! k = Some x → is_gone x = false → ∃ j, session_can_go v j = true).
Proof.
  intros Hn Hcfg. exact (server_lively accepted (roomy n) (GL := echo_laws n Hn) cfg Hcfg v).
Qed.
End server.

(** ** Two clients and one buffer *)

#[local] Existing Instances demo_features plain_runtime script_tcp.
#[local] Instance demo_buffers : ManageConnection Vec io_error := BuffersOf 2.

Definition one_buffer : PoolConfig :=
  mkConfig 1 0 (from_secs 30) (Some (from_secs 600)) (Some (from_secs 1800)) false true.
Lemma one_buffer_ok : config_ok one_buffer.
Proof. by split. Qed.

Definition client_a : EchoSession := mkEchoSession Starting (mkScript [104; 105; 33] [Ok 1] [] []).
Definition client_b : EchoSession := mkEchoSession Starting (mkScript [111; 107] [] [] []).
Definition echo_empty : Server Vec io_error EchoSession := mkServer (sys_init false 0) ∅.
(** The first is in service, the second waits. *)
Definition echo_two : Server Vec io_error EchoSession :=
  default echo_empty (server_run one_buffer
    [Arrive 0 client_a; Poll_session 0; Arrive 1 client_b; Poll_session 1; Poll_session 0] echo_empty).
(** Both have been served. *)
Definition echo_done : Server Vec io_error EchoSession :=
  default echo_empty (server_run one_buffer
    (Poll_session <$> [0; 0; 0; 0; 1; 1; 1; 1; 1; 1]%nat) echo_two).

Lemma echo_two_serving : echo_serving 2 one_buffer echo_two.
Proof.
  apply (server_run_reachable one_buffer accepted
    [Arrive 0 client_a; Poll_session 0; Arrive 1 client_b; Poll_session 1; Poll_session 0] echo_empty);
    [apply server_start|by repeat constructor|vm_compute; reflexivity].
Qed.
Lemma echo_done_serving : echo_serving 2 one_buffer echo_done.
Proof.
  apply (server_run_reachable one_buffer accepted (Poll_session <$> [0; 0; 0; 0; 1; 1; 1; 1; 1; 1]%nat) echo_two);
    [apply echo_two_serving|by repeat constructor|vm_compute; reflexivity].
Qed.

Definition served_a : EchoSession :=
  mkEchoSession (In_read (with_capacity 2)) (mkScript [] [] [] [104; 105; 33]).
Definition demo_loan : option (Vec * Vec) := Some (with_capacity 2, with_capacity 2).

Lemma echo_as_if_alone_witness :
  echo_done.(sessions) !! 0%nat = Some (mkVisit client_a [demo_loan] (Gone served_a)) ∧
  Echo.serve 4 (Some (with_capacity 2)) client_a.(client) = Val (Some (with_capacity 2), served_a.(client)).
Proof.
  pose proof (demo_runtime_laws None : RuntimeLaws plain_runtime).
  assert (Hk : echo_done.(sessions) !! 0%nat = Some (mkVisit client_a [demo_loan] (Gone served_a)))
    by (vm_compute; reflexivity).
  split; [exact Hk|].
  destruct (echo_as_if_alone 2 one_buffer echo_done 0 client_a [demo_loan] served_a 4
    eq_refl one_buffer_ok echo_done_serving Hk) as (loan & [= <-] & Hserve & _); [|exact Hserve].
  apply Nat.ltb_lt. vm_compute. reflexivity.
Defined.

Lemma echo_server_live_witness :
  size echo_two.(sv_pool).(leases) = 1%nat ∧ session_can_go echo_two 1 = false ∧
  N.of_nat (size (serving echo_two)) ≤ one_buffer.(max_size) ∧ ∃ j, session_can_go echo_two j = true.
Proof.
  pose proof (demo_runtime_laws None : RuntimeLaws plain_runtime).
  destruct (echo_server_live 2 one_buffer echo_two eq_refl one_buffer_ok echo_two_serving)
    as (_ & Hmax & _ & Hgo); [vm_compute; reflexivity|].
  split_and!; [vm_compute; reflexivity|vm_compute; reflexivity|exact Hmax|].
  apply (Hgo ltac:(vm_compute; reflexivity) 1%nat (mkVisit client_b [] (Asking (mkEchoSession Getting client_b.(client)))));
    vm_compute; reflexivity.
Defined.
