(* ===== verification/TcpPool.v ===== *)
(** The pooling front ([src/examples/tcp_pool.rs]): each request of a client is forwarded over an
    upstream leased for that one round trip. *)

From S2P Require Import Prelude Manage Text.

Section front.
Context `{Tcp}.

(** A pooled upstream and the flag a failed round trip clears. *)
Record Upstream := mkUpstream { up_stream : stream; healthy : bool }.

(** [Backend]: dialling upstream number [t] answers [dial t]. *)
Definition Backend (dial : nat → Poll (result stream io_error)) : ManageConnection Upstream io_error := {|
  connect t :=
    match dial t with
    | Pending => Pending
    | Ready (Err e) => Ready (Err e)
    | Ready (Ok s) => Ready (Ok (mkUpstream s true))
    end;
  is_valid _ up :=
    (Ready (if up.(healthy) then Ok tt else Err (mkIoError BrokenPipe "upstream marked dead")), up);
  has_broken _ up := (negb up.(healthy), up)
|}.

(** The client's stream and the request buffer. *)
Record Front := mkFront { client : stream; request : Vec }.

Definition read_client : St Front (result N io_error) := λ s,
  let '(r, b, c) := read_into (vec_clear s.(request)) s.(client) in Val (r, mkFront c b).
Definition write_client (bs : list N) : St Front (result unit io_error) := λ s,
  let '(r, c) := send bs s.(client) in Val (r, mkFront c s.(request)).

(** The round trip over a leased upstream: the reply, and the upstream as it is dropped. *)
Definition round_trip (up : Upstream) (req : list N) : outcome (option (list N) * Upstream) :=
  let '(written, s) := send req up.(up_stream) in
  match written with
  | Err _ => Val (None, mkUpstream s false)
  | Ok _ =>
      match read_exact (len req) s with
      | Val (Ok reply, s) => Val (Some reply, mkUpstream s up.(healthy))
      | Val (Err _, s) => Val (None, mkUpstream s false)
      | Panic => Panic
      | NoFuel => NoFuel
      end
  end.

(** [serve]: the answers of [local.get()] are given, one per request; the upstreams come back in
    order. *)
Fixpoint serve (leases : list (option Upstream)) : St Front (list Upstream) :=
  match leases with
  | [] => mret []
  | lease :: leases =>
      read ← read_client;
      match read with
      | Err _ => mret []
      | Ok n =>
          if n =? 0 then mret []
          else
            match lease with
            | None => mret []
            | Some up =>
                req ← gets request;
                a ← lift (round_trip up req.(contents));
                match a.1 with
                | None => mret [a.2]
                | Some reply =>
                    written ← write_client reply;
                    match written with
                    | Err _ => mret [a.2]
                    | Ok _ => ups ← serve leases; mret (a.2 :: ups)
                    end
                end
            end
      end
  end.
End front.

(** ** What a client and the pool get *)

Section front_spec.
Context {T : Tcp} {TL : TcpLaws T}.

(** One request, its reply, and the upstream before and after: the reply is as long as the
    request, nothing else was written to or taken from the upstream, and its flag is as it was. *)
Definition clean_trip (req reply : list N) (up up' : Upstream) : Prop :=
  len reply = len req ∧ outgoing up'.(up_stream) = outgoing up.(up_stream) ++ req ∧
  incoming up.(up_stream) = reply ++ incoming up'.(up_stream) ∧ up'.(healthy) = up.(healthy).

Lemma round_trip_spec up req :
  ∃ reply up', round_trip up req = Val (reply, up') ∧
    match reply with
    | Some reply => clean_trip req reply up up'
    | None => up'.(healthy) = false
    end.
Proof.
  unfold round_trip. destruct (send req (up_stream up)) as [[[]|e] s] eqn:Hs; [|by eexists _, _].
  destruct (send_reads _ _ _ _ Hs) as [Hi _]. pose proof (send_writes _ _ _ Hs) as Hw.
  destruct (wp_val _ _ _ (read_exact_spec (len req) s)) as ([reply|e] & s' & -> & Ho & _ & Hr);
    [|by eexists _, _].
  destruct Hr as [Hl Hi']. eexists _, _. split; [done|].
  unfold clean_trip. simpl. split_and!; [done|congruence|congruence|done].
Qed.

(** The trips made, in order; [dead] is the upstream of the trip that failed, if one did. *)
Fixpoint trips (leases : list (option Upstream)) (exchanged : list (list N * list N))
    (ups : list Upstream) {struct exchanged} : Prop :=
  match exchanged, leases, ups with
  | [], _, dead => (length dead ≤ 1)%nat ∧ Forall (λ up, up.(healthy) = false) dead
  | (req, reply) :: exchanged, Some up :: leases, up' :: ups =>
      req ≠ [] ∧ clean_trip req reply up up' ∧ trips leases exchanged ups
  | _, _, _ => False
  end.

Lemma front_spec leases s :
  wp (serve leases) (λ ups s', ∃ exchanged more, trips leases exchanged ups ∧
    incoming s.(client) = concat exchanged.*1 ++ more ∧
    (outgoing s'.(client) = outgoing s.(client) ++ concat exchanged.*2 ∨
     ∃ before req reply c e, exchanged = before ++ [(req, reply)] ∧
       outgoing c = outgoing s.(client) ++ concat before.*2 ∧ send reply c = (Err e, s'.(client)))) s.
Proof.
  revert s. induction leases as [|lease leases IH]; intros [c v]; cbn [serve].
  { wp_steps. exists [], (incoming c). simpl. rewrite app_nil_r. split_and!; [lia|constructor|done|by left]. }
  wp_step. unfold wp at 1, read_client. cbn [client request].
  destruct (read_into (vec_clear v) c) as [[r b] c1] eqn:Hr.
  destruct (read_into_spec _ _ _ _ _ Hr) as (_ & Ho & _ & Hm).
  assert (Hstop : ∀ dead, (length dead ≤ 1)%nat → Forall (λ up, up.(healthy) = false) dead →
    wp (mret dead) (λ ups s', ∃ exchanged more, trips (lease :: leases) exchanged ups ∧
      incoming c = concat exchanged.*1 ++ more ∧
      (outgoing s'.(client) = outgoing c ++ concat exchanged.*2 ∨
       ∃ before req reply c0 e, exchanged = before ++ [(req, reply)] ∧
         outgoing c0 = outgoing c ++ concat before.*2 ∧ send reply c0 = (Err e, s'.(client))))
      (mkFront c1 b)).
  { intros dead Hl Hd. apply wp_ret. exists [], (incoming c). simpl. rewrite app_nil_r.
    split_and!; [done..|by left]. }
  destruct r as [n|e]; [|by apply Hstop; [simpl; lia|]].
  destruct (N.eqb_spec n 0) as [_|Hn]; [by apply Hstop; [simpl; lia|]|].
  destruct lease as [up|]; [|by apply Hstop; [simpl; lia|]].
  destruct Hm as (bs & -> & Hb & Hi & _). simpl in Hb. wp_steps. cbn [request]. rewrite Hb.
  destruct (round_trip_spec up bs) as (reply & up' & Hrt & Hclean).
  eapply wp_lift; [exact Hrt|]. cbn [fst snd].
  destruct reply as [reply|]; [|by apply Hstop; [simpl; lia|repeat constructor]].
  wp_step. unfold wp at 1, write_client. cbn [client request].
  assert (Hne : bs ≠ []) by (by intros ->).
  destruct (send reply c1) as [w c2] eqn:Hs. destruct (send_reads _ _ _ _ Hs) as [Hi2 _].
  destruct w as [[]|e].
  - wp_step. eapply wp_mono; [apply IH|]. cbn [client]. intros ups s' (ex & more & Ht & Him & Hout).
    wp_steps. exists ((bs, reply) :: ex), more. cbn. split_and!; [done|done|done| |].
    { by rewrite Hi, <-Hi2, Him, app_assoc. }
    rewrite (send_writes _ _ _ Hs), Ho in Hout. rewrite <-!app_assoc in Hout.
    destruct Hout as [Hout|(before & req & rep & c0 & e & -> & Hc0 & He)]; [by left|right].
    exists ((bs, reply) :: before), req, rep, c0, e. rewrite <-app_assoc in Hc0. done.
  - wp_steps. exists [(bs, reply)], (incoming c1). cbn. rewrite app_nil_r.
    split_and!; [done|done|lia|constructor|done|]. right.
    exists [], bs, reply, c1, e. cbn. rewrite app_nil_r. done.
Qed.
End front_spec.

(** The pooling front.  Every request a client sends is answered with a reply of the same
    length, in order, each taken from the upstream leased for it; an upstream goes back flagged
    as it came, with exactly its reply taken from it, except the one whose round trip failed,
    which goes back flagged for the pool to discard. *)
Theorem front_exact {T : Tcp} {TL : TcpLaws T} leases (c : stream) v :
  ∃ ups c' v' exchanged more, serve leases (mkFront c v) = Val (ups, mkFront c' v') ∧
    trips leases exchanged ups ∧ incoming c = concat exchanged.*1 ++ more ∧
    (outgoing c' = outgoing c ++ concat exchanged.*2 ∨
     ∃ before req reply c0 e, exchanged = before ++ [(req, reply)] ∧
       outgoing c0 = outgoing c ++ concat before.*2 ∧ send reply c0 = (Err e, c')).
Proof.
  destruct (wp_val _ _ _ (front_spec leases (mkFront c v))) as (ups & [c' v'] & Hrun & ex & more & ?).
  by exists ups, c', v', ex, more.
Qed.

#[local] Existing Instance script_tcp.

(** An upstream that echoes, one that breaks, and a client with three requests. *)
Example front_run :
  serve [Some (mkUpstream (mkScript [1; 2; 9] [] [] []) true);
         Some (mkUpstream (mkScript [3] [] [] []) true);
         Some (mkUpstream (mkScript [5; 6] [] [] []) true)]
    (mkFront (mkScript [1; 2; 3; 4; 5; 6] [Ok 1; Ok 1; Ok 1] [] []) (with_capacity 16)) =
  Val ([mkUpstream (mkScript [9] [] [] [1; 2]) true; mkUpstream (mkScript [] [] [] [3; 4]) false],
       mkFront (mkScript [5; 6] [Ok 1] [] [1; 2]) (mkVec [3; 4] 16)).
Proof. vm_compute. reflexivity. Qed.
