(* ===== verification/FdPipe.v ===== *)
(** The pipe example ([src/examples/fd_pipe.rs]): a producer writes records into an anonymous
    pipe, a consumer on the same runtime tallies the bytes until the writer is closed.

    The two tasks interleave at their await points; how much of a [write_all] fits at a time and
    how much a [read] brings is the kernel's choice, within the room of the pipe and of the
    consumer's buffer.  [Buffers] is [Echo.BuffersOf size]. *)

From S2P Require Import Prelude Manage Text Echo.

(** The record buffers, sized to one message. *)
Definition pipe_buffers (size : N) : ManageConnection Vec io_error := BuffersOf size.

(** The producer: about to lease a buffer for record [i], writing what is left of it, past its
    loop with the writer dropped, or stopped by a failed write. *)
Inductive producer := AtRecord (i : N) | InWrite (i : N) (todo : list N) | Closed | Stopped.
(** The consumer: reading, or out of its loop at the end of the pipe or on an error. *)
Inductive consumer := Draining | AtEof | Errored.

(** [drained] are the bytes read so far. *)
Record Pipe := mkPipe {
  prod : producer;
  cons_ : consumer;
  queued : list N;
  total : N;
  drained : list N
}.

(** What happens next: the producer goes on to its next await point; the kernel takes [k] more
    bytes of the record, or refuses (as it does once the reader is gone); the consumer's read brings at most [n] bytes, or fails. *)
Inductive event := Produce | Push (k : nat) | WriteFails | Pull (n : nat) | ReadFails.

Section pipe.
Context {F : Features} (messages size : N) (room : N).

(** [buf.clear(); buf.resize(size, i as u8)]. *)
Definition record (i : N) : list N := replicate (N.to_nat size) (i mod 256).

(** The consumer's buffer. *)
Definition READ_BUFFER : N := 64 * 1024.

(** One event; [None] when it cannot happen. *)
Definition pipe_step (e : event) (p : Pipe) : option (outcome Pipe) :=
  let '(mkPipe pr co q t d) := p in
  match e with
  | Produce =>
      match pr with
      | AtRecord i =>
          Some (Val (mkPipe (if i <? messages then InWrite i (record i) else Closed) co q t d))
      | InWrite i [] => Some (Val (mkPipe (AtRecord (i + 1)) co q t d))
      | _ => None
      end
  | Push k =>
      match pr with
      | InWrite i todo =>
          if bool_decide (0 < k ≤ length todo)%nat && (len q + N.of_nat k <=? room) &&
             match co with Errored => false | _ => true end
          then Some (Val (mkPipe (InWrite i (drop k todo)) co (q ++ take k todo) t d))
          else None
      | _ => None
      end
  | WriteFails => match pr with InWrite i _ => Some (Val (mkPipe Stopped co q t d)) | _ => None end
  | Pull n =>
      match co with
      | Draining =>
          match q with
          | [] => if match pr with Closed | Stopped => true | _ => false end then Some (Val (mkPipe pr AtEof q t d)) else None
          | _ =>
              if bool_decide (0 < n ≤ length q)%nat && (N.of_nat n <=? READ_BUFFER) then
                Some (match add_u U64 t (N.of_nat n) with
                      | Val t => Val (mkPipe pr co (drop n q) t (d ++ take n q))
                      | Panic => Panic
                      | NoFuel => NoFuel
                      end)
              else None
          end
      | _ => None
      end
  | ReadFails => match co with Draining => Some (Val (mkPipe pr Errored q t d)) | _ => None end
  end.
End pipe.

Section runs.
Context {F : Features} (messages size room : N).

Definition pipe_init : Pipe := mkPipe (AtRecord 0) Draining [] 0 [].

Inductive pipe_reachable : Pipe → Prop :=
| pipe_start : pipe_reachable pipe_init
| pipe_next p e p' : pipe_reachable p → pipe_step messages size room e p = Some (Val p') → pipe_reachable p'.

(** The records from [0] to [n] one after the other. *)
Definition records (n : N) : list N := mjoin (record size <$> (N.of_nat <$> seq 0 (N.to_nat n))).

Lemma records_succ n : records (n + 1) = records n ++ record size n.
Proof.
  unfold records. rewrite N2Nat.inj_add, seq_app, !fmap_app. simpl.
  rewrite join_app. simpl. by rewrite N2Nat.id, app_nil_r.
Qed.

Lemma len_record i : len (record size i) = size.
Proof. unfold len, record. rewrite length_replicate. lia. Qed.

Lemma len_records n : len (records n) = n * size.
Proof.
  induction n as [|n IH] using N.peano_ind; [done|].
  rewrite <-N.add_1_r, records_succ, len_app, IH, len_record. lia.
Qed.

(** What has been handed to the pipe is what was drained and what is queued: the records before
    the producer's and the written part of its own. *)
Definition pipe_inv (p : Pipe) : Prop :=
  p.(total) = len p.(drained) ∧
  match p.(prod) with
  | AtRecord i => i ≤ messages ∧ p.(drained) ++ p.(queued) = records i
  | InWrite i todo => i < messages ∧ p.(drained) ++ p.(queued) ++ todo = records (i + 1)
  | Closed => p.(drained) ++ p.(queued) = records messages
  | Stopped => ∃ more, p.(drained) ++ p.(queued) ++ more = records messages
  end ∧
  (p.(cons_) = AtEof → p.(queued) = [] ∧ (p.(prod) = Closed ∨ p.(prod) = Stopped)).

Lemma records_prefix i j : i ≤ j → ∃ more, records j = records i ++ more.
Proof.
  intros Hle. exists (mjoin (record size <$> (N.of_nat <$> seq (N.to_nat i) (N.to_nat (j - i))))).
  unfold records. replace (N.to_nat j) with (N.to_nat i + N.to_nat (j - i))%nat at 1 by lia.
  by rewrite seq_app, !fmap_app, join_app.
Qed.

(** Whatever the producer is at, what is out is part of the whole. *)
Lemma pipe_inv_prefix p : pipe_inv p → ∃ more, p.(drained) ++ p.(queued) ++ more = records messages.
Proof.
  intros (_ & Hp & _). destruct (prod p) as [i|i todo| |]; [|destruct Hp as [Hi Hp]| |done].
  - destruct Hp as [Hi Hp]. destruct (records_prefix i messages Hi) as [more Hm].
    exists more. by rewrite app_assoc, Hp, Hm.
  - destruct (records_prefix (i + 1) messages ltac:(lia)) as [more Hm].
    exists (todo ++ more). by rewrite Hm, <-Hp, <-!app_assoc.
  - exists []. by rewrite app_nil_r.
Qed.

Lemma pipe_inv_total p : pipe_inv p → p.(total) + len p.(queued) ≤ messages * size.
Proof.
  intros Hp. destruct (pipe_inv_prefix p Hp) as [more Hm]. destruct Hp as [-> _].
  rewrite <-len_records, <-Hm, !len_app. lia.
Qed.

Lemma pipe_step_inv e p o :
  messages * size < U64 → pipe_inv p → pipe_step messages size room e p = Some o →
  ∃ p', o = Val p' ∧ pipe_inv p'.
Proof.
  intros Hb Hp. pose proof (pipe_inv_prefix p Hp) as Hpre. pose proof (pipe_inv_total p Hp) as Htot.
  destruct p as [pr co q t d], Hp as (Ht & Hp & He).
  destruct e as [|k| |n|]; cbn [pipe_step prod cons_ queued total drained] in *.
  - destruct pr as [i|i [|]| |]; [| |done..]; intros [= <-]; eexists; (split; [done|]).
    + destruct (N.ltb_spec i messages); split_and!; simpl; try done.
      * split; [done|]. by rewrite app_assoc, (proj2 Hp), records_succ.
      * intros Hc. by destruct (He Hc) as [_ [|]].
      * destruct Hp as [Hi Hp]. by replace messages with i by lia.
      * intros Hc. by destruct (He Hc) as [_ [|]].
    + split_and!; simpl; try done.
      * rewrite app_nil_r in Hp. split; [lia|apply Hp].
      * intros Hc. by destruct (He Hc) as [_ [|]].
  - destruct pr as [|i todo| |]; try done. case_match eqn:Hg; [|done]. intros [= <-].
    eexists. split; [done|]. split_and!; simpl; try done.
    + destruct Hp as [Hi Hp]. split; [done|]. by rewrite <-(app_assoc q), take_drop.
    + intros Hc. by destruct (He Hc) as [_ [|]].
  - destruct pr as [|i todo| |]; try done. intros [= <-]. eexists. split; [done|].
    split_and!; simpl; try done. intros Hc. by destruct (He Hc) as [_ [|]].
  - destruct co; try done. destruct q as [|c q].
    + destruct pr; cbn; try done; intros [= <-]; eexists; (split; [done|]); split_and!; simpl; auto.
    + destruct (bool_decide _ && _) eqn:Hg; [|done]. apply andb_prop in Hg as [Hn%bool_decide_eq_true _].
      set (q' := c :: q) in *. intros [= <-]. rewrite add_u_small.
      2: { assert (N.of_nat n ≤ len q') by (unfold len; lia). lia. }
      eexists. split; [done|]. split_and!; simpl.
      * rewrite len_app, Ht. f_equal. unfold len. rewrite length_take. lia.
      * assert (E : ∀ l, (d ++ take n q') ++ drop n q' ++ l = d ++ q' ++ l).
        { intros l. rewrite <-app_assoc, (app_assoc (take n q')), take_drop. done. }
        pose proof (E []) as E0. rewrite !app_nil_r in E0.
        destruct pr; rewrite ?E, ?E0; try done. destruct Hp as [more Hp]. exists more. by rewrite E.
      * done.
  - destruct co; try done. intros [= <-]. eexists. split; [done|]. split_and!; simpl; done.
Qed.

Lemma pipe_reachable_inv p : messages * size < U64 → pipe_reachable p → pipe_inv p.
Proof.
  intros Hb. induction 1 as [|p e p' _ IH Hs].
  - split_and!; simpl; try done. split; [lia|done].
  - by destruct (pipe_step_inv e p _ Hb IH Hs) as (p'' & [= <-] & ?).
Qed.
End runs.

(** Nothing is left to do. *)
Definition pipe_over (p : Pipe) : bool :=
  match p.(prod), p.(cons_) with Closed, (AtEof | Errored) | Stopped, (AtEof | Errored) => true | _, _ => false end.

(** How far the run is from its end: twice the bytes to be written, the bytes queued, and the
    producer's and the consumer's remaining moves. *)
Definition pipe_distance (messages size : N) (p : Pipe) : N :=
  match p.(prod) with
  | AtRecord i => 2 * ((messages - i) * size) + 2 * (messages - i) + 1
  | InWrite i todo => 2 * (len todo + (messages - (i + 1)) * size) + 2 * (messages - i)
  | Closed | Stopped => 0
  end + len p.(queued) + match p.(cons_) with Draining => 1 | _ => 0 end.

#[local] Lemma in_write_distance messages size i (n : N) :
  i < messages → n + (messages - (i + 1)) * size + size = n + (messages - i) * size.
Proof. intros Hi. replace (messages - i) with (messages - (i + 1) + 1) by lia. lia. Qed.

(** The pipe's tally.  When the producer has closed the pipe after its last record and the
    consumer has come to the end, what was drained is every record, whole and in order, and the
    tally is their size, however the two tasks and the kernel took turns. *)
Theorem pipe_tally {F : Features} messages size room p :
  messages * size < U64 → pipe_reachable messages size room p →
  p.(prod) = Closed → p.(cons_) = AtEof →
  p.(drained) = records size messages ∧ p.(total) = messages * size.
Proof.
  intros Hb Hp Hpr Hc. destruct (pipe_reachable_inv messages size room p Hb Hp) as (Ht & Hd & He).
  rewrite Hpr in Hd. destruct (He Hc) as [Hq _]. rewrite Hq, app_nil_r in Hd.
  split; [done|]. by rewrite Ht, Hd, len_records.
Qed.

(** The pipe comes to an end.  Every event brings the run closer to its end, none fails
    (no counter overflows), and until the end there is one that can happen; unless the consumer
    has failed, one that is not itself a failure. *)
Theorem pipe_ends {F : Features} messages size room p :
  messages * size < U64 → 0 < room → pipe_reachable messages size room p →
  (∀ e o, pipe_step messages size room e p = Some o →
     ∃ p', o = Val p' ∧ pipe_distance messages size p' < pipe_distance messages size p) ∧
  (pipe_over p = false → ∃ e, is_Some (pipe_step messages size room e p) ∧
     (p.(cons_) ≠ Errored → e ≠ WriteFails ∧ e ≠ ReadFails)).
Proof.
  intros Hb Hroom Hp. pose proof (pipe_reachable_inv messages size room p Hb Hp) as Hi. split.
  - intros e o Hs. destruct (pipe_step_inv messages size room e p o Hb Hi Hs) as (p' & -> & _).
    exists p'. split; [done|]. destruct Hi as (_ & Hpr & _). destruct p as [pr co q t d].
    unfold pipe_distance. cbn [prod cons_ queued] in *.
    destruct e as [|k| |n|]; cbn [pipe_step] in Hs.
    + destruct pr as [i|i [|c todo]| |]; simplify_eq; cbn [prod cons_ queued].
      * destruct (N.ltb_spec i messages); cbn [prod cons_ queued]; [|lia]. rewrite len_record.
        pose proof (in_write_distance messages size i 0). lia.
      * replace (messages - i) with (messages - (i + 1) + 1) by lia. lia.
    + destruct pr as [|i todo| |]; try done. destruct (bool_decide _ && _ && _) eqn:Hg; [|done].
      apply andb_prop in Hg as [[Hk%bool_decide_eq_true _]%andb_prop _]. simplify_eq. cbn [prod cons_ queued].
      generalize ((messages - (i + 1)) * size). intros Y. rewrite len_app. unfold len.
      rewrite length_take, length_drop. lia.
    + destruct pr as [|i todo| |]; simplify_eq; cbn [prod cons_ queued]. destruct Hpr as [Hlt _]. generalize ((messages - (i + 1)) * size). lia.
    + destruct co; try done. destruct q as [|c q].
      * destruct pr; simplify_eq; cbn [prod cons_ queued]; lia.
      * destruct (bool_decide _ && _) eqn:Hg; [|done].
        apply andb_prop in Hg as [Hk%bool_decide_eq_true _].
        destruct (add_u _ _ _) as [t'| |]; simplify_eq. cbn [prod queued cons_].
        unfold len. rewrite length_drop. lia.
    + destruct co; simplify_eq; cbn [prod cons_ queued]. lia.
  - destruct p as [pr co q t d]. intros Hov. cbn [cons_].
    destruct pr as [i|i [|c todo]| |].
    + exists Produce. simpl. eauto.
    + exists Produce. simpl. eauto.
    + destruct co; [|destruct Hi as (_ & _ & He); by destruct (He eq_refl) as [_ [|]]|].
      * destruct q as [|b q].
        { exists (Push 1). cbn [pipe_step]. rewrite bool_decide_eq_true_2 by (simpl; lia).
          rewrite len_nil, (proj2 (N.leb_le _ _)) by lia. simpl. eauto. }
        exists (Pull 1). cbn [pipe_step]. rewrite bool_decide_eq_true_2 by (simpl; lia). simpl. eauto.
      * exists WriteFails. simpl. split; [eauto|done].
    + destruct co; [|done..]. destruct q as [|b q].
      * exists (Pull 1). simpl. eauto.
      * exists (Pull 1). cbn [pipe_step]. rewrite bool_decide_eq_true_2 by (simpl; lia). simpl. eauto.
    + destruct co; [|done..]. destruct q as [|b q].
      * exists (Pull 1). simpl. eauto.
      * exists (Pull 1). cbn [pipe_step]. rewrite bool_decide_eq_true_2 by (simpl; lia). simpl. eauto.
Qed.

(** Two records of three bytes through a pipe of four. *)
#[local] Instance checked : Features := {| feature_metrics := false; overflow_checks := true |}.
Fixpoint pipe_run (es : list event) (p : Pipe) : option Pipe :=
  match es with
  | [] => Some p
  | e :: es => match pipe_step 2 3 4 e p with Some (Val p) => pipe_run es p | _ => None end
  end.
Lemma pipe_run_reachable es p p' :
  pipe_reachable 2 3 4 p → pipe_run es p = Some p' → pipe_reachable 2 3 4 p'.
Proof.
  revert p. induction es as [|e es IH]; intros p Hp; simpl; [by intros [= <-]|].
  destruct (pipe_step 2 3 4 e p) as [[p1| |]|] eqn:He; try done. apply IH. by eapply pipe_next.
Qed.
Definition pipe_schedule : list event :=
  [Produce; Push 2; Pull 1; Push 1; Produce; Produce; Push 2; Pull 2; Push 1; Produce; Produce; Pull 3; Pull 1].
Definition piped : Pipe := default pipe_init (pipe_run pipe_schedule pipe_init).

Lemma piped_reachable : pipe_reachable 2 3 4 piped.
Proof. apply (pipe_run_reachable pipe_schedule pipe_init); [constructor|vm_compute; reflexivity]. Qed.

Lemma pipe_tally_witness : piped.(drained) = records 3 2 ∧ piped.(total) = 6.
Proof.
  apply (pipe_tally 2 3 4 piped); [reflexivity|apply piped_reachable|vm_compute; reflexivity..].
Defined.

Lemma pipe_ends_witness :
  pipe_over pipe_init = false ∧
  ∃ e, is_Some (pipe_step 2 3 4 e pipe_init) ∧
    (pipe_init.(cons_) ≠ Errored → e ≠ WriteFails ∧ e ≠ ReadFails).
Proof.
  split; [reflexivity|].
  apply (pipe_ends 2 3 4 pipe_init); [reflexivity|reflexivity|constructor|reflexivity].
Defined.
