(* ===== verification/Args.v ===== *)
(** The command lines of the example programs: positional arguments with defaults (the servers
    under [src/examples] and under [src/crates/deadpool-baseline/examples]), and flags that each
    take a number (the load generators). *)

From S2P Require Import Prelude Text.

(** [parse::<u32>()]. *)
Definition parse_u32 (s : list N) : option N :=
  match parse_number s with Some n => if n <? U32 then Some n else None | None => None end.

(** [std::env::args().nth(n)]; the program's name is argument 0. *)
Definition nth_arg (n : nat) (args : list (list N)) : option (list N) := args !! n.

Section args.
(** [parse_addr] is [parse::<SocketAddr>()]. *)
Context {A : Type} (parse_addr : list N → option A).

(** Every way these programs refuse their arguments is an [InvalidInput] error. *)
Inductive usage :=
| Usage | Bad_address | Needs_value (flag : list N) | Bad_number (word : list N)
| Unknown_flag (flag : list N) | Bad_mode (mode : list N).

(** ** The compio servers: [ADDR] and [CAPACITY]

    A capacity that is missing or is no number is the default. *)
Definition server_args (default_addr : string) (default_capacity : N) (args : list (list N)) :
    result (A * N) usage :=
  match parse_addr (default (codes default_addr) (nth_arg 1 args)) with
  | None => Err Bad_address
  | Some a => Ok (a, default default_capacity (nth_arg 2 args ≫= parse_u32))
  end.

Definition echo_args := server_args "0.0.0.0:7000" 1024.
Definition task_echo_args := server_args "127.0.0.1:7000" 1024.
Definition udp_echo_args := server_args "0.0.0.0:7000" 1024.
Definition tcp_pool_args := server_args "0.0.0.0:7000" 64.
Definition wal_args := server_args "0.0.0.0:7000" 1024.

(** [unix_echo] takes a path. *)
Definition unix_echo_args (args : list (list N)) : list N * N :=
  (default (codes "/tmp/compio-pool-echo.sock") (nth_arg 1 args),
   default 1024 (nth_arg 2 args ≫= parse_u32)).

(** [fd_pipe]: [MESSAGES] and [SIZE]; [fanout_requests]: [REQUESTS], [CAPACITY], [CLIENTS] and
    [SIZE]. *)
Definition fd_pipe_args (args : list (list N)) : N * N :=
  (default 100000 (nth_arg 1 args ≫= parse_number), default 256 (nth_arg 2 args ≫= parse_number)).
Definition arg {T} (parse : list N → option T) (n : nat) (args : list (list N)) : option T :=
  nth_arg n args ≫= parse.
Definition fanout_args (args : list (list N)) : N * N * N * N :=
  (default 50000 (arg parse_number 1 args), default 8 (arg parse_u32 2 args),
   default 128 (arg parse_number 3 args), default 256 (arg parse_number 4 args)).

(** ** The load generators: an address, then flags *)

Section flags.
(** [set o flag n] is the match on the flag; it refuses those it does not know. *)
Context {O : Type} (set : O → list N → N → option O).

(** The number is parsed before the flag is looked at. *)
Fixpoint flag_loop (o : O) (args : list (list N)) : result O usage :=
  match args with
  | [] => Ok o
  | [flag] => Err (Needs_value flag)
  | flag :: val :: args =>
      match parse_number val with
      | None => Err (Bad_number flag)
      | Some n => match set o flag n with None => Err (Unknown_flag flag) | Some o => flag_loop o args end
      end
  end.

(** The words after the program's name; [start a] are the defaults at address [a]. *)
Definition flag_parse (start : A → O) (args : list (list N)) : result O usage :=
  match args with
  | [] => Err Usage
  | a :: args =>
      match parse_addr a with
      | None => Err Bad_address
      | Some a => flag_loop (start a) args
      end
  end.
End flags.

(** ** The tokio servers: [ADDR], [CAPACITY], [WORKERS] and [MODE]

    Here a number that does not parse is refused.  [parallelism] is
    [available_parallelism()]. *)
Inductive mode := Percore | Default_.

Definition number_or (d : N) (o : option (list N)) : result N usage :=
  match o with
  | None => Ok d
  | Some w => match parse_number w with Some n => Ok n | None => Err (Bad_number w) end
  end.

Definition mode_of (o : option (list N)) : result mode usage :=
  match o with
  | None => Ok Percore
  | Some w =>
      if bool_decide (w = codes "percore") then Ok Percore
      else if bool_decide (w = codes "default") then Ok Default_
      else Err (Bad_mode w)
  end.

(** [ADDR], [CAPACITY] and [WORKERS], in the order they are looked at. *)
Definition tokio_addr (args : list (list N)) : result A usage :=
  match parse_addr (default (codes "0.0.0.0:7000") (nth_arg 1 args)) with
  | None => Err Bad_address
  | Some a => Ok a
  end.
Definition tokio_args3 (parallelism : option N) (args : list (list N)) : result (A * N * N) usage :=
  match tokio_addr args with
  | Err e => Err e
  | Ok a =>
      match number_or 1024 (nth_arg 2 args) with
      | Err e => Err e
      | Ok cap =>
          match number_or (default 1 parallelism) (nth_arg 3 args) with
          | Err e => Err e
          | Ok workers => Ok (a, cap, workers)
          end
      end
  end.
(** [echo_tpc] takes the capacity and does not look at it. *)
Definition tpc_args (parallelism : option N) (args : list (list N)) : result (A * N) usage :=
  match tokio_addr args with
  | Err e => Err e
  | Ok a =>
      match number_or (default 1 parallelism) (nth_arg 3 args) with
      | Err e => Err e
      | Ok workers => Ok (a, workers)
      end
  end.
(** The mode is looked at last, when everything else was good. *)
Definition tokio_args (parallelism : option N) (args : list (list N)) : result (A * N * N * mode) usage :=
  match tokio_args3 parallelism args with
  | Err e => Err e
  | Ok (a, cap, workers) =>
      match mode_of (nth_arg 4 args) with
      | Err e => Err e
      | Ok m => Ok (a, cap, workers, m)
      end
  end.
End args.
