(* ===== verification/Mains.v ===== *)
(** The [main]s of the compio servers under [src/examples]: what becomes of the process.

    A server's accept loop never ends, so a worker that gets that far serves for good; one that
    does not has panicked.  Sockets, threads and the runtime are the system's: what they answer
    is given. *)

From stdpp Require Import pretty strings.
From S2P Require Import Prelude Builder Cpu Workers Text Args.

(** ** How a process ends *)

Inductive forever := Forever.
Section fate.
Context {E : Type}.

Inductive problem := Bad_arguments (u : usage) | Bad_origin | Trouble (e : Workers.io_error E).
(** [main] never returns, returns, or panics. *)
Inductive fate := Serves | Returns (r : result unit problem) | Dies (message : string).

(** [Workers::join], and [let _ = handle.join()] over the handles: waiting for one worker after
    the other, their results dropped. *)
Fixpoint wait (ends : list (result forever string)) : fate :=
  match ends with
  | [] => Returns (Ok tt)
  | Ok Forever :: _ => Serves
  | Err _ :: ends => wait ends
  end.

(** [Pool::builder().max_size(capacity).build(..).expect("max_size is nonzero")]. *)
Definition with_pool (capacity : N) (go_on : fate) : fate :=
  match build (with_max_size capacity builder_new) tt with
  | Err _ => Dies "max_size is nonzero"
  | Ok _ => go_on
  end.

Definition listening (bound : result unit E) : fate :=
  match bound with Ok _ => Serves | Err e => Returns (Err (Trouble (Os e))) end.
End fate.
Arguments problem : clear implicits.
Arguments fate : clear implicits.

(** ** The datagram socket of [udp_echo.rs] *)

Inductive udp_call := Datagram_socket (d : Domain) | Udp_reuse_address | Udp_reuse_port | Udp_bind (a : SocketAddr).
Definition udp_plan (a : SocketAddr) : list udp_call :=
  [Datagram_socket (for_address a); Udp_reuse_address; Udp_reuse_port; Udp_bind a].
Definition bind_reuseport_udp {E} (sys : udp_call → result unit E) (a : SocketAddr) : result unit E * list udp_call :=
  attempt sys (udp_plan a).

Section mains.
Context {E RT : Type} (parse_addr : list N → option SocketAddr).
Context (get_core_ids : option (list CoreId)) (set_for_current : CoreId → bool).
Context (spawn : string → result unit E) (runtime : result RT string).
(** What the calls of worker [i] answer, and whether compio takes its listener. *)
Context (linux : bool) (sys : nat → socket_call → result unit E) (udp_sys : nat → udp_call → result unit E).
Context (from_std : nat → bool).

(** ** One worker per core *)

(** A worker's body, on its runtime. *)
Definition accepting (a : SocketAddr) (i : nat) : result forever string :=
  match (bind_reuseport (sys i) linux a 1024 None).1 with
  | Err _ => Err "bind SO_REUSEPORT"
  | Ok _ => if from_std i then Ok Forever else Err "wrap listener in ring"
  end.
Definition echoing_datagrams (a : SocketAddr) (i : nat) : result forever string :=
  match (bind_reuseport_udp (udp_sys i) a).1 with
  | Err _ => Err "bind SO_REUSEPORT UDP"
  | Ok _ => if from_std i then Ok Forever else Err "wrap socket in ring"
  end.

(** [PerCore::new(cpu::cores()).name(prefix).block_on_each(..)?], then what [main] prints,
    which may panic, and [workers.join()]. *)
Definition per_core (prefix : string) (print : option string) (body : nat → result forever string) : fate E :=
  let pc : PerCore unit := with_name prefix (percore_new (Cpu.cores get_core_ids)) in
  match (block_on_each set_for_current spawn (λ _, runtime) (λ _ (f : result forever string), f) pc
           (λ ctx, body ctx.(index))).1 with
  | Err e => Returns (Err (Trouble e))
  | Ok ws => match print with Some message => Dies message | None => wait (join ws) end
  end.

Definition echo_main (args : list (list N)) : fate E :=
  match echo_args parse_addr args with
  | Err u => Returns (Err (Bad_arguments u))
  | Ok (a, capacity) => with_pool capacity (per_core "echo" None (accepting a))
  end.
(** The line [tcp_pool] prints names the upstream, which is when a bad one is noticed. *)
Definition tcp_pool_main (upstream : option (list N)) (args : list (list N)) : fate E :=
  match tcp_pool_args parse_addr args with
  | Err u => Returns (Err (Bad_arguments u))
  | Ok (a, capacity) =>
      let print := match parse_addr (default (codes "127.0.0.1:7001") upstream) with
                   | None => Some "UPSTREAM must be host:port"%string
                   | Some _ => None
                   end in
      with_pool capacity (per_core "tcp_pool" print (accepting a))
  end.
Definition file_server_main (args : list (list N)) : fate E :=
  match echo_args parse_addr args with
  | Err u => Returns (Err (Bad_arguments u))
  | Ok (a, capacity) => with_pool capacity (per_core "file_server" None (accepting a))
  end.

(** ** Workers spawned by hand: [wal.rs] and [udp_echo.rs] *)

Fixpoint spawn_workers (body : nat → CoreId → result forever string) (i : nat) (cores : list CoreId) :
    result (list (result forever string)) E :=
  match cores with
  | [] => Ok []
  | core :: cores =>
      match spawn ("worker/" +:+ pretty i) with
      | Err e => Err e
      | Ok _ =>
          match spawn_workers body (S i) cores with
          | Err e => Err e
          | Ok handles => Ok (body i core :: handles)
          end
      end
  end.
Definition by_hand (body : nat → CoreId → result forever string) : fate E :=
  match Cpu.cores get_core_ids with
  | [] => Returns (Err (Trouble (Unsupported "no cores to run on")))
  | cores =>
      match spawn_workers body 0 cores with
      | Err e => Returns (Err (Trouble (Os e)))
      | Ok handles => wait handles
      end
  end.

(** The [worker]s: pin, whatever comes of it, build the runtime, serve. *)
Definition run_worker (body : nat → result forever string) (i : nat) (core : CoreId) : result forever string :=
  let _ := pin_current set_for_current core in
  match runtime with Err message => Err message | Ok _ => body i end.
Definition wal_worker (a : SocketAddr) := run_worker (accepting a).
Definition udp_worker (a : SocketAddr) := run_worker (echoing_datagrams a).

Definition wal_main (create_dir_all : result unit E) (args : list (list N)) : fate E :=
  match wal_args parse_addr args with
  | Err u => Returns (Err (Bad_arguments u))
  | Ok (a, capacity) =>
      match create_dir_all with
      | Err e => Returns (Err (Trouble (Os e)))
      | Ok _ => with_pool capacity (by_hand (wal_worker a))
      end
  end.
Definition udp_echo_main (args : list (list N)) : fate E :=
  match udp_echo_args parse_addr args with
  | Err u => Returns (Err (Bad_arguments u))
  | Ok (a, capacity) => with_pool capacity (by_hand (udp_worker a))
  end.

(** ** One runtime *)

Definition on_runtime (go_on : fate E) : fate E :=
  match runtime with Err message => Dies message | Ok _ => go_on end.

Definition task_echo_main (bound : SocketAddr → result unit E) (args : list (list N)) : fate E :=
  match task_echo_args parse_addr args with
  | Err u => Returns (Err (Bad_arguments u))
  | Ok (a, capacity) => with_pool capacity (on_runtime (listening (bound a)))
  end.

(** The core [unix_echo] pins itself to, if there is one. *)
Definition unix_core : option CoreId := List.hd_error (Cpu.cores get_core_ids).
Definition unix_echo_main (bound : list N → result unit E) (args : list (list N)) : fate E :=
  let '(path, capacity) := unix_echo_args args in
  with_pool capacity (on_runtime (listening (bound path))).

(** [http_proxy]: the origin is dialled where [ORIGIN] says, or is started here. *)
Definition origin_addr (origin : option (list N)) (any : result SocketAddr E) : result SocketAddr (problem E) :=
  match origin with
  | Some s => match parse_addr s with None => Err Bad_origin | Some a => Ok a end
  | None => match any with Err e => Err (Trouble (Os e)) | Ok a => Ok a end
  end.
Definition http_proxy_main (origin : option (list N)) (any : result SocketAddr E)
    (bound : SocketAddr → result unit E) (args : list (list N)) : fate E :=
  match server_args parse_addr "127.0.0.1:8080" 16 args with
  | Err u => Returns (Err (Bad_arguments u))
  | Ok (listen, capacity) =>
      on_runtime
        match origin_addr origin any with
        | Err e => Returns (Err e)
        | Ok _ => with_pool capacity (listening (bound listen))
        end
  end.

(** [scatter_gather]: a backend and a pool for every shard, then the server. *)
Fixpoint start_shards (any : nat → result SocketAddr E) (capacity : N) (ids : list nat) (go_on : fate E) : fate E :=
  match ids with
  | [] => go_on
  | i :: ids =>
      match any i with
      | Err e => Returns (Err (Trouble (Os e)))
      | Ok _ => with_pool capacity (start_shards any capacity ids go_on)
      end
  end.
Definition scatter_gather_args (args : list (list N)) : result (SocketAddr * N * N) usage :=
  match parse_addr (default (codes "127.0.0.1:9000") (nth_arg 1 args)) with
  | None => Err Bad_address
  | Some a => Ok (a, default 4 (nth_arg 2 args ≫= parse_number), default 8 (nth_arg 3 args ≫= parse_u32))
  end.
Definition scatter_gather_main (any : nat → result SocketAddr E)
    (bound : SocketAddr → result unit E) (args : list (list N)) : fate E :=
  match scatter_gather_args args with
  | Err u => Returns (Err (Bad_arguments u))
  | Ok (listen, shards, capacity) =>
      on_runtime (start_shards any capacity (seq 0 (N.to_nat shards)) (listening (bound listen)))
  end.
End mains.

(** ** Lemmas *)

Lemma wait_spec {E} (ends : list (result forever string)) :
  (wait (E:=E) ends = Serves ∧ Ok Forever ∈ ends) ∨ (wait (E:=E) ends = Returns (Ok tt) ∧ Ok Forever ∉ ends).
Proof.
  induction ends as [|[[]|m] ends IH]; cbn [wait].
  - right. split; [done|apply not_elem_of_nil].
  - left. split; [done|left].
  - destruct IH as [[-> Hin]|[-> Hout]]; [left|right]; (split; [done|]).
    + by right.
    + by intros [|]%elem_of_cons.
Qed.

Section starting.
Context {E RT : Type} (get_core_ids : option (list CoreId)) (set_for_current : CoreId → bool).
Context (spawn : string → result unit E) (runtime : result RT string).
Implicit Types body : nat → result forever string.

(** The hand-written loop collects what [PerCore]'s does. *)
Lemma spawn_workers_loop body i cores :
  let r := (spawn_loop set_for_current spawn "worker"
              (λ ctx, match runtime with Ok _ => body ctx.(index) | Err m => Err m end) i cores).1 in
  match spawn_workers spawn (run_worker set_for_current runtime body) i cores with
  | Ok handles => ∃ hs, r = Ok hs ∧ ends <$> hs = handles
  | Err e => r = Err (Os e)
  end.
Proof.
  cbv zeta. revert i. induction cores as [|core cores IH]; intros i; cbn [spawn_workers spawn_loop].
  { by exists []. }
  change ("worker" +:+ "/" +:+ pretty i) with ("worker/" +:+ pretty i).
  destruct (spawn ("worker/" +:+ pretty i)) as [[]|e]; [|done]. specialize (IH (S i)).
  destruct (spawn_workers spawn _ (S i) cores) as [handles|e];
    destruct (spawn_loop _ _ _ _ (S i) cores) as [[hs'|e'] started]; cbn [fst] in *.
  - destruct IH as (hs & [= ->] & <-). by eexists.
  - by destruct IH as (hs & [=] & _).
  - discriminate IH.
  - by injection IH as ->.
Qed.

Lemma per_core_waits prefix body rt :
  let cs := Cpu.cores get_core_ids in
  cs ≠ [] → (∀ i, (i < length cs)%nat → spawn (prefix +:+ "/" +:+ pretty i) = Ok tt) → runtime = Ok rt →
  per_core get_core_ids set_for_current spawn runtime prefix None body = wait (body <$> seq 0 (length cs)).
Proof.
  cbv zeta. intros Hne Hsp Hrt. unfold per_core, block_on_each, spawn_each, with_name, percore_new.
  cbn [pc_cores pc_name pc_proactor]. generalize dependent (Cpu.cores get_core_ids). intros cs Hne Hsp.
  destruct cs as [|c cs]; [done|]. revert Hsp Hne. set (all := c :: cs). intros Hsp _.
  match goal with |- context [spawn_loop _ _ _ ?b 0 all] => pose proof (spawn_loop_spec set_for_current spawn prefix b 0 all) as Hl end.
  cbv zeta in Hl. destruct (spawn_loop _ _ _ _ 0 all) as [[hs|e] started]; cbn [fst].
  - destruct Hl as (-> & _ & _). unfold join. cbn [handles]. rewrite Hrt. f_equal.
    clear. generalize all. clear. intros all. apply list_eq. intros i.
    rewrite !list_lookup_fmap, list_lookup_imap. destruct (decide (i < length all)%nat) as [Hi|Hi].
    + rewrite lookup_seq_lt by done. destruct (lookup_lt_is_Some_2 all i Hi) as [c0 ->]. done.
    + rewrite lookup_seq_ge, lookup_ge_None_2 by lia. done.
  - destruct Hl as (k & os & _ & Hk & _ & Hbad & _). cbn [Nat.add] in Hbad. rewrite Hsp in Hbad by done. discriminate Hbad.
Qed.
End starting.

(** ** The theorems *)

(** The loop [wal] and [udp_echo] spell out is [PerCore]'s.  Spawning the workers by hand, each
    pinned and given its runtime, comes to what [PerCore] under its default name comes to: the
    same refusal of an empty core list, the same first failure to spawn, the same waiting. *)
Theorem by_hand_is_per_core {E RT} get_core_ids set_for_current spawn (runtime : result RT string)
    (body : nat → result forever string) :
  by_hand (E:=E) get_core_ids spawn (run_worker set_for_current runtime body) =
  per_core get_core_ids set_for_current spawn runtime "worker" None body.
Proof.
  unfold by_hand, per_core, block_on_each, spawn_each, with_name, percore_new. cbn [pc_cores pc_name pc_proactor].
  pose proof (spawn_workers_loop set_for_current spawn runtime body 0 (Cpu.cores get_core_ids)) as Hl. cbv zeta in Hl.
  destruct (Cpu.cores get_core_ids) as [|c cs]; [done|].
  destruct (spawn_workers spawn _ 0 (c :: cs)) as [handles|e].
  - destruct Hl as (hs & Hr & <-). by destruct (spawn_loop _ _ _ _ 0 (c :: cs)) as [? started]; cbn [fst] in *; subst.
  - by destruct (spawn_loop _ _ _ _ 0 (c :: cs)) as [? started]; cbn [fst] in *; subst.
Qed.

(** The echo server's fate.  Asked for no capacity, it panics; else, once its threads are
    started and their runtimes built, it serves as long as one worker gets its listener, and
    returns, without an error, when none does. *)
Theorem echo_fate {E RT} parse_addr get_core_ids set_for_current spawn (runtime : result RT string)
    linux (sys : nat → socket_call → result unit E) from_std args a capacity :
  echo_args parse_addr args = Ok (a, capacity) →
  let cs := Cpu.cores get_core_ids in
  let up i := accepting linux sys from_std a i = Ok Forever in
  let fate := echo_main parse_addr get_core_ids set_for_current spawn runtime linux sys from_std args in
  (capacity = 0 → fate = Dies "max_size is nonzero") ∧
  (0 < capacity → cs ≠ [] → (∀ i, (i < length cs)%nat → spawn ("echo/" +:+ pretty i) = Ok tt) → (∃ rt, runtime = Ok rt) →
   (fate = Serves ∧ ∃ i, (i < length cs)%nat ∧ up i) ∨
   (fate = Returns (Ok tt) ∧ ∀ i, (i < length cs)%nat → ¬ up i)).
Proof.
  intros Hargs. cbv zeta. unfold echo_main. rewrite Hargs. unfold with_pool, build. cbn [config with_max_size max_size].
  split; [by intros ->|]. intros Hcap Hne Hsp [rt Hrt].
  assert ((max_size (config (with_max_size capacity builder_new)) =? 0) = false) as -> by (cbn; by destruct capacity).
  rewrite (per_core_waits get_core_ids set_for_current spawn runtime "echo" _ rt Hne Hsp Hrt).
  destruct (wait_spec (E:=E) (accepting linux sys from_std a <$> seq 0 (length (Cpu.cores get_core_ids)))) as [[-> Hin]|[-> Hout]].
  - left. split; [done|]. apply list_elem_of_fmap in Hin as (i & Hup & Hi%elem_of_seq). exists i. split; [lia|done].
  - right. split; [done|]. intros i Hi Hup. apply Hout. rewrite <-Hup. apply list_elem_of_fmap_2, elem_of_seq. lia.
Qed.

(** The datagram socket: both sharing options are set before the address is bound. *)
Theorem bind_reuseport_udp_exact {E} (sys : udp_call → result unit E) a :
  match bind_reuseport_udp sys a with
  | (Ok _, made) => made = udp_plan a ∧ ∀ c, c ∈ udp_plan a → sys c = Ok tt
  | (Err e, made) => ∃ before c after, udp_plan a = before ++ c :: after ∧ made = before ++ [c] ∧ sys c = Err e
  end.
Proof.
  pose proof (attempt_spec sys (udp_plan a)) as H. unfold bind_reuseport_udp.
  destruct (attempt sys (udp_plan a)) as [[[]|e] made]; [done|]. naive_solver.
Qed.

(** Two cores, the port of the first taken: the server goes on with the second. *)
Definition demo_address (s : list N) : option SocketAddr := Some (V4 0 7000).
Definition half_up (i : nat) (c : socket_call) : result unit string :=
  match i, c with O, Bind _ => Err "in use"%string | _, _ => Ok tt end.

Lemma echo_fate_witness :
  echo_main (RT:=unit) demo_address (Some [mkCoreId 0; mkCoreId 1]) (λ _, true) (λ _, Ok tt) (Ok tt) true half_up
    (λ _, true) [] = Serves.
Proof.
  destruct (echo_fate (RT:=unit) demo_address (Some [mkCoreId 0; mkCoreId 1]) (λ _, true) (λ _, Ok tt) (Ok tt) true
    half_up (λ _, true) [] (V4 0 7000) 1024 eq_refl) as [_ [[Hf _]|[_ Hno]]];
    [done|done|by intros|by exists tt|exact Hf|].
  destruct (Hno 1%nat); [vm_compute; lia|reflexivity].
Defined.

(** Every port taken: nobody serves, and [main] has nothing to report. *)
Lemma nobody_serves :
  echo_main (E:=string) (RT:=unit) demo_address (Some [mkCoreId 0; mkCoreId 1]) (λ _, true) (λ _, Ok tt) (Ok tt) true
    (λ _ c, match c with Bind _ => Err "in use" | _ => Ok tt end) (λ _, true) [] = Returns (Ok tt).
Proof. reflexivity. Qed.

(** Without shards nothing needs a pool, and a capacity of zero goes unnoticed. *)
Lemma no_shards_no_pool :
  let args shards := [codes "scatter_gather"; codes "127.0.0.1:9000"; codes shards; codes "0"] in
  scatter_gather_main (E:=string) (RT:=unit) demo_address (Ok tt) (λ _, Ok (V4 0 1)) (λ _, Ok tt) (args "0") = Serves ∧
  scatter_gather_main (E:=string) (RT:=unit) demo_address (Ok tt) (λ _, Ok (V4 0 1)) (λ _, Ok tt) (args "1") =
    Dies "max_size is nonzero".
Proof. split; reflexivity. Qed.
