(* ===== verification/Tokio.v ===== *)
(** The scaffolding the tokio servers under [src/crates/deadpool-baseline/examples] share: which
    cores their threads are pinned to, the listener, the size of the pool, how a worker starts
    and how [main] waits.  deadpool and tokio are not modelled; what they answer is given. *)

From S2P Require Import Prelude Text Args.

(** ** Cores *)

(** [CPU_SETSIZE]. *)
Definition CPU_SETSIZE : N := 1024.

(** [mask] is the set [sched_getaffinity] fills in, when it works. *)
Definition core_ids (mask : option (N → bool)) (parallelism : option N) : list N :=
  match mask with
  | Some set => filter (λ i, set i = true) (N.of_nat <$> seq 0 (N.to_nat CPU_SETSIZE))
  | None => N.of_nat <$> seq 0 (N.to_nat (default 1 parallelism))
  end.

(** The mask handed to [sched_setaffinity]. *)
Definition pin (cpu : N) : N → bool := λ i, i =? cpu.

(** [cores.get(i % cores.len().max(1)).copied()]. *)
Definition core_of (cores : list N) (i : nat) : option N :=
  cores !! (i mod (length cores `max` 1))%nat.

(** ** The listener *)

Section listener.
Context {A E : Type}.

Inductive tcp_call :=
| New_socket | Reuse_address | Reuse_port | Nonblocking | Bind_to (a : A) | Listen_with (backlog : N).

Definition listener_plan (a : A) : list tcp_call :=
  [New_socket; Reuse_address; Reuse_port; Nonblocking; Bind_to a; Listen_with 1024].

Definition reuseport_listener (sys : tcp_call → result unit E) (a : A) : result unit E * list tcp_call :=
  attempt sys (listener_plan a).
End listener.
Arguments tcp_call : clear implicits.

(** ** Pool sizes *)

Definition saturating_mul (a b : N) : N := (a * b) `min` (U64 - 1).
Definition percore_size (cap : N) : N := cap `max` 1.
Definition default_size (cap workers : N) : N := saturating_mul cap workers `max` 1.

(** ** A worker's start *)

Section start.
Context {A E : Type}.

(** What can go wrong on the way, outside: the runtime, the pool, the first connection ([reach]
    is whether prewarming got one), tokio taking the listener, and the first [accept] to fail,
    if one ever does. *)
Record Outside := mkOutside {
  runtime_build : result unit E;
  pool_build : result unit E;
  reach : bool;
  wrapped : result unit E;
  accept_fails : option E
}.

Inductive happening := Pinned (cpu : N) | Pool_of (max_size : N) | Prewarmed | Called (c : tcp_call A).

(** A worker serves for good, has failed, has panicked, or has ended the process. *)
Inductive stand := Serving | Broke (e : E) | Panicked | Exited (code : N).

(** A program's way: how large its pool is, if it has one; whether a first connection is made
    before serving; whether failing to build the pool panics; whether a failed [accept] is only
    counted; whether the line it prints at the start can be made. *)
Record Shop := mkShop {
  pool_max : option N; prewarm : bool; build_panics : bool; tolerant : bool; printable : bool
}.

(** The pool is built, then the first connection made, then [listen], then the accept loop. *)
Definition open_shop (shop : Shop) (listen : result unit E * list (tcp_call A)) (o : Outside) :
    list happening * stand :=
  let serve :=
    (Called <$> listen.2,
     match listen.1 with
     | Err e => Broke e
     | Ok _ => match o.(accept_fails) with
               | Some e => if shop.(tolerant) then Serving else Broke e
               | None => Serving
               end
     end) in
  match shop.(pool_max) with
  | None => serve
  | Some n =>
      match o.(pool_build) with
      | Err e => ([], if shop.(build_panics) then Panicked else Broke e)
      | Ok _ =>
          if shop.(prewarm) && negb o.(reach) then ([Pool_of n], Exited 1)
          else (Pool_of n :: (if shop.(prewarm) then [Prewarmed] else []) ++ serve.1, serve.2)
      end
  end.

(** A thread of [run_percore]. *)
Definition percore_worker (shop : Shop) (cores : list N) (o : Outside)
    (listen : result unit E * list (tcp_call A)) (i : nat) :
    list happening * stand :=
  let pinned := match core_of cores i with Some c => [Pinned c] | None => [] end in
  match o.(runtime_build) with
  | Err e => (pinned, Broke e)
  | Ok _ =>
      let listen := (match listen.1 with Ok _ => o.(wrapped) | Err e => Err e end, listen.2) in
      let r := open_shop shop listen o in
      (pinned ++ r.1, r.2)
  end.

(** What the process does in the end: [main] waits for good, returns or panics, or a worker ends
    the process. *)
Inductive ending := Waits | Returns (r : result unit E) | Crashes | Exits (code : N).
Definition ending_of (s : stand) : ending :=
  match s with Serving => Waits | Broke e => Returns (Err e) | Panicked => Crashes | Exited c => Exits c end.

(** [for h in handles { h.join().expect(..)?; }]: a worker never returns [Ok], so the loop does
    not get past the first. *)
Definition join_loop (ends : list stand) : ending :=
  match ends with [] => Returns (Ok tt) | s :: _ => ending_of s end.
Definition exit_code (s : stand) : option N := match s with Exited c => Some c | _ => None end.

(** The endings there can be: a worker that ends the process may do so before or after [main]
    is done with the first, unless it waits for that one for good. *)
Definition process_ends (ends : list stand) : list ending :=
  let exits := Exits <$> omap exit_code ends in
  match join_loop ends, exits with
  | Waits, _ :: _ | Exits _, _ => exits
  | e, _ => e :: exits
  end.

Definition run_percore (shop : Shop) (cores : list N) (a : A) (outside : nat → Outside)
    (listener : nat → A → result unit E * list (tcp_call A)) (workers : N) : list ending :=
  if shop.(printable) then
    process_ends ((λ i, (percore_worker shop cores (outside i) (listener i a) i).2) <$> seq 0 (N.to_nat workers))
  else [Crashes].

(** [run_default]: tokio panics when told to have no worker threads; the listener is the one
    [TcpListener::bind] makes. *)
Definition run_default (shop : Shop) (a : A) (o : Outside) (bound : result unit E) (workers : N) : list ending :=
  if workers =? 0 then [Crashes]
  else
    match o.(runtime_build) with
    | Err e => [Returns (Err e)]
    | Ok _ => if shop.(printable) then [ending_of (open_shop shop (bound, [Bind_to a]) o).2] else [Crashes]
    end.

(** [main]: the arguments, then the mode's way of running.  A refusal of the arguments is what
    it returns. *)
Definition main (parse_addr : list N → option A) (parallelism : option N)
    (percore default_ : N → N → A → list ending) (args : list (list N)) : result (list ending) usage :=
  match tokio_args parse_addr parallelism args with
  | Err e => Err e
  | Ok (a, cap, workers, Percore) => Ok (percore cap workers a)
  | Ok (a, cap, workers, Default_) => Ok (default_ cap workers a)
  end.
End start.
Arguments Outside : clear implicits.
Arguments happening : clear implicits.
Arguments stand : clear implicits.
Arguments ending : clear implicits.

(** ** The programs *)

Section programs.
Context {A E : Type} (parse_addr : list N → option A) (mask : option (N → bool)) (parallelism : option N).
Context (outside : nat → Outside E) (sys : nat → tcp_call A → result unit E) (local_addr : result unit E).

(** *** [echo.rs]: the default way only, and it asks for the address it got *)
Definition echo_default (cap workers : N) (a : A) : list (ending E) :=
  run_default (mkShop (Some (default_size cap workers)) false false true true) a (outside 0%nat)
    (match sys 0%nat (Bind_to a) with Ok _ => local_addr | Err e => Err e end) workers.
Definition echo_main (args : list (list N)) : result (list (ending E)) usage :=
  match tokio_args3 parse_addr parallelism args with
  | Err e => Err e
  | Ok (a, cap, workers) => Ok (echo_default cap workers a)
  end.

(** *** [echo_tpc.rs]: per core only, and no pool *)
Definition tpc_core_ids : list N := core_ids mask parallelism.
Definition tpc_listener (i : nat) : A → result unit E * list (tcp_call A) := reuseport_listener (sys i).
Definition tpc_main (args : list (list N)) : result (list (ending E)) usage :=
  match tpc_args parse_addr parallelism args with
  | Err e => Err e
  | Ok (a, workers) => Ok (run_percore (mkShop None false false false true) tpc_core_ids a outside tpc_listener workers)
  end.

(** *** [churn.rs]

    No first connection. *)
Definition churn_core_ids : list N := core_ids mask parallelism.
Definition churn_listener (i : nat) : A → result unit E * list (tcp_call A) := reuseport_listener (sys i).
Definition churn_percore (cap workers : N) (a : A) : list (ending E) :=
  run_percore (mkShop (Some (percore_size cap)) false false false true) churn_core_ids a outside churn_listener workers.
Definition churn_default (cap workers : N) (a : A) : list (ending E) :=
  run_default (mkShop (Some (default_size cap workers)) false false false true) a (outside 0%nat) (sys 0%nat (Bind_to a)) workers.
Definition churn_main (args : list (list N)) : result (list (ending E)) usage :=
  main parse_addr parallelism churn_percore churn_default args.

(** *** [relay.rs]

    A first connection is made, so that a dead upstream ends the process. *)
Context (UPSTREAM_ADDR UPSTREAM_ADDRS : option (list N)).
Definition upstream_addr : option A := parse_addr (default (codes "127.0.0.1:7001") UPSTREAM_ADDR).
Definition relay_core_ids : list N := core_ids mask parallelism.
Definition relay_listener (i : nat) : A → result unit E * list (tcp_call A) := reuseport_listener (sys i).
Definition relay_percore (cap workers : N) (a : A) : list (ending E) :=
  run_percore (mkShop (Some (percore_size cap)) true false false (bool_decide (is_Some upstream_addr))) relay_core_ids a outside relay_listener workers.
Definition relay_default (cap workers : N) (a : A) : list (ending E) :=
  run_default (mkShop (Some (default_size cap workers)) true false false (bool_decide (is_Some upstream_addr)))
    a (outside 0%nat) (sys 0%nat (Bind_to a)) workers.
Definition relay_main (args : list (list N)) : result (list (ending E)) usage :=
  main parse_addr parallelism relay_percore relay_default args.

(** *** [fanout.rs]

    Likewise. *)
Definition upstream_addrs : option (list A) :=
  mapM (λ s, parse_addr (trim_text s))
    (split_on (λ c, c =? 44) (default (codes "127.0.0.1:7001,127.0.0.1:7002,127.0.0.1:7003") UPSTREAM_ADDRS)).
Definition fanout_core_ids : list N := core_ids mask parallelism.
Definition fanout_listener (i : nat) : A → result unit E * list (tcp_call A) := reuseport_listener (sys i).
Definition fanout_percore (cap workers : N) (a : A) : list (ending E) :=
  run_percore (mkShop (Some (percore_size cap)) true false false (bool_decide (is_Some upstream_addrs))) fanout_core_ids a outside fanout_listener workers.
Definition fanout_default (cap workers : N) (a : A) : list (ending E) :=
  run_default (mkShop (Some (default_size cap workers)) true false false (bool_decide (is_Some upstream_addrs)))
    a (outside 0%nat) (sys 0%nat (Bind_to a)) workers.
Definition fanout_main (args : list (list N)) : result (list (ending E)) usage :=
  main parse_addr parallelism fanout_percore fanout_default args.

(** *** [wal.rs]

    No first connection. *)
Definition wal_core_ids : list N := core_ids mask parallelism.
Definition wal_listener (i : nat) : A → result unit E * list (tcp_call A) := reuseport_listener (sys i).
Definition wal_percore (cap workers : N) (a : A) : list (ending E) :=
  run_percore (mkShop (Some (percore_size cap)) false false false true) wal_core_ids a outside wal_listener workers.
Definition wal_default (cap workers : N) (a : A) : list (ending E) :=
  run_default (mkShop (Some (default_size cap workers)) false false false true) a (outside 0%nat) (sys 0%nat (Bind_to a)) workers.
Definition wal_main (create_dir_all : result unit E) (args : list (list N)) : result (list (ending E)) usage :=
  match create_dir_all with
  | Err e => Ok [Returns (Err e)]
  | Ok _ => main parse_addr parallelism wal_percore wal_default args
  end.

(** *** [file_server.rs]

    No first connection. *)
Definition file_core_ids : list N := core_ids mask parallelism.
Definition file_listener (i : nat) : A → result unit E * list (tcp_call A) := reuseport_listener (sys i).
Definition file_percore (cap workers : N) (a : A) : list (ending E) :=
  run_percore (mkShop (Some (percore_size cap)) false false false true) file_core_ids a outside file_listener workers.
Definition file_default (cap workers : N) (a : A) : list (ending E) :=
  run_default (mkShop (Some (default_size cap workers)) false false false true) a (outside 0%nat) (sys 0%nat (Bind_to a)) workers.
Definition file_main (args : list (list N)) : result (list (ending E)) usage :=
  main parse_addr parallelism file_percore file_default args.

(** *** [redis_proxy.rs]

    The pool takes the capacity as it is, building it is expected to work, and a first
    connection is made. *)
Definition redis_core_ids : list N := core_ids mask parallelism.
Definition redis_listener (i : nat) : A → result unit E * list (tcp_call A) := reuseport_listener (sys i).
Definition redis_percore (cap workers : N) (a : A) : list (ending E) :=
  run_percore (mkShop (Some cap) true true false true) redis_core_ids a outside redis_listener workers.
Definition redis_default (cap workers : N) (a : A) : list (ending E) :=
  run_default (mkShop (Some cap) true true false true) a (outside 0%nat) (sys 0%nat (Bind_to a)) workers.
Definition redis_main (args : list (list N)) : result (list (ending E)) usage :=
  main parse_addr parallelism redis_percore redis_default args.

End programs.

(** ** Lemmas *)

Lemma core_ids_exact set parallelism c :
  c ∈ core_ids (Some set) parallelism ↔ c < CPU_SETSIZE ∧ set c = true.
Proof.
  unfold core_ids. rewrite list_elem_of_filter, list_elem_of_fmap. split.
  - intros [Hs (k & -> & Hk)]. apply elem_of_seq in Hk. split; [lia|done].
  - intros [Hc Hs]. split; [done|]. exists (N.to_nat c). split; [lia|]. apply elem_of_seq. lia.
Qed.

Lemma core_ids_nodup mask parallelism : NoDup (core_ids mask parallelism).
Proof.
  destruct mask as [set|]; unfold core_ids; [apply NoDup_filter|];
    (apply NoDup_fmap_2; [intros ???; lia|apply NoDup_seq]).
Qed.

(** Worker [i] gets core [i] of the list, which is gone through in turn. *)
Lemma core_of_cyclic cores i : cores ≠ [] → core_of cores i = cores !! (i mod length cores)%nat ∧ is_Some (core_of cores i).
Proof.
  intros Hne. unfold core_of. destruct cores as [|c cores]; [done|]. rewrite Nat.max_l by (simpl; lia).
  split; [done|]. apply lookup_lt_is_Some. apply Nat.mod_upper_bound. done.
Qed.

Lemma pool_sizes cap workers :
  1 ≤ percore_size cap ∧ cap ≤ percore_size cap ∧ 1 ≤ default_size cap workers < U64 ∧
  (0 < cap * workers < U64 → default_size cap workers = cap * workers).
Proof. unfold percore_size, default_size, saturating_mul, U64. lia. Qed.

(** ** The theorems *)

(** Where the threads go.  With an affinity mask that is not empty, worker [i] is pinned to the
    [i]-th permitted core, the cores being gone through in turn: to no other core than the
    permitted ones, and any two workers less than a round apart to different ones. *)
Theorem pinned_to_permitted set parallelism i c0 :
  c0 < CPU_SETSIZE → set c0 = true →
  let cores := core_ids (Some set) parallelism in
  (∃ c, core_of cores i = Some c ∧ c < CPU_SETSIZE ∧ set c = true ∧ ∀ n, pin c n = true ↔ n = c) ∧
  ∀ j, (i < j < i + length cores)%nat → core_of cores j ≠ core_of cores i.
Proof.
  cbv zeta. intros Hc0 Hs0. pose proof (proj2 (core_ids_exact set parallelism c0) (conj Hc0 Hs0)) as Hin.
  pose proof (core_ids_nodup (Some set) parallelism) as Hnd.
  revert Hnd Hin. set (cores := core_ids (Some set) parallelism). intros Hnd Hin.
  assert (Hne : cores ≠ []) by (intros He; rewrite He in Hin; by apply not_elem_of_nil in Hin).
  destruct (core_of_cyclic cores i Hne) as [Hi [c Hc]]. split.
  - exists c. split; [done|]. rewrite Hi in Hc. apply list_elem_of_lookup_2, core_ids_exact in Hc as [? ?].
    split_and!; [done..|]. intros n. apply N.eqb_eq.
  - intros j Hj He. destruct (core_of_cyclic cores j Hne) as [Hjc _]. rewrite Hc, Hjc in He.
    rewrite Hi in Hc. pose proof (NoDup_lookup _ _ _ _ Hnd Hc He) as Hmod.
    assert (0 < length cores)%nat by (destruct cores; [done|simpl; lia]).
    revert Hmod. pose proof (Nat.div_mod_eq i (length cores)). pose proof (Nat.div_mod_eq j (length cores)).
    pose proof (Nat.mod_upper_bound i (length cores)). pose proof (Nat.mod_upper_bound j (length cores)).
    intros Hmod. assert (length cores * (j / length cores) > length cores * (i / length cores))%nat by lia.
    assert (j / length cores ≥ S (i / length cores))%nat as Hd by nia. nia.
Qed.

(** Only the first worker is heard.  As long as no worker ends the process, what a per-core
    server does is what its first worker does: while that one serves, [main] waits, whatever
    became of the others. *)
Theorem first_worker_decides {A E} shop cores (a : A) (outside : nat → Outside E) listener workers :
  0 < workers → shop.(printable) = true →
  let ends i := (percore_worker shop cores (outside i) (listener i a) i).2 in
  (∀ i code, ends i ≠ Exited code) →
  run_percore shop cores a outside listener workers = [ending_of (ends 0%nat)].
Proof.
  cbv zeta. intros Hw Hp Hno. unfold run_percore, process_ends. rewrite Hp.
  assert (Hnone : ∀ l : list nat, omap exit_code ((λ i, (percore_worker shop cores (outside i) (listener i a) i).2) <$> l) = []).
  { induction l as [|i l IH]; [done|]. cbn [fmap list_fmap omap list_omap]. specialize (Hno i).
    destruct (percore_worker _ _ _ _ _).2 eqn:He; cbn; try apply IH. by destruct (Hno code). }
  rewrite Hnone. destruct (N.to_nat workers) eqn:Hn; [lia|]. cbn [seq fmap list_fmap join_loop].
  specialize (Hno 0%nat). destruct (percore_worker _ _ _ _ _).2 eqn:He; [done..|]. by destruct (Hno code).
Qed.

(** ** Two workers *)

Definition demo_outside (i : nat) : Outside string :=
  mkOutside (Ok tt) (Ok tt) true (Ok tt) (if (i =? 1)%nat then Some "too many open files"%string else None).
Definition demo_sys (i : nat) (c : tcp_call unit) : result unit string := Ok tt.
Definition demo_address (s : list N) : option unit := Some tt.
Definition one_to_five : option (N → bool) := Some (λ c, (1 <=? c) && (c <=? 5)).

(** The second worker has lost its listener; nobody is told. *)
Lemma first_worker_decides_witness :
  churn_percore one_to_five None demo_outside demo_sys 8 2 tt = [Waits] ∧
  (percore_worker (A:=unit) (mkShop (Some 8) false false false true) [] (demo_outside 1) (Ok tt, []) 1).2
    = Broke "too many open files"%string.
Proof.
  split; [|reflexivity].
  apply (first_worker_decides (mkShop (Some (percore_size 8)) false false false true) (churn_core_ids one_to_five None) tt
    demo_outside (churn_listener demo_sys) 2 eq_refl eq_refl).
  intros [|[|i]] code; discriminate.
Defined.

Lemma pinned_to_permitted_witness : core_of (core_ids one_to_five None) 6 = Some 2.
Proof.
  destruct (pinned_to_permitted (λ c, (1 <=? c) && (c <=? 5)) None 6 1 eq_refl eq_refl) as [(c & Hc & _) _].
  revert Hc. vm_compute. intros [= <-]. reflexivity.
Defined.
