(* ===== verification/Buffered.v ===== *)
(** A connection with a read buffer and a health flag, as the proxy's [Framed] and the
    aggregator's [Line] both are ([src/examples/http_proxy.rs],
    [src/examples/scatter_gather.rs]): filling the buffer, writing, and what reading keeps. *)

From S2P Require Import Prelude Text.

Record Buffered `{Tcp} := mkBuffered { sock : stream; buf : Vec; healthy : bool }.
Arguments mkBuffered {_} _ _ _.
Arguments sock {_} _.
Arguments buf {_} _.
Arguments healthy {_} _.

Section buffered.
Context `{Tcp}.
Implicit Types f : Buffered.

Definition set_healthy (b : bool) f : Buffered := mkBuffered f.(sock) f.(buf) b.

(** One [read] appended to the buffer, which grows by [extra] first when it is full: a read
    with no room would bring nothing.  [Ok false] means the peer closed. *)
Definition fill (extra : N) : St Buffered (result bool io_error) := λ f,
  let buf := if len f.(buf).(contents) =? f.(buf).(capacity) then reserve extra f.(buf) else f.(buf) in
  let '(r, buf, s) := read_into buf f.(sock) in
  Val (match r with Ok n => Ok (negb (n =? 0)) | Err e => Err e end, mkBuffered s buf f.(healthy)).

(** [write_all]. *)
Definition put (bytes : list N) : St Buffered (result unit io_error) := λ f,
  let '(r, s) := send bytes f.(sock) in Val (r, mkBuffered s f.(buf) f.(healthy)).
End buffered.

Section reading.
Context {T : Tcp} {TL : TcpLaws T}.
Implicit Types f : Buffered.

Definition sound f : Prop := vec_ok f.(buf).
Definition unread f : list N := f.(buf).(contents) ++ incoming f.(sock).

(** What successful reading keeps: every byte, in order; those buffered stay in front. *)
Record reads_on f f' : Prop := {
  ro_unread : unread f' = unread f;
  ro_prefix : f.(buf).(contents) `prefix_of` f'.(buf).(contents);
  ro_steady : steady f.(sock) → steady f'.(sock);
  ro_less : len (incoming f'.(sock)) ≤ len (incoming f.(sock))
}.

Lemma reads_on_refl f : reads_on f f.
Proof. by split. Qed.
Lemma reads_on_trans f f' f'' : reads_on f f' → reads_on f' f'' → reads_on f f''.
Proof. intros [] []. split; [congruence|by etrans|auto|lia]. Qed.

(** What any read leaves: a sound buffer, the same verdict on the connection's health, and
    on success [Q]. *)
Definition after_read {A} f (Q : A → Buffered → Prop) (r : result A io_error) f' : Prop :=
  sound f' ∧ f'.(healthy) = f.(healthy) ∧
  match r with Ok a => reads_on f f' ∧ Q a f' | Err _ => True end.

Lemma fill_spec extra f :
  sound f → 0 < extra →
  wp (fill extra) (λ r f', after_read f (λ b f',
      if b : bool then len (incoming f'.(sock)) < len (incoming f.(sock))
      else incoming f.(sock) = [] ∧ f'.(buf).(contents) = f.(buf).(contents)) r f' ∧
    (steady f.(sock) → ∃ b, r = Ok b)) f.
Proof.
  intros Hok Hextra. destruct f as [s v h]. unfold wp, fill, after_read, sound in *. simpl in *.
  set (v' := if len (contents v) =? capacity v then reserve extra v else v).
  assert (contents v' = contents v ∧ len (contents v) < capacity v' ∧ vec_ok v') as (Hc & Hroom & Hv').
  { subst v'. destruct (N.eqb_spec (len (contents v)) (capacity v)); [by apply reserve_room|].
    unfold vec_ok in *. split_and!; [done|lia|done]. }
  clearbody v'. unfold read_into. rewrite Hc. unfold vec_ok in *.
  destruct (recv _ s) as [[bs|e] s'] eqn:Hr; simpl.
  - destruct (recv_takes _ _ _ _ Hr) as [Hi Hl]. split_and!; [|done| | |eauto].
    + rewrite len_app. lia.
    + split; simpl; unfold unread; simpl.
      * by rewrite <-app_assoc, <-Hi.
      * by apply prefix_app_r.
      * intros Hs. by destruct (recv_steady _ _ _ _ Hr Hs).
      * rewrite Hi, len_app. lia.
    + destruct (N.eqb_spec (len bs) 0) as [H0|H0]; simpl.
      * destruct bs; [|rewrite len_cons in H0; lia]. split; [|apply app_nil_r].
        apply (recv_eof _ _ _ Hr). lia.
      * rewrite Hi, len_app. lia.
  - split; [done|]. intros Hs. destruct (recv_steady _ _ _ _ Hr Hs) as (_ & bs & [=]).
Qed.
Lemma after_read_trans {A} f f1 (Q Q1 : A → Buffered → Prop) r f' :
  reads_on f f1 → f1.(healthy) = f.(healthy) → after_read f1 Q1 r f' →
  (∀ a, Q1 a f' → Q a f') → after_read f Q r f'.
Proof.
  intros Hon Hh (H1 & H2 & H3) HQ. split_and!; [done|congruence|]. destruct r; [|done].
  destruct H3 as [Hon' HQ1]. split; [by eapply reads_on_trans|auto].
Qed.

Lemma clean_unread f : f.(buf).(contents) = [] → unread f = incoming f.(sock).
Proof. unfold unread. by intros ->. Qed.

Lemma put_spec bytes f :
  wp (put bytes) (λ r f', r = (send bytes f.(sock)).1 ∧ f'.(buf) = f.(buf) ∧
    f'.(healthy) = f.(healthy) ∧ incoming f'.(sock) = incoming f.(sock) ∧
    (steady f.(sock) → steady f'.(sock))) f.
Proof.
  unfold wp, put. destruct (send bytes (sock f)) as [r s'] eqn:Hs. simpl.
  by destruct (send_reads _ _ _ _ Hs).
Qed.

End reading.
