(* ===== verification/HttpProxy.v ===== *)
(** The reverse proxy over a pool of upstream connections
    ([src/examples/http_proxy.rs]): how it frames HTTP messages, and what it gives
    back to the pool.

    A message is refused unless there is one way to read it; an upstream goes back
    to the pool only when exactly one response has come over it. *)

From S2P Require Import Prelude Manage Builder Metrics Store Waiters Inner Local Effects Scenario Text Buffered.

(** ** Framing *)

Definition MAX_HEAD : N := 64 * 1024.
Definition MAX_BODY : N := 16 * 1024 * 1024.

Inductive Kind := Request | Response.

(** A message the proxy refuses to frame. *)
Definition bad (why : string) : io_error := mkIoError InvalidData why.

Definition CRLF2 : list N := [13; 10; 13; 10].

(** [find]: the first window of the needle's length that equals it. *)
Definition find (hay needle : list N) : option N :=
  if (len needle =? 0) || (len hay <? len needle) then None else window_position needle hay.

(** The loop of [body_length] over the header lines. *)
Fixpoint scan_headers (lines : list (list N)) (length : option N) : result (option N) io_error :=
  match lines with
  | [] => Ok length
  | line :: lines =>
      match split_once 58 line with
      | None => scan_headers lines length
      | Some (name, value) =>
          if bool_decide (trim_text name = codes "transfer-encoding")
          then Err (bad "transfer-encoding is not supported")
          else if bool_decide (trim_text name = codes "content-length") then
            match parse_number (trim_text value) with
            | None => Err (bad "malformed content-length")
            | Some n =>
                if match length with Some seen => negb (seen =? n) | None => false end
                then Err (bad "conflicting content-length headers")
                else scan_headers lines (Some n)
            end
          else scan_headers lines length
      end
  end.

(** The status of a response's start line, and those that never carry a body. *)
Definition status_of (start_line : list N) : list N := default [] (split_whitespace start_line !! 1%nat).
Definition bodiless (status : list N) : bool :=
  starts_with (codes "1") status || bool_decide (status = codes "204") || bool_decide (status = codes "304").

Definition body_length (head : list N) (kind : Kind) : result N io_error :=
  let text := to_ascii_lowercase (from_utf8_lossy head) in
  let lines := split_crlf text in
  let start_line := default [] (List.hd_error lines) in
  match scan_headers (tail lines) None with
  | Err e => Err e
  | Ok (Some n) => Ok n
  | Ok None =>
      match kind with
      | Request => Ok 0
      | Response =>
          if bodiless (status_of start_line) then Ok 0
          else Err (bad "response without content-length cannot be framed")
      end
  end.

(** ** The buffered connection *)

(** [Framed] is the buffered connection of [Buffered]. *)
Abbreviation Framed := Buffered (only parsing).

Section framed.
Context `{Tcp}.
Implicit Types f : Framed.

Definition framed_new (s : stream) : Framed := mkBuffered s (with_capacity (8 * 1024)) true.

(** [read_more]: [Ok false] means the peer closed. *)
Definition read_more : St Framed (result bool io_error) := fill (8 * 1024).

(** Read to the end of the header block: where it ends, or [None] when the peer closed. *)
Fixpoint read_head (fuel : nat) : St Framed (result (option N) io_error) :=
  match fuel with
  | O => no_fuel
  | S fuel =>
      b ← gets (λ f, f.(buf).(contents));
      match find b CRLF2 with
      | Some pos => mret (Ok (Some (pos + 4)))
      | None =>
          if MAX_HEAD <=? len b then mret (Err (bad "header block too large"))
          else
            r ← read_more;
            match r with
            | Err e => mret (Err e)
            | Ok false => mret (Ok None)
            | Ok true => read_head fuel
            end
      end
  end.

(** Read until the buffer holds [total] bytes: [Ok false] means the peer closed first. *)
Fixpoint read_body (fuel : nat) (total : N) : St Framed (result bool io_error) :=
  match fuel with
  | O => no_fuel
  | S fuel =>
      b ← gets (λ f, f.(buf).(contents));
      if len b <? total then
        r ← read_more;
        match r with
        | Err e => mret (Err e)
        | Ok false => mret (Ok false)
        | Ok true => read_body fuel total
        end
      else mret (Ok true)
  end.

(** [self.buf.drain(..total).collect()]. *)
Definition drain_front (total : N) : St Framed (list N) := λ f,
  let b := f.(buf).(contents) in
  if total <=? len b
  then Val (firstn (N.to_nat total) b,
            mkBuffered f.(sock) (mkVec (drop (N.to_nat total) b) f.(buf).(capacity)) f.(healthy))
  else Panic.

(** Size the body, read it, and hand back exactly one message: the head ends at [head_end]. *)
Definition read_framed (fuel : nat) (kind : Kind) (head_end : N) :
    St Framed (result (option (list N)) io_error) :=
  b ← gets (λ f, f.(buf).(contents));
  match body_length (firstn (N.to_nat head_end) b) kind with
  | Err e => mret (Err e)
  | Ok body =>
      if MAX_BODY <? body then mret (Err (bad "body too large"))
      else
        let total := head_end + body in
        whole ← read_body fuel total;
        match whole with
        | Err e => mret (Err e)
        | Ok false => mret (Ok None)
        | Ok true => msg ← drain_front total; mret (Ok (Some msg))
        end
  end.

Definition read_message (fuel : nat) (kind : Kind) : St Framed (result (option (list N)) io_error) :=
  h ← read_head fuel;
  match h with
  | Err e => mret (Err e)
  | Ok None => mret (Ok None)
  | Ok (Some head_end) => read_framed fuel kind head_end
  end.

(** [write_all_bytes]. *)
Definition write_all_bytes (bytes : list N) : St Framed (result unit io_error) := put bytes.
End framed.

(** ** The origin as a pooled resource *)

Section proxy.
Context `{Tcp}.

(** What dialling the origin answers on each occasion, and whether a stream takes
    [set_nodelay]. *)
Context (dial : nat → Poll (result stream io_error)) (set_nodelay : stream → result unit io_error).

#[export] Instance Origin : ManageConnection Framed io_error := {|
  connect t :=
    match dial t with
    | Pending => Pending
    | Ready (Err e) => Ready (Err e)
    | Ready (Ok s) => match set_nodelay s with Err e => Ready (Err e) | Ok _ => Ready (Ok (framed_new s)) end
    end;
  is_valid _ conn :=
    (Ready (if conn.(healthy) then Ok tt else Err (mkIoError BrokenPipe "upstream marked dead")), conn);
  has_broken _ conn := (negb conn.(healthy), conn)
|}.

(** ** Serving a client *)

Definition response_bytes (status body : string) : list N :=
  codes ("HTTP/1.1 " +:+ status) ++ [13; 10] ++
  codes ("content-length: " +:+ pretty (N.of_nat (String.length body))) ++ [13; 10] ++
  codes "connection: close" ++ CRLF2 ++ codes body.
Definition newline : string := String (Ascii.ascii_of_N 10) EmptyString.
Definition bad_gateway (why : string) : list N :=
  response_bytes "502 Bad Gateway" ("502 Bad Gateway: " +:+ why +:+ newline).
Definition bad_request (why : string) : list N :=
  response_bytes "400 Bad Request" ("400 Bad Request: " +:+ why +:+ newline).

(** The round trip: forward the request, read one response back. *)
Definition round_trip (fuel : nat) (request : list N) : St Framed (result (option (list N)) io_error) :=
  w ← write_all_bytes request;
  match w with
  | Ok _ => read_message fuel Response
  | Err _ => mret (Err (mkIoError BrokenPipe "upstream write failed"))
  end.

(** What the client is told, the upstream as it is when its lease drops, and whether
    the client's connection may go on. *)
Definition exchange (fuel : nat) (request : list N) : St Framed (list N * bool) :=
  response ← round_trip fuel request;
  match response with
  | Ok (Some resp) =>
      left_over ← gets (λ up, up.(buf).(contents));
      match left_over with [] => skip | _ => modify (set_healthy false) end;;
      mret (resp, true)
  | _ =>
      modify (set_healthy false);;
      mret (bad_gateway "upstream error", false)
  end.

(** What the client's side of [handle_client] does before it leases an upstream. *)
Definition next_request (fuel : nat) : St Framed (option (list N)) :=
  r ← read_message fuel Request;
  match r with
  | Ok (Some req) => mret (Some req)
  | Ok None => mret None
  | Err e =>
      if bool_decide (e.(err_kind) = InvalidData)
      then write_all_bytes (bad_request e.(message));; mret None
      else mret None
  end.

(** [handle_client]: [leases] are the answers of [local.get()], one per request, in order;
    the upstreams come back as they are when their leases drop. *)
Fixpoint handle_client (fuel : nat) (leases : list (option Framed)) : St Framed (list Framed) :=
  match leases with
  | [] => mret []
  | lease :: leases =>
      req ← next_request fuel;
      match req with
      | None => mret []
      | Some request =>
          match lease with
          | None => write_all_bytes (bad_gateway "no upstream available");; mret []
          | Some up =>
              x ← lift (exchange fuel request up);
              let '((reply, go_on), up) := x in
              w ← write_all_bytes reply;
              match w, go_on with
              | Ok _, true => ups ← handle_client fuel leases; mret (up :: ups)
              | _, _ => mret [up]
              end
          end
      end
  end.
End proxy.

(** ** What [body_length] accepts *)

Definition header_of (line : list N) : option (list N * list N) :=
  '(name, value) ← split_once 58 line; Some (trim_text name, trim_text value).
Definition headers (head : list N) : list (list N * list N) :=
  omap header_of (tail (split_crlf (to_ascii_lowercase (from_utf8_lossy head)))).
Definition start_line_of (head : list N) : list N :=
  default [] (List.hd_error (split_crlf (to_ascii_lowercase (from_utf8_lossy head)))).

Definition announces (n : N) (hs : list (list N * list N)) : Prop :=
  (∃ v, (codes "content-length", v) ∈ hs) ∧
  ∀ v, (codes "content-length", v) ∈ hs → parse_number v = Some n.

Lemma headers_cons line lines :
  omap header_of (line :: lines) =
    match split_once 58 line with
    | Some (name, value) => (trim_text name, trim_text value) :: omap header_of lines
    | None => omap header_of lines
    end.
Proof. cbn [omap list_omap]. unfold header_of at 1. by destruct (split_once 58 line) as [[]|]. Qed.

Lemma scan_headers_seen lines m r :
  scan_headers lines (Some m) = Ok r ↔
  (∀ v, (codes "transfer-encoding", v) ∉ omap header_of lines) ∧ r = Some m ∧
  ∀ v, (codes "content-length", v) ∈ omap header_of lines → parse_number v = Some m.
Proof.
  induction lines as [|line lines IH]; [cbn [scan_headers omap list_omap]|rewrite headers_cons; cbn [scan_headers]].
  { split; [|by intros (_ & -> & _)]. intros [= <-]. split_and!; [|done|];
      intros v Hv; by apply not_elem_of_nil in Hv. }
  destruct (split_once 58 line) as [[name value]|]; [|exact IH].
  case_bool_decide as Hte.
  { split; [done|]. intros (Hno & _). exfalso. apply (Hno (trim_text value)). rewrite Hte. by left. }
  case_bool_decide as Hcl.
  - destruct (parse_number (trim_text value)) as [n|] eqn:Hp.
    2: { split; [done|]. intros (_ & _ & Hall). rewrite (Hall (trim_text value)) in Hp; [done|].
         rewrite Hcl. by left. }
    destruct (N.eqb_spec m n) as [->|Hne]; cbn [negb].
    + rewrite IH. split; intros (H1 & H2 & H3); split_and!; auto.
      * intros v [[=]|Hv]%elem_of_cons; [congruence|by apply (H1 v)].
      * intros v [[= _ ->]|Hv]%elem_of_cons; [done|auto].
      * intros v Hv. apply (H1 v). by right.
      * intros v Hv. apply H3. by right.
    + split; [done|]. intros (_ & _ & Hall). rewrite (Hall (trim_text value)) in Hp; [congruence|].
      rewrite Hcl. by left.
  - rewrite IH. split; intros (H1 & H2 & H3); split_and!; auto.
    + intros v [[= He _]|Hv]%elem_of_cons; [by rewrite He in Hte|by apply (H1 v)].
    + intros v [[= He _]|Hv]%elem_of_cons; [by rewrite He in Hcl|auto].
    + intros v Hv. apply (H1 v). by right.
    + intros v Hv. apply H3. by right.
Qed.

Lemma scan_headers_fresh lines r :
  scan_headers lines None = Ok r ↔
  (∀ v, (codes "transfer-encoding", v) ∉ omap header_of lines) ∧
  match r with
  | Some n => announces n (omap header_of lines)
  | None => ∀ v, (codes "content-length", v) ∉ omap header_of lines
  end.
Proof.
  unfold announces. induction lines as [|line lines IH]; [cbn [scan_headers omap list_omap]|rewrite headers_cons; cbn [scan_headers]].
  { split.
    - intros [= <-]. split; intros v Hv; by apply not_elem_of_nil in Hv.
    - intros [_ Hr]. destruct r; [|done]. by destruct Hr as [[v Hv%not_elem_of_nil] _]. }
  destruct (split_once 58 line) as [[name value]|]; [|exact IH].
  case_bool_decide as Hte.
  { split; [done|]. intros (Hno & _). exfalso. apply (Hno (trim_text value)). rewrite Hte. by left. }
  case_bool_decide as Hcl.
  - rewrite Hcl. destruct (parse_number (trim_text value)) as [n|] eqn:Hp.
    + rewrite scan_headers_seen. split.
      * intros (H1 & -> & H3). split.
        -- intros v [[=]|Hv]%elem_of_cons. by apply (H1 v).
        -- split; [eexists; by left|]. intros v [[= ->]|Hv]%elem_of_cons; [done|auto].
      * intros [H1 H2]. destruct r as [m|].
        -- destruct H2 as [_ H2]. assert (m = n) as ->.
           { rewrite (H2 (trim_text value)) in Hp by (by left). congruence. }
           split_and!; [|done|]; intros v Hv; [apply (H1 v)|apply H2]; by right.
        -- exfalso. apply (H2 (trim_text value)). by left.
    + split; [done|]. intros [_ Hr]. destruct r as [m|].
      * destruct Hr as [_ Hr]. rewrite (Hr (trim_text value)) in Hp by (by left). done.
      * exfalso. apply (Hr (trim_text value)). by left.
  - rewrite IH. clear IH. split; intros [H1 H2]; split.
    + intros v [[= He _]|Hv]%elem_of_cons; [by rewrite He in Hte|by apply (H1 v)].
    + destruct r as [m|].
      * destruct H2 as [[v0 Hv0] H2]. split; [exists v0; by right|].
        intros v [[= He _]|Hv]%elem_of_cons; [by rewrite He in Hcl|auto].
      * intros v [[= He _]|Hv]%elem_of_cons; [by rewrite He in Hcl|by apply (H2 v)].
    + intros v Hv. apply (H1 v). by right.
    + destruct r as [m|].
      * destruct H2 as [[v0 [[= He _]|Hv0]%elem_of_cons] H2]; [by rewrite He in Hcl|].
        split; [eauto|]. intros v Hv. apply H2. by right.
      * intros v Hv. apply (H2 v). by right.
Qed.

Lemma scan_headers_err lines l e : scan_headers lines l = Err e → e.(err_kind) = InvalidData.
Proof.
  revert l. induction lines as [|line lines IH]; intros l; cbn [scan_headers]; [done|].
  destruct (split_once 58 line) as [[name value]|]; [|apply IH].
  repeat case_match; intros He; simplify_eq; try done; by eapply IH.
Qed.

(** C32: one length or none.  [body_length] accepts a head exactly when no header is
    [transfer-encoding] and either every [content-length] (there is one) reads as the same
    number, which is the body's length, or there is none and the message has no body: a
    request, or a response whose status never carries one.  Everything else is refused as
    invalid data. *)
Theorem body_length_exact (head : list N) (k : Kind) :
  (∀ n, body_length head k = Ok n ↔
    (∀ v, (codes "transfer-encoding", v) ∉ headers head) ∧
    (announces n (headers head) ∨
     n = 0 ∧ (∀ v, (codes "content-length", v) ∉ headers head) ∧
     (k = Request ∨ bodiless (status_of (start_line_of head)) = true))) ∧
  (∀ e, body_length head k = Err e → e.(err_kind) = InvalidData).
Proof.
  unfold body_length. fold (start_line_of head).
  pose proof (scan_headers_fresh (tail (split_crlf (to_ascii_lowercase (from_utf8_lossy head))))) as Hs.
  fold (headers head) in Hs. destruct (scan_headers _ None) as [[m|]|e] eqn:E.
  - destruct (proj1 (Hs _) eq_refl) as [H1 H2]. split; [|done]. intros n. split.
    + intros [= <-]. auto.
    + intros [_ [[[v Hv] Hn]|(_ & Hno & _)]]; destruct H2 as [[v' Hv'] Hm].
      * specialize (Hn v Hv). rewrite (Hm v Hv) in Hn. congruence.
      * by destruct (Hno v').
  - destruct (proj1 (Hs _) eq_refl) as [H1 H2]. split.
    + intros n. assert (Hsome : ¬ announces n (headers head)) by (intros [[v Hv] _]; by apply (H2 v)).
      destruct k; [|destruct (bodiless _) eqn:Hb]; split; try (intros [= <-]; by auto 10);
        try (intros (_ & [?|(-> & _ & [?|?])]); congruence || done).
    + destruct k; [done|]. destruct (bodiless _); [done|]. by intros e [= <-].
  - split.
    + intros n. split; [done|]. intros [H1 [Hn|(-> & Hn & _)]].
      * discriminate (proj2 (Hs (Some n)) (conj H1 Hn)).
      * discriminate (proj2 (Hs None) (conj H1 Hn)).
    + intros e' [= <-]. by eapply scan_headers_err.
Qed.

(** ** Messages *)

(** A message: a head, and the body its head announces. *)
Definition framed_message (k : Kind) (msg : list N) : Prop :=
  ∃ pos n, find msg CRLF2 = Some pos ∧ body_length (firstn (N.to_nat (pos + 4)) msg) k = Ok n ∧
    n ≤ MAX_BODY ∧ len msg = pos + 4 + n.
(** The head fits the bound the proxy reads up to. *)
Definition head_fits (msg : list N) : Prop := ∃ pos, find msg CRLF2 = Some pos ∧ pos + 4 ≤ MAX_HEAD.

Lemma find_window hay pos :
  find hay CRLF2 = Some pos ↔ window_position CRLF2 hay = Some pos.
Proof.
  unfold find. change (len CRLF2 =? 0) with false. simpl orb.
  destruct (N.ltb_spec (len hay) (len CRLF2)) as [Hl|]; [|done]. split; [done|].
  intros Hb%window_position_bound. lia.
Qed.

Lemma find_bound hay pos : find hay CRLF2 = Some pos → pos + 4 ≤ len hay.
Proof. intros Hb%find_window%window_position_bound. exact Hb. Qed.

Lemma find_app a b pos : find a CRLF2 = Some pos → find (a ++ b) CRLF2 = Some pos.
Proof. rewrite !find_window. apply window_position_app. Qed.

Lemma find_here a b pos : find (a ++ b) CRLF2 = Some pos → pos + 4 ≤ len a → find a CRLF2 = Some pos.
Proof. rewrite !find_window. intros. eapply window_position_here; eauto. Qed.

Lemma find_before a b pos : find (a ++ b) CRLF2 = Some pos → len a < pos + 4 → find a CRLF2 = None.
Proof.
  intros Hw Hl. destruct (find a CRLF2) as [j|] eqn:Hj; [|done].
  pose proof (find_bound _ _ Hj). apply (find_app _ b) in Hj. simplify_eq. lia.
Qed.

Lemma firstn_app_len {A} (a b : list A) n : n ≤ len a → firstn (N.to_nat n) (a ++ b) = firstn (N.to_nat n) a.
Proof. unfold len. intros. apply take_app_le. lia. Qed.

(** ** Reading *)

Section reading.
Context {T : Tcp} {TL : TcpLaws T}.
Implicit Types f : Framed.

Lemma read_head_spec fuel f :
  sound f → (N.to_nat (len (incoming f.(sock))) < fuel)%nat →
  wp (read_head fuel) (λ r f', after_read f (λ h f',
      match h with
      | Some e => ∃ pos, find f'.(buf).(contents) CRLF2 = Some pos ∧ e = pos + 4
      | None => True
      end) r f' ∧
    (steady f.(sock) → ∀ pos, find (unread f) CRLF2 = Some pos → pos + 4 ≤ MAX_HEAD →
       r = Ok (Some (pos + 4)))) f.
Proof.
  revert f. induction fuel as [|fuel IH]; intros f Hok Hf; [lia|]. cbn [read_head]. wp_steps.
  destruct (find (contents (buf f)) CRLF2) as [pos|] eqn:Hpos.
  { wp_steps. split; [split_and!; [done|done|apply reads_on_refl|eauto]|].
    intros _ pos' Hp _. unfold unread in Hp. rewrite (find_app _ _ _ Hpos) in Hp. by simplify_eq. }
  destruct (N.leb_spec MAX_HEAD (len (contents (buf f)))) as [Hmax|Hmax].
  { wp_steps. split; [done|]. intros _ pos' Hp Hl. exfalso.
    rewrite (find_here _ _ _ Hp) in Hpos; [done|lia]. }
  wp_step. wp_apply fill_spec as r f1 [(Hok1 & Hh1 & Hr) Hst]; [done..|]. destruct r as [[]|e].
  - destruct Hr as [Hon Hlt]. eapply wp_mono; [apply IH; [done|lia]|].
    intros r f' [Har Hs]. split.
    + by eapply after_read_trans.
    + intros Hsf pos Hp. apply Hs; [by apply (ro_steady _ _ Hon)|]. by rewrite (ro_unread _ _ Hon).
  - destruct Hr as (Hon & Hnil & Hc). wp_steps. split; [done|].
    intros _ pos Hp. unfold unread in Hp. rewrite Hnil, app_nil_r in Hp. congruence.
  - wp_steps. split; [done|]. intros Hsf. by destruct (Hst Hsf).
Qed.

Lemma read_body_spec fuel total f :
  sound f → (N.to_nat (len (incoming f.(sock))) < fuel)%nat →
  wp (read_body fuel total) (λ r f', after_read f (λ whole f',
      whole = true → total ≤ len f'.(buf).(contents)) r f' ∧
    (steady f.(sock) → total ≤ len (unread f) → r = Ok true)) f.
Proof.
  revert f. induction fuel as [|fuel IH]; intros f Hok Hf; [lia|]. cbn [read_body]. wp_steps.
  destruct (N.ltb_spec (len (contents (buf f))) total) as [Hlt|Hge].
  2: { wp_steps. split; [|done]. split_and!; [done|done|apply reads_on_refl|done]. }
  wp_step. wp_apply fill_spec as r f1 [(Hok1 & Hh1 & Hr) Hst]; [done..|]. destruct r as [[]|e].
  - destruct Hr as [Hon Hless]. eapply wp_mono; [apply IH; [done|lia]|].
    intros r f' [Har Hs]. split.
    + by eapply after_read_trans.
    + intros Hsf Htot. apply Hs; [by apply (ro_steady _ _ Hon)|]. by rewrite (ro_unread _ _ Hon).
  - destruct Hr as (Hon & Hnil & Hc). wp_steps. split; [done|].
    intros _ Htot. unfold unread in Htot. rewrite Hnil, app_nil_r in Htot. lia.
  - wp_steps. split; [done|]. intros Hsf. by destruct (Hst Hsf).
Qed.
Lemma drain_front_spec total f :
  sound f → total ≤ len f.(buf).(contents) →
  wp (drain_front total) (λ msg f', msg = firstn (N.to_nat total) f.(buf).(contents) ∧ len msg = total ∧
    unread f = msg ++ unread f' ∧ f'.(buf).(contents) = drop (N.to_nat total) f.(buf).(contents) ∧
    f'.(sock) = f.(sock) ∧ f'.(healthy) = f.(healthy) ∧ sound f') f.
Proof.
  intros Hok Hl. unfold wp, drain_front, sound, vec_ok, unread, len in *.
  rewrite (proj2 (N.leb_le _ _) Hl). simpl.
  split_and!; try done.
  - rewrite length_take. lia.
  - by rewrite app_assoc, take_drop.
  - rewrite length_drop. lia.
Qed.

(** The first [n] bytes of what is to be read, once they are in. *)
Lemma unread_firstn f n msg rest :
  unread f = msg ++ rest → n ≤ len msg → n ≤ len f.(buf).(contents) →
  firstn (N.to_nat n) msg = firstn (N.to_nat n) f.(buf).(contents).
Proof.
  intros Hu Hl Hl'. rewrite <-(firstn_app_len msg rest), <-Hu by done. by apply firstn_app_len.
Qed.

(** How the message that comes next ends, given its head. *)
Lemma next_message f pos k msg rest :
  find f.(buf).(contents) CRLF2 = Some pos → unread f = msg ++ rest → framed_message k msg →
  ∃ n, body_length (firstn (N.to_nat (pos + 4)) f.(buf).(contents)) k = Ok n ∧ n ≤ MAX_BODY ∧
       len msg = pos + 4 + n.
Proof.
  intros Hpos Hu (p & n & Hp & Hb & Hn & Hl). pose proof (find_bound _ _ Hpos).
  assert (p = pos) as ->.
  { apply (find_app _ rest) in Hp. rewrite <-Hu in Hp. unfold unread in Hp.
    rewrite (find_app _ _ _ Hpos) in Hp. by simplify_eq. }
  exists n. by rewrite <-(unread_firstn _ _ _ _ Hu) by lia.
Qed.

(** What reading a message leaves: on success a message has come off the stream and nothing
    else; on a steady stream a message that is there is read ([ready] says which count). *)
Definition message_read (k : Kind) (ready : list N → Prop) f
    (r : result (option (list N)) io_error) f' : Prop :=
  sound f' ∧ f'.(healthy) = f.(healthy) ∧
  (∀ msg, r = Ok (Some msg) → unread f = msg ++ unread f' ∧ framed_message k msg ∧
     len (incoming f'.(sock)) ≤ len (incoming f.(sock))) ∧
  (steady f.(sock) → ∀ msg rest, unread f = msg ++ rest → framed_message k msg → ready msg →
     r = Ok (Some msg) ∧ unread f' = rest ∧ steady f'.(sock)).

(** Giving up is right when no message was there. *)
Lemma message_read_none k ready f r f' :
  sound f' → f'.(healthy) = f.(healthy) → (∀ msg, r ≠ Ok (Some msg)) →
  (steady f.(sock) → ∀ msg rest, unread f = msg ++ rest → framed_message k msg → ready msg → False) →
  message_read k ready f r f'.
Proof. intros H1 H2 H3 H4. split_and!; [done|done|naive_solver|]. intros. exfalso. eauto. Qed.

Lemma message_read_before k ready ready' f f1 r f' :
  reads_on f f1 → f1.(healthy) = f.(healthy) →
  (∀ msg, ready msg → ready' msg) →
  message_read k ready' f1 r f' → message_read k ready f r f'.
Proof.
  intros Hon Hh Hr (H1 & H2 & H3 & H4). split_and!; [done|congruence| |].
  - intros msg Hm. destruct (H3 msg Hm) as (Hu & ? & ?). split_and!; [|done|].
    + by rewrite <-(ro_unread _ _ Hon).
    + pose proof (ro_less _ _ Hon). lia.
  - intros Hs msg rest Hu Hm Hrd. apply (H4 (ro_steady _ _ Hon Hs) msg rest); auto.
    by rewrite (ro_unread _ _ Hon).
Qed.

Lemma read_framed_spec fuel k pos f :
  sound f → (N.to_nat (len (incoming f.(sock))) < fuel)%nat →
  find f.(buf).(contents) CRLF2 = Some pos →
  wp (read_framed fuel k (pos + 4)) (message_read k (λ _, True) f) f.
Proof.
  intros Hok Hf Hpos. pose proof (find_bound _ _ Hpos) as Hb.
  assert (Hnext := λ msg rest, next_message f pos k msg rest Hpos).
  unfold read_framed. wp_steps. destruct (body_length _ k) as [n|e] eqn:Hbl.
  2: { wp_steps. apply message_read_none; try done. intros _ msg rest Hu Hm _.
       destruct (Hnext _ _ Hu Hm) as (? & ? & _). congruence. }
  destruct (N.ltb_spec MAX_BODY n) as [Hbig|Hsmall].
  { wp_steps. apply message_read_none; try done. intros _ msg rest Hu Hm _.
    destruct (Hnext _ _ Hu Hm) as (? & ? & ? & _). simplify_eq. lia. }
  assert (Hlen : ∀ msg rest, unread f = msg ++ rest → framed_message k msg → len msg = pos + 4 + n).
  { intros msg rest Hu Hm. destruct (Hnext _ _ Hu Hm) as (? & ? & _ & ?). by simplify_eq. }
  cbv zeta. wp_step. wp_apply read_body_spec as r f2 [(Hok2 & Hh2 & Hr2) Hs2]; [done|done|].
  destruct r as [[]|e].
  2,3: wp_steps; apply message_read_none; try done; intros Hst msg rest Hu Hm _;
    assert (Hr := Hs2 Hst); rewrite Hu, len_app, (Hlen _ _ Hu Hm) in Hr;
    specialize (Hr ltac:(lia)); discriminate.
  destruct Hr2 as [Hon2 Hl2]. specialize (Hl2 eq_refl).
  apply (wp_mono _ (message_read k (λ _, True) f2)); [|intros r f'; by eapply message_read_before].
  wp_step.
  wp_apply drain_front_spec as msg f3 (Hmsg & Hml & Hu3 & Hc3 & Hsk & Hh3 & Hok3); [done|done|].
  wp_steps. assert (Hu : unread f = msg ++ unread f3) by by rewrite <-(ro_unread _ _ Hon2).
  split_and!; [done|done| |].
  - intros ? [= <-]. split_and!; [done| |by rewrite Hsk]. exists pos, n. split_and!; [| |done|done].
    + apply (find_here _ (unread f3)); [|lia]. rewrite <-Hu. by apply find_app.
    + by rewrite (unread_firstn _ _ _ _ Hu) by lia.
  - intros Hst m rest Hum Hm _. rewrite (ro_unread _ _ Hon2) in Hum.
    assert (m = msg ∧ rest = unread f3) as [-> ->]; [|by rewrite Hsk].
    pose proof (Hlen _ _ Hum Hm). rewrite Hu in Hum. apply app_inj_1 in Hum as [-> ->]; [done|].
    unfold len in *. lia.
Qed.

Lemma read_message_spec fuel k f :
  sound f → (N.to_nat (len (incoming f.(sock))) < fuel)%nat →
  wp (read_message fuel k) (message_read k head_fits f) f.
Proof.
  intros Hok Hf. unfold read_message. wp_step.
  wp_apply read_head_spec as r f1 [(Hok1 & Hh1 & Hr1) Hs1]; [done|done|].
  assert (Hhead : steady (sock f) → ∀ msg rest, unread f = msg ++ rest → framed_message k msg →
    head_fits msg → ∃ e, r = Ok (Some e)).
  { intros Hst msg rest Hu _ (pos & Hp & Hfit). exists (pos + 4). apply Hs1; [done| |done].
    rewrite Hu. by apply find_app. }
  destruct r as [[e|]|e].
  2,3: wp_steps; apply message_read_none; try done;
    intros Hst msg rest Hu Hm Hfit; by destruct (Hhead Hst _ _ Hu Hm Hfit).
  destruct Hr1 as [Hon1 (pos & Hpos & ->)]. cbn beta iota.
  eapply wp_mono; [apply read_framed_spec; [done| |done]|].
  - pose proof (ro_less _ _ Hon1). lia.
  - intros r f'. by eapply message_read_before.
Qed.
(** *** Upstreams *)

(** An upstream fit for the next client: not flagged, nothing buffered. *)
Definition clean f : Prop := sound f ∧ f.(healthy) = true ∧ f.(buf).(contents) = [].

(** After a round trip a healthy upstream has brought exactly one response, the one the
    client is told, and is clean; and a lone response is passed on. *)
Lemma exchange_spec fuel request up :
  clean up → (N.to_nat (len (incoming up.(sock))) < fuel)%nat →
  wp (exchange fuel request) (λ x up', sound up' ∧
    (if x.2 then framed_message Response x.1 ∧ incoming up.(sock) = x.1 ++ unread up'
     else x.1 = bad_gateway "upstream error" ∧ up'.(healthy) = false) ∧
    (up'.(healthy) = true → clean up' ∧ x.2 = true ∧ framed_message Response x.1 ∧
       incoming up.(sock) = x.1 ++ incoming up'.(sock)) ∧
    (steady up.(sock) → (send request up.(sock)).1 = Ok tt → framed_message Response (incoming up.(sock)) →
       head_fits (incoming up.(sock)) → x = (incoming up.(sock), true) ∧ up'.(healthy) = true)) up.
Proof.
  intros (Hok & Hh & Hc) Hf. unfold exchange, round_trip. wp_step. wp_step.
  wp_apply put_spec as r up1 (-> & Hb1 & Hh1 & Hi1 & Hs1).
  assert (Hok1 : sound up1) by (unfold sound; by rewrite Hb1).
  assert (Hu1 : unread up1 = incoming (sock up)) by (rewrite clean_unread; congruence).
  destruct (send request (sock up)).1 as [[]|e].
  2: { wp_steps. split_and!; [done|by split|by simpl|done]. }
  eapply wp_mono; [by apply (read_message_spec fuel Response); [|rewrite Hi1]|].
  intros r up2 (Hok2 & Hh2 & Hr & Hst).
  assert (Hgot : steady (sock up) → framed_message Response (incoming (sock up)) →
    head_fits (incoming (sock up)) → r = Ok (Some (incoming (sock up))) ∧ unread up2 = []).
  { intros Hsu Hm Hfit. destruct (Hst (Hs1 Hsu) (incoming (sock up)) []) as (? & ? & _); auto.
    by rewrite app_nil_r. }
  destruct r as [[resp|]|e].
  2,3: wp_steps; split_and!; [done|by split|by simpl|]; intros Hsu _ Hm Hfit;
    by destruct (Hgot Hsu Hm Hfit) as [[=] _].
  destruct (Hr resp eq_refl) as (Hu & Hm & Hl). rewrite Hu1 in Hu. wp_steps.
  destruct (contents (buf up2)) as [|b bs] eqn:Hc2; wp_steps.
  - split_and!; [done|done|..].
    + intros Hh'. rewrite (clean_unread _ Hc2) in Hu. by split_and!.
    + intros Hsu _ Hm' Hfit. destruct (Hgot Hsu Hm' Hfit) as [[= ->] _]. split; [done|congruence].
  - split_and!; [done|done|by simpl|]. intros Hsu _ Hm' Hfit.
    destruct (Hgot Hsu Hm' Hfit) as [_ Hn]. unfold unread in Hn. by rewrite Hc2 in Hn.
Qed.

Definition leased (fuel : nat) (lease : option Framed) : Prop :=
  match lease with
  | Some up => clean up ∧ (N.to_nat (len (incoming up.(sock))) < fuel)%nat
  | None => True
  end.

Lemma next_request_spec fuel f :
  sound f → (N.to_nat (len (incoming f.(sock))) < fuel)%nat →
  wp (next_request fuel) (λ r f', is_Some r → sound f' ∧
    (N.to_nat (len (incoming f'.(sock))) < fuel)%nat) f.
Proof.
  intros Hok Hf. unfold next_request. wp_step.
  wp_apply read_message_spec as r f1 (Hok1 & _ & Hr & _); [done..|].
  destruct r as [[req|]|e].
  - wp_steps. intros _. destruct (Hr req eq_refl) as (_ & _ & Hl). split; [done|lia].
  - wp_steps. by intros [].
  - case_bool_decide; [|wp_steps; by intros []]. wp_step.
    wp_apply put_spec as r f2 _. wp_steps. by intros [].
Qed.

Lemma handle_client_spec fuel leases client :
  sound client → (N.to_nat (len (incoming client.(sock))) < fuel)%nat →
  Forall (leased fuel) leases →
  wp (handle_client fuel leases) (λ ups _, Forall (λ up, up.(healthy) = true → clean up) ups) client.
Proof.
  intros Hok Hf Hall. revert client Hok Hf.
  induction Hall as [|lease leases Hl Hall IH]; intros client Hok Hf; cbn [handle_client];
    [by wp_steps|]. wp_step.
  wp_apply next_request_spec as req c1 H1; [done..|]. destruct req as [request|]; [|by wp_steps].
  destruct H1 as [Hok1 Hf1]; [done|]. destruct lease as [up|].
  2: { wp_step. wp_apply put_spec as r c2 _. by wp_steps. }
  destruct Hl as [Hclean Hfu]. wp_step.
  pose proof (exchange_spec fuel request up Hclean Hfu) as Hx. unfold wp in Hx.
  destruct (exchange fuel request up) as [[[reply go] up']| |] eqn:He; [|done..].
  destruct Hx as (_ & _ & Hx & _). eapply wp_lift; [done|]. cbn beta iota. wp_step.
  wp_apply put_spec as r c2 (_ & Hb2 & _ & Hi2 & _).
  assert (Hup : healthy up' = true → clean up') by (intros Hh; by destruct (Hx Hh)).
  destruct r; [destruct go|]; [|wp_steps; by apply Forall_singleton..].
  wp_step. eapply wp_mono; [apply IH|].
  - unfold sound. by rewrite Hb2.
  - by rewrite Hi2.
  - intros ups c3 Hups. wp_steps. by constructor.
Qed.
End reading.

(** ** The theorems *)

(** C31: reading.  [read_message] ends, and what it returns is one message taken off the
    stream, every later byte left to be read; and on a stream whose reads do not fail, a
    message whose head fits the bound is returned whole, however the bytes arrive. *)
Theorem read_message_exact {T : Tcp} {TL : TcpLaws T} fuel k (f : Framed) :
  sound f → (N.to_nat (len (incoming f.(sock))) < fuel)%nat →
  ∃ r f', read_message fuel k f = Val (r, f') ∧ sound f' ∧ f'.(healthy) = f.(healthy) ∧
    (∀ msg, r = Ok (Some msg) → unread f = msg ++ unread f' ∧ framed_message k msg) ∧
    (steady f.(sock) → ∀ msg rest,
       unread f = msg ++ rest → framed_message k msg → head_fits msg →
       r = Ok (Some msg) ∧ unread f' = rest).
Proof.
  intros Hok Hf. pose proof (read_message_spec fuel k f Hok Hf) as Hw. unfold wp in Hw.
  destruct (read_message fuel k f) as [[r f']| |]; [|done..]. exists r, f'.
  destruct Hw as (H1 & H2 & H3 & H4). split_and!; try done.
  - intros msg Hm. by destruct (H3 msg Hm) as (? & ? & _).
  - intros Hs msg rest Hu Hm Hfit. by destruct (H4 Hs msg rest Hu Hm Hfit) as (? & ? & _).
Qed.

(** C30: the round trip.  Over a clean upstream [exchange] ends; if the upstream is healthy
    afterwards, exactly one response came over it, which is what the client is told, and it
    is clean again; and a response that comes alone over a working connection is passed on. *)
Theorem exchange_exact {T : Tcp} {TL : TcpLaws T} fuel request (up : Framed) :
  clean up → (N.to_nat (len (incoming up.(sock))) < fuel)%nat →
  ∃ reply go_on up', exchange fuel request up = Val ((reply, go_on), up') ∧
    (up'.(healthy) = true → clean up' ∧ go_on = true ∧ framed_message Response reply ∧
       incoming up.(sock) = reply ++ incoming up'.(sock)) ∧
    (steady up.(sock) → (send request up.(sock)).1 = Ok tt →
     framed_message Response (incoming up.(sock)) → head_fits (incoming up.(sock)) →
       reply = incoming up.(sock) ∧ go_on = true ∧ up'.(healthy) = true).
Proof.
  intros Hc Hf. pose proof (exchange_spec fuel request up Hc Hf) as Hw. unfold wp in Hw.
  destruct (exchange fuel request up) as [[[reply go] up']| |]; [|done..]. exists reply, go, up'.
  destruct Hw as (_ & _ & H1 & H2). split_and!; try done. intros Hs Hw Hm Hfit.
  by destruct (H2 Hs Hw Hm Hfit) as [[= -> ->] ?].
Qed.

(** A lease on an upstream, dropped. *)
Definition drop_upstream {T : Tcp} {F : Features} {R : Runtime} dial set_nodelay (cfg : PoolConfig)
    (up : Framed) (created used : Instant) : St (World Framed) unit :=
  let _ : ManageConnection Framed io_error := Origin dial set_nodelay in
  pooled_drop cfg (mkPooled (Some (mkConn up created used))).

(** What goes back to the pool.  However a client and its upstreams behave, every lease
    [handle_client] drops leaves an idle list of clean upstreams as clean as it was: no
    connection is parked with another client's bytes in it. *)
Theorem upstreams_return_clean {T : Tcp} {TL : TcpLaws T} {F : Features} {R : Runtime}
    dial set_nodelay cfg fuel leases (client : Framed) :
  sound client → (N.to_nat (len (incoming client.(sock))) < fuel)%nat →
  Forall (leased fuel) leases →
  wp (handle_client fuel leases) (λ ups _, ∀ up created used (w : World Framed),
    up ∈ ups → Forall (λ c, clean c.(raw)) w.(idle) →
    wp (drop_upstream dial set_nodelay cfg up created used) (λ _ w', Forall (λ c, clean c.(raw)) w'.(idle)) w) client.
Proof.
  intros Hok Hf Hall. eapply wp_mono; [by apply handle_client_spec|]. simpl.
  intros ups _ Hups up t0 t1 w Hup Hidle. rewrite Forall_forall in Hups. specialize (Hups up Hup).
  eapply wp_mono; [apply pooled_drop_leaves|]. intros [] w'. unfold fate. simpl.
  destruct (closed w || _); [by intros [-> _ _]|].
  destruct (healthy up); simpl; [|by intros [-> _ _]].
  destruct (expiry _ _ cfg); intros [-> _ _]; [done|]. apply Forall_app. split; [done|].
  apply Forall_singleton. by apply Hups.
Qed.

(** ** Concrete exchanges *)

#[local] Existing Instance script_tcp.

Definition demo_request : list N :=
  codes "POST / HTTP/1.1" ++ [13; 10] ++ codes "Content-Length: 5" ++ CRLF2 ++ codes "hello".
Definition demo_response : list N := codes "HTTP/1.1 204 No Content" ++ CRLF2.

(** A request, then the start of another, arriving a few bytes at a time. *)
Definition demo_client : Framed :=
  framed_new (mkScript (demo_request ++ codes "GET") [Ok 2; Ok 0; Ok 60] [] []).
(** An upstream with one response to give, in two pieces. *)
Definition demo_upstream : Framed := framed_new (mkScript demo_response [Ok 20] [] []).

Lemma demo_request_framed : framed_message Request demo_request ∧ head_fits demo_request.
Proof.
  split; [exists 34, 5|exists 34]; vm_compute; repeat split; discriminate.
Qed.
Lemma demo_response_framed : framed_message Response demo_response ∧ head_fits demo_response.
Proof.
  split; [exists 23, 0|exists 23]; vm_compute; repeat split; discriminate.
Qed.
Lemma demo_upstream_clean : clean demo_upstream.
Proof. split_and!; [|done..]. vm_compute. discriminate. Qed.
Lemma demo_client_ok : sound demo_client.
Proof. vm_compute. discriminate. Qed.

(** The same length twice is one length. *)
Definition said_twice : list N :=
  codes "GET / HTTP/1.1" ++ [13; 10] ++ codes "Content-Length: 5" ++ [13; 10] ++
  codes "content-length:5" ++ [13; 10; 13; 10].
Lemma body_length_exact_witness : body_length said_twice Request = Ok 5.
Proof.
  assert (Hh : headers said_twice = [(codes "content-length", codes "5"); (codes "content-length", codes "5")])
    by (vm_compute; reflexivity).
  apply (body_length_exact said_twice Request). rewrite Hh. split.
  - intros v. rewrite !not_elem_of_cons. split_and!; [by intros [=]..|apply not_elem_of_nil].
  - left. split; [eexists; by left|]. intros v [[= ->]|[[= ->]|[]%not_elem_of_nil]%elem_of_cons]%elem_of_cons; reflexivity.
Defined.

Lemma read_message_exact_witness :
  ∃ f', read_message 100 Request demo_client = Val (Ok (Some demo_request), f') ∧
        unread f' = codes "GET".
Proof.
  destruct (read_message_exact 100 Request demo_client demo_client_ok)
    as (r & f' & He & _ & _ & _ & Hs); [vm_compute; lia|].
  destruct (Hs ltac:(repeat econstructor) demo_request (codes "GET")) as [-> Hu];
    [done|apply demo_request_framed..|].
  by exists f'.
Defined.

Lemma exchange_exact_witness :
  ∃ up', exchange 100 demo_request demo_upstream = Val ((demo_response, true), up') ∧
         up'.(healthy) = true.
Proof.
  destruct (exchange_exact 100 demo_request demo_upstream demo_upstream_clean)
    as (reply & go & up' & He & _ & Hs); [vm_compute; lia|].
  destruct Hs as (-> & -> & Hh); [repeat econstructor|done|apply demo_response_framed..|].
  by exists up'.
Defined.

Lemma upstreams_return_clean_witness :
  wp (handle_client 100 [Some demo_upstream; None]) (λ ups _, ∀ up created used (w : World Framed),
    up ∈ ups → Forall (λ c, clean c.(raw)) w.(idle) →
    wp (drop_upstream (F := demo_features) (R := demo_runtime None) (λ _, Pending) (λ _, Ok tt)
          demo_config up created used)
      (λ _ w', Forall (λ c, clean c.(raw)) w'.(idle)) w) demo_client.
Proof.
  apply upstreams_return_clean.
  - apply demo_client_ok.
  - vm_compute. lia.
  - repeat constructor; apply demo_upstream_clean.
Defined.
