(* ===== verification/ProxyServer.v ===== *)
(** The reverse proxy at work ([src/examples/http_proxy.rs]): any number of clients served at once
    on one thread, each leasing an upstream for each of its requests.  [handle_client] stopped at
    each of its await points, and the theorem that no client ever sees another's bytes. *)

From stdpp Require Import gmap.
From S2P Require Import Prelude Manage Builder Metrics Store Waiters Inner Local Futures Balance System Scenario Clients Text Echo Typing Sessions Buffered HttpProxy.

(** ** Reading a message, read by read *)

(** [read_message], suspended in a read: of the head, or of a body with the whole message
    [total] bytes long. *)
Inductive reading := Head | Body (total : N).
Abbreviation verdict := (result (option (list N)) io_error).

Section reading.
Context {T : Tcp}.
Implicit Types f : Buffered.

(** From one read to the next, or to the end. *)
Definition settle_body (total : N) : St Buffered (reading + verdict) :=
  b ← gets (λ f, f.(buf).(contents));
  if len b <? total then mret (inl (Body total))
  else msg ← drain_front total; mret (inr (Ok (Some msg))).
Definition settle_head (kind : Kind) : St Buffered (reading + verdict) :=
  b ← gets (λ f, f.(buf).(contents));
  match find b CRLF2 with
  | Some pos =>
      match body_length (firstn (N.to_nat (pos + 4)) b) kind with
      | Err e => mret (inr (Err e))
      | Ok body =>
          if MAX_BODY <? body then mret (inr (Err (bad "body too large")))
          else settle_body (pos + 4 + body)
      end
  | None =>
      if MAX_HEAD <=? len b then mret (inr (Err (bad "header block too large")))
      else mret (inl Head)
  end.

(** The read it is suspended in, and on. *)
Definition read_step (kind : Kind) (rd : reading) : St Buffered (reading + verdict) :=
  r ← read_more;
  match r with
  | Err e => mret (inr (Err e))
  | Ok false => mret (inr (Ok None))
  | Ok true => match rd with Head => settle_head kind | Body total => settle_body total end
  end.

(** What is left of [read_message] there. *)
Definition read_rest (fuel : nat) (kind : Kind) (rd : reading) : St Buffered verdict :=
  match rd with
  | Head => read_message fuel kind
  | Body total =>
      whole ← read_body fuel total;
      match whole with
      | Err e => mret (Err e)
      | Ok false => mret (Ok None)
      | Ok true => msg ← drain_front total; mret (Ok (Some msg))
      end
  end.
Definition or_rest (fuel : nat) (kind : Kind) (x : reading + verdict) : St Buffered verdict :=
  match x with inl rd => read_rest fuel kind rd | inr v => mret v end.

(** What the buffer holds does not decide yet. *)
Definition waiting (rd : reading) f : Prop :=
  match rd with
  | Head => find f.(buf).(contents) CRLF2 = None ∧ len f.(buf).(contents) < MAX_HEAD
  | Body total => len f.(buf).(contents) < total ∧ 4 ≤ total
  end.

Context {TL : TcpLaws T}.
Abbreviation to_read f := (N.to_nat (len (incoming f.(sock)))).

(** Once there is enough fuel, more does not matter. *)
Lemma read_body_fuel n m total f :
  sound f → (to_read f < n)%nat → (to_read f < m)%nat → read_body n total f = read_body m total f.
Proof.
  revert m f. induction n as [|n IH]; intros [|m] f Hok Hn Hm; [lia..|]. cbn [read_body].
  unfold mbind, St_bind, gets. destruct (len (contents (buf f)) <? total); [|done].
  destruct (wp_val _ _ _ (fill_spec (8 * 1024) f Hok ltac:(lia))) as (r & f' & Hr & (Hok' & _ & Hr') & _).
  unfold read_more. rewrite Hr. destruct r as [[]|e]; [|done..]. destruct Hr' as [_ Hlt]. apply IH; [done|lia..].
Qed.
Lemma read_head_fuel n m f :
  sound f → (to_read f < n)%nat → (to_read f < m)%nat → read_head n f = read_head m f.
Proof.
  revert m f. induction n as [|n IH]; intros [|m] f Hok Hn Hm; [lia..|]. cbn [read_head].
  unfold mbind, St_bind, gets. destruct (find _ CRLF2); [done|]. destruct (MAX_HEAD <=? _); [done|].
  destruct (wp_val _ _ _ (fill_spec (8 * 1024) f Hok ltac:(lia))) as (r & f' & Hr & (Hok' & _ & Hr') & _).
  unfold read_more. rewrite Hr. destruct r as [[]|e]; [|done..]. destruct Hr' as [_ Hlt]. apply IH; [done|lia..].
Qed.

(** Settling changes nothing of what [read_message] does. *)
Lemma settle_body_rest fuel kind total f :
  (to_read f < fuel)%nat → read_rest fuel kind (Body total) f = (settle_body total ≫= or_rest fuel kind) f.
Proof.
  destruct fuel as [|fuel]; intros Hf; [lia|]. unfold settle_body, read_rest at 1. cbn [read_body].
  unfold mbind, St_bind, gets. destruct (N.ltb_spec (len (contents (buf f))) total) as [Hlt|Hge].
  - unfold mret at 6, St_ret at 6. unfold or_rest, read_rest. cbn [read_body].
    unfold mbind, St_bind, gets. by rewrite (proj2 (N.ltb_lt _ _) Hlt).
  - unfold mret at 1, St_ret at 1. by destruct (drain_front total f) as [[]| |].
Qed.
Lemma settle_head_rest fuel kind f :
  (to_read f < fuel)%nat → read_message fuel kind f = (settle_head kind ≫= or_rest fuel kind) f.
Proof.
  destruct fuel as [|fuel]; intros Hf; [lia|].
  assert (Hhead : read_head (S fuel) f = match find f.(buf).(contents) CRLF2 with
    | Some pos => Val (Ok (Some (pos + 4)), f)
    | None => if MAX_HEAD <=? len f.(buf).(contents) then Val (Err (bad "header block too large"), f)
              else read_head (S fuel) f end).
  { cbn [read_head]. unfold mbind, St_bind, gets. destruct (find _ CRLF2); [done|]. by destruct (MAX_HEAD <=? _). }
  destruct (find (contents (buf f)) CRLF2) as [pos|] eqn:Hpos.
  - transitivity (read_framed (S fuel) kind (pos + 4) f).
    { unfold read_message, mbind, St_bind. by rewrite Hhead. }
    unfold read_framed, settle_head, mbind, St_bind, gets. rewrite Hpos.
    destruct (body_length _ kind) as [n|e]; [|done]. destruct (MAX_BODY <? n); [done|]. cbv zeta.
    exact (settle_body_rest (S fuel) kind (pos + 4 + n) f Hf).
  - unfold settle_head, mbind, St_bind, gets. rewrite Hpos.
    destruct (MAX_HEAD <=? len (contents (buf f))) eqn:Hmax; [|done].
    unfold read_message, mbind, St_bind. by rewrite Hhead.
Qed.

(** A read is one round of its loop. *)
Lemma step_rest fuel kind rd f :
  sound f → waiting rd f → (to_read f < fuel)%nat →
  read_rest fuel kind rd f = (read_step kind rd ≫= or_rest fuel kind) f.
Proof.
  intros Hok Hw Hf. destruct fuel as [|fuel]; [lia|].
  destruct (wp_val _ _ _ (fill_spec (8 * 1024) f Hok ltac:(lia))) as (r & f' & Hr & (Hok' & _ & Hr') & _).
  unfold read_step. change (read_more f = Val (r, f')) in Hr.
  assert (Hassoc : ∀ A B (c : result bool io_error → St Buffered A) (d : A → St Buffered B),
    ((read_more ≫= c) ≫= d) f = (c r ≫= d) f').
  { intros A B c d. unfold mbind, St_bind. by rewrite Hr. }
  rewrite Hassoc. destruct rd as [|total]; simpl in Hw.
  - destruct Hw as [Hnone Hmax].
    transitivity ((match r with
      | Err e => mret (Err e) | Ok false => mret (Ok None)
      | Ok true => read_message (S fuel) kind end : St Buffered verdict) f').
    + assert (Hh : read_head (S fuel) f = match r with
        | Err e => Val (Err e, f') | Ok false => Val (Ok None, f') | Ok true => read_head fuel f' end).
      { cbn [read_head]. unfold mbind, St_bind, gets. rewrite Hnone, (proj2 (N.leb_gt _ _) Hmax), Hr.
        by destruct r as [[]|e]. }
      unfold read_rest, read_message, mbind, St_bind. rewrite Hh. destruct r as [[]|e]; [|done..].
      destruct Hr' as [_ Hlt']. by rewrite (read_head_fuel fuel (S fuel) f') by (done || lia).
    + destruct r as [[]|e]; [|done..]. destruct Hr' as [_ Hlt']. apply settle_head_rest. lia.
  - transitivity ((match r with
      | Err e => mret (Err e) | Ok false => mret (Ok None)
      | Ok true => read_rest (S fuel) kind (Body total) end : St Buffered verdict) f').
    + assert (Hb : read_body (S fuel) total f = match r with
        | Err e => Val (Err e, f') | Ok false => Val (Ok false, f') | Ok true => read_body fuel total f' end).
      { cbn [read_body]. unfold mbind, St_bind, gets. rewrite (proj2 (N.ltb_lt _ _) (proj1 Hw)), Hr.
        by destruct r as [[]|e]. }
      unfold read_rest, mbind, St_bind. rewrite Hb. destruct r as [[]|e]; [|done..].
      destruct Hr' as [_ Hlt']. by rewrite (read_body_fuel fuel (S fuel) total f') by (done || lia).
    + destruct r as [[]|e]; [|done..]. destruct Hr' as [_ Hlt']. apply settle_body_rest. lia.
Qed.

(** What a stretch of reading from [f] leaves: still waiting with every byte kept, or a message off
    the stream, or a failure. *)
Definition read_so_far f (x : reading + verdict) f' : Prop :=
  sound f' ∧ f'.(healthy) = f.(healthy) ∧
  match x with
  | inl rd => waiting rd f' ∧ len (incoming f'.(sock)) ≤ len (incoming f.(sock)) ∧
      len (unread f') = len (unread f)
  | inr (Ok (Some msg)) =>
      len (incoming f'.(sock)) ≤ len (incoming f.(sock)) ∧ len (unread f') + 4 ≤ len (unread f)
  | inr _ => True
  end.

Lemma settle_body_spec total f :
  sound f → 4 ≤ total → wp (settle_body total) (read_so_far f) f.
Proof.
  intros Hok Ht. unfold settle_body. wp_steps. destruct (N.ltb_spec (len (contents (buf f))) total).
  - wp_steps. by split_and!.
  - wp_step. wp_apply drain_front_spec as msg f' (_ & Hm & Hu & _ & Hs & Hh & Hok'); [done..|]. wp_steps.
    split_and!; [done|done|by rewrite Hs|]. rewrite Hu, len_app. lia.
Qed.
Lemma settle_head_spec kind f : sound f → wp (settle_head kind) (read_so_far f) f.
Proof.
  intros Hok. unfold settle_head. wp_steps. destruct (find _ CRLF2) as [pos|] eqn:Hpos.
  - destruct (body_length _ kind) as [n|e]; [|by wp_steps]. destruct (MAX_BODY <? n); [by wp_steps|].
    apply settle_body_spec; [done|lia].
  - destruct (N.leb_spec MAX_HEAD (len (contents (buf f)))); by wp_steps.
Qed.

(** A read leaves fewer bytes to come, or the message is decided. *)
Lemma read_step_spec kind rd f :
  sound f → waiting rd f →
  wp (read_step kind rd) (λ x f', read_so_far f x f' ∧
    match x with inl _ => len (incoming f'.(sock)) < len (incoming f.(sock)) | inr _ => True end) f.
Proof.
  intros Hok Hrd. unfold read_step. wp_step. wp_apply fill_spec as r f1 [(Hok1 & Hh1 & Hr) _]; [done|lia|].
  destruct r as [[]|e]; [|by wp_steps..]. destruct Hr as [Hon Hlt].
  assert (Hlater : ∀ c, wp c (read_so_far f1) f1 → wp c (λ x f', read_so_far f x f' ∧
    match x with inl _ => len (incoming f'.(sock)) < len (incoming f.(sock)) | inr _ => True end) f1).
  { intros c Hc. eapply wp_mono; [exact Hc|]. intros x f' (H1 & H2 & H3).
    rewrite (ro_unread _ _ Hon) in H3. destruct x as [rd'|[[msg|]|e]].
    - destruct H3 as (? & ? & ?). split; [split_and!; [done|congruence|done|lia|done]|lia].
    - destruct H3 as [? ?]. split; [split_and!; [done|congruence|lia|done]|done].
    - split; [by split_and!; [|congruence|]|done].
    - split; [by split_and!; [|congruence|]|done]. }
  destruct rd as [|total]; apply Hlater; [by apply settle_head_spec|].
  apply settle_body_spec; [done|apply Hrd].
Qed.
End reading.

(** ** [handle_client], stretch by stretch *)

(** Where it is suspended: not begun; reading a request; saying why it is refused; in
    [local.get().await]; telling that there is no upstream; forwarding the request; reading the
    response; replying; telling that the upstream failed.  [Left] is after its return. *)
Inductive proxy_stage :=
| Arrived | Reading (rd : reading) | Refusing (reply : list N) | Leasing (request : list N) | Unavailable
| Forwarding (request : list N) | Responding (rd : reading) | Replying (response : list N) | Failing | Left.
Record ProxyVisit {T : Tcp} := mkProxyVisit { proxy_at : proxy_stage; proxy_client : Buffered }.
Arguments mkProxyVisit {T} _ _.

Section proxy.
Context {T : Tcp}.

(** A stretch that uses one of the two connections. *)
Definition along {A B} (step : St Buffered A) (f : Buffered) (next : A → Buffered → B) : outcome B :=
  match step f with Val (a, f') => Val (next a f') | Panic => Panic | NoFuel => NoFuel end.

(** The request is read, or more of it is needed, or the client is done with. *)
Definition have_request (x : reading + verdict) (client : Buffered) : want ProxyVisit :=
  match x with
  | inl rd => Go_on (mkProxyVisit (Reading rd) client)
  | inr (Ok (Some request)) => Ask_for (mkProxyVisit (Leasing request) client)
  | inr (Ok None) => Leave (mkProxyVisit Left client)
  | inr (Err e) =>
      if bool_decide (e.(err_kind) = InvalidData)
      then Go_on (mkProxyVisit (Refusing (bad_request e.(message))) client)
      else Leave (mkProxyVisit Left client)
  end.
Definition next_round (client : Buffered) : outcome (want ProxyVisit) :=
  along (settle_head Request) client have_request.

Definition proxy_outside (s : ProxyVisit) : outcome (want ProxyVisit) :=
  match s.(proxy_at) with
  | Reading rd => along (read_step Request rd) s.(proxy_client) have_request
  | Refusing reply => along (write_all_bytes reply) s.(proxy_client) (λ _ c, Leave (mkProxyVisit Left c))
  | Unavailable =>
      along (write_all_bytes (bad_gateway "no upstream available")) s.(proxy_client)
        (λ _ c, Leave (mkProxyVisit Left c))
  | Replying response =>
      match write_all_bytes response s.(proxy_client) with
      | Val (Ok _, c) => next_round c
      | Val (Err _, c) => Val (Leave (mkProxyVisit Left c))
      | Panic => Panic
      | NoFuel => NoFuel
      end
  | _ => next_round s.(proxy_client)
  end.

(** The response is read, or more of it is needed, or the round trip failed. *)
Definition have_response (client : Buffered) (x : reading + verdict) (up : Buffered) : stay ProxyVisit * Buffered :=
  match x with
  | inl rd => (Keep (mkProxyVisit (Responding rd) client), up)
  | inr (Ok (Some response)) =>
      (Give_back (mkProxyVisit (Replying response) client),
       match up.(buf).(contents) with [] => up | _ => set_healthy false up end)
  | inr _ => (Keep (mkProxyVisit Failing client), set_healthy false up)
  end.

Definition proxy_inside (s : ProxyVisit) (up : Buffered) : outcome (stay ProxyVisit * Buffered) :=
  let client := s.(proxy_client) in
  match s.(proxy_at) with
  | Forwarding request =>
      match write_all_bytes request up with
      | Val (Ok _, up) => along (settle_head Response) up (have_response client)
      | Val (Err _, up) => Val (Keep (mkProxyVisit Failing client), set_healthy false up)
      | Panic => Panic
      | NoFuel => NoFuel
      end
  | Responding rd => along (read_step Response rd) up (have_response client)
  | Failing =>
      along (write_all_bytes (bad_gateway "upstream error")) client (λ _ c, (Finish (mkProxyVisit Left c), up))
  | Leasing request => Val (Keep (mkProxyVisit (Forwarding request) client), up)
  | _ => Val (Finish s, up)
  end.

#[export] Instance proxy_guest : Guest Buffered ProxyVisit := {|
  outside := proxy_outside;
  turned_away s := (mkProxyVisit Unavailable s.(proxy_client), false);
  inside := proxy_inside
|}.

(** A connection just accepted: [Framed::new]. *)
Definition arrived (s : ProxyVisit) : Prop :=
  s.(proxy_at) = Arrived ∧ ∃ p, s.(proxy_client) = framed_new p.

Context {TL : TcpLaws T}.

Definition proxy_fit (s : ProxyVisit) (up : option Buffered) : Prop :=
  sound s.(proxy_client) ∧
  match s.(proxy_at), up with
  | Arrived, None | Refusing _, None | Unavailable, None | Replying _, None => True
  | Reading rd, None => waiting rd s.(proxy_client)
  | Leasing _, Some up | Forwarding _, Some up => clean up
  | Responding rd, Some up => sound up ∧ up.(healthy) = true ∧ waiting rd up
  | Failing, Some up => up.(healthy) = false
  | _, _ => False
  end.

(** The client's bytes still to be handled, then the stages of a round; then the upstream's. *)
Definition client_left (x : ProxyVisit * option Buffered) : nat :=
  let c := x.1.(proxy_client) in
  let bytes := (10 * N.to_nat (len (unread c) + len (incoming c.(sock))))%nat in
  match x.1.(proxy_at), x.2 with
  | Left, _ => 0
  | Refusing _, _ | Unavailable, _ | Failing, _ => 1
  | Reading _, _ => bytes + 4
  | Replying _, _ => bytes + 5
  | Responding _, _ => bytes + 6
  | Forwarding _, _ => bytes + 7
  | Leasing _, Some _ => bytes + 8
  | Leasing _, None | Arrived, _ => bytes + 9
  end.
Definition upstream_left (x : ProxyVisit * option Buffered) : nat :=
  match x.1.(proxy_at), x.2 with Responding _, Some up => N.to_nat (len (incoming up.(sock))) | _, _ => 0 end.
Definition proxy_closer : relation (ProxyVisit * option Buffered) := fewer_then client_left upstream_left.

Lemma along_spec {A B} (step : St Buffered A) f (next : A → Buffered → B) (Q : A → Buffered → Prop) (P : B → Prop) :
  wp step Q f → (∀ a f', Q a f' → P (next a f')) → ∃ b, along step f next = Val b ∧ P b.
Proof. intros Hw Hn. unfold along. destruct (wp_val _ _ _ Hw) as (a & f' & -> & Ha). eauto. Qed.

Definition goes_out (s : ProxyVisit) (w : want ProxyVisit) : Prop :=
  match w with
  | Go_on s' => proxy_fit s' None ∧ proxy_closer (s', None) (s, None)
  | Ask_for s' => wanting clean proxy_fit proxy_closer s' ∧ proxy_closer (s', None) (s, None)
  | Leave _ => True
  end.

(** A call of [get], from anywhere above it. *)
Lemma leasing_wanting request client :
  sound client → wanting clean proxy_fit proxy_closer (mkProxyVisit (Leasing request) client).
Proof.
  intros Hok. split; [intros up Hup; split; [by split|]|intros _; split; [by split|]];
    left; unfold client_left; simpl; lia.
Qed.

(** Going on to the next request from [s], whose stage is [n] above its bytes. *)
Lemma have_request_spec s f x f' n :
  read_so_far f x f' → client_left (s, None) = (10 * N.to_nat (len (unread f) + len (incoming f.(sock))) + n)%nat →
  (1 < n)%nat → (match x with inl _ => (4 < n)%nat ∨ len (incoming f'.(sock)) < len (incoming f.(sock)) | inr _ => True end) →
  goes_out s (have_request x f').
Proof.
  intros (Hok & _ & Hx) Hs Hn Hless. destruct x as [rd|[[request|]|e]]; simpl; [| |done|].
  - destruct Hx as (Hw & Hi & Hu). split; [by split|]. left. rewrite Hs. unfold client_left. simpl. lia.
  - destruct Hx as [Hi Hu]. split; [by apply leasing_wanting|]. left. rewrite Hs. unfold client_left. simpl. lia.
  - case_bool_decide; [|done]. split; [by split|]. left. rewrite Hs. unfold client_left. simpl. lia.
Qed.
Lemma next_round_spec s f n :
  sound f → client_left (s, None) = (10 * N.to_nat (len (unread f) + len (incoming f.(sock))) + n)%nat →
  (4 < n)%nat → ∃ w, next_round f = Val w ∧ goes_out s w.
Proof.
  intros Hok Hs Hn. eapply along_spec; [by apply settle_head_spec|]. intros x f' Hx.
  eapply have_request_spec; [done|done|lia|]. destruct x; [by left|done].
Qed.

Lemma put_client bytes f :
  sound f → wp (write_all_bytes bytes) (λ _ f', sound f' ∧ unread f' = unread f ∧
    incoming f'.(sock) = incoming f.(sock)) f.
Proof.
  intros Hok. wp_apply put_spec as r f' (_ & Hb & _ & Hi & _).
  unfold sound, unread in *. by rewrite Hb, Hi.
Qed.

Lemma proxy_outside_spec s : proxy_fit s None → ∃ w, proxy_outside s = Val w ∧ goes_out s w.
Proof.
  intros [Hok Hf]. destruct s as [st c]. unfold proxy_outside. cbn [proxy_at proxy_client] in *.
  destruct st as [|rd|reply|request| |request|rd|response| |]; try done.
  - apply (next_round_spec _ _ 9); [done|done|lia].
  - eapply along_spec; [by apply read_step_spec|]. intros x f' [Hx Hl].
    eapply (have_request_spec _ c _ _ 4); [done|done|lia|]. destruct x; [by right|done].
  - eapply along_spec; [by apply put_client|]. done.
  - eapply along_spec; [by apply put_client|]. done.
  - destruct (wp_val _ _ _ (put_client response c Hok)) as (r & f' & -> & Hok' & Hu & Hi).
    destruct r; [|by eexists]. apply (next_round_spec _ _ 5); [done| |lia]. unfold client_left. simpl. by rewrite Hu, Hi.
Qed.

(** What comes back to the pool: flagged, or clean. *)
Definition fit_to_return (up : Buffered) : Prop := up.(healthy) = true → clean up.

Definition comes_in (s : ProxyVisit) (up : Buffered) (r : stay ProxyVisit * Buffered) : Prop :=
  match r.1 with
  | Keep s' => proxy_fit s' (Some r.2) ∧ proxy_closer (s', Some r.2) (s, Some up)
  | Give_back s' => fit_to_return r.2 ∧ proxy_fit s' None ∧ proxy_closer (s', None) (s, Some up)
  | Finish _ => fit_to_return r.2
  end.

Lemma have_response_spec s up0 client f x f' :
  sound client → read_so_far f x f' → f.(healthy) = true →
  proxy_closer (mkProxyVisit Failing client, Some f') (s, Some up0) →
  (∀ response, proxy_closer (mkProxyVisit (Replying response) client, None) (s, Some up0)) →
  (∀ rd, x = inl rd → proxy_closer (mkProxyVisit (Responding rd) client, Some f') (s, Some up0)) →
  comes_in s up0 (have_response client x f').
Proof.
  intros Hok (Hok' & Hh & Hx) Hf Hfail Hreply Hmore.
  destruct x as [rd|[[response|]|e]]; unfold comes_in, fit_to_return; simpl.
  - destruct Hx as (Hw & _). split; [|by apply Hmore]. split; [done|]. split_and!; [done|congruence|done].
  - split; [|split; [by split|apply Hreply]]. destruct (contents (buf f')) as [|b bs] eqn:Hc; [|done].
    intros Hh'. by split_and!.
  - split; [by split|exact Hfail].
  - split; [by split|exact Hfail].
Qed.

Lemma proxy_inside_spec s up :
  proxy_fit s (Some up) → ∃ r, proxy_inside s up = Val r ∧ comes_in s up r.
Proof.
  intros [Hok Hf]. destruct s as [st c]. unfold proxy_inside. cbn [proxy_at proxy_client] in *. cbv zeta.
  assert (Hbelow : ∀ st' up' n, client_left (mkProxyVisit st' c, up') = n →
    (n < client_left (mkProxyVisit st c, Some up))%nat → proxy_closer (mkProxyVisit st' c, up') (mkProxyVisit st c, Some up)).
  { intros st' up' n <- Hlt. by left. }
  destruct st as [|rd|reply|request| |request|rd|response| |]; try done.
  - eexists. split; [done|]. split; [by split|]. eapply Hbelow; [done|]. unfold client_left. simpl. lia.
  - destruct Hf as (Hoku & Hh & Hc). unfold write_all_bytes.
    destruct (wp_val _ _ _ (put_spec request up)) as (r & f & -> & _ & Hb & Hh' & _).
    assert (Hokf : sound f) by (unfold sound; by rewrite Hb).
    destruct r.
    + eapply along_spec; [by apply settle_head_spec|]. intros x f' Hx.
      apply (have_response_spec _ _ _ f); try done; [congruence|..];
        intros; eapply Hbelow; try done; unfold client_left; simpl; lia.
    + eexists. split; [done|]. split; [by split|]. eapply Hbelow; [done|]. unfold client_left. simpl. lia.
  - destruct Hf as (Hoku & Hh & Hw). eapply along_spec; [by apply read_step_spec|]. intros x f' [Hx Hl].
    apply (have_response_spec _ _ _ up); try done.
    + eapply Hbelow; [done|]. unfold client_left. simpl. lia.
    + intros. eapply Hbelow; [done|]. unfold client_left. simpl. lia.
    + intros rd' ->. right. split; [done|]. unfold upstream_left. simpl. lia.
  - eapply along_spec; [by apply put_client|]. intros r f' _. unfold comes_in, fit_to_return. simpl. congruence.
Qed.

Context (dial : nat → Poll (result stream io_error)) (set_nodelay : stream → result unit io_error).
#[export] Instance clean_kept : TypedManager (Origin dial set_nodelay) clean.
Proof.
  split; [|done..]. intros t c. simpl. destruct (dial t) as [|[p|e]]; [done| |done].
  destruct (set_nodelay p); [|done]. intros [= <-]. done.
Qed.
Lemma fit_returnable up : fit_to_return up → returnable (M := Origin dial set_nodelay) clean up.
Proof. intros Hf t Hb. apply Hf. simpl in Hb. by destruct (healthy up). Qed.

#[export] Instance proxy_laws : GuestLaws (Origin dial set_nodelay) proxy_guest arrived clean.
Proof.
  apply (Build_GuestLaws _ _ _ _ _ _ _ proxy_fit _ (fewer_then_wf client_left upstream_left) _).
  - intros [st c] [Hs [p Hp]]. simpl in *. subst. by split.
  - exact proxy_outside_spec.
  - intros s up Hf. destruct (proxy_inside_spec s up Hf) as ([r up'] & Hv & Hr). exists r, up'. split; [exact Hv|].
    unfold comes_in in Hr. simpl in Hr. destruct r as [s'|s'|s']; [exact Hr| |by apply fit_returnable].
    destruct Hr as (H1 & H2 & H3). split_and!; [by apply fit_returnable|exact H2|exact H3].
Defined.
End proxy.

(** ** The same as [handle_client] *)

Section alone.
Context {T : Tcp}.

(** [handle_client] in its parts: what it makes of a request read, or not; of a request and the
    answer of [get]; of the round trip. *)
Definition asked (v : verdict) : St Buffered (option (list N)) :=
  match v with
  | Ok (Some req) => mret (Some req)
  | Ok None => mret None
  | Err e =>
      if bool_decide (e.(err_kind) = InvalidData)
      then write_all_bytes (bad_request e.(message));; mret None
      else mret None
  end.
Definition conclude (fuel : nat) (leases : list (option Buffered)) (x : (list N * bool) * Buffered) :
    St Buffered (list Buffered) :=
  let '((reply, go_on), up) := x in
  w ← write_all_bytes reply;
  match w, go_on with
  | Ok _, true => ups ← handle_client fuel leases; mret (up :: ups)
  | _, _ => mret [up]
  end.
Definition handle_request (fuel : nat) (leases : list (option Buffered)) (lease : option Buffered)
    (request : list N) : St Buffered (list Buffered) :=
  match lease with
  | None => write_all_bytes (bad_gateway "no upstream available");; mret []
  | Some up => x ← lift (exchange fuel request up); conclude fuel leases x
  end.
Definition handle_verdict (fuel : nat) (leases : list (option Buffered)) (lease : option Buffered)
    (v : verdict) : St Buffered (list Buffered) :=
  req ← asked v;
  match req with None => mret [] | Some request => handle_request fuel leases lease request end.
Definition answered_with (v : verdict) : St Buffered (list N * bool) :=
  match v with
  | Ok (Some resp) =>
      left_over ← gets (λ up, up.(buf).(contents));
      match left_over with [] => skip | _ => modify (set_healthy false) end;;
      mret (resp, true)
  | _ => modify (set_healthy false);; mret (bad_gateway "upstream error", false)
  end.

(** What is left of it where it is suspended, [leases] being the answers of [get] to come. *)
Definition out_rest (fuel : nat) (s : ProxyVisit) (leases : list (option Buffered)) : St Buffered (list Buffered) :=
  match leases with
  | [] => mret []
  | lease :: tl =>
      match s.(proxy_at) with
      | Reading rd => read_rest fuel Request rd ≫= handle_verdict fuel tl lease
      | Refusing reply => write_all_bytes reply;; mret []
      | Unavailable => write_all_bytes (bad_gateway "no upstream available");; mret []
      | Replying response =>
          w ← write_all_bytes response;
          match w with Ok _ => handle_client fuel leases | Err _ => mret [] end
      | _ => handle_client fuel leases
      end
  end.
Definition in_rest (fuel : nat) (s : ProxyVisit) (up : Buffered) (leases : list (option Buffered)) :
    St Buffered (list Buffered) :=
  match s.(proxy_at) with
  | Leasing request | Forwarding request => x ← lift (exchange fuel request up); conclude fuel leases x
  | Responding rd => x ← lift ((read_rest fuel Response rd ≫= answered_with) up); conclude fuel leases x
  | _ => conclude fuel leases ((bad_gateway "upstream error", false), up)
  end.

Lemma handle_client_round fuel lease leases f :
  handle_client fuel (lease :: leases) f = (read_message fuel Request ≫= handle_verdict fuel leases lease) f.
Proof.
  cbn [handle_client]. unfold next_request, handle_verdict, handle_request, conclude, asked, mbind, St_bind.
  destruct (read_message fuel Request f) as [[[[request|]|e] f']| |]; [|done| |done..]; cbn.
  - destruct lease as [up|]; [|done]. by destruct (exchange fuel request up) as [[[reply go] up']| |].
  - case_bool_decide; [|done]. by destruct (write_all_bytes _ f') as [[]| |].
Qed.
Lemma exchange_round fuel request up :
  exchange fuel request up =
    (w ← write_all_bytes request;
     match w with
     | Ok _ => read_message fuel Response ≫= answered_with
     | Err _ => modify (set_healthy false);; mret (bad_gateway "upstream error", false)
     end) up.
Proof.
  unfold exchange, round_trip, mbind, St_bind. destruct (write_all_bytes request up) as [[[[]|e] up']| |]; done.
Qed.

(** *** One stretch of it *)

Context {TL : TcpLaws T}.
Abbreviation to_read f := (N.to_nat (len (incoming f.(sock)))).

(** Fuel enough for what the client may still send, while that matters. *)
Definition enough (fuel : nat) (s : ProxyVisit) : Prop :=
  match s.(proxy_at) with
  | Refusing _ | Unavailable | Failing | Left => True
  | _ => (to_read s.(proxy_client) < fuel)%nat
  end.

(** A command, and the same in two halves: what follows starts from the second. *)
Lemma bind_after {S A B X} (c : St S A) (d : St S X) (e : X → St S A) (k : A → St S B) f x f' :
  c f = (d ≫= e) f → d f = Val (x, f') → (c ≫= k) f = (e x ≫= k) f'.
Proof. unfold mbind, St_bind. intros -> Hd. rewrite Hd. done. Qed.

Definition out_goes (fuel : nat) (lease : option Buffered) (tl : list (option Buffered))
    (rest : outcome (list Buffered * Buffered)) (w : want ProxyVisit) : Prop :=
  match w with
  | Go_on s' => enough fuel s' ∧ rest = out_rest fuel s' (lease :: tl) s'.(proxy_client)
  | Ask_for s' => enough fuel s' ∧ ∃ request, s'.(proxy_at) = Leasing request ∧
      rest = handle_request fuel tl lease request s'.(proxy_client)
  | Leave s' => rest = Val ([], s'.(proxy_client))
  end.

Lemma have_request_rest fuel lease tl f x f' :
  read_so_far f x f' → (to_read f < fuel)%nat →
  out_goes fuel lease tl ((or_rest fuel Request x ≫= handle_verdict fuel tl lease) f') (have_request x f').
Proof.
  intros (_ & _ & Hx) Hf. destruct x as [rd|[[request|]|e]]; cbn [have_request out_goes]; [| |done|].
  - destruct Hx as (_ & Hi & _). split; [unfold enough; simpl; lia|done].
  - destruct Hx as [Hi _]. split; [unfold enough; simpl; lia|]. by exists request.
  - unfold or_rest, handle_verdict, asked, mbind, St_bind. cbn. case_bool_decide; [|done].
    split; [done|]. cbn. unfold out_rest, mbind, St_bind. cbn. by destruct (write_all_bytes _ f') as [[]| |].
Qed.
Lemma next_round_rest fuel lease tl f w :
  sound f → (to_read f < fuel)%nat → next_round f = Val w →
  out_goes fuel lease tl (handle_client fuel (lease :: tl) f) w.
Proof.
  intros Hok Hf Hw. rewrite handle_client_round.
  destruct (wp_val _ _ _ (settle_head_spec Request f Hok)) as (x & f' & Hs & Hx).
  unfold next_round, along in Hw. rewrite Hs in Hw. injection Hw as <-.
  rewrite (bind_after _ _ _ _ _ _ _ (settle_head_rest fuel Request f Hf) Hs). by eapply have_request_rest.
Qed.

Lemma out_step fuel lease tl s w :
  proxy_fit s None → enough fuel s → proxy_outside s = Val w →
  out_goes fuel lease tl (out_rest fuel s (lease :: tl) s.(proxy_client)) w.
Proof.
  intros [Hok Hf] He Hw. destruct s as [st c]. unfold proxy_outside in Hw. unfold enough in He.
  cbn [proxy_at proxy_client] in *.
  destruct st as [|rd|reply|request| |request|rd|response| |]; try done; unfold out_rest; cbn [proxy_at].
  - by eapply next_round_rest.
  - destruct (wp_val _ _ _ (read_step_spec Request rd c Hok Hf)) as (x & f' & Hs & Hx & _).
    unfold along in Hw. rewrite Hs in Hw. injection Hw as <-.
    rewrite (bind_after _ _ _ _ _ _ _ (step_rest fuel Request rd c Hok Hf He) Hs). by eapply have_request_rest.
  - unfold along in Hw. unfold mbind, St_bind. destruct (write_all_bytes reply c) as [[r f']| |]; [|done..].
    by injection Hw as <-.
  - unfold along in Hw. unfold mbind, St_bind. destruct (write_all_bytes _ c) as [[r f']| |]; [|done..].
    by injection Hw as <-.
  - destruct (wp_val _ _ _ (put_client response c Hok)) as (r & f' & Hp & Hok' & _ & Hi).
    rewrite (bind_val _ _ _ _ _ Hp). rewrite Hp in Hw. destruct r; [|by injection Hw as <-].
    eapply next_round_rest; [done|by rewrite Hi|done].
Qed.

(** *** With an upstream *)

Definition in_goes (fuel : nat) (tl : list (option Buffered)) (client : Buffered)
    (rest : outcome (list Buffered * Buffered)) (r : stay ProxyVisit * Buffered) : Prop :=
  match r.1 with
  | Keep s' => s'.(proxy_client) = client ∧ enough fuel s' ∧
      (match s'.(proxy_at) with Failing => True | _ => (to_read r.2 < fuel)%nat end) ∧
      rest = in_rest fuel s' r.2 tl client
  | Give_back s' => s'.(proxy_client) = client ∧ enough fuel s' ∧
      ∀ lease tl', tl = lease :: tl' →
      rest = (ups ← out_rest fuel s' tl; mret (r.2 :: ups)) client
  | Finish s' => rest = Val ([r.2], s'.(proxy_client))
  end.

Lemma have_response_rest fuel tl client f x f' :
  read_so_far f x f' → (to_read f < fuel)%nat → (to_read client < fuel)%nat →
  in_goes fuel tl client
    ((x ← lift ((or_rest fuel Response x ≫= answered_with) f'); conclude fuel tl x) client)
    (have_response client x f').
Proof.
  intros (_ & _ & Hx) Hf Hc. destruct x as [rd|[[response|]|e]]; unfold in_goes, have_response; cbn [fst snd].
  - destruct Hx as (_ & Hi & _). split_and!; [done|done|simpl; lia|done].
  - split_and!; [done|done|]. intros lease tl' ->. unfold out_rest. cbn [proxy_at].
    unfold or_rest, answered_with, mbind, St_bind, gets, lift, conclude. cbn.
    destruct (contents (buf f')); cbn; unfold mbind, St_bind; cbn;
      by destruct (write_all_bytes response client) as [[[] c']| |].
  - done.
  - done.
Qed.

Lemma in_step fuel tl s up r :
  proxy_fit s (Some up) → enough fuel s →
  (match s.(proxy_at) with Failing => True | _ => (to_read up < fuel)%nat end) →
  proxy_inside s up = Val r →
  in_goes fuel tl s.(proxy_client) (in_rest fuel s up tl s.(proxy_client)) r.
Proof.
  intros [Hok Hf] He Hu Hr. destruct s as [st c]. unfold proxy_inside in Hr. unfold enough in He.
  cbn [proxy_at proxy_client] in *. cbv zeta in Hr.
  destruct st as [|rd|reply|request| |request|rd|response| |]; try done; unfold in_rest; cbn [proxy_at].
  - by injection Hr as <-.
  - destruct Hf as (Hoku & Hh & Hcl). unfold write_all_bytes in Hr.
    destruct (wp_val _ _ _ (put_spec request up)) as (w & f & Hp & _ & Hb & Hh' & Hi & _). rewrite Hp in Hr.
    assert (Hx : ∀ k, (x ← lift (exchange fuel request up); k x) c =
      (x ← lift ((match w with Ok _ => read_message fuel Response ≫= answered_with
        | Err _ => modify (set_healthy false);; mret (bad_gateway "upstream error", false) end) f); k x) c :> outcome (list Buffered * Buffered)).
    { intros k. rewrite exchange_round. by rewrite (bind_val _ _ _ _ _ Hp). }
    rewrite Hx. destruct w as [[]|e].
    + assert (Hokf : sound f) by (unfold sound; by rewrite Hb).
      destruct (wp_val _ _ _ (settle_head_spec Response f Hokf)) as (x & f' & Hs & Hso).
      unfold along in Hr. rewrite Hs in Hr. injection Hr as <-.
      rewrite (bind_after _ _ _ _ _ _ _ (settle_head_rest fuel Response f ltac:(by rewrite Hi)) Hs).
      eapply have_response_rest; [done|by rewrite Hi|done].
    + by injection Hr as <-.
  - destruct Hf as (Hoku & Hh & Hw). destruct (wp_val _ _ _ (read_step_spec Response rd up Hoku Hw)) as (x & f' & Hs & Hso & _).
    unfold along in Hr. rewrite Hs in Hr. injection Hr as <-.
    rewrite (bind_after _ _ _ _ _ _ _ (step_rest fuel Response rd up Hoku Hw Hu) Hs).
    by eapply have_response_rest.
  - unfold along in Hr. unfold in_goes, conclude, mbind, St_bind.
    destruct (write_all_bytes _ c) as [[w f']| |]; [|done..]. injection Hr as <-. by destruct w.
Qed.

(** *** A whole conversation *)

Abbreviation loan := (option (Buffered * Buffered)).
Definition loan_fuel (fuel : nat) (o : loan) : Prop :=
  match o with Some (c0, _) => (to_read c0 < fuel)%nat | None => True end.

Lemma out_rest_then {B} fuel s ls (k : list Buffered → B) f l f' :
  out_rest fuel s ls f = Val (l, f') → (ups ← out_rest fuel s ls; mret (k ups)) f = Val (k l, f').
Proof. intros H. by rewrite (bind_val _ _ _ _ _ H). Qed.

Lemma proxy_alone fuel p l r : way clean p l r → ∀ s', r = Ended s' → Forall (loan_fuel fuel) l →
  match p with
  | Without s => proxy_fit s None → enough fuel s →
      out_rest fuel s (lent_by l) s.(proxy_client) = Val (given_back l, s'.(proxy_client))
  | Wants s => sound s.(proxy_client) → enough fuel s → ∀ request, s.(proxy_at) = Leasing request →
      ∃ lease tl, lent_by l = lease :: tl ∧
        handle_request fuel tl lease request s.(proxy_client) = Val (given_back l, s'.(proxy_client))
  | Within c0 s up => proxy_fit s (Some up) → enough fuel s →
      (match s.(proxy_at) with Failing => True | _ => (to_read up < fuel)%nat end) →
      ∃ up' l', l = Some (c0, up') :: l' ∧
        in_rest fuel s up (lent_by l') s.(proxy_client) = Val (up' :: given_back l', s'.(proxy_client))
  | Ended s => l = [] ∧ s = s'
  end.
Proof.
  revert p l r. refine (way_ind_front clean _ _ _); [by intros r s' ->|].
  intros p e q l r Hm Hway IH s' ->. specialize (IH s' eq_refl).
  destruct Hm as [s x Hx|s x Hx|s x Hx|s c Hc|s x Hx|s x Hx|c0 s c x c' Hx|c0 s c x c' Hx|c0 s c x c' Hx];
    unfold option_list; cbn [option_rect app]; intros Hl.
  - intros Hf He. destruct (lent_by_cons l) as (lease & tl & Hls). rewrite Hls in IH |- *.
    destruct (out_step fuel lease tl s _ Hf He Hx) as [He' ->].
    destruct (proxy_outside_spec s Hf) as (w & Hw & Hg). change (proxy_outside s = Val (Go_on x)) in Hx.
    rewrite Hx in Hw. injection Hw as <-. by apply IH, He'; [|apply Hg].
  - intros Hf He. destruct (proxy_outside_spec s Hf) as (w & Hw & Hg).
    change (proxy_outside s = Val (Ask_for x)) in Hx. rewrite Hx in Hw. injection Hw as <-.
    destruct Hg as [[_ Haway] _]. destruct (Haway eq_refl) as [[Hok _] _]. simpl in Hok.
    destruct (lent_by_cons l) as (lease & tl & Hls).
    destruct (out_step fuel lease tl s _ Hf He Hx) as (He' & request & Hreq & Hrest). rewrite Hls, Hrest.
    destruct (IH Hl Hok He' request Hreq) as (lease' & tl' & Hls' & Hrun). rewrite Hls in Hls'.
    by injection Hls' as <- <-.
  - intros Hf He. destruct IH as [-> ->]; [done|].
    exact (out_step fuel None [] s _ Hf He Hx).
  - intros Hok He request Hreq.
    assert (Hf : proxy_fit s (Some c)) by (unfold proxy_fit; by rewrite Hreq).
    assert (Hu : (to_read c < fuel)%nat).
    { destruct (way_loan clean _ _ _ Hway s' eq_refl) as (c' & l' & ->). by apply Forall_cons in Hl as [Hl _]. }
    destruct IH as (up' & l' & -> & Hrun); [done|done|done|by rewrite Hreq|].
    exists (Some c), (lent_by l'). split; [done|]. unfold in_rest in Hrun. by rewrite Hreq in Hrun.
  - injection Hx as <-. apply Forall_cons in Hl as [_ Hl]. intros Hok He request Hreq.
    exists None, (lent_by l). split; [done|].
    specialize (IH Hl ltac:(by split) I). destruct (lent_by_cons l) as (lease & tl & Hls). rewrite Hls in IH |- *. exact IH.
  - done.
  - intros Hf He Hu. destruct (proxy_inside_spec s c Hf) as (r & Hv & Hr).
    pose proof (in_step fuel) as Hstep. change (proxy_inside s c = Val (Keep x, c')) in Hx.
    rewrite Hx in Hv. injection Hv as <-. destruct Hr as [Hf' _]. simpl in Hf'.
    destruct (Hstep [] s c _ Hf He Hu Hx) as (Hc & He' & Hu' & _). simpl in Hu'.
    destruct IH as (up' & l' & -> & Hrun); [done..|]. exists up', l'. split; [done|].
    destruct (Hstep (lent_by l') s c _ Hf He Hu Hx) as (_ & _ & _ & ->). simpl. by rewrite <-Hc.
  - apply Forall_cons in Hl as [_ Hl]. intros Hf He Hu. exists c', l. split; [done|].
    change (proxy_inside s c = Val (Give_back x, c')) in Hx.
    destruct (proxy_inside_spec s c Hf) as (r & Hv & Hr). rewrite Hx in Hv. injection Hv as <-.
    destruct Hr as (_ & Hf' & _). destruct (in_step fuel (lent_by l) s c _ Hf He Hu Hx) as (Hc & He' & Hrest).
    destruct (lent_by_cons l) as (lease & tl & Hls). rewrite (Hrest lease tl Hls). rewrite <-Hc.
    simpl. by rewrite (bind_val _ _ _ _ _ (IH Hl Hf' He')).
  - intros Hf He Hu. destruct IH as [-> ->]; [by apply Forall_cons in Hl as [_ Hl]|].
    exists c', []. split; [done|]. exact (in_step fuel [None] s c _ Hf He Hu Hx).
Qed.

(** *** What a client is sent *)

(** Each upstream leased brought one response, which is the reply, or failed, which ends the
    conversation. *)
Inductive relayed : list (option Buffered) → list Buffered → list (list N) → Prop :=
| relayed_done leases : relayed leases [] []
| relayed_failed up leases up' : up'.(healthy) = false → relayed (Some up :: leases) [up'] []
| relayed_reply up leases up' ups reply replies :
    framed_message Response reply → incoming up.(sock) = reply ++ unread up' →
    relayed leases ups replies → relayed (Some up :: leases) (up' :: ups) (reply :: replies).

(** A message of the proxy's own. *)
Definition own_message (bytes : list N) : Prop :=
  bytes = [] ∨ (∃ why, bytes = bad_gateway why) ∨ ∃ why, bytes = bad_request why.

(** The client has been sent the replies and maybe a last message of the proxy's own; or a write
    to it failed, after some of the replies. *)
Definition was_sent (c : stream) (replies : list (list N)) (c' : stream) : Prop :=
  (∃ own, own_message own ∧ outgoing c' = outgoing c ++ concat replies ++ own) ∨
  (∃ before c0 bytes e, before `prefix_of` replies ∧ outgoing c0 = outgoing c ++ concat before ∧
     send bytes c0 = (Err e, c')).

Lemma was_sent_more c reply replies c1 c' :
  outgoing c1 = outgoing c ++ reply → was_sent c1 replies c' → was_sent c (reply :: replies) c'.
Proof.
  intros Ho [(own & Hown & H)|(before & c0 & bytes & e & Hb & H & Hs)]; [left|right].
  - exists own. split; [done|]. simpl. by rewrite H, Ho, <-!app_assoc.
  - exists (reply :: before), c0, bytes, e. split_and!; [by apply prefix_cons|simpl; by rewrite H, Ho, <-app_assoc|done].
Qed.
Lemma was_sent_own c bytes c' r : own_message bytes → send bytes c = (r, c') → was_sent c [] c'.
Proof.
  intros Hown Hs. destruct r as [[]|e].
  - left. exists bytes. split; [done|]. exact (send_writes _ _ _ Hs).
  - right. exists [], c, bytes, e. split_and!; [done|by rewrite app_nil_r|done].
Qed.
Lemma was_sent_none c c' : outgoing c' = outgoing c → was_sent c [] c'.
Proof. intros Ho. left. exists []. split; [by left|]. by rewrite Ho, !app_nil_r. Qed.

(** Reading writes nothing. *)
Definition silent {A} (c : St Buffered A) : Prop :=
  ∀ f a f', c f = Val (a, f') → outgoing f'.(sock) = outgoing f.(sock).
Lemma silent_bind {A B} (c : St Buffered A) (k : A → St Buffered B) :
  silent c → (∀ a, silent (k a)) → silent (c ≫= k).
Proof.
  intros Hc Hk f b f'. unfold mbind, St_bind. destruct (c f) as [[a g]| |] eqn:He; [|done..].
  intros H. rewrite (Hk _ _ _ _ H). by eapply Hc.
Qed.
Lemma silent_ret {A} (a : A) : silent (mret a).
Proof. by intros f b f' [= _ <-]. Qed.
Lemma silent_gets {A} (g : Buffered → A) : silent (gets g).
Proof. by intros f b f' [= _ <-]. Qed.
Lemma silent_fill extra : silent (fill extra).
Proof.
  intros f a f'. unfold fill, read_into. destruct (recv _ (sock f)) as [[bs|e] p] eqn:Hr; intros [= _ <-];
    by eapply recv_keeps.
Qed.
Lemma silent_drain total : silent (drain_front total).
Proof. intros f a f'. unfold drain_front. by destruct (total <=? _); intros [= _ <-]. Qed.
Ltac silence := repeat first
  [ apply silent_bind; [|intros ?] | apply silent_ret | apply silent_gets | apply silent_fill
  | apply silent_drain | done | case_match ].
Lemma silent_head n : silent (read_head n).
Proof. induction n as [|n IH]; cbn [read_head]; [done|]. silence. Qed.
Lemma silent_body n total : silent (read_body n total).
Proof. induction n as [|n IH]; cbn [read_body]; [done|]. silence. Qed.
Lemma silent_message fuel k : silent (read_message fuel k).
Proof.
  unfold read_message, read_framed.
  silence; first [apply silent_head | apply silent_body].
Qed.

Lemma handle_client_sends fuel leases client :
  sound client → (to_read client < fuel)%nat → Forall (leased fuel) leases →
  wp (handle_client fuel leases) (λ ups client', ∃ replies,
    relayed leases ups replies ∧ was_sent client.(sock) replies client'.(sock)) client.
Proof.
  intros Hok Hf Hall. revert client Hok Hf.
  induction Hall as [|lease leases Hl Hall IH]; intros client Hok Hf.
  { cbn [handle_client]. wp_steps. exists []. split; [constructor|by apply was_sent_none]. }
  cbn [handle_client]. unfold next_request. wp_step. wp_step.
  destruct (wp_val _ _ _ (read_message_spec fuel Request client Hok Hf)) as (v & c1 & Hr & Hok1 & _ & Hv & _).
  pose proof (silent_message _ _ _ _ _ Hr) as Ho1. unfold wp at 1. rewrite Hr.
  assert (Hown : ∀ bytes c2 r, own_message bytes → send bytes c1.(sock) = (r, c2.(sock)) →
    was_sent client.(sock) [] c2.(sock)).
  { intros bytes c2 r Hb Hs. destruct (was_sent_own _ _ _ _ Hb Hs) as [(own & ? & Hc)|(before & c0 & bs & e & Hp & Hc & He)];
      [left|right]; [exists own|exists before, c0, bs, e]; by rewrite Hc, Ho1. }
  destruct v as [[request|]|e].
  2: { wp_steps. exists []. split; [constructor|by apply was_sent_none]. }
  2: { case_bool_decide; [|wp_steps; exists []; split; [constructor|by apply was_sent_none]].
       wp_step. unfold wp at 1, write_all_bytes, put. destruct (send _ (sock c1)) as [r p] eqn:Hs.
       wp_steps. exists []. split; [constructor|]. eapply (Hown _ (mkBuffered p c1.(buf) c1.(healthy))); [|exact Hs].
       right. right. by eexists. }
  wp_step. destruct (Hv request eq_refl) as (_ & _ & Hi1). destruct lease as [up|].
  2: { wp_step. unfold wp at 1, write_all_bytes, put. destruct (send _ (sock c1)) as [r p] eqn:Hs.
       wp_steps. exists []. split; [constructor|]. eapply (Hown _ (mkBuffered p c1.(buf) c1.(healthy))); [|exact Hs].
       right. left. by eexists. }
  destruct Hl as [Hclean Hfu]. wp_step.
  destruct (wp_val _ _ _ (exchange_spec fuel request up Hclean Hfu)) as ([reply go] & up' & He & _ & Hx & _ & _).
  eapply wp_lift; [exact He|]. cbn beta iota. wp_step. unfold wp at 1, write_all_bytes, put.
  destruct (send reply (sock c1)) as [r p] eqn:Hs. cbn [fst snd] in Hx. destruct go.
  - destruct Hx as [Hm Hin]. destruct r as [[]|e].
    + wp_step. destruct (send_reads _ _ _ _ Hs) as [Hi2 _].
      eapply wp_mono; [apply IH; [done|simpl; rewrite Hi2; lia]|]. intros ups c3 (replies & Hrel & Hsent). wp_steps.
      exists (reply :: replies). split; [by constructor|]. eapply was_sent_more, Hsent. simpl.
      by rewrite (send_writes _ _ _ Hs), Ho1.
    + wp_steps. exists [reply]. split; [by constructor; [..|constructor]|]. right. exists [], c1.(sock), reply, e.
      split_and!; [apply prefix_nil|by rewrite app_nil_r|done].
  - destruct Hx as [-> Hu]. assert (Hlast : was_sent (sock client) [] p).
    { eapply (Hown _ (mkBuffered p c1.(buf) c1.(healthy))); [|exact Hs]. right. left. by eexists. }
    destruct r; wp_steps; exists []; (split; [by constructor|done]).
Qed.
End alone.

(** ** The proxy *)

Section server.
Context {T : Tcp} {TL : TcpLaws T} {F : Features} {R : Runtime} {RL : RuntimeLaws R}.
Context (dial : nat → Poll (result stream io_error)) (set_nodelay : stream → result unit io_error).
#[local] Instance server_origin : ManageConnection Buffered io_error := Origin dial set_nodelay.

(** The proxy at some point of its life. *)
Definition proxying (cfg : PoolConfig) (v : Server Buffered io_error ProxyVisit) : Prop :=
  server_reachable cfg arrived v.

(** C29: no client sees another's bytes.  However many clients there are and however their tasks are
    scheduled: every upstream in the pool is clean, and so is every one that is leased out, when
    it is; and a conversation that is over is the one [handle_client] has by itself with that
    client and the upstreams its [get]s brought, in which the client was sent exactly the
    responses that came over those upstreams while they were its own, one for each, in order,
    and at most one message of the proxy's own behind them, unless a write to it failed. *)
Theorem clients_never_mixed cfg v :
  config_ok cfg → proxying cfg v →
  (∀ c, c ∈ v.(sv_pool).(world).(idle) → clean c.(raw)) ∧
  (∀ i s0 l c0 s, v.(sessions) !! i = Some (mkVisit s0 l (Inside c0 s)) → clean c0) ∧
  (∀ i s0 l s, v.(sessions) !! i = Some (mkVisit s0 l (Gone s)) →
    Forall (λ o, match o with Some (c0, c') => clean c0 ∧ (c'.(healthy) = true → clean c') | None => True end) l ∧
    (∀ fuel, (N.to_nat (len (incoming s0.(proxy_client).(sock))) < fuel)%nat → Forall (loan_fuel fuel) l →
       handle_client fuel (lent_by l) s0.(proxy_client) = Val (given_back l, s.(proxy_client))) ∧
    ∃ replies, relayed (lent_by l) (given_back l) replies ∧
      was_sent s0.(proxy_client).(sock) replies s.(proxy_client).(sock)).
Proof.
  intros Hcfg Hv. split_and!.
  - intros c Hc. exact (idle_good arrived clean (GL := proxy_laws dial set_nodelay) cfg Hcfg v c Hv Hc).
  - intros i s0 l c0 s Hi.
    by destruct (session_inside arrived clean (GL := proxy_laws dial set_nodelay) cfg Hcfg v i s0 l c0 s Hv Hi)
      as (_ & _ & ? & _).
  - intros i s0 l s Hi.
    destruct (session_alone arrived clean (GL := proxy_laws dial set_nodelay) cfg Hcfg v i s0 l s Hv Hi) as (Ho & Hl & Hw).
    assert (Hfit : proxy_fit s0 None).
    { destruct s0 as [st c]. destruct Ho as [Hst [p Hp]]. simpl in *. subst. by split. }
    assert (Hloans : Forall (λ o, match o with Some (c0, c') => clean c0 ∧ (c'.(healthy) = true → clean c') | None => True end) l).
    { eapply Forall_impl; [exact Hl|]. intros [[c0 c']|]; [|done]. intros [Hc0 Hc']. split; [done|]. intros Hh.
      apply (Hc' 0%nat). simpl. by rewrite Hh. }
    assert (Halone : ∀ fuel, (N.to_nat (len (incoming s0.(proxy_client).(sock))) < fuel)%nat → Forall (loan_fuel fuel) l →
      handle_client fuel (lent_by l) s0.(proxy_client) = Val (given_back l, s.(proxy_client))).
    { intros fuel Hf Hlf. destruct (lent_by_cons l) as (lease & tl & Hls).
      pose proof (proxy_alone fuel _ _ _ Hw s eq_refl Hlf Hfit) as Hrun. destruct s0 as [st c].
      destruct Ho as [Hst _]. simpl in Hst, Hf. subst st. specialize (Hrun Hf). rewrite Hls in Hrun |- *. exact Hrun. }
    split_and!; [done|done|].
    set (fuel := S (N.to_nat (len (incoming s0.(proxy_client).(sock))) +
      sum_list_with (λ o : option (Buffered * Buffered), match o with Some (c0, _) => N.to_nat (len (incoming c0.(sock))) | None => O end) l)).
    assert (Hlf : Forall (loan_fuel fuel) l).
    { apply Forall_forall. intros [[c0 c']|] Ho'; [|done]. unfold loan_fuel. subst fuel.
      pose proof (sum_list_with_in _ (λ o : option (Buffered * Buffered), match o with Some (c0, _) => N.to_nat (len (incoming c0.(sock))) | None => O end) _ Ho'). simpl in *. lia. }
    refine (wp_run _ _ _ _ _ (handle_client_sends fuel (lent_by l) s0.(proxy_client) _ _ _) (Halone fuel _ Hlf)).
    + apply Hfit.
    + subst fuel. lia.
    + unfold lent_by. apply Forall_app. split; [|by repeat constructor]. apply Forall_fmap.
      rewrite Forall_forall in Hloans, Hlf |- *. intros [[c0 c']|] Ho'; [|done]. specialize (Hloans _ Ho').
      specialize (Hlf _ Ho'). split; [apply Hloans|exact Hlf].
    + subst fuel. lia.
Qed.

(** C28: the proxy stays in bounds and keeps going, while the pool's waiting ids last
    ([server_room]: fewer than 2^64 - 1 handed out so far).  At most [max_size] clients hold
    an upstream, each one of its own.  Polling a conversation never panics and moves no other:
    the others stay where they are, with the upstreams they hold.  It ends the conversation or
    brings it nearer its end ([proxy_closer], which is well founded), wherever it was: reading
    from its client, waiting in [get], or at its round trip; the one exception is a conversation
    waiting in [get] that is still waiting there afterwards.  And while the pool is open and a
    conversation is not over, one of them has something to do. *)
Theorem proxy_live cfg v :
  config_ok cfg → proxying cfg v → server_room v →
  well_founded proxy_closer ∧
  size (serving v) = size v.(sv_pool).(leases) ∧ N.of_nat (size (serving v)) ≤ cfg.(max_size) ∧
  (∀ k, ∃ v', session cfg k v = Val (tt, v') ∧ after_poll proxy_closer k v v') ∧
  (v.(sv_pool).(world).(closed) = false →
   ∀ k x, v.(sessions) !! k = Some x → is_gone x = false → ∃ j, session_can_go v j = true).
Proof.
  intros Hcfg ??. split; [apply fewer_then_wf|].
  by apply (server_lively arrived clean (GL := proxy_laws dial set_nodelay) cfg Hcfg v).
Qed.
End server.

(** ** Two clients, one upstream *)

#[local] Existing Instances demo_features plain_runtime script_tcp.
(** An origin with two responses to give, one read each. *)
Definition two_responses (t : nat) : Poll (result stream io_error) :=
  Ready (Ok (mkScript (demo_response ++ demo_response) [Ok 26; Ok 26] [] [])).
#[local] Instance demo_origin : ManageConnection Buffered io_error := Origin two_responses (λ _, Ok tt).

Definition lone_upstream : PoolConfig :=
  mkConfig 1 0 (from_secs 30) (Some (from_secs 600)) (Some (from_secs 1800)) false true.
Lemma lone_upstream_ok : config_ok lone_upstream.
Proof. by split. Qed.

Definition caller : ProxyVisit := mkProxyVisit Arrived (framed_new (mkScript demo_request [] [] [])).
Definition proxy_nobody : Server Buffered io_error ProxyVisit := mkServer (sys_init false 0) ∅.
(** The first has the upstream when the second asks for it; then each is served to its end. *)
Definition proxy_schedule : list (server_event ProxyVisit) :=
  [Arrive 0%nat caller; Poll_session 0%nat; Poll_session 0%nat; Poll_session 0%nat;
   Arrive 1%nat caller; Poll_session 1%nat; Poll_session 1%nat].
Definition proxy_busy : Server Buffered io_error ProxyVisit :=
  default proxy_nobody (server_run lone_upstream proxy_schedule proxy_nobody).
Definition proxy_over : Server Buffered io_error ProxyVisit :=
  default proxy_nobody (server_run lone_upstream (replicate 4 (Poll_session 0%nat) ++ replicate 8 (Poll_session 1%nat)) proxy_busy).

Lemma proxy_busy_serving : proxying two_responses (λ _, Ok tt) lone_upstream proxy_busy.
Proof.
  apply (server_run_reachable lone_upstream arrived proxy_schedule proxy_nobody);
    [apply server_start| |vm_compute; reflexivity].
  repeat constructor; by eexists.
Qed.
Lemma proxy_over_serving : proxying two_responses (λ _, Ok tt) lone_upstream proxy_over.
Proof.
  apply (server_run_reachable lone_upstream arrived
    (replicate 4 (Poll_session 0%nat) ++ replicate 8 (Poll_session 1%nat)) proxy_busy);
    [apply proxy_busy_serving|by repeat constructor|vm_compute; reflexivity].
Qed.

(** Both have been answered over the one upstream. *)
Lemma clients_never_mixed_witness :
  ∃ c0 c' s, proxy_over.(sessions) !! 1%nat = Some (mkVisit caller [Some (c0, c')] (Gone s)) ∧
    clean c0 ∧ c'.(healthy) = true ∧ clean c'.
Proof.
  pose proof (demo_runtime_laws None : RuntimeLaws plain_runtime).
  destruct (clients_never_mixed two_responses (λ _, Ok tt) lone_upstream proxy_over lone_upstream_ok proxy_over_serving)
    as (_ & _ & Hgone).
  eexists _, _, _. split; [vm_compute; reflexivity|].
  destruct (Hgone 1%nat caller _ _ ltac:(vm_compute; reflexivity)) as (Hl & _).
  apply Forall_cons in Hl as [[Hc0 Hc'] _]. split_and!; [exact Hc0|vm_compute; reflexivity|].
  apply Hc'. vm_compute. reflexivity.
Defined.

Lemma proxy_live_witness :
  session_can_go proxy_busy 1 = false ∧ N.of_nat (size (serving proxy_busy)) ≤ lone_upstream.(max_size) ∧
  (∀ k, ∃ v', session lone_upstream k proxy_busy = Val (tt, v') ∧ after_poll proxy_closer k proxy_busy v') ∧
  ∃ j, session_can_go proxy_busy j = true.
Proof.
  pose proof (demo_runtime_laws None : RuntimeLaws plain_runtime).
  destruct (proxy_live two_responses (λ _, Ok tt) lone_upstream proxy_busy lone_upstream_ok proxy_busy_serving)
    as (_ & _ & Hmax & Hpoll & Hgo); [vm_compute; reflexivity|].
  split_and!; [vm_compute; reflexivity|exact Hmax|exact Hpoll|].
  eapply (Hgo ltac:(vm_compute; reflexivity) 1%nat); vm_compute; reflexivity.
Defined.
