(* ===== verification/FrontServer.v ===== *)
(** The pooled TCP front at work: clients of [src/examples/tcp_pool.rs] served at once by one
    thread, each request over an upstream leased for it alone.  What a client gets is what
    [TcpPool.serve] gives it by itself, and no upstream whose round trip failed is used again. *)

From stdpp Require Import gmap.
From S2P Require Import Prelude Manage Builder Metrics Store Waiters Inner Local Futures Balance System Scenario Clients Text Echo Typing TcpPool Sessions.

(** Where [serve] is suspended: not begun; reading a request; in [local.get().await], the request
    of [n] bytes in the buffer; sending it on; reading the reply; passing it on.  [FLeft] is
    after its return. *)
Inductive front_stage :=
| FArrived | FReading | FLeasing (n : N) | FForwarding (n : N) | FCollecting (n : N) | FReplying (reply : list N) | FLeft.
Record FrontVisit {T : Tcp} := mkFrontVisit { front_at : front_stage; front : Front }.
Arguments mkFrontVisit {T} _ _.

Section front.
Context {T : Tcp}.

Definition front_outside (s : FrontVisit) : outcome (want FrontVisit) :=
  match s.(front_at) with
  | FReading =>
      '(read, f) ← read_client s.(front);
      Val (match read with
           | Err _ => Leave (mkFrontVisit FLeft f)
           | Ok n => if n =? 0 then Leave (mkFrontVisit FLeft f) else Ask_for (mkFrontVisit (FLeasing n) f)
           end)
  | FReplying reply =>
      '(written, f) ← write_client reply s.(front);
      Val (match written with
           | Err _ => Leave (mkFrontVisit FLeft f)
           | Ok _ => Go_on (mkFrontVisit FReading f)
           end)
  | _ => Val (Go_on (mkFrontVisit FReading (mkFront s.(front).(client) (with_capacity (16 * 1024)))))
  end.

Definition front_inside (s : FrontVisit) (up : Upstream) : outcome (stay FrontVisit * Upstream) :=
  let f := s.(front) in
  match s.(front_at) with
  | FLeasing n => Val (Keep (mkFrontVisit (FForwarding n) f), up)
  | FForwarding n =>
      let '(written, p) := send f.(request).(contents) up.(up_stream) in
      Val (match written with
           | Err _ => (Finish (mkFrontVisit FLeft f), mkUpstream p false)
           | Ok _ => (Keep (mkFrontVisit (FCollecting n) f), mkUpstream p up.(healthy))
           end)
  | FCollecting n =>
      '(got, p) ← read_exact n up.(up_stream);
      Val (match got with
           | Err _ => (Finish (mkFrontVisit FLeft f), mkUpstream p false)
           | Ok reply => (Give_back (mkFrontVisit (FReplying reply) f), mkUpstream p up.(healthy))
           end)
  | _ => Val (Finish s, up)
  end.

#[export] Instance front_guest : Guest Upstream FrontVisit := {|
  outside := front_outside;
  turned_away s := (s, true);
  inside := front_inside
|}.

(** A connection just accepted. *)
Definition front_arrived (s : FrontVisit) : Prop := s.(front_at) = FArrived.

Context {TL : TcpLaws T}.

(** The pool lends upstreams that work. *)
Definition working (up : Upstream) : Prop := up.(healthy) = true.
Definition front_fit (s : FrontVisit) (up : option Upstream) : Prop :=
  match s.(front_at), up with
  | FArrived, None | FReading, None | FReplying _, None => True
  | FLeasing n, Some up | FForwarding n, Some up | FCollecting n, Some up =>
      working up ∧ n = len s.(front).(request).(contents)
  | _, _ => False
  end.

(** What the client has yet to be read, and the steps of a round left. *)
Definition front_left (x : FrontVisit * option Upstream) : nat :=
  6 * N.to_nat (len (incoming x.1.(front).(client))) +
  match x.1.(front_at), x.2 with
  | FLeasing _, None => 5
  | FLeasing _, Some _ => 4
  | FForwarding _, _ => 3
  | FCollecting _, _ => 2
  | FArrived, _ | FReplying _, _ => 1
  | FReading, _ | FLeft, _ => 0
  end.

(** One read of the client: at its end, or a request, which is in the buffer. *)
Lemma read_client_spec f :
  ∃ r f', read_client f = Val (r, f') ∧ ∀ n, r = Ok n → n ≠ 0 →
    n = len f'.(request).(contents) ∧
    (N.to_nat (len (incoming f'.(client))) < N.to_nat (len (incoming f.(client))))%nat.
Proof.
  unfold read_client. destruct (read_into (vec_clear (request f)) (client f)) as [[r b] c] eqn:Hr.
  eexists _, _. split; [done|]. intros n -> Hn. destruct (read_into_spec _ _ _ _ _ Hr) as (_ & _ & _ & Hm).
  destruct Hm as (bs & -> & Hb & Hi & _). simpl in *. rewrite Hb. split; [done|].
  rewrite Hi, len_app. lia.
Qed.
Lemma write_client_spec bs f :
  ∃ r f', write_client bs f = Val (r, f') ∧ incoming f'.(client) = incoming f.(client).
Proof.
  unfold write_client. destruct (send bs (client f)) as [r c] eqn:Hs. eexists _, _. split; [done|].
  by destruct (send_reads _ _ _ _ Hs).
Qed.

Context (dial : nat → Poll (result stream io_error)).
#[export] Instance working_kept : TypedManager (Backend dial) working.
Proof.
  split; [|done..]. intros t up. simpl. destruct (dial t) as [|[p|e]]; [done| |done]. by intros [= <-].
Qed.
Lemma flagged_returnable up : returnable (M := Backend dial) working up.
Proof. intros t Hb. simpl in *. unfold working. by destruct (healthy up). Qed.

#[export] Instance front_laws : GuestLaws (Backend dial) front_guest front_arrived working.
Proof.
  apply (Build_GuestLaws _ _ _ _ _ _ _ front_fit _ (fewer_left_wf front_left) _).
  - intros [st f] Hs. unfold front_arrived in Hs. simpl in Hs. by subst st.
  - intros [st f] Hf. unfold fewer_left, front_left. unfold outside, front_guest, front_outside. cbn [front_at front].
    destruct st as [| |n|n|n|reply|]; try done.
    + eexists. split; [done|]. split; [done|]. simpl. lia.
    + destruct (read_client_spec f) as (r & f' & -> & Hr). eexists. split; [done|]. simpl.
      destruct r as [n|e]; [|done]. destruct (N.eqb_spec n 0) as [_|Hn]; [done|].
      destruct (Hr n eq_refl Hn) as [Hlen Hless]. split; [|simpl; lia]. split; [|done].
      intros up Hup. split; [by split|]. simpl. lia.
    + destruct (write_client_spec reply f) as (r & f' & -> & Hi). eexists. split; [done|]. simpl.
      destruct r as [[]|e]; [|done]. split; [done|]. simpl. rewrite Hi. lia.
  - intros [st f] up Hf. unfold fewer_left, front_left. unfold inside, front_guest, front_inside. cbn [front_at front].
    destruct st as [| |n|n|n|reply|]; try done; destruct Hf as [Hup Hn]; cbn [front_at front] in *.
    + eexists _, _. split; [done|]. simpl. split; [by split|lia].
    + destruct (send _ _) as [[[]|e] p]; eexists _, _; (split; [done|]); simpl; [|apply flagged_returnable].
      split; [by split|lia].
    + destruct (wp_val _ _ _ (read_exact_spec n (up_stream up))) as ([reply|e] & p & -> & _);
        eexists _, _; (split; [done|]); simpl; [|apply flagged_returnable].
      split; [apply flagged_returnable|]. split; [done|lia].
Defined.
End front.

(** ** The same as [serve] *)

Section alone.
Context {T : Tcp} {TL : TcpLaws T}.
Implicit Types (s : FrontVisit) (up : Upstream) (ls : list (option Upstream)).

(** [serve] in its parts: from the end of a round trip, from the answer of [get], and from
    where a session is suspended. *)
Definition conclude (a : option (list N) * Upstream) ls : St Front (list Upstream) :=
  match a.1 with
  | None => mret [a.2]
  | Some reply =>
      written ← write_client reply;
      match written with
      | Err _ => mret [a.2]
      | Ok _ => ups ← serve ls; mret (a.2 :: ups)
      end
  end.
Definition leased (lease : option Upstream) ls : St Front (list Upstream) :=
  match lease with
  | None => mret []
  | Some up => req ← gets request; a ← lift (round_trip up req.(contents)); conclude a ls
  end.
Definition collected (n : N) up : outcome (option (list N) * Upstream) :=
  match read_exact n up.(up_stream) with
  | Val (Ok reply, s) => Val (Some reply, mkUpstream s up.(healthy))
  | Val (Err _, s) => Val (None, mkUpstream s false)
  | Panic => Panic
  | NoFuel => NoFuel
  end.

Definition front_out_rest s ls : St Front (list Upstream) :=
  match s.(front_at) with
  | FReading => serve ls
  | FReplying reply =>
      written ← write_client reply;
      match written with Err _ => mret [] | Ok _ => serve ls end
  | _ => λ f, serve ls (mkFront f.(client) (with_capacity (16 * 1024)))
  end.
Definition front_in_rest s up ls : St Front (list Upstream) :=
  match s.(front_at) with
  | FCollecting n => a ← lift (collected n up); conclude a ls
  | _ => leased (Some up) ls
  end.

Lemma serve_leased lease ls f :
  serve (lease :: ls) f =
    match read_client f with
    | Val (Ok n, f') => if n =? 0 then Val ([], f') else leased lease ls f'
    | Val (Err _, f') => Val ([], f')
    | Panic => Panic
    | NoFuel => NoFuel
    end.
Proof.
  cbn [serve]. unfold mbind, St_bind. destruct (read_client f) as [[[n|e] f']| |]; [|done..].
  by destruct (n =? 0); [|destruct lease].
Qed.

Lemma round_trip_sent up bs p :
  send bs up.(up_stream) = (Ok tt, p) → round_trip up bs = collected (len bs) (mkUpstream p up.(healthy)).
Proof. intros Hs. unfold round_trip, collected. by rewrite Hs. Qed.

Lemma front_alone p l r : way working p l r → ∀ s', r = Ended s' →
  match p with
  | Without s => front_fit s None → front_out_rest s (lent_by l) s.(front) = Val (given_back l, s'.(front))
  | Wants s => ∀ n, s.(front_at) = FLeasing n → n = len s.(front).(request).(contents) →
      ∃ lease tl, lent_by l = lease :: tl ∧ leased lease tl s.(front) = Val (given_back l, s'.(front))
  | Within c0 s up => front_fit s (Some up) →
      ∃ up' l', l = Some (c0, up') :: l' ∧
        front_in_rest s up (lent_by l') s.(front) = Val (up' :: given_back l', s'.(front))
  | Ended s => l = [] ∧ s = s'
  end.
Proof.
  revert p l r. refine (way_ind_front working _ _ _); [by intros r s' ->|].
  intros p e q l r Hm Hway IH s' ->. specialize (IH s' eq_refl).
  destruct Hm as [s x Hx|s x Hx|s x Hx|s c Hc|s x Hx|s x Hx|c0 s c x c' Hx|c0 s c x c' Hx|c0 s c x c' Hx];
    unfold option_list; cbn [option_rect app].
  all: try destruct s as [st f]; try (unfold outside, inside, front_guest, front_outside, front_inside in Hx);
    cbn [front_at front] in *.
  - destruct st as [| |n|n|n|reply|]; intros Hf; try done; unfold front_out_rest; cbn [front_at front].
    + injection Hx as <-. by apply IH.
    + exfalso. destruct (read_client f) as [[[n|e] f']| |]; simpl in Hx; [|done..]. by destruct (n =? 0).
    + unfold mbind, St_bind. destruct (write_client reply f) as [[[[]|e] f']| |]; simpl in Hx; [|done..].
      injection Hx as <-. by apply IH.
  - destruct st as [| |n|n|n|reply|]; intros Hf; try done; unfold front_out_rest; cbn [front_at front].
    + destruct (read_client_spec f) as (r & f' & Hr & Hn). rewrite Hr in Hx. simpl in Hx.
      destruct r as [n|e]; [|done]. destruct (N.eqb_spec n 0) as [|Hne]; [done|]. injection Hx as <-.
      destruct (IH n eq_refl) as (lease & tl & Hls & Hrun); [by apply Hn|]. rewrite Hls, serve_leased, Hr.
      by destruct (N.eqb_spec n 0).
    + exfalso. destruct (write_client reply f) as [[[[]|e] f']| |]; simpl in Hx; done.
  - destruct IH as [-> ->]. destruct st as [| |n|n|n|reply|]; intros Hf; try done; unfold front_out_rest; cbn [front_at front].
    + change (lent_by []) with [@None Upstream]. rewrite serve_leased.
      destruct (read_client f) as [[[n|e] f']| |]; simpl in Hx; [| |done..]; [|by injection Hx as <-].
      destruct (n =? 0); [by injection Hx as <-|done].
    + unfold mbind, St_bind. destruct (write_client reply f) as [[[[]|e] f']| |]; simpl in Hx; [done| |done..].
      by injection Hx as <-.
  - intros n -> Hn. destruct IH as (up' & l' & -> & Hrun); [by split|]. by exists (Some c), (lent_by l').
  - done.
  - injection Hx as <-. destruct IH as [-> <-]. intros n _ _. by exists None, [None].
  - destruct st as [| |n|n|n|reply|]; intros Hf; try done; destruct Hf as [Hup Hn]; cbn [front_at front] in *.
    + injection Hx as <- <-. apply IH. by split.
    + destruct (send (contents (request f)) (up_stream c)) as [[[]|e] p] eqn:Hs; [|done]. injection Hx as <- <-.
      destruct IH as (up' & l' & -> & Hrun); [by split|]. exists up', l'. split; [done|].
      unfold front_in_rest, leased in *. cbn [front_at front] in *. rewrite Hn in Hrun.
      unfold mbind at 1, St_bind at 1. unfold gets. by rewrite (round_trip_sent _ _ _ Hs).
    + exfalso. destruct (read_exact n (up_stream c)) as [[[reply|e] p]| |]; simpl in Hx; done.
  - destruct st as [| |n|n|n|reply|]; intros Hf; try done; cbn [front_at front] in *.
    + exfalso. by destruct (send _ _) as [[[]|e] p].
    + destruct (read_exact n (up_stream c)) as [[[reply|e] p]| |] eqn:Hr; simpl in Hx; [|done..].
      injection Hx as <- <-. exists (mkUpstream p c.(healthy)), l. split; [done|].
      specialize (IH I). unfold front_out_rest in IH. unfold front_in_rest, collected. cbn [front_at front] in *.
      rewrite Hr. unfold lift. erewrite bind_val by reflexivity. unfold conclude. cbn [fst snd].
      destruct (write_client_spec reply f) as (w & f' & Hw & _).
      rewrite (bind_val _ _ _ _ _ Hw). rewrite (bind_val _ _ _ _ _ Hw) in IH. destruct w as [[]|e].
      * by rewrite (bind_val _ _ _ _ _ IH).
      * unfold mret, St_ret in IH |- *. by injection IH as <- <-.
  - destruct IH as [-> ->]. destruct st as [| |n|n|n|reply|]; intros Hf; try done; cbn [front_at front] in *.
    + destruct (send (contents (request f)) (up_stream c)) as [[[]|e] p] eqn:Hs; [done|]. injection Hx as <- <-.
      exists (mkUpstream p false), []. split; [done|]. unfold front_in_rest, leased. cbn [front_at front].
      unfold mbind, St_bind, gets, lift, round_trip. by rewrite Hs.
    + destruct (read_exact n (up_stream c)) as [[[reply|e] p]| |] eqn:Hr; simpl in Hx; [done| |done..].
      injection Hx as <- <-. exists (mkUpstream p false), []. split; [done|].
      unfold front_in_rest, collected. cbn [front_at front]. by rewrite Hr.
Qed.
End alone.

(** ** The theorems *)

Section server.
Context {T : Tcp} {TL : TcpLaws T} {F : Features} {R : Runtime} {RL : RuntimeLaws R}.
Context (dial : nat → Poll (result stream io_error)).
#[local] Instance server_backend : ManageConnection Upstream io_error := Backend dial.

(** The front at some point of its life. *)
Definition fronting (cfg : PoolConfig) (v : Server Upstream io_error FrontVisit) : Prop :=
  server_reachable cfg front_arrived v.

(** Each client is served as if it were alone.  However many clients there are and however their
    tasks are scheduled: the pool only ever holds and lends upstreams whose round trips all went
    well; and a session that is over did exactly what [serve] does by itself with that client and
    the upstreams its [get]s brought: it forwarded what the client sent, request by request, each
    over an upstream of its own, and passed each reply on, in order, unless a write failed. *)
Theorem front_as_if_alone cfg v :
  config_ok cfg → fronting cfg v →
  (∀ c, c ∈ v.(sv_pool).(world).(idle) → working c.(raw)) ∧
  ∀ i s0 l s, v.(sessions) !! i = Some (mkVisit s0 l (Gone s)) →
    let c := s0.(front).(client) in
    let c' := s.(front).(client) in
    Forall (λ o, match o with Some (up, _) => working up | None => True end) l ∧
    serve (lent_by l) (mkFront c (with_capacity (16 * 1024))) = Val (given_back l, s.(front)) ∧
    ∃ exchanged more, trips (lent_by l) exchanged (given_back l) ∧ incoming c = concat exchanged.*1 ++ more ∧
      (outgoing c' = outgoing c ++ concat exchanged.*2 ∨
       ∃ before req reply p e, exchanged = before ++ [(req, reply)] ∧
         outgoing p = outgoing c ++ concat before.*2 ∧ send reply p = (Err e, c')).
Proof.
  intros Hcfg Hv. split.
  - intros c Hc. exact (idle_good front_arrived working (GL := front_laws dial) cfg Hcfg v c Hv Hc).
  - intros i s0 l s Hi c c'.
    destruct (session_alone front_arrived working (GL := front_laws dial) cfg Hcfg v i s0 l s Hv Hi) as (Ho & Hl & Hw).
    pose proof (front_alone _ _ _ Hw s eq_refl) as Hrun. destruct s0 as [st f]. unfold front_arrived in Ho.
    simpl in Ho. subst st. specialize (Hrun I). unfold front_out_rest in Hrun. cbn [front_at front] in Hrun.
    destruct (front_exact (lent_by l) c (with_capacity (16 * 1024))) as (ups & p & b & ex & more & Hs & Ht).
    subst c c'. cbn [front] in *. split_and!; [|exact Hrun|].
    + eapply Forall_impl; [exact Hl|]. intros [[up up']|]; [by intros []|done].
    + rewrite Hrun in Hs. injection Hs as <- Hf. rewrite Hf. by exists ex, more.
Qed.

(** The front stays in bounds and keeps going. *)
Theorem front_live cfg v :
  config_ok cfg → fronting cfg v → server_room v →
  size (serving v) = size v.(sv_pool).(leases) ∧ N.of_nat (size (serving v)) ≤ cfg.(max_size) ∧
  (∀ k, ∃ v', session cfg k v = Val (tt, v') ∧ after_poll (fewer_left front_left) k v v') ∧
  (v.(sv_pool).(world).(closed) = false →
   ∀ k x, v.(sessions) !! k = Some x → is_gone x = false → ∃ j, session_can_go v j = true).
Proof. intros Hcfg. exact (server_lively front_arrived working (GL := front_laws dial) cfg Hcfg v). Qed.
End server.

(** ** Two clients, one upstream *)

#[local] Existing Instances demo_features plain_runtime script_tcp.
(** A backend that echoes what the two send, one after the other, and then no more. *)
Definition two_echoes (t : nat) : Poll (result stream io_error) :=
  Ready (Ok (mkScript [1; 2; 3] [Ok 2; Ok 1] [] [])).
#[local] Instance demo_backend : ManageConnection Upstream io_error := Backend two_echoes.

Definition one_backend : PoolConfig :=
  mkConfig 1 0 (from_secs 30) (Some (from_secs 600)) (Some (from_secs 1800)) false true.
Lemma one_backend_ok : config_ok one_backend.
Proof. by split. Qed.

Definition sender (bs : list N) : FrontVisit :=
  mkFrontVisit FArrived (mkFront (mkScript bs [] [] []) (with_capacity 0)).
Definition front_nobody : Server Upstream io_error FrontVisit := mkServer (sys_init false 0) ∅.
(** The second asks for the upstream while the first has it; then both are served to the end. *)
Definition front_schedule : list (server_event FrontVisit) :=
  [Arrive 0%nat (sender [1; 2]); Poll_session 0%nat; Poll_session 0%nat;
   Arrive 1%nat (sender [3]); Poll_session 1%nat; Poll_session 1%nat].
Definition front_busy : Server Upstream io_error FrontVisit :=
  default front_nobody (server_run one_backend front_schedule front_nobody).
Definition front_over : Server Upstream io_error FrontVisit :=
  default front_nobody (server_run one_backend
    (replicate 6 (Poll_session 0%nat) ++ replicate 6 (Poll_session 1%nat)) front_busy).

Lemma front_busy_fronting : fronting two_echoes one_backend front_busy.
Proof.
  apply (server_run_reachable one_backend front_arrived front_schedule front_nobody);
    [apply server_start|by repeat constructor|vm_compute; reflexivity].
Qed.
Lemma front_over_fronting : fronting two_echoes one_backend front_over.
Proof.
  apply (server_run_reachable one_backend front_arrived
    (replicate 6 (Poll_session 0%nat) ++ replicate 6 (Poll_session 1%nat)) front_busy);
    [apply front_busy_fronting|by repeat constructor|vm_compute; reflexivity].
Qed.

Lemma front_as_if_alone_witness :
  ∃ l s, front_over.(sessions) !! 1%nat = Some (mkVisit (sender [3]) l (Gone s)) ∧ length l = 1%nat ∧
    outgoing s.(front).(client) = [3] ∧
    serve (lent_by l) (mkFront (sender [3]).(front).(client) (with_capacity (16 * 1024))) = Val (given_back l, s.(front)).
Proof.
  pose proof (demo_runtime_laws None : RuntimeLaws plain_runtime).
  destruct (front_as_if_alone two_echoes one_backend front_over one_backend_ok front_over_fronting) as (_ & Hgone).
  eexists _, _. split; [vm_compute; reflexivity|]. split; [reflexivity|]. split; [vm_compute; reflexivity|].
  destruct (Hgone 1%nat (sender [3]) _ _ ltac:(vm_compute; reflexivity)) as (_ & Hrun & _). exact Hrun.
Defined.

Lemma front_live_witness :
  session_can_go front_busy 1 = false ∧ N.of_nat (size (serving front_busy)) ≤ one_backend.(max_size) ∧
  ∃ j, session_can_go front_busy j = true.
Proof.
  pose proof (demo_runtime_laws None : RuntimeLaws plain_runtime).
  destruct (front_live two_echoes one_backend front_busy one_backend_ok front_busy_fronting) as (_ & Hmax & _ & Hgo);
    [vm_compute; reflexivity|].
  split_and!; [vm_compute; reflexivity|exact Hmax|].
  eapply (Hgo ltac:(vm_compute; reflexivity) 1%nat); vm_compute; reflexivity.
Defined.
