(* ===== verification/Origin.v ===== *)
(** The proxy's built-in origin ([origin_loop], [origin_conn] of [src/examples/http_proxy.rs]), and
    the framing of the messages the example writes itself: the origin's responses and the
    proxy's own error replies. *)

From S2P Require Import Prelude Manage Scenario Text Buffered HttpProxy.

(** ** The responses of the origin *)

Definition CRLF : list N := [13; 10].
Definition origin_body (id served : N) : list N :=
  codes ("served by upstream connection #" +:+ pretty id +:+ ", request #" +:+ pretty served +:+ newline).
Definition header (name : string) (value : list N) : list N := codes name ++ codes ": " ++ value ++ CRLF.
Definition origin_response (id served : N) : list N :=
  codes "HTTP/1.1 200 OK" ++ CRLF ++
  header "content-type" (codes "text/plain") ++
  header "content-length" (codes (pretty (len (origin_body id served)))) ++
  header "x-upstream-conn" (codes (pretty id)) ++
  header "x-upstream-reqs" (codes (pretty served)) ++
  header "connection" (codes "keep-alive") ++
  CRLF ++ origin_body id served.

Section origin.
Context `{Tcp} `{Features}.

(** [origin_conn]: how many requests it served. *)
Fixpoint origin_conn (fuel : nat) (id served : N) : St Framed N :=
  match fuel with
  | O => no_fuel
  | S fuel' =>
      r ← read_message fuel Request;
      match r with
      | Ok (Some _) =>
          served ← lift (add_u U64 served 1);
          w ← write_all_bytes (origin_response id served);
          match w with
          | Err _ => mret served
          | Ok _ => origin_conn fuel' id served
          end
      | _ => mret served
      end
  end.
End origin.

(** ** Lemmas: heads made of lines *)

(** A closed fact its decision procedure computes. *)
#[local] Ltac computed := by apply (bool_decide_unpack _); vm_compute.
(** The length of a literal. *)
#[local] Ltac literal_lens :=
  repeat match goal with
  | |- context [len (codes ?s)] =>
      lazymatch s with String _ _ => let v := eval vm_compute in (len (codes s)) in change (len (codes s)) with v end
  end.

(** The lines of a head, each with its CR LF. *)
Definition joined (lines : list (list N)) : list N := concat ((λ l, l ++ CRLF) <$> lines).
Definition plain (l : list N) : Prop := l ≠ [] ∧ 13 ∉ l.

Lemma joined_cons l lines : joined (l :: lines) = l ++ CRLF ++ joined lines.
Proof. unfold joined. cbn [fmap list_fmap concat]. by rewrite <-app_assoc. Qed.

Lemma window_cons x h :
  window_position CRLF2 (x :: h) =
    if starts_with CRLF2 (x :: h) then Some 0 else N.succ <$> window_position CRLF2 h.
Proof. done. Qed.
Lemma not_cr x h : x ≠ 13 → starts_with CRLF2 (x :: h) = false.
Proof. intros Hx. cbn [starts_with CRLF2]. by destruct (N.eqb_spec 13 x). Qed.

Lemma window_skip l r :
  13 ∉ l → window_position CRLF2 (l ++ 13 :: r) = (λ p, len l + p) <$> window_position CRLF2 (13 :: r).
Proof.
  induction l as [|x l IH]; intros Hl.
  - change ([] ++ 13 :: r) with (13 :: r). by destruct (window_position CRLF2 (13 :: r)).
  - rewrite not_elem_of_cons in Hl. destruct Hl as [Hx Hl]. cbn [app].
    rewrite window_cons, not_cr, (IH Hl) by congruence. rewrite len_cons.
    destruct (window_position CRLF2 (13 :: r)); [|done]. cbn. f_equal. lia.
Qed.

(** The blank line is found right after the last line. *)
Lemma find_blank lines body :
  lines ≠ [] → Forall plain lines →
  window_position CRLF2 (joined lines ++ CRLF ++ body) = Some (len (joined lines) - 2).
Proof.
  intros Hne Hall. induction Hall as [|l lines [Hl Hcr] Hall IH]; [done|].
  rewrite joined_cons, <-!app_assoc. change (CRLF ++ ?r) with (13 :: 10 :: r). rewrite window_skip by done.
  destruct lines as [|l2 lines].
  - change (joined [] ++ CRLF ++ body) with (13 :: 10 :: body). cbn. f_equal.
    rewrite !len_app, !len_cons. change (len []) with 0. lia.
  - assert (Hne2 : l2 :: lines ≠ []) by done. specialize (IH Hne2). apply Forall_cons in Hall as [[Hl2 Hcr2] _].
    destruct l2 as [|x l2]; [done|]. rewrite not_elem_of_cons in Hcr2.
    rewrite joined_cons in *. rewrite <-!app_assoc in *. cbn [app] in *.
    assert (Hs : ∀ r, starts_with CRLF2 (13 :: 10 :: x :: r) = false).
    { intros r. cbn [starts_with CRLF2]. destruct (N.eqb_spec 13 x); [naive_solver|done]. }
    rewrite window_cons, Hs, window_cons, not_cr, IH by done. cbn [fmap option_fmap option_map]. f_equal.
    rewrite ?len_app, ?len_cons, ?len_app, ?len_cons. change (len CRLF) with 2. lia.
Qed.

Lemma split_crlf_line l r : 13 ∉ l → split_crlf (l ++ 13 :: 10 :: r) = l :: split_crlf r.
Proof.
  induction l as [|x l IH]; intros Hl; [done|]. rewrite not_elem_of_cons in Hl. destruct Hl as [Hx Hl].
  cbn [app]. specialize (IH Hl). destruct (l ++ 13 :: 10 :: r) as [|y t] eqn:Ht; [by destruct l|].
  cbn [split_crlf]. destruct (N.eqb_spec x 13) as [|_]; [congruence|]. cbn [andb]. cbn [split_crlf] in IH. by rewrite IH.
Qed.

Lemma split_joined lines r : Forall (λ l, 13 ∉ l) lines → split_crlf (joined lines ++ r) = lines ++ split_crlf r.
Proof.
  induction 1 as [|l lines Hl Hall IH]; [done|]. rewrite joined_cons, <-!app_assoc.
  change (CRLF ++ ?t) with (13 :: 10 :: t). rewrite split_crlf_line by done. cbn [app]. by rewrite IH.
Qed.

Lemma lower_app a b : to_ascii_lowercase (a ++ b) = to_ascii_lowercase a ++ to_ascii_lowercase b.
Proof. apply fmap_app. Qed.
Lemma lower_joined lines : to_ascii_lowercase (joined lines) = joined (to_ascii_lowercase <$> lines).
Proof.
  induction lines as [|l lines IH]; [done|]. cbn [fmap list_fmap]. rewrite !joined_cons, !lower_app, IH. done.
Qed.
Lemma lower_no_cr l : 13 ∉ l → 13 ∉ to_ascii_lowercase l.
Proof.
  unfold to_ascii_lowercase. intros Hl (c & Hc & Hin)%list_elem_of_fmap. unfold between in Hc.
  destruct (N.leb_spec 65 c), (N.leb_spec c 90); simpl in Hc; try lia; by subst.
Qed.
Lemma lossy_ascii l : Forall (λ c, c < 128) l → from_utf8_lossy l = l.
Proof.
  intros Hl. rewrite <-(as_bytes_ascii l Hl) at 1. apply lossy_as_bytes.
  eapply Forall_impl; [exact Hl|]. intros c Hc. left. cbn beta in Hc. lia.
Qed.

(** A message made of lines is framed when its headers announce its body. *)
Lemma framed_lines k lines body :
  lines ≠ [] → Forall plain lines → Forall (Forall (λ c, c < 128)) lines →
  scan_headers (tail (to_ascii_lowercase <$> lines) ++ [[]; []]) None = Ok (Some (len body)) →
  len body ≤ MAX_BODY → len (joined lines) + 2 ≤ MAX_HEAD →
  framed_message k (joined lines ++ CRLF ++ body) ∧ head_fits (joined lines ++ CRLF ++ body).
Proof.
  intros Hne Hpl Hasc Hscan Hbody Hhead.
  assert (H2 : 2 ≤ len (joined lines)).
  { destruct lines as [|l lines]; [done|]. rewrite joined_cons, !len_app. change (len CRLF) with 2. lia. }
  assert (Hfind : find (joined lines ++ CRLF ++ body) CRLF2 = Some (len (joined lines) - 2)).
  { apply find_window. by apply find_blank. }
  assert (Htake : firstn (N.to_nat (len (joined lines) - 2 + 4)) (joined lines ++ CRLF ++ body) = joined lines ++ CRLF).
  { rewrite app_assoc. apply take_app_length'. unfold len in *. rewrite length_app. simpl. lia. }
  assert (Hnocr : Forall (λ l, 13 ∉ l) (to_ascii_lowercase <$> lines)).
  { apply Forall_fmap. eapply Forall_impl; [exact Hpl|]. intros l [_ Hl]. by apply lower_no_cr. }
  split.
  - exists (len (joined lines) - 2), (len body). split_and!; [done| |done|].
    + rewrite Htake. unfold body_length.
      assert (Hlossy : Forall (λ c, c < 128) (joined lines ++ CRLF)).
      { apply Forall_app. split; [|by repeat constructor]. clear -Hasc. induction Hasc as [|l lines Hl Hall IH]; [constructor|].
        rewrite joined_cons, !Forall_app. split_and!; [done|by repeat constructor|done]. }
      rewrite lossy_ascii, lower_app, lower_joined, split_joined by done.
      change (split_crlf (to_ascii_lowercase CRLF)) with [@nil N; []].
      destruct lines as [|l lines]; [done|]. cbn [fmap list_fmap tail app] in *. by rewrite Hscan.
    + rewrite !len_app. change (len CRLF) with 2. lia.
  - exists (len (joined lines) - 2). split; [done|lia].
Qed.

(** ** Lemmas: a header line and what the scan makes of it *)

Definition header_line (name : string) (value : list N) : list N := codes name ++ codes ": " ++ value.

Lemma split_once_at sep a b : sep ∉ a → split_once sep (a ++ sep :: b) = Some (a, b).
Proof.
  induction a as [|x a IH]; intros Ha; cbn [app split_once].
  - by rewrite N.eqb_refl.
  - rewrite not_elem_of_cons in Ha. destruct Ha as [Hx Ha]. destruct (N.eqb_spec x sep) as [|_]; [congruence|].
    by rewrite IH.
Qed.

Lemma digit_ascii l : Forall is_digit l → Forall (λ c, c < 128) l.
Proof. intros H. eapply Forall_impl; [exact H|]. unfold is_digit. intros c Hc. lia. Qed.
Lemma digits_lower l : Forall is_digit l → to_ascii_lowercase l = l.
Proof.
  unfold to_ascii_lowercase. induction 1 as [|c l Hc Hall IH]; [done|]. cbn [fmap list_fmap]. rewrite IH.
  unfold is_digit in Hc. rewrite between_false by lia. done.
Qed.
Lemma digit_not_space c : is_digit c → is_whitespace c = false.
Proof.
  unfold is_digit, is_whitespace. intros Hc. rewrite !between_false by lia. cbn [orb].
  apply bool_decide_eq_false. rewrite !elem_of_cons, elem_of_nil. lia.
Qed.

Lemma trim_digits l : l ≠ [] → Forall is_digit l → trim_text (32 :: l) = l.
Proof.
  intros Hne Hl. destruct l as [|c l] using rev_ind; [done|]. clear IHl. unfold trim_text.
  change (drop_while is_whitespace (32 :: ?x)) with (drop_while is_whitespace x).
  assert (Hc := proj2 (proj1 (Forall_app _ _ _) Hl)). apply Forall_cons in Hc as [Hc _].
  assert (drop_while is_whitespace (l ++ [c]) = l ++ [c]) as ->.
  { destruct l as [|x l]; cbn [app drop_while]; [by rewrite digit_not_space|].
    apply Forall_cons in Hl as [Hx _]. by rewrite digit_not_space. }
  rewrite <-(app_nil_r (l ++ [c])) at 1. apply trim_end_suffix; [constructor|by apply digit_not_space].
Qed.

(** The length header is taken; a header of any other name is passed over. *)
Lemma scan_length n lines :
  n < U64 →
  scan_headers (to_ascii_lowercase (header_line "content-length" (codes (pretty n))) :: lines) None =
  scan_headers lines (Some n).
Proof.
  intros Hn. unfold header_line. rewrite !lower_app, (digits_lower (codes (pretty n))) by apply pretty_all_digits.
  change (to_ascii_lowercase (codes "content-length")) with (codes "content-length").
  change (to_ascii_lowercase (codes ": ")) with [58; 32]. cbn [app scan_headers].
  rewrite split_once_at by (computed).
  change (trim_text (codes "content-length")) with (codes "content-length").
  rewrite bool_decide_false, bool_decide_true by done.
  by rewrite trim_digits, parse_number_pretty by first [done | apply pretty_not_nil | apply pretty_all_digits].
Qed.

Definition other_name (name : string) : Prop :=
  58 ∉ to_ascii_lowercase (codes name) ∧
  trim_text (to_ascii_lowercase (codes name)) ∉ [codes "transfer-encoding"; codes "content-length"].
#[local] Instance other_name_dec name : Decision (other_name name).
Proof. unfold other_name. apply _. Defined.

Lemma scan_other name value lines r :
  other_name name →
  scan_headers (to_ascii_lowercase (header_line name value) :: lines) r = scan_headers lines r.
Proof.
  intros [Hsep Hname]. unfold header_line. rewrite !lower_app. change (to_ascii_lowercase (codes ": ")) with [58; 32].
  cbn [app scan_headers]. rewrite split_once_at by done.
  rewrite !not_elem_of_cons in Hname. destruct Hname as (H1 & H2 & _). by rewrite !bool_decide_false.
Qed.

(** What a line of the example's own making is: printable, so no line end in it. *)
Definition printable (l : list N) : Prop := Forall (λ c, 32 ≤ c < 127) l.
#[local] Instance printable_dec l : Decision (printable l).
Proof. unfold printable. apply _. Defined.

Lemma printable_digits l : Forall is_digit l → printable l.
Proof. intros H. eapply Forall_impl; [exact H|]. unfold is_digit. intros c Hc. cbn beta. lia. Qed.
Lemma printable_plain l : l ≠ [] → printable l → plain l ∧ Forall (λ c, c < 128) l.
Proof.
  intros Hne Hl. split; [split; [done|]|].
  - intros Hin. apply (proj1 (Forall_forall _ _) Hl) in Hin. lia.
  - eapply Forall_impl; [exact Hl|]. intros c Hc. cbn beta in *. lia.
Qed.
Lemma printable_header name value :
  printable (codes name) → printable value → printable (header_line name value) ∧ header_line name value ≠ [].
Proof.
  intros Hn Hv. unfold header_line. split.
  - unfold printable in *. rewrite !Forall_app. split_and!; [done|computed|done].
  - by destruct (codes name).
Qed.

#[local] Ltac printable_lines :=
  cbn beta;
  lazymatch goal with
  | |- printable (header_line _ _) ∧ _ => apply printable_header; printable_lines
  | |- printable (codes (pretty _)) => apply printable_digits, pretty_all_digits
  | |- printable (codes _) => computed
  | |- printable (codes _) ∧ codes _ ≠ [] => split; [computed|done]
  | |- Forall _ [] => constructor
  end.

(** How long a printed number is. *)
Lemma pretty_len k n : n < 10 ^ N.of_nat k → (0 < k)%nat → len (codes (pretty n)) ≤ N.of_nat k.
Proof.
  assert (Hgo : ∀ k n s, n < 10 ^ N.of_nat k → len (codes (pretty_N_go n s)) ≤ N.of_nat k + len (codes s)).
  { clear k n. induction k as [|k IH]; intros n s Hn.
    - assert (n = 0) as -> by (change (10 ^ N.of_nat 0) with 1 in Hn; lia). reflexivity.
    - destruct (N.eq_dec n 0) as [->|Hne]; [change (pretty_N_go 0 s) with s; lia|].
      rewrite pretty_N_go_step by lia. etrans; [apply IH|rewrite codes_cons, len_cons; lia].
      apply N.Div0.div_lt_upper_bound. by rewrite Nat2N.inj_succ, N.pow_succ_r' in Hn. }
  intros Hn Hk. unfold pretty, pretty_N. case_decide; [change (len (codes "0")) with 1; lia|].
  etrans; [by apply (Hgo k)|]. change (len (codes "")) with 0. lia.
Qed.
Lemma pretty_u64_len n : n < U64 → len (codes (pretty n)) ≤ 20.
Proof. intros Hn. apply (pretty_len 20); [|lia]. etrans; [exact Hn|]. by vm_compute. Qed.

(** A message with printable lines, whose headers announce its body, is framed. *)
Lemma framed_printable k lines body :
  lines ≠ [] → Forall (λ l, printable l ∧ l ≠ []) lines →
  scan_headers (tail (to_ascii_lowercase <$> lines) ++ [[]; []]) None = Ok (Some (len body)) →
  len body ≤ MAX_BODY → len (joined lines) + 2 ≤ MAX_HEAD →
  framed_message k (joined lines ++ CRLF ++ body) ∧ head_fits (joined lines ++ CRLF ++ body).
Proof.
  intros Hne Hall. apply framed_lines; [done|..]; (eapply Forall_impl; [exact Hall|]);
    intros l [Hl Hl0]; by destruct (printable_plain l Hl0 Hl).
Qed.

Definition origin_lines (id served : N) : list (list N) :=
  [codes "HTTP/1.1 200 OK";
   header_line "content-type" (codes "text/plain");
   header_line "content-length" (codes (pretty (len (origin_body id served))));
   header_line "x-upstream-conn" (codes (pretty id));
   header_line "x-upstream-reqs" (codes (pretty served));
   header_line "connection" (codes "keep-alive")].

Lemma origin_response_lines id served :
  origin_response id served = joined (origin_lines id served) ++ CRLF ++ origin_body id served.
Proof.
  unfold origin_response, origin_lines, header, header_line. rewrite !joined_cons, <-!app_assoc. done.
Qed.

Lemma origin_body_len id served : id < U64 → served < U64 → len (origin_body id served) ≤ 100.
Proof.
  intros Hi%pretty_u64_len Hs%pretty_u64_len. unfold origin_body. rewrite !codes_app, !len_app.
  change (len (codes "served by upstream connection #")) with 31. change (len (codes ", request #")) with 11.
  change (len (codes newline)) with 1. lia.
Qed.

Lemma header_len name value : len (header_line name value) = len (codes name) + 2 + len value.
Proof. unfold header_line. rewrite !len_app. change (len (codes ": ")) with 2. lia. Qed.

Lemma origin_framed id served :
  id < U64 → served < U64 →
  framed_message Response (origin_response id served) ∧ head_fits (origin_response id served).
Proof.
  intros Hi Hs. pose proof (origin_body_len id served Hi Hs) as Hb.
  assert (HU : 100 < U64) by by vm_compute. assert (HM : 100 < MAX_BODY) by by vm_compute.
  assert (HH : MAX_HEAD = 65536) by done.
  rewrite origin_response_lines. apply framed_printable; [done| | |lia|].
  - unfold origin_lines. repeat (apply Forall_cons; split); printable_lines.
  - unfold origin_lines. cbn [fmap list_fmap tail app].
    rewrite scan_other by (computed). rewrite scan_length by lia.
    rewrite !scan_other by (computed). done.
  - pose proof (pretty_u64_len id Hi). pose proof (pretty_u64_len served Hs).
    pose proof (pretty_u64_len (len (origin_body id served)) ltac:(lia)).
    unfold origin_lines. rewrite !joined_cons, !len_app, !header_len. change (len CRLF) with 2.
    literal_lens.
    change (len (joined [])) with 0. lia.
Qed.

(** The proxy's own error replies. *)
Definition reply_lines (status body : string) : list (list N) :=
  [codes ("HTTP/1.1 " +:+ status);
   header_line "content-length" (codes (pretty (len (codes body))));
   header_line "connection" (codes "close")].

Lemma codes_length s : len (codes s) = N.of_nat (String.length s).
Proof. unfold codes, len. rewrite length_fmap. f_equal. induction s; simpl; congruence. Qed.

Lemma response_bytes_lines status body :
  response_bytes status body = joined (reply_lines status body) ++ CRLF ++ codes body.
Proof.
  unfold response_bytes, reply_lines, header_line. rewrite !joined_cons, <-!app_assoc, <-codes_length, !codes_app, <-!app_assoc.
  done.
Qed.

Lemma response_framed status body :
  printable (codes status) → len (codes status) ≤ 100 → len (codes body) ≤ MAX_BODY →
  framed_message Response (response_bytes status body) ∧ head_fits (response_bytes status body).
Proof.
  intros Hst Hsl Hb. assert (HU : MAX_BODY < U64) by by vm_compute. assert (HH : MAX_HEAD = 65536) by done.
  rewrite response_bytes_lines. apply framed_printable; [done| | |lia|].
  - unfold reply_lines. repeat (apply Forall_cons; split); [..|constructor].
    + rewrite codes_app. split; [apply Forall_app; split; [computed|done]|done].
    + printable_lines.
    + printable_lines.
  - unfold reply_lines. cbn [fmap list_fmap tail app]. rewrite scan_length by lia.
    rewrite scan_other by (computed). done.
  - pose proof (pretty_u64_len (len (codes body)) ltac:(lia)).
    unfold reply_lines. rewrite !joined_cons, !codes_app, !len_app, !header_len. change (len CRLF) with 2.
    literal_lens.
    change (len (joined [])) with 0. lia.
Qed.

(** ** Lemmas: reading writes nothing *)

Section quiet.
Context {T : Tcp} {TL : TcpLaws T} {F : Features}.

Definition quiet {A} (c : St Framed A) : Prop :=
  ∀ f r f', c f = Val (r, f') → outgoing f'.(sock) = outgoing f.(sock).

Lemma quiet_ret {A} (a : A) : quiet (mret a).
Proof. by intros f r f' [= _ <-]. Qed.
Lemma quiet_gets {A} (g : Framed → A) : quiet (gets g).
Proof. by intros f r f' [= _ <-]. Qed.
Lemma quiet_bind {A B} (c : St Framed A) (k : A → St Framed B) : quiet c → (∀ a, quiet (k a)) → quiet (c ≫= k).
Proof.
  intros Hc Hk f r f'. unfold mbind, St_bind. destruct (c f) as [[a f1]| |] eqn:He; [|done..].
  intros Hr. etrans; [by eapply Hk|by eapply Hc].
Qed.
Lemma quiet_fill extra : quiet (fill extra).
Proof.
  intros f r f'. unfold fill, read_into. cbv zeta. destruct (recv _ _) as [[bs|e] s] eqn:He;
    intros [= _ <-]; exact (recv_keeps _ _ _ _ He).
Qed.
Lemma quiet_drain total : quiet (drain_front total).
Proof. intros f r f'. unfold drain_front. destruct (_ <=? _); [by intros [= _ <-]|done]. Qed.

Lemma quiet_read_head fuel : quiet (read_head fuel).
Proof.
  induction fuel as [|fuel IH]; cbn [read_head]; [by intros ???|]. apply quiet_bind; [apply quiet_gets|]. intros b.
  destruct (find _ _); [apply quiet_ret|]. destruct (_ <=? _); [apply quiet_ret|].
  apply quiet_bind; [apply quiet_fill|]. intros [[]|e]; [done|apply quiet_ret..].
Qed.
Lemma quiet_read_body fuel total : quiet (read_body fuel total).
Proof.
  induction fuel as [|fuel IH]; cbn [read_body]; [by intros ???|]. apply quiet_bind; [apply quiet_gets|]. intros b.
  destruct (_ <? _); [|apply quiet_ret]. apply quiet_bind; [apply quiet_fill|]. intros [[]|e]; [done|apply quiet_ret..].
Qed.
Lemma quiet_read_message fuel k : quiet (read_message fuel k).
Proof.
  apply quiet_bind; [apply quiet_read_head|]. intros [[e|]|e]; [|apply quiet_ret..].
  apply quiet_bind; [apply quiet_gets|]. intros b. destruct (body_length _ _); [|apply quiet_ret].
  destruct (_ <? _); [apply quiet_ret|]. apply quiet_bind; [apply quiet_read_body|].
  intros [[]|e']; [|apply quiet_ret..]. apply quiet_bind; [apply quiet_drain|]. intros msg. apply quiet_ret.
Qed.

(** ** The theorems *)

(** The replies to requests [served + 1], [served + 2], ... *)
Definition origin_replies (id served n : N) : list (list N) :=
  (λ i, origin_response id (served + N.of_nat i)) <$> seq 1 (N.to_nat n).

Lemma origin_replies_succ id served n :
  origin_replies id served (1 + n) = origin_response id (served + 1) :: origin_replies id (served + 1) n.
Proof.
  unfold origin_replies. replace (N.to_nat (1 + n)) with (S (N.to_nat n)) by lia. cbn [seq fmap list_fmap].
  f_equal. rewrite <-fmap_S_seq, <-list_fmap_compose. apply list_fmap_ext. intros i x _. unfold compose. f_equal. lia.
Qed.

Lemma framed_not_nil k msg : framed_message k msg → msg ≠ [].
Proof. intros (pos & n & _ & _ & _ & Hl) ->. change (len []) with 0 in Hl. lia. Qed.

(** All replies are out, or one could not be written. *)
Definition origin_done (id served all : N) f (total : N) f' : Prop :=
  total = served + all ∧ outgoing f'.(sock) = outgoing f.(sock) ++ concat (origin_replies id served all) ∨
  ∃ bs s e s1, send bs s = (Err e, s1).

(** One turn: the reply to a request that has been read, then the rest. *)
Lemma origin_turn (next : N → St Framed N) id served all f0 f :
  served + 1 < U64 → outgoing f.(sock) = outgoing f0.(sock) →
  (∀ f2, f2.(buf) = f.(buf) → incoming f2.(sock) = incoming f.(sock) → (steady f.(sock) → steady f2.(sock)) →
     wp (next (served + 1)) (origin_done id (served + 1) all f2) f2) →
  wp (served ← lift (add_u U64 served 1); w ← write_all_bytes (origin_response id served);
      match w with Err _ => mret served | Ok _ => next served end)
     (origin_done id served (all + 1) f0) f.
Proof.
  intros Hlim Hq Hnext. wp_step. eapply wp_lift; [by apply add_u_small|]. cbn beta. wp_step.
  unfold wp at 1, write_all_bytes, put. destruct (send _ (sock f)) as [[[]|e] s] eqn:Hs.
  - destruct (send_reads _ _ _ _ Hs) as [Hi Hst]. pose proof (send_writes _ _ _ Hs) as Hw.
    eapply wp_mono; [by apply (Hnext (mkBuffered s (buf f) (healthy f)))|].
    intros total f' [[-> Hout]|Hbad]; [left|by right]. split; [lia|].
    rewrite Hout. cbn [sock]. rewrite Hw, Hq, <-app_assoc, (N.add_comm all), origin_replies_succ. done.
  - right. eauto.
Qed.

Lemma origin_conn_spec fuel id served reqs f :
  sound f → (N.to_nat (len (incoming f.(sock))) + length reqs < fuel)%nat →
  steady f.(sock) → unread f = concat reqs → Forall (λ m, framed_message Request m ∧ head_fits m) reqs →
  served + len reqs < U64 →
  wp (origin_conn fuel id served) (origin_done id served (len reqs) f) f.
Proof.
  revert served reqs f. induction fuel as [|fuel IH]; intros served reqs f Hok Hf Hst Hu Hall Hlim; [lia|].
  cbn [origin_conn]. wp_step. destruct (wp_val _ _ _ (read_message_spec (S fuel) Request f Hok ltac:(lia))) as (r & f1 & He & Hm).
  pose proof (quiet_read_message _ _ _ _ _ He) as Hq. unfold wp. rewrite He.
  destruct Hm as (Hok1 & _ & Hgot & Hready).
  destruct Hall as [|m reqs [Hm Hfit] Hall].
  - assert (r = Ok None ∨ ∃ e, r = Err e) as Hnone.
    { destruct r as [[m|]|e]; [|by left|by right; eexists]. destruct (Hgot m eq_refl) as (Hum & Hfm & _).
      rewrite Hu in Hum. destruct (proj1 (app_nil _ _) (eq_sym Hum)) as [-> _]. by destruct (framed_not_nil _ _ Hfm). }
    assert (served + 0 = served) as H0 by lia.
    destruct Hnone as [->|[e ->]]; left; change (len []) with 0; by rewrite Hq, app_nil_r, H0.
  - cbn [concat] in Hu. destruct (Hready Hst m (concat reqs) Hu Hm Hfit) as (-> & Hu1 & Hst1).
    destruct (Hgot m eq_refl) as (_ & _ & Hless). rewrite len_cons in Hlim. cbn [length] in Hf.
    rewrite len_cons. apply (origin_turn (origin_conn fuel id)); [lia|done|].
    intros f2 Hb2 Hi2 Hs2. eapply wp_mono; [apply (IH (served + 1) reqs); try done|].
    + unfold sound. by rewrite Hb2.
    + rewrite Hi2. lia.
    + auto.
    + unfold unread. by rewrite Hb2, Hi2.
    + lia.
    + done.
Qed.
End quiet.

(** The origin's side of a connection.  From a client that sends some well-formed requests and
    closes, [origin_conn] ends having served them all, one response to each, in order, numbered
    from the count it starts with; or a response could not be written. *)
Theorem origin_answers {T : Tcp} {TL : TcpLaws T} {F : Features} fuel id served reqs (f : Framed) :
  sound f → (N.to_nat (len (incoming f.(sock))) + length reqs < fuel)%nat →
  steady f.(sock) → unread f = concat reqs → Forall (λ m, framed_message Request m ∧ head_fits m) reqs →
  served + len reqs < U64 →
  ∃ total f', origin_conn fuel id served f = Val (total, f') ∧
    (total = served + len reqs ∧
       outgoing f'.(sock) = outgoing f.(sock) ++ concat (origin_replies id served (len reqs)) ∨
     ∃ bs s e s1, send bs s = (Err e, s1)).
Proof. intros H1 H2 H3 H4 H5 H6. exact (wp_val _ _ _ (origin_conn_spec fuel id served reqs f H1 H2 H3 H4 H5 H6)). Qed.

(** What the example writes can be read back.  Every response of the origin, and every error
    reply of the proxy, is one framed message whose head is within the bound: a reader of
    responses takes exactly it off the stream. *)
Theorem replies_framed id served why :
  id < U64 → served < U64 → len (codes why) ≤ 1024 →
  Forall (λ msg, framed_message Response msg ∧ head_fits msg)
    [origin_response id served; bad_gateway why; bad_request why].
Proof.
  intros Hi Hs Hw. assert (HM : 2048 ≤ MAX_BODY) by by vm_compute.
  repeat (apply Forall_cons; split); [by apply origin_framed|..|constructor];
    (apply response_framed; [computed|by vm_compute|]);
    rewrite !codes_app, !len_app; literal_lens; change (len (codes newline)) with 1; lia.
Qed.

(** ** A concrete origin *)

#[local] Existing Instance script_tcp.
#[local] Existing Instance demo_features.

Definition demo_visitor : Framed :=
  framed_new (mkScript (concat [demo_request; demo_request]) [Ok 20; Ok 40] [] []).

Lemma origin_answers_witness :
  ∃ f', origin_conn 200 7 0 demo_visitor = Val (2, f') ∧
    f'.(sock).(written) = origin_response 7 1 ++ origin_response 7 2.
Proof.
  destruct (origin_answers (F := demo_features) 200 7 0 [demo_request; demo_request] demo_visitor)
    as (total & f' & He & Hr).
  - vm_compute. discriminate.
  - vm_compute. lia.
  - repeat econstructor.
  - done.
  - apply Forall_cons. split; [apply demo_request_framed|]. apply Forall_singleton, demo_request_framed.
  - done.
  - exists f'. revert He. vm_compute. intros [= <- <-]. split; reflexivity.
Defined.

Lemma replies_framed_witness :
  framed_message Response (bad_gateway "upstream error") ∧ head_fits (bad_gateway "upstream error").
Proof.
  assert (Hall := replies_framed 0 1 "upstream error").
  apply Forall_cons in Hall as [_ [? _]%Forall_cons]; [done..|]. vm_compute. discriminate.
Defined.
