(* ===== verification/ScatterGather.v ===== *)
(** The scatter/gather aggregator: lines over pooled connections, one query fanned out to
    every shard and the replies merged in shard order
    ([src/examples/scatter_gather.rs]). *)

From S2P Require Import Prelude Manage Text Buffered.

Definition MAX_LINE : N := 64 * 1024.

(** [Line] is the buffered connection of [Buffered]. *)
Abbreviation Line := Buffered (only parsing).

(** ** Lines *)

Section line.
Context `{Tcp}.
Implicit Types f : Line.

Definition line_new (s : stream) : Line := mkBuffered s (with_capacity 1024) true.

(** The first newline of the buffer. *)
Definition newline_position (b : list N) : option nat := fst <$> list_find (λ x, x = 10) b.

(** The text of a line, less the carriage returns at its end. *)
Definition line_text (line : list N) : list N := trim_end_matches (N.eqb 13) (from_utf8_lossy line).

(** [drain(..=pos)], and its text without the line ending. *)
Definition take_line (pos : nat) : St Line (list N) := λ f,
  let b := f.(buf).(contents) in
  if decide (pos < length b)%nat then
    Val (line_text (take pos b),
         mkBuffered f.(sock) (mkVec (drop (S pos) b) f.(buf).(capacity)) f.(healthy))
  else Panic.

(** [read_line]: [Ok None] means the peer closed. *)
Fixpoint read_line (fuel : nat) : St Line (result (option (list N)) io_error) :=
  match fuel with
  | O => no_fuel
  | S fuel =>
      b ← gets (λ f, f.(buf).(contents));
      match newline_position b with
      | Some pos => text ← take_line pos; mret (Ok (Some text))
      | None =>
          if MAX_LINE <=? len b then mret (Err (mkIoError InvalidData "line too long"))
          else
            r ← fill 1024;
            match r with
            | Err e => mret (Err e)
            | Ok false => mret (Ok None)
            | Ok true => read_line fuel
            end
      end
  end.

(** [write_line]: the text as UTF-8, and a newline. *)
Definition line_bytes (text : list N) : list N := as_bytes text ++ [10].
Definition write_line (text : list N) : St Line (result unit io_error) := put (line_bytes text).
End line.

(** ** The shards as pooled resources, and one query to one of them *)

Section shard.
Context `{Tcp}.
Context (dial : nat → Poll (result stream io_error)) (set_nodelay : stream → result unit io_error).

#[export] Instance Shard : ManageConnection Line io_error := {|
  connect t :=
    match dial t with
    | Pending => Pending
    | Ready (Err e) => Ready (Err e)
    | Ready (Ok s) => match set_nodelay s with Err e => Ready (Err e) | Ok _ => Ready (Ok (line_new s)) end
    end;
  is_valid _ conn :=
    (Ready (if conn.(healthy) then Ok tt else Err (mkIoError BrokenPipe "shard conn marked dead")), conn);
  has_broken _ conn := (negb conn.(healthy), conn)
|}.

(** What [query_shard] does over the connection it leased. *)
Definition ask_shard (fuel : nat) (query : list N) : St Line (option (list N)) :=
  w ← write_line query;
  match w with
  | Err _ => modify (set_healthy false);; mret None
  | Ok _ =>
      r ← read_line fuel;
      match r with
      | Ok (Some reply) => mret (Some reply)
      | _ => modify (set_healthy false);; mret None
      end
  end.

(** [query_shard]: [lease] is the answer of [pool.get()]; the connection comes back as it is
    when the lease drops. *)
Definition query_shard (fuel : nat) (lease : option Line) (query : list N) :
    outcome (option (list N) * option Line) :=
  match lease with
  | None => Val (None, None)
  | Some conn => '(reply, conn) ← ask_shard fuel query conn; Val (reply, Some conn)
  end.
End shard.

(** ** Merging *)

Definition error_part (id : nat) : list N := codes ("shard" +:+ pretty id +:+ "=ERR").

(** The parts in shard order: a task that failed or brought nothing reads as an error. *)
Definition gather (replies : list (option (list N))) : list (list N) :=
  imap (λ id r, default (error_part id) r) replies.

Fixpoint join_parts (sep : list N) (parts : list (list N)) : list N :=
  match parts with
  | [] => []
  | [p] => p
  | p :: parts => p ++ sep ++ join_parts sep parts
  end.

(** [elapsed] is the time taken, as formatted. *)
Definition merged (parts : list (list N)) (elapsed : list N) : list N :=
  join_parts (codes " ") parts ++ codes (" | " +:+ pretty (length parts) +:+ " shards in ") ++
  elapsed ++ codes "ms".

(** [handle_client]: each query line is scattered ([scatter query] are the shards' replies, in
    shard order, and the time taken) until [rounds] lines have been read or the client is
    gone; blank lines ask nothing. *)
Fixpoint handle_client `{Tcp} (fuel rounds : nat)
    (scatter : nat → list N → list (option (list N)) * list N) : St Line unit :=
  match rounds with
  | O => skip
  | S rounds =>
      r ← read_line fuel;
      match r with
      | Ok (Some []) => handle_client fuel rounds scatter
      | Ok (Some query) =>
          let '(replies, elapsed) := scatter rounds query in
          w ← write_line (merged (gather replies) elapsed);
          match w with Err _ => skip | Ok _ => handle_client fuel rounds scatter end
      | _ => skip
      end
  end.

(** ** A shard *)

(** Shard [id]'s contribution: the query's byte sum in its buckets. *)
Definition shard_answer (id : N) (query : list N) : list N :=
  let hits := foldr N.add 0 (as_bytes query) mod (10 + id) in
  codes ("shard" +:+ pretty id +:+ "=" +:+ pretty hits).

(** [shard_conn], for up to [rounds] queries; the delay changes nothing it sends. *)
Fixpoint shard_conn `{Tcp} (fuel rounds : nat) (id : N) : St Line unit :=
  match rounds with
  | O => skip
  | S rounds =>
      r ← read_line fuel;
      match r with
      | Ok (Some query) =>
          w ← write_line (shard_answer id query);
          match w with Err _ => skip | Ok _ => shard_conn fuel rounds id end
      | _ => skip
      end
  end.

(** ** Lemmas *)

Lemma newline_position_Some b pos :
  newline_position b = Some pos → ∃ line rest, b = line ++ 10 :: rest ∧ length line = pos ∧ 10 ∉ line.
Proof.
  unfold newline_position. destruct (list_find _ b) as [[i x]|] eqn:Hf; [|done]. intros [= <-].
  apply list_find_Some in Hf as (Hi & -> & Hbefore). exists (take i b), (drop (S i) b). split_and!.
  - symmetry. by apply take_drop_middle.
  - rewrite length_take. apply lookup_lt_Some in Hi. lia.
  - intros (j & Hj)%list_elem_of_lookup. apply lookup_take_Some in Hj as [Hj Hlt].
    by apply (Hbefore j 10).
Qed.

Lemma newline_position_None b : newline_position b = None → 10 ∉ b.
Proof.
  unfold newline_position. destruct (list_find _ b) as [[]|] eqn:Hf; [done|]. intros _ Hin.
  apply list_find_None in Hf. rewrite Forall_forall in Hf. by apply (Hf 10).
Qed.

(** The first newline ends the first line. *)
Lemma first_line line line' rest rest' :
  10 ∉ line → 10 ∉ line' → line ++ 10 :: rest = line' ++ 10 :: rest' → line = line' ∧ rest = rest'.
Proof.
  revert line'. induction line as [|c line IH]; intros [|c' line'] H1 H2 He; simplify_eq/=.
  - done.
  - by destruct H2; left.
  - by destruct H1; left.
  - destruct (IH line'); [set_solver..|done|]. by subst.
Qed.

Section reading.
Context {T : Tcp} {TL : TcpLaws T}.
Implicit Types f : Line.

(** What reading a line leaves: on success a line and its newline have come off the stream
    and nothing else; on a steady stream a line that is there, within the bound, is read. *)
Definition line_read f (r : result (option (list N)) io_error) f' : Prop :=
  sound f' ∧ f'.(healthy) = f.(healthy) ∧
  (∀ text, r = Ok (Some text) → len (incoming f'.(sock)) ≤ len (incoming f.(sock)) ∧
     ∃ line, 10 ∉ line ∧ unread f = line ++ 10 :: unread f' ∧ text = line_text line) ∧
  (steady f.(sock) → ∀ line rest, 10 ∉ line → unread f = line ++ 10 :: rest → len line < MAX_LINE →
     r = Ok (Some (line_text line)) ∧ unread f' = rest ∧ steady f'.(sock)).

Lemma line_read_before f f1 r f' :
  reads_on f f1 → f1.(healthy) = f.(healthy) → line_read f1 r f' → line_read f r f'.
Proof.
  intros Hon Hh (H1 & H2 & H3 & H4). split_and!; [done|congruence| |].
  - intros text Ht. destruct (H3 text Ht) as (Hl & line & ? & Hu & ?). split.
    + pose proof (ro_less _ _ Hon). lia.
    + exists line. by rewrite <-(ro_unread _ _ Hon).
  - intros Hs line rest Hn Hu Hl. apply (H4 (ro_steady _ _ Hon Hs) line rest Hn); [|done].
    by rewrite (ro_unread _ _ Hon).
Qed.

(** Giving up is right when no line was there. *)
Lemma line_read_none f r f' :
  sound f' → f'.(healthy) = f.(healthy) → (∀ text, r ≠ Ok (Some text)) →
  (steady f.(sock) → ∀ line rest, 10 ∉ line → unread f = line ++ 10 :: rest → len line < MAX_LINE → False) →
  line_read f r f'.
Proof. intros H1 H2 H3 H4. split_and!; [done|done|naive_solver|]. intros. exfalso. eauto. Qed.

Lemma take_line_spec pos f :
  sound f → newline_position f.(buf).(contents) = Some pos →
  wp (take_line pos) (λ text f', line_read f (Ok (Some text)) f') f.
Proof.
  intros Hok Hp. destruct (newline_position_Some _ _ Hp) as (line & rest & Hb & Hl & Hn).
  unfold wp, take_line. rewrite Hb, length_app, <-Hl. simpl. rewrite decide_True by lia.
  rewrite take_app_length. replace (S (length line)) with (length (line ++ [10])) by (rewrite length_app; simpl; lia).
  rewrite (cons_middle 10 line rest), app_assoc, drop_app_length.
  assert (Hu : unread f = line ++ 10 :: rest ++ incoming (sock f)).
  { unfold unread. rewrite Hb, <-app_assoc. done. }
  split_and!; [|done| |].
  - unfold sound, vec_ok in *. simpl. rewrite Hb, len_app, len_cons in Hok. lia.
  - intros ? [= <-]. split; [done|]. exists line. by split_and!.
  - intros Hs line' rest' Hn' Hu' _. rewrite Hu in Hu'.
    destruct (first_line _ _ _ _ Hn Hn' Hu') as [<- <-]. done.
Qed.

Lemma read_line_spec fuel f :
  sound f → (N.to_nat (len (incoming f.(sock))) < fuel)%nat → wp (read_line fuel) (line_read f) f.
Proof.
  revert f. induction fuel as [|fuel IH]; intros f Hok Hf; [lia|]. cbn [read_line]. wp_steps.
  destruct (newline_position _) as [pos|] eqn:Hp.
  { wp_step. wp_apply take_line_spec as text f' Hr; [done..|]. by wp_steps. }
  apply newline_position_None in Hp.
  destruct (N.leb_spec MAX_LINE (len (contents (buf f)))) as [Hmax|Hmax].
  { wp_steps. apply line_read_none; try done. intros _ line rest Hn Hu Hl.
    unfold unread in Hu. apply Hp.
    assert (contents (buf f) = firstn (length (contents (buf f))) (line ++ 10 :: rest)) as ->
      by by rewrite <-Hu, take_app_length.
    unfold len in *. rewrite take_app_ge by lia. apply elem_of_app. right.
    destruct (_ - _)%nat eqn:Hd; [lia|]. simpl. by left. }
  wp_step. wp_apply fill_spec as r f1 [(Hok1 & Hh1 & Hr) Hst]; [done..|]. destruct r as [[]|e].
  - destruct Hr as [Hon Hlt]. eapply wp_mono; [apply IH; [done|lia]|].
    intros r f'. by apply line_read_before.
  - destruct Hr as (Hon & Hnil & Hc). wp_steps. apply line_read_none; try done.
    intros _ line rest Hn Hu _. unfold unread in Hu. rewrite Hnil, app_nil_r in Hu.
    apply Hp. rewrite Hu. set_solver.
  - wp_steps. apply line_read_none; try done. intros Hs. by destruct (Hst Hs).
Qed.
End reading.

Lemma line_text_bytes text :
  Forall is_char text → last text ≠ Some 13 → line_text (as_bytes text) = text.
Proof.
  intros Hc Hl. unfold line_text. rewrite lossy_as_bytes by done. unfold trim_end_matches.
  destruct text as [|x text _] using rev_ind; [done|]. rewrite rev_app_distr.
  change (rev [x] ++ rev text) with (x :: rev text). cbn [drop_while].
  rewrite last_snoc in Hl. destruct (N.eqb_spec 13 x) as [<-|]; [by destruct Hl|].
  simpl. by rewrite rev_involutive.
Qed.

(** ** The theorems *)

(** A line's text: what [write_line] can send and [read_line] gives back. *)
Definition sendable (text : list N) : Prop :=
  Forall is_char text ∧ 10 ∉ text ∧ last text ≠ Some 13 ∧ len (as_bytes text) < MAX_LINE.

Lemma read_sent {T : Tcp} {TL : TcpLaws T} (f f' : Line) r text rest :
  line_read f r f' → steady f.(sock) → sendable text → unread f = line_bytes text ++ rest →
  r = Ok (Some text) ∧ unread f' = rest.
Proof.
  intros (_ & _ & _ & Hr) Hs (Hc & Hn & Hl & Hlen) Hu. unfold line_bytes in Hu.
  rewrite <-app_assoc in Hu.
  destruct (Hr Hs (as_bytes text) rest) as (-> & Hu' & _); try done.
  - by apply newline_as_bytes.
  - by rewrite line_text_bytes.
Qed.

(** C39: lines.  Text sent by [write_line] (no newline in it, no carriage return at its end,
    within the bound) is what [read_line] returns at the other end, however the bytes
    arrive, and what follows is left for the next call. *)
Theorem line_round_trip {T : Tcp} {TL : TcpLaws T} fuel text rest (f : Line) :
  sound f → (N.to_nat (len (incoming f.(sock))) < fuel)%nat → steady f.(sock) →
  sendable text → unread f = line_bytes text ++ rest →
  ∃ f', read_line fuel f = Val (Ok (Some text), f') ∧ unread f' = rest.
Proof.
  intros Hok Hf Hs Ht Hu. pose proof (read_line_spec fuel f Hok Hf) as Hw. unfold wp in Hw.
  destruct (read_line fuel f) as [[r f']| |]; [|done..]. exists f'.
  by destruct (read_sent _ _ _ _ _ Hw Hs Ht Hu) as [-> ->].
Qed.

(** One shard.  [query_shard] ends; when it brings no reply the connection is flagged, so
    the pool will not keep it; a reply is one line off the stream, the connection as healthy
    as it was; and a shard's answer over a working connection is what it returns. *)
Theorem query_shard_exact {T : Tcp} {TL : TcpLaws T} fuel query (conn : Line) :
  sound conn → (N.to_nat (len (incoming conn.(sock))) < fuel)%nat →
  ∃ r conn', query_shard fuel (Some conn) query = Val (r, Some conn') ∧
    (r = None → conn'.(healthy) = false) ∧
    (∀ reply, r = Some reply → conn'.(healthy) = conn.(healthy) ∧
       ∃ line, unread conn = line ++ 10 :: unread conn' ∧ 10 ∉ line ∧ reply = line_text line) ∧
    (∀ reply rest, steady conn.(sock) → (send (line_bytes query) conn.(sock)).1 = Ok tt →
       sendable reply → unread conn = line_bytes reply ++ rest → r = Some reply).
Proof.
  intros Hok Hf.
  enough (wp (ask_shard fuel query) (λ r conn', (r = None → conn'.(healthy) = false) ∧
    (∀ reply, r = Some reply → conn'.(healthy) = conn.(healthy) ∧
       ∃ line, unread conn = line ++ 10 :: unread conn' ∧ 10 ∉ line ∧ reply = line_text line) ∧
    (∀ reply rest, steady conn.(sock) → (send (line_bytes query) conn.(sock)).1 = Ok tt →
       sendable reply → unread conn = line_bytes reply ++ rest → r = Some reply)) conn) as Hw.
  { unfold wp, query_shard in *. cbn. destruct (ask_shard fuel query conn) as [[r c]| |]; [|done..].
    by exists r, c. }
  unfold ask_shard, write_line. wp_step.
  wp_apply put_spec as w c1 (-> & Hb1 & Hh1 & Hi1 & Hs1).
  assert (Hu1 : unread c1 = unread conn) by (unfold unread; by rewrite Hb1, Hi1).
  destruct (send _ _).1 as [[]|e]; [|wp_steps; by split_and!].
  wp_step. eapply wp_mono; [apply read_line_spec|].
  - unfold sound. by rewrite Hb1.
  - by rewrite Hi1.
  - intros r c2 Hr.
    assert (Hgot : ∀ reply rest, steady (sock conn) → sendable reply →
      unread conn = line_bytes reply ++ rest → r = Ok (Some reply)).
    { intros reply rest Hs Ht Hu. rewrite <-Hu1 in Hu. by eapply read_sent; [| |done..]; auto. }
    destruct Hr as (_ & Hh2 & Hr & _). destruct r as [[reply|]|e]; wp_steps.
    + split_and!; [done| |].
      * intros ? [= <-]. destruct (Hr reply eq_refl) as (_ & line & ? & Hu & ?).
        split; [congruence|]. exists line. by rewrite <-Hu1.
      * intros r' rest Hs _ Ht Hu. by pose proof (Hgot r' rest Hs Ht Hu) as [= ->].
    + split_and!; [done|done|]. intros r' rest Hs _ Ht Hu. by specialize (Hgot r' rest Hs Ht Hu).
    + split_and!; [done|done|]. intros r' rest Hs _ Ht Hu. by specialize (Hgot r' rest Hs Ht Hu).
Qed.

(** ** A concrete query *)

#[local] Existing Instance script_tcp.

(** Shard 3's answer to "needle", one byte at a time. *)
Definition demo_answer : list N := shard_answer 3 (codes "needle").
Definition demo_conn : Line :=
  line_new (mkScript (line_bytes demo_answer) (replicate 20 (Ok 0)) [] []).

Lemma demo_conn_sound : sound demo_conn.
Proof. vm_compute. discriminate. Qed.
Lemma demo_conn_steady : steady demo_conn.(sock).
Proof. repeat econstructor. Qed.
Lemma demo_answer_sendable : sendable demo_answer.
Proof.
  split_and!.
  - apply (bool_decide_unpack _). vm_compute. exact I.
  - apply (bool_decide_unpack _). vm_compute. exact I.
  - vm_compute. discriminate.
  - reflexivity.
Qed.

Lemma line_round_trip_witness :
  ∃ f', read_line 100 demo_conn = Val (Ok (Some demo_answer), f') ∧ unread f' = [].
Proof.
  apply (line_round_trip 100 demo_answer []).
  - apply demo_conn_sound.
  - vm_compute. lia.
  - apply demo_conn_steady.
  - apply demo_answer_sendable.
  - vm_compute. reflexivity.
Defined.

Lemma query_shard_exact_witness :
  ∃ conn', query_shard 100 (Some demo_conn) (codes "needle") = Val (Some demo_answer, Some conn').
Proof.
  destruct (query_shard_exact 100 (codes "needle") demo_conn demo_conn_sound)
    as (r & conn' & He & _ & _ & Hr); [vm_compute; lia|].
  rewrite (Hr demo_answer []) in He; [by exists conn'|apply demo_conn_steady|done| |].
  - apply demo_answer_sendable.
  - vm_compute. reflexivity.
Defined.
