(* ===== verification/Backends.v ===== *)
(** The backends the examples start for themselves: [origin_loop] of [src/examples/http_proxy.rs],
    [backend_loop] of [fanout_requests.rs] and [shard_loop] of [scatter_gather.rs].  Each accepts
    for good and gives every connection a task of its own; a failed accept is passed over. *)

From S2P Require Import Prelude Manage Text Buffered HttpProxy ScatterGather Origin Echo.

Section backends.
Context {T : Tcp} {F : Features}.

(** The tasks spawned for what [accept] answers, the first of them as number [k]. *)
Fixpoint accept_loop {X} (task : N → stream → X) (k : N) (accepted : list (result stream io_error)) : list X :=
  match accepted with
  | [] => []
  | Err _ :: accepted => accept_loop task k accepted
  | Ok s :: accepted => task k s :: accept_loop task (k + 1) accepted
  end.

(** [ORIGIN_CONN_ID.fetch_add(1)]: with its id, what the task comes to. *)
Definition origin_loop (fuel : nat) (accepted : list (result stream io_error)) : list (N * outcome (N * Framed)) :=
  accept_loop (λ k s, let id := k mod U64 in (id, origin_conn fuel id 0 (framed_new s))) 0 accepted.
Definition backend_loop (fuel : nat) (accepted : list (result stream io_error)) : list (outcome (unit * stream)) :=
  accept_loop (λ _ s, backend_conn fuel (with_capacity (16 * 1024)) s) 0 accepted.
Definition shard_loop (fuel rounds : nat) (id : N) (accepted : list (result stream io_error)) :
    list (outcome (unit * ScatterGather.Line)) :=
  accept_loop (λ _ s, shard_conn fuel rounds id (line_new s)) 0 accepted.

(** ** Lemmas *)

Definition connections_of (accepted : list (result stream io_error)) : list stream :=
  omap (λ r, match r with Ok s => Some s | Err _ => None end) accepted.

Lemma accept_loop_each {X} (task : N → stream → X) k accepted i :
  accept_loop task k accepted !! i = task (k + N.of_nat i) <$> connections_of accepted !! i.
Proof.
  revert k i. induction accepted as [|[s|e] accepted IH]; intros k i; [done| |apply IH].
  destruct i as [|i]; simpl; [by rewrite N.add_0_r|]. rewrite IH. do 2 f_equal. lia.
Qed.

Context {TL : TcpLaws T}.

(** Every connection to the fan-out's backend is echoed, each by itself. *)
Theorem backend_echoes_each fuel accepted i s :
  connections_of accepted !! i = Some s → (N.to_nat (len (incoming s)) < fuel)%nat →
  ∃ s' echoed, backend_loop fuel accepted !! i = Some (Val (tt, s')) ∧ echo_end s s' echoed.
Proof.
  intros Hi Hf. unfold backend_loop. rewrite accept_loop_each, Hi. simpl.
  destruct (wp_val _ _ _ (backend_conn_spec fuel (with_capacity (16 * 1024)) s ltac:(done) Hf)) as ([] & s' & Hs & echoed & He).
  exists s', echoed. by rewrite Hs.
Qed.

(** The origin's connections have ids of their own, in the order they were accepted, and each
    answers its requests with its own id, numbered from one, whatever the others do. *)
Theorem origin_serves_each fuel accepted i s reqs :
  len (connections_of accepted) ≤ U64 →
  connections_of accepted !! i = Some s →
  (N.to_nat (len (incoming s)) + length reqs < fuel)%nat → steady s → incoming s = concat reqs →
  Forall (λ m, framed_message Request m ∧ head_fits m) reqs → len reqs < U64 →
  ∃ total f, origin_loop fuel accepted !! i = Some (N.of_nat i, Val (total, f)) ∧
    (total = len reqs ∧ outgoing f.(Buffered.sock) = outgoing s ++ concat (origin_replies (N.of_nat i) 0 (len reqs)) ∨
     ∃ bs p e p1, send bs p = (Err e, p1)).
Proof.
  intros Hlen Hi Hf Hst Hin Hreqs Hu. unfold origin_loop. rewrite accept_loop_each, Hi. cbn [fmap option_fmap option_map].
  assert (Hid : (0 + N.of_nat i) mod U64 = N.of_nat i).
  { apply lookup_lt_Some in Hi. unfold len in Hlen. apply N.mod_small. lia. }
  rewrite Hid.
  destruct (origin_answers fuel (N.of_nat i) 0 reqs (framed_new s)) as (total & f & Hr & Ht);
    [done|exact Hf|exact Hst|unfold unread; simpl; exact Hin|exact Hreqs|lia|].
  exists total, f. rewrite Hr. split; [done|]. destruct Ht as [[-> Ho]|Ht]; [by left|by right].
Qed.
End backends.
