(* ===== verification/Wal.v ===== *)
(** The write-ahead-log server ([src/examples/wal.rs]): each record read from a client is
    appended to the leased segment and synced before it is acknowledged.  Each dial opens a
    segment under a name of its own, numbered by a counter the whole process draws from. *)

From S2P Require Import Prelude Manage Scenario Text.

(** ** Log files

    Positional writes and [fdatasync], as far as the server relies on them: [logged f] is
    what the file reads as, [durable f] what a crash would leave of it. *)

Class LogFile := {
  log_file : Type;
  write_all_at : list N → N → log_file → result unit io_error * log_file;
  sync_data : log_file → result unit io_error * log_file
}.

Class LogFileLaws (L : LogFile) := {
  logged : log_file → list N;
  durable : log_file → list N;
  write_appends bs n f f' : write_all_at bs n f = (Ok tt, f') → n ≤ len (logged f) →
    firstn (N.to_nat (n + len bs)) (logged f') = firstn (N.to_nat n) (logged f) ++ bs;
  (** A file's size is an [off_t]: a write that would pass it fails with [EFBIG]. *)
  write_fits bs n f f' : write_all_at bs n f = (Ok tt, f') → n + len bs < 2 ^ 63;
  write_keeps bs n f r f' : write_all_at bs n f = (r, f') → n ≤ len (logged f) →
    firstn (N.to_nat n) (logged f') = firstn (N.to_nat n) (logged f) ∧
    firstn (N.to_nat n) (durable f') = firstn (N.to_nat n) (durable f);
  sync_keeps f r f' : sync_data f = (r, f') → logged f' = logged f ∧
    ∀ n, firstn n (durable f) = firstn n (logged f) → firstn n (durable f') = firstn n (logged f');
  sync_ok f f' : sync_data f = (Ok tt, f') → durable f' = logged f'
}.

(** ** Segments *)

Section wal.
Context `{Tcp} `{LogFile}.

(** A segment and the offset of its tail. *)
Record Wal := mkWal { wal_file : log_file; wal_offset : N }.

(** Segment [id] is [WAL_DIR.join(format!("seg-{id}.log"))]. *)
Definition log_path (dir : list N) (id : N) : list N :=
  path_join dir (codes "seg-" ++ codes (pretty id) ++ codes ".log").
(** What [NEXT_SEGMENT.fetch_add(1)] returns to a dial when [turn] of the process, on any
    thread, have drawn before it. *)
Definition next_segment (turn : N) : N := fetch_add64 0 turn.
(** [turn t] is the place of the dial on occasion [t] in that order; [open path t] answers its
    opening of [path] to write, created or truncated. *)
Definition WalManager (dir : list N) (turn : nat → N)
    (open : list N → nat → Poll (result log_file io_error)) : ManageConnection Wal io_error := {|
  connect t :=
    match open (log_path dir (next_segment (turn t))) t with
    | Pending => Pending
    | Ready (Err e) => Ready (Err e)
    | Ready (Ok f) => Ready (Ok (mkWal f 0))
    end;
  is_valid _ wal := (Ready (Ok tt), wal);
  has_broken _ wal := (false, wal)
|}.

(** ** Serving a connection *)

(** The client's stream, the read buffer and the leased segment. *)
Record Session := mkSession { peer : stream; input : Vec; segment : Wal }.

Context `{Features} (SYNC : bool).

(** Read a record: [None] when the peer closed or the read failed. *)
Definition read_record : St Session (option (list N)) := λ s,
  let '(r, b, p) := read_into (mkVec [] s.(input).(capacity)) s.(peer) in
  Val (match r with Ok n => if n =? 0 then None else Some b.(contents) | Err _ => None end,
       mkSession p b s.(segment)).

(** Write it at the tail: did it go through? *)
Definition append_record (bs : list N) : St Session bool := λ s,
  let '(r, f) := write_all_at bs s.(segment).(wal_offset) s.(segment).(wal_file) in
  Val (match r with Ok _ => true | Err _ => false end,
       mkSession s.(peer) s.(input) (mkWal f s.(segment).(wal_offset))).

Definition advance (n : N) : St Session unit := λ s,
  match add_u U64 s.(segment).(wal_offset) n with
  | Val o => Val (tt, mkSession s.(peer) s.(input) (mkWal s.(segment).(wal_file) o))
  | Panic => Panic
  | NoFuel => NoFuel
  end.

Definition sync_segment : St Session bool := λ s,
  let '(r, f) := sync_data s.(segment).(wal_file) in
  Val (match r with Ok _ => true | Err _ => false end,
       mkSession s.(peer) s.(input) (mkWal f s.(segment).(wal_offset))).

Definition acknowledge : St Session bool := λ s,
  let '(r, p) := send (codes "OK" ++ [10]) s.(peer) in
  Val (match r with Ok _ => true | Err _ => false end, mkSession p s.(input) s.(segment)).

(** The loop of [serve]; it returns the records it acknowledged, or tried to. *)
Fixpoint serve (fuel : nat) : St Session (list (list N)) :=
  match fuel with
  | O => no_fuel
  | S fuel =>
      r ← read_record;
      match r with
      | None => mret []
      | Some record =>
          written ← append_record record;
          if written : bool then
            advance (len record);;
            synced ← (if SYNC then sync_segment else mret true);
            if synced : bool then
              sent ← acknowledge;
              if sent : bool then acks ← serve fuel; mret (record :: acks) else mret [record]
            else mret []
          else mret []
      end
  end.
End wal.
Arguments Wal {_}.
Arguments mkWal {_} _ _.

(** *** The names of the segments *)

#[export] Instance codes_inj : Inj (=) (=) codes.
Proof.
  unfold codes. intros a b Hab.
  assert (Hl : String.list_ascii_of_string a = String.list_ascii_of_string b).
  { revert Hab. apply list_fmap_eq_inj. intros x y Hxy.
    rewrite <-(Ascii.ascii_N_embedding x), <-(Ascii.ascii_N_embedding y). by rewrite Hxy. }
  rewrite <-(String.string_of_list_ascii_of_string a), <-(String.string_of_list_ascii_of_string b).
  by rewrite Hl.
Qed.

#[export] Instance log_path_inj dir : Inj (=) (=) (log_path dir).
Proof.
  intros i j. unfold log_path, path_join.
  assert (Hs : ∀ n r, starts_with (codes "/") (codes "seg-" ++ codes (pretty (n : N)) ++ r) = false) by done.
  rewrite !Hs. intros Hij.
  assert (He : codes (pretty i) ++ codes ".log" = codes (pretty j) ++ codes ".log").
  { destruct (_ || _); by simplify_list_eq. }
  apply (inj (λ l, l ++ codes ".log")) in He. by apply (inj codes), (inj pretty) in He.
Qed.

(** Dials that draw before the counter comes round open files of different names. *)
Lemma segment_names_apart dir (m n : N) :
  m < U64 → n < U64 → log_path dir (next_segment m) = log_path dir (next_segment n) → m = n.
Proof.
  intros Hm Hn He%(inj (log_path dir)). unfold next_segment, fetch_add64 in He.
  by rewrite !N.add_0_l, !N.mod_small in He.
Qed.

(** ** What is on disk *)

Section durability.
Context {T : Tcp} {TL : TcpLaws T} {L : LogFile} {LL : LogFileLaws L} {F : Features} (SYNC : bool).
Implicit Types s : Session.

(** A segment holds [log] up to its tail, and a crash would keep the first [k] bytes. *)
Definition keeps_log (w : Wal) (log : list N) (k : nat) : Prop :=
  w.(wal_offset) = len log ∧
  firstn (length log) (logged w.(wal_file)) = log ∧
  firstn k (durable w.(wal_file)) = firstn k log ∧ (k ≤ length log)%nat.
Definition holds_log s : list N → nat → Prop := keeps_log s.(segment).

Lemma holds_log_bound s log k : holds_log s log k → len log ≤ len (logged s.(segment).(wal_file)).
Proof.
  intros (_ & Hl & _). apply (f_equal length) in Hl. rewrite length_firstn in Hl. unfold len. lia.
Qed.

Lemma firstn_le {A} (l l' : list A) (k n : nat) :
  (k ≤ n)%nat → firstn n l = firstn n l' → firstn k l = firstn k l'.
Proof.
  intros Hk He. rewrite <-(Nat.min_l k n Hk), <-!firstn_firstn. by rewrite He.
Qed.

Lemma read_record_spec s :
  wp read_record (λ r s', s'.(segment) = s.(segment) ∧
    match r with
    | Some bs => bs ≠ [] ∧ incoming s.(peer) = bs ++ incoming s'.(peer)
    | None => ∃ more, incoming s.(peer) = more
    end) s.
Proof.
  unfold wp, read_record, read_into. cbn [contents capacity]. rewrite len_nil, N.sub_0_r.
  destruct (recv _ _) as [[bs|e] p] eqn:Hr; simpl; [|by eauto].
  destruct (recv_takes _ _ _ _ Hr) as [Hi _].
  destruct (N.eqb_spec (len bs) 0) as [H0|H0]; split; eauto.
  split; [|done]. intros ->. by rewrite len_nil in H0.
Qed.

Lemma append_record_spec bs log k s :
  holds_log s log k →
  wp (append_record bs) (λ ok s', s'.(peer) = s.(peer) ∧
    if ok : bool then
      wp (advance (len bs)) (λ _ s'', s''.(peer) = s.(peer) ∧ s''.(input) = s.(input) ∧ holds_log s'' (log ++ bs) k) s'
    else holds_log s' log k) s.
Proof.
  intros HL. pose proof (holds_log_bound _ _ _ HL) as Hb. destruct HL as (Ho & Hl & Hd & Hk).
  unfold wp, append_record. destruct (write_all_at _ _ _) as [r f] eqn:Hw. simpl.
  rewrite Ho in Hw. destruct (write_keeps _ _ _ _ _ Hw Hb) as [Hkl Hkd].
  assert (Hlog : firstn (length log) (logged f) = log).
  { unfold len in Hkl. rewrite Nat2N.id in Hkl. congruence. }
  assert (Hdur : firstn k (durable f) = firstn k log).
  { rewrite <-Hd. apply (firstn_le _ _ _ (length log)); [done|]. unfold len in Hkd.
    by rewrite Nat2N.id in Hkd. }
  split; [by destruct r|]. destruct r as [[]|e]; [|by split_and!].
  pose proof (write_fits _ _ _ _ Hw) as Hroom. change (2 ^ 63) with 9223372036854775808 in Hroom.
  unfold advance, add_u. simpl. rewrite Ho, (proj2 (N.ltb_lt _ _)) by (unfold U64; lia).
  split; [done|]. split; [done|].
  pose proof (write_appends _ _ _ _ Hw Hb) as Ha. unfold len in Ha.
  rewrite <-Nat2N.inj_add, !Nat2N.id, Hl in Ha.
  split_and!; simpl; [by rewrite len_app|by rewrite length_app| |rewrite length_app; lia].
  rewrite Hdur. by rewrite take_app_le.
Qed.

Lemma sync_segment_spec log k s :
  holds_log s log k →
  wp sync_segment (λ ok s', s'.(peer) = s.(peer) ∧
    holds_log s' log (if ok : bool then length log else k)) s.
Proof.
  intros (Ho & Hl & Hd & Hk). unfold wp, sync_segment.
  destruct (sync_data _) as [r f] eqn:Hs. simpl. split; [by destruct r|].
  destruct (sync_keeps _ _ _ Hs) as [Hkl Hkd]. destruct r as [[]|e].
  - rewrite <-Hkl in Hl. split_and!; simpl; [done|done| |lia].
    rewrite (sync_ok _ _ Hs), Hl. symmetry. apply firstn_all.
  - split_and!; simpl; [done|by rewrite Hkl| |done].
    assert (Hkk : firstn k (logged (wal_file (segment s))) = firstn k log).
    { rewrite <-Hl, firstn_firstn, Nat.min_l by done. done. }
    rewrite Hkd by congruence. by rewrite Hkl.
Qed.

Lemma acknowledge_spec log k s :
  holds_log s log k →
  wp acknowledge (λ _ s', incoming s'.(peer) = incoming s.(peer) ∧ holds_log s' log k) s.
Proof.
  intros HL. unfold wp, acknowledge. destruct (send _ _) as [r p] eqn:Hs. simpl.
  by destruct (send_reads _ _ _ _ Hs).
Qed.
(** What the loop leaves: the acknowledged records and maybe one more are in the log, in the
    order they came; what was durable still is, and with [SYNC] every acknowledged record. *)
Definition served s log k (acks : list (list N)) s' : Prop :=
  ∃ tail more k', incoming s.(peer) = concat acks ++ tail ++ more ∧
    holds_log s' (log ++ concat acks ++ tail) k' ∧ (k ≤ k')%nat ∧
    (SYNC = true → acks ≠ [] → (length (log ++ concat acks) ≤ k')%nat).

Lemma served_stop s log k acks tail more k' s' :
  incoming s.(peer) = concat acks ++ tail ++ more → holds_log s' (log ++ concat acks ++ tail) k' →
  (k ≤ k')%nat → (SYNC = true → acks ≠ [] → (length (log ++ concat acks) ≤ k')%nat) →
  served s log k acks s'.
Proof. by exists tail, more, k'. Qed.

Lemma served_next s s1 log k k1 record acks s' :
  incoming s.(peer) = record ++ incoming s1.(peer) → (k ≤ k1)%nat →
  (SYNC = true → k1 = length (log ++ record)) →
  served s1 (log ++ record) k1 acks s' → served s log k (record :: acks) s'.
Proof.
  intros Hi Hk Hsync (tail & more & k' & Hi1 & HL & Hk' & Hs).
  exists tail, more, k'. cbn [concat]. rewrite <-!app_assoc in *. split_and!; [by rewrite Hi, Hi1|done|lia|].
  intros Hy _. specialize (Hsync Hy). destruct acks as [|a acks]; [|by apply Hs].
  cbn [concat]. rewrite app_nil_r. lia.
Qed.

Lemma serve_spec fuel log k s :
  holds_log s log k → (N.to_nat (len (incoming s.(peer))) < fuel)%nat →
  wp (serve SYNC fuel) (served s log k) s.
Proof.
  revert log k s. induction fuel as [|fuel IH]; intros log k s HL Hf; [lia|]. cbn [serve].
  wp_step. wp_apply read_record_spec as r s1 [Hseg Hr].
  assert (HL1 : holds_log s1 log k) by (unfold holds_log; by rewrite Hseg).
  destruct r as [record|].
  2: { wp_steps. apply (served_stop _ _ _ _ [] (incoming (peer s)) k); try done. by rewrite !app_nil_r. }
  destruct Hr as [Hne Hi]. rewrite Hi, len_app in Hf.
  assert (0 < len record) by (destruct record; [done|rewrite len_cons; lia]).
  wp_step. wp_apply (append_record_spec record log k) as ok s2 [Hp2 H2]; [done|].
  destruct ok.
  2: { wp_steps. apply (served_stop _ _ _ _ [] (incoming (peer s)) k); try done. by rewrite !app_nil_r. }
  wp_step. eapply wp_mono; [exact H2|]. intros [] s3 (Hp3 & _ & HL3). wp_step.
  assert (Hlast : ∀ s', holds_log s' (log ++ record) k → served s log k [] s').
  { intros s' HL'. by apply (served_stop _ _ _ _ record (incoming (peer s1)) k). }
  apply (wp_mono _ (λ ok s', peer s' = peer s3 ∧
    ∃ k', holds_log s' (log ++ record) k' ∧ (k ≤ k')%nat ∧
      if ok : bool then SYNC = true → k' = length (log ++ record) else k' = k)).
  { destruct SYNC; [|wp_steps; split; [done|]; exists k; by split_and!].
    wp_apply sync_segment_spec as ok s4 [Hp4 HL4]; [done|]. split; [done|].
    destruct ok; [|exists k; by split_and!]. eexists. split_and!; [done| |done].
    by destruct HL4 as (_ & _ & _ & ?), HL3 as (_ & _ & _ & ?). }
  intros ok s4 (Hp4 & k' & HL4 & Hk & Hok). destruct ok.
  2: { wp_steps. subst k'. by apply Hlast. }
  wp_step. wp_apply (acknowledge_spec (log ++ record) k') as ok s5 [Hi5 HL5]; [done|].
  assert (Hin : incoming (peer s5) = incoming (peer s1)) by congruence.
  assert (Hnext := λ acks s', served_next s s5 log k k' record acks s'). rewrite Hin in Hnext.
  destruct ok; [|wp_steps]; [wp_step; eapply wp_mono; [apply IH; [done|rewrite Hin; lia]|]|].
  - intros acks s' Hacks. wp_steps. by apply Hnext.
  - apply Hnext; [done..|]. apply (served_stop _ _ _ _ [] (incoming (peer s5)) k'); try done.
    by rewrite !app_nil_r.
Qed.
End durability.

(** ** The theorem *)

(** An acknowledgement means on disk.  With syncing on, [serve] ends, and every record it
    acknowledged is durable, right after what the segment held, whole and in the order the
    client sent them; at most one more record follows them in the log, unacknowledged, and
    the segment's tail offset is the log's length, ready for the next lease. *)
Theorem acked_is_durable {T : Tcp} {TL : TcpLaws T} {L : LogFile} {LL : LogFileLaws L}
    {F : Features} fuel log k (s : Session) :
  holds_log s log k → (N.to_nat (len (incoming s.(peer))) < fuel)%nat →
  ∃ acks tail more s', serve true fuel s = Val (acks, s') ∧
    incoming s.(peer) = concat acks ++ tail ++ more ∧
    (∃ k', holds_log s' (log ++ concat acks ++ tail) k') ∧
    (acks ≠ [] → firstn (length (log ++ concat acks)) (durable s'.(segment).(wal_file)) = log ++ concat acks).
Proof.
  intros HL Hf. pose proof (serve_spec true fuel log k s HL Hf) as Hw. unfold wp in Hw.
  destruct (serve true fuel s) as [[acks s']| |]; [|done..].
  destruct Hw as (tail & more & k' & Hi & HL' & Hk & Hs). exists acks, tail, more, s'.
  split_and!; [done|done|by eauto|]. intros Hne. specialize (Hs eq_refl Hne).
  destruct HL' as (_ & _ & Hd & _). apply (firstn_le _ _ _ _ Hs) in Hd. rewrite Hd.
  rewrite app_assoc. apply take_app_length.
Qed.

(** ** A concrete segment *)

Record disk_file := mkDisk { on_file : list N; on_disk : list N }.
Definition disk_write (bs : list N) (n : N) (f : disk_file) : result unit io_error * disk_file :=
  if N.size (n + len bs) <=? 63 then
    (Ok tt, mkDisk (firstn (N.to_nat n) f.(on_file) ++ bs ++ skipn (N.to_nat (n + len bs)) f.(on_file)) f.(on_disk))
  else (Err (mkIoError (OtherKind 27) "File too large"), f).
Definition disk_log : LogFile := {|
  log_file := disk_file;
  write_all_at := disk_write;
  sync_data f := (Ok tt, mkDisk f.(on_file) f.(on_file))
|}.

#[export] Instance disk_laws : LogFileLaws disk_log.
Proof.
  refine {| logged := on_file : log_file (LogFile:=disk_log) → list N;
            durable := on_disk : log_file (LogFile:=disk_log) → list N |}.
  - intros bs n f f' Hw Hn. change (disk_write bs n f = (Ok tt, f')) in Hw. unfold disk_write in Hw. destruct (_ <=? _); [|done]. injection Hw as <-. simpl in *. unfold len in *.
    rewrite app_assoc, take_app_le, take_ge; [done|..];
      rewrite length_app, length_firstn; simpl in *; lia.
  - intros bs n f f' Hw. change (disk_write bs n f = (Ok tt, f')) in Hw. unfold disk_write in Hw. destruct (N.leb_spec (N.size (n + len bs)) 63) as [Hs|]; [|done].
    eapply N.lt_le_trans; [apply N.size_gt|]. by apply N.pow_le_mono_r.
  - intros bs n f r f' Hw Hn. change (disk_write bs n f = (r, f')) in Hw. unfold disk_write in Hw. destruct (_ <=? _); injection Hw as <- <-; [|done].
    simpl in *. split; [|done]. unfold len in *.
    rewrite take_app_le, take_take by (rewrite length_take; lia). by rewrite Nat.min_id.
  - by intros f r f' [= <- <-].
  - by intros f f' [= <-].
Defined.

#[local] Existing Instance script_tcp.
#[local] Existing Instance disk_log.
#[local] Existing Instance demo_features.

(** Two records, "ab" and "c", into an empty segment. *)
Definition demo_session : Session :=
  mkSession (mkScript (codes "abc") [Ok 1; Ok 0] [] []) (with_capacity 65536) (mkWal (mkDisk [] []) 0).

Lemma acked_is_durable_witness :
  ∃ s', serve true 10 demo_session = Val ([codes "ab"; codes "c"], s') ∧
        firstn 3 (durable s'.(segment).(wal_file)) = codes "abc".
Proof.
  destruct (acked_is_durable 10 [] 0 demo_session) as (acks & tail & more & s' & He & _ & _ & Hd).
  - by split_and!.
  - vm_compute. lia.
  - exists s'. assert (Hacks : match serve true 10 demo_session with Val (a, _) => a | _ => [] end = [codes "ab"; codes "c"])
      by (vm_compute; reflexivity).
    rewrite He in Hacks. simpl in Hacks. subst acks. split; [done|]. by apply Hd.
Defined.
