(* ===== verification/WalServer.v ===== *)
(** The write-ahead-log server at work: connections of [src/examples/wal.rs] served at once by
    one thread, each on a log segment leased from its pool.  What the server has promised
    its clients is on disk, whoever uses the segment next, and no two segments are one file. *)

From stdpp Require Import gmap.
From S2P Require Import Prelude Manage Builder Metrics Store Waiters Inner Local Futures Balance System Scenario Custody Clients Text Echo Typing Wal Sessions.

(** A pooled segment, with the ghost history of it: all that was appended through its leases,
    and how much of that a client may have been told is safe. *)
Record Segment {L : LogFile} := mkSegment { wal : Wal; appended : list N; promised : nat }.
Arguments mkSegment {L} _ _ _.

(** Where [serve] is suspended: not begun, in [local.get().await], reading a record, writing it
    to the log, syncing, or acknowledging. *)
Inductive wal_stage :=
| WStarting | WGetting | WReading
| WWriting (record : list N) | WSyncing (record : list N) | WAcking (record : list N).
(** [acked], a ghost, has the records acknowledged in this session so far. *)
Record WalSession {T : Tcp} := mkWalSession {
  wal_at : wal_stage;
  wal_peer : stream;
  wal_input : Vec;
  acked : list (list N)
}.
Arguments mkWalSession {T} _ _ _ _.

Section wal_server.
Context {T : Tcp} {L : LogFile} {F : Features} (SYNC : bool).

(** [WalManager], a fresh segment having no history. *)
Definition Segments (dir : list N) (turn : nat → N) (open : list N → nat → Poll (result log_file io_error)) :
    ManageConnection Segment io_error := {|
  connect t :=
    match (WalManager dir turn open).(connect) t with
    | Pending => Pending
    | Ready (Err e) => Ready (Err e)
    | Ready (Ok w) => Ready (Ok (mkSegment w [] 0))
    end;
  is_valid t s := (((WalManager dir turn open).(is_valid) t s.(wal)).1, s);
  has_broken t s := (((WalManager dir turn open).(has_broken) t s.(wal)).1, s)
|}.

(** A stretch of [serve] that is one of its steps, on the state of a session and its lease. *)
Definition on_session {A} (step : St Session A) (s : WalSession) (k : Segment)
    (next : A → Session → outcome (stay WalSession * Segment)) : outcome (stay WalSession * Segment) :=
  match step (mkSession s.(wal_peer) s.(wal_input) k.(wal)) with
  | Val (a, s') => next a s'
  | Panic => Panic
  | NoFuel => NoFuel
  end.
Definition at_stage (w : wal_stage) (acks : list (list N)) (s : Session) : WalSession :=
  mkWalSession w s.(peer) s.(input) acks.

Definition wal_inside (s : WalSession) (k : Segment) : outcome (stay WalSession * Segment) :=
  let acks := s.(acked) in
  match s.(wal_at) with
  | WStarting | WGetting =>
      Val (Keep (mkWalSession WReading s.(wal_peer) (with_capacity (64 * 1024)) acks), k)
  | WReading =>
      on_session read_record s k (λ r s',
        let k' := mkSegment s'.(segment) k.(appended) k.(promised) in
        match r with
        | None => Val (Finish (at_stage WReading acks s'), k')
        | Some record => Val (Keep (at_stage (WWriting record) acks s'), k')
        end)
  | WWriting record =>
      on_session (append_record record) s k (λ written s',
        if written : bool then
          '(_, s'') ← advance (len record) s';
          Val (Keep (at_stage (if SYNC then WSyncing record else WAcking record) acks s''),
               mkSegment s''.(segment) (k.(appended) ++ record) k.(promised))
        else Val (Finish (at_stage (WWriting record) acks s'), mkSegment s'.(segment) k.(appended) k.(promised)))
  | WSyncing record =>
      on_session sync_segment s k (λ synced s',
        let k' := mkSegment s'.(segment) k.(appended) k.(promised) in
        if synced : bool then Val (Keep (at_stage (WAcking record) acks s'), k')
        else Val (Finish (at_stage (WSyncing record) acks s'), k'))
  | WAcking record =>
      on_session acknowledge s k (λ sent s',
        let k' := mkSegment s'.(segment) k.(appended) (length k.(appended)) in
        if sent : bool then Val (Keep (at_stage WReading (acks ++ [record]) s'), k')
        else Val (Finish (at_stage (WAcking record) (acks ++ [record]) s'), k'))
  end.

#[export] Instance wal_guest : Guest Segment WalSession := {|
  outside s := Val (Ask_for (mkWalSession WGetting s.(wal_peer) s.(wal_input) s.(acked)));
  turned_away s := (s, true);
  inside := wal_inside
|}.

(** A connection just accepted. *)
Definition wal_accepted (s : WalSession) : Prop := s.(wal_at) = WStarting ∧ s.(acked) = [].

Context {TL : TcpLaws T} {LL : LogFileLaws L}.

(** The history is what the file reads, and with syncing on, what was promised is on disk. *)
Definition sound (k : Segment) : Prop :=
  keeps_log k.(wal) k.(appended) (if SYNC then k.(promised) else 0) ∧ (k.(promised) ≤ length k.(appended))%nat.

(** The record that is appended and not yet acknowledged. *)
Definition in_flight (s : WalSession) : list N :=
  match s.(wal_at) with WSyncing r | WAcking r => r | _ => [] end.

(** All the client has sent and will send: acknowledged, in hand, and still to be read. *)
Definition pending (s : WalSession) : list N :=
  match s.(wal_at) with WWriting r | WSyncing r | WAcking r => r | _ => [] end.
Definition told (s : WalSession) : list N := concat s.(acked) ++ pending s ++ incoming s.(wal_peer).

(** What a stretch from [s] and [k] does to the history: [acks] acknowledged by its end, [tail]
    appended and not acknowledged. *)
Definition goes_on (s : WalSession) (k : Segment) (acks : list (list N)) (tail : list N) (k' : Segment) : Prop :=
  (∀ base, k.(appended) = base ++ concat s.(acked) ++ in_flight s →
    k'.(appended) = base ++ concat acks ++ tail) ∧
  (acks, k'.(promised)) =
    match s.(wal_at) with
    | WAcking r => (s.(acked) ++ [r], length k.(appended))
    | _ => (s.(acked), k.(promised))
    end.

Definition wal_fit (s : WalSession) (k : option Segment) : Prop :=
  match s.(wal_at), k with
  | WStarting, None => True
  | WGetting, Some k => sound k
  | WReading, Some k => sound k
  | WWriting r, Some k => r ≠ [] ∧ sound k
  | WSyncing _, Some k => sound k ∧ SYNC = true
  | WAcking _, Some k => sound k ∧ (SYNC = true → keeps_log k.(wal) k.(appended) (length k.(appended)))
  | _, _ => False
  end.

Definition wal_left (x : WalSession * option Segment) : nat :=
  5 * N.to_nat (len (incoming x.1.(wal_peer))) +
  match x.1.(wal_at), x.2 with
  | WReading, _ => 1 | WAcking _, _ => 2 | WSyncing _, _ => 3 | WWriting _, _ => 4
  | WGetting, Some _ => 5 | WGetting, None => 6 | WStarting, _ => 7
  end.

Lemma sound_same k w : sound k → keeps_log w k.(appended) (if SYNC then k.(promised) else 0) →
  sound (mkSegment w k.(appended) k.(promised)).
Proof. by intros []. Qed.

Lemma keeps_log_less w log k k' : (k' ≤ k)%nat → keeps_log w log k → keeps_log w log k'.
Proof.
  intros Hk (Ho & Hl & Hd & Hle). split_and!; [done|done| |lia]. by eapply firstn_le.
Qed.

Lemma on_session_spec {A} (step : St Session A) s k next (Q : A → Session → Prop) (P : stay WalSession → Segment → Prop) :
  wp step Q (mkSession s.(wal_peer) s.(wal_input) k.(wal)) →
  (∀ a s', Q a s' → ∃ r k', next a s' = Val (r, k') ∧ P r k') →
  ∃ r k', on_session step s k next = Val (r, k') ∧ P r k'.
Proof.
  intros Hw Hn. unfold on_session. destruct (wp_val _ _ _ Hw) as (a & s' & -> & Ha). by apply Hn.
Qed.

(** Where the segments are, whose turn it is to open one, and what that brings. *)
Context (dir : list N) (turn : nat → N) (open : list N → nat → Poll (result log_file io_error)).

Lemma sound_returnable k : sound k → returnable (M := Segments dir turn open) sound k.
Proof. by intros Hk t _. Qed.

#[export] Instance sound_kept : TypedManager (Segments dir turn open) sound.
Proof.
  split; [|done..]. intros t c. simpl. destruct (open _ t) as [|[f|e]]; [done| |done]. intros [= <-].
  split; [split_and!; simpl; [done|done| |]|simpl; lia]; by destruct SYNC.
Qed.

Lemma concat_snoc {A} (l : list (list A)) x : concat (l ++ [x]) = concat l ++ x.
Proof. rewrite concat_app. simpl. by rewrite app_nil_r. Qed.

(** One stretch: what it leaves fits, and the history only grows. *)
Lemma wal_stretch s k :
  wal_fit s (Some k) → ∃ r k', wal_inside s k = Val (r, k') ∧
    match r with
    | Keep s' => wal_fit s' (Some k') ∧ fewer_left wal_left (s', Some k') (s, Some k) ∧
        told s' = told s ∧ goes_on s k s'.(acked) (in_flight s') k'
    | Give_back _ => False
    | Finish s' => sound k' ∧ ∃ tail more, told s = concat s'.(acked) ++ tail ++ more ∧ goes_on s k s'.(acked) tail k'
    end.
Proof.
  intros Hf. unfold wal_inside, fewer_left, wal_left, told, goes_on. cbv zeta.
  destruct s as [[| | |record|record|record] p b acks];
    cbn [wal_at wal_peer wal_input acked wal_fit pending in_flight] in *; [done|..].
  - do 2 eexists. split; [done|]. cbn. split_and!; [done|lia|done|done|done].
  - eapply on_session_spec; [apply read_record_spec|]. cbn [peer input segment wal_peer wal_input].
    intros [record|] s' [Hseg Hr]; do 2 eexists; (split; [done|]); rewrite Hseg; cbn.
    + destruct Hr as [Hne ->]. rewrite len_app. split_and!; [done|by apply sound_same, Hf| |done|done|done].
      destruct record; [done|]. rewrite len_cons. lia.
    + split; [by apply sound_same, Hf|]. by exists [], (incoming p).
  - destruct Hf as [Hne [Hk Hle]].
    eapply on_session_spec; [by apply (append_record_spec record k.(appended) (if SYNC then promised k else 0))|].
    cbn [peer input segment wal_peer wal_input]. intros [] s' [Hp H2].
    + destruct (wp_val _ _ _ H2) as ([] & s2 & -> & Hp2 & _ & HL2). do 2 eexists. split; [done|].
      assert (Hs : sound (mkSegment s2.(segment) (k.(appended) ++ record) k.(promised))).
      { split; [exact HL2|]. simpl. rewrite length_app. lia. }
      assert (Happ : ∀ base, appended k = base ++ concat acks ++ [] → appended k ++ record = base ++ concat acks ++ record).
      { intros base ->. by rewrite app_nil_r, <-app_assoc. }
      cbn. rewrite Hp2. destruct SYNC eqn:Hsync; (split; [split; [exact Hs|]|split_and!; [lia|done|done|done]]);
        [done|by rewrite Hsync].
    + do 2 eexists. split; [done|]. split; [by split|]. by exists [], (record ++ incoming p).
  - destruct Hf as [[Hk Hle] Hsync].
    eapply on_session_spec; [by apply (sync_segment_spec k.(appended) (if SYNC then promised k else 0))|].
    cbn [peer input segment wal_peer wal_input]. intros [] s' [Hp H2]; do 2 eexists; (split; [done|]); cbn.
    + rewrite Hp. split; [split; [split; [|done]|done]|split_and!; [lia|done|done|done]]. eapply keeps_log_less, H2.
      destruct SYNC; [done|lia].
    + split; [by split|]. by exists record, (incoming p).
  - destruct Hf as [[Hk Hle] Hd].
    assert (Hk' : keeps_log k.(wal) k.(appended) (if SYNC then length k.(appended) else 0)).
    { destruct SYNC; [by apply Hd|done]. }
    assert (Happ : ∀ base, appended k = base ++ concat acks ++ record → appended k = base ++ concat (acks ++ [record]) ++ []).
    { intros base ->. by rewrite concat_snoc, app_nil_r. }
    eapply on_session_spec; [by apply (acknowledge_spec k.(appended) (if SYNC then length k.(appended) else 0))|].
    cbn [peer input segment wal_peer wal_input]. intros [] s' [Hi H2]; do 2 eexists; (split; [done|]); cbn.
    + rewrite Hi. split; [split; [done|simpl; lia]|split_and!; [lia| |done|done]].
      by rewrite concat_snoc, <-app_assoc.
    + split; [split; [done|simpl; lia]|]. exists [], (incoming p).
      split; [by rewrite concat_snoc, <-app_assoc|by split].
Qed.

#[export] Instance wal_laws : GuestLaws (Segments dir turn open) wal_guest wal_accepted sound.
Proof.
  apply (Build_GuestLaws _ _ _ _ _ _ _ wal_fit _ (fewer_left_wf wal_left) _).
  - intros [st p b acks] [Ha _]. simpl in Ha. by subst st.
  - intros [[] p b acks] Hf; try done. eexists. split; [done|].
    split; [split; [intros k Hk; split; [exact Hk|]|done]|]; unfold fewer_left, wal_left; simpl; lia.
  - intros s k Hf. destruct (wal_stretch s k Hf) as (r & k' & Hv & Hr). exists r, k'. split; [exact Hv|].
    destruct r as [s'|s'|s']; [destruct Hr as (Hf' & Hl & _); by split|done|by apply sound_returnable, Hr].
Defined.

(** *** The history of a lease *)

(** A session that leased [c0] and has come to [s], with [tail] appended after what it has
    acknowledged and [more] not appended. *)
Record story (s0 : WalSession) (c0 : Segment) (s : WalSession) (k : Segment) (tail more : list N) : Prop := {
  st_bytes : incoming s0.(wal_peer) = concat s.(acked) ++ tail ++ more;
  st_log : k.(appended) = c0.(appended) ++ concat s.(acked) ++ tail;
  st_promised : k.(promised) =
    match s.(acked) with [] => c0.(promised) | _ => length (c0.(appended) ++ concat s.(acked)) end
}.

Lemma goes_on_story s0 c0 s k more s' k' tail more' :
  story s0 c0 s k (in_flight s) more →
  told s = incoming s0.(wal_peer) → told s = concat s'.(acked) ++ tail ++ more' →
  goes_on s k s'.(acked) tail k' → story s0 c0 s' k' tail more'.
Proof.
  intros [Hb Hl Hp] Ht Ht' [Hg Hgp]. split; [congruence|by apply Hg|].
  destruct s as [[| | |r|r|r] p b acks]; cbn [wal_at acked in_flight] in *; injection Hgp as -> ->; try done.
  destruct acks; simpl; rewrite Hl, !length_app, ?concat_snoc, ?length_app; simpl; rewrite ?length_app; simpl; lia.
Qed.

Lemma wal_way s0 l q :
  wal_accepted s0 → way sound (Without s0) l q →
  match q with
  | Without s => s = s0 ∧ l = []
  | Wants s => s.(wal_at) = WGetting ∧ s.(acked) = [] ∧ s.(wal_peer) = s0.(wal_peer) ∧ l = []
  | Within c0 s k => l = [] ∧ sound c0 ∧ wal_fit s (Some k) ∧ told s = incoming s0.(wal_peer) ∧
      ∃ more, story s0 c0 s k (in_flight s) more
  | Ended s => (l = [None] ∧ s.(acked) = []) ∨
      ∃ c0 k tail more, l = [Some (c0, k)] ∧ sound c0 ∧ sound k ∧ story s0 c0 s k tail more
  end.
Proof.
  intros [Hs0 Ha]. induction 1 as [|l q e q' _ IH Hm]; [done|].
  destruct Hm as [s x Hx|s x Hx|s x Hx|s c Hc|s x Hx|s x Hx|c0 s c x c' Hx|c0 s c x c' Hx|c0 s c x c' Hx].
  - done.
  - injection Hx as <-. destruct IH as [-> ->]. destruct s0. simpl in *. by subst.
  - done.
  - destruct IH as (Hst & Hac & Hp & ->). split_and!; [done|done| | |].
    + destruct s. simpl in *. by subst.
    + unfold told, pending. rewrite Hst, Hac, Hp. done.
    + exists (incoming s.(wal_peer)). destruct s. simpl in *. subst. split; simpl; [done|by rewrite app_nil_r|done].
  - done.
  - injection Hx as <-. destruct IH as (_ & Hac & _ & ->). left. by split.
  - destruct IH as (-> & Hc0 & Hf & Ht & more & Hst). destruct (wal_stretch s c Hf) as (r & k' & Hv & Hr).
    change (wal_inside s c = Val (Keep x, c')) in Hx. rewrite Hx in Hv. injection Hv as <- <-.
    destruct Hr as (Hf' & _ & Ht' & Hg). rewrite app_nil_r. split_and!; [done|done|done|congruence|].
    exists (match x.(wal_at) with WWriting r => r | _ => [] end ++ incoming x.(wal_peer)).
    eapply goes_on_story; [exact Hst|done| |done]. rewrite <-Ht'. unfold told, pending, in_flight.
    by destruct (wal_at x).
  - destruct IH as (_ & _ & Hf & _). destruct (wal_stretch s c Hf) as (r & k' & Hv & Hr).
    change (wal_inside s c = Val (Give_back x, c')) in Hx. rewrite Hx in Hv. by injection Hv as <- <-.
  - destruct IH as (-> & Hc0 & Hf & Ht & more & Hst). destruct (wal_stretch s c Hf) as (r & k' & Hv & Hr).
    change (wal_inside s c = Val (Finish x, c')) in Hx. rewrite Hx in Hv. injection Hv as <- <-.
    destruct Hr as (Hs' & tail & more' & Ht' & Hg). right. exists c0, c', tail, more'.
    split_and!; [done|done|done|]. by eapply goes_on_story.
Qed.

(** *** The same as [serve] *)

(** What is left of [serve] at each await point; [fuel] is for the rounds to come. *)
Definition ack_rest (fuel : nat) (r : list N) : St Session (list (list N)) :=
  sent ← acknowledge;
  if sent : bool then acks ← serve SYNC fuel; mret (r :: acks) else mret [r].
Definition sync_rest (fuel : nat) (r : list N) : St Session (list (list N)) :=
  synced ← sync_segment;
  if synced : bool then ack_rest fuel r else mret [].
Definition write_rest (fuel : nat) (r : list N) : St Session (list (list N)) :=
  written ← append_record r;
  if written : bool then advance (len r);; (if SYNC then sync_rest fuel r else ack_rest fuel r) else mret [].
Definition wal_rest (fuel : nat) (s : WalSession) : St Session (list (list N)) :=
  match s.(wal_at) with
  | WWriting r => write_rest fuel r
  | WSyncing r => sync_rest fuel r
  | WAcking r => ack_rest fuel r
  | _ => serve SYNC fuel
  end.
Definition seen (s : WalSession) (k : Segment) : Session :=
  mkSession s.(wal_peer) match s.(wal_at) with WGetting => with_capacity (64 * 1024) | _ => s.(wal_input) end k.(wal).

Lemma serve_round fuel x : serve SYNC (S fuel) x =
  (r ← read_record; match r with None => mret [] | Some r => write_rest fuel r end) x.
Proof.
  cbn [serve]. unfold mbind, St_bind. destruct (read_record x) as [[[r|] y]| |]; [|done..].
  unfold write_rest, mbind, St_bind. destruct (append_record r y) as [[[] z]| |]; [|done..].
  destruct (advance (len r) z) as [[[] t]| |]; [|done..]. unfold sync_rest, ack_rest. by destruct SYNC.
Qed.

Lemma nothing_before {S A} (c : St S (list A)) x : (later ← c; mret ([] ++ later)) x = c x.
Proof. unfold mbind, St_bind. by destruct (c x) as [[]| |]. Qed.

(** One stretch of it. *)
Lemma wal_rest_step s k r k' fuel :
  wal_fit s (Some k) → wal_inside s k = Val (r, k') →
  (N.to_nat (len (incoming s.(wal_peer))) < fuel)%nat →
  match r with
  | Keep s' => ∃ fuel' acks, s'.(acked) = s.(acked) ++ acks ∧
      (N.to_nat (len (incoming s'.(wal_peer))) < fuel')%nat ∧
      wal_rest fuel s (seen s k) = (later ← wal_rest fuel' s'; mret (acks ++ later)) (seen s' k')
  | Finish s' => ∃ acks, s'.(acked) = s.(acked) ++ acks ∧
      wal_rest fuel s (seen s k) = Val (acks, mkSession s'.(wal_peer) s'.(wal_input) k'.(wal))
  | Give_back _ => False
  end.
Proof.
  intros Hf Hv Hfuel. destruct s as [[| | |record|record|record] p b acks]; [done|..];
    unfold wal_inside, on_session in Hv; cbv zeta in Hv; cbn [wal_at wal_peer wal_input acked] in *.
  - injection Hv as <- <-. exists fuel, []. by rewrite nothing_before, app_nil_r.
  - destruct fuel as [|fuel]; [lia|].
    change (wal_rest (S fuel) _ (seen _ k)) with (serve SYNC (S fuel) (mkSession p b k.(wal))). rewrite serve_round.
    destruct (wp_val _ _ _ (read_record_spec (mkSession p b k.(wal)))) as (x & y & Hr & _ & Hx).
    rewrite Hr in Hv. rewrite (bind_val _ _ _ _ _ Hr). destruct x as [record|]; injection Hv as <- <-.
    + destruct Hx as [Hne Hi]. cbn in Hi. exists fuel, []. rewrite nothing_before, app_nil_r. split; [done|].
      rewrite Hi, len_app in Hfuel. cbn. split; [destruct record; [done|]; rewrite len_cons in Hfuel; lia|by destruct y].
    + exists []. split; [by rewrite app_nil_r|]. by destruct y.
  - destruct Hf as [_ [Hk _]].
    change (wal_rest fuel _ (seen _ k)) with (write_rest fuel record (mkSession p b k.(wal))). unfold write_rest.
    destruct (wp_val _ _ _ (append_record_spec record _ _ (mkSession p b k.(wal)) Hk)) as (x & y & Hr & Hp & Hx).
    rewrite Hr in Hv. rewrite (bind_val _ _ _ _ _ Hr). cbn in Hp. destruct x.
    + destruct (wp_val _ _ _ Hx) as ([] & z & Hz & Hp' & _). cbn in Hp'. rewrite Hz in Hv. cbn in Hv.
      injection Hv as <- <-. exists fuel, []. rewrite nothing_before, app_nil_r. split; [done|].
      cbn [wal_peer at_stage]. rewrite Hp'. split; [done|]. rewrite (bind_val _ _ _ _ _ Hz).
      destruct z. unfold wal_rest, seen, at_stage. by destruct SYNC.
    + injection Hv as <- <-. exists []. rewrite app_nil_r. split; [done|]. by destruct y.
  - destruct Hf as [[Hk _] _].
    change (wal_rest fuel _ (seen _ k)) with (sync_rest fuel record (mkSession p b k.(wal))). unfold sync_rest.
    destruct (wp_val _ _ _ (sync_segment_spec _ _ (mkSession p b k.(wal)) Hk)) as (x & y & Hr & Hp & _).
    rewrite Hr in Hv. rewrite (bind_val _ _ _ _ _ Hr). cbn in Hp. destruct x; injection Hv as <- <-.
    + exists fuel, []. rewrite nothing_before, app_nil_r. split; [done|]. cbn [wal_peer at_stage]. rewrite Hp.
      split; [done|]. by destruct y.
    + exists []. rewrite app_nil_r. split; [done|]. by destruct y.
  - destruct Hf as [[Hk _] _].
    change (wal_rest fuel _ (seen _ k)) with (ack_rest fuel record (mkSession p b k.(wal))). unfold ack_rest.
    destruct (wp_val _ _ _ (acknowledge_spec _ _ (mkSession p b k.(wal)) Hk)) as (x & y & Hr & Hp & _).
    rewrite Hr in Hv. rewrite (bind_val _ _ _ _ _ Hr). cbn in Hp. destruct x; injection Hv as <- <-.
    + exists fuel, [record]. split; [done|]. cbn [wal_peer at_stage]. rewrite Hp. split; [done|]. by destruct y.
    + exists [record]. split; [done|]. by destruct y.
Qed.

(** What a session that came as [s] and ended as [s'] has done: what [serve] does by itself. *)
Definition wal_served (s : WalSession) (l : list (option (Segment * Segment))) (s' : WalSession) : Prop :=
  ∀ fuel, (N.to_nat (len (incoming s.(wal_peer))) < fuel)%nat →
  (l = [None] ∧ s'.(acked) = [] ∧ s'.(wal_peer) = s.(wal_peer)) ∨
  ∃ c0 k, l = [Some (c0, k)] ∧
    serve SYNC fuel (mkSession s.(wal_peer) (with_capacity (64 * 1024)) c0.(wal)) =
      Val (s'.(acked), mkSession s'.(wal_peer) s'.(wal_input) k.(wal)).

Lemma wal_alone p l r : way sound p l r → ∀ s', r = Ended s' →
  match p with
  | Without s => wal_accepted s → wal_served s l s'
  | Wants s => s.(wal_at) = WGetting → s.(acked) = [] → wal_served s l s'
  | Within c0 s k => wal_fit s (Some k) → ∀ fuel, (N.to_nat (len (incoming s.(wal_peer))) < fuel)%nat →
      ∃ acks k', l = [Some (c0, k')] ∧ s'.(acked) = s.(acked) ++ acks ∧
        wal_rest fuel s (seen s k) = Val (acks, mkSession s'.(wal_peer) s'.(wal_input) k'.(wal))
  | Ended s => l = [] ∧ s = s'
  end.
Proof.
  revert p l r. refine (way_ind_front sound _ _ _); [by intros [] s' [=]|].
  intros p e q l r Hm _ IH s' ->. specialize (IH s' eq_refl).
  destruct Hm as [s x Hx|s x Hx|s x Hx|s c Hc|s x Hx|s x Hx|c0 s c x c' Hx|c0 s c x c' Hx|c0 s c x c' Hx]; try done.
  - injection Hx as <-. intros [Hs Ha]. by apply IH.
  - destruct s as [st p b acks]. simpl. intros -> -> fuel Hfuel. right.
    destruct (IH Hc fuel Hfuel) as (acks & k' & -> & Ha & Hrun). simpl in Ha. subst acks. by exists c, k'.
  - injection Hx as <-. destruct IH as [-> ->]. intros Hst Ha fuel Hfuel. by left.
  - intros Hf fuel Hfuel. destruct (wal_rest_step s c _ _ fuel Hf Hx Hfuel) as (fuel' & acks & Ha & Hf' & ->).
    destruct (wal_stretch s c Hf) as (r & k' & Hv & Hr). change (wal_inside s c = Val (Keep x, c')) in Hx.
    rewrite Hx in Hv. injection Hv as <- <-.
    destruct (IH (proj1 Hr) fuel' Hf') as (acks' & k' & -> & Ha' & Hrun). exists (acks ++ acks'), k'.
    split_and!; [done|by rewrite Ha', Ha, app_assoc|]. unfold mbind, St_bind. by rewrite Hrun.
  - intros Hf fuel Hfuel. by destruct (wal_rest_step s c _ _ fuel Hf Hx Hfuel).
  - intros Hf fuel Hfuel. destruct (wal_rest_step s c _ _ fuel Hf Hx Hfuel) as (acks & Ha & Hrun). destruct IH as [-> ->]. by exists acks, c'.
Qed.
End wal_server.

(** ** The server *)

Section server.
Context {T : Tcp} {TL : TcpLaws T} {L : LogFile} {LL : LogFileLaws L}.
Context {F : Features} {R : Runtime} {RL : RuntimeLaws R}.
Context (dir : list N) (turn : nat → N) (open : list N → nat → Poll (result log_file io_error)).
#[local] Instance server_segments : ManageConnection Segment io_error := Segments dir turn open.

(** One worker's server, with or without syncing, at some point of its life. *)
Definition wal_serving (SYNC : bool) (cfg : PoolConfig) (v : Server Segment io_error WalSession) : Prop :=
  @server_reachable _ _ _ _ _ _ (wal_guest SYNC) cfg wal_accepted v.

(** The first [n] bytes of what was appended to [k] would outlive a crash. *)
Definition on_disk (k : Segment) (n : nat) : Prop :=
  firstn n (durable k.(wal).(wal_file)) = firstn n k.(appended).

Lemma sound_on_disk k : sound true k → on_disk k k.(promised).
Proof. by intros [(_ & _ & ? & _) _]. Qed.

(** A story is a promise for all that was acknowledged, and for all that was before. *)
Lemma story_on_disk s0 c0 s k tail more :
  sound true c0 → sound true k → story s0 c0 s k tail more →
  on_disk k c0.(promised) ∧
  (s.(acked) ≠ [] → firstn (length (c0.(appended) ++ concat s.(acked))) (durable k.(wal).(wal_file))
    = c0.(appended) ++ concat s.(acked)).
Proof.
  intros [_ Hc0] Hk [_ Hl Hp]. pose proof (sound_on_disk k Hk) as Hd. split.
  - unfold on_disk in *. eapply (firstn_le _ _ _ k.(promised)); [|exact Hd]. rewrite Hp.
    destruct (acked s); [done|]. rewrite length_app. lia.
  - intros Hne. unfold on_disk in Hd. rewrite Hp in Hd. destruct (acked s) as [|a acks]; [done|].
    rewrite Hd, Hl, app_assoc. apply take_app_length.
Qed.

(** C33: what the server has promised it keeps.  However many clients there are and however their tasks
    are scheduled, at every moment: all that was ever acknowledged on a segment lying in the pool
    would outlive a crash; so would all that a session in service has acknowledged, which is what
    its client sent, in order, right after what the segment held when it was leased, with at most
    one record behind it; and so it was at the end of every session that is over.  In each, what
    earlier sessions were promised on the segment is still there. *)
Theorem promises_kept cfg v :
  config_ok cfg → wal_serving true cfg v →
  (∀ c, c ∈ v.(sv_pool).(world).(idle) → on_disk c.(raw) c.(raw).(promised)) ∧
  (∀ i s0 l c0 s, v.(sessions) !! i = Some (mkVisit s0 l (Inside c0 s)) →
    ∃ conn more, v.(sv_pool).(leases) !! i = Some (mkPooled (Some conn)) ∧
      story s0 c0 s conn.(raw) (in_flight s) more ∧ on_disk conn.(raw) c0.(promised) ∧
      (s.(acked) ≠ [] → firstn (length (c0.(appended) ++ concat s.(acked))) (durable conn.(raw).(wal).(wal_file))
        = c0.(appended) ++ concat s.(acked))) ∧
  (∀ i s0 l s, v.(sessions) !! i = Some (mkVisit s0 l (Gone s)) →
    (l = [None] ∧ s.(acked) = []) ∨
    ∃ c0 k tail more, l = [Some (c0, k)] ∧ story s0 c0 s k tail more ∧ on_disk k c0.(promised) ∧
      (s.(acked) ≠ [] → firstn (length (c0.(appended) ++ concat s.(acked))) (durable k.(wal).(wal_file))
        = c0.(appended) ++ concat s.(acked))).
Proof.
  intros Hcfg Hv. split_and!.
  - intros c Hc. apply sound_on_disk.
    exact (idle_good wal_accepted (sound true) (GL := wal_laws true dir turn open) cfg Hcfg v c Hv Hc).
  - intros i s0 l c0 s Hi.
    destruct (session_inside wal_accepted (sound true) (GL := wal_laws true dir turn open) cfg Hcfg v i s0 l c0 s Hv Hi)
      as (Ho & _ & Hc0 & conn & Hl & Hf & Hw).
    destruct (wal_way true s0 l _ Ho Hw) as (_ & _ & _ & _ & more & Hst).
    exists conn, more. split; [done|]. split; [done|]. eapply story_on_disk; [done| |exact Hst].
    destruct s as [[] p b acks]; cbn in Hf; tauto.
  - intros i s0 l s Hi.
    destruct (session_alone wal_accepted (sound true) (GL := wal_laws true dir turn open) cfg Hcfg v i s0 l s Hv Hi)
      as (Ho & _ & Hw).
    destruct (wal_way true s0 l _ Ho Hw) as [?|(c0 & k & tail & more & -> & Hc0 & Hk & Hst)]; [by left|right].
    exists c0, k, tail, more. split; [done|]. split; [done|]. by eapply story_on_disk.
Qed.

(** Each client is served as [serve] serves it alone, on the segment its [get] brought. *)
Theorem wal_as_if_alone SYNC cfg v i s0 l s :
  config_ok cfg → wal_serving SYNC cfg v → v.(sessions) !! i = Some (mkVisit s0 l (Gone s)) →
  wal_served SYNC s0 l s.
Proof.
  intros Hcfg Hv Hi.
  destruct (session_alone wal_accepted (sound SYNC) (GL := wal_laws SYNC dir turn open) cfg Hcfg v i s0 l s Hv Hi)
    as (Ho & _ & Hw).
  by apply (wal_alone SYNC _ _ _ Hw s eq_refl).
Qed.

(** *** No segment is shared

    A handle goes on standing for the file it was opened on; [opened_on] tells the occasion of
    its opening. *)
Class Handles := {
  opened_on : log_file → nat;
  open_handle path t f : open path t = Ready (Ok f) → opened_on f = t;
  write_handle bs n f : opened_on (write_all_at bs n f).2 = opened_on f;
  sync_handle f : opened_on (sync_data f).2 = opened_on f
}.

Section handles.
Context {H : Handles}.
Definition opening (k : Segment) : nat := opened_on k.(wal).(wal_file).
(** The file opened on an occasion. *)
Definition path_of (t : nat) : list N := log_path dir (next_segment (turn t)).

#[export] Instance segments_named : Named server_segments opening.
Proof.
  split; [|done..]. intros t c. simpl. destruct (open _ t) as [|[f|e]] eqn:Ho; [done| |done].
  intros [= <-]. by eapply open_handle.
Qed.

Lemma wal_inside_handle SYNC s k r k' : wal_inside SYNC s k = Val (r, k') → opening k' = opening k.
Proof.
  unfold wal_inside, on_session, opening.
  destruct (wal_at s); cbn [mbind outcome_bind]; [by intros [= _ <-]..| | | |].
  - unfold read_record. destruct (read_into _ _) as [[x b] p]. by repeat case_match; intros; simplify_eq/=.
  - unfold append_record. pose proof (write_handle record k.(wal).(wal_offset) k.(wal).(wal_file)) as Hw.
    cbn [segment]. destruct (write_all_at _ _ _) as [[x|e] f]; [|by intros [= _ <-]].
    unfold advance. cbn [segment wal_offset]. destruct (add_u _ _ _); [|done..]. by intros [= _ <-].
  - unfold sync_segment. pose proof (sync_handle k.(wal).(wal_file)) as Hw.
    cbn [segment]. destruct (sync_data _) as [[x|e] f]; by intros [= _ <-].
  - unfold acknowledge. destruct (send _ _) as [[x|e] f]; by intros [= _ <-].
Qed.

(** The segments of a worker, those in its pool and those leased, are files of different names:
    what a session writes no other segment shows, and opening one truncates none of the others.
    This is for dials that took different turns, fewer than 2^64 of them so far. *)
Theorem segments_apart SYNC cfg v :
  let past t := (t < v.(sv_pool).(world).(tick))%nat in
  (∀ t, past t → turn t < U64) → (∀ t t', past t → past t' → turn t = turn t' → t = t') →
  wal_serving SYNC cfg v →
  NoDup (path_of <$> (conn_names opening v.(sv_pool).(world).(idle) ++
                      all_names (lease_names opening) v.(sv_pool).(leases))).
Proof.
  intros past Hturn Hinj Hv.
  assert (Hh : honest_run opening cfg v.(sv_pool)).
  { refine (@server_honest _ _ _ _ _ _ (wal_guest SYNC) opening cfg _ wal_accepted v Hv).
    intros s c r c'. apply wal_inside_handle. }
  edestruct names_sub as [Hnd Hlt]; [|apply (honest_custody opening cfg _ segments_named Hh)|].
  { apply submseteq_skips_l, submseteq_inserts_l. reflexivity. }
  apply NoDup_fmap_2_strong; [|exact Hnd]. rewrite Forall_forall in Hlt.
  intros t t' Ht%Hlt Ht'%Hlt Hp%segment_names_apart; [by apply Hinj|by apply Hturn..].
Qed.
End handles.

(** The server stays in bounds and keeps going. *)
Theorem wal_server_live SYNC cfg v :
  config_ok cfg → wal_serving SYNC cfg v → server_room v →
  size (serving v) = size v.(sv_pool).(leases) ∧ N.of_nat (size (serving v)) ≤ cfg.(max_size) ∧
  (∀ k, ∃ v', @session _ _ _ _ _ _ (wal_guest SYNC) cfg k v = Val (tt, v') ∧ after_poll (fewer_left wal_left) k v v') ∧
  (v.(sv_pool).(world).(closed) = false →
   ∀ k x, v.(sessions) !! k = Some x → is_gone x = false → ∃ j, session_can_go v j = true).
Proof.
  intros Hcfg. exact (server_lively wal_accepted (sound SYNC) (GL := wal_laws SYNC dir turn open) cfg Hcfg v).
Qed.
End server.

(** ** Two clients, one segment *)

#[local] Existing Instances demo_features plain_runtime script_tcp disk_log.
Definition fresh_disk (path : list N) (t : nat) : Poll (result log_file io_error) := Ready (Ok (mkDisk [] [])).
#[local] Instance demo_segments : ManageConnection Segment io_error := Segments (codes "/tmp/bench-wal") N.of_nat fresh_disk.
#[local] Instance demo_wal : Guest Segment WalSession := wal_guest true.

Definition one_segment : PoolConfig :=
  mkConfig 1 0 (from_secs 30) (Some (from_secs 600)) (Some (from_secs 1800)) false true.
Lemma one_segment_ok : config_ok one_segment.
Proof. by split. Qed.

(** The second sends one record and stays; the first sends two and hangs up. *)
Definition writer (text : string) (chunks : list (result N io_error)) : WalSession :=
  mkWalSession WStarting (mkScript (codes text) chunks [] []) (with_capacity 0) [].
Definition wal_nobody : Server Segment io_error WalSession := mkServer (sys_init false 0) ∅.
Definition wal_schedule : list (server_event WalSession) :=
  [Arrive 0%nat (writer "abc" [Ok 1; Ok 0]); Poll_session 0%nat; Arrive 1%nat (writer "d" []); Poll_session 1%nat] ++
  replicate 9 (Poll_session 0%nat) ++ replicate 5 (Poll_session 1%nat).
Definition wal_busy : Server Segment io_error WalSession :=
  default wal_nobody (server_run one_segment wal_schedule wal_nobody).

Lemma wal_busy_serving : wal_serving (codes "/tmp/bench-wal") N.of_nat fresh_disk true one_segment wal_busy.
Proof.
  apply (server_run_reachable one_segment wal_accepted wal_schedule wal_nobody);
    [apply server_start|by repeat constructor|vm_compute; reflexivity].
Qed.

(** What the second client's segment held when it was leased, and the session now. *)
Definition first_log : Segment := mkSegment (mkWal (mkDisk (codes "abc") (codes "abc")) 3) (codes "abc") 3.
Definition second_writer : WalSession :=
  mkWalSession WReading (mkScript [] [] [] (codes "OK" ++ [10])) (mkVec (codes "d") (64 * 1024)) [codes "d"].

Lemma promises_kept_witness :
  wal_busy.(sessions) !! 1%nat = Some (mkVisit (writer "d" []) [] (Inside first_log second_writer)) ∧
  ∃ conn, wal_busy.(sv_pool).(leases) !! 1%nat = Some (mkPooled (Some conn)) ∧
    firstn 4 (durable conn.(raw).(wal).(wal_file)) = codes "abcd".
Proof.
  pose proof (demo_runtime_laws None : RuntimeLaws plain_runtime).
  assert (Hk : wal_busy.(sessions) !! 1%nat = Some (mkVisit (writer "d" []) [] (Inside first_log second_writer)))
    by (vm_compute; reflexivity).
  split; [exact Hk|].
  destruct (promises_kept _ _ fresh_disk one_segment wal_busy one_segment_ok wal_busy_serving) as (_ & Hin & _).
  destruct (Hin 1%nat _ _ _ _ Hk) as (conn & more & Hl & _ & _ & Hd). exists conn. split; [exact Hl|].
  apply Hd. discriminate.
Defined.

Lemma wal_as_if_alone_witness :
  ∃ l s, wal_busy.(sessions) !! 0%nat = Some (mkVisit (writer "abc" [Ok 1; Ok 0]) l (Gone s)) ∧
    s.(acked) = [codes "ab"; codes "c"] ∧ wal_served true (writer "abc" [Ok 1; Ok 0]) l s.
Proof.
  pose proof (demo_runtime_laws None : RuntimeLaws plain_runtime).
  eexists _, _. split; [vm_compute; reflexivity|]. split; [vm_compute; reflexivity|].
  apply (wal_as_if_alone _ _ fresh_disk true one_segment wal_busy 0%nat _ _ _ one_segment_ok wal_busy_serving).
  vm_compute. reflexivity.
Defined.

Lemma wal_server_live_witness :
  N.of_nat (size (serving wal_busy)) ≤ one_segment.(max_size) ∧ ∃ j, session_can_go wal_busy j = true.
Proof.
  pose proof (demo_runtime_laws None : RuntimeLaws plain_runtime).
  destruct (wal_server_live _ _ fresh_disk true one_segment wal_busy one_segment_ok wal_busy_serving)
    as (_ & Hmax & _ & Hgo); [vm_compute; reflexivity|]. split; [exact Hmax|].
  apply (Hgo ltac:(vm_compute; reflexivity) 1%nat (mkVisit (writer "d" []) [] (Inside first_log second_writer)));
    vm_compute; reflexivity.
Defined.

(** Handles that know when they were opened. *)
Definition numbered_log : LogFile := {|
  log_file := nat * disk_file;
  write_all_at bs n f := let '(r, g) := disk_write bs n f.2 in (r, (f.1, g));
  sync_data f := (Ok tt, (f.1, mkDisk f.2.(on_file) f.2.(on_file)))
|}.
Definition open_numbered (path : list N) (t : nat) : Poll (result (log_file (LogFile := numbered_log)) io_error) :=
  Ready (Ok (t, mkDisk [] [])).
#[local] Instance numbered_handles : Handles (L := numbered_log) open_numbered.
Proof.
  refine {| opened_on := (fst : log_file (LogFile := numbered_log) → nat) |}.
  - by intros path t f [= <-].
  - intros bs n f. simpl. by destruct (disk_write _ _ _).
  - done.
Defined.
Definition two_segments : PoolConfig :=
  mkConfig 2 0 (from_secs 30) (Some (from_secs 600)) (Some (from_secs 1800)) false true.
Definition two_writers : Server (Segment (L := numbered_log)) io_error WalSession :=
  default (mkServer (sys_init false 0) ∅)
    (server_run (M := Segments (codes "/tmp/bench-wal") N.of_nat open_numbered) (G := wal_guest true) two_segments
      [Arrive 0%nat (writer "a" []); Poll_session 0%nat; Arrive 1%nat (writer "b" []); Poll_session 1%nat]
      (mkServer (sys_init false 0) ∅)).

(** Two clients have a segment each, of different names. *)
Lemma segments_apart_witness :
  size two_writers.(sv_pool).(leases) = 2%nat ∧
  NoDup (path_of (codes "/tmp/bench-wal") N.of_nat <$>
    (conn_names (opening open_numbered) two_writers.(sv_pool).(world).(idle) ++
     all_names (lease_names (opening open_numbered)) two_writers.(sv_pool).(leases))).
Proof.
  split; [vm_compute; reflexivity|].
  apply (segments_apart (codes "/tmp/bench-wal") N.of_nat open_numbered true two_segments two_writers).
  - intros t Ht. eapply N.lt_trans with 1000; [|reflexivity].
    assert (Hk : (tick (world (sv_pool two_writers)) <= 100)%nat) by (apply Nat.leb_le; vm_compute; reflexivity). lia.
  - intros t t' _ _. lia.
  - apply (server_run_reachable (M := Segments (codes "/tmp/bench-wal") N.of_nat open_numbered) (G := wal_guest true)
      two_segments wal_accepted
      [Arrive 0%nat (writer "a" []); Poll_session 0%nat; Arrive 1%nat (writer "b" []); Poll_session 1%nat]
      (mkServer (sys_init false 0) ∅)); [apply server_start|by repeat constructor|vm_compute; reflexivity].
Defined.
