(* ===== verification/FileServer.v ===== *)
(** The static-file server ([src/examples/file_server.rs]): a request names a file, the reply
    is its size and its bytes, streamed through a pooled transfer buffer. *)

From S2P Require Import Prelude Manage Text.

(** ** The file system

    [open_file] resolves a name inside the served directory. *)

Class FileSystem := {
  fs : Type;
  handle : Type;
  open_file : list N → fs → result handle io_error * fs;
  file_len : handle → fs → result N io_error * fs;
  read_at : handle → N → N → fs → result (list N) io_error * fs
}.

(** [holds h c s]: the file open as [h] reads as [c] and nobody is changing it. *)
Class FileSystemLaws (D : FileSystem) := {
  holds : handle → list N → fs → Prop;
  len_holds h c s r s' : file_len h s = (r, s') → holds h c s → r = Ok (len c) ∧ holds h c s';
  read_holds h c room n s r s' : read_at h room n s = (r, s') → holds h c s → holds h c s' ∧
    ∃ bs rest, r = Ok bs ∧ skipn (N.to_nat n) c = bs ++ rest ∧ len bs ≤ room ∧
      (bs = [] → room = 0 ∨ rest = [])
}.

(** [Buffers]: 64 KiB transfer buffers, never invalid. *)
Definition Buffers : ManageConnection Vec io_error := {|
  connect _ := Ready (Ok (with_capacity (64 * 1024)));
  is_valid _ buf := (Ready (Ok tt), buf);
  has_broken _ buf := (false, buf)
|}.

Section server.
Context `{Tcp} `{FileSystem}.

(** The client's stream, the request buffer, the disk, and the names opened so far. *)
Record Server := mkServer { peer : stream; request : Vec; disk : fs; opened : list (list N) }.

Definition send_bytes (bs : list N) : St Server bool := λ s,
  let '(r, p) := send bs s.(peer) in
  Val (match r with Ok _ => true | Err _ => false end, mkServer p s.(request) s.(disk) s.(opened)).

(** [req.clear()] and one read: [None] when the peer closed or the read failed. *)
Definition read_request : St Server (option (list N)) := λ s,
  let '(r, b, p) := read_into (mkVec [] s.(request).(capacity)) s.(peer) in
  Val (match r with Ok n => if n =? 0 then None else Some b.(contents) | Err _ => None end,
       mkServer p b s.(disk) s.(opened)).

Definition on_disk {A} (op : fs → A * fs) : St Server A := λ s,
  let '(a, d) := op s.(disk) in Val (a, mkServer s.(peer) s.(request) d s.(opened)).
Definition open_logged (name : list N) : St Server (result handle io_error) :=
  modify (λ s, mkServer s.(peer) s.(request) s.(disk) (s.(opened) ++ [name]));;
  on_disk (open_file name).

Definition is_newline (c : N) : bool := (c =? 13) || (c =? 10).

(** [s.contains(..)]. *)
Definition contains (needle hay : list N) : bool := bool_decide (is_Some (window_position needle hay)).

(** A name that stays inside the directory. *)
Definition bad_name (name : list N) : bool :=
  bool_decide (name = []) || contains (codes "/") name || contains (codes "..") name.

Definition newline : list N := [10].
Definition reply_err (why : list N) : St Server bool := send_bytes (codes "ERR " ++ why ++ newline).

(** The transfer loop: the buffer as it is given back, and whether the client is still there.
    Every round but the last moves [offset], so [size] rounds and one more are enough. *)
Fixpoint transfer (fuel : nat) (file : handle) (size offset : N) (data : Vec) : St Server (Vec * bool) :=
  match fuel with
  | O => no_fuel
  | S fuel =>
      if offset <? size then
        r ← on_disk (read_at file data.(capacity) offset);
        match r with
        | Err _ => mret (mkVec [] data.(capacity), false)
        | Ok [] => mret (mkVec [] data.(capacity), true)
        | Ok bs =>
            ok ← send_bytes bs;
            if ok : bool then transfer fuel file size (offset + len bs) (mkVec bs data.(capacity))
            else mret (mkVec bs data.(capacity), false)
        end
      else mret (data, true)
  end.

(** One request, [lease] being the answer of [local.get()]: does the connection go on, and
    the buffer given back. *)
Definition serve_request (lease : option Vec) (req : list N) : St Server (bool * option Vec) :=
  match from_utf8 req with
  | None => ok ← reply_err (codes "utf8"); mret (ok, None)
  | Some text =>
      let name := trim_end_matches is_newline text in
      if bad_name name then ok ← reply_err (codes "bad name"); mret (ok, None)
      else
        file ← open_logged name;
        match file with
        | Err e => ok ← reply_err (codes e.(message)); mret (ok, None)
        | Ok file =>
            size ← on_disk (file_len file);
            match size with
            | Err e => ok ← reply_err (codes e.(message)); mret (ok, None)
            | Ok size =>
                ok ← send_bytes (codes (pretty size) ++ newline);
                if ok : bool then
                  match lease with
                  | None => mret (false, None)
                  | Some data =>
                      r ← transfer (S (N.to_nat size)) file size 0 data;
                      mret (r.2, Some r.1)
                  end
                else mret (false, None)
            end
        end
  end.

(** [serve]: one lease per request; the buffers come back in order. *)
Fixpoint serve (leases : list (option Vec)) : St Server (list Vec) :=
  match leases with
  | [] => mret []
  | lease :: leases =>
      req ← read_request;
      match req with
      | None => mret []
      | Some req =>
          r ← serve_request lease req;
          if r.1 : bool then bufs ← serve leases; mret (option_list r.2 ++ bufs)
          else mret (option_list r.2)
      end
  end.
End server.

(** ** Lemmas *)

Lemma starts_with_self needle b : starts_with needle (needle ++ b) = true.
Proof. induction needle as [|x needle IH]; simpl; [done|]. by rewrite N.eqb_refl. Qed.

Lemma window_position_occurs needle a b : is_Some (window_position needle (a ++ needle ++ b)).
Proof.
  induction a as [|x a IH].
  - simpl. pose proof (starts_with_self needle b) as Hs. destruct (needle ++ b); cbn [window_position];
      rewrite Hs; eauto.
  - cbn [app window_position]. destruct (starts_with needle _); [eauto|].
    destruct IH as [i ->]. by eexists.
Qed.

(** A name that cannot leave the directory. *)
Definition confined (name : list N) : Prop :=
  name ≠ [] ∧ 47 ∉ name ∧ ¬ ∃ a b, name = a ++ codes ".." ++ b.

Lemma contains_false needle hay a b : contains needle hay = false → hay ≠ a ++ needle ++ b.
Proof. unfold contains. intros Hc ->. apply bool_decide_eq_false in Hc. apply Hc, window_position_occurs. Qed.

Lemma bad_name_confined name : bad_name name = false → confined name.
Proof.
  unfold bad_name. intros [[H1 H2]%orb_false_elim H3]%orb_false_elim. split_and!.
  - by apply bool_decide_eq_false in H1.
  - intros (a & b & ->)%list_elem_of_split. by destruct (contains_false _ _ a b H2).
  - intros (a & b & ->). by destruct (contains_false _ _ a b H3).
Qed.

Section server.
Context {T : Tcp} {D : FileSystem}.
Implicit Types s : Server.

(** Every name opened since is confined. *)
Definition opens_confined s s' : Prop := ∃ names, s'.(opened) = s.(opened) ++ names ∧ Forall confined names.

Lemma opens_none s s' : s'.(opened) = s.(opened) → opens_confined s s'.
Proof. intros He. exists []. by rewrite He, app_nil_r. Qed.
Lemma opens_trans s s1 s' : opens_confined s s1 → opens_confined s1 s' → opens_confined s s'.
Proof.
  intros (n & Hn & Hc) (n' & Hn' & Hc'). exists (n ++ n').
  by rewrite Hn', Hn, app_assoc, Forall_app.
Qed.

Lemma send_bytes_opened bs s : wp (send_bytes bs) (λ _ s', s'.(opened) = s.(opened)) s.
Proof. unfold wp, send_bytes. by destruct (send bs (peer s)). Qed.
Lemma on_disk_opened {A} (op : fs → A * fs) s : wp (on_disk op) (λ _ s', s'.(opened) = s.(opened)) s.
Proof. unfold wp, on_disk. by destruct (op (disk s)). Qed.
Lemma read_request_opened s : wp read_request (λ _ s', s'.(opened) = s.(opened)) s.
Proof. unfold wp, read_request. by destruct (read_into _ _) as [[r b] p]. Qed.

Lemma open_logged_opened name s :
  wp (open_logged name) (λ _ s', s'.(opened) = s.(opened) ++ [name]) s.
Proof. unfold open_logged. wp_steps. eapply wp_mono; [apply on_disk_opened|]. done. Qed.

(** Whatever the file does while it is sent, the transfer ends and gives its buffer back. *)
Lemma transfer_ends fuel file size offset data s :
  (N.to_nat (size - offset) < fuel)%nat →
  wp (transfer fuel file size offset data) (λ r s', s'.(opened) = s.(opened) ∧
    r.1.(capacity) = data.(capacity)) s.
Proof.
  revert offset data s. induction fuel as [|fuel IH]; intros offset data s Hf; [lia|].
  cbn [transfer]. destruct (N.ltb_spec offset size); [|by wp_steps].
  wp_step. wp_apply on_disk_opened as r s1 H1. destruct r as [[|b bs]|e]; [by wp_steps| |by wp_steps].
  wp_step. wp_apply send_bytes_opened as ok s2 H2. destruct ok; [|wp_steps; by split; [congruence|]].
  eapply wp_mono; [apply IH; rewrite len_cons; lia|]. intros r s3 [H3 ?]. split; [congruence|done].
Qed.

Lemma reply_err_confined {B} why (b : B) s s1 :
  opens_confined s s1 →
  wp (ok ← reply_err why; mret (ok, b)) (λ _ s', opens_confined s s') s1.
Proof.
  intros Hs. wp_step. unfold reply_err. wp_apply send_bytes_opened as ok s2 H2. wp_steps.
  eapply opens_trans; [done|]. by apply opens_none.
Qed.

Lemma serve_request_confined lease req s :
  wp (serve_request lease req) (λ _ s', opens_confined s s') s.
Proof.
  unfold serve_request. destruct (from_utf8 req) as [text|]; [|by apply reply_err_confined, opens_none].
  cbv zeta. destruct (bad_name _) eqn:Hname; [by apply reply_err_confined, opens_none|].
  wp_step. wp_apply open_logged_opened as file s1 H1.
  assert (Hs1 : opens_confined s s1).
  { eexists. split; [exact H1|]. by apply Forall_singleton, bad_name_confined. }
  destruct file as [file|e]; [|by apply reply_err_confined].
  wp_step. wp_apply on_disk_opened as size s2 H2.
  assert (Hs2 : opens_confined s s2) by (eapply opens_trans; [done|by apply opens_none]).
  destruct size as [size|e]; [|by apply reply_err_confined].
  wp_step. wp_apply send_bytes_opened as ok s3 H3.
  assert (Hs3 : opens_confined s s3) by (eapply opens_trans; [done|by apply opens_none]).
  destruct ok; [|by wp_steps]. destruct lease as [data|]; [|by wp_steps].
  wp_step. wp_apply transfer_ends as r s4 [H4 _]; [lia|]. wp_steps.
  eapply opens_trans; [done|by apply opens_none].
Qed.
End server.

Section exact.
Context {T : Tcp} {TL : TcpLaws T} {D : FileSystem} {DL : FileSystemLaws D}.
Implicit Types s : Server.

(** A file that keeps its contents is sent whole, from [offset] on, unless the client goes. *)
Lemma transfer_spec fuel file c offset data s :
  holds file c s.(disk) → 0 < data.(capacity) → offset ≤ len c →
  (N.to_nat (len c - offset) < fuel)%nat →
  wp (transfer fuel file (len c) offset data) (λ r s', r.1.(capacity) = data.(capacity) ∧
    s'.(opened) = s.(opened) ∧
    (r.2 = true → outgoing s'.(peer) = outgoing s.(peer) ++ skipn (N.to_nat offset) c)) s.
Proof.
  revert offset data s. induction fuel as [|fuel IH]; intros offset data s Hh Hcap Hle Hf; [lia|].
  cbn [transfer]. destruct (N.ltb_spec offset (len c)) as [Hlt|Hge].
  2: { wp_steps. split_and!; [done|done|]. intros _. unfold len in *.
       rewrite drop_ge by lia. by rewrite app_nil_r. }
  wp_step. unfold wp at 1, on_disk. destruct (read_at _ _ _ _) as [r d] eqn:Hr. cbn beta iota.
  destruct (read_holds _ _ _ _ _ _ _ Hr Hh) as (Hh' & bs & rest & -> & Hskip & Hroom & Hnil).
  destruct bs as [|b bs].
  { destruct Hnil as [| ->]; [done|lia|]. simpl in Hskip. apply (f_equal length) in Hskip.
    rewrite length_skipn in Hskip. unfold len in *. simpl in Hskip. lia. }
  wp_step. unfold wp at 1, send_bytes. destruct (send _ _) as [w p] eqn:Hw. cbn beta iota.
  destruct w as [[]|e]; [|by wp_steps].
  assert (Hlen : len c - offset = len (b :: bs) + len rest).
  { apply (f_equal length) in Hskip. rewrite length_skipn, length_app in Hskip. unfold len in *. lia. }
  rewrite len_cons in *. eapply wp_mono; [apply IH; simpl; try done; lia|].
  intros r s' (Hc & Ho & Hsent). simpl in *. split_and!; [done|done|]. intros Hok.
  rewrite (Hsent Hok), (send_writes _ _ _ Hw), Hskip, <-app_assoc. do 2 f_equal.
  rewrite N2Nat.inj_add, <-drop_drop, Hskip.
  replace (N.to_nat (len bs + 1)) with (length (b :: bs)) by (unfold len; simpl; lia).
  change (b :: bs ++ rest) with ((b :: bs) ++ rest). by rewrite drop_app_length.
Qed.
End exact.

(** ** The theorems *)

(** Requests stay inside the directory.  Whatever clients ask for, [serve] ends, and every
    name it opens is a plain one: not empty, no slash, no two dots in a row. *)
Theorem names_confined {T : Tcp} {D : FileSystem} leases (s : Server) :
  ∃ bufs s' names, serve leases s = Val (bufs, s') ∧
    s'.(opened) = s.(opened) ++ names ∧ Forall confined names.
Proof.
  enough (wp (serve leases) (λ _ s', opens_confined s s') s) as Hw.
  { unfold wp in Hw. destruct (serve leases s) as [[bufs s']| |]; [|done..].
    destruct Hw as (names & ? & ?). by exists bufs, s', names. }
  revert s. induction leases as [|lease leases IH]; intros s; cbn [serve]; [wp_steps; by apply opens_none|].
  wp_step. wp_apply read_request_opened as req s1 H1.
  assert (Hs1 : opens_confined s s1) by by apply opens_none.
  destruct req as [req|]; [|by wp_steps]. wp_step.
  wp_apply serve_request_confined as r s2 H2.
  assert (Hs2 : opens_confined s s2) by by eapply opens_trans.
  destruct r.1; [|by wp_steps]. wp_step. eapply wp_mono; [apply IH|]. intros bufs s3 H3. wp_steps.
  by eapply opens_trans.
Qed.

(** A file is sent whole.  For a good name that opens on a file which keeps its contents,
    a reply that reaches its end is the size in decimal, a newline and the contents, and the
    transfer buffer comes back with the room it had. *)
Theorem file_sent_whole {T : Tcp} {TL : TcpLaws T} {D : FileSystem} {DL : FileSystemLaws D}
    (data : Vec) text file c d (s : Server) :
  Forall is_char text → bad_name (trim_end_matches is_newline text) = false →
  open_file (trim_end_matches is_newline text) s.(disk) = (Ok file, d) → holds file c d →
  0 < data.(capacity) →
  ∃ go_on given s', serve_request (Some data) (as_bytes text) s = Val ((go_on, given), s') ∧
    (go_on = true →
       outgoing s'.(peer) = outgoing s.(peer) ++ (codes (pretty (len c)) ++ newline) ++ c ∧
       ∃ buf, given = Some buf ∧ buf.(capacity) = data.(capacity)).
Proof.
  intros Htext Hname Hopen Hh Hcap.
  enough (wp (serve_request (Some data) (as_bytes text)) (λ r s', r.1 = true →
    outgoing s'.(peer) = outgoing s.(peer) ++ (codes (pretty (len c)) ++ newline) ++ c ∧
    ∃ buf, r.2 = Some buf ∧ buf.(capacity) = data.(capacity)) s) as Hw.
  { unfold wp in Hw. destruct (serve_request _ _ s) as [[[go given] s']| |]; [|done..].
    by exists go, given, s'. }
  unfold serve_request. rewrite from_utf8_as_bytes by done. cbv zeta. rewrite Hname.
  unfold open_logged. wp_steps. unfold wp at 1, on_disk. cbn [disk peer request opened].
  rewrite Hopen. cbn beta iota. wp_step. unfold wp at 1. cbn [disk peer request opened].
  destruct (file_len file d) as [size d'] eqn:Hsize.
  destruct (len_holds _ _ _ _ _ Hsize Hh) as [-> Hh']. cbn beta iota. wp_step.
  unfold wp at 1, send_bytes. cbn [disk peer request opened].
  destruct (send _ (peer s)) as [w p] eqn:Hw. destruct w as [[]|e]; [|by wp_steps].
  wp_step. eapply wp_mono; [apply (transfer_spec _ file c 0 data); try done; lia|].
  intros [buf ok] s' (Hc & _ & Hsent). wp_steps. simpl in *. intros Hok. split; [|by exists buf].
  by rewrite (Hsent Hok), (send_writes _ _ _ Hw), <-app_assoc.
Qed.

(** ** Concrete files *)

(** One file, "a.txt", that shows [shown] bytes when its length is asked and [kept] bytes when
    it is read. *)
Record one_file := mkOneFile { shown : N; kept : list N }.
Definition one_file_disk : FileSystem := {|
  fs := one_file;
  handle := unit;
  open_file name d :=
    (if bool_decide (name = codes "a.txt") then Ok tt else Err (mkIoError (OtherKind 2) "not found"), d);
  file_len _ d := (Ok d.(shown), d);
  read_at _ room n d := (Ok (firstn (N.to_nat room) (skipn (N.to_nat n) d.(kept))), d)
|}.

#[export] Instance one_file_laws : FileSystemLaws one_file_disk.
Proof.
  refine {| holds := λ (_ : handle (FileSystem:=one_file_disk)) c (d : fs (FileSystem:=one_file_disk)),
              d.(kept) = c ∧ d.(shown) = len c |}.
  - by intros h c d r d' [= <- <-] [<- ->].
  - intros h c room n d r d' [= <- <-] [<- Hs]. split; [done|].
    eexists _, (skipn (N.to_nat room) (skipn (N.to_nat n) (kept d))). split_and!; [done| | |].
    + by rewrite firstn_skipn.
    + unfold len. rewrite length_firstn. lia.
    + intros Hnil. destruct (skipn (N.to_nat n) (kept d)) as [|b bs]; [right; apply skipn_nil|left].
      by destruct (N.to_nat room) eqn:?; [lia|].
Defined.

#[local] Existing Instance script_tcp.
#[local] Existing Instance one_file_disk.

Definition demo_server (shown : N) (kept : list N) : Server :=
  mkServer (mkScript (codes "a.txt" ++ [10]) [] [] []) (with_capacity 1024) (mkOneFile shown kept) [].

Lemma file_sent_whole_witness :
  ∃ go_on given s',
    serve_request (Some (with_capacity 4)) (codes "a.txt" ++ [10]) (demo_server 6 (codes "abcdef")) =
      Val ((go_on, given), s') ∧
    (go_on = true → outgoing s'.(peer) = codes "6" ++ [10] ++ codes "abcdef").
Proof.
  destruct (file_sent_whole (T := script_tcp) (D := one_file_disk) (with_capacity 4) (codes "a.txt" ++ [10]) tt (codes "abcdef")
    (mkOneFile 6 (codes "abcdef")) (demo_server 6 (codes "abcdef"))) as (go & given & s' & He & Hs).
  - apply (bool_decide_unpack _). vm_compute. exact I.
  - vm_compute. reflexivity.
  - vm_compute. reflexivity.
  - by split.
  - reflexivity.
  - exists go, given, s'. split; [exact He|]. intros Hgo. by destruct (Hs Hgo) as [-> _].
Defined.

(** A file cut short between the size header and the transfer: the client is promised six
    bytes, gets three, and the connection goes on to the next request. *)
Lemma short_file_unnoticed :
  ∃ given s',
    serve_request (Some (with_capacity 4)) (codes "a.txt" ++ [10]) (demo_server 6 (codes "abc")) =
      Val ((true, given), s') ∧
    outgoing s'.(peer) = codes "6" ++ [10] ++ codes "abc".
Proof. eexists _, _. split; vm_compute; reflexivity. Qed.
