(* ===== verification/FilesServer.v ===== *)
(** The static-file server at work: clients of [src/examples/file_server.rs] served at once by
    one thread, a transfer buffer leased for each file sent.

    Sessions share the disk, which others change too: what the disk answers a session is up to
    that session's [disk], so that it may answer anything at any time. *)

From stdpp Require Import gmap.
From S2P Require Import Prelude Manage Builder Metrics Store Waiters Inner Local Futures Balance System Scenario Clients Text Typing Sessions FileServer.

(** Where [serve] is suspended: not begun; reading a request; refusing one; opening the file and
    asking for its size; sending the header; in [local.get().await]; reading a piece at [offset]
    into the buffer, and sending it, the next piece being at [offset].  [Served] is after its
    return. *)
Inductive file_stage {D : FileSystem} :=
| FileArrived | Requesting | Refusing (why : list N) | Opening (name : list N) | Sizing (file : handle)
| Heading (file : handle) (size : N) | Borrowing (file : handle) (size : N)
| Fetching (file : handle) (size offset : N) (data : Vec)
| Sending (file : handle) (size offset : N) (data : Vec) | Served.
Record FileVisit {T : Tcp} {D : FileSystem} := mkFileVisit { file_at : file_stage; work : FileServer.Server }.
Arguments mkFileVisit {T D} _ _.

Section files.
Context {T : Tcp} {D : FileSystem}.
Abbreviation Server := FileServer.Server.
Implicit Types (s : FileVisit) (w : Server).

(** A stretch that is one of [serve]'s steps. *)
Definition working_on {A B} (step : St Server A) w (next : A → Server → B) : outcome B :=
  '(a, w) ← step w; Val (next a w).
Definition go_on (st : file_stage) w : want FileVisit := Go_on (mkFileVisit st w).
(** The name in a request, if it may be opened. *)
Definition asked_name (req : list N) : file_stage :=
  match from_utf8 req with
  | None => Refusing (codes "utf8")
  | Some text =>
      let name := trim_end_matches is_newline text in
      if bad_name name then Refusing (codes "bad name") else Opening name
  end.

Definition files_outside s : outcome (want FileVisit) :=
  let w := s.(work) in
  match s.(file_at) with
  | Requesting =>
      working_on read_request w (λ req, match req with
        | None => λ w, Leave (mkFileVisit Served w)
        | Some req => go_on (asked_name req)
        end)
  | Refusing why =>
      working_on (reply_err why) w (λ ok w,
        if ok : bool then go_on Requesting w else Leave (mkFileVisit Served w))
  | Opening name =>
      working_on (open_logged name) w (λ file, match file with
        | Err e => go_on (Refusing (codes e.(message)))
        | Ok file => go_on (Sizing file)
        end)
  | Sizing file =>
      working_on (on_disk (file_len file)) w (λ size, match size with
        | Err e => go_on (Refusing (codes e.(message)))
        | Ok size => go_on (Heading file size)
        end)
  | Heading file size =>
      working_on (send_bytes (codes (pretty size) ++ newline)) w (λ ok w,
        if ok : bool then Ask_for (mkFileVisit (Borrowing file size) w) else Leave (mkFileVisit Served w))
  | _ => Val (go_on Requesting (FileServer.mkServer w.(peer) (with_capacity 1024) w.(disk) w.(opened)))
  end.

(** The head of the transfer loop; [mem::take] has left an empty buffer in the lease. *)
Definition next_piece (file : handle) (size offset : N) (data : Vec) w : stay FileVisit * Vec :=
  if offset <? size then (Keep (mkFileVisit (Fetching file size offset data) w), with_capacity 0)
  else (Give_back (mkFileVisit Requesting w), data).

Definition files_inside s (lease : Vec) : outcome (stay FileVisit * Vec) :=
  let w := s.(work) in
  match s.(file_at) with
  | Borrowing file size => Val (next_piece file size 0 lease w)
  | Fetching file size offset data =>
      working_on (on_disk (read_at file data.(capacity) offset)) w (λ r w,
        let empty := mkVec [] data.(capacity) in
        match r with
        | Err _ => (Finish (mkFileVisit Served w), empty)
        | Ok [] => (Give_back (mkFileVisit Requesting w), empty)
        | Ok bs => (Keep (mkFileVisit (Sending file size (offset + len bs) (mkVec bs data.(capacity))) w), lease)
        end)
  | Sending file size offset data =>
      working_on (send_bytes data.(contents)) w (λ ok w,
        if ok : bool then next_piece file size offset data w else (Finish (mkFileVisit Served w), data))
  | _ => Val (Finish s, lease)
  end.

#[export] Instance files_guest : Guest Vec FileVisit := {|
  outside := files_outside;
  turned_away s := (s, true);
  inside := files_inside
|}.

(** A connection just accepted. *)
Definition file_arrived s : Prop := s.(file_at) = FileArrived.

Context {TL : TcpLaws T}.

Definition big (buf : Vec) : Prop := buf.(capacity) = 64 * 1024.
Definition file_fit s (lease : option Vec) : Prop :=
  match s.(file_at), lease with
  | FileArrived, None | Requesting, None | Refusing _, None | Opening _, None | Sizing _, None | Heading _ _, None => True
  | Borrowing _ _, Some buf => big buf
  | Fetching _ size offset data, Some _ => big data ∧ offset < size
  | Sending _ _ _ data, Some _ => big data
  | _, _ => False
  end.

(** What is left of a session: its client's bytes and the steps of a request; and the pieces of
    the file on its way. *)
Definition requests_left (x : FileVisit * option Vec) : nat :=
  8 * N.to_nat (len (incoming x.1.(work).(peer))) +
  match x.1.(file_at), x.2 with
  | Opening _, _ => 7
  | Sizing _, _ => 6
  | Heading _ _, _ => 5
  | Borrowing _ _, None => 4
  | Borrowing _ _, Some _ => 3
  | Fetching _ _ _ _, _ | Sending _ _ _ _, _ => 2
  | FileArrived, _ | Refusing _, _ => 1
  | Requesting, _ | Served, _ => 0
  end.
Definition pieces_left (x : FileVisit * option Vec) : nat :=
  match x.1.(file_at) with
  | Fetching _ size offset _ => 2 * N.to_nat (size - offset) + 1
  | Sending _ size offset _ => 2 * N.to_nat (size - offset) + 2
  | _ => 0
  end.

(** What the steps leave of the client's bytes. *)
Lemma send_bytes_left bs w :
  ∃ ok w', send_bytes bs w = Val (ok, w') ∧ incoming w'.(peer) = incoming w.(peer).
Proof.
  unfold send_bytes. destruct (send bs (peer w)) as [r p] eqn:Hs. eexists _, _. split; [done|].
  by destruct (send_reads _ _ _ _ Hs).
Qed.
Lemma on_disk_left {A} (op : fs → A * fs) w : ∃ a w', on_disk op w = Val (a, w') ∧ w'.(peer) = w.(peer).
Proof. unfold on_disk. destruct (op (disk w)) as [a d]. by eexists _, _. Qed.
Lemma open_logged_left name w : ∃ a w', open_logged name w = Val (a, w') ∧ w'.(peer) = w.(peer).
Proof.
  unfold open_logged, modify. erewrite bind_val by reflexivity.
  destruct (on_disk_left (open_file name) (FileServer.mkServer w.(peer) w.(request) w.(disk) (w.(opened) ++ [name])))
    as (a & w' & H & Hp). by exists a, w'.
Qed.
Lemma read_request_left w :
  ∃ req w', read_request w = Val (req, w') ∧
    (req ≠ None → (N.to_nat (len (incoming w'.(peer))) < N.to_nat (len (incoming w.(peer))))%nat).
Proof.
  unfold read_request. destruct (read_into _ (peer w)) as [[r b] p] eqn:Hr. eexists _, _. split; [done|].
  destruct (read_into_spec _ _ _ _ _ Hr) as (_ & _ & _ & Hm). destruct r as [n|e]; [|done].
  destruct (N.eqb_spec n 0) as [|Hn]; [done|]. intros _. destruct Hm as (bs & -> & _ & Hi & _). simpl.
  rewrite Hi, len_app. lia.
Qed.

#[export] Instance big_kept : TypedManager Buffers big.
Proof. split; [|done..]. by intros t c [= <-]. Qed.

Lemma next_piece_spec file size offset data w x :
  big data → (3 + 8 * N.to_nat (len (incoming w.(peer))) ≤ requests_left x)%nat ∨
    ((2 + 8 * N.to_nat (len (incoming w.(peer))))%nat = requests_left x ∧
     (2 * N.to_nat (size - offset) + 2 ≤ pieces_left x)%nat) →
  let '(r, c) := next_piece file size offset data w in
  match r with
  | Keep s' => file_fit s' (Some c) ∧ fewer_then requests_left pieces_left (s', Some c) x
  | Give_back s' => returnable (M := Buffers) big c ∧ file_fit s' None ∧ fewer_then requests_left pieces_left (s', None) x
  | Finish _ => returnable (M := Buffers) big c
  end.
Proof.
  intros Hb Hx. unfold next_piece. destruct (N.ltb_spec offset size) as [Hlt|].
  - split; [by split|]. unfold fewer_then. unfold requests_left at 1 3, pieces_left at 1. cbn [fst snd file_at work].
    destruct Hx as [Hx|[Hx Hp]]; [left; lia|right; lia].
  - split; [by apply typed_returnable; [apply _|]|]. split; [done|]. left. unfold requests_left at 1.
    cbn [fst snd file_at work]. destruct Hx as [Hx|[Hx _]]; lia.
Qed.

#[export] Instance files_laws : GuestLaws Buffers files_guest file_arrived big.
Proof.
  apply (Build_GuestLaws _ _ _ _ _ _ _ file_fit _ (fewer_then_wf requests_left pieces_left) _).
  - intros [st w] Hs. unfold file_arrived in Hs. simpl in Hs. by subst st.
  - intros [st w] Hf. unfold outside, files_guest, files_outside, working_on. cbn [file_at work].
    destruct st as [| |why|name|file|file size|file size|file size offset data|file size offset data|]; try done.
    + eexists. split; [done|]. split; [done|]. left. unfold requests_left. simpl. lia.
    + destruct (read_request_left w) as (req & w' & -> & Hl). eexists. split; [done|].
      destruct req as [req|]; [|done]. specialize (Hl ltac:(done)).
      assert (Hn : file_fit (mkFileVisit (asked_name req) w') None ∧
        (requests_left (mkFileVisit (asked_name req) w', None) ≤ 7 + 8 * N.to_nat (len (incoming w'.(peer))))%nat).
      { unfold asked_name, file_fit, requests_left. destruct (from_utf8 req); simpl; [|by split; [|lia]].
        destruct (bad_name _); simpl; by split; [|lia]. }
      split; [apply Hn|]. left. unfold requests_left at 2. cbn [fst snd file_at work]. lia.
    + destruct (send_bytes_left (codes "ERR " ++ why ++ newline) w) as (ok & w' & Hs & Hi). unfold reply_err. rewrite Hs.
      eexists. split; [done|]. destruct ok; [|done]. split; [done|]. left. unfold requests_left. simpl. rewrite Hi. lia.
    + destruct (open_logged_left name w) as (r & w' & -> & Hp). eexists. split; [done|].
      destruct r as [file|e]; (split; [done|]; left; unfold requests_left; simpl; rewrite Hp; lia).
    + destruct (on_disk_left (file_len file) w) as (r & w' & -> & Hp). eexists. split; [done|].
      destruct r as [size|e]; (split; [done|]; left; unfold requests_left; simpl; rewrite Hp; lia).
    + destruct (send_bytes_left (codes (pretty size) ++ newline) w) as (ok & w' & -> & Hi). eexists. split; [done|].
      destruct ok; [|done]. split; [split; [|done]|].
      * intros buf Hb. split; [done|]. left. unfold requests_left. simpl. lia.
      * left. unfold requests_left. simpl. rewrite Hi. lia.
  - intros [st w] lease Hf. unfold inside, files_guest, files_inside, working_on. cbn [file_at work].
    destruct st as [| |why|name|file|file size|file size|file size offset data|file size offset data|]; try done.
    + pose proof (next_piece_spec file size 0 lease w (mkFileVisit (Borrowing file size) w, Some lease) Hf) as Hn.
      destruct (next_piece file size 0 lease w) as [r c]. eexists r, c. split; [done|]. apply Hn. left.
      unfold requests_left. simpl. lia.
    + destruct Hf as [Hb Ho]. destruct (on_disk_left (read_at file (capacity data) offset) w) as (r & w' & -> & Hp).
      destruct r as [[|b bs]|e]; eexists _, _; (split; [done|]); simpl.
      * split; [by apply typed_returnable; [apply _|]|]. split; [done|]. left. unfold requests_left. simpl. rewrite Hp. lia.
      * split; [done|]. right. unfold requests_left, pieces_left. simpl. rewrite Hp, len_cons. lia.
      * by apply typed_returnable; [apply _|].
    + destruct (send_bytes_left (contents data) w) as (ok & w' & -> & Hi). cbn [mbind outcome_bind]. destruct ok.
      * pose proof (next_piece_spec file size offset data w' (mkFileVisit (Sending file size offset data) w, Some lease) Hf) as Hn.
        destruct (next_piece file size offset data w') as [r c]. eexists r, c. split; [done|]. apply Hn. right.
        unfold requests_left, pieces_left. simpl. rewrite Hi. lia.
      * eexists _, _. split; [done|]. by apply typed_returnable; [apply _|].
Defined.
End files.

(** ** The same as [serve] *)

Section alone.
Context {T : Tcp} {D : FileSystem}.
Abbreviation Server := FileServer.Server.
Implicit Types (s : FileVisit) (w : Server) (lease : option Vec) (ls : list (option Vec)).

(** [serve] in its parts: from the end of a request, and from where one is. *)
Definition then_serve ls (x : St Server (bool * option Vec)) : St Server (list Vec) :=
  r ← x;
  if r.1 : bool then bufs ← serve ls; mret (option_list r.2 ++ bufs) else mret (option_list r.2).
Definition refuse (why : list N) : St Server (bool * option Vec) := ok ← reply_err why; mret (ok, None).
Definition send_whole lease (file : handle) (size : N) : St Server (bool * option Vec) :=
  match lease with
  | None => mret (false, None)
  | Some data => r ← transfer (S (N.to_nat size)) file size 0 data; mret (r.2, Some r.1)
  end.
Definition from_header lease (file : handle) (size : N) : St Server (bool * option Vec) :=
  ok ← send_bytes (codes (pretty size) ++ newline);
  if ok : bool then send_whole lease file size else mret (false, None).
Definition from_file lease (file : handle) : St Server (bool * option Vec) :=
  size ← on_disk (file_len file);
  match size with Err e => refuse (codes e.(message)) | Ok size => from_header lease file size end.
Definition from_name lease (name : list N) : St Server (bool * option Vec) :=
  file ← open_logged name;
  match file with Err e => refuse (codes e.(message)) | Ok file => from_file lease file end.

(** From where a session without a lease is, [lease] being what its next [get] brings. *)
Definition stage_rest (st : file_stage) lease : St Server (bool * option Vec) :=
  match st with
  | Refusing why => refuse why
  | Opening name => from_name lease name
  | Sizing file => from_file lease file
  | Heading file size => from_header lease file size
  | Borrowing file size => send_whole lease file size
  | _ => mret (false, None)
  end.
Definition files_rest (st : file_stage) lease ls : St Server (list Vec) :=
  match st with
  | Requesting => serve (lease :: ls)
  | FileArrived => λ w, serve (lease :: ls) (FileServer.mkServer w.(peer) (with_capacity 1024) w.(disk) w.(opened))
  | _ => then_serve ls (stage_rest st lease)
  end.
(** From within the transfer. *)
Definition pieces_rest (fuel : nat) (st : file_stage) (buf : Vec) : St Server (bool * option Vec) :=
  match st with
  | Fetching file size offset data => r ← transfer fuel file size offset data; mret (r.2, Some r.1)
  | Sending file size offset data =>
      ok ← send_bytes data.(contents);
      if ok : bool then r ← transfer fuel file size offset data; mret (r.2, Some r.1) else mret (false, Some data)
  | _ => stage_rest st (Some buf)
  end.

Lemma serve_request_name lease req : serve_request lease req = stage_rest (asked_name req) lease.
Proof.
  unfold serve_request, asked_name. destruct (from_utf8 req) as [text|]; [|done].
  by destruct (bad_name _).
Qed.

Lemma serve_asked lease ls w :
  serve (lease :: ls) w =
    match read_request w with
    | Val (Some req, w') => then_serve ls (stage_rest (asked_name req) lease) w'
    | Val (None, w') => Val ([], w')
    | Panic => Panic
    | NoFuel => NoFuel
    end.
Proof.
  cbn [serve]. unfold mbind at 1, St_bind at 1. destruct (read_request w) as [[[req|] w']| |]; [|done..].
  by rewrite serve_request_name.
Qed.

Lemma then_serve_val ls x b o w w' :
  x w = Val ((b, o), w') →
  then_serve ls x w = (if b : bool then (bufs ← serve ls; mret (option_list o ++ bufs)) else mret (option_list o)) w'.
Proof. intros Hx. unfold then_serve. by rewrite (bind_val _ _ _ _ _ Hx). Qed.

Lemma then_serve_at ls x y w w' : x w = y w' → then_serve ls x w = then_serve ls y w'.
Proof. intros Hx. unfold then_serve, mbind, St_bind. by rewrite Hx. Qed.

(** The transfer, one piece on. *)
Lemma fetch_rest fuel file size offset data buf w :
  pieces_rest (S fuel) (Fetching file size offset data) buf w =
    if offset <? size then
      match on_disk (read_at file data.(capacity) offset) w with
      | Val (Ok [], w') => Val ((true, Some (mkVec [] data.(capacity))), w')
      | Val (Ok bs, w') => pieces_rest fuel (Sending file size (offset + len bs) (mkVec bs data.(capacity))) buf w'
      | Val (Err _, w') => Val ((false, Some (mkVec [] data.(capacity))), w')
      | Panic => Panic
      | NoFuel => NoFuel
      end
    else Val ((true, Some data), w).
Proof.
  cbn [pieces_rest transfer]. destruct (offset <? size); [|done]. unfold mbind at 1 2, St_bind at 1 2.
  destruct (on_disk _ w) as [[[[|b bs]|e] w']| |]; [done| |done..]. cbn [contents].
  unfold mbind, St_bind. by destruct (send_bytes (b :: bs) w') as [[[] w'']| |].
Qed.
Lemma send_rest fuel file size offset data buf w :
  pieces_rest fuel (Sending file size offset data) buf w =
    match send_bytes data.(contents) w with
    | Val (true, w') => pieces_rest fuel (Fetching file size offset data) buf w'
    | Val (false, w') => Val ((false, Some data), w')
    | Panic => Panic
    | NoFuel => NoFuel
    end.
Proof. cbn [pieces_rest]. unfold mbind at 1, St_bind at 1. by destruct (send_bytes _ w) as [[[] w']| |]. Qed.

Definition fuel_for (st : file_stage) (fuel : nat) : Prop :=
  match st with
  | Fetching _ size offset _ | Sending _ size offset _ => (N.to_nat (size - offset) < fuel)%nat
  | _ => True
  end.

(** The end of a piece: the loop goes on, or the buffer goes back and the connection goes on. *)
Lemma next_piece_rest fuel file size offset data buf w :
  (N.to_nat (size - offset) < fuel)%nat →
  match next_piece file size offset data w with
  | (Keep s, _) => s = mkFileVisit (Fetching file size offset data) w
  | (Give_back s, buf') => s = mkFileVisit Requesting w ∧ buf' = data ∧
      pieces_rest fuel (Fetching file size offset data) buf w = Val ((true, Some data), w)
  | (Finish _, _) => False
  end.
Proof.
  intros Hf. unfold next_piece. destruct (N.ltb_spec offset size) as [|Hge]; [done|]. split_and!; [done..|].
  destruct fuel as [|fuel]; [lia|]. rewrite fetch_rest. by rewrite (proj2 (N.ltb_ge _ _) Hge).
Qed.

Context {TL : TcpLaws T}.

(** What [get] answered a session, one entry for each request it served, those that needed no
    buffer included. *)
Definition answers (l : list (option (Vec * Vec))) : list (option Vec) := (λ o : option (Vec * Vec), fst <$> o) <$> l.

(** One stretch within the loan. *)
Lemma inside_rest fuel st w c r buf :
  file_fit (mkFileVisit st w) (Some c) → fuel_for st fuel → files_inside (mkFileVisit st w) c = Val (r, buf) →
  match r with
  | Keep s => ∃ fuel', fuel_for s.(file_at) fuel' ∧
      pieces_rest fuel st c w = pieces_rest fuel' s.(file_at) buf s.(work)
  | Give_back s => s.(file_at) = Requesting ∧ pieces_rest fuel st c w = Val ((true, Some buf), s.(work))
  | Finish s => pieces_rest fuel st c w = Val ((false, Some buf), s.(work))
  end.
Proof.
  unfold files_inside, working_on. cbn [file_at work].
  destruct st as [| |why|name|file|file size|file size|file size offset data|file size offset data|]; intros Hfit Hf Hx; try done.
  - injection Hx as Hx. assert (Hf' : (N.to_nat (size - 0) < S (N.to_nat size))%nat) by lia.
    pose proof (next_piece_rest _ file size 0 c c w Hf') as Hn. rewrite Hx in Hn.
    destruct r as [s|s|s]; [subst s|destruct Hn as (-> & -> & Hn)|done]; cbn [file_at work].
    + exists (S (N.to_nat size)). by split.
    + by split.
  - destruct Hfit as [_ Ho]. cbn [fuel_for] in Hf. destruct fuel as [|fuel]; [lia|].
    rewrite fetch_rest, (proj2 (N.ltb_lt _ _) Ho).
    destruct (on_disk _ w) as [[[[|b bs]|e] w']| |]; simpl in Hx; [| | |done..]; injection Hx as <- <-; [done| |done].
    exists fuel. split; [|done]. cbn [file_at fuel_for]. rewrite len_cons. lia.
  - cbn [fuel_for] in Hf. rewrite send_rest.
    destruct (send_bytes _ w) as [[[] w']| |]; cbn [mbind outcome_bind] in Hx; [|by injection Hx as <- <-|done..].
    injection Hx as Hx. pose proof (next_piece_rest _ file size offset data c w' Hf) as Hn. rewrite Hx in Hn.
    destruct r as [s|s|s]; [subst s|destruct Hn as (-> & -> & Hn)|done]; cbn [file_at work]; [|by split].
    by exists fuel.
Qed.

(** One stretch without one. *)
Lemma outside_rest st w r :
  file_fit (mkFileVisit st w) None → files_outside (mkFileVisit st w) = Val r →
  match r with
  | Go_on s =>
      (∀ lease ls, files_rest st lease ls w = files_rest s.(file_at) lease ls s.(work)) ∨
      (∀ lease lease' ls, files_rest st lease (lease' :: ls) w = files_rest s.(file_at) lease' ls s.(work))
  | Ask_for s => ∃ file size, s.(file_at) = Borrowing file size ∧
      ∀ lease ls, files_rest st lease ls w = then_serve ls (send_whole lease file size) s.(work)
  | Leave s => files_rest st None [] w = Val ([], s.(work))
  end.
Proof.
  unfold files_outside, working_on. cbn [file_at work].
  destruct st as [| |why|name|file|file size|file size|file size offset data|file size offset data|]; intros Hfit Hx; try done.
  - injection Hx as <-. by left.
  - destruct (read_request w) as [[[req|] w']| |] eqn:Hr; simpl in Hx; [| |done..]; injection Hx as <-.
    + left. intros lease ls. cbn [files_rest file_at work]. rewrite serve_asked, Hr.
      unfold asked_name. destruct (from_utf8 req); [|done]. by destruct (bad_name _).
    + cbn [files_rest work]. by rewrite serve_asked, Hr.
  - destruct (reply_err why w) as [[ok w']| |] eqn:Hr; simpl in Hx; [|done..]. injection Hx as <-.
    assert (Hs : ∀ ls, files_rest (Refusing why) None ls w = then_serve ls (mret (ok, None)) w').
    { intros ls. apply then_serve_at. unfold stage_rest, refuse. by rewrite (bind_val _ _ _ _ _ Hr). }
    destruct ok; cbn [go_on].
    + right. intros lease lease' ls. change (files_rest (Refusing why) lease (lease' :: ls) w)
        with (files_rest (Refusing why) None (lease' :: ls) w). rewrite Hs. cbn [file_at work files_rest].
      unfold then_serve. erewrite bind_val by reflexivity. cbn [fst snd option_list option_rect app].
      unfold mbind, St_bind. by destruct (serve (lease' :: ls) w') as [[bufs w'']| |].
    + by rewrite Hs.
  - destruct (open_logged name w) as [[[file|e] w']| |] eqn:Hr; simpl in Hx; [| |done..]; injection Hx as <-;
      left; intros lease ls; apply then_serve_at; unfold stage_rest, from_name; by rewrite (bind_val _ _ _ _ _ Hr).
  - destruct (on_disk (file_len file) w) as [[[size|e] w']| |] eqn:Hr; simpl in Hx; [| |done..]; injection Hx as <-;
      left; intros lease ls; apply then_serve_at; unfold stage_rest, from_file; by rewrite (bind_val _ _ _ _ _ Hr).
  - destruct (send_bytes _ w) as [[ok w']| |] eqn:Hr; cbn [mbind outcome_bind] in Hx; [|done..]. injection Hx as <-.
    destruct ok.
    + exists file, size. split; [done|]. intros lease ls. apply then_serve_at. unfold stage_rest, from_header.
      by rewrite (bind_val _ _ _ _ _ Hr).
    + cbn [files_rest work]. rewrite (then_serve_val [] _ false None w w'); [reflexivity|].
      unfold stage_rest, from_header. by rewrite (bind_val _ _ _ _ _ Hr).
Qed.

Lemma files_alone p l r : way big p l r → ∀ s', r = Ended s' →
  match p with
  | Without s => file_fit s None → ∃ lease ls, sublist (answers l) (lease :: ls) ∧
      files_rest s.(file_at) lease ls s.(work) = Val (given_back l, s'.(work))
  | Wants s => ∀ file size, s.(file_at) = Borrowing file size → ∃ lease ls, sublist (answers l) (lease :: ls) ∧
      then_serve ls (send_whole lease file size) s.(work) = Val (given_back l, s'.(work))
  | Within c0 s c => file_fit s (Some c) → ∃ c' l' ls, l = Some (c0, c') :: l' ∧ sublist (answers l') ls ∧
      ∀ fuel, fuel_for s.(file_at) fuel → then_serve ls (pieces_rest fuel s.(file_at) c) s.(work) = Val (c' :: given_back l', s'.(work))
  | Ended s => l = [] ∧ s = s'
  end.
Proof.
  revert p l r. refine (way_ind_front big _ _ _); [by intros r s' ->|].
  intros p e q l r Hm Hway IH s' ->. specialize (IH s' eq_refl).
  pose proof (fit_outside (GuestLaws := files_laws)) as Hout. pose proof (fit_inside (GuestLaws := files_laws)) as Hin.
  destruct Hm as [s x Hx|s x Hx|s x Hx|s c Hc|s x Hx|s x Hx|c0 s c x c' Hx|c0 s c x c' Hx|c0 s c x c' Hx];
    unfold option_list; cbn [option_rect app]; try destruct s as [st w].
  - intros Hf. destruct (Hout _ Hf) as (y & Hy & Hnext). rewrite Hx in Hy. injection Hy as <-.
    destruct (IH (proj1 Hnext)) as (lease & ls & Hsub & Hrun).
    destruct (outside_rest st w _ Hf Hx) as [Hs|Hs].
    + exists lease, ls. split; [done|]. by rewrite <-Hrun; apply Hs.
    + exists None, (lease :: ls). split; [by apply sublist_cons|]. by rewrite <-Hrun; apply Hs.
  - intros Hf. destruct (outside_rest st w _ Hf Hx) as (file & size & Hst & Hs).
    destruct (IH file size Hst) as (lease & ls & Hsub & Hrun). exists lease, ls. split; [done|]. by rewrite <-Hrun; apply Hs.
  - intros Hf. destruct IH as [-> ->]. exists None, []. split; [apply sublist_nil_l|]. exact (outside_rest st w _ Hf Hx).
  - intros file size Hst. simpl in Hst. subst st. destruct IH as (c' & l' & ls & -> & Hsub & Hrun); [done|].
    exists (Some c), ls. split; [by apply sublist_skip|]. exact (Hrun 0%nat I).
  - done.
  - injection Hx as <-. destruct IH as [-> <-]. intros file size _. exists None, []. split; [done|done].
  - intros Hf. destruct (Hin _ _ Hf) as (y & z & Hy & Hnext). rewrite Hx in Hy. injection Hy as <- <-.
    destruct (IH (proj1 Hnext)) as (c1 & l' & ls & -> & Hsub & Hrun). exists c1, l', ls. split; [done|]. split; [done|].
    intros fuel Hfu. destruct (inside_rest fuel st w c _ _ Hf Hfu Hx) as (fuel' & Hfu' & Hr).
    rewrite <-(Hrun fuel' Hfu'). by apply then_serve_at.
  - intros Hf. destruct (Hin _ _ Hf) as (y & z & Hy & Hnext). rewrite Hx in Hy. injection Hy as <- <-.
    destruct (IH (proj1 (proj2 Hnext))) as (lease & ls & Hsub & Hrun). exists c', l, (lease :: ls).
    split; [done|]. split; [done|]. intros fuel Hfu.
    destruct (inside_rest fuel st w c _ _ Hf Hfu Hx) as (Hst & Hr). cbn [file_at work].
    rewrite (then_serve_val _ _ _ _ _ _ Hr). rewrite Hst in Hrun. cbn [files_rest] in Hrun.
    by rewrite (bind_val _ _ _ _ _ Hrun).
  - intros Hf. destruct IH as [-> ->]. exists c', [], []. split; [done|]. split; [done|]. intros fuel Hfu.
    pose proof (inside_rest fuel st w c _ _ Hf Hfu Hx) as Hr. cbn [file_at work].
    by rewrite (then_serve_val _ _ _ _ _ _ Hr).
Qed.
End alone.

(** ** The theorems *)

Section server.
Context {T : Tcp} {TL : TcpLaws T} {D : FileSystem} {F : Features} {R : Runtime} {RL : RuntimeLaws R}.
#[local] Existing Instance Buffers.

(** The server at some point of its life. *)
Definition file_serving (cfg : PoolConfig) (v : Sessions.Server Vec io_error FileVisit) : Prop :=
  server_reachable cfg file_arrived v.

(** C37: each client is served as if it were alone.  However many clients there are and however their
    tasks are scheduled, and whatever the disk answers: every buffer in the pool has its full
    size; and a session that is over did exactly what [serve] does by itself with that client and
    the buffers its [get]s brought, giving each back at its full size, and opened only names
    inside the directory. *)
Theorem files_as_if_alone cfg v :
  config_ok cfg → file_serving cfg v →
  (∀ c, c ∈ v.(sv_pool).(world).(idle) → big c.(raw)) ∧
  ∀ i s0 l s, v.(sessions) !! i = Some (mkVisit s0 l (Gone s)) →
    let w := s0.(work) in
    Forall (λ o, match o with Some (c0, c') => big c0 ∧ big c' | None => True end) l ∧
    (∃ leases, sublist (answers l) leases ∧
       serve leases (FileServer.mkServer w.(peer) (with_capacity 1024) w.(disk) w.(opened)) = Val (given_back l, s.(work))) ∧
    ∃ names, s.(work).(opened) = w.(opened) ++ names ∧ Forall confined names.
Proof.
  intros Hcfg Hv. split.
  - intros c Hc. exact (idle_good file_arrived big (GL := files_laws) cfg Hcfg v c Hv Hc).
  - intros i s0 l s Hi w.
    destruct (session_alone file_arrived big (GL := files_laws) cfg Hcfg v i s0 l s Hv Hi) as (Ho & Hl & Hw).
    pose proof (files_alone _ _ _ Hw s eq_refl) as Hrun. destruct s0 as [st w0]. unfold file_arrived in Ho.
    simpl in Ho. subst st w. cbn [work]. destruct (Hrun I) as (lease & ls & Hsub & Hs). cbn [file_at work files_rest] in Hs.
    split_and!.
    + eapply Forall_impl; [exact Hl|]. intros [[c0 c']|]; [|done]. intros [Hc Hc']. split; [done|exact (Hc' 0%nat eq_refl)].
    + by exists (lease :: ls).
    + destruct (names_confined (lease :: ls) (FileServer.mkServer w0.(peer) (with_capacity 1024) w0.(disk) w0.(opened)))
        as (bufs & w' & names & Hs' & Hn & Hc). rewrite Hs in Hs'. injection Hs' as _ <-. by exists names.
Qed.

(** The server stays in bounds and keeps going. *)
Theorem file_server_live cfg v :
  config_ok cfg → file_serving cfg v → server_room v →
  size (serving v) = size v.(sv_pool).(leases) ∧ N.of_nat (size (serving v)) ≤ cfg.(max_size) ∧
  (∀ k, ∃ v', session cfg k v = Val (tt, v') ∧ after_poll (fewer_then requests_left pieces_left) k v v') ∧
  (v.(sv_pool).(world).(closed) = false →
   ∀ k x, v.(sessions) !! k = Some x → is_gone x = false → ∃ j, session_can_go v j = true).
Proof. intros Hcfg. exact (server_lively file_arrived big (GL := files_laws) cfg Hcfg v). Qed.
End server.

(** ** Two clients, one buffer *)

#[local] Existing Instances demo_features plain_runtime script_tcp one_file_disk Buffers.

Definition lone_buffer : PoolConfig :=
  mkConfig 1 0 (from_secs 30) (Some (from_secs 600)) (Some (from_secs 1800)) false true.
Lemma lone_buffer_ok : config_ok lone_buffer.
Proof. by split. Qed.

(** One asks for the file, after a name that is refused; the other just for the file. *)
Definition fetcher (names : list N) (chunks : list (result N io_error)) : FileVisit :=
  mkFileVisit FileArrived (FileServer.mkServer (mkScript names chunks [] []) (with_capacity 0) (mkOneFile 3 (codes "abc")) []).
Definition picky : FileVisit := fetcher (codes ".." ++ [10] ++ codes "a.txt") [Ok 2].
Definition plain_one : FileVisit := fetcher (codes "a.txt") [].
Definition files_nobody : Sessions.Server Vec io_error FileVisit := Sessions.mkServer (sys_init false 0) ∅.
Definition files_schedule : list (server_event FileVisit) :=
  [Arrive 0%nat picky] ++ replicate 7 (Poll_session 0%nat) ++ [Arrive 1%nat plain_one] ++
  replicate 5 (Poll_session 1%nat).
Definition files_busy : Sessions.Server Vec io_error FileVisit :=
  default files_nobody (server_run lone_buffer files_schedule files_nobody).
Definition files_over : Sessions.Server Vec io_error FileVisit :=
  default files_nobody (server_run lone_buffer
    (replicate 6 (Poll_session 0%nat) ++ replicate 6 (Poll_session 1%nat)) files_busy).

Lemma files_busy_serving : file_serving lone_buffer files_busy.
Proof.
  apply (server_run_reachable lone_buffer file_arrived files_schedule files_nobody);
    [apply server_start|by repeat constructor|vm_compute; reflexivity].
Qed.
Lemma files_over_serving : file_serving lone_buffer files_over.
Proof.
  apply (server_run_reachable lone_buffer file_arrived
    (replicate 6 (Poll_session 0%nat) ++ replicate 6 (Poll_session 1%nat)) files_busy);
    [apply files_busy_serving|by repeat constructor|vm_compute; reflexivity].
Qed.

Lemma files_as_if_alone_witness :
  ∃ l s, files_over.(sessions) !! 0%nat = Some (mkVisit picky l (Gone s)) ∧ length l = 1%nat ∧
    outgoing s.(work).(peer) = codes "ERR bad name" ++ [10] ++ codes "3" ++ [10] ++ codes "abc" ∧
    ∃ names, s.(work).(opened) = names ∧ Forall confined names.
Proof.
  pose proof (demo_runtime_laws None : RuntimeLaws plain_runtime).
  destruct (files_as_if_alone lone_buffer files_over lone_buffer_ok files_over_serving) as (_ & Hgone).
  eexists _, _. split; [vm_compute; reflexivity|]. split; [reflexivity|]. split; [vm_compute; reflexivity|].
  destruct (Hgone 0%nat picky _ _ ltac:(vm_compute; reflexivity)) as (_ & _ & Hn). exact Hn.
Defined.

Lemma file_server_live_witness :
  session_can_go files_busy 1 = false ∧ N.of_nat (size (serving files_busy)) ≤ lone_buffer.(max_size) ∧
  ∃ j, session_can_go files_busy j = true.
Proof.
  pose proof (demo_runtime_laws None : RuntimeLaws plain_runtime).
  destruct (file_server_live lone_buffer files_busy lone_buffer_ok files_busy_serving) as (_ & Hmax & _ & Hgo);
    [vm_compute; reflexivity|].
  split_and!; [vm_compute; reflexivity|exact Hmax|].
  eapply (Hgo ltac:(vm_compute; reflexivity) 1%nat); vm_compute; reflexivity.
Defined.
