(* ===== verification/TokioFiles.v ===== *)
(** The tokio file server ([src/crates/deadpool-baseline/examples/file_server.rs]): a line names a
    file, the reply is its size and its bytes, sent through the leased buffer. *)

From S2P Require Import Prelude Manage Text Reader FileServer Baseline.

Definition KIB64 : N := 64 * 1024.
Definition FileBufManager : Manager (list N) := mkManager (λ _, Ok []) (λ _, (Ok tt, [])).

Section handle.
Context `{Tcp} `{FileSystem} (dir : list N).

(** Both halves of the client's stream, the buffer, the disk and the paths opened so far. *)
Record Visit := mkVisit { conn : BufReader; data : list N; files : fs; paths : list (list N) }.

Definition visit_line (fuel : nat) : St Visit (result (list N) io_error) := λ v,
  match read_line fuel v.(conn) with
  | Val (r, c) => Val (r, mkVisit c v.(data) v.(files) v.(paths))
  | Panic => Panic
  | NoFuel => NoFuel
  end.
Definition visit_write (bs : list N) : St Visit bool := λ v,
  let '(r, s) := send bs v.(conn).(inner) in
  Val (match r with Ok _ => true | Err _ => false end,
       mkVisit (mkReader v.(conn).(unread) s) v.(data) v.(files) v.(paths)).
Definition visit_disk {A} (op : fs → A * fs) : St Visit A := λ v,
  let '(a, d) := op v.(files) in Val (a, mkVisit v.(conn) v.(data) d v.(paths)).
Definition visit_open (path : list N) : St Visit (result handle io_error) :=
  modify (λ v, mkVisit v.(conn) v.(data) v.(files) (v.(paths) ++ [path]));;
  visit_disk (open_file path).
(** [file.read(&mut buf[..])]: the file's cursor is at [sent]. *)
Definition visit_read (file : handle) (sent : N) : St Visit (result N io_error) := λ v,
  let '(r, d) := read_at file (len v.(data)) sent v.(files) in
  Val match r with
      | Ok bs => (Ok (len bs), mkVisit v.(conn) (bs ++ drop (length bs) v.(data)) d v.(paths))
      | Err e => (Err e, mkVisit v.(conn) v.(data) d v.(paths))
      end.

(** [while sent < size]: is the client still there?  Every round but the last moves [sent]. *)
Fixpoint send_file (fuel : nat) (file : handle) (size sent : N) : St Visit bool :=
  match fuel with
  | O => no_fuel
  | S fuel =>
      if sent <? size then
        r ← visit_read file sent;
        match r with
        | Err _ => mret false
        | Ok n =>
            if n =? 0 then mret true
            else
              buf ← gets data;
              ok ← visit_write (up_to n buf);
              if ok : bool then send_file fuel file size (sent + n) else mret false
        end
      else mret true
  end.

(** One request: does the connection go on? *)
Definition answer (line : list N) : St Visit bool :=
  let name := trim_end_matches is_newline line in
  file ← visit_open (path_join dir name);
  match file with
  | Err e => visit_write (codes "ERR " ++ codes e.(message) ++ newline)
  | Ok file =>
      size ← visit_disk (file_len file);
      match size with
      | Err _ => mret false
      | Ok size =>
          ok ← visit_write (codes (pretty size) ++ newline);
          if ok : bool then send_file (S (N.to_nat size)) file size 0 else mret false
      end
  end.

Fixpoint visit_loop (fuel lines : nat) : St Visit unit :=
  match fuel with
  | O => no_fuel
  | S fuel =>
      line ← visit_line lines;
      match line with
      | Err _ => skip
      | Ok [] => skip
      | Ok line => go_on ← answer line; if go_on : bool then visit_loop fuel lines else skip
      end
  end.

(** [handle], the pool's answer given: the buffer it gives back, the disk and the paths opened. *)
Definition file_handle (fuel lines : nat) (lease : option (list N)) (s : stream) (d : fs) :
    outcome (option (list N) * stream * fs * list (list N)) :=
  match lease with
  | None => Val (None, s, d, [])
  | Some buf =>
      match visit_loop fuel lines (mkVisit (reader_new s) (resize KIB64 buf) d []) with
      | Val (_, v) => Val (Some v.(data), v.(conn).(inner), v.(files), v.(paths))
      | Panic => Panic
      | NoFuel => NoFuel
      end
  end.
End handle.

(** ** Lemmas *)

Section spec.
Context {T : Tcp} {TL : TcpLaws T} {D : FileSystem} {DL : FileSystemLaws D} (dir : list N).
Implicit Types v : Visit.

(** What a request leaves alone: what is still to be read, and the length of the buffer. *)
Definition same_input v v' : Prop :=
  pending v'.(conn) = pending v.(conn) ∧ len v'.(data) = len v.(data).

Lemma visit_write_spec bs v :
  wp (visit_write bs) (λ ok v', same_input v v' ∧ v'.(files) = v.(files) ∧ v'.(paths) = v.(paths) ∧
    v'.(data) = v.(data) ∧
    (ok = true → outgoing v'.(conn).(inner) = outgoing v.(conn).(inner) ++ bs)) v.
Proof.
  unfold wp, visit_write. destruct (send bs _) as [r s] eqn:Hs. destruct (send_reads _ _ _ _ Hs) as [Hi _].
  unfold same_input, pending. cbn [conn data files paths inner unread]. rewrite Hi. split_and!; try done.
  destruct r as [[]|e]; [|done]. intros _. by apply send_writes.
Qed.

(** A file that keeps its contents is sent from [sent] on to its end, unless the client goes. *)
Lemma send_file_spec fuel file c sent v :
  holds file c v.(files) → 0 < len v.(data) → sent ≤ len c → (N.to_nat (len c - sent) < fuel)%nat →
  wp (send_file fuel file (len c) sent) (λ ok v', same_input v v' ∧ v'.(paths) = v.(paths) ∧
    holds file c v'.(files) ∧
    (ok = true → outgoing v'.(conn).(inner) = outgoing v.(conn).(inner) ++ skipn (N.to_nat sent) c)) v.
Proof.
  revert sent v. induction fuel as [|fuel IH]; intros sent v Hh Hb Hle Hf; [lia|].
  cbn [send_file]. destruct (N.ltb_spec sent (len c)) as [Hlt|Hge].
  2: { wp_steps. split_and!; [done|done|done|]. intros _. unfold len in *.
       rewrite drop_ge by lia. by rewrite app_nil_r. }
  wp_step. unfold wp at 1, visit_read. destruct (read_at _ _ _ _) as [r d] eqn:Hr.
  destruct (read_holds _ _ _ _ _ _ _ Hr Hh) as (Hh' & bs & rest & -> & Hskip & Hroom & Hnil).
  cbn beta iota.
  assert (Hlen : len c - sent = len bs + len rest).
  { apply (f_equal length) in Hskip. rewrite length_skipn, length_app in Hskip. unfold len in *. lia. }
  destruct (N.eqb_spec (len bs) 0) as [H0|Hn].
  { assert (bs = []) as -> by (destruct bs; [done|rewrite len_cons in H0; lia]).
    destruct (Hnil eq_refl) as [| ->]; [lia|]. simpl in Hlen. lia. }
  assert (Hb' : len (bs ++ drop (length bs) v.(data)) = len v.(data)).
  { unfold len in *. rewrite length_app, length_drop. lia. }
  wp_step. apply wp_gets. cbn [data].
  assert (Hup : up_to (len bs) (bs ++ drop (length bs) v.(data)) = bs).
  { unfold up_to, len. rewrite Nat2N.id. apply take_app_length. }
  rewrite Hup. wp_step. wp_apply visit_write_spec as ok v1 ([Hp1 Hl1] & Hf1 & Hpa1 & Hd1 & Ho1).
  cbn [conn data files paths] in *. destruct ok.
  2: { wp_steps. split_and!; [by split; [|congruence]|done|by rewrite Hf1|done]. }
  eapply wp_mono; [apply IH; [by rewrite Hf1|lia|lia|lia]|].
  intros ok v' ([Hp Hl] & Hpa & Hhf & Ho). split_and!; [split; congruence|congruence|done|]. intros Hok.
  rewrite (Ho Hok), (Ho1 eq_refl), <-app_assoc. do 2 f_equal. rewrite N2Nat.inj_add, <-drop_drop, Hskip.
  unfold len. rewrite Nat2N.id. by rewrite drop_app_length.
Qed.

(** Whatever the disk does, a request ends and leaves the input and the buffer's length alone. *)
Lemma send_file_ends fuel file size sent v :
  (N.to_nat (size - sent) < fuel)%nat → (∀ h n s bs s', read_at h (len v.(data)) n s = (Ok bs, s') → len bs ≤ len v.(data)) →
  wp (send_file fuel file size sent) (λ _ v', same_input v v' ∧ v'.(paths) = v.(paths)) v.
Proof.
  revert sent v. induction fuel as [|fuel IH]; intros sent v Hf Hroom; [lia|].
  cbn [send_file]. destruct (N.ltb_spec sent size); [|by wp_steps].
  wp_step. unfold wp at 1, visit_read. destruct (read_at _ _ _ _) as [[bs|e] d] eqn:Hr; cbn beta iota; [|by wp_steps].
  apply Hroom in Hr.
  assert (Hb' : len (bs ++ drop (length bs) v.(data)) = len v.(data)).
  { unfold len in *. rewrite length_app, length_drop. lia. }
  destruct (N.eqb_spec (len bs) 0) as [|Hn]; [wp_steps; by repeat split|].
  wp_step. apply wp_gets. wp_step. wp_apply visit_write_spec as ok v1 ([Hp1 Hl1] & _ & Hpa1 & Hd1 & _).
  cbn [conn data files paths] in *. destruct ok; [|wp_steps; by split; [split; [|congruence]|]].
  eapply wp_mono; [apply IH; [lia|]|].
  - intros h n s bs' s' Hr'. rewrite Hl1, Hb' in *. by apply Hroom in Hr'.
  - intros [] v' [[Hp Hl] Hpa]; (split; [split; congruence|congruence]).
Qed.

Lemma answer_ends line v :
  (∀ h n s bs s', read_at h (len v.(data)) n s = (Ok bs, s') → len bs ≤ len v.(data)) →
  wp (answer dir line) (λ _ v', same_input v v' ∧
    v'.(paths) = v.(paths) ++ [path_join dir (trim_end_matches is_newline line)]) v.
Proof.
  intros Hroom. unfold answer, visit_open. cbv zeta. wp_steps. unfold wp at 1, visit_disk.
  destruct (open_file _ _) as [[file|e] d]; cbn beta iota.
  2: { eapply wp_mono; [apply visit_write_spec|]. intros ok v' (Hs & _ & Hpa & _). done. }
  wp_step. unfold wp at 1, visit_disk. destruct (file_len _ _) as [[size|e] d2]; cbn beta iota; [|by wp_steps].
  wp_step. wp_apply visit_write_spec as ok v1 ([Hp1 Hl1] & _ & Hpa1 & Hd1 & _). cbn [conn data files paths] in *.
  destruct ok; [|wp_steps; by split].
  eapply wp_mono; [apply send_file_ends; [lia|]|].
  - intros h n s bs s' Hr. rewrite Hl1 in *. by apply Hroom in Hr.
  - intros ok v' [[Hp Hl] Hpa]. split; [split; congruence|congruence].
Qed.

(** [handle] answers lines until the client leaves, one path opened for each. *)
Lemma visit_loop_spec fuel lines v :
  (∀ h n s bs s', read_at h (len v.(data)) n s = (Ok bs, s') → len bs ≤ len v.(data)) →
  (N.to_nat (len (pending v.(conn))) < fuel)%nat → (N.to_nat (len (pending v.(conn))) < lines)%nat →
  wp (visit_loop dir fuel lines) (λ _ v', len v'.(data) = len v.(data) ∧
    ∃ names, v'.(paths) = v.(paths) ++ (path_join dir <$> names)) v.
Proof.
  revert v. induction fuel as [|fuel IH]; intros v Hroom Hf Hl; [lia|]. cbn [visit_loop].
  wp_step. unfold wp at 1, visit_line. pose proof (reader_line_spec lines v.(conn) Hl) as Hrl. unfold wp in Hrl.
  destruct (read_line lines v.(conn)) as [[r c]| |]; [|done..]. destruct Hrl as [_ Hr]. cbn beta iota.
  assert (Hnone : ∃ names, paths v = paths v ++ (path_join dir <$> names)) by (exists []; by rewrite app_nil_r).
  destruct r as [line|e]; [|by wp_steps]. destruct line as [|x line]; [by wp_steps|]. set (text := x :: line) in *.
  destruct Hr as (bs & Hu & Hp & _). assert (bs ≠ []) as Hne by (by intros ->).
  assert (Hless : len (pending c) < len (pending v.(conn))).
  { rewrite Hp, len_app. destruct bs; [done|]. rewrite len_cons. lia. }
  wp_step. wp_apply answer_ends as go v1 ([Hp1 Hl1] & Hpa1); [done|]. cbn [conn data files paths] in *.
  assert (Hone : ∃ names, paths v1 = paths v ++ (path_join dir <$> names)) by (by eexists [_]).
  destruct go; [|wp_steps; by split]. eapply wp_mono; [apply IH; rewrite ?Hp1; [|lia|lia]|].
  { intros h n s bs' s' Hr. rewrite Hl1 in *. by apply Hroom in Hr. }
  intros [] v' [Hl' (names & Hpa)]. split; [congruence|]. exists (trim_end_matches is_newline text :: names).
  rewrite Hpa, Hpa1, <-app_assoc. done.
Qed.
End spec.

(** ** The theorems *)

(** A request for a file that opens and keeps its contents is answered with the size in decimal,
    a newline and the contents, as the compio server answers it, and the connection goes on,
    unless a write fails. *)
Theorem tokio_file_whole {T : Tcp} {TL : TcpLaws T} {D : FileSystem} {DL : FileSystemLaws D} dir line file c d
    (v : Visit) :
  open_file (path_join dir (trim_end_matches is_newline line)) v.(files) = (Ok file, d) → holds file c d →
  0 < len v.(data) →
  ∃ go_on v', answer dir line v = Val (go_on, v') ∧ same_input v v' ∧
    (go_on = true → outgoing v'.(conn).(inner) =
       outgoing v.(conn).(inner) ++ (codes (pretty (len c)) ++ newline) ++ c).
Proof.
  intros Hopen Hh Hb. apply wp_val. unfold answer, visit_open. cbv zeta. wp_steps. unfold wp at 1, visit_disk.
  cbn [files]. rewrite Hopen. cbn beta iota. wp_step. unfold wp at 1, visit_disk. cbn [files].
  destruct (file_len file d) as [size d2] eqn:Hlen. destruct (len_holds _ _ _ _ _ Hlen Hh) as [-> Hh2]. cbn beta iota.
  wp_step. wp_apply visit_write_spec as ok v1 ([Hp1 Hl1] & Hf1 & _ & Hd1 & Ho1). cbn [conn data files paths] in *.
  destruct ok; [|wp_steps; by split].
  eapply wp_mono; [apply (send_file_spec _ file c 0); [by rewrite Hf1|lia|lia|lia]|].
  intros ok v' ([Hp Hl] & _ & _ & Ho). split; [split; congruence|]. intros Hok.
  rewrite (Ho Hok), (Ho1 eq_refl), <-app_assoc. done.
Qed.

(** ** Concrete files *)

#[local] Existing Instance script_tcp.

(** A disk with one file outside the served directory. *)
Definition etc_disk : FileSystem := {|
  fs := list N;
  handle := unit;
  open_file path d :=
    (if bool_decide (path = codes "/etc/passwd") then Ok tt else Err (mkIoError (OtherKind 2) "not found"), d);
  file_len _ d := (Ok (len d), d);
  read_at _ room n d := (Ok (firstn (N.to_nat room) (skipn (N.to_nat n) d)), d)
|}.
#[local] Existing Instance etc_disk.
#[local] Instance etc_laws : FileSystemLaws etc_disk.
Proof.
  refine {| holds := λ (_ : handle (FileSystem:=etc_disk)) c (d : fs (FileSystem:=etc_disk)), d = c |}.
  - by intros h c d r d' [= <- <-] <-.
  - intros h c room n d r d' [= <- <-] <-. split; [done|].
    eexists _, (skipn (N.to_nat room) (skipn (N.to_nat n) d)). split_and!; [done| | |].
    + by rewrite firstn_skipn.
    + unfold len. rewrite length_firstn. lia.
    + intros Hnil. destruct (skipn (N.to_nat n) d) as [|b bs]; [right; apply skipn_nil|left].
      by destruct (N.to_nat room) eqn:?; [lia|].
Defined.

Definition outsider : stream (Tcp:=script_tcp) := mkScript (codes "/etc/passwd" ++ [10]) [] [] [].
Definition demo_visit : Visit := mkVisit (reader_new outsider) (zeros 4) (codes "root:x") [].

Lemma tokio_file_whole_witness :
  ∃ v', answer (codes "/tmp/bench-files") (codes "/etc/passwd" ++ [10]) demo_visit = Val (true, v') ∧
    outgoing v'.(conn).(inner) = codes "6" ++ [10] ++ codes "root:x".
Proof.
  destruct (tokio_file_whole (T := script_tcp) (D := etc_disk) (codes "/tmp/bench-files") (codes "/etc/passwd" ++ [10]) tt (codes "root:x") (codes "root:x")
    demo_visit) as (go & v' & He & _ & Ho).
  - vm_compute. reflexivity.
  - reflexivity.
  - reflexivity.
  - assert (go = true) as -> by (revert He; vm_compute; by intros [= <- _]).
    exists v'. split; [exact He|]. exact (Ho eq_refl).
Defined.

(** The compio server refuses that name; this one serves the file. *)
Lemma tokio_serves_outside :
  bad_name (codes "/etc/passwd") = true ∧
  match file_handle (codes "/tmp/bench-files") 20 20 (Some []) outsider (codes "root:x") with
  | Val (_, s, _, opened) => s.(written) = codes "6" ++ [10] ++ codes "root:x" ∧ opened = [codes "/etc/passwd"]
  | _ => False
  end.
Proof. split; [reflexivity|]. vm_compute. split; reflexivity. Qed.

