(* ===== verification/Float.v ===== *)
(** [f64] as the load generators use it: the conversions from and to integers, [+], [-], [*],
    [/] and [round], on the Standard Library's specification of IEEE 754 binary64, and
    what rounding does to a value near the integers. *)

From Stdlib Require Import ZArith Floats.SpecFloat.
From S2P Require Import Prelude.

#[local] Open Scope Z_scope.

Abbreviation f64 := spec_float (only parsing).

(** [n as f64]: to the nearest, ties to even. *)
Definition f64_of (n : N) : f64 := binary_normalize 53 1024 (Z.of_N n) 0 false.
Definition f64_sub (x y : f64) : f64 := SFsub 53 1024 x y.
Definition f64_add (x y : f64) : f64 := SFadd 53 1024 x y.
Definition f64_mul (x y : f64) : f64 := SFmul 53 1024 x y.
Definition f64_div (x y : f64) : f64 := SFdiv 53 1024 x y.

(** A decimal literal, [num] over [den]. *)
Definition f64_lit (num den : N) : f64 := f64_div (f64_of num) (f64_of den).

(** [f64::round]: to the nearest integer, halves away from zero. *)
Definition f64_round (x : f64) : f64 :=
  match x with
  | S754_finite s m e =>
      if 0 <=? e then x
      else binary_normalize 53 1024 (cond_Zopp s ((Z.pos m + 2 ^ (- e - 1)) / 2 ^ (- e))) 0 s
  | _ => x
  end.

(** [x as usize]: towards zero, saturating, and 0 for NaN. *)
Definition f64_as_usize (x : f64) : N :=
  match x with
  | S754_zero _ | S754_nan => 0%N
  | S754_infinity s => if s then 0%N else (U64 - 1)%N
  | S754_finite true _ _ => 0%N
  | S754_finite false m e =>
      let i := if 0 <=? e then Z.pos m * 2 ^ e else Z.pos m / 2 ^ (- e) in
      (Z.to_N i `min` (U64 - 1))%N
  end.

(** ** Digits and shifts *)

Lemma digits2_bounds m : 2 ^ (Z.pos (digits2_pos m) - 1) ≤ Z.pos m < 2 ^ Z.pos (digits2_pos m).
Proof.
  induction m as [m IH|m IH|]; cbn [digits2_pos]; [..|done].
  - rewrite Pos2Z.inj_succ. replace (Z.succ _ - 1) with (Z.succ (Z.pos (digits2_pos m) - 1)) by lia.
    rewrite !Z.pow_succ_r by lia. lia.
  - rewrite Pos2Z.inj_succ. replace (Z.succ _ - 1) with (Z.succ (Z.pos (digits2_pos m) - 1)) by lia.
    rewrite !Z.pow_succ_r by lia. lia.
Qed.

(** A number of known size has the digits of that size. *)
Lemma digits2_unique m d : 0 < d → 2 ^ (d - 1) ≤ Z.pos m < 2 ^ d → Z.pos (digits2_pos m) = d.
Proof.
  intros Hd Hm. pose proof (digits2_bounds m) as Hb.
  assert (d - 1 < Z.pos (digits2_pos m)) by (apply (Z.pow_lt_mono_r_iff 2); lia).
  assert (Z.pos (digits2_pos m) - 1 < d) by (apply (Z.pow_lt_mono_r_iff 2); lia). lia.
Qed.

Lemma iter_pos_nat {A} (f : A → A) p x : SpecFloat.iter_pos f p x = Nat.iter (Pos.to_nat p) f x.
Proof.
  revert x. induction p as [p IH|p IH|]; intros x; cbn [SpecFloat.iter_pos]; [..|done].
  - rewrite !IH, Pos2Nat.inj_xI, <-Nat.iter_add, Nat.iter_succ_r. f_equal. lia.
  - rewrite !IH, Pos2Nat.inj_xO, <-Nat.iter_add. f_equal. lia.
Qed.

(** Shifting right [k] places keeps the quotient, and remembers whether anything was lost. *)
Lemma shr_steps M k :
  0 ≤ M →
  let mrs := Nat.iter k shr_1 (Build_shr_record M false false) in
  shr_m mrs = M / 2 ^ Z.of_nat k ∧
  (shr_r mrs || shr_s mrs = false ↔ M mod 2 ^ Z.of_nat k = 0).
Proof.
  intros HM. induction k as [|k [IHm IHb]]; cbn zeta.
  { simpl. rewrite Z.div_1_r, Z.mod_1_r. done. }
  rewrite Nat2Z.inj_succ, Z.pow_succ_r by lia. cbn [Nat.iter nat_rect].
  change (nat_rect _ _ _ k) with (Nat.iter k shr_1 (Build_shr_record M false false)).
  set (P := 2 ^ Z.of_nat k) in *. assert (HP : 0 < P) by (apply Z.pow_pos_nonneg; lia).
  destruct (Nat.iter k shr_1 _) as [m r s]. cbn [shr_m shr_r shr_s] in *.
  rewrite (Z.mul_comm 2 P), <-Z.div_div by lia. rewrite Z.rem_mul_r by lia. rewrite <-IHm.
  assert (Hm : 0 ≤ m) by (subst m; apply Z.div_pos; lia).
  pose proof (Z.mod_pos_bound M P HP) as Hb. pose proof (Z.mod_pos_bound m 2) as Hb2.
  assert (Hodd : ∀ b : bool, m mod 2 = Z.b2z b →
    (b || (r || s) = false ↔ M mod P + P * (m mod 2) = 0)).
  { intros b ->. destruct b; simpl; [split; [done|nia]|]. rewrite IHb. split; lia. }
  destruct m as [|[p|p|]|p]; cbn [shr_1 shr_m shr_r shr_s]; [..|lia].
  - split; [done|]. apply (Hodd false). done.
  - split; [Z.div_mod_to_equations; lia|]. apply (Hodd true). simpl. Z.div_mod_to_equations; lia.
  - split; [Z.div_mod_to_equations; lia|]. apply (Hodd false). simpl. Z.div_mod_to_equations; lia.
  - split; [done|]. by apply (Hodd true).
Qed.

(** [shr] by a positive amount, from an exact mantissa. *)
Lemma shr_exact M e s :
  0 ≤ M → 0 < s →
  ∃ r b, shr (shr_record_of_loc M loc_Exact) e s = (Build_shr_record (M / 2 ^ s) r b, e + s) ∧
    (r || b = false ↔ M mod 2 ^ s = 0).
Proof.
  intros HM Hs. destruct s as [|p|p]; [lia| |lia]. unfold shr. rewrite iter_pos_nat.
  destruct (shr_steps M (Pos.to_nat p) HM) as [Hm Hb]. rewrite positive_nat_Z in Hm, Hb.
  cbn [shr_record_of_loc]. destruct (Nat.iter _ _ _) as [m r b]. simpl in *. subst m. eauto.
Qed.

(** Nothing is shifted by less. *)
Lemma shr_none M e s : s ≤ 0 → shr (shr_record_of_loc M loc_Exact) e s = (Build_shr_record M false false, e).
Proof. intros Hs. by destruct s; [..|lia|]. Qed.

(** Rounding to the nearest goes to the quotient or one past it, and stays when exact. *)
Lemma round_nearest_near q r b :
  let mx := round_nearest_even q (loc_of_shr_record (Build_shr_record q r b)) in
  (mx = q ∨ mx = q + 1) ∧ (r || b = false → mx = q).
Proof. destruct r, b; simpl; try destruct (Z.even q); split; auto; done. Qed.

(** ** Rounding a positive value below 2^53 *)

Definition MAX_EXACT : Z := 2 ^ 53 - 1.

(** The exponent it is rounded at. *)
Lemma fexp_double d E : fexp 53 1024 (d + E) = Z.max (d + E - 53) (-1074).
Proof. done. Qed.

(** An integer multiple carried over a shift. *)
Lemma pow_split E s : E + s ≤ 0 → 0 ≤ s → 2 ^ (- E) = 2 ^ (- (E + s)) * 2 ^ s.
Proof. intros. rewrite <-Z.pow_add_r by lia. f_equal. lia. Qed.

(** [m * 2^e] is the value [M * 2^E] rounded: no integer lies strictly between. *)
Definition rounds_to M E m e : Prop :=
  ∀ X, (X * 2 ^ (- E) ≤ M → X * 2 ^ (- e) ≤ m) ∧ (M ≤ X * 2 ^ (- E) → m ≤ X * 2 ^ (- e)).

Lemma rounds_shift M E s mx :
  E + s ≤ 0 → 0 ≤ s → 0 < M → mx = M / 2 ^ s ∨ mx = M / 2 ^ s + 1 →
  (M mod 2 ^ s = 0 → mx = M / 2 ^ s) → rounds_to M E mx (E + s).
Proof.
  intros He Hs HM Hmx Hexact X. rewrite (pow_split E s) by done.
  set (Y := X * 2 ^ (- (E + s))). assert (HP : 0 < 2 ^ s) by (apply Z.pow_pos_nonneg; lia).
  rewrite Z.mul_assoc. fold Y. pose proof (Z.div_mod M (2 ^ s)) as Hdm.
  pose proof (Z.mod_pos_bound M (2 ^ s) HP) as Hb. split; intros HX.
  - assert (Y ≤ M / 2 ^ s); [|lia]. apply Z.div_le_lower_bound; lia.
  - destruct (decide (M mod 2 ^ s = 0)) as [H0|H0].
    + rewrite (Hexact H0). apply Z.div_le_upper_bound; lia.
    + assert (M / 2 ^ s < Y) by nia. lia.
Qed.

Lemma rounding M E :
  -1074 ≤ E ≤ 0 → 0 < M ≤ MAX_EXACT * 2 ^ (- E) →
  ∃ m e, binary_round_aux 53 1024 false M E loc_Exact = S754_finite false m e ∧
    E ≤ e ≤ 0 ∧ rounds_to M E (Z.pos m) e.
Proof.
  intros HE HM. destruct M as [|M|M]; [lia| |lia]. pose proof (digits2_bounds M) as Hd.
  set (d := Z.pos (digits2_pos M)) in *. assert (Hd0 : 0 < d) by done.
  assert (HdE : d + E ≤ 53).
  { assert (d - 1 < 53 - E); [|lia]. apply (Z.pow_lt_mono_r_iff 2); [lia..|].
    replace (53 - E) with (53 + - E) by lia. rewrite Z.pow_add_r by lia. unfold MAX_EXACT in HM. nia. }
  unfold binary_round_aux, shr_fexp. cbn [Zdigits2]. fold d. rewrite fexp_double.
  set (s := Z.max (d + E - 53) (-1074) - E).
  destruct (decide (s ≤ 0)) as [Hs|Hs].
  { rewrite shr_none by done. cbn [shr_m loc_of_shr_record round_nearest_even Zdigits2]. fold d.
    rewrite fexp_double. fold s. rewrite shr_none by done. cbn [shr_m].
    exists M, E. split_and!; [|lia..|by split]. rewrite (proj2 (Z.leb_le _ _)) by lia. done. }
  assert (Hs53 : d = 53 + s) by lia.
  destruct (shr_exact (Z.pos M) E s) as (r & b & Heq & Hrb); [lia..|]. rewrite Heq. cbn [shr_m].
  destruct (round_nearest_near (Z.pos M / 2 ^ s) r b) as [Hnear Hexact].
  set (mx := round_nearest_even _ _) in *.
  assert (HR : rounds_to (Z.pos M) E mx (E + s)).
  { apply rounds_shift; [lia..|done|]. intros H0. by apply Hexact, Hrb. }
  assert (Hq : 2 ^ 52 ≤ Z.pos M / 2 ^ s < 2 ^ 53).
  { assert (HP : 0 < 2 ^ s) by (apply Z.pow_pos_nonneg; lia). split.
    - apply Z.div_le_lower_bound; [done|]. rewrite <-Z.pow_add_r by lia.
      replace (s + 52) with (d - 1) by lia. lia.
    - apply Z.div_lt_upper_bound; [done|]. rewrite <-Z.pow_add_r by lia.
      replace (s + 53) with d by lia. lia. }
  assert (Hmx : 0 < mx) by lia. destruct mx as [|m|m] eqn:Hm; [lia| |lia].
  destruct (decide (Z.pos m < 2 ^ 53)) as [Hlt|Hge].
  - assert (Hdm : Z.pos (digits2_pos m) = 53) by (apply digits2_unique; lia).
    cbn [Zdigits2]. rewrite Hdm, fexp_double, shr_none by lia. cbn [shr_m].
    exists m, (E + s). split_and!; [|lia..|done]. rewrite (proj2 (Z.leb_le _ _)) by lia. done.
  - assert (Hm53 : Z.pos m = 2 ^ 53) by lia. apply (inj Z.pos) in Hm53 as ->.
    assert (He0 : E + s < 0).
    { destruct (decide (E + s = 0)) as [He|]; [|lia]. destruct (HR MAX_EXACT) as [_ Hup].
      specialize (Hup (proj2 HM)). rewrite He in Hup. by destruct Hup. }
    change (Zdigits2 _) with 54. rewrite fexp_double.
    replace (Z.max (54 + (E + s) - 53) (-1074) - (E + s)) with 1 by lia.
    exists (2 ^ 52)%positive, (E + s + 1). split_and!; [|lia..|].
    + change (shr _ _ 1) with (Build_shr_record (2 ^ 52) false false, E + s + 1). cbn [shr_m].
      rewrite (proj2 (Z.leb_le _ _)) by lia. done.
    + intros X. specialize (HR X). rewrite (pow_split (E + s) 1) in HR by lia.
      rewrite Z.mul_assoc in HR. change (Z.pos (2 ^ 53)) with (Z.pos (2 ^ 52) * 2 ^ 1) in HR.
      destruct HR as [H1 H2]. split; intros HX; [apply H1 in HX|apply H2 in HX]; lia.
Qed.

(** ** Integers below 2^53 are exact *)

Lemma shl_align_val m e e' :
  e' ≤ e → Z.pos (shl_align m e e').1 = Z.pos m * 2 ^ (e - e') ∧ (shl_align m e e').2 = e'.
Proof.
  intros He. unfold shl_align. destruct (e' - e) as [|d|d] eqn:Hd; [|lia|].
  - replace (e - e') with 0 by lia. simpl. lia.
  - replace (e - e') with (Z.pos d) by lia. cbn [fst snd]. split; [|done]. clear.
    induction d as [|d IH] using Pos.peano_ind; [simpl; lia|].
    rewrite Pos2Z.inj_succ, Z.pow_succ_r, Pos.iter_succ, Pos2Z.inj_xO, IH by lia. lia.
Qed.

(** Any spelling [m * 2^e] of an integer [k] rounds to [k]. *)
Lemma round_integer m e k :
  -52 ≤ e ≤ 0 → Z.pos m = k * 2 ^ (- e) → k ≤ MAX_EXACT →
  ∃ m' e', binary_round 53 1024 false m e = S754_finite false m' e' ∧
    -52 ≤ e' ≤ 0 ∧ Z.pos m' = k * 2 ^ (- e').
Proof.
  intros He Hm Hk. assert (HP : 0 < 2 ^ (- e)) by (apply Z.pow_pos_nonneg; lia).
  assert (Hk0 : 0 < k) by nia. pose proof (digits2_bounds m) as Hd.
  unfold binary_round. rewrite fexp_double. set (d := Z.pos (digits2_pos m)) in *.
  assert (HdE : 1 ≤ d + e ≤ 53).
  { split.
    - assert (- e < d); [|lia]. apply (Z.pow_lt_mono_r_iff 2); lia || nia.
    - assert (d - 1 < 53 - e); [|lia]. apply (Z.pow_lt_mono_r_iff 2); [lia..|].
      replace (53 - e) with (53 + - e) by lia. rewrite Z.pow_add_r by lia. unfold MAX_EXACT in Hk. nia. }
  set (e' := Z.max (d + e - 53) (-1074)).
  assert (∃ m1 e1, shl_align m e e' = (m1, e1) ∧ -52 ≤ e1 ≤ 0 ∧ Z.pos m1 = k * 2 ^ (- e1))
    as (m1 & e1 & -> & He1 & Hm1).
  { destruct (decide (e' ≤ e)) as [Hle|Hle].
    - destruct (shl_align_val m e e' Hle) as [H1 H2]. destruct (shl_align m e e') as [m1 e1].
      simpl in *. subst e1. exists m1, e'. split_and!; [done|lia..|].
      rewrite H1, Hm. rewrite <-Z.mul_assoc, <-Z.pow_add_r by lia. do 2 f_equal. lia.
    - exists m, e. split_and!; [|lia..|done]. unfold shl_align. by destruct (e' - e) eqn:?; [..|lia]. }
  destruct (rounding (Z.pos m1) e1) as (m' & e2 & Heq & He2 & Hr); [lia|split; [lia|nia]|].
  exists m', e2. split_and!; [done|lia..|]. destruct (Hr k) as [Hlo Hhi]. lia.
Qed.

Lemma f64_of_exact n :
  (0 < n)%N → Z.of_N n ≤ MAX_EXACT →
  ∃ m e, f64_of n = S754_finite false m e ∧ -52 ≤ e ≤ 0 ∧ Z.pos m = Z.of_N n * 2 ^ (- e).
Proof.
  intros Hn Hm. unfold f64_of, binary_normalize. destruct n as [|n]; [lia|]. simpl Z.of_N in *.
  apply round_integer; [lia|simpl; lia|done].
Qed.

(** [n as f64 - 1.0]. *)
Lemma f64_pred n :
  (1 < n)%N → Z.of_N n ≤ MAX_EXACT →
  ∃ m e, f64_sub (f64_of n) (f64_of 1) = S754_finite false m e ∧ -52 ≤ e ≤ 0 ∧
    Z.pos m = (Z.of_N n - 1) * 2 ^ (- e).
Proof.
  intros Hn Hmax. destruct (f64_of_exact n) as (m & e & -> & He & Hm); [lia|done|].
  change (f64_of 1) with (S754_finite false (2 ^ 52) (-52)). unfold f64_sub, SFsub.
  rewrite (Z.min_r e (-52)) by lia. cbn [cond_Zopp].
  destruct (shl_align_val m e (-52)) as [-> _]; [lia|].
  change (Z.pos (shl_align (2 ^ 52) (-52) (-52)).1) with (2 ^ 52).
  rewrite Hm, <-Z.mul_assoc, <-Z.pow_add_r by lia. replace (- e + (e - -52)) with 52 by lia.
  assert (HP : Z.sub (Z.of_N n * 2 ^ 52) (2 ^ 52) = (Z.of_N n - 1) * 2 ^ (- -52)) by (simpl; lia).
  rewrite HP. destruct ((Z.of_N n - 1) * 2 ^ (- -52)) as [|k|k] eqn:Hk; [lia| |lia].
  cbn [binary_normalize]. apply round_integer; [lia|by rewrite <-Hk|lia].
Qed.

(** [round] and [as usize] of a value no integer of which lies below [X] or above [Y]. *)
Lemma round_as_usize m e X Y :
  e ≤ 0 → 0 ≤ X → Y ≤ MAX_EXACT → X * 2 ^ (- e) ≤ Z.pos m ≤ Y * 2 ^ (- e) →
  X ≤ Z.of_N (f64_as_usize (f64_round (S754_finite false m e))) ≤ Y.
Proof.
  intros He HX HY Hm. assert (HP : 0 < 2 ^ (- e)) by (apply Z.pow_pos_nonneg; lia).
  cbn [f64_round]. destruct (Z.leb_spec 0 e) as [Hge|Hlt].
  { assert (e = 0) as -> by lia. cbn [f64_as_usize Z.leb Z.compare]. change (2 ^ (- 0)) with 1 in Hm.
    change (2 ^ 0) with 1. unfold MAX_EXACT, U64 in *. lia. }
  cbn [cond_Zopp]. set (i := Z.div _ _).
  assert (Hhalf : 2 ^ (- e) = 2 * 2 ^ (- e - 1)).
  { rewrite <-Z.pow_succ_r by lia. f_equal. lia. }
  assert (Hi : X ≤ i ≤ Y).
  { subst i. split; [apply Z.div_le_lower_bound; lia|].
    assert (Z.div (Z.pos m + 2 ^ (- e - 1)) (2 ^ (- e)) < Y + 1); [|lia].
    apply Z.div_lt_upper_bound; [done|]. lia. }
  destruct i as [|k|k]; [simpl; lia| |lia]. cbn [binary_normalize].
  destruct (round_integer k 0 (Z.pos k)) as (m' & e' & -> & He' & Hm'); [lia|simpl; lia|lia|].
  cbn [f64_as_usize]. assert (HP' : 0 < 2 ^ (- e')) by (apply Z.pow_pos_nonneg; lia).
  assert (Hval : (if Z.leb 0 e' then Z.pos m' * 2 ^ e' else Z.div (Z.pos m') (2 ^ (- e'))) = Z.pos k).
  { destruct (Z.leb_spec 0 e').
    - assert (e' = 0) as -> by lia. simpl in *. lia.
    - rewrite Hm'. by apply Z.div_mul; lia. }
  rewrite Hval. unfold MAX_EXACT, U64 in *. lia.
Qed.
