(* ===== verification/Load.v ===== *)
(** The load generators: [src/examples/load.rs], [load_churn.rs], [load_wal.rs] and
    [load_file.rs].  A thread per connection sends requests until a deadline and counts the
    answered ones; the main thread adds the counts up. *)

From S2P Require Import Prelude Manage Scenario Text Reader Args Wal FileServer.
From stdpp Require Import sorting.
#[local] Open Scope N_scope.

(** ** The command lines *)

Section opts.
Context {A : Type}.

Record LoadOpts := mkLoad {
  load_addr : A; load_conns : N; load_seconds : N; load_bytes : N;
  (** Nanoseconds. *)
  load_hold : N; load_reconnect : bool
}.
Definition load_start (a : A) : LoadOpts := mkLoad a 64 5 512 0 false.
(** [n as usize] keeps a [u64] on a 64-bit target; [Duration::from_millis]. *)
Definition load_set (o : LoadOpts) (flag : list N) (n : N) : option LoadOpts :=
  let '(mkLoad a c s b h r) := o in
  if bool_decide (flag = codes "--conns") then Some (mkLoad a (as_u64 n) s b h r)
  else if bool_decide (flag = codes "--seconds") then Some (mkLoad a c n b h r)
  else if bool_decide (flag = codes "--bytes") then Some (mkLoad a c s (as_u64 n) h r)
  else if bool_decide (flag = codes "--hold-ms") then Some (mkLoad a c s b (n * 1000000) r)
  else if bool_decide (flag = codes "--reconnect") then Some (mkLoad a c s b h (negb (n =? 0)))
  else None.

Record ChurnOpts := mkChurn { churn_addr : A; churn_conns : N; churn_seconds : N }.
Definition churn_start (a : A) : ChurnOpts := mkChurn a 64 5.
Definition churn_set (o : ChurnOpts) (flag : list N) (n : N) : option ChurnOpts :=
  let '(mkChurn a c s) := o in
  if bool_decide (flag = codes "--conns") then Some (mkChurn a (as_u64 n) s)
  else if bool_decide (flag = codes "--seconds") then Some (mkChurn a c n)
  else None.

Record WalOpts := mkWalOpts { wal_addr : A; wal_conns : N; wal_seconds : N; wal_bytes : N }.
Definition wal_start (a : A) : WalOpts := mkWalOpts a 64 5 512.
Definition wal_set (o : WalOpts) (flag : list N) (n : N) : option WalOpts :=
  let '(mkWalOpts a c s b) := o in
  if bool_decide (flag = codes "--conns") then Some (mkWalOpts a (as_u64 n) s b)
  else if bool_decide (flag = codes "--seconds") then Some (mkWalOpts a c n b)
  else if bool_decide (flag = codes "--bytes") then Some (mkWalOpts a c s (as_u64 n))
  else None.

Record FileOpts := mkFileOpts {
  file_addr : A; file_conns : N; file_seconds : N; file_bytes : N; file_files : N; file_dir : list N
}.
(** [env] is the variable [FILE_DIR]. *)
Definition file_start (env : option (list N)) (a : A) : FileOpts :=
  mkFileOpts a 64 5 4096 64 (default (codes "/tmp/bench-files") env).
Definition file_set (o : FileOpts) (flag : list N) (n : N) : option FileOpts :=
  let '(mkFileOpts a c s b f d) := o in
  if bool_decide (flag = codes "--conns") then Some (mkFileOpts a (as_u64 n) s b f d)
  else if bool_decide (flag = codes "--seconds") then Some (mkFileOpts a c n b f d)
  else if bool_decide (flag = codes "--bytes") then Some (mkFileOpts a c s (as_u64 n) f d)
  else if bool_decide (flag = codes "--files") then Some (mkFileOpts a c s b (as_u64 n) d)
  else None.
End opts.
Arguments LoadOpts : clear implicits.
Arguments ChurnOpts : clear implicits.
Arguments WalOpts : clear implicits.
Arguments FileOpts : clear implicits.

(** [parse] of each program. *)
Definition load_parse {A} (parse_addr : list N → option A) := flag_parse parse_addr load_set load_start.
Definition churn_parse {A} (parse_addr : list N → option A) := flag_parse parse_addr churn_set churn_start.
Definition wal_parse {A} (parse_addr : list N → option A) := flag_parse parse_addr wal_set wal_start.
Definition file_parse {A} (parse_addr : list N → option A) (env : option (list N)) :=
  flag_parse parse_addr file_set (file_start env).

(** ** A client thread *)

(** What makes a client fail. *)
Inductive failure :=
| Failed (e : io_error) | Echo_mismatch | Bad_ack (ack : list N)
| Server_err (line : list N) | Bad_size (line : list N) | Size_mismatch (size : N).

(** The connection, how many have been dialled, how often the clock was read, and the
    latencies so far, in nanoseconds. *)
Record Client (C : Type) := mkClient { link : C; dials : nat; ticks : nat; latencies : list N }.
Arguments mkClient {_} _ _ _ _.
Arguments link {_} _.
Arguments dials {_} _.
Arguments ticks {_} _.
Arguments latencies {_} _.

Section client.
Context {C : Type} (clock : nat → N).

Definition now : St (Client C) N := λ c,
  Val (clock c.(ticks), mkClient c.(link) c.(dials) (S c.(ticks)) c.(latencies)).
Definition on_link {X} (op : St C X) : St (Client C) X := λ c,
  match op c.(link) with
  | Val (x, l) => Val (x, mkClient l c.(dials) c.(ticks) c.(latencies))
  | Panic => Panic
  | NoFuel => NoFuel
  end.
(** [latencies.push(t.elapsed().as_nanos() as u64)]. *)
Definition push_elapsed (t : N) : St (Client C) unit :=
  t' ← now;
  modify (λ c, mkClient c.(link) c.(dials) c.(ticks) (c.(latencies) ++ [as_u64 (t' - t)])).

(** [while Instant::now() < deadline], [request] being one round; [None] means it went well. *)
Fixpoint timed (fuel : nat) (deadline : N) (request : St (Client C) (option failure)) :
    St (Client C) (result (list N) failure) :=
  match fuel with
  | O => no_fuel
  | S fuel =>
      t ← now;
      if t <? deadline then
        r ← request;
        match r with
        | Some e => mret (Err e)
        | None => timed fuel deadline request
        end
      else l ← gets latencies; mret (Ok l)
  end.
End client.

(** [(0..bytes).map(|j| (i + j) as u8)]. *)
Definition payload (i bytes : N) : list N :=
  (λ j, (i + N.of_nat j) mod 256) <$> seq 0 (N.to_nat bytes).

Section requests.
Context `{Tcp} (dial : nat → result stream io_error) (clock : nat → N).

(** [TcpStream::connect] and [set_nodelay], the outcome of the [k]-th time given. *)
Definition connect : St (Client stream) (option failure) := λ c,
  match dial c.(dials) with
  | Ok s => Val (None, mkClient s (S c.(dials)) c.(ticks) c.(latencies))
  | Err e => Val (Some (Failed e), mkClient c.(link) (S c.(dials)) c.(ticks) c.(latencies))
  end.
Definition write_all (bs : list N) : St stream (result unit io_error) := λ s,
  let '(r, s) := send bs s in Val (r, s).

(** Send, read as many bytes as asked for, take the time, then look at them. *)
Definition exchange (t : N) (bs : list N) (room : N) (check : list N → option failure) :
    St (Client stream) (option failure) :=
  sent ← on_link (write_all bs);
  match sent with
  | Err e => mret (Some (Failed e))
  | Ok _ =>
      back ← on_link (read_exact room);
      match back with
      | Err e => mret (Some (Failed e))
      | Ok back => push_elapsed clock t;; mret (check back)
      end
  end.
Definition same_as (bs back : list N) : option failure :=
  if bool_decide (back = bs) then None else Some Echo_mismatch.

(** One round of [load.rs], client [i]. *)
Definition load_request {A} (o : LoadOpts A) (i : N) : St (Client stream) (option failure) :=
  let bs := payload i o.(load_bytes) in
  t ← now clock;
  dialled ← (if o.(load_reconnect) then connect else mret None);
  match dialled with
  | Some e => mret (Some e)
  | None => exchange t bs o.(load_bytes) (same_as bs)
  end.

(** One round of [load_churn.rs]: a connection of its own, one byte there and back. *)
Definition churn_request (i : N) : St (Client stream) (option failure) :=
  let byte := [i mod 256] in
  t ← now clock;
  dialled ← connect;
  match dialled with
  | Some e => mret (Some e)
  | None => exchange t byte 1 (same_as byte)
  end.

(** One round of [load_wal.rs]. *)
Definition OK_LINE : list N := codes "OK" ++ [10].
Definition wal_request {A} (o : WalOpts A) (i : N) : St (Client stream) (option failure) :=
  t ← now clock;
  exchange t (payload i o.(wal_bytes)) 3
    (λ ack, if bool_decide (ack = OK_LINE) then None else Some (Bad_ack ack)).

(** [Duration::from_secs]. *)
Definition SECOND : N := 1000000000.

(** The threads, from the barrier on; [started] is [Instant::now()] in the main thread. *)
Definition load_client {A} (fuel : nat) (started : N) (o : LoadOpts A) (i : N) :=
  timed clock fuel (started + o.(load_hold) + o.(load_seconds) * SECOND) (load_request o i).
Definition churn_client {A} (fuel : nat) (started : N) (o : ChurnOpts A) (i : N) :=
  timed clock fuel (started + o.(churn_seconds) * SECOND) (churn_request i).
Definition wal_client {A} (fuel : nat) (started : N) (o : WalOpts A) (i : N) :=
  timed clock fuel (started + o.(wal_seconds) * SECOND) (wal_request o i).

(** *** [load_file.rs]

    The reader over a clone of the socket, and the index of the next file. *)
Record FileLink := mkFileLink { reader : BufReader; file_idx : N }.

Definition file_name (bytes i : N) : list N := codes ("f" +:+ pretty bytes +:+ "-" +:+ pretty i +:+ ".bin").
Definition send_request (bytes : N) (files : N) : St FileLink (result unit io_error) := λ l,
  let req := file_name bytes l.(file_idx) ++ [10] in
  let '(r, s) := send req l.(reader).(inner) in
  Val (r, mkFileLink (mkReader l.(reader).(unread) s) ((l.(file_idx) + 1) mod files)).
Definition on_reader {X} (op : St BufReader X) : St FileLink X := λ l,
  match op l.(reader) with
  | Val (x, r) => Val (x, mkFileLink r l.(file_idx))
  | Panic => Panic
  | NoFuel => NoFuel
  end.

(** The header line: the size it promises. *)
Definition file_header (bytes : N) (header : list N) : option failure :=
  match from_utf8 header with
  | None => Some (Failed (mkIoError InvalidData "invalid utf-8 sequence"))
  | Some text =>
      let line := trim_end_matches is_whitespace text in
      if starts_with (codes "ERR") line then Some (Server_err line)
      else
        match parse_number line with
        | None => Some (Bad_size line)
        | Some size => if size =? bytes then None else Some (Size_mismatch size)
        end
  end.

Definition file_request {A} (lines : nat) (o : FileOpts A) : St (Client FileLink) (option failure) :=
  t ← now clock;
  sent ← on_link (send_request o.(file_bytes) o.(file_files));
  match sent with
  | Err e => mret (Some (Failed e))
  | Ok _ =>
      header ← on_link (on_reader (read_until lines 10 []));
      match header with
      | Err e => mret (Some (Failed e))
      | Ok header =>
          match file_header o.(file_bytes) header with
          | Some e => mret (Some e)
          | None =>
              body ← on_link (on_reader (reader_read_exact o.(file_bytes)));
              match body with
              | Err e => mret (Some (Failed e))
              | Ok _ => push_elapsed clock t;; mret None
              end
          end
      end
  end.

(** [i % opts.files] panics for no files. *)
Definition file_client {A} (lines fuel : nat) (started : N) (o : FileOpts A) (i : N) (s : stream) :
    outcome (result (list N) failure * Client FileLink) :=
  if o.(file_files) =? 0 then Panic
  else timed clock fuel (started + o.(file_seconds) * SECOND) (file_request lines o)
         (mkClient (mkFileLink (reader_new s) (i mod o.(file_files))) 1 0 []).
End requests.

(** [Vec] and [String] panic rather than ask for more than [isize::MAX] bytes, on 64 bits. *)
Definition ISIZE_MAX : N := 2 ^ 63 - 1.
Definition allocates {X} (bytes : N) (go_on : outcome X) : outcome X :=
  if bytes <=? ISIZE_MAX then go_on else Panic.

(** *** The files [load_file.rs] asks for

    What [setup_files] needs of the file system: [file_size] is [metadata(path).ok()]'s length. *)
Class Workdir := {
  workdir : Type;
  create_dir_all : list N → workdir → result unit io_error * workdir;
  file_size : list N → workdir → option N;
  write_file : list N → list N → workdir → result unit io_error * workdir
}.
Class WorkdirLaws (W : Workdir) := {
  write_sizes p bs d d' q : write_file p bs d = (Ok tt, d') →
    file_size q d' = if bool_decide (q = p) then Some (len bs) else file_size q d
}.

Section setup.
Context `{Workdir}.

Definition pattern (bytes : N) : list N := (λ i, N.of_nat i mod 251) <$> seq 0 (N.to_nat bytes).

Fixpoint setup_each (dir : list N) (bytes : N) (ks : list nat) : St workdir (result unit io_error) :=
  match ks with
  | [] => mret (Ok tt)
  | i :: ks =>
      let path := path_join dir (file_name bytes (N.of_nat i)) in
      size ← gets (file_size path);
      r ← (if bool_decide (size = Some bytes) then mret (Ok tt)
           else λ d, let '(r, d) := write_file path (pattern bytes) d in Val (r, d));
      match r with
      | Err e => mret (Err e)
      | Ok _ => setup_each dir bytes ks
      end
  end.
Definition setup_files {A} (o : FileOpts A) : St workdir (result unit io_error) :=
  r ← (λ d, let '(r, d) := create_dir_all o.(file_dir) d in Val (r, d));
  match r with
  | Err e => mret (Err e)
  | Ok _ =>
      lift (allocates o.(file_bytes) (Val tt));;
      setup_each o.(file_dir) o.(file_bytes) (seq 0 (N.to_nat o.(file_files)))
  end.
End setup.

(** ** Adding up *)

(** A client's latencies are added to the others', or it is counted as failed; then they are
    sorted. *)
Definition tally_one (acc : list N * N) (r : result (list N) failure) : list N * N :=
  match r with Ok l => (acc.1 ++ l, acc.2) | Err _ => (acc.1, acc.2 + 1) end.
Definition sorted_tally (acc : list N * N) : list N * N := (merge_sort N.le acc.1, acc.2).
Definition tally (results : list (result (list N) failure)) : list N * N :=
  sorted_tally (fold_left tally_one results ([], 0)).

(** ** The start: everyone connects, then everyone waits

    In [load.rs], [load_wal.rs] and [load_file.rs] a thread dials before it waits at the
    [Barrier]; when the dial fails it is gone without having waited. *)
Inductive phase := Dialling | Waiting | Running | Gone.
#[export] Instance phase_eq_dec : EqDecision phase.
Proof. solve_decision. Defined.

(** The threads; the barrier opens when as many wait as there are threads. *)
Definition open_barrier (ts : list phase) : list phase :=
  if bool_decide (Forall (λ p, p = Waiting) ts) then (λ _, Running) <$> ts else ts.
Inductive start_step : list phase → list phase → Prop :=
| dialled_ok ts i : ts !! i = Some Dialling → start_step ts (open_barrier (<[i := Waiting]> ts))
| dial_failed ts i : ts !! i = Some Dialling → start_step ts (<[i := Gone]> ts).
Definition start_reachable (conns : nat) : list phase → Prop :=
  rtc start_step (replicate conns Dialling).

(** ** Lemmas *)

Section loops.
Context {C : Type} (clock : nat → N).
Implicit Types c : Client C.

Lemma wp_on_link {X} (op : St C X) (Q : X → Client C → Prop) c :
  wp op (λ x l, Q x (mkClient l c.(dials) c.(ticks) c.(latencies))) c.(link) → wp (on_link op) Q c.
Proof. unfold wp, on_link. by destruct (op _) as [[x l]| |]. Qed.

Lemma wp_now (Q : N → Client C → Prop) c :
  Q (clock c.(ticks)) (mkClient c.(link) c.(dials) (S c.(ticks)) c.(latencies)) → wp (now clock) Q c.
Proof. done. Qed.

Lemma wp_push t (Q : unit → Client C → Prop) c :
  Q tt (mkClient c.(link) c.(dials) (S c.(ticks)) (c.(latencies) ++ [as_u64 (clock c.(ticks) - t)])) →
  wp (push_elapsed clock t) Q c.
Proof. intros HQ. unfold push_elapsed. wp_step. apply wp_now. by apply wp_modify. Qed.

(** After one more look at the clock. *)
Definition ticked c : Client C := mkClient c.(link) c.(dials) (S c.(ticks)) c.(latencies).

(** The loop ends when the clock is past the deadline for good, and keeps an invariant indexed
    by the number of requests that went well. *)
Lemma timed_spec deadline (past : nat) request (I : nat → Client C → Prop) (E : failure → Client C → Prop) :
  (∀ k, (past ≤ k)%nat → deadline ≤ clock k) →
  (∀ n c, I n c → I n (ticked c)) →
  (∀ n c, I n c → (c.(ticks) < past)%nat → wp request (λ r c', (c.(ticks) < c'.(ticks))%nat ∧
     match r with None => I (S n) c' | Some e => E e c' end) (ticked c)) →
  ∀ fuel n c, (past < fuel + c.(ticks))%nat → (0 < fuel)%nat → I n c →
  wp (timed clock fuel deadline request) (λ r c',
    match r with Ok l => l = c'.(latencies) ∧ ∃ m, I m c' | Err e => E e c' end) c.
Proof.
  intros Hclock Hnow Hreq. induction fuel as [|fuel IH]; intros n c Hf Hpos HI; [lia|].
  cbn [timed]. wp_step. apply wp_now. destruct (N.ltb_spec (clock (ticks c)) deadline) as [Hlt|_].
  2: { wp_step. apply wp_gets. apply wp_ret. split; [done|]. exists n. by apply Hnow. }
  assert (Hpast : (ticks c < past)%nat).
  { destruct (Nat.lt_ge_cases (ticks c) past) as [|Hge]; [done|]. apply Hclock in Hge. lia. }
  wp_step. wp_apply Hreq as r c' [Ht Hr]; [done|done|].
  destruct r as [e|]; [by apply wp_ret|]. apply (IH (S n)); [lia|lia|done].
Qed.
End loops.

Lemma len_payload i bytes : len (payload i bytes) = bytes.
Proof. unfold payload, len. rewrite length_fmap, length_seq. lia. Qed.

Section exchanges.
Context {T : Tcp} {TL : TcpLaws T} (dial : nat → result stream io_error) (clock : nat → N).
Implicit Types c : Client stream.

(** Between [s] and [s'], [bs] went out and [back] came in. *)
Definition exchanged (s s' : stream) (bs back : list N) : Prop :=
  outgoing s' = outgoing s ++ bs ∧ incoming s = back ++ incoming s'.

Lemma exchanged_trans s s1 s2 b1 b2 k1 k2 :
  exchanged s s1 b1 k1 → exchanged s1 s2 b2 k2 → exchanged s s2 (b1 ++ b2) (k1 ++ k2).
Proof. intros [Ho Hi] [Ho2 Hi2]. split; [by rewrite Ho2, Ho, app_assoc|by rewrite Hi, Hi2, app_assoc]. Qed.

Lemma exchanged_spec t bs room check c :
  wp (exchange clock t bs room check) (λ r c',
    (c.(ticks) ≤ c'.(ticks))%nat ∧ c'.(dials) = c.(dials) ∧
    ((∃ e, r = Some (Failed e)) ∨
     ∃ back, r = check back ∧ len back = room ∧ exchanged c.(link) c'.(link) bs back ∧
       length c'.(latencies) = S (length c.(latencies)))) c.
Proof.
  unfold exchange. wp_step. apply wp_on_link. unfold wp at 1, write_all.
  destruct (send bs (link c)) as [[[]|e] s1] eqn:Hs; [|cbn beta iota; wp_steps; cbn [ticks dials]; by eauto].
  cbn beta iota. wp_step. apply wp_on_link. eapply wp_mono; [apply read_exact_spec|].
  intros [back|e] s2 (Hout & _ & Hr); [|wp_steps; cbn [ticks dials]; by eauto].
  destruct (send_reads _ _ _ _ Hs) as [Hin _]. destruct Hr as [Hl Hi].
  wp_step. apply wp_push. wp_steps. cbn [ticks dials link latencies] in *.
  split; [lia|]. split; [done|]. right. exists back.
  split_and!; [done|done| |by rewrite length_app; simpl; lia].
  split; [|congruence]. rewrite Hout. by apply send_writes.
Qed.
End exchanges.

(** A thread that sends [bs] and wants [want] back, round after round. *)
Section rounds.
Context {T : Tcp} {TL : TcpLaws T} (dial : nat → result stream io_error) (clock : nat → N).
Context (bs want : list N) (room : N) (bad : list N → failure).
Context (deadline : N) (past : nat) (Hclock : ∀ k, (past ≤ k)%nat → deadline ≤ clock k).
Implicit Types c : Client stream.

Definition expect (back : list N) : option failure :=
  if bool_decide (back = want) then None else Some (bad back).
Definition times (n : nat) (l : list N) : list N := concat (replicate n l).

Lemma times_S n l : times (S n) l = times n l ++ l.
Proof. unfold times. by rewrite replicate_S_end, concat_app; simpl; rewrite app_nil_r. Qed.

(** On one connection. *)
Definition kept_request : St (Client stream) (option failure) :=
  t ← now clock; exchange clock t bs room expect.
Definition kept_rounds c0 (n : nat) c : Prop :=
  length c.(latencies) = n ∧ exchanged c0.(link) c.(link) (times n bs) (times n want).
Definition kept_failure c0 (e : failure) c : Prop :=
  (∃ e', e = Failed e') ∨
  ∃ n back, e = bad back ∧ back ≠ want ∧ len back = room ∧
    exchanged c0.(link) c.(link) (times (S n) bs) (times n want ++ back).

Lemma kept_request_spec c0 n c :
  kept_rounds c0 n c → wp kept_request (λ r c', (c.(ticks) ≤ c'.(ticks))%nat ∧
    match r with None => kept_rounds c0 (S n) c' | Some e => kept_failure c0 e c' end) c.
Proof.
  intros [Hn Hx]. unfold kept_request. wp_step. apply wp_now.
  eapply wp_mono; [apply exchanged_spec|]. intros r c' (Ht & _ & Hr). cbn [ticks link latencies dials] in *.
  split; [lia|]. destruct Hr as [[e ->]|(back & -> & Hl & Hx' & Hlat)]; [by left; eauto|].
  pose proof (exchanged_trans _ _ _ _ _ _ _ Hx Hx') as Hxx. rewrite <-times_S in Hxx.
  unfold expect. destruct (bool_decide_reflect (back = want)) as [->|Hne].
  - rewrite <-times_S in Hxx. by split; [congruence|].
  - right. by exists n, back.
Qed.

Lemma kept_spec c0 fuel :
  c0.(latencies) = [] → (past < fuel + c0.(ticks))%nat → (0 < fuel)%nat →
  wp (timed clock fuel deadline kept_request) (λ r c', match r with
    | Ok l => exchanged c0.(link) c'.(link) (times (length l) bs) (times (length l) want)
    | Err e => kept_failure c0 e c'
    end) c0.
Proof.
  intros Hlat Hf Hpos.
  eapply wp_mono; [apply (timed_spec clock deadline past kept_request (kept_rounds c0) (kept_failure c0) Hclock)
    with (n := 0%nat); try done|].
  - intros n c Hk _. by apply (kept_request_spec c0 n (ticked c)).
  - split; [by rewrite Hlat|]. split; simpl; [by rewrite app_nil_r|done].
  - intros [l|e] c' Hr; [|done]. by destruct Hr as (-> & m & <- & Hx).
Qed.

(** On a connection of its own each time. *)
Definition fresh_request : St (Client stream) (option failure) :=
  t ← now clock;
  dialled ← connect dial;
  match dialled with Some e => mret (Some e) | None => exchange clock t bs room expect end.
Definition answered (k : nat) : Prop := ∃ s s', dial k = Ok s ∧ exchanged s s' bs want.
Definition fresh_rounds c0 (n : nat) c : Prop :=
  length c.(latencies) = n ∧ c.(dials) = (c0.(dials) + n)%nat ∧
  ∀ k, (k < n)%nat → answered (c0.(dials) + k).
Definition fresh_failure c0 (e : failure) (c : Client stream) : Prop :=
  (∃ e', e = Failed e') ∨
  ∃ n s back, e = bad back ∧ back ≠ want ∧ len back = room ∧ dial (c0.(dials) + n) = Ok s ∧
    exchanged s c.(link) bs back.

Lemma fresh_request_spec c0 n c :
  fresh_rounds c0 n c → wp fresh_request (λ r c', (c.(ticks) ≤ c'.(ticks))%nat ∧
    match r with None => fresh_rounds c0 (S n) c' | Some e => fresh_failure c0 e c' end) c.
Proof.
  intros (Hn & Hd & Hk). unfold fresh_request. wp_step. apply wp_now. wp_step.
  unfold wp at 1, connect. cbn [ticks link latencies dials].
  destruct (dial (dials c)) as [s|e] eqn:Hdial; cbn beta iota.
  2: { apply wp_ret. cbn [ticks]. split; [lia|]. by left; eauto. }
  eapply wp_mono; [apply exchanged_spec|]. intros r c' (Ht & Hd' & Hr). cbn [ticks link latencies dials] in *.
  split; [lia|]. destruct Hr as [[e ->]|(back & -> & Hl & Hx & Hlat)]; [by left; eauto|].
  rewrite Hd in Hdial, Hd'. unfold expect. destruct (bool_decide_reflect (back = want)) as [->|Hne].
  - split_and!; [congruence|lia|]. intros k Hlt.
    destruct (decide (k = n)) as [->|]; [by exists s, (link c')|apply Hk; lia].
  - right. by exists n, s, back.
Qed.

Lemma fresh_spec c0 fuel :
  c0.(latencies) = [] → (past < fuel + c0.(ticks))%nat → (0 < fuel)%nat →
  wp (timed clock fuel deadline fresh_request) (λ r c', match r with
    | Ok l => c'.(dials) = (c0.(dials) + length l)%nat ∧ ∀ k, (k < length l)%nat → answered (c0.(dials) + k)
    | Err e => fresh_failure c0 e c'
    end) c0.
Proof.
  intros Hlat Hf Hpos.
  eapply wp_mono; [apply (timed_spec clock deadline past fresh_request (fresh_rounds c0) (fresh_failure c0) Hclock)
    with (n := 0%nat); try done|].
  - intros n c Hk _. by apply (fresh_request_spec c0 n (ticked c)).
  - split_and!; [by rewrite Hlat|lia|lia].
  - intros [l|e] c' Hr; [|done]. by destruct Hr as (-> & m & <- & ? & ?).
Qed.
End rounds.

(** *** The header of [load_file.rs] *)

(** The size line the file server writes is read back as that size. *)
Lemma file_header_pretty bytes n :
  n < U64 → file_header bytes (codes (pretty n) ++ [10]) = if n =? bytes then None else Some (Size_mismatch n).
Proof.
  intros Hn. unfold file_header. pose proof (pretty_all_digits n) as Hd.
  assert (Ha : Forall (λ c, c < 128) (codes (pretty n) ++ [10])).
  { apply Forall_app. split; [|by repeat constructor]. eapply Forall_impl; [exact Hd|].
    unfold is_digit. intros. cbn beta in *. lia. }
  rewrite <-(as_bytes_ascii _ Ha) at 1. rewrite from_utf8_as_bytes.
  2: { eapply Forall_impl; [exact Ha|]. intros x Hx. unfold is_char. cbn beta in *. lia. }
  pose proof (parse_number_pretty n Hn) as Hp. pose proof (pretty_not_nil n) as Hne.
  destruct (codes (pretty n)) as [|c s _] eqn:Hc using rev_ind; [done|].
  assert (Hcd : is_digit c).
  { apply Forall_app in Hd as [_ Hd]. by apply Forall_cons in Hd as [Hd _]. }
  rewrite (trim_end_suffix is_whitespace s [10] c); [|by repeat constructor|].
  2: { unfold is_digit in Hcd. unfold is_whitespace. rewrite !between_false by lia. simpl.
       apply bool_decide_eq_false. set_unfold. lia. }
  assert (Herr : starts_with (codes "ERR") (s ++ [c]) = false).
  { destruct (s ++ [c]) as [|d t]; [done|]. apply Forall_cons in Hd as [Hd _].
    change (codes "ERR") with [69; 82; 82]. cbn [starts_with]. unfold is_digit in Hd.
    by destruct (N.eqb_spec 69 d); [lia|]. }
  by rewrite Herr, Hp.
Qed.

Section files.
Context {T : Tcp} {TL : TcpLaws T} (clock : nat → N).

(** What the server answers for a file. *)
Definition file_reply (c : list N) : list N := (codes (pretty (len c)) ++ newline) ++ c.

(** The header line is the first line. *)
Lemma line_of_header (n : N) rest line tail :
  codes (pretty n) ++ newline ++ rest = line ++ tail → line_of 10 line tail →
  line = codes (pretty n) ++ newline ∧ tail = rest.
Proof.
  intros He Hl. pose proof (pretty_digits n) as Hd. revert He Hd. generalize (codes (pretty n)) as p.
  intros p He Hd. destruct Hl as [(l & -> & Hl)|[Hl ->]].
  - unfold newline in *. rewrite <-(app_assoc l) in He. simpl in He.
    enough (p = l ∧ rest = tail) as [-> ->] by done.
    revert l Hl He. induction p as [|x p IH]; intros [|y l] Hl He; simpl in He; set_unfold.
    + by injection He.
    + injection He as <- _. naive_solver.
    + injection He as -> _. naive_solver.
    + injection He as <- He. destruct (IH ltac:(naive_solver) l ltac:(naive_solver) He) as [-> ->]. done.
  - rewrite app_nil_r in He. subst line. exfalso. apply Hl. unfold newline. set_solver.
Qed.

(** A request answered with a file of the right size is counted, and everything after the reply
    is left for the next request. *)
Lemma file_request_spec {A} lines (o : FileOpts A) c rest (cl : Client FileLink) :
  let r := cl.(link).(reader) in
  pending r = file_reply c ++ rest → len c = o.(file_bytes) → len c < U64 → steady r.(inner) →
  (N.to_nat (len (file_reply c ++ rest)) < lines)%nat →
  wp (file_request clock lines o) (λ res cl', (cl.(ticks) < cl'.(ticks))%nat ∧
    ((∃ e s', send (file_name o.(file_bytes) cl.(link).(file_idx) ++ [10]) r.(inner) = (Err e, s') ∧
       res = Some (Failed e)) ∨
     (res = None ∧ pending cl'.(link).(reader) = rest ∧ steady cl'.(link).(reader).(inner) ∧
      outgoing cl'.(link).(reader).(inner) =
        outgoing r.(inner) ++ file_name o.(file_bytes) cl.(link).(file_idx) ++ [10] ∧
      cl'.(link).(file_idx) = (cl.(link).(file_idx) + 1) mod o.(file_files) ∧
      length cl'.(latencies) = S (length cl.(latencies))))) cl.
Proof.
  cbv zeta. intros Hp Hlen Hu Hst Hf. unfold file_request. wp_step. apply wp_now. wp_step. apply wp_on_link.
  cbn [link]. unfold wp at 1, send_request. destruct (send _ _) as [w s1] eqn:Hs. cbn beta iota.
  destruct w as [[]|e]; [|apply wp_ret; cbn [ticks]; split; [lia|left; by exists e, s1]].
  destruct (send_reads _ _ _ _ Hs) as [Hin Hst1]. pose proof (send_writes _ _ _ Hs) as Hout.
  set (r1 := mkReader (unread (reader (link cl))) s1).
  assert (Hp1 : pending r1 = file_reply c ++ rest) by (unfold pending, r1; simpl; by rewrite Hin).
  wp_step. apply wp_on_link. cbn [link dials ticks latencies]. unfold on_reader. unfold wp at 1. cbn [reader file_idx].
  pose proof (read_until_spec lines 10 [] r1) as Hru. rewrite Hp1 in Hru. specialize (Hru Hf). unfold wp in Hru.
  fold r1. destruct (read_until lines 10 [] r1) as [[header r2]| |]; [|done..]. cbn beta iota.
  destruct Hru as [[Ho2 Hst2] Hh]. destruct header as [header|e]; [|by specialize (Hst1 Hst)].
  destruct Hh as (line & -> & He & Hl). unfold file_reply in He. rewrite <-!app_assoc in He.
  destruct (line_of_header _ _ _ _ He Hl) as [-> Hp2]. cbn [app].
  rewrite (file_header_pretty _ _ Hu), (proj2 (N.eqb_eq _ _) Hlen).
  wp_step. apply wp_on_link. cbn [link dials ticks latencies]. unfold wp at 1. cbn [reader file_idx].
  pose proof (reader_read_exact_spec (file_bytes o) r2) as Hre. unfold wp in Hre.
  destruct (reader_read_exact (file_bytes o) r2) as [[body r3]| |]; [|done..]. cbn beta iota.
  destruct Hre as [[Ho3 Hst3] Hb]. destruct body as [body|e].
  2: { specialize (Hb (Hst2 (Hst1 Hst))). rewrite Hp2, len_app in Hb. lia. }
  destruct Hb as [Hbl Hb]. rewrite Hp2 in Hb.
  assert (body = c ∧ pending r3 = rest) as [-> Hp3].
  { apply app_inj_1 in Hb; [by destruct Hb|]. unfold len in *. lia. }
  wp_step. apply wp_push. apply wp_ret. cbn [link dials ticks latencies reader file_idx].
  split; [lia|]. right. split_and!; [done|done| | |done|rewrite length_app; simpl; lia].
  - apply Hst3, Hst2, Hst1, Hst.
  - rewrite Ho3, Ho2. exact Hout.
Qed.

(** The replies to the next [n] requests of a client that is at its [k]-th, [contents] being
    what each file holds. *)
Definition replies (contents : N → list N) (files i : N) (k n : nat) : list N :=
  concat ((λ j, file_reply (contents ((i + N.of_nat j) mod files))) <$> seq k n).
(** The [n] requests of client [i]: the files in turn, from its own number on. *)
Definition asked (bytes files i : N) (n : nat) : list N :=
  concat ((λ j, file_name bytes ((i + N.of_nat j) mod files) ++ [10]) <$> seq 0 n).

Lemma asked_S bytes files i n :
  asked bytes files i (S n) = asked bytes files i n ++ file_name bytes ((i + N.of_nat n) mod files) ++ [10].
Proof. unfold asked. rewrite seq_S, fmap_app, concat_app. cbn. by rewrite app_nil_r. Qed.

Context {A : Type} (o : FileOpts A) (i : N) (contents : N → list N).
Context (Hsize : ∀ k, k < o.(file_files) → len (contents k) = o.(file_bytes)).

Definition file_rounds (lines past : nat) out0 (n : nat) (c : Client FileLink) : Prop :=
  let r := c.(link).(reader) in
  pending r = replies contents o.(file_files) i n (past - n) ∧ steady r.(inner) ∧
  outgoing r.(inner) = out0 ++ asked o.(file_bytes) o.(file_files) i n ∧
  c.(link).(file_idx) = (i + N.of_nat n) mod o.(file_files) ∧
  length c.(latencies) = n ∧ (n ≤ c.(ticks))%nat ∧ (N.to_nat (len (pending r)) < lines)%nat.

Lemma file_rounds_now lines past out0 n c :
  file_rounds lines past out0 n c →
  file_rounds lines past out0 n (ticked c).
Proof. intros (? & ? & ? & ? & ? & ? & ?). split_and!; simpl; try done. lia. Qed.

Lemma file_rounds_next lines past out0 n c :
  0 < o.(file_files) → o.(file_bytes) < U64 →
  file_rounds lines past out0 n c → (n < past)%nat →
  wp (file_request clock lines o) (λ r c', (c.(ticks) < c'.(ticks))%nat ∧
    match r with None => file_rounds lines past out0 (S n) c' | Some e => ∃ e', e = Failed e' end) c.
Proof.
  intros Hfiles Hb (Hp & Hst & Hout & Hidx & Hlat & Hn & Hl) Hlt.
  set (k := (i + N.of_nat n) mod file_files o) in *.
  assert (Hk : k < file_files o) by (apply N.mod_lt; lia). specialize (Hsize k Hk).
  assert (Hsplit : replies contents (file_files o) i n (past - n) =
    file_reply (contents k) ++ replies contents (file_files o) i (S n) (past - S n)).
  { replace (past - n)%nat with (S (past - S n)) by lia. done. }
  rewrite Hsplit in Hp. rewrite Hp in Hl.
  eapply wp_mono; [apply (file_request_spec lines o (contents k) _ c Hp Hsize); [lia|done|done]|].
  intros r c' (Ht & Hr). split; [lia|]. destruct Hr as [(e & s' & _ & ->)|(-> & Hp' & Hst' & Hout' & Hidx' & Hlat')];
    [by eexists|].
  split_and!; [done|done| | |congruence|lia|].
  - rewrite Hout', Hout, Hidx, asked_S. by rewrite <-!app_assoc.
  - rewrite Hidx', Hidx. unfold k. rewrite N.Div0.add_mod_idemp_l. f_equal. lia.
  - rewrite Hp'. rewrite len_app in Hl. lia.
Qed.
End files.

(** ** The theorems *)

(** A counted request is an echoed one.  The clock reaching the deadline, a thread of [load.rs]
    ends.  If it finishes on the connection it started with, there are as many latencies as
    payloads sent, and exactly that many payloads came back, unbroken and in order; if it dials
    for every request, each of those connections gave the payload back.  A mismatch is reported
    only when the bytes read do differ, and then none of its requests are counted. *)
Theorem load_counts_echoes {T : Tcp} {TL : TcpLaws T} {A} dial clock (o : LoadOpts A) i started past fuel
    (s : stream) d :
  (∀ k, (past ≤ k)%nat → started + o.(load_hold) + o.(load_seconds) * SECOND ≤ clock k) →
  (past < fuel)%nat →
  let bs := payload i o.(load_bytes) in
  ∃ r c, load_client dial clock fuel started o i (mkClient s d 0 []) = Val (r, c) ∧
    match r with
    | Ok l =>
        if o.(load_reconnect)
        then c.(dials) = (d + length l)%nat ∧ ∀ k, (k < length l)%nat → answered dial bs bs (d + k)
        else exchanged s c.(link) (times (length l) bs) (times (length l) bs)
    | Err (Failed _) => True
    | Err Echo_mismatch => ∃ n s0 back, back ≠ bs ∧ len back = o.(load_bytes) ∧
        if o.(load_reconnect) then dial (d + n)%nat = Ok s0 ∧ exchanged s0 c.(link) bs back
        else s0 = s ∧ exchanged s c.(link) (times (S n) bs) (times n bs ++ back)
    | Err _ => False
    end.
Proof.
  cbv zeta. set (bs := payload i (load_bytes o)). intros Hclock Hf. apply wp_val. unfold load_client.
  destruct (load_reconnect o) eqn:Hr.
  - eapply wp_mono; [unfold load_request; rewrite Hr;
      apply (fresh_spec dial clock bs bs (load_bytes o) (λ _, Echo_mismatch) _ past Hclock (mkClient s d 0 []));
      simpl; [done|lia|lia]|].
    cbn [link dials]. intros [l|e] c Hres; [done|].
    destruct Hres as [[e' ->]|(n & s0 & back & -> & ? & ? & ? & ?)]; [done|]. by exists n, s0, back.
  - eapply wp_mono; [unfold load_request; rewrite Hr;
      apply (kept_spec clock bs bs (load_bytes o) (λ _, Echo_mismatch) _ past Hclock (mkClient s d 0 []));
      simpl; [done|lia|lia]|].
    cbn [link dials]. intros [l|e] c Hres; [done|].
    destruct Hres as [[e' ->]|(n & back & -> & ? & ? & ?)]; [done|]. by exists n, s, back.
Qed.

(** [load_churn.rs]: every counted request was a connection of its own, which sent the thread's
    byte back. *)
Theorem churn_counts_echoes {T : Tcp} {TL : TcpLaws T} {A} dial clock (o : ChurnOpts A) i started past fuel
    (s : stream) d :
  (∀ k, (past ≤ k)%nat → started + o.(churn_seconds) * SECOND ≤ clock k) → (past < fuel)%nat →
  ∃ r c, churn_client dial clock fuel started o i (mkClient s d 0 []) = Val (r, c) ∧
    ∀ l, r = Ok l → c.(dials) = (d + length l)%nat ∧
      ∀ k, (k < length l)%nat → answered dial [i mod 256] [i mod 256] (d + k).
Proof.
  intros Hclock Hf. apply wp_val. unfold churn_client.
  eapply wp_mono; [apply (fresh_spec dial clock [i mod 256] [i mod 256] 1 (λ _, Echo_mismatch) _ past Hclock
    (mkClient s d 0 [])); simpl; [done|lia|lia]|].
  intros r c Hres l ->. done.
Qed.

(** [load_wal.rs]: there are as many latencies as payloads sent and as acknowledgements read. *)
Theorem wal_counts_acks {T : Tcp} {TL : TcpLaws T} {A} clock (o : WalOpts A) i started past fuel
    (s : stream) d :
  (∀ k, (past ≤ k)%nat → started + o.(wal_seconds) * SECOND ≤ clock k) → (past < fuel)%nat →
  ∃ r c, wal_client clock fuel started o i (mkClient s d 0 []) = Val (r, c) ∧
    ∀ l, r = Ok l → exchanged s c.(link) (times (length l) (payload i o.(wal_bytes))) (times (length l) OK_LINE).
Proof.
  intros Hclock Hf. apply wp_val. unfold wal_client, wal_request.
  eapply wp_mono; [apply (kept_spec clock (payload i o.(wal_bytes)) OK_LINE 3 Bad_ack _ past Hclock
    (mkClient s d 0 [])); simpl; [done|lia|lia]|].
  intros r c Hres l ->. done.
Qed.

(** [load_file.rs] against the file server: with every file of the size asked for and a
    connection that answers each request in the server's format, the thread asks for the files
    in turn from its own number on, reads each reply to its last byte, and fails only if a send
    does; there are as many latencies as files asked for. *)
Theorem files_in_turn {T : Tcp} {TL : TcpLaws T} {A} clock (o : FileOpts A) i contents started past fuel lines
    (s : stream) :
  (∀ k, k < o.(file_files) → len (contents k) = o.(file_bytes)) → 0 < o.(file_files) → o.(file_bytes) < U64 →
  steady s → incoming s = replies contents o.(file_files) i 0 past →
  (N.to_nat (len (incoming s)) < lines)%nat →
  (∀ k, (past ≤ k)%nat → started + o.(file_seconds) * SECOND ≤ clock k) → (past < fuel)%nat →
  ∃ r c, file_client clock lines fuel started o i s = Val (r, c) ∧
    match r with
    | Ok l => outgoing c.(link).(reader).(inner) =
                outgoing s ++ asked o.(file_bytes) o.(file_files) i (length l) ∧
              pending c.(link).(reader) = replies contents o.(file_files) i (length l) (past - length l)
    | Err e => ∃ e', e = Failed e'
    end.
Proof.
  intros Hsize Hfiles Hb Hst Hin Hl Hclock Hf. unfold file_client.
  rewrite (proj2 (N.eqb_neq _ _)) by lia. apply wp_val.
  eapply wp_mono; [apply (timed_spec clock _ past (file_request clock lines o)
    (file_rounds o i contents lines past (outgoing s)) (λ e _, ∃ e', e = Failed e') Hclock) with (n := 0%nat)|].
  - intros n c. apply file_rounds_now.
  - intros n c HI Hp. pose proof (file_rounds_now o i contents lines past (outgoing s) n c HI) as HI'.
    assert (n < past)%nat by (destruct HI as (_ & _ & _ & _ & _ & ? & _); lia).
    eapply wp_mono; [by apply (file_rounds_next clock o i contents Hsize lines past (outgoing s))|].
    cbn [ticked ticks]. intros r c' [Ht Hr]. split; [lia|done].
  - simpl. lia.
  - lia.
  - split_and!; simpl; [|done|by rewrite app_nil_r|by rewrite N.add_0_r|done|lia|done].
    rewrite Nat.sub_0_r. by rewrite <-Hin.
  - intros [l|e] c Hr; [|done]. destruct Hr as (-> & m & Hp & _ & Hout & _ & <- & _). done.
Qed.

(** *** The files *)

Section setup.
Context {W : Workdir} {WL : WorkdirLaws W}.

Lemma setup_each_spec dir bytes ks d :
  wp (setup_each dir bytes ks) (λ r d', r = Ok tt →
    (∀ q, file_size q d = Some bytes → file_size q d' = Some bytes) ∧
    ∀ i, i ∈ ks → file_size (path_join dir (file_name bytes (N.of_nat i))) d' = Some bytes) d.
Proof.
  revert d. induction ks as [|i ks IH]; intros d; cbn [setup_each].
  { apply wp_ret. intros _. split; [done|]. by intros i ?%not_elem_of_nil. }
  set (path := path_join dir (file_name bytes (N.of_nat i))).
  wp_step. apply wp_gets. wp_step.
  apply (wp_mono _ (λ r d1, r = Ok tt → file_size path d1 = Some bytes ∧
    ∀ q, file_size q d = Some bytes → file_size q d1 = Some bytes)).
  { destruct (bool_decide_reflect (file_size path d = Some bytes)) as [He|He]; [by apply wp_ret|].
    unfold wp. destruct (write_file _ _ d) as [r d1] eqn:Hw. intros ->.
    assert (Hlen : len (pattern bytes) = bytes).
    { unfold pattern, len. rewrite length_fmap, length_seq. lia. }
    split; [|intros q Hq]; rewrite (write_sizes _ _ _ _ _ Hw).
    - by rewrite bool_decide_eq_true_2, Hlen by done.
    - case_bool_decide; [by rewrite Hlen|done]. }
  intros [[]|e] d1 H1; [|by apply wp_ret]. destruct (H1 eq_refl) as [Hi Hq].
  eapply wp_mono; [apply IH|]. intros r d' Hr Hok. destruct (Hr Hok) as [Hkeep Hall]. split; [by auto|].
  intros j [->|Hj]%elem_of_cons; [by apply Hkeep|by apply Hall].
Qed.

(** When [setup_files] goes through, every file the clients will ask for is there, with the
    right number of bytes. *)
Theorem setup_files_ready {A} (o : FileOpts A) d :
  o.(file_bytes) ≤ ISIZE_MAX →
  ∃ r d', setup_files o d = Val (r, d') ∧
    (r = Ok tt → ∀ k, k < o.(file_files) →
       file_size (path_join o.(file_dir) (file_name o.(file_bytes) k)) d' = Some o.(file_bytes)).
Proof.
  intros Hb%N.leb_le. apply wp_val. unfold setup_files. wp_step. unfold wp at 1.
  destruct (create_dir_all _ d) as [[[]|e] d1]; [|by apply wp_ret].
  wp_step. eapply wp_lift; [unfold allocates; by rewrite Hb|]. eapply wp_mono; [apply setup_each_spec|]. intros r d' Hr Hok k Hk. destruct (Hr Hok) as [_ Hall].
  rewrite <-(N2Nat.id k). apply Hall. apply elem_of_seq. lia.
Qed.
End setup.

(** *** Flags *)

(** Settings as they are typed. *)
Definition typed (fs : list (string * N)) : list (list N) := fs ≫= λ f, [codes f.1; codes (pretty f.2)].

Fixpoint set_all {O} (set : O → list N → N → option O) (o : O) (fs : list (string * N)) : option O :=
  match fs with
  | [] => Some o
  | (flag, n) :: fs => o' ← set o (codes flag) n; set_all set o' fs
  end.

Lemma flag_loop_typed {O} (set : O → list N → N → option O) fs o o' :
  Forall (λ f, f.2 < U64) fs → set_all set o fs = Some o' → flag_loop set o (typed fs) = Ok o'.
Proof.
  revert o. induction fs as [|[flag n] fs IH]; intros o Hfs Hset.
  - injection Hset as <-. done.
  - apply Forall_cons in Hfs as [Hn Hfs]. simpl in Hn, Hset. unfold typed. cbn [mbind list_bind app fst snd].
    fold (typed fs). cbn [flag_loop]. rewrite parse_number_pretty by done.
    destruct (set o (codes flag) n) as [o1|]; [|done]. by apply IH.
Qed.

(** Decide the comparison of the flag at hand with a known one. *)
#[local] Ltac flag_match :=
  first
    [ rewrite bool_decide_eq_true_2 by reflexivity
    | rewrite bool_decide_eq_false_2 by (by vm_compute) ];
  cbn [mbind option_bind set_all load_set churn_set wal_set file_set].

(** Typing a configuration out as flags, in any base of numbers below 2^64, and parsing it gives
    the configuration back; [--hold-ms] counts milliseconds and [--reconnect] any number but 0
    for yes. *)
Theorem flags_read_back {A} (parse_addr : list N → option A) w a env c s b h r f :
  parse_addr w = Some a → c < U64 → s < U64 → b < U64 → h < U64 → r < U64 → f < U64 →
  load_parse parse_addr
    (w :: typed [("--conns", c); ("--seconds", s); ("--bytes", b); ("--hold-ms", h); ("--reconnect", r)]) =
    Ok (mkLoad a c s b (h * 1000000) (negb (r =? 0))) ∧
  churn_parse parse_addr (w :: typed [("--conns", c); ("--seconds", s)]) = Ok (mkChurn a c s) ∧
  wal_parse parse_addr (w :: typed [("--conns", c); ("--seconds", s); ("--bytes", b)]) =
    Ok (mkWalOpts a c s b) ∧
  file_parse parse_addr env
    (w :: typed [("--conns", c); ("--seconds", s); ("--bytes", b); ("--files", f)]) =
    Ok (mkFileOpts a c s b f (default (codes "/tmp/bench-files") env)).
Proof.
  intros Hw Hc Hs Hb Hh Hr Hfs. unfold load_parse, churn_parse, wal_parse, file_parse, flag_parse.
  rewrite Hw. split_and!; apply flag_loop_typed; rewrite ?Forall_cons; try by split_and!.
  all: cbn [set_all load_set load_start churn_set churn_start wal_set wal_start file_set file_start].
  all: repeat flag_match; unfold as_u64; by rewrite ?N.mod_small by done.
Qed.

(** *** The start *)

(** Until the barrier opens nobody runs; when it does nobody has given up. *)
Definition start_inv (ts : list phase) : Prop :=
  Forall (λ p, p = Running) ts ∨ (Waiting ∈ ts → ∃ p, p ∈ ts ∧ p ≠ Waiting) ∧ Running ∉ ts.

Lemma start_step_inv ts ts' : start_inv ts → start_step ts ts' → start_inv ts'.
Proof.
  intros [Hall|[Hs Hrun]] Hstep.
  - exfalso. assert (Dialling ∈ ts) as Hin.
    { inversion Hstep as [? i Hi|? i Hi]; subst; by eapply list_elem_of_lookup_2. }
    rewrite Forall_forall in Hall. by specialize (Hall _ Hin).
  - inversion Hstep as [? i Hi|? i Hi]; subst; unfold start_inv.
    + unfold open_barrier. destruct (bool_decide_reflect (Forall (λ p, p = Waiting) (<[i:=Waiting]> ts))) as [Hw|Hw].
      * left. apply Forall_fmap, Forall_true. done.
      * right. assert (Hrun' : Running ∉ <[i:=Waiting]> ts).
        { intros [j [Hj|Hj]%list_lookup_insert_Some]%list_elem_of_lookup; [naive_solver|].
          apply Hrun. eapply list_elem_of_lookup_2, Hj. }
        split; [|done]. intros _. apply not_Forall_Exists in Hw; [|apply _].
        apply Exists_exists in Hw as (p & ? & ?). by exists p.
    + right. assert (Hrun' : Running ∉ <[i:=Gone]> ts).
      { intros [j [Hj|Hj]%list_lookup_insert_Some]%list_elem_of_lookup; [naive_solver|].
        apply Hrun. eapply list_elem_of_lookup_2, Hj. }
      split; [|done]. intros _. exists Gone. split; [|done].
      apply list_elem_of_lookup. exists i. apply list_lookup_insert_eq. by eapply lookup_lt_Some.
Qed.

Lemma start_reachable_inv conns ts : start_reachable conns ts → start_inv ts.
Proof.
  unfold start_reachable. intros Hr. remember (replicate conns Dialling) as ts0 eqn:E. assert (start_inv ts0) as H0.
  { subst. right. split; [by intros [[=] _]%elem_of_replicate|].
    intros [[=] _]%elem_of_replicate. }
  clear E. induction Hr as [|x y z Hstep Hr IH]; [done|]. apply IH. by eapply start_step_inv.
Qed.

(** One refused dial stops the run.  Once everyone has dialled, the clients run if every dial
    went through; if one did not, the barrier never opens: nobody runs, nothing more can happen,
    and whoever did connect waits for good, and the main thread's join with them. *)
Theorem refused_dial_hangs conns ts :
  start_reachable conns ts → Dialling ∉ ts →
  if bool_decide (Gone ∈ ts)
  then Forall (λ p, p = Waiting ∨ p = Gone) ts ∧ ∀ ts', ¬ start_step ts ts'
  else Forall (λ p, p = Running) ts.
Proof.
  intros Hinv%start_reachable_inv Hd.
  assert (Hstuck : ∀ ts', ¬ start_step ts ts').
  { intros ts' Hstep. apply Hd. inversion Hstep as [? i Hi|? i Hi]; subst; by eapply list_elem_of_lookup_2. }
  destruct (bool_decide_reflect (Gone ∈ ts)) as [Hg|Hg].
  - split; [|done]. apply Forall_forall. intros p Hp. destruct Hinv as [Hall|[_ Hrun]].
    + rewrite Forall_forall in Hall. by specialize (Hall _ Hg).
    + destruct p; [by destruct Hd|by left|by destruct Hrun|by right].
  - destruct Hinv as [|[Hw Hrun]]; [done|]. apply Forall_forall. intros p Hp. exfalso.
    assert (Hp' : ∀ q, q ∈ ts → q = Waiting) by (intros [] ?; naive_solver).
    rewrite (Hp' p Hp) in Hp. destruct (Hw Hp) as (q & Hq & Hne). by apply Hne, Hp'.
Qed.

(** *** The sum *)

(** Every latency of a client that finished is in the sorted sum once, and the rest failed. *)
Theorem tally_all (results : list (result (list N) failure)) :
  let oks := omap (λ r, match r with Ok l => Some l | Err _ => None end) results in
  (tally results).1 ≡ₚ concat oks ∧ Sorted N.le (tally results).1 ∧
  N.of_nat (length oks) + (tally results).2 = len results.
Proof.
  cbv zeta. unfold tally, sorted_tally.
  enough (Hf : ∀ acc, let r := fold_left tally_one results acc in
    r.1 = acc.1 ++ concat (omap (λ r, match r with Ok l => Some l | Err _ => None end) results) ∧
    N.of_nat (length (omap (λ r, match r with Ok l => Some l | Err _ => None end) results)) + r.2 =
      acc.2 + len results).
  { destruct (Hf ([], 0)) as [H1 H2]. cbv zeta in H1, H2. cbn [fst snd] in *. split_and!.
    - by rewrite merge_sort_Permutation, H1.
    - apply Sorted_merge_sort. intros x y. lia.
    - rewrite H2. lia. }
  induction results as [|[l|e] rs IH]; intros acc; cbv zeta in *; cbn [fold_left tally_one omap list_omap length].
  - cbn [concat]. rewrite app_nil_r. split; [done|]. change (len []) with 0. cbn. lia.
  - destruct (IH (acc.1 ++ l, acc.2)) as [H1 H2]. cbn [fst snd concat length] in *. rewrite H1, len_cons, app_assoc.
    split; [done|lia].
  - destruct (IH (acc.1, acc.2 + 1)) as [H1 H2]. cbn [fst snd] in *. rewrite H1, len_cons. split; [done|lia].
Qed.

(** ** Concrete runs *)

#[local] Existing Instance script_tcp.

(** A clock that moves a second each time it is looked at, and a client that sends two bytes. *)
Definition demo_clock (k : nat) : N := N.of_nat k * SECOND.
Definition demo_load : LoadOpts unit := mkLoad tt 1 4 2 0 false.
Definition demo_echo : stream (Tcp := script_tcp) := mkScript [255; 0; 255; 0; 255; 0] [Ok 0] [] [].
Definition no_dial (k : nat) : result (stream (Tcp := script_tcp)) io_error := Err (mkIoError BrokenPipe "").

Lemma demo_clock_past n (k : nat) : (N.to_nat n ≤ k)%nat → n * SECOND ≤ demo_clock k.
Proof. unfold demo_clock, SECOND. lia. Qed.

Lemma load_counts_echoes_witness :
  ∃ c, load_client no_dial demo_clock 5 0 demo_load 255 (mkClient demo_echo 1 0 []) =
         Val (Ok [SECOND; SECOND], c) ∧
       exchanged demo_echo c.(link) [255; 0; 255; 0] [255; 0; 255; 0].
Proof.
  destruct (load_counts_echoes no_dial demo_clock demo_load 255 0 4 5 demo_echo 1) as (r & c & He & Hr).
  - intros k Hk. by apply (demo_clock_past 4).
  - lia.
  - assert (r = Ok [SECOND; SECOND]) as ->.
    { revert He. vm_compute. by intros [= <- _]. }
    exists c. split; [exact He|]. exact Hr.
Defined.

Lemma refused_dial_hangs_witness :
  start_reachable 2 [Waiting; Gone] ∧ ∀ ts', ¬ start_step [Waiting; Gone] ts'.
Proof.
  assert (Hr : start_reachable 2 [Waiting; Gone]).
  { eapply rtc_l; [by apply (dialled_ok _ 0)|]. eapply rtc_l; [by apply (dial_failed _ 1)|]. apply rtc_refl. }
  split; [exact Hr|]. apply (refused_dial_hangs 2 [Waiting; Gone] Hr).
  by apply (bool_decide_unpack _).
Defined.

Lemma flags_read_back_witness :
  load_parse Some (codes "10.0.0.1:7000" :: typed [("--conns", 8); ("--seconds", 2); ("--bytes", 64);
                                                    ("--hold-ms", 250); ("--reconnect", 1)]) =
    Ok (mkLoad (codes "10.0.0.1:7000") 8 2 64 250000000 true).
Proof.
  by apply (flags_read_back Some (codes "10.0.0.1:7000") (codes "10.0.0.1:7000") None 8 2 64 250 1 3).
Defined.

(** Two files of three bytes, four requests from the second file on. *)
Definition demo_contents (k : N) : list N := [k; k; k].
Definition demo_files : FileOpts unit := mkFileOpts tt 1 4 3 2 [].
Definition demo_replies : stream (Tcp := script_tcp) := mkScript (replies demo_contents 2 1 0 4) [Ok 1; Ok 6] [] [].

Lemma files_in_turn_witness :
  ∃ c, file_client demo_clock 30 5 0 demo_files 1 demo_replies = Val (Ok [SECOND; SECOND], c) ∧
       outgoing c.(link).(reader).(inner) = codes "f3-1.bin" ++ [10] ++ codes "f3-0.bin" ++ [10].
Proof.
  destruct (files_in_turn demo_clock demo_files 1 demo_contents 0 4 5 30 demo_replies) as (r & c & He & Hr).
  - done.
  - done.
  - done.
  - repeat constructor; by eexists.
  - done.
  - apply (bool_decide_unpack _). vm_compute. exact I.
  - intros k Hk. by apply (demo_clock_past 4).
  - lia.
  - assert (r = Ok [SECOND; SECOND]) as ->.
    { revert He. vm_compute. by intros [= <- _]. }
    exists c. split; [exact He|]. exact (proj1 Hr).
Defined.

(** [--files 0]: the first thing a client thread does is divide by it. *)
Lemma no_files_panics : ∃ o : FileOpts unit,
  file_parse (λ _, Some tt) None [codes "addr"; codes "--files"; codes "0"] = Ok o ∧
  file_client demo_clock 30 5 0 o 0 demo_replies = Panic.
Proof.
  exists (mkFileOpts tt 64 5 4096 0 (codes "/tmp/bench-files")). split; vm_compute; reflexivity.
Qed.

(** A server read that brings only the first byte of a payload is logged and acknowledged like
    a record: the client counts the request when half of it is on disk. *)
#[local] Existing Instance disk_log.
#[local] Existing Instance demo_features.
Definition half_arrived : Session :=
  mkSession (mkScript (take 1 (payload 0 2)) [] [] []) (with_capacity 65536) (mkWal (mkDisk [] []) 0).
Definition halfway : outcome (list (list N) * list N * result (list N) failure) :=
  match Wal.serve true 10 half_arrived with
  | Val (acks, s) =>
      match wal_client demo_clock 2 0 (mkWalOpts tt 1 1 2) 0
              (mkClient (mkScript s.(Wal.peer).(written) [] [] []) 1 0 []) with
      | Val (r, _) => Val (acks, s.(segment).(wal_file).(Wal.on_disk), r)
      | _ => Panic
      end
  | _ => Panic
  end.
Lemma acked_halfway : payload 0 2 = [0; 1] ∧ halfway = Val ([[0]], [0], Ok [SECOND]).
Proof. by split; vm_compute. Qed.
