(* ===== verification/Kvload.v ===== *)
(** The load generator for the key-value servers ([src/examples/kvload.rs]): its command line,
    its random numbers and the batches of commands it pipelines. *)

From S2P Require Import Prelude Text.

(** ** The command line *)

Inductive Workload := Get | Set_ | Incr | Ping | Mix.

Record Opts (A : Type) := mkOpts {
  addrs : list A;
  conns : N;
  seconds : N;
  workload : Workload;
  value : N;
  keys : N;
  pipeline : N
}.
Arguments mkOpts {A} _ _ _ _ _ _ _.
Arguments addrs {A} _.
Arguments conns {A} _.
Arguments seconds {A} _.
Arguments workload {A} _.
Arguments value {A} _.
Arguments keys {A} _.
Arguments pipeline {A} _.

(** The workload a word names. *)
Definition parse_workload (w : list N) : option Workload :=
  if bool_decide (w = codes "get") then Some Get
  else if bool_decide (w = codes "set") then Some Set_
  else if bool_decide (w = codes "incr") then Some Incr
  else if bool_decide (w = codes "ping") then Some Ping
  else if bool_decide (w = codes "mix") then Some Mix
  else None.

Section parse.
(** [resolve] is [to_socket_addrs]: an error, or the addresses a name has. *)
Context {A : Type} (resolve : list N → result (list A) unit).

(** Every way [parse] fails is an [InvalidInput] error; which one it is is kept. *)
Inductive usage :=
| Usage | Bad_address (a : list N) | No_resolution (a : list N) | No_address
| Needs_value (flag : list N) | Bad_number (flag : list N) | Unknown_workload (w : list N)
| Unknown_flag (flag : list N).

Fixpoint resolve_all (names : list (list N)) : result (list A) usage :=
  match names with
  | [] => Ok []
  | a :: names =>
      match resolve a with
      | Err _ => Err (Bad_address a)
      | Ok [] => Err (No_resolution a)
      | Ok (sa :: _) =>
          match resolve_all names with Ok l => Ok (sa :: l) | Err e => Err e end
      end
  end.

Definition with_number (flag val : list N) (set : N → Opts A) : result (Opts A) usage :=
  match parse_number val with Some n => Ok (set n) | None => Err (Bad_number flag) end.

(** One flag and its value. *)
Definition set_flag (o : Opts A) (flag val : list N) : result (Opts A) usage :=
  let '(mkOpts a c s w v k p) := o in
  if bool_decide (flag = codes "--conns") then with_number flag val (λ n, mkOpts a n s w v k p)
  else if bool_decide (flag = codes "--seconds") then with_number flag val (λ n, mkOpts a c n w v k p)
  else if bool_decide (flag = codes "--value") then with_number flag val (λ n, mkOpts a c s w n k p)
  else if bool_decide (flag = codes "--keys") then with_number flag val (λ n, mkOpts a c s w v n p)
  else if bool_decide (flag = codes "--pipeline") then with_number flag val (λ n, mkOpts a c s w v k n)
  else if bool_decide (flag = codes "--workload") then
    match parse_workload val with
    | Some w => Ok (mkOpts a c s w v k p)
    | None => Err (Unknown_workload val)
    end
  else Err (Unknown_flag flag).

(** The loop over the flags: each takes the word after it. *)
Fixpoint set_flags (o : Opts A) (args : list (list N)) : result (Opts A) usage :=
  match args with
  | [] => Ok o
  | [flag] => Err (Needs_value flag)
  | flag :: val :: args =>
      match set_flag o flag val with Ok o => set_flags o args | Err e => Err e end
  end.

(** [parse], of the words after the program's name. *)
Definition parse (args : list (list N)) : result (Opts A) usage :=
  match args with
  | [] => Err Usage
  | addr_arg :: args =>
      match resolve_all (filter (λ s, s ≠ []) (split_on (N.eqb 44) addr_arg)) with
      | Err e => Err e
      | Ok [] => Err No_address
      | Ok l =>
          match set_flags (mkOpts l 64 5 Get 16 128 1) args with
          | Err e => Err e
          | Ok (mkOpts a c s w v k p) => Ok (mkOpts a (c `max` 1) s w v (k `max` 1) (p `max` 1))
          end
      end
  end.
End parse.

(** ** Random numbers *)

(** [Rng::next]: the number, which is the new state too. *)
Definition rng_next (x : N) : N :=
  let x := N.lxor x (N.shiftl x 13 mod U64) in
  let x := N.lxor x (N.shiftr x 7) in
  N.lxor x (N.shiftl x 17 mod U64).

(** The generator of connection [id]. *)
Definition rng_seed (id : N) : N :=
  N.lxor (N.lxor 0x9e3779b97f4a7c15 ((id * 0xd1b54a32d192) mod U64)) 1.

(** ** Batches *)

Section batch.
Context {A : Type} (opts : Opts A) (id : N).

Definition key (i : N) : list N := codes (pretty id +:+ ":" +:+ pretty (i mod opts.(keys))).
Definition stored_value : list N := replicate (N.to_nat opts.(value)) 120.

Definition get_line (k : list N) : list N := codes "GET " ++ k ++ [10].
Definition set_line (k : list N) : list N := codes "SET " ++ k ++ codes " " ++ stored_value ++ [10].

(** Command [p] of a batch. *)
Definition command (p : N) (k : list N) : list N :=
  match opts.(workload) with
  | Get => get_line k
  | Set_ => set_line k
  | Incr => codes "INCR " ++ k ++ [10]
  | Ping => codes "PING" ++ [10]
  | Mix => if p mod 2 =? 0 then set_line k else get_line k
  end.

(** [n] commands from command [p] on, the random state threaded. *)
Fixpoint batch (n : nat) (p rng : N) : list N * N :=
  match n with
  | O => ([], rng)
  | S n =>
      let rng := rng_next rng in
      let '(rest, rng') := batch n (p + 1) rng in
      (command p (key rng) ++ rest, rng')
  end.

(** The check on the last reply of a round. *)
Definition mismatch (reply : list N) : bool :=
  let text := trim_end_matches is_whitespace reply in
  match opts.(workload) with
  | Get => negb (len text =? opts.(value))
  | Ping => negb (bool_decide (text = codes "PONG"))
  | _ => false
  end.
End batch.

(** ** Lemmas *)

Lemma lxor_zero a b : N.lxor a b = 0 → a = b.
Proof. apply N.lxor_eq. Qed.

Lemma shift_left_stuck x k : 0 < k → x = N.shiftl x k mod U64 → x = 0.
Proof.
  intros Hk Hx. apply N.bits_inj_0. intros i. induction i as [i IH] using (well_founded_induction N.lt_wf_0).
  rewrite Hx. change U64 with (2 ^ 64). destruct (N.lt_ge_cases i 64) as [Hlt|Hge].
  - rewrite N.mod_pow2_bits_low by done. destruct (N.lt_ge_cases i k).
    + by apply N.shiftl_spec_low.
    + rewrite N.shiftl_spec_high' by done. apply IH. lia.
  - by apply N.mod_pow2_bits_high.
Qed.

Lemma lxor_u64 a b : a < U64 → b < U64 → N.lxor a b < U64.
Proof.
  change U64 with (2 ^ 64). intros Ha Hb. destruct (N.eq_dec (N.lxor a b) 0) as [->|Hne]; [lia|].
  apply N.log2_lt_pow2; [lia|]. pose proof (N.log2_lxor a b).
  assert (∀ c, c < 2 ^ 64 → N.log2 c < 64) as Hlog.
  { intros c Hc. destruct (N.eq_dec c 0) as [->|]; [done|]. apply N.log2_lt_pow2; lia. }
  pose proof (Hlog a Ha). pose proof (Hlog b Hb). lia.
Qed.

Lemma rng_next_live x : 0 < x < U64 → 0 < rng_next x < U64.
Proof.
  intros Hx. unfold rng_next.
  assert (Hl : ∀ y k, 0 < k → 0 < y < U64 → 0 < N.lxor y (N.shiftl y k mod U64) < U64).
  { intros y k Hk Hy. split.
    - apply N.neq_0_lt_0. intros H0%lxor_zero. apply shift_left_stuck in H0; lia.
    - apply lxor_u64; [lia|]. by apply N.mod_lt. }
  assert (Hr : ∀ y, 0 < y < U64 → 0 < N.lxor y (N.shiftr y 7) < U64).
  { intros y Hy. rewrite N.shiftr_div_pow2. change (2 ^ 7) with 128. split.
    - apply N.neq_0_lt_0. intros H0%lxor_zero. zify; Z.to_euclidean_division_equations; lia.
    - apply lxor_u64; [lia|]. zify; Z.to_euclidean_division_equations; lia. }
  apply Hl; [done|]. apply Hr. by apply Hl.
Qed.

(** How many lines some bytes end. *)
Definition lines_in (b : list N) : nat := length (filter (λ c, c = 10) b).

Lemma lines_in_app a b : lines_in (a ++ b) = (lines_in a + lines_in b)%nat.
Proof. unfold lines_in. by rewrite filter_app, length_app. Qed.
Lemma lines_in_none a : 10 ∉ a → lines_in a = 0%nat.
Proof.
  unfold lines_in. induction a as [|x a IH]; intros Ha; [done|].
  rewrite not_elem_of_cons in Ha. destruct Ha as [Hx Ha]. rewrite filter_cons_False by congruence.
  by apply IH.
Qed.

Section batches.
Context {A : Type} (opts : Opts A) (id : N).

Lemma key_no_newline i : 10 ∉ key opts id i.
Proof.
  unfold key. rewrite !codes_app, !not_elem_of_app. split_and!; try apply pretty_digits.
  by apply (bool_decide_unpack _).
Qed.

Lemma value_no_newline : 10 ∉ stored_value opts.
Proof. unfold stored_value. intros [? _]%elem_of_replicate. done. Qed.

Lemma set_line_one k : 10 ∉ k → lines_in (set_line opts k) = 1%nat.
Proof.
  intros Hk. pose proof value_no_newline as Hv. unfold set_line.
  rewrite !lines_in_app, (lines_in_none k), (lines_in_none (stored_value _)) by done. reflexivity.
Qed.

Lemma command_one_line p k : 10 ∉ k → lines_in (command opts p k) = 1%nat.
Proof.
  intros Hk.
  assert (Hget : lines_in (get_line k) = 1%nat).
  { unfold get_line. rewrite !lines_in_app, (lines_in_none k) by done. reflexivity. }
  pose proof (set_line_one k Hk) as Hset.
  unfold command. destruct (workload opts); [exact Hget|exact Hset| |reflexivity|by case_match].
  rewrite !lines_in_app, (lines_in_none k) by done. reflexivity.
Qed.

(** A batch of [n] commands is [n] lines, so a round that awaits [n] replies awaits one for
    each command it sent. *)
Theorem batch_lines n p rng : lines_in (batch opts id n p rng).1 = n.
Proof.
  revert p rng. induction n as [|n IH]; intros p rng; [done|]. cbn [batch].
  specialize (IH (p + 1) (rng_next rng)). destruct (batch opts id n _ _) as [rest rng'].
  cbn [fst] in *. rewrite lines_in_app, command_one_line, IH; [done|]. apply key_no_newline.
Qed.
End batches.

(** The generators of any realistic number of connections never stick at zero. *)
Theorem rng_never_sticks id n :
  id < 49000 → 0 < N.iter n rng_next (rng_seed id) < U64.
Proof.
  intros Hid. apply (N.iter_invariant n _ rng_next (λ x, 0 < x < U64)).
  - intros x. apply rng_next_live.
  - unfold rng_seed. rewrite N.lxor_assoc, (N.lxor_comm _ 1), <-N.lxor_assoc.
    change (N.lxor 0x9e3779b97f4a7c15 1) with 11400714819323198484.
    rewrite N.mod_small by (unfold U64; lia). split.
    + apply N.neq_0_lt_0. intros H0%lxor_zero. lia.
    + apply lxor_u64; unfold U64; lia.
Qed.

(** ** What [parse] accepts *)

Section parse.
Context {A : Type} (resolve : list N → result (list A) unit).

Lemma set_flag_addrs (o o' : Opts A) flag val : set_flag o flag val = Ok o' → o'.(addrs) = o.(addrs).
Proof.
  destruct o as [a c s w v k p]. unfold set_flag, with_number.
  repeat case_match; intros [= <-]; done.
Qed.

Lemma set_flags_addrs fuel args (o o' : Opts A) :
  (length args ≤ fuel)%nat → set_flags o args = Ok o' → o'.(addrs) = o.(addrs).
Proof.
  revert args o. induction fuel as [|fuel IH]; intros [|flag [|val args]] o Hl; simpl in *; try lia;
    try (by intros [= <-]); try done.
  destruct (set_flag o flag val) as [o1|] eqn:H1; [|done]. intros H2.
  rewrite <-(set_flag_addrs _ _ _ _ H1). eapply IH; [|done]. lia.
Qed.

(** What [parse] accepts can be run: there is an address to connect to, and connections, keys
    and batches are not empty. *)
Theorem parse_runnable args o :
  parse resolve args = Ok o →
  o.(addrs) ≠ [] ∧ 1 ≤ o.(conns) ∧ 1 ≤ o.(keys) ∧ 1 ≤ o.(pipeline).
Proof.
  unfold parse. destruct args as [|addr_arg args]; [done|].
  destruct (resolve_all _ _) as [[|a l]|]; [done| |done].
  destruct (set_flags _ args) as [[a' c s w v k p]|] eqn:Hs; [|done]. intros [= <-].
  apply (set_flags_addrs _ _ _ _ (le_n _)) in Hs. simpl in *. subst. split_and!; [done|lia..].
Qed.
End parse.
