(* ===== verification/KvClient.v ===== *)
(** A connection of [kvload] ([src/examples/kvload.rs]): warming the keys, then rounds of
    pipelined commands until the deadline. *)

From Stdlib Require Import Sorting.Sorted.
From stdpp Require Import sorting.
From S2P Require Import Prelude Manage Scenario Text Reader Load Kvload.

Section conn.
Context `{Tcp} `{Features} {A : Type} (opts : Opts A) (id : N) (clock : nat → N) (lines : nat).

(** [Conn]: the reader over a clone of the socket that is written to; with it the random state
    and the counts of the run. *)
Record KvConn := mkKvConn { replies_in : BufReader; rng : N; ops : N; mismatches : N }.

(** [n] reply lines, the last of which stays in [scratch]. *)
Fixpoint read_replies (n : nat) (scratch : list N) : St BufReader (result (list N) io_error) :=
  match n with
  | O => mret (Ok scratch)
  | S n =>
      got ← read_line lines;
      match got with
      | Err e => mret (Err e)
      | Ok [] => mret (Err (mkIoError UnexpectedEof "server closed"))
      | Ok line => read_replies n line
      end
  end.
(** [Conn::round]. *)
Definition round (bytes : list N) (n : nat) (scratch : list N) : St BufReader (result (list N) io_error) :=
  sent ← (λ r, let '(w, s) := send bytes r.(inner) in Val (w, mkReader r.(unread) s));
  match sent with
  | Err e => mret (Err e)
  | Ok _ => read_replies n scratch
  end.

(** Warm the key space, for the workloads that read. *)
Fixpoint warm_keys (ks : list nat) : St BufReader (result unit io_error) :=
  match ks with
  | [] => mret (Ok tt)
  | i :: ks =>
      r ← round (set_line opts (key opts id (N.of_nat i))) 1 [];
      match r with
      | Err e => mret (Err e)
      | Ok _ => warm_keys ks
      end
  end.
Definition warm_up : St BufReader (result unit io_error) :=
  match opts.(workload) with
  | Get | Mix => warm_keys (seq 0 (N.to_nat opts.(keys)))
  | _ => mret (Ok tt)
  end.

Definition on_replies {X} (op : St BufReader X) : St KvConn X := λ c,
  match op c.(replies_in) with
  | Val (x, r) => Val (x, mkKvConn r c.(rng) c.(ops) c.(mismatches))
  | Panic => Panic
  | NoFuel => NoFuel
  end.
Definition next_batch : St KvConn (list N) := λ c,
  let '(b, x) := batch opts id (N.to_nat opts.(pipeline)) 0 c.(rng) in
  Val (b, mkKvConn c.(replies_in) x c.(ops) c.(mismatches)).
Definition check_reply (scratch : list N) : St KvConn unit :=
  if mismatch opts scratch
  then λ c, match add_u U64 c.(mismatches) 1 with
            | Val n => Val (tt, mkKvConn c.(replies_in) c.(rng) c.(ops) n)
            | Panic => Panic
            | NoFuel => NoFuel
            end
  else skip.
Definition count_ops : St KvConn unit := λ c,
  match add_u U64 c.(ops) opts.(pipeline) with
  | Val n => Val (tt, mkKvConn c.(replies_in) c.(rng) n c.(mismatches))
  | Panic => Panic
  | NoFuel => NoFuel
  end.

(** One round of the timed loop.  [parse] makes [pipeline] at least one, so [scratch] is always
    the last reply of this round, whatever it held before. *)
Definition kv_request : St (Client KvConn) (option failure) :=
  bytes ← on_link next_batch;
  t ← now clock;
  r ← on_link (on_replies (round bytes (N.to_nat opts.(pipeline)) []));
  match r with
  | Err _ => mret (Some (Failed (mkIoError BrokenPipe "round failed")))
  | Ok scratch =>
      on_link (check_reply scratch);;
      push_elapsed clock t;;
      on_link count_ops;;
      mret None
  end.

(** [run_conn] on an open connection: up to the barrier, and from there to its result; the counts
    other than the latencies are in the state. *)
Definition kv_timed (fuel : nat) (r : BufReader) : outcome (result (list N) failure * Client KvConn) :=
  (started ← now clock;
   timed clock fuel (started + opts.(seconds) * SECOND) kv_request)
    (mkClient (mkKvConn r (rng_seed id) 0 0) 1 0 []).
Definition run_conn (fuel : nat) (s : stream) : outcome (result (list N) failure * Client KvConn) :=
  match warm_up (reader_new s) with
  | Val (Err e, r) => Val (Err (Failed e), mkClient (mkKvConn r (rng_seed id) 0 0) 1 0 [])
  | Val (Ok _, r) => kv_timed fuel r
  | Panic => Panic
  | NoFuel => NoFuel
  end.
End conn.

(** ** Adding up *)

Record ConnResult := mkConnResult { res_latencies : list N; res_ops : N; res_mismatches : N }.
(** The report of a run: the latencies, the operations, the mismatches, the failed. *)
Record Report := mkReport { all : list N; all_ops : N; all_mismatches : N; failed : N }.

Fixpoint collect `{Features} (results : list (result ConnResult failure)) (t : Report) : outcome Report :=
  match results with
  | [] => Val t
  | Ok res :: results =>
      match add_u U64 t.(all_ops) res.(res_ops), add_u U64 t.(all_mismatches) res.(res_mismatches) with
      | Val o, Val m => collect results (mkReport (t.(all) ++ res.(res_latencies)) o m t.(failed))
      | _, _ => Panic
      end
  | Err _ :: results => collect results (mkReport t.(all) t.(all_ops) t.(all_mismatches) (t.(failed) + 1))
  end.
Definition kv_report `{Features} (results : list (result ConnResult failure)) : outcome Report :=
  match collect results (mkReport [] 0 0 0) with
  | Val t => Val (mkReport (merge_sort N.le t.(all)) t.(all_ops) t.(all_mismatches) t.(failed))
  | Panic => Panic
  | NoFuel => NoFuel
  end.

(** ** Lemmas *)

Section spec.
Context {T : Tcp} {TL : TcpLaws T} {F : Features} {A : Type} (opts : Opts A) (id : N) (clock : nat → N) (lines : nat).
Implicit Types r : BufReader.

(** Between [r] and [r'], [bytes] went out and [n] replies came in. *)
Definition replied r r' (bytes : list N) (n : nat) : Prop :=
  outgoing r'.(inner) = outgoing r.(inner) ++ bytes ∧
  ∃ got, length got = n ∧ pending r = concat got ++ pending r' ∧ Forall (λ l, l ≠ []) got.

Lemma replied_refl r : replied r r [] 0.
Proof. split; [by rewrite app_nil_r|]. by exists []. Qed.
Lemma replied_trans r r1 r2 b1 b2 n1 n2 :
  replied r r1 b1 n1 → replied r1 r2 b2 n2 → replied r r2 (b1 ++ b2) (n1 + n2).
Proof.
  intros [Ho (g & Hn & Hp & Hg)] [Ho2 (g2 & Hn2 & Hp2 & Hg2)].
  split; [by rewrite Ho2, Ho, app_assoc|]. exists (g ++ g2).
  rewrite length_app, Hn, Hn2, Hp, Hp2, concat_app, <-app_assoc. by rewrite Forall_app.
Qed.
Lemma replied_less r r' b n : replied r r' b n → (len (pending r') ≤ len (pending r)).
Proof. intros [_ (g & _ & -> & _)]. rewrite len_app. lia. Qed.

Lemma read_replies_spec n scratch r :
  (N.to_nat (len (pending r)) < lines)%nat →
  wp (read_replies lines n scratch) (λ a r', match a with Ok _ => replied r r' [] n | Err _ => True end) r.
Proof.
  revert scratch r. induction n as [|n IH]; intros scratch r Hl; cbn [read_replies]; [apply wp_ret, replied_refl|].
  wp_step. wp_apply reader_line_spec as a r1 [[Ho _] Ha]; [done|]. destruct a as [[|x line]|e]; [by wp_steps| |by wp_steps].
  destruct Ha as (bs & Hu & Hp & _). assert (bs ≠ []) as Hne by (by intros ->).
  assert (H1 : replied r r1 [] 1).
  { split; [by rewrite Ho, app_nil_r|]. exists [bs]. simpl. rewrite app_nil_r. by repeat split; [|constructor]. }
  eapply wp_mono; [apply IH; pose proof (replied_less _ _ _ _ H1); lia|].
  intros [s|e] r2 H2; [|done]. by apply (replied_trans _ _ _ [] [] 1 n H1 H2).
Qed.

Lemma round_spec bytes n scratch r :
  (N.to_nat (len (pending r)) < lines)%nat →
  wp (round lines bytes n scratch) (λ a r', match a with Ok _ => replied r r' bytes n | Err _ => True end) r.
Proof.
  intros Hl. unfold round. wp_step. unfold wp at 1. destruct (send bytes (inner r)) as [[[]|e] s] eqn:Hs; [|by wp_steps].
  destruct (send_reads _ _ _ _ Hs) as [Hi _]. pose proof (send_writes _ _ _ Hs) as Hout.
  assert (H1 : replied r (mkReader (unread r) s) bytes 0).
  { split; [done|]. exists []. unfold pending. simpl. by rewrite Hi. }
  eapply wp_mono; [apply read_replies_spec; pose proof (replied_less _ _ _ _ H1); lia|].
  intros [x|e] r2 H2; [|done]. pose proof (replied_trans _ _ _ _ _ _ _ H1 H2) as H3. by rewrite app_nil_r in H3.
Qed.

(** The commands that warm [n] keys. *)
Lemma warm_keys_spec ks r :
  (N.to_nat (len (pending r)) < lines)%nat →
  wp (warm_keys opts id lines ks) (λ a r', match a with
    | Ok _ => ∃ bytes, lines_in bytes = length ks ∧ replied r r' bytes (length ks)
    | Err _ => True
    end) r.
Proof.
  revert r. induction ks as [|i ks IH]; intros r Hl; cbn [warm_keys].
  { apply wp_ret. exists []. split; [done|apply replied_refl]. }
  wp_step. wp_apply round_spec as a r1 H1; [done|]. destruct a as [x|e]; [|by wp_steps].
  eapply wp_mono; [apply IH; pose proof (replied_less _ _ _ _ H1); lia|].
  intros [[]|e] r2 H2; [|done]. destruct H2 as (bytes & Hb & H2).
  exists (set_line opts (key opts id (N.of_nat i)) ++ bytes).
  split; [|exact (replied_trans _ _ _ _ _ _ _ H1 H2)].
  rewrite lines_in_app, Hb, set_line_one; [done|]. apply key_no_newline.
Qed.

(** How many keys are warmed. *)
Definition warmed : nat :=
  match opts.(workload) with Get | Mix => N.to_nat opts.(keys) | _ => O end.

Lemma warm_up_spec r :
  (N.to_nat (len (pending r)) < lines)%nat →
  wp (warm_up opts id lines) (λ a r', match a with
    | Ok _ => ∃ bytes, lines_in bytes = warmed ∧ replied r r' bytes warmed
    | Err _ => True
    end) r.
Proof.
  intros Hl. unfold warm_up, warmed.
  assert (Hnone : wp (mret (Ok tt)) (λ (a : result unit io_error) r', match a with
    | Ok _ => ∃ bytes, lines_in bytes = O ∧ replied r r' bytes 0 | Err _ => True end) r).
  { apply wp_ret. exists []. split; [done|apply replied_refl]. }
  pose proof (warm_keys_spec (seq 0 (N.to_nat opts.(keys))) r Hl) as Hwarm. rewrite length_seq in Hwarm.
  by destruct (workload opts).
Qed.

(** After [n] rounds, from [r0] on. *)
Definition kv_rounds (r0 : BufReader) (past : nat) (n : nat) (c : Client KvConn) : Prop :=
  let k := c.(link) in
  (∃ bytes, lines_in bytes = (n * N.to_nat opts.(pipeline))%nat ∧
     replied r0 k.(replies_in) bytes (n * N.to_nat opts.(pipeline))) ∧
  k.(ops) = N.of_nat n * opts.(pipeline) ∧ k.(mismatches) ≤ N.of_nat n ∧
  length c.(latencies) = n ∧ (n ≤ c.(ticks))%nat.

Lemma kv_request_spec r0 past n (c : Client KvConn) :
  (N.to_nat (len (pending r0)) < lines)%nat → N.of_nat (S past) * (opts.(pipeline) + 1) < U64 →
  kv_rounds r0 past n c → (n < past)%nat →
  wp (kv_request opts id clock lines) (λ res c', (c.(ticks) < c'.(ticks))%nat ∧
    match res with None => kv_rounds r0 past (S n) c' | Some _ => True end) c.
Proof.
  intros Hl Hroom ((bytes & Hb & Hrep) & Hops & Hmis & Hlat & Hn) Hlt. unfold kv_request.
  pose proof (batch_lines opts id (N.to_nat (pipeline opts)) 0 c.(link).(rng)) as Hbl.
  wp_step. apply wp_on_link. unfold wp at 1, next_batch. destruct (batch _ _ _ _ _) as [cmds x]. cbn beta iota.
  cbn [fst] in Hbl. wp_step. apply wp_now. wp_step. apply wp_on_link. unfold wp at 1, on_replies.
  cbn [link dials ticks latencies replies_in rng ops mismatches].
  assert (Hl1 : (N.to_nat (len (pending c.(link).(replies_in))) < lines)%nat).
  { pose proof (replied_less _ _ _ _ Hrep). lia. }
  pose proof (round_spec cmds (N.to_nat (pipeline opts)) [] c.(link).(replies_in) Hl1) as Hround. unfold wp in Hround.
  destruct (round lines cmds _ [] (replies_in (link c))) as [[a r1]| |]; [|done..]. cbn beta iota.
  destruct a as [scratch|e]; [|wp_steps; cbn [ticks]; split; [lia|done]].
  assert (Hsmall : N.of_nat n + 1 < U64 ∧ N.of_nat n * pipeline opts + pipeline opts < U64).
  { revert Hroom. generalize U64. intros u Hroom. split; nia. }
  wp_step. apply wp_on_link. cbn [link dials ticks latencies].
  apply (wp_mono _ (λ _ k', k'.(replies_in) = r1 ∧ k'.(rng) = x ∧ k'.(ops) = c.(link).(ops) ∧
    k'.(mismatches) ≤ N.of_nat n + 1)).
  { unfold check_reply. destruct (mismatch opts scratch); [|wp_steps; cbn; split_and!; try done; lia].
    unfold wp. cbn [replies_in rng ops mismatches]. rewrite add_u_small by lia. cbn. split_and!; try done. lia. }
  intros [] [r2 x2 o2 m2] (Hr2 & Hx2 & Ho2 & Hm). cbn [replies_in rng ops mismatches] in *. subst r2 x2 o2.
  wp_step. apply wp_push. wp_step. apply wp_on_link. unfold wp at 1, count_ops.
  cbn [link dials ticks latencies replies_in rng ops mismatches]. rewrite Hops, add_u_small by lia.
  wp_steps. cbn [link dials ticks latencies replies_in rng ops mismatches].
  split; [lia|]. unfold kv_rounds. cbn [link dials ticks latencies replies_in rng ops mismatches].
  split_and!; [|lia|lia|rewrite length_app; simpl; lia|lia].
  exists (bytes ++ cmds). rewrite lines_in_app, Hb, Hbl. split; [lia|].
  replace (S n * N.to_nat (pipeline opts))%nat with (n * N.to_nat (pipeline opts) + N.to_nat (pipeline opts))%nat by lia.
  by eapply replied_trans.
Qed.
End spec.

(** ** The theorem *)

(** The operations [kvload] counts were answered.  The clock reaching the deadline and the counts
    having room, a connection ends; if it did not fail, it counts [pipeline] operations for each
    latency it took, it sent one line for each of them and one for each key it warmed, and read
    one non-empty reply for each line it sent, leaving the rest of what the server had to say
    unread; no more rounds are reported as mismatches than there were. *)
Theorem kv_ops_answered {T : Tcp} {TL : TcpLaws T} {F : Features} {A} (opts : Opts A) id clock lines past fuel
    (s : stream) :
  (N.to_nat (len (incoming s)) < lines)%nat → N.of_nat (S past) * (opts.(pipeline) + 1) < U64 →
  (∀ k, (past ≤ k)%nat → clock 0%nat + opts.(seconds) * SECOND ≤ clock k) → (past < fuel)%nat →
  ∃ r c, run_conn opts id clock lines fuel s = Val (r, c) ∧
    ∀ l, r = Ok l →
      c.(link).(ops) = len l * opts.(pipeline) ∧ c.(link).(mismatches) ≤ len l ∧
      ∃ bytes n, n = (warmed opts + length l * N.to_nat opts.(pipeline))%nat ∧
        lines_in bytes = n ∧ replied (reader_new s) c.(link).(replies_in) bytes n.
Proof.
  intros Hl Hroom Hclock Hf. unfold run_conn.
  destruct (wp_val _ _ _ (warm_up_spec opts id lines (reader_new s) Hl)) as (w & r1 & -> & Hw).
  destruct w as [[]|e]; [|by eexists _, _].
  destruct Hw as (b1 & Hb1 & H1).
  assert (Hl1 : (N.to_nat (len (pending r1)) < lines)%nat).
  { pose proof (replied_less _ _ _ _ H1) as Hless. change (pending (reader_new s)) with (incoming s) in Hless. lia. }
  unfold kv_timed. apply wp_val. wp_step. apply wp_now. cbn [link dials ticks latencies].
  eapply wp_mono; [apply (timed_spec clock _ past (kv_request opts id clock lines) (kv_rounds opts r1 past)
    (λ _ _, True) Hclock) with (n := 0%nat)|].
  - intros n c (? & ? & ? & ? & ?). split_and!; simpl; try done. lia.
  - intros n c HI Hp. assert (n < past)%nat by (destruct HI as (_ & _ & _ & _ & ?); lia).
    assert (HI' : kv_rounds opts r1 past n (ticked c)).
    { destruct HI as (? & ? & ? & ? & ?). split_and!; simpl; try done. lia. }
    eapply wp_mono; [by apply (kv_request_spec opts id clock lines r1 past n (ticked c))|].
    cbn [ticked ticks]. intros [e|] c' [Ht Hr]; (split; [lia|done]).
  - simpl. lia.
  - lia.
  - split_and!; simpl; try done; [|lia]. exists []. split; [done|apply replied_refl].
  - intros [l|e] c Hr l' [= <-]. destruct Hr as (-> & m & (b2 & Hb2 & H2) & Hops & Hm & <- & _).
    split_and!; [done|done|]. exists (b1 ++ b2). eexists. split; [done|].
    rewrite lines_in_app, Hb1, Hb2. split; [done|]. by eapply replied_trans.
Qed.

(** What the finished connections counted. *)
Definition finished (results : list (result ConnResult failure)) : list ConnResult :=
  omap (λ r, match r with Ok res => Some res | Err _ => None end) results.
Definition total_of (f : ConnResult → N) (rs : list ConnResult) : N := foldr (λ r n, f r + n) 0 rs.

Lemma collect_sum {F : Features} results t :
  t.(all_ops) + total_of res_ops (finished results) < U64 →
  t.(all_mismatches) + total_of res_mismatches (finished results) < U64 →
  collect results t = Val (mkReport (t.(all) ++ concat (res_latencies <$> finished results))
    (t.(all_ops) + total_of res_ops (finished results))
    (t.(all_mismatches) + total_of res_mismatches (finished results))
    (t.(failed) + (len results - len (finished results)))) ∧ len (finished results) ≤ len results.
Proof.
  revert t. induction results as [|[res|e] results IH]; intros [al o m fl] Ho Hm; cbn [all all_ops all_mismatches failed] in *.
  - split; [|done]. cbn [collect finished omap list_omap fmap list_fmap concat total_of foldr].
    by rewrite app_nil_r, !N.add_0_r.
  - cbn [finished omap list_omap total_of foldr] in Ho, Hm. fold (finished results) in Ho, Hm.
    fold (total_of res_ops (finished results)) in Ho. fold (total_of res_mismatches (finished results)) in Hm.
    cbn [collect all all_ops all_mismatches failed]. rewrite !add_u_small by lia.
    destruct (IH (mkReport (al ++ res.(res_latencies)) (o + res.(res_ops)) (m + res.(res_mismatches)) fl)) as [-> Hl];
      cbn [all all_ops all_mismatches failed]; [lia|lia|].
    change (finished (Ok res :: results)) with (res :: finished results). cbn [fmap list_fmap concat total_of foldr].
    rewrite !len_cons, <-app_assoc. fold (total_of res_ops (finished results)). fold (total_of res_mismatches (finished results)).
    split; [|lia]. do 2 f_equal; lia.
  - change (finished (Err e :: results)) with (finished results) in *. cbn [collect all all_ops all_mismatches failed].
    destruct (IH (mkReport al o m (fl + 1)) Ho Hm) as [-> Hl]. cbn [all all_ops all_mismatches failed].
    rewrite len_cons. split; [|lia]. do 2 f_equal. lia.
Qed.

(** The report counts what the finished connections counted, and every other as failed. *)
Theorem report_sums {F : Features} (results : list (result ConnResult failure)) :
  let done := finished results in
  total_of res_ops done < U64 → total_of res_mismatches done < U64 →
  ∃ t, kv_report results = Val t ∧ t.(all) ≡ₚ concat (res_latencies <$> done) ∧ Sorted N.le t.(all) ∧
    t.(all_ops) = total_of res_ops done ∧ t.(all_mismatches) = total_of res_mismatches done ∧
    t.(failed) + len done = len results.
Proof.
  cbv zeta. intros Ho Hm. destruct (collect_sum results (mkReport [] 0 0 0)) as [Hc Hl]; [done|done|].
  unfold kv_report. rewrite Hc. eexists. split; [reflexivity|]. cbn [all all_ops all_mismatches failed app].
  split_and!; [by rewrite merge_sort_Permutation|apply Sorted_merge_sort; intros x y; lia|done|done|lia].
Qed.

#[local] Existing Instance script_tcp.
#[local] Existing Instance demo_features.

Definition demo_pings : Opts unit := mkOpts [tt] 1 4 Ping 16 8 2.
Definition demo_pongs : stream (Tcp:=script_tcp) :=
  mkScript (concat (replicate 5 (codes "PONG" ++ [10]))) [Ok 2; Ok 0; Ok 9] [] [].

Lemma kv_ops_answered_witness :
  ∃ c, run_conn demo_pings 0 demo_clock 40 6 demo_pongs = Val (Ok [SECOND], c) ∧
    c.(link).(ops) = 2 ∧ lines_in (outgoing c.(link).(replies_in).(inner)) = 2%nat.
Proof.
  destruct (kv_ops_answered demo_pings 0 demo_clock 40 5 6 demo_pongs) as (r & c & He & Hr).
  - apply Nat.ltb_lt. vm_compute. reflexivity.
  - vm_compute. reflexivity.
  - intros k Hk. apply (demo_clock_past 4). lia.
  - lia.
  - assert (r = Ok [SECOND]) as -> by (revert He; vm_compute; by intros [= <- _]).
    exists c. split; [exact He|]. destruct (Hr [SECOND] eq_refl) as (Hops & _ & bytes & n & -> & Hb & Hrep & _).
    split; [exact Hops|]. rewrite Hrep. exact Hb.
Defined.
