(* ===== verification/Percentile.v ===== *)
(** What the load generators print at the end: the request rate and the latency
    percentiles ([main] of [src/examples/load.rs], [load_churn.rs], [load_wal.rs],
    [load_file.rs] and [kvload.rs]).  How a float or a [Duration] is written in decimal is
    the standard library's: [fixed] and [show_duration]. *)

From Stdlib Require Import ZArith Floats.SpecFloat.
From stdpp Require Import sorting pretty.
From S2P Require Import Prelude Float Load Kvload KvClient.
#[local] Open Scope N_scope.

(** [pct], over the sorted latencies. *)
Definition pct (all : list N) (p : f64) : outcome f64 :=
  let n := len all in
  if n =? 0 then Val (f64_of 0)
  else
    let idx := f64_as_usize (f64_round (f64_mul (f64_sub (f64_of n) (f64_of 1)) p)) in
    match all !! N.to_nat idx with
    | Some v => Val (f64_div (f64_of v) (f64_of 1000))
    | None => Panic
    end.

(** The literals it is asked for: 0.50, 0.90, 0.99, 0.999 and 1.0. *)
Definition MARKS : list (N * N) := [(50, 100); (90, 100); (99, 100); (999, 1000); (10, 10)].
Definition percentiles (all : list N) : outcome (list f64) :=
  foldr (λ m o, x ← pct all (f64_lit m.1 m.2); l ← o; mret (x :: l)) (mret []) MARKS.

Section output.
Context (fixed : nat → f64 → string) (show_duration : N → string).

Definition show_bool (b : bool) : string := if b then "true" else "false".
Definition latency_line (ps : list f64) : string :=
  match fixed 1 <$> ps with
  | [a; b; c; d; e] =>
      "latency us  p50 " +:+ a +:+ "  p90 " +:+ b +:+ "  p99 " +:+ c +:+ "  p99.9 " +:+ d +:+ "  max " +:+ e
  | _ => ""
  end.
Definition rate_line (n secs : N) : string :=
  "requests " +:+ pretty n +:+ "  (" +:+ fixed 0 (f64_div (f64_of n) (f64_of secs)) +:+ " req/s)".

Definition output (settings : string) (n secs : N) (all : list N) : outcome (list string) :=
  ps ← percentiles all;
  mret [settings; rate_line n secs; latency_line ps].

(** The sorted tally of the clients' results. *)
Definition load_output {A} (o : LoadOpts A) (t : list N * N) : outcome (list string) :=
  let '(all, failed) := t in
  output ("conns " +:+ pretty o.(load_conns) +:+ "  bytes " +:+ pretty o.(load_bytes) +:+
      "  seconds " +:+ pretty o.(load_seconds) +:+ "  hold " +:+ show_duration o.(load_hold) +:+
      "  reconnect " +:+ show_bool o.(load_reconnect) +:+ "  failed " +:+ pretty failed)
    (len all) o.(load_seconds) all.
Definition churn_output {A} (o : ChurnOpts A) (t : list N * N) : outcome (list string) :=
  let '(all, failed) := t in
  output ("conns " +:+ pretty o.(churn_conns) +:+ "  seconds " +:+ pretty o.(churn_seconds) +:+
      "  failed " +:+ pretty failed) (len all) o.(churn_seconds) all.
Definition wal_output {A} (o : WalOpts A) (t : list N * N) : outcome (list string) :=
  let '(all, failed) := t in
  output ("conns " +:+ pretty o.(wal_conns) +:+ "  bytes " +:+ pretty o.(wal_bytes) +:+
      "  seconds " +:+ pretty o.(wal_seconds) +:+ "  failed " +:+ pretty failed)
    (len all) o.(wal_seconds) all.
Definition file_output {A} (o : FileOpts A) (t : list N * N) : outcome (list string) :=
  let '(all, failed) := t in
  output ("conns " +:+ pretty o.(file_conns) +:+ "  bytes " +:+ pretty o.(file_bytes) +:+
      "  seconds " +:+ pretty o.(file_seconds) +:+ "  files " +:+ pretty o.(file_files) +:+
      "  failed " +:+ pretty failed) (len all) o.(file_seconds) all.

Definition workload_name (w : Workload) : string :=
  match w with Get => "get" | Set_ => "set" | Incr => "incr" | Ping => "ping" | Mix => "mix" end.
Definition kv_output {A} (o : Opts A) (r : Report) : outcome (list string) :=
  output ("conns " +:+ pretty o.(conns) +:+ "  workload " +:+ workload_name o.(workload) +:+
      "  value " +:+ pretty o.(value) +:+ "  keys " +:+ pretty o.(keys) +:+ "  pipeline " +:+
      pretty o.(pipeline) +:+ "  seconds " +:+ pretty o.(seconds) +:+ "  shards " +:+
      pretty (len o.(addrs)) +:+ "  mismatches " +:+ pretty r.(all_mismatches) +:+
      "  failed " +:+ pretty r.(failed)) r.(all_ops) o.(seconds) r.(all).
End output.

(** ** Lemmas *)

(** A literal: a double in the unit interval, within 2^-53 of the fraction it spells. *)
Record mark_ok (num den : N) (m : positive) (e : Z) : Prop := {
  mk_lit : f64_lit num den = S754_finite false m e;
  mk_den : 0 < den;
  mk_exp : (-900 ≤ e ≤ 0)%Z;
  mk_unit : (Z.pos m ≤ 2 ^ (- e))%Z;
  mk_near : (Z.abs (Z.of_N den * Z.pos m - Z.of_N num * 2 ^ (- e)) * 2 ^ 53 ≤ Z.of_N den * 2 ^ (- e))%Z
}.

Lemma marks_ok : Forall (λ f, ∃ m e, mark_ok f.1 f.2 m e) MARKS.
Proof. repeat constructor; eexists _, _; (split; [vm_compute; reflexivity|vm_compute; done..]). Qed.

(** The index: no integer lies strictly between it and [(n - 1) * p]. *)
Lemma index_near n m e :
  (0 < n)%N → (Z.of_N n ≤ MAX_EXACT)%Z → (-900 ≤ e ≤ 0)%Z → (Z.pos m ≤ 2 ^ (- e))%Z →
  let i := Z.of_N (f64_as_usize (f64_round (f64_mul (f64_sub (f64_of n) (f64_of 1)) (S754_finite false m e)))) in
  let v := ((Z.of_N n - 1) * Z.pos m)%Z in
  (i < Z.of_N n ∧ v - 2 ^ (- e) < i * 2 ^ (- e) < v + 2 ^ (- e))%Z ∧
  (Z.pos m = 2 ^ (- e) → i = Z.of_N n - 1)%Z.
Proof.
  intros Hn Hmax He Hm i v. assert (HP : (0 < 2 ^ (- e))%Z) by (apply Z.pow_pos_nonneg; lia).
  destruct (decide (n = 1)) as [->|Hn1].
  { subst i v. change (f64_sub (f64_of 1) (f64_of 1)) with (S754_zero false).
    cbn [f64_mul SFmul xorb f64_round f64_as_usize]. lia. }
  assert (Hbetween : ∀ X Y, (0 ≤ X → Y ≤ MAX_EXACT → X * 2 ^ (- e) ≤ v ≤ Y * 2 ^ (- e) → X ≤ i ≤ Y)%Z).
  { intros X Y HX HY Hv. subst i. destruct (f64_pred n) as (a & b & -> & Hb & Ha); [lia|done|].
    cbn [f64_mul SFmul xorb]. assert (Hpow : (2 ^ (- (b + e)) = 2 ^ (- b) * 2 ^ (- e))%Z).
    { rewrite <-Z.pow_add_r by lia. f_equal. lia. }
    assert (HPb : (0 < 2 ^ (- b))%Z) by (apply Z.pow_pos_nonneg; lia).
    assert (Hprod : (Z.pos (a * m) = v * 2 ^ (- b))%Z) by (rewrite Pos2Z.inj_mul, Ha; subst v; ring).
    destruct (rounding (Z.pos (a * m)) (b + e)) as (m' & e' & Heq & He' & Hr).
    - lia.
    - split; [lia|]. rewrite Hprod, Hpow. nia.
    - rewrite Heq. apply round_as_usize; [lia..|]. split.
      + apply (Hr X). rewrite Hprod, Hpow. nia.
      + apply (Hr Y). rewrite Hprod, Hpow. nia. }
  assert (Hv0 : (0 ≤ v)%Z) by (subst v; nia).
  assert (Hvn : (v ≤ (Z.of_N n - 1) * 2 ^ (- e))%Z) by (subst v; nia).
  pose proof (Z.div_mod v (2 ^ (- e))) as Hdm. pose proof (Z.mod_pos_bound v (2 ^ (- e)) HP) as Hmod.
  set (q := (v / 2 ^ (- e))%Z) in *. assert (Hq : (0 ≤ q)%Z) by (subst q; apply Z.div_pos; lia).
  split; [|intros Hone; assert (q = Z.of_N n - 1)%Z; [subst q v; rewrite Hone; apply Z.div_mul; lia|];
           destruct (Hbetween q q); unfold MAX_EXACT in *; nia].
  destruct (decide (v mod 2 ^ (- e) = 0)%Z) as [H0|H0].
  - assert (Hqn : (q ≤ Z.of_N n - 1)%Z) by nia. destruct (Hbetween q q); [lia|lia|nia|]. nia.
  - assert (Hqn : (q + 1 ≤ Z.of_N n - 1)%Z) by nia. destruct (Hbetween q (q + 1)%Z); [lia|lia|nia|]. nia.
Qed.

Lemma pct_near all num den m e :
  mark_ok num den m e → all ≠ [] → (Z.of_N (len all) ≤ MAX_EXACT)%Z →
  ∃ i v, pct all (f64_lit num den) = Val (f64_div (f64_of v) (f64_of 1000)) ∧
    all !! N.to_nat i = Some v ∧
    (Z.abs (Z.of_N i * Z.of_N den - (Z.of_N (len all) - 1) * Z.of_N num) * 2 ^ 53
       < Z.of_N den * (2 ^ 53 + Z.of_N (len all)))%Z ∧
    ((Z.pos m = 2 ^ (- e))%Z → i = len all - 1).
Proof.
  intros [Hlit Hden He Hm Hnear] Hne Hmax. unfold pct. destruct all as [|x l] eqn:Hall; [done|].
  rewrite <-Hall in *. assert (Hn : 0 < len all) by (rewrite Hall, len_cons; lia).
  destruct (N.eqb_spec (len all) 0) as [|_]; [lia|].
  destruct (index_near (len all) m e Hn Hmax He Hm) as ((Hlt & Hlo & Hhi) & Hone). rewrite Hlit.
  set (i := f64_as_usize _) in *.
  destruct (lookup_lt_is_Some_2 all (N.to_nat i)) as [v Hv]; [unfold len in *; lia|].
  rewrite Hv. exists i, v. split_and!; [done..| |intros H1; specialize (Hone H1); lia].
  assert (HP : (0 < 2 ^ (- e))%Z) by (apply Z.pow_pos_nonneg; lia).
  set (P := (2 ^ (- e))%Z) in *. set (n := Z.of_N (len all)) in *. set (I := Z.of_N i) in *.
  set (D := Z.of_N den) in *. set (U := Z.of_N num) in *. clear Hone Hlit.
  assert (Hn1 : (1 ≤ n)%Z) by (subst n; lia). assert (HD : (0 < D)%Z) by (subst D; lia).
  apply (Z.mul_lt_mono_pos_r P); [done|].
  assert (H1 : (Z.abs ((I * D - (n - 1) * U) * P) ≤
    D * Z.abs (I * P - (n - 1) * Z.pos m) + (n - 1) * Z.abs (D * Z.pos m - U * P))%Z).
  { replace ((I * D - (n - 1) * U) * P)%Z
      with (D * (I * P - (n - 1) * Z.pos m) + (n - 1) * (D * Z.pos m - U * P))%Z by ring.
    etransitivity; [apply Z.abs_triangle|]. rewrite !Z.abs_mul.
    rewrite (Z.abs_eq D), (Z.abs_eq (n - 1)) by lia. done. }
  rewrite Z.abs_mul, (Z.abs_eq P) in H1 by lia.
  assert (H2 : (Z.abs (I * P - (n - 1) * Z.pos m) < P)%Z) by lia.
  nia.
Qed.

(** The rank [i] among [n] is the nominal one, [(n - 1) * num / den], give or take less than
    [1 + n / 2^53]. *)
Definition near_rank (n num den i : N) : Prop :=
  (Z.abs (Z.of_N i * Z.of_N den - (Z.of_N n - 1) * Z.of_N num) * 2 ^ 53
     < Z.of_N den * (2 ^ 53 + Z.of_N n))%Z.
(** Nanoseconds as microseconds. *)
Definition micros (v : N) : f64 := f64_div (f64_of v) (f64_of 1000).

Lemma percentiles_foldr ms all (tl : list f64) :
  Forall (λ f, ∃ m e, mark_ok f.1 f.2 m e) ms → all ≠ [] → (Z.of_N (len all) ≤ MAX_EXACT)%Z →
  ∃ vs, foldr (λ m o, x ← pct all (f64_lit m.1 m.2); l ← o; mret (x :: l)) (Val tl) ms
      = Val ((micros <$> vs) ++ tl) ∧
    Forall2 (λ f v, ∃ i, all !! N.to_nat i = Some v ∧ near_rank (len all) f.1 f.2 i) ms vs.
Proof.
  intros Hms Hne Hmax. induction Hms as [|f ms (m & e & Hok) _ (vs & Heq & IH)].
  { by exists []. }
  destruct (pct_near all f.1 f.2 m e Hok Hne Hmax) as (i & v & Hp & Hv & Hn & _).
  exists (v :: vs). cbn [foldr]. rewrite Hp, Heq. split; [done|]. constructor; eauto.
Qed.

Lemma sorted_last_max (all : list N) i v :
  Sorted N.le all → all !! i = Some v → S i = length all → ∀ x, x ∈ all → x ≤ v.
Proof.
  intros Hs Hv Hi x Hx. apply Sorted_StronglySorted in Hs; [|intros ???; lia].
  assert (Hlast : last all = Some v) by (rewrite last_lookup, <-Hi; done).
  apply last_Some in Hlast as [l ->]. apply elem_of_app in Hx as [Hx|Hx]; [|set_solver].
  apply (StronglySorted_app_1_elem_of N.le l [v] x v); [done..|by left].
Qed.

(** C38: the percentiles are the ranks they name.  However many requests were answered, fewer than
    2^53 of them, no percentile indexes past the last latency, so nothing panics; each of the
    five is a latency that was measured, at its nominal rank in the sorted list or next to it;
    [max] is the largest of all; and of no latencies at all every percentile is zero. *)
Theorem percentile_ranks (all : list N) :
  Sorted N.le all → (Z.of_N (len all) < 2 ^ 53)%Z →
  (all = [] → percentiles all = Val (replicate 5 (S754_zero false))) ∧
  (all ≠ [] → ∃ vs top, percentiles all = Val (micros <$> vs ++ [top]) ∧
     Forall2 (λ m v, ∃ i, all !! N.to_nat i = Some v ∧ near_rank (len all) m.1 m.2 i) MARKS (vs ++ [top]) ∧
     ∀ x, x ∈ all → x ≤ top).
Proof.
  intros Hs Hmax. split; [by intros ->|]. intros Hne.
  assert (Hmax' : (Z.of_N (len all) ≤ MAX_EXACT)%Z) by (unfold MAX_EXACT; lia).
  change MARKS with (take 4 MARKS ++ [(10, 10)]). pose proof marks_ok as Hok.
  change MARKS with (take 4 MARKS ++ [(10, 10)]) in Hok. apply Forall_app in Hok as [Hfour _].
  assert (Hone : mark_ok 10 10 (2 ^ 52) (-52)) by (split; [vm_compute; reflexivity|vm_compute; done..]).
  destruct (pct_near all 10 10 _ _ Hone Hne Hmax') as (i & top & Hp & Htop & Hnear & Hi).
  destruct (percentiles_foldr (take 4 MARKS) all [micros top] Hfour Hne Hmax') as (vs & Heq & Hvs).
  exists vs, top. split_and!.
  - unfold percentiles. change MARKS with (take 4 MARKS ++ [(10, 10)]). rewrite foldr_app.
    cbn [foldr fst snd]. rewrite Hp. cbn [mbind]. rewrite fmap_app. exact Heq.
  - apply Forall2_app; [done|]. constructor; [|constructor]. by exists i.
  - apply (sorted_last_max all (N.to_nat i)); [done..|]. rewrite (Hi eq_refl).
    destruct all; [done|]. unfold len. simpl. lia.
Qed.

(** A thousand and one latencies. *)
Lemma percentile_ranks_witness :
  let all := N.of_nat <$> seq 0 1001 in
  ∃ vs top, percentiles all = Val (micros <$> vs ++ [top]) ∧ (∀ x, x ∈ all → x ≤ top) ∧
    percentiles all = Val (micros <$> [500; 900; 990; 999; 1000]).
Proof.
  intros all. destruct (percentile_ranks all) as [_ H].
  - assert (Hs : ∀ n k, Sorted N.le (N.of_nat <$> seq k n)).
    { induction n as [|n IH]; intros k; [constructor|]. cbn [seq fmap list_fmap]. constructor; [apply IH|].
      destruct n; constructor. lia. }
    apply Hs.
  - vm_compute. reflexivity.
  - destruct H as (vs & top & H1 & _ & H2); [done|]. exists vs, top. split_and!; [done..|].
    vm_compute. reflexivity.
Defined.

(** ** No report panics *)

Lemma output_total fixed settings n secs all :
  (Z.of_N (len all) < 2 ^ 53)%Z →
  ∃ ps, percentiles all = Val ps ∧
    output fixed settings n secs all = Val [settings; rate_line fixed n secs; latency_line fixed ps].
Proof.
  intros Hmax. assert (∃ ps, percentiles all = Val ps) as [ps Hps].
  { destruct (decide (all = [])) as [->|Hne]; [by eexists|].
    destruct (percentiles_foldr MARKS all [] marks_ok Hne) as (vs & Heq & _);
      [unfold MAX_EXACT; lia|]. eexists. exact Heq. }
  exists ps. split; [done|]. unfold output. by rewrite Hps.
Qed.

(** Every client thread having ended, [load]'s, [load_churn]'s, [load_wal]'s and
    [load_file]'s [main] print their three lines and return. *)
Theorem reports_printed {A} fixed show_duration results
    (l : LoadOpts A) (c : ChurnOpts A) (w : WalOpts A) (f : FileOpts A) :
  (Z.of_N (len (tally results).1) < 2 ^ 53)%Z →
  ∃ ps, percentiles (tally results).1 = Val ps ∧
    Forall (λ o : N * outcome (list string), ∃ settings,
        o.2 = Val [settings; rate_line fixed (len (tally results).1) o.1; latency_line fixed ps])
      [(l.(load_seconds), load_output fixed show_duration l (tally results));
       (c.(churn_seconds), churn_output fixed c (tally results));
       (w.(wal_seconds), wal_output fixed w (tally results));
       (f.(file_seconds), file_output fixed f (tally results))].
Proof.
  intros Hmax. destruct (output_total fixed "" 0 0 _ Hmax) as (ps & Hps & _). exists ps. split; [done|].
  assert (Hout : ∀ settings n secs, output fixed settings n secs (tally results).1
    = Val [settings; rate_line fixed n secs; latency_line fixed ps]).
  { intros. unfold output. by rewrite Hps. }
  unfold load_output, churn_output, wal_output, file_output. destruct (tally results) as [all failed].
  repeat constructor; eexists; apply Hout.
Qed.
