(* ===== verification/Loaders.v ===== *)
(** The [main]s of the load generators ([src/examples/load.rs], [load_churn.rs], [load_wal.rs],
    [load_file.rs] and [kvload.rs]): the threads, the barrier they start at, the joins, and
    what becomes of the process.

    A request for more than [isize::MAX] bytes and a deadline past the last [Instant] panic.

    Whether the system starts a thread, what each dial brings and what each look at a clock
    shows are given; an [Instant] counts nanoseconds. *)

From stdpp Require Import sorting.
From S2P Require Import Prelude Manage Scenario Text Reader Args Wal FileServer Load Kvload KvClient Float Percentile.
#[local] Open Scope N_scope.

(** ** How threads and processes end *)

(** A client thread waits at the barrier, or goes on, for good; it has panicked; or its closure
    has returned. *)
Inductive thread_end (R : Type) := Stuck | Panicked | Ended (r : result R failure).
Arguments Stuck {R}.
Arguments Panicked {R}.
Arguments Ended {R} _.

(** [thread::spawn] fails, or there is no room for another handle; [join().expect(..)] meets a
    panic; a sum overflows; a percentile indexes past the end; the setup asks for more memory than
    can be. *)
Inductive crash := No_thread | Client_panicked | Bad_sum | Bad_index | No_room.
(** [main] never returns, panics, returns an error of [parse] or of the setup, or returns after
    printing its lines. *)
Inductive load_end (U : Type) :=
| Hangs | Crashes (c : crash) | Refuses (u : U) | Cannot_set_up (e : io_error) | Prints (lines : list string).
Arguments Hangs {U}.
Arguments Crashes {U} _.
Arguments Refuses {U} _.
Arguments Cannot_set_up {U} _.
Arguments Prints {U} _.
(** With the failures it reports on the way: [client failed: {e}]. *)
Record load_run (U : Type) := mkRun { complaints : list failure; run_end : load_end U }.
Arguments mkRun {U} _ _.
Arguments complaints {U} _.
Arguments run_end {U} _.

Definition run_out {R} (o : outcome (result R failure)) : thread_end R :=
  match o with Val r => Ended r | Panic => Panicked | NoFuel => Stuck end.

(** Thread [i] is [before i], [barrier.wait()] and [after i]: the barrier lets them through when
    all of them have come. *)
Definition got_there {S} (o : outcome (result S failure)) : bool :=
  match o with Val (Ok _) => true | _ => false end.
Definition kept_back {S R} (o : outcome (result S failure)) : thread_end R :=
  match o with Val (Err e) => Ended (Err e) | Panic => Panicked | Val (Ok _) | NoFuel => Stuck end.
Definition let_through {S R} (o : outcome (result S failure)) (after : S → outcome (result R failure)) : thread_end R :=
  match o with Val (Ok s) => run_out (after s) | _ => kept_back o end.
Definition thread_ends {S R} (n : nat) (before : nat → outcome (result S failure))
    (after : nat → S → outcome (result R failure)) : list (thread_end R) :=
  if forallb got_there (before <$> seq 0 n)
  then (λ i, let_through (before i) (after i)) <$> seq 0 n
  else (λ i, kept_back (before i)) <$> seq 0 n.

(** The loop [for w in workers]: [take] adds a result to what was gathered. *)
Inductive join_end (T : Type) := Waits | Unwinds (c : crash) | All (t : T).
Arguments Waits {T}.
Arguments Unwinds {T} _.
Arguments All {T} _.
Definition complaint {R} (r : result R failure) : list failure := match r with Ok _ => [] | Err e => [e] end.
Fixpoint join_all {R T} (take : T → result R failure → outcome T) (ends : list (thread_end R)) (t : T) :
    list failure * join_end T :=
  match ends with
  | [] => ([], All t)
  | Stuck :: _ => ([], Waits)
  | Panicked :: _ => ([], Unwinds Client_panicked)
  | Ended r :: ends =>
      match take t r with
      | Val t => let '(cs, j) := join_all take ends t in (complaint r ++ cs, j)
      | _ => ([], Unwinds Bad_sum)
      end
  end.

(** From the spawns on; [report] prints. *)
Definition load_threads {U R T} (spawned : nat → bool) (ends : list (thread_end R))
    (take : T → result R failure → outcome T) (t : T) (report : T → outcome (list string)) : load_run U :=
  if forallb spawned (seq 0 (length ends)) then
    let '(cs, j) := join_all take ends t in
    mkRun cs
      match j with
      | Waits => Hangs
      | Unwinds c => Crashes c
      | All t => match report t with Val lines => Prints lines | _ => Crashes Bad_index end
      end
  else mkRun [] (Crashes No_thread).

(** [Instant + Duration] panics past the last instant, whose seconds are an [i64]. *)
Definition LAST_INSTANT : N := 2 ^ 63 * SECOND.
Definition until {X} (deadline : N) (go_on : outcome X) : outcome X :=
  if deadline <? LAST_INSTANT then go_on else Panic.

Section mains.
Context {T : Tcp} {F : Features} {A : Type} (parse_addr : list N → option A).
Context (fixed : nat → f64 → string) (show_duration : N → string).
(** The [k]-th connection thread [i] makes, set up; its [k]-th look at the clock; the start as
    the main thread sees it. *)
Context (spawned : nat → bool) (dial : A → nat → nat → result stream io_error).
Context (clock : nat → nat → N) (started : N) (fuel lines : nat).

Definition first_dial (a : A) (i : nat) : outcome (result stream failure) :=
  Val (match dial a i 0 with Ok s => Ok s | Err e => Err (Failed e) end).
(** What the closure returns. *)
Definition returned {X C} (o : outcome (X * C)) : outcome X := '(r, _) ← o; Val r.
Definition add_tally (acc : list N * N) (r : result (list N) failure) : outcome (list N * N) :=
  Val (tally_one acc r).

Definition load_threads_of (o : LoadOpts A) : list (thread_end (list N)) :=
  thread_ends (N.to_nat o.(load_conns)) (first_dial o.(load_addr))
    (λ i s, allocates o.(load_bytes) (until (started + o.(load_hold) + o.(load_seconds) * SECOND)
       (returned (load_client (dial o.(load_addr) i) (clock i) fuel started o (N.of_nat i) (mkClient s 1 0 []))))).
Definition load_main (args : list (list N)) : load_run Args.usage :=
  match load_parse parse_addr args with
  | Err u => mkRun [] (Refuses u)
  | Ok o =>
      load_threads spawned (load_threads_of o) add_tally ([], 0)
        (λ t, load_output fixed show_duration o (sorted_tally t))
  end.

(** [load_churn.rs] waits first and dials for each request; before its first, a thread has no
    connection, and [nowhere] stands for that. *)
Definition churn_threads_of (nowhere : stream) (o : ChurnOpts A) : list (thread_end (list N)) :=
  thread_ends (N.to_nat o.(churn_conns)) (λ _, Val (Ok tt))
    (λ i _, until (started + o.(churn_seconds) * SECOND)
       (returned (churn_client (dial o.(churn_addr) i) (clock i) fuel started o (N.of_nat i)
         (mkClient nowhere 0 0 [])))).
Definition load_churn_main (nowhere : stream) (args : list (list N)) : load_run Args.usage :=
  match churn_parse parse_addr args with
  | Err u => mkRun [] (Refuses u)
  | Ok o =>
      load_threads spawned (churn_threads_of nowhere o) add_tally ([], 0)
        (λ t, churn_output fixed o (sorted_tally t))
  end.

Definition wal_threads_of (o : WalOpts A) : list (thread_end (list N)) :=
  thread_ends (N.to_nat o.(wal_conns)) (first_dial o.(wal_addr))
    (λ i s, allocates o.(wal_bytes) (until (started + o.(wal_seconds) * SECOND)
       (returned (wal_client (clock i) fuel started o (N.of_nat i) (mkClient s 1 0 []))))).
Definition load_wal_main (args : list (list N)) : load_run Args.usage :=
  match wal_parse parse_addr args with
  | Err u => mkRun [] (Refuses u)
  | Ok o =>
      load_threads spawned (wal_threads_of o) add_tally ([], 0)
        (λ t, wal_output fixed o (sorted_tally t))
  end.

Definition file_threads_of (o : FileOpts A) : list (thread_end (list N)) :=
  thread_ends (N.to_nat o.(file_conns)) (first_dial o.(file_addr))
    (λ i s, allocates o.(file_bytes) (until (started + o.(file_seconds) * SECOND)
       (returned (file_client (clock i) lines fuel started o (N.of_nat i) s)))).
(** [env] is the variable [FILE_DIR]. *)
Definition load_file_main `{Workdir} (env : option (list N)) (args : list (list N)) (d : workdir) :
    load_run Args.usage * workdir :=
  match file_parse parse_addr env args with
  | Err u => (mkRun [] (Refuses u), d)
  | Ok o =>
      match setup_files o d with
      | Val (Err e, d) => (mkRun [] (Cannot_set_up e), d)
      | Val (Ok _, d) =>
          (load_threads spawned (file_threads_of o) add_tally ([], 0)
             (λ t, file_output fixed o (sorted_tally t)), d)
      | Panic => (mkRun [] (Crashes No_room), d)
      | NoFuel => (mkRun [] Hangs, d)
      end
  end.

(** *** [kvload.rs] *)

(** [Conn::open], connection [i] going to an address of its own. *)
Definition Conn_open (connected : result stream io_error) (set_nodelay : result unit io_error)
    (try_clone : result unit io_error) : result BufReader io_error :=
  match connected with
  | Err e => Err e
  | Ok w =>
      match set_nodelay with
      | Err e => Err e
      | Ok _ => match try_clone with Err e => Err e | Ok _ => Ok (reader_new w) end
      end
  end.
Context (set_nodelay try_clone : nat → result unit io_error).
(** Up to the barrier: [addrs[id % addrs.len()]] panics for no addresses. *)
Definition kv_ready (o : Opts A) (i : nat) : outcome (result BufReader failure) :=
  match o.(addrs) !! (i mod length o.(addrs))%nat with
  | None => Panic
  | Some a =>
      match Conn_open (dial a i 0) (set_nodelay i) (try_clone i) with
      | Err e => Val (Err (Failed e))
      | Ok r =>
          allocates o.(value)
            ('(w, r) ← warm_up o (N.of_nat i) lines r;
             Val (match w with Ok _ => Ok r | Err e => Err (Failed e) end))
      end
  end.
Definition kv_result (o : outcome (result (list N) failure * Client KvConn)) : outcome (result ConnResult failure) :=
  '(r, c) ← o;
  Val (match r with
       | Ok l => Ok (mkConnResult l c.(link).(ops) c.(link).(mismatches))
       | Err e => Err e
       end).
(** [String::with_capacity(opts.pipeline * (opts.value + 32))]. *)
Definition batch_room {X} (o : Opts A) (go_on : outcome X) : outcome X :=
  room ← (let n := o.(pipeline) * (o.(value) + 32) in
          if n <? U64 then Val n else if overflow_checks then Panic else Val (n mod U64));
  allocates room go_on.
Definition kv_threads_of (o : Opts A) : list (thread_end ConnResult) :=
  thread_ends (N.to_nat o.(conns)) (kv_ready o)
    (λ i r, until (clock i 0 + o.(seconds) * SECOND)
       (batch_room o (kv_result (kv_timed o (N.of_nat i) (clock i) lines fuel r)))).
Definition kvload_main (resolve : list N → result (list A) unit) (args : list (list N)) : load_run (Kvload.usage) :=
  match Kvload.parse resolve args with
  | Err u => mkRun [] (Refuses u)
  | Ok o =>
      load_threads spawned (kv_threads_of o) (λ t r, collect [r] t) (mkReport [] 0 0 0)
        (λ t, kv_output fixed o (mkReport (merge_sort N.le t.(all)) t.(all_ops) t.(all_mismatches) t.(failed)))
  end.
End mains.

(** ** Lemmas *)

Lemma all_ended {R} (f : nat → thread_end R) (l : list nat) :
  (∀ i, i ∈ l → ∃ r, f i = Ended r) → ∃ rs, f <$> l = Ended <$> rs.
Proof.
  induction l as [|i l IH]; intros Hl; [by exists []|].
  destruct (Hl i) as [r Hr]; [by left|]. destruct IH as [rs Hrs]; [by intros j ?; apply Hl; right|].
  exists (r :: rs). by rewrite !fmap_cons, Hr, Hrs.
Qed.

Section threads.
Context {S R : Type} (n : nat) (before : nat → outcome (result S failure)) (after : nat → S → outcome (result R failure)).

Lemma arrived_forallb : forallb got_there (before <$> seq 0 n) = true → ∀ i, (i < n)%nat → ∃ s, before i = Val (Ok s).
Proof.
  intros Hall i Hi. rewrite forallb_forall in Hall. specialize (Hall (before i)).
  assert (got_there (before i) = true) as Hg.
  { apply Hall, list_elem_of_In, list_elem_of_fmap. exists i. split; [done|]. apply elem_of_seq. lia. }
  destruct (before i) as [[s|e]| |]; [by exists s|done..].
Qed.

(** Past the barrier every thread goes its own way. *)
Lemma thread_ends_through :
  forallb got_there (before <$> seq 0 n) = true →
  (∀ i s, (i < n)%nat → before i = Val (Ok s) → ∃ r, after i s = Val r) →
  ∃ rs, thread_ends n before after = Ended <$> rs ∧ length rs = n ∧
    ∀ i s r, (i < n)%nat → before i = Val (Ok s) → after i s = Val r → rs !! i = Some r.
Proof.
  intros Hall Hafter. unfold thread_ends. rewrite Hall. pose proof (arrived_forallb Hall) as Hb.
  destruct (all_ended (λ i, let_through (before i) (after i)) (seq 0 n)) as [rs Hrs].
  { intros i Hi%elem_of_seq. destruct (Hb i) as [s Hs]; [lia|]. destruct (Hafter i s) as [r Hr]; [lia|done|].
    exists r. by rewrite Hs; simpl; rewrite Hr. }
  exists rs. split; [done|]. pose proof (f_equal length Hrs) as Hlen. rewrite !length_fmap, length_seq in Hlen.
  split; [done|]. intros i s r Hi Hs Hr. pose proof (f_equal (lookup i) Hrs) as Hl.
  rewrite !list_lookup_fmap, lookup_seq_lt in Hl by lia. simpl in Hl. rewrite Hs in Hl. simpl in Hl. rewrite Hr in Hl.
  destruct (rs !! i) as [r'|]; [|done]. by injection Hl as ->.
Qed.

(** Short of it nobody does. *)
Lemma thread_ends_kept (up : nat → bool) :
  (∀ i, (i < n)%nat → match before i with Val (Ok _) => up i = true | Val (Err _) => up i = false | _ => False end) →
  forallb up (seq 0 n) = false →
  (∃ rs, thread_ends n before after = Ended <$> rs ∧ existsb up (seq 0 n) = false ∧ length rs = n ∧
     Forall (λ r, got_there (Val r) = false) rs) ∨
  (existsb up (seq 0 n) = true ∧ ∀ T (take : T → result R failure → outcome T) t,
     (∀ t e, ∃ t', take t (Err e) = Val t') → (join_all take (thread_ends n before after) t).2 = Waits).
Proof.
  intros Hup Hsome. assert (Hb : forallb got_there (before <$> seq 0 n) = false).
  { apply not_true_iff_false in Hsome. apply not_true_iff_false. intros Hall. apply Hsome, forallb_forall.
    intros i Hi%list_elem_of_In%elem_of_seq. destruct (arrived_forallb Hall i) as [s Hs]; [lia|].
    specialize (Hup i ltac:(lia)). by rewrite Hs in Hup. }
  unfold thread_ends. rewrite Hb. clear Hb Hsome. destruct (existsb up (seq 0 n)) eqn:He.
  - right. split; [done|]. intros T take t Htake. revert t.
    assert (Hin : ∀ i, i ∈ seq 0 n → (i < n)%nat) by (intros i ?%elem_of_seq; lia). revert Hin He.
    generalize (seq 0 n) as l. induction l as [|i l IH]; intros Hin He t; [done|].
    specialize (Hup i (Hin i ltac:(by left))). rewrite fmap_cons. cbn [existsb] in He.
    destruct (before i) as [[s|e]| |]; [done| |done..]. rewrite Hup in He. simpl.
    destruct (Htake t e) as [t' ->]. specialize (IH ltac:(intros j ?; apply Hin; by right) He t').
    by destruct (join_all take _ t') as [cs j].
  - left. destruct (all_ended (λ i, @kept_back S R (before i)) (seq 0 n)) as [rs Hrs].
    { intros i Hi%elem_of_seq. specialize (Hup i ltac:(lia)). destruct (before i) as [[s|e]| |]; [|by eexists|done..].
      exfalso. apply not_true_iff_false in He. apply He, existsb_exists. exists i. split; [|done].
      apply list_elem_of_In, elem_of_seq. lia. }
    exists rs. pose proof (f_equal length Hrs) as Hlen. rewrite !length_fmap, length_seq in Hlen.
    split_and!; [done|done|done|]. apply Forall_lookup. intros i r Hr.
    pose proof (f_equal (lookup i) Hrs) as Hl. pose proof (lookup_lt_Some _ _ _ Hr) as Hlt.
    rewrite !list_lookup_fmap, lookup_seq_lt, Hr in Hl by lia. simpl in Hl.
    destruct (before i) as [[s|e]| |]; [done| |done..]. by injection Hl as <-.
Qed.
End threads.

(** All joined, what [take] makes of the results. *)
Fixpoint take_all {R T} (take : T → result R failure → outcome T) (rs : list (result R failure)) (t : T) : outcome T :=
  match rs with [] => Val t | r :: rs => t' ← take t r; take_all take rs t' end.

Lemma join_ended {R T} (take : T → result R failure → outcome T) rs t t' :
  take_all take rs t = Val t' → join_all take (Ended <$> rs) t = (rs ≫= complaint, All t').
Proof.
  revert t. induction rs as [|r rs IH]; intros t H; [by injection H as ->|]. cbn [take_all] in H.
  rewrite fmap_cons. cbn [join_all]. destruct (take t r) as [t1| |]; [|done..]. by rewrite (IH t1 H).
Qed.

Lemma take_tallies rs acc : take_all add_tally rs acc = Val (fold_left tally_one rs acc).
Proof. revert acc. induction rs as [|r rs IH]; intros acc; [done|]. apply IH. Qed.

Lemma spawned_all {R} (spawned : nat → bool) (ends : list (thread_end R)) n :
  length ends = n → (∀ i, (i < n)%nat → spawned i = true) → forallb spawned (seq 0 (length ends)) = true.
Proof.
  intros <- Hs. apply forallb_forall. intros i Hi%list_elem_of_In%elem_of_seq. apply Hs. lia.
Qed.
Lemma length_thread_ends {S R} n (before : nat → outcome (result S failure)) (after : nat → S → outcome (result R failure)) :
  length (thread_ends n before after) = n.
Proof. unfold thread_ends. destruct (forallb _ _); by rewrite length_fmap, length_seq. Qed.

Lemma tally_failures (rs : list (result (list N) failure)) :
  Forall (λ r, got_there (Val r) = false) rs →
  tally rs = ([], len rs) ∧ length (rs ≫= complaint) = length rs.
Proof.
  intros Hrs. unfold tally. enough (Hf : ∀ acc, fold_left tally_one rs acc = (acc.1, acc.2 + len rs) ∧
    length (rs ≫= complaint) = length rs).
  { destruct (Hf ([], 0)) as [-> Hl]. split; [by rewrite N.add_0_l|done]. }
  induction Hrs as [|[l|e] rs Hr Hrs IH]; intros acc; [|done|].
  - split; [|done]. unfold len. by rewrite N.add_0_r, <-surjective_pairing.
  - cbn [fold_left tally_one]. destruct (IH (acc.1, acc.2 + 1)) as [-> Hl]. cbn [fst snd]. split.
    + rewrite len_cons. f_equal. lia.
    + simpl. by rewrite <-Hl.
Qed.

(** A generator that tallies: all of its threads get through the barrier, or some of them wait
    there for good, or every one of them failed before. *)
Lemma tallied {U S} n (before : nat → outcome (result S failure)) (after : nat → S → outcome (result (list N) failure))
    up spawned report :
  (∀ i, (i < n)%nat → spawned i = true) →
  (∀ i, (i < n)%nat → match before i with Val (Ok _) => up i = true | Val (Err _) => up i = false | _ => False end) →
  (forallb up (seq 0 n) = true → ∀ i s, (i < n)%nat → before i = Val (Ok s) → ∃ r, after i s = Val r) →
  let run : load_run U := load_threads spawned (thread_ends n before after) add_tally ([], 0) (λ t, report (sorted_tally t)) in
  if forallb up (seq 0 n)
  then ∃ rs, length rs = n ∧ run.(complaints) = rs ≫= complaint ∧
    (∀ i s r, (i < n)%nat → before i = Val (Ok s) → after i s = Val r → rs !! i = Some r) ∧
    ∀ lines, report (tally rs) = Val lines → run.(run_end) = Prints lines
  else if existsb up (seq 0 n) then run.(run_end) = Hangs
  else length run.(complaints) = n ∧
    ∀ lines, report ([], N.of_nat n) = Val lines → run.(run_end) = Prints lines.
Proof.
  intros Hsp Hup Hafter run. subst run. unfold load_threads.
  rewrite (spawned_all _ _ _ (length_thread_ends n before after) Hsp).
  destruct (forallb up (seq 0 n)) eqn:Hall.
  - destruct (thread_ends_through n before after) as (rs & -> & Hlen & Hrs); [|by apply Hafter|].
    { apply forallb_forall. intros b (i & -> & Hi)%list_elem_of_In%list_elem_of_fmap. apply elem_of_seq in Hi.
      specialize (Hup i ltac:(lia)). rewrite forallb_forall in Hall.
      specialize (Hall i (proj1 (list_elem_of_In _ _) (proj2 (elem_of_seq _ _ _) Hi))).
      destruct (before i) as [[s|e]| |]; [done|congruence|done..]. }
    exists rs. rewrite (join_ended add_tally rs _ _ (take_tallies rs _)). split_and!; [done..|].
    intros lines Hl. cbn [run_end]. unfold tally in Hl. by rewrite Hl.
  - destruct (thread_ends_kept n before after up Hup Hall) as [(rs & -> & -> & Hlen & Hrs)|[-> Hw]].
    + rewrite (join_ended add_tally rs _ _ (take_tallies rs _)). cbn [complaints run_end].
      destruct (tally_failures rs Hrs) as [Ht Hc]. split; [by rewrite Hc|]. intros lines Hl.
      unfold tally in Ht. rewrite Ht. unfold len. by rewrite Hlen, Hl.
    + specialize (Hw _ add_tally ([], 0) ltac:(by eexists)).
      destruct (join_all _ _ _) as [cs j]. cbn [snd] in Hw. by subst j.
Qed.

(** *** The barrier, step by step *)

(** The steps of [Load.start_step], thread [i] getting there or not. *)
Inductive start_as (up : nat → bool) : list phase → list phase → Prop :=
| came_through ts i : ts !! i = Some Dialling → up i = true → start_as up ts (open_barrier (<[i := Waiting]> ts))
| gave_up ts i : ts !! i = Some Dialling → up i = false → start_as up ts (<[i := Load.Gone]> ts).

Definition start_ok (up : nat → bool) (n : nat) (ts : list phase) : Prop :=
  length ts = n ∧ start_reachable n ts ∧
  ∀ i, match ts !! i with Some (Waiting | Running) => up i = true | Some Load.Gone => up i = false | _ => True end.

Lemma start_as_ok up n ts ts' : start_ok up n ts → start_as up ts ts' → start_ok up n ts'.
Proof.
  intros (Hl & Hr & Hp) Hs. assert (Hstep : start_step ts ts') by (destruct Hs; by constructor).
  split_and!; [|by eapply rtc_r|].
  - destruct Hs; [|by rewrite length_insert]. unfold open_barrier.
    destruct (bool_decide _); by rewrite ?length_fmap, length_insert.
  - intros j. destruct Hs as [ts i Hi Hu|ts i Hi Hu].
    + assert (Hw : ∀ p, <[i := Waiting]> ts !! j = Some p → p = Waiting ∨ p = Running → up j = true).
      { intros p [(-> & <- & _)|[_ Hj]]%list_lookup_insert_Some Hpw; [done|].
        specialize (Hp j). rewrite Hj in Hp. by destruct Hpw; subst p. }
      unfold open_barrier. destruct (bool_decide_reflect (Forall (λ p, p = Waiting) (<[i := Waiting]> ts))) as [Hall|_].
      * rewrite list_lookup_fmap. destruct (<[i := Waiting]> ts !! j) as [p|] eqn:Hj; [|done]. simpl.
        rewrite Forall_lookup in Hall. apply (Hw p eq_refl). left. by eapply Hall.
      * destruct (<[i := Waiting]> ts !! j) as [[]|] eqn:Hj; [done|apply (Hw _ eq_refl); tauto..| |done].
        apply list_lookup_insert_Some in Hj as [(_ & [=] & _)|[_ Hj]]. specialize (Hp j). by rewrite Hj in Hp.
    + destruct (decide (i = j)) as [<-|Hne].
      * rewrite list_lookup_insert_eq by (by eapply lookup_lt_Some). exact Hu.
      * rewrite list_lookup_insert_ne by done. apply Hp.
Qed.

Lemma start_ok_init up n : start_ok up n (replicate n Dialling).
Proof.
  split_and!; [apply length_replicate|apply rtc_refl|]. intros i.
  destruct (replicate n Dialling !! i) eqn:Hi; [|done]. by apply lookup_replicate in Hi as [-> _].
Qed.

(** ** The theorems *)

(** Where the threads end up does not depend on the order in which they get to the barrier: when
    nobody is on the way any more, either all of them run, if all of them got there, or those
    that did wait, for good, for those that did not. *)
Theorem barrier_any_order up n ts :
  rtc (start_as up) (replicate n Dialling) ts → Dialling ∉ ts →
  ts = if forallb up (seq 0 n) then replicate n Running
       else (λ i, if up i then Waiting else Load.Gone) <$> seq 0 n.
Proof.
  intros Hr Hd. assert (Hok : start_ok up n ts).
  { pose proof (start_ok_init up n) as H0. revert H0. revert Hr. generalize (replicate n Dialling) as ts0.
    clear. intros ts0 Hr H0. induction Hr as [|x y z Hs _ IH]; [done|]. apply IH. by eapply start_as_ok. }
  destruct Hok as (Hl & Hreach & Hp). pose proof (refused_dial_hangs n ts Hreach Hd) as Hend.
  destruct (bool_decide_reflect (Load.Gone ∈ ts)) as [Hg|Hg].
  - destruct Hend as [Hend _]. apply list_elem_of_lookup in Hg as [i Hi].
    assert (Hup : forallb up (seq 0 n) = false).
    { apply not_true_iff_false. rewrite forallb_forall. intros Hall. specialize (Hp i). rewrite Hi in Hp.
      rewrite Hall in Hp; [done|]. apply list_elem_of_In, elem_of_seq. apply lookup_lt_Some in Hi. lia. }
    rewrite Hup. apply list_eq. intros j. rewrite list_lookup_fmap. rewrite Forall_lookup in Hend.
    specialize (Hp j). destruct (ts !! j) as [p|] eqn:Hj.
    + pose proof (lookup_lt_Some _ _ _ Hj). rewrite lookup_seq_lt by lia. simpl.
      destruct (Hend j p Hj) as [->| ->]; by rewrite Hp.
    + apply lookup_ge_None in Hj. rewrite lookup_seq_ge by lia. done.
  - rewrite Forall_lookup in Hend. assert (Hup : forallb up (seq 0 n) = true).
    { apply forallb_forall. intros j Hj%list_elem_of_In%elem_of_seq.
      destruct (lookup_lt_is_Some_2 ts j) as [p Hj']; [lia|]. specialize (Hp j). rewrite Hj' in Hp.
      by rewrite (Hend j p Hj') in Hp. }
    rewrite Hup. apply list_eq. intros j. destruct (ts !! j) as [p|] eqn:Hj.
    + pose proof (lookup_lt_Some _ _ _ Hj). rewrite lookup_replicate_2 by lia. by rewrite (Hend j p Hj).
    + apply lookup_ge_None in Hj. symmetry. apply lookup_ge_None. rewrite length_replicate. lia.
Qed.

(** Whether thread [i] of [load.rs] gets to the barrier. *)
Definition dials_in {T : Tcp} {A} (dial : A → nat → nat → result stream io_error) (a : A) (i : nat) : bool :=
  match dial a i 0%nat with Ok _ => true | Err _ => false end.

(** A thread of [load.rs] past the barrier, on connection [s]. *)
Definition load_thread {T : Tcp} {A} (dial : A → nat → nat → result stream io_error) clock started fuel
    (o : LoadOpts A) (i : nat) (s : stream) :=
  load_client (dial o.(load_addr) i) (clock i) fuel started o (N.of_nat i) (mkClient s 1 0 []).

(** Whether a thread gets from the barrier to its loop: the payload can be allocated and the clock
    can count to the deadline. *)
Definition begins {A} (started : N) (o : LoadOpts A) : bool :=
  (o.(load_bytes) <=? ISIZE_MAX) && (started + o.(load_hold) + o.(load_seconds) * SECOND <? LAST_INSTANT).

(** What it counts is what it had echoed. *)
Lemma load_thread_ends {T : Tcp} {TL : TcpLaws T} {A} dial clock started fuel past (o : LoadOpts A) i s :
  let deadline := started + o.(load_hold) + o.(load_seconds) * SECOND in
  (∀ k, (past ≤ k)%nat → deadline ≤ clock i k) → (past < fuel)%nat → begins started o = true →
  ∃ r c, load_thread dial clock started fuel o i s = Val (r, c) ∧
    allocates o.(load_bytes) (until deadline (returned (load_thread dial clock started fuel o i s))) = Val r ∧ ∀ l, r = Ok l →
      let bs := payload (N.of_nat i) o.(load_bytes) in
      if o.(load_reconnect)
      then ∀ k, (k < length l)%nat → answered (dial o.(load_addr) i) bs bs (1 + k)
      else exchanged s c.(link) (times (length l) bs) (times (length l) bs).
Proof.
  intros deadline Hclock Hf [Hbytes Hlast]%andb_true_iff.
  destruct (load_counts_echoes (dial (load_addr o) i) (clock i) o (N.of_nat i) started past fuel s 1)
    as (r & c & Hr & Hl); [apply Hclock|done|]. exists r, c. split; [exact Hr|]. split.
  - unfold allocates, until. rewrite Hbytes. unfold deadline. rewrite Hlast. unfold returned, load_thread. by rewrite Hr.
  - intros l ->. destruct (load_reconnect o); [apply Hl|exact Hl].
Qed.

Lemma load_output_total {A} fixed show_duration (o : LoadOpts A) t :
  (Z.of_N (len t.1) < 2 ^ 53)%Z → ∃ lines, load_output fixed show_duration o t = Val lines.
Proof.
  destruct t as [all failed]. intros Hall. unfold load_output.
  destruct (output_total fixed "" (len all) (load_seconds o) all Hall) as (ps & Hps & _).
  unfold output. rewrite Hps. by eexists.
Qed.

(** A payload or a deadline that is too large is noticed only by the threads: with any number of
    bytes or seconds that [parse] lets through and the machine cannot have, the first of them
    panics, and [main] with it. *)
Theorem far_deadline_panics {T : Tcp} {A} parse_addr fixed show_duration spawned
    (dial : A → nat → nat → result stream io_error) clock started fuel args (o : LoadOpts A) :
  load_parse parse_addr args = Ok o → 0 < o.(load_conns) →
  (∀ i, (i < N.to_nat o.(load_conns))%nat → spawned i = true ∧ dials_in dial o.(load_addr) i = true) →
  begins started o = false →
  load_main parse_addr fixed show_duration spawned dial clock started fuel args = mkRun [] (Crashes Client_panicked).
Proof.
  intros Hargs Hn Hup Hlast. unfold load_main, load_threads, load_threads_of. rewrite Hargs.
  rewrite (spawned_all _ _ _ (length_thread_ends _ _ _)) by apply Hup. unfold thread_ends.
  assert (Hall : forallb got_there (first_dial dial (load_addr o) <$> seq 0 (N.to_nat (load_conns o))) = true).
  { apply forallb_forall. intros b (i & -> & Hi)%list_elem_of_In%list_elem_of_fmap. apply elem_of_seq in Hi.
    destruct (Hup i ltac:(lia)) as [_ Hd]. unfold dials_in in Hd. unfold first_dial. by destruct (dial _ i _). }
  rewrite Hall. destruct (N.to_nat (load_conns o)) as [|n] eqn:Hc; [lia|]. cbn [seq]. rewrite fmap_cons.
  destruct (Hup 0%nat ltac:(lia)) as [_ Hd]. unfold dials_in in Hd. unfold first_dial at 1.
  destruct (dial (load_addr o) 0%nat 0%nat) as [s|e]; [|done]. cbn [let_through].
  unfold allocates, until, begins in *.
  apply andb_false_iff in Hlast as [->| ->]; [done|by destruct (load_bytes o <=? ISIZE_MAX)].
Qed.

(** C36: a run of [load.rs], from its command line to what it prints.  This is for threads that
    can all be spawned and, where a thread gets to its loop, clocks that reach the deadline within
    the looks the fuel gives them.  When every thread connects and the loops begin, [main] reports
    those that failed later and, for fewer than 2^53 latencies, prints its three lines, whose
    numbers are those of the tally of the threads' results; and a thread's latencies are one for
    each of its payloads that came back, unbroken and in order.  When every thread connects but
    [--bytes] is more than can be allocated or [--seconds] more than the clock counts, [main]
    panics with the first of them.  When only some connect, [main] never returns.  When none does,
    it reports each, and prints its lines for no requests at all. *)
Theorem load_report {T : Tcp} {TL : TcpLaws T} {A} parse_addr fixed show_duration spawned
    (dial : A → nat → nat → result stream io_error) clock started fuel past args (o : LoadOpts A) :
  load_parse parse_addr args = Ok o →
  let n := N.to_nat o.(load_conns) in
  let deadline := started + o.(load_hold) + o.(load_seconds) * SECOND in
  (∀ i, (i < n)%nat → spawned i = true) →
  (begins started o = true → ∀ i k, (past ≤ k)%nat → deadline ≤ clock i k) → (past < fuel)%nat →
  let run := load_main parse_addr fixed show_duration spawned dial clock started fuel args in
  let up := dials_in dial o.(load_addr) in
  if forallb up (seq 0 n)
  then if begins started o || bool_decide (n = 0%nat)
    then ∃ rs, length rs = n ∧ run.(complaints) = rs ≫= complaint ∧
      (∀ i s, (i < n)%nat → dial o.(load_addr) i 0%nat = Ok s → ∃ r c,
         load_thread dial clock started fuel o i s = Val (r, c) ∧
         rs !! i = Some r ∧ ∀ l, r = Ok l →
           let bs := payload (N.of_nat i) o.(load_bytes) in
           if o.(load_reconnect)
           then ∀ k, (k < length l)%nat → answered (dial o.(load_addr) i) bs bs (1 + k)
           else exchanged s c.(link) (times (length l) bs) (times (length l) bs)) ∧
      ((Z.of_N (len (tally rs).1) < 2 ^ 53)%Z → ∃ lines,
         load_output fixed show_duration o (tally rs) = Val lines ∧ run.(run_end) = Prints lines)
    else run = mkRun [] (Crashes Client_panicked)
  else if existsb up (seq 0 n) then run.(run_end) = Hangs
  else length run.(complaints) = n ∧ ∃ lines,
    load_output fixed show_duration o ([], N.of_nat n) = Val lines ∧ run.(run_end) = Prints lines.
Proof.
  intros Hargs n deadline Hsp Hclock Hf run up.
  destruct (forallb up (seq 0 n) && negb (begins started o || bool_decide (n = 0%nat))) eqn:Hfar.
  { apply andb_true_iff in Hfar as [Hall Hr%negb_true_iff]. rewrite Hall, Hr.
    apply orb_false_iff in Hr as [Hb Hn%bool_decide_eq_false]. rewrite forallb_forall in Hall.
    apply (far_deadline_panics _ _ _ _ _ _ _ _ _ o); [done|lia| |done]. intros i Hi. split; [by apply Hsp|].
    apply Hall, list_elem_of_In, elem_of_seq. lia. }
  assert (Hbegins : forallb up (seq 0 n) = true → ∀ i, (i < n)%nat → begins started o = true).
  { intros Hall i Hi. rewrite Hall in Hfar. apply negb_false_iff, orb_true_iff in Hfar as [?|Hn%bool_decide_eq_true]; [done|lia]. }
  pose proof (λ i s Hb, load_thread_ends dial clock started fuel past o i s (Hclock Hb i) Hf Hb) as Hafter.
  subst run. unfold load_main. rewrite Hargs.
  assert (Hup : ∀ i, match first_dial dial o.(load_addr) i with
    Val (Ok _) => up i = true | Val (Err _) => up i = false | _ => False end).
  { intros i. unfold first_dial, up, dials_in. by destruct (dial _ i _). }
  pose proof (tallied (U := Args.usage) n (first_dial dial o.(load_addr))
    (λ i s, allocates o.(load_bytes) (until deadline (returned (load_thread dial clock started fuel o i s))))
    up spawned (load_output fixed show_duration o) Hsp (λ i _, Hup i)) as Ht.
  cbv zeta in Ht. unfold load_threads_of. fold n deadline.
  specialize (Ht (λ Hall i s Hi _, let '(ex_intro _ r (ex_intro _ _ (conj _ (conj Hr _)))) :=
    Hafter i s (Hbegins Hall i Hi) in ex_intro _ r Hr)).
  destruct (forallb up (seq 0 n)); [|destruct (existsb up (seq 0 n)); [exact Ht|]].
  - simpl in Hfar. apply negb_false_iff in Hfar as ->.
    destruct Ht as (rs & Hlen & Hc & Hrs & Hend). exists rs. split_and!; [done|exact Hc| |].
    + intros i s Hi Hs. destruct (Hafter i s (Hbegins eq_refl i Hi)) as (r & c & Hr & Hu & Hl). exists r, c.
      split_and!; [done| |done]. apply (Hrs i s); [done|by unfold first_dial; rewrite Hs|done].
    + intros Hsmall. destruct (load_output_total fixed show_duration o _ Hsmall) as [lines Hl].
      exists lines. split; [done|]. by apply Hend.
  - destruct Ht as [Hc Hend]. split; [exact Hc|].
    destruct (load_output_total fixed show_duration o ([], N.of_nat n)) as [lines Hl]; [done|].
    exists lines. split; [done|]. by apply Hend.
Qed.

(** ** Two threads against an echo *)

#[local] Existing Instance script_tcp.

Definition args_of (seconds bytes : string) : list (list N) :=
  codes <$> ["here"; "--conns"; "2"; "--seconds"; seconds; "--bytes"; bytes]%string.
Definition demo_args : list (list N) := args_of "4" "2".
(** One byte more than can be allocated. *)
Definition large_args : list (list N) := args_of "4" "9223372036854775808".
Definition demo_parse (s : list N) : option unit := Some tt.
(** Thread 0 is echoed two payloads; thread 1 gets a wrong one, or cannot connect. *)
Definition demo_dial (refused : bool) (a : unit) (i k : nat) : result stream io_error :=
  match i with
  | O => Ok (mkScript [0; 1; 0; 1] [] [] [])
  | _ => if refused then Err (mkIoError BrokenPipe "refused") else Ok (mkScript [1; 2; 1; 9] [] [] [])
  end.
Definition demo_run (args : list (list N)) (refused : bool) : load_run Args.usage :=
  load_main demo_parse (λ _ _, "") (λ _, "") (λ _, true) (demo_dial refused) (λ _, demo_clock) 0 9 args.

Lemma load_report_witness :
  (∃ (rs : list (result (list N) failure)) lines, length rs = 2%nat ∧ (demo_run demo_args false).(complaints) = [Echo_mismatch] ∧
     (demo_run demo_args false).(run_end) = Prints lines) ∧
  (demo_run demo_args true).(run_end) = Hangs ∧
  demo_run large_args false = mkRun [] (Crashes Client_panicked).
Proof.
  assert (Hclock : ∀ (i k : nat), (4 ≤ k)%nat → 0 + 0 + 4 * SECOND ≤ demo_clock k).
  { intros _ k Hk. unfold demo_clock. nia. }
  assert (Hp : load_parse demo_parse demo_args = Ok (mkLoad tt 2 4 2 0 false)) by (vm_compute; reflexivity).
  assert (Hl : load_parse demo_parse large_args = Ok (mkLoad tt 2 4 (2 ^ 63) 0 false)) by (vm_compute; reflexivity).
  split_and!.
  - destruct (load_report demo_parse (λ _ _, "") (λ _, "") (λ _, true) (demo_dial false) (λ _, demo_clock) 0 9 4
      demo_args _ Hp (λ _ _, eq_refl) (λ _, Hclock) ltac:(lia)) as (rs & Hn & Hc & Hrs & Hend).
    destruct (Hrs 0%nat _ ltac:(simpl; lia) eq_refl) as (r0 & c0 & H0 & Hr0 & _).
    destruct (Hrs 1%nat _ ltac:(simpl; lia) eq_refl) as (r1 & c1 & H1 & Hr1 & _).
    vm_compute in H0, H1. injection H0 as <- _. injection H1 as <- _.
    destruct rs as [|x [|y [|]]]; [done|done| |done]. injection Hr0 as ->. injection Hr1 as ->.
    destruct Hend as (lines & _ & Hp2); [vm_compute; reflexivity|].
    eexists _, lines. split; [exact Hn|]. split; [exact Hc|exact Hp2].
  - exact (load_report demo_parse (λ _ _, "") (λ _, "") (λ _, true) (demo_dial true) (λ _, demo_clock) 0 9 4
      demo_args _ Hp (λ _ _, eq_refl) (λ _, Hclock) ltac:(lia)).
  - exact (load_report demo_parse (λ _ _, "") (λ _, "") (λ _, true) (demo_dial false) (λ _, demo_clock) 0 9 4
      large_args _ Hl (λ _ _, eq_refl) (λ _, Hclock) ltac:(lia)).
Defined.
