(* ===== verification/TaskMains.v ===== *)
(** The [main]s of the two examples that run their tasks to the end and print what came of it:
    [src/examples/fd_pipe.rs] and [fanout_requests.rs].

    What the tasks did is the end of a run of [FdPipe.pipe_step] or of [Fanout.client]; how
    long it took is given, in nanoseconds. *)

From stdpp Require Import gmap pretty strings.
From S2P Require Import Prelude Manage Builder Metrics Store Inner Local Futures Balance System Safety Clients Text Args Debug FdPipe Fanout Float.

(** [Duration::as_secs_f64]. *)
Definition as_secs_f64 (ns : N) : f64 :=
  f64_add (f64_of (ns / 1000000000)) (f64_div (f64_of (ns mod 1000000000)) (f64_of 1000000000)).

(** [main] waits for its tasks, panics, returns an error, or returns having printed its lines. *)
Inductive task_end := Going | Died (message : string) | Failed_with (e : io_error) | Said (lines : list string).

Section mains.
Context {RT : Type} (fixed : nat → f64 → string) (runtime : result RT string) (elapsed : N).

Definition on_pool (capacity : N) (go_on : task_end) : task_end :=
  match build (with_max_size capacity builder_new) tt with
  | Err _ => Died "max_size is nonzero"
  | Ok _ => go_on
  end.
Definition in_runtime (go_on : task_end) : task_end :=
  match runtime with Err message => Died message | Ok _ => go_on end.

(** [broken] is the error of the write that failed, if one did. *)
Definition fd_pipe_main (anonymous : result unit io_error) (broken : io_error) (args : list (list N)) (p : Pipe) : task_end :=
  let '(messages, size) := fd_pipe_args args in
  on_pool 64 (in_runtime
    match anonymous with
    | Err e => Failed_with e
    | Ok _ =>
        match p.(prod), p.(cons_) with
        | Stopped, _ => Failed_with broken
        | Closed, AtEof | Closed, Errored =>
            Said ["piped " +:+ pretty messages +:+ " records x " +:+ pretty size +:+ " B = " +:+ pretty p.(FdPipe.total) +:+
                  " bytes in " +:+ fixed 3 (as_secs_f64 elapsed) +:+ "s (" +:+
                  fixed 0 (f64_div (f64_of messages) (as_secs_f64 elapsed)) +:+ " records/s)"]
        | _, _ => Going
        end
    end).

(** [backend_addr] is the backend's address as it prints, once it is bound; [opens] is [OPENS],
    the upstreams [Upstreams] has opened. *)
Definition fanout_main `{Tcp} `{Features} (backend_addr : result string io_error) (opens : N)
    (args : list (list N)) (f : Fan stream io_error) : task_end :=
  let '(requests, capacity, clients, size) := fanout_args args in
  in_runtime
    match backend_addr with
    | Err e => Failed_with e
    | Ok a =>
        on_pool capacity
          (if forallb (λ c, match c with (_, Returned) => true | _ => false end) (map_to_list f.(Fanout.clients)) then
             let secs := as_secs_f64 elapsed in
             let opened := "pool: opened " +:+ pretty opens +:+ " upstreams total, peak " +:+
               pretty f.(cells).(peak) +:+ " in use at once (cap " +:+ pretty capacity +:+ ")" in
             match local_state f.(Fanout.sys).(world) with
             | Val (state, _) =>
                 Said ["fanout_requests -> " +:+ a +:+ ": " +:+ pretty clients +:+ " client tasks over " +:+
                         pretty capacity +:+ " pooled upstreams, " +:+ pretty requests +:+ " requests x " +:+
                         pretty size +:+ " B";
                       "done: " +:+ pretty requests +:+ " requests in " +:+ fixed 3 secs +:+ "s (" +:+
                         fixed 0 (f64_div (f64_of requests) secs) +:+ " req/s), " +:+
                         pretty f.(cells).(bytes) +:+ " B echoed";
                       if feature_metrics then opened +:+ "; final " +:+ debug_state state else opened]
             | _ => Died ""
             end
           else Going)
    end.
End mains.

(** ** What is printed is what happened *)

Lemma on_pool_exact capacity go_on :
  on_pool capacity go_on = if capacity =? 0 then Died "max_size is nonzero" else go_on.
Proof.
  unfold on_pool, build. simpl. by destruct (capacity =? 0).
Qed.

(** Both ends of the pipe done, [fd_pipe] prints the number of bytes in its records. *)
Theorem fd_pipe_says {F : Features} {RT} fixed (rt : RT) elapsed broken args messages size room p :
  fd_pipe_args args = (messages, size) → messages * size < U64 →
  pipe_reachable messages size room p → p.(prod) = Closed → p.(cons_) = AtEof →
  fd_pipe_main fixed (Ok rt) elapsed (Ok tt) broken args p =
    Said ["piped " +:+ pretty messages +:+ " records x " +:+ pretty size +:+ " B = " +:+ pretty (messages * size) +:+
          " bytes in " +:+ fixed 3%nat (as_secs_f64 elapsed) +:+ "s (" +:+
          fixed 0%nat (f64_div (f64_of messages) (as_secs_f64 elapsed)) +:+ " records/s)"].
Proof.
  intros Ha Hb Hp Hpr Hc. destruct (pipe_tally messages size room p Hb Hp Hpr Hc) as [_ Ht].
  unfold fd_pipe_main. rewrite Ha, on_pool_exact, Hpr, Hc, Ht. reflexivity.
Qed.

(** All its clients done, [fanout_requests] returns and prints three lines; the bytes in the
    second are [size] for each reply that came, the peak in the third never passes the
    capacity, and the state there is that of a pool with nothing leased out. *)
Theorem fanout_says {T : Tcp} {TL : TcpLaws T} {F : Features} {R : Runtime} {RL : RuntimeLaws R}
    {M : ManageConnection stream io_error} {RT} fixed (rt : RT) elapsed a opens args cfg requests clients size
    (f : Fan stream io_error) :
  config_ok cfg → fanout_args args = (requests, cfg.(max_size), clients, size) →
  requests < U64 → size * requests < U64 → fan_reachable cfg requests size f →
  (∀ k c, f.(Fanout.clients) !! k = Some c → c = Returned) →
  f.(cells).(bytes) = size * len (replied f.(completed)) ∧ f.(cells).(peak) ≤ cfg.(max_size) ∧
  f.(Fanout.sys).(leases) = ∅ ∧
  ∃ first second third, fanout_main fixed (Ok rt) elapsed (Ok a) opens args f = Said [first; second; third].
Proof.
  intros Hcfg Ha Ht Hb Hf Hall. destruct (fan_reachable_inv cfg Hcfg requests size Ht Hb f Hf) as [Hs Hp Hin Hpk _ _ Hby _].
  split_and!; [done|apply Hpk| |].
  - apply map_eq. intros k. rewrite lookup_empty. specialize (Hp k).
    destruct (Fanout.clients f !! k) as [c|] eqn:Hk; [rewrite (Hall k c Hk) in Hp|]; apply Hp.
  - unfold fanout_main. rewrite Ha. cbn [in_runtime]. rewrite on_pool_exact.
    assert (Hz : cfg.(max_size) =? 0 = false) by (apply N.eqb_neq; destruct Hcfg; lia). rewrite Hz.
    assert (Hret : forallb (λ c : nat * client_state, match c with (_, Returned) => true | _ => false end)
      (map_to_list (Fanout.clients f)) = true).
    { apply forallb_forall. intros [k c] Hin'%list_elem_of_In%elem_of_map_to_list. by rewrite (Hall k c Hin'). }
    rewrite Hret. eexists _, _, _. reflexivity.
Qed.
