(* ===== verification/RedisProxy.v ===== *)
(** The tokio Redis proxy ([src/crates/deadpool-baseline/examples/redis_proxy.rs]): a line protocol
    in front of one leased Redis connection per client.  Values are any bytes a [String] can hold,
    newlines included: the theorems say what becomes of the line protocol then. *)

From S2P Require Import Prelude Text Reader Kvload.

(** ** The Redis connection

    [deadpool_redis]'s, as far as the proxy uses it: an answer or an error, and the connection
    as it is afterwards. *)
Class Redis := {
  redis : Type;
  RedisError : Type;
  is_io_error : RedisError → bool;
  is_connection_dropped : RedisError → bool;
  is_connection_refusal : RedisError → bool;
  display : RedisError → list N;
  redis_ping : redis → result (list N) RedisError * redis;
  redis_get : list N → redis → result (option (list N)) RedisError * redis;
  redis_set : list N → list N → redis → result unit RedisError * redis;
  redis_incr : list N → Z → redis → result Z RedisError * redis;
  redis_del : list N → redis → result Z RedisError * redis
}.

Definition to_ascii_uppercase (s : list N) : list N :=
  (λ c, if between 97 122 c then c - 32 else c) <$> s.

Section proxy.
(** [debug] is how [{:?}] shows a string. *)
Context `{Tcp} `{Redis} (debug : list N → list N).

(** [Result::map] on an answer. *)
Definition answered {A} (f : A → list N) (r : result A RedisError * redis) : result (list N) RedisError * redis :=
  (match r.1 with Ok a => Ok (f a) | Err e => Err e end, r.2).
Definition say (s : string) (c : redis) : result (list N) RedisError * redis := (Ok (codes s), c).

(** The match of [run] on the command word in capitals, [parts] being the words after it;
    [None] is [QUIT]. *)
Definition dispatch (word : list N) (parts : list (list N)) (c : redis) :
    option (result (list N) RedisError * redis) :=
  if bool_decide (word = codes "PING") then Some (redis_ping c)
  else if bool_decide (word = codes "GET") then Some
    match parts with
    | k :: _ => answered (λ v, default (codes "(nil)") v) (redis_get k c)
    | [] => say "ERR GET needs a key" c
    end
  else if bool_decide (word = codes "SET") then Some
    match parts with
    | k :: v :: _ => answered (λ _, codes "OK") (redis_set k v c)
    | _ => say "ERR SET needs a key and a value" c
    end
  else if bool_decide (word = codes "INCR") then Some
    match parts with
    | k :: _ => answered (λ n, codes (pretty n)) (redis_incr k 1 c)
    | [] => say "ERR INCR needs a key" c
    end
  else if bool_decide (word = codes "DEL") then Some
    match parts with
    | k :: _ => answered (λ n, codes (pretty n)) (redis_del k c)
    | [] => say "ERR DEL needs a key" c
    end
  else if bool_decide (word = codes "QUIT") then None
  else Some (Ok (codes "ERR unknown command " ++ debug word), c).

Definition connection_fatal (e : RedisError) : bool :=
  is_io_error e || is_connection_dropped e || is_connection_refusal e.

(** [run]: the reply line, whether the client's connection ends, and the Redis connection. *)
Definition run (line : list N) (c : redis) : list N * bool * redis :=
  match split_whitespace line with
  | [] => (codes "ERR empty command" ++ [10], false, c)
  | command :: parts =>
      match dispatch (to_ascii_uppercase command) parts c with
      | None => (codes "BYE" ++ [10], true, c)
      | Some (Ok reply, c) => (reply ++ [10], false, c)
      | Some (Err e, c) => (codes "ERR " ++ display e ++ [10], connection_fatal e, c)
      end
  end.

(** ** A client *)

Record Client := mkProxied { conn : BufReader; backend : redis }.

(** Why the loop of [handle] broke. *)
Inductive stop := Hung_up | Unreadable | Unwritable | Fatal.

Definition client_line (fuel : nat) : St Client (result (list N) io_error) := λ s,
  match read_line fuel s.(conn) with
  | Val (r, c) => Val (r, mkProxied c s.(backend))
  | Panic => Panic
  | NoFuel => NoFuel
  end.
Definition client_run (line : list N) : St Client (list N * bool) := λ s,
  let '(reply, fatal, c) := run line s.(backend) in Val ((reply, fatal), mkProxied s.(conn) c).
Definition client_reply (reply : list N) : St Client (result unit io_error) := λ s,
  let '(r, p) := send (as_bytes reply) s.(conn).(inner) in
  Val (r, mkProxied (mkReader s.(conn).(unread) p) s.(backend)).

Definition is_line_end (c : N) : bool := (c =? 13) || (c =? 10).

Fixpoint handle_loop (fuel lines : nat) : St Client stop :=
  match fuel with
  | O => no_fuel
  | S fuel =>
      line ← client_line lines;
      match line with
      | Err _ => mret Unreadable
      | Ok [] => mret Hung_up
      | Ok line =>
          r ← client_run (trim_end_matches is_line_end line);
          w ← client_reply r.1;
          match w with
          | Err _ => mret Unwritable
          | Ok _ => if r.2 : bool then mret Fatal else handle_loop fuel lines
          end
      end
  end.

(** [handle], the pool's answer given. *)
Definition handle (fuel lines : nat) (lease : option redis) (s : stream) : outcome (option redis * stream) :=
  match lease with
  | None => Val (None, s)
  | Some c =>
      match handle_loop fuel lines (mkProxied (reader_new s) c) with
      | Val (_, cl) => Val (Some cl.(backend), cl.(conn).(inner))
      | Panic => Panic
      | NoFuel => NoFuel
      end
  end.

(** ** What a session is

    The replies to some lines, up to the first fatal one, and whether there was one. *)
Fixpoint session (lines : list (list N)) (c : redis) : list (list N) * bool * redis :=
  match lines with
  | [] => ([], false, c)
  | line :: lines =>
      let '(reply, fatal, c) := run line c in
      if fatal : bool then ([reply], true, c)
      else let '(replies, ended, c) := session lines c in (reply :: replies, ended, c)
  end.
End proxy.

(** ** Lemmas *)

Lemma pretty_Z_no_newline (z : Z) : 10 ∉ codes (pretty z).
Proof.
  unfold pretty, pretty_Z. destruct z as [|p|p].
  - by apply (bool_decide_unpack _).
  - apply pretty_digits.
  - rewrite codes_app, not_elem_of_app. split; [by apply (bool_decide_unpack _)|]. apply pretty_digits.
Qed.

Lemma newline_trim text : trim_end_matches is_line_end (text ++ [10]) = trim_end_matches is_line_end text.
Proof.
  unfold trim_end_matches. rewrite rev_app_distr. done.
Qed.

Section spec.
Context {T : Tcp} {TL : TcpLaws T} {R : Redis} (debug : list N → list N).

Lemma client_reply_spec reply (s : Client) :
  wp (client_reply reply) (λ r s', pending s'.(conn) = pending s.(conn) ∧ s'.(backend) = s.(backend) ∧
    (steady s.(conn).(inner) → steady s'.(conn).(inner)) ∧
    match r with
    | Ok _ => outgoing s'.(conn).(inner) = outgoing s.(conn).(inner) ++ as_bytes reply
    | Err e => send (as_bytes reply) s.(conn).(inner) = (Err e, s'.(conn).(inner))
    end) s.
Proof.
  unfold wp, client_reply. destruct (send _ _) as [r p] eqn:Hs. destruct (send_reads _ _ _ _ Hs) as [Hi Hst].
  unfold pending. simpl. rewrite Hi. split_and!; try done. destruct r as [[]|e]; [|done]. by apply send_writes.
Qed.

(** The lines of a client, as bytes. *)
Definition typed_lines (lines : list (list N)) : list N := as_bytes (lines ≫= λ l, l ++ [10]).

Lemma as_bytes_app a b : as_bytes (a ++ b) = as_bytes a ++ as_bytes b.
Proof. unfold as_bytes. by rewrite bind_app. Qed.

Lemma typed_lines_cons l lines : typed_lines (l :: lines) = as_bytes (l ++ [10]) ++ typed_lines lines.
Proof. unfold typed_lines. cbn [mbind list_bind]. apply as_bytes_app. Qed.

Lemma first_typed_line l rest line tail :
  Forall is_char l → 10 ∉ l → as_bytes (l ++ [10]) ++ rest = line ++ tail → line_of 10 line tail →
  line = as_bytes (l ++ [10]) ∧ tail = rest.
Proof.
  intros Hc Hl He Hline. rewrite as_bytes_app in *. pose proof (newline_as_bytes l Hl) as Hb.
  change (as_bytes [10]) with [10] in *. revert Hb He. generalize (as_bytes l) as p. intros p Hb He.
  destruct Hline as [(k & -> & Hk)|[Hk ->]].
  - rewrite <-!app_assoc in He. simpl in He. enough (p = k ∧ rest = tail) as [-> ->] by done.
    revert k Hk He. induction p as [|x p IH]; intros [|y k] Hk He; simpl in He.
    + by injection He.
    + injection He as <- _. exfalso. apply Hk. left.
    + injection He as -> _. exfalso. apply Hb. left.
    + injection He as <- He. rewrite not_elem_of_cons in Hb, Hk. destruct (IH (proj2 Hb) k (proj2 Hk) He) as [-> ->]. done.
  - rewrite app_nil_r in He. subst line. exfalso. apply Hk. rewrite <-app_assoc. set_solver.
Qed.

(** What a conversation of these lines comes to: Redis [c'] and the client's stream [s'].
    Either the session was had to its end and all its replies were written; or the
    client was sent [told] and the write of the next reply failed, Redis having been asked
    the lines up to that one. *)
Definition served (lines : list (list N)) (c : redis) (s : stream) (c' : redis) (s' : stream) : Prop :=
  let '(replies, _, c1) := session debug lines c in
  c' = c1 ∧ outgoing s' = outgoing s ++ as_bytes (concat replies) ∨
  ∃ told reply untold p e, replies = told ++ reply :: untold ∧
    c' = (session debug (take (S (length told)) lines) c).2 ∧
    outgoing p = outgoing s ++ as_bytes (concat told) ∧ send (as_bytes reply) p = (Err e, s').

(** One line further back. *)
Lemma served_more line lines reply c c1 s p c' s' :
  run debug line c = (reply, false, c1) → outgoing p = outgoing s ++ as_bytes reply →
  served lines c1 p c' s' → served (line :: lines) c s c' s'.
Proof.
  intros Hrun Hp. unfold served. cbn [session]. rewrite Hrun.
  destruct (session debug lines c1) as [[replies ended] c2].
  intros [[-> ->]|(told & r & untold & q & e & -> & -> & Hq & Hs)].
  - left. split; [done|]. rewrite Hp. simpl. by rewrite as_bytes_app, app_assoc.
  - right. exists (reply :: told), r, untold, q, e. split_and!; [done| | |done].
    + simpl. rewrite Hrun. by destruct (session debug (take _ lines) c1) as [[??]?].
    + rewrite Hq, Hp. simpl. by rewrite as_bytes_app, app_assoc.
Qed.

(** The loop is the session of the client's lines, unless a reply cannot be written. *)
Lemma handle_loop_spec fuel lines_fuel lines (s : Client) :
  Forall (λ l, Forall is_char l ∧ 10 ∉ l) lines → pending s.(conn) = typed_lines lines →
  steady s.(conn).(inner) →
  (length lines < fuel)%nat → (N.to_nat (len (pending s.(conn))) < lines_fuel)%nat →
  wp (handle_loop debug fuel lines_fuel) (λ _ s',
    served (trim_end_matches is_line_end <$> lines) s.(backend) s.(conn).(inner) s'.(backend) s'.(conn).(inner)) s.
Proof.
  revert lines s. induction fuel as [|fuel IH]; intros lines s Hlines Hp Hst Hf Hl; [lia|]. cbn [handle_loop].
  wp_step. unfold wp at 1, client_line. pose proof (reader_line_spec lines_fuel s.(conn) Hl) as Hrl. unfold wp in Hrl.
  destruct (read_line lines_fuel s.(conn)) as [[r c]| |]; [|done..]. destruct Hrl as [[Ho Hst'] Hr]. cbn beta iota.
  destruct lines as [|l lines].
  - change (typed_lines []) with (@nil N) in Hp. destruct r as [text|e].
    + destruct Hr as (bs & Hu & Hpb & _). rewrite Hp in Hpb. symmetry in Hpb. apply app_nil in Hpb as [-> _].
      injection Hu as <-. apply wp_ret. left. split; [done|]. cbn [conn]. simpl. by rewrite app_nil_r.
    + destruct (Hr Hst) as (bs & Hu & Hpb & _). rewrite Hp in Hpb. symmetry in Hpb. by apply app_nil in Hpb as [-> _].
  - apply Forall_cons in Hlines as [[Hc Hnl] Hlines].
    assert (Hchars : Forall is_char (l ++ [10])).
    { apply Forall_app. split; [done|]. constructor; [by left|done]. }
    rewrite Hp, typed_lines_cons in *.
    assert (Hread : r = Ok (l ++ [10]) ∧ pending c = typed_lines lines).
    { destruct r as [text|e]; [|specialize (Hr Hst)]; destruct Hr as (bs & Hu & Hpb & Hline);
        destruct (first_typed_line _ _ _ _ Hc Hnl Hpb Hline) as [-> ->]; rewrite from_utf8_as_bytes in Hu by done; [|done].
      split; [|done]. by injection Hu as <-. }
    destruct Hread as [-> Hpc]. destruct (l ++ [10]) as [|x t] eqn:Hlt; [by destruct l|]. rewrite <-Hlt.
    rewrite newline_trim. wp_step. unfold wp at 1, client_run. cbn [backend conn fmap list_fmap session].
    destruct (run debug (trim_end_matches is_line_end l) s.(backend)) as [[reply fatal] b] eqn:Hrun. cbn beta iota.
    wp_step. wp_apply client_reply_spec as w s1 (Hp1 & Hb1 & Hst1 & Hw). cbn [conn backend fst snd] in *.
    rewrite Ho in Hw. destruct w as [[]|e]; [destruct fatal|]; [wp_steps..|].
    + unfold served. cbn [session]. rewrite Hrun. left. split; [done|]. rewrite Hw. simpl. by rewrite app_nil_r.
    + eapply wp_mono; [apply (IH lines); [done|by rewrite Hp1|auto|simpl in Hf; lia|]|].
      { rewrite Hp1, Hpc. rewrite len_app in Hl. lia. }
      intros r s'. rewrite Hb1. by apply (served_more _ _ reply).
    + wp_steps. unfold served. cbn [session]. rewrite Hrun.
      assert (Hasked : b = (session debug (take 1 (trim_end_matches is_line_end l :: (trim_end_matches is_line_end <$> lines))) s.(backend)).2).
      { simpl. rewrite Hrun. by destruct fatal. }
      rewrite Hb1. destruct fatal; [|destruct (session debug _ b) as [[replies ended] c']]; right.
      * exists [], reply, [], c.(inner), e. simpl. by rewrite app_nil_r.
      * exists [], reply, replies, c.(inner), e. simpl. by rewrite app_nil_r.
Qed.

(** A reply of one line: a newline at its end and no other. *)
Definition one_line (reply : list N) : Prop := ∃ body, reply = body ++ [10] ∧ 10 ∉ body.

(** Text that the proxy has from elsewhere and passes on: what a [PING] or a [GET] brought, how an
    error of Redis displays, how an unknown command is shown. *)
Definition relayed (body : list N) : Prop :=
  (∃ c c', redis_ping c = (Ok body, c')) ∨
  (∃ k c c', redis_get k c = (Ok (Some body), c')) ∨
  (∃ e, body = codes "ERR " ++ display e) ∨
  (∃ w, body = codes "ERR unknown command " ++ debug w).

(** Every reply ends in a newline, and has another one only in relayed text. *)
Definition well_ended (reply : list N) : Prop :=
  one_line reply ∨ ∃ body, reply = body ++ [10] ∧ relayed body.

Lemma well_ended_newline reply : well_ended reply → ∃ body, reply = body ++ [10].
Proof. intros [(body & -> & _)|(body & -> & _)]; eauto. Qed.

Lemma answered_text {A} (f : A → list N) r a c' :
  answered f r = (Ok a, c') → ∃ x, r = (Ok x, c') ∧ a = f x.
Proof. destruct r as [[x|e] c]; unfold answered; simpl; intros [= <- <-]; eauto. Qed.

(** An answer to a command is the proxy's own text, of one line, or relayed. *)
Lemma dispatch_text word parts c a c' :
  dispatch debug word parts c = Some (Ok a, c') → 10 ∉ a ∨ relayed a.
Proof.
  assert (Hsay : ∀ t, bool_decide (10 ∉ codes t) → say t c = (Ok a, c') → 10 ∉ a ∨ relayed a).
  { intros t Ht%bool_decide_unpack [= <- _]. by left. }
  unfold dispatch. repeat case_bool_decide; try done; intros [=Ha].
  - right. left. eauto.
  - destruct parts as [|k parts]; [by eapply Hsay, Ha|].
    apply answered_text in Ha as ([v|] & Hg & ->); simpl; [right; right; left; eauto|].
    left. by apply (bool_decide_unpack _).
  - destruct parts as [|k [|v parts]]; [by eapply Hsay, Ha..|].
    apply answered_text in Ha as (? & _ & ->). left. by apply (bool_decide_unpack _).
  - destruct parts as [|k parts]; [by eapply Hsay, Ha|].
    apply answered_text in Ha as (z & _ & ->). left. apply pretty_Z_no_newline.
  - destruct parts as [|k parts]; [by eapply Hsay, Ha|].
    apply answered_text in Ha as (z & _ & ->). left. apply pretty_Z_no_newline.
  - right. right. right. right. by exists word.
Qed.

Lemma run_well_ended line c : well_ended (run debug line c).1.1.
Proof.
  assert (Hsay : ∀ t, bool_decide (10 ∉ codes t) → well_ended (codes t ++ [10])).
  { intros t Ht%bool_decide_unpack. left. by exists (codes t). }
  unfold run. destruct (split_whitespace line) as [|command parts]; [by apply Hsay|].
  destruct (dispatch _ _ _ _) as [[[reply|e] c']|] eqn:Hd; cbn [fst snd]; [| |by apply Hsay].
  - destruct (dispatch_text _ _ _ _ _ Hd) as [Hn|Hr]; [left|right]; by exists reply.
  - right. exists (codes "ERR " ++ display e). split; [by rewrite app_assoc|]. right. right. left. by exists e.
Qed.

(** One reply per request line, as far as the session went. *)
Lemma session_replies lines c :
  let '(replies, ended, _) := session debug lines c in
  Forall well_ended replies ∧
  (if ended : bool then length replies ≤ length lines else length replies = length lines)%nat.
Proof.
  revert c. induction lines as [|line lines IH]; intros c; cbn [session]; [done|].
  pose proof (run_well_ended line c) as Hone. destruct (run debug line c) as [[reply fatal] c1]. cbn [fst] in Hone.
  destruct fatal; [split; [by constructor|simpl; lia]|]. specialize (IH c1).
  destruct (session debug lines c1) as [[replies ended] c2]. destruct IH as [Hall Hlen]. split; [by constructor|].
  destruct ended; simpl; lia.
Qed.

(** *** The lines of the replies *)

Lemma lines_in_zero b : lines_in b = 0%nat → 10 ∉ b.
Proof.
  unfold lines_in. intros Hz%nil_length_inv Hin.
  assert (Hf : 10 ∈ filter (λ c, c = 10) b) by by apply list_elem_of_filter.
  rewrite Hz in Hf. by apply not_elem_of_nil in Hf.
Qed.
Lemma newline_of_bytes b : 10 ∉ as_bytes b → 10 ∉ b.
Proof.
  intros Hn Hin. apply Hn. unfold as_bytes. apply list_elem_of_bind. exists 10. split; [by left|done].
Qed.

(** As many lines as replies at least, and no more exactly when each reply is one line. *)
Lemma reply_lines replies :
  Forall well_ended replies →
  (length replies ≤ lines_in (as_bytes (concat replies)))%nat ∧
  (lines_in (as_bytes (concat replies)) = length replies ↔ Forall one_line replies).
Proof.
  induction 1 as [|reply replies Hr _ [IH1 IH2]]; [by split|]. cbn [concat length].
  apply well_ended_newline in Hr as [body ->]. rewrite !as_bytes_app, !lines_in_app.
  change (lines_in (as_bytes [10])) with 1%nat. rewrite Forall_cons. split; [lia|]. split.
  - intros He. split; [|apply IH2; lia]. exists body. split; [done|].
    apply newline_of_bytes, lines_in_zero. lia.
  - intros [(body' & [-> _]%app_inj_2 & Hn) Hall]; [|done].
    apply IH2 in Hall. rewrite lines_in_none by by apply newline_as_bytes. lia.
Qed.
End spec.

(** *** What [kvload] sends *)

Lemma trim_end_app p a c b : p c = false → trim_end_matches p ((a ++ [c]) ++ b) = (a ++ [c]) ++ trim_end_matches p b.
Proof.
  unfold trim_end_matches. intros Hc. induction b as [|x b IH] using rev_ind.
  - rewrite app_nil_r, rev_app_distr. cbn [rev app drop_while]. rewrite Hc. cbn [rev]. by rewrite rev_involutive, app_nil_r.
  - rewrite app_assoc, (rev_app_distr _ [x]), (rev_app_distr b [x]). cbn [rev app drop_while].
    destruct (p x); [apply IH|]. cbn [rev]. rewrite !rev_involutive. by rewrite app_assoc.
Qed.

Lemma split_on_word p w c r :
  Forall (λ x, p x = false) w → p c = true → split_on p (w ++ c :: r) = w :: split_on p r.
Proof.
  induction 1 as [|x w Hx Hw IH]; intros Hc; cbn [app split_on]; [by rewrite Hc|]. rewrite Hx. by rewrite (IH Hc).
Qed.

Lemma first_word w r :
  w ≠ [] → Forall (λ x, is_whitespace x = false) w → ∃ ws, split_whitespace ((w ++ [32]) ++ r) = w :: ws.
Proof.
  intros Hne Hw. rewrite <-app_assoc. unfold split_whitespace. simpl ([32] ++ r).
  rewrite split_on_word by done. rewrite filter_cons_True by done. by eexists.
Qed.

Section kvload.
Context {R : Redis} (debug : list N → list N) {A : Type} (opts : Opts A) (id : N).

(** The reply to an error that ends the client's connection. *)
Definition fatal_reply (reply : list N) : Prop :=
  ∃ e, connection_fatal e = true ∧ reply = codes "ERR " ++ display e ++ [10].

(** A line whose command is not [QUIT] ends the connection only by such an error. *)
Lemma run_fatal line w ws c :
  split_whitespace line = w :: ws → to_ascii_uppercase w ≠ codes "QUIT" →
  (run debug line c).1.2 = true → fatal_reply (run debug line c).1.1.
Proof.
  intros Hs Hq. unfold run. rewrite Hs.
  destruct (dispatch _ _ _ _) as [[[reply|e] c']|] eqn:Hd; simpl; [done|by exists e|].
  exfalso. revert Hd. unfold dispatch. by repeat case_bool_decide.
Qed.

(** What a command of a batch is. *)
Definition quiet_line (l : list N) : Prop :=
  Forall is_char l ∧ 10 ∉ l ∧ ∀ c, let r := run debug (trim_end_matches is_line_end l) c in
    r.1.2 = true → fatal_reply r.1.1.

Lemma ascii_is_char l : Forall (λ c, c < 128) l → Forall is_char l.
Proof. intros Hl. eapply Forall_impl; [exact Hl|]. intros x Hx. left. cbn beta in Hx. lia. Qed.

Lemma key_ascii i : Forall (λ c, c < 128) (key opts id i).
Proof.
  assert (Hp : ∀ n : N, Forall (λ c, c < 128) (codes (pretty n))).
  { intros n. eapply Forall_impl; [apply pretty_all_digits|]. unfold is_digit. intros x Hx. cbn beta in *. lia. }
  unfold key. rewrite !codes_app, !Forall_app. split_and!; [apply Hp|by repeat constructor|apply Hp].
Qed.

Lemma command_quiet p i : ∃ l, quiet_line l ∧ command opts p (key opts id i) = as_bytes (l ++ [10]).
Proof.
  pose proof (key_ascii i) as Hk. pose proof (key_no_newline opts id i) as Hkn.
  pose proof (value_no_newline opts) as Hvn.
  assert (Hv : Forall (λ c, c < 128) (stored_value opts)).
  { unfold stored_value. apply Forall_replicate. lia. }
  set (k := key opts id i) in *.
  assert (Hword : ∀ w r, (w = codes "GET" ∨ w = codes "SET" ∨ w = codes "INCR") →
    Forall (λ c, c < 128) r → 10 ∉ r →
    quiet_line ((w ++ [32]) ++ r) ∧ ((w ++ [32]) ++ r) ++ [10] = as_bytes (((w ++ [32]) ++ r) ++ [10])).
  { intros w r Hw Hr Hrn. assert (Hwa : Forall (λ c, c < 128) (w ++ [32])).
    { destruct Hw as [->|[->| ->]]; by repeat constructor. }
    assert (Hall : Forall (λ c, c < 128) (((w ++ [32]) ++ r) ++ [10])).
    { rewrite !Forall_app in *. split_and!; [apply Hwa|apply Hwa|done|by repeat constructor]. }
    split; [|by rewrite as_bytes_ascii]. split_and!.
    - apply ascii_is_char. by apply Forall_app in Hall as [? _].
    - rewrite not_elem_of_app. split; [|done]. destruct Hw as [->|[->| ->]]; by apply (bool_decide_unpack _).
    - intros c. rewrite trim_end_app by done.
      destruct (first_word w (trim_end_matches is_line_end r)) as [ws Hs];
        [destruct Hw as [->|[->| ->]]; (done || by repeat constructor)..|].
      eapply run_fatal; [exact Hs|]. by destruct Hw as [->|[->| ->]]. }
  assert (Hget : ∃ l, quiet_line l ∧ get_line k = as_bytes (l ++ [10])).
  { destruct (Hword (codes "GET") k) as [Hq He]; [auto..|]. exists ((codes "GET" ++ [32]) ++ k). split; [done|].
    rewrite <-He. unfold get_line. by rewrite app_assoc. }
  assert (Hset : ∃ l, quiet_line l ∧ set_line opts k = as_bytes (l ++ [10])).
  { destruct (Hword (codes "SET") (k ++ codes " " ++ stored_value opts)) as [Hq He]; [auto|..].
    - rewrite !Forall_app. split_and!; [done|by repeat constructor|done].
    - rewrite !not_elem_of_app. split_and!; [done|by apply (bool_decide_unpack _)|done].
    - eexists. split; [exact Hq|]. rewrite <-He. unfold set_line. by rewrite <-!app_assoc. }
  unfold command. destruct (workload opts); [exact Hget|exact Hset| | |by case_match].
  - destruct (Hword (codes "INCR") k) as [Hq He]; [auto..|]. eexists. split; [exact Hq|].
    rewrite <-He. by rewrite app_assoc.
  - exists (codes "PING"). split; [|done]. split_and!; [by apply ascii_is_char; repeat constructor|by apply (bool_decide_unpack _)|].
    intros c. by apply (run_fatal _ (codes "PING") []).
Qed.

Lemma batch_typed n p rng :
  ∃ lines, (batch opts id n p rng).1 = typed_lines lines ∧ length lines = n ∧ Forall quiet_line lines.
Proof.
  revert p rng. induction n as [|n IH]; intros p rng; cbn [batch]; [by exists []|].
  destruct (IH (p + 1) (rng_next rng)) as (lines & Hb & Hn & Hq). destruct (batch opts id n _ _) as [rest rng'].
  cbn [fst] in *. destruct (command_quiet p (rng_next rng)) as (l & Hl & ->).
  exists (l :: lines). split_and!; [|simpl; lia|by constructor].
  by rewrite typed_lines_cons, Hb.
Qed.

Lemma session_quiet lines c :
  Forall quiet_line lines →
  let '(replies, ended, _) := session debug (trim_end_matches is_line_end <$> lines) c in
  ended = true → ∃ told reply, replies = told ++ [reply] ∧ fatal_reply reply.
Proof.
  intros Hall. revert c. induction Hall as [|l lines (_ & _ & Hl) Hall IH]; intros c; cbn [fmap list_fmap session]; [done|].
  specialize (Hl c). cbn zeta in Hl. destruct (run debug _ c) as [[reply fatal] c1]. cbn [fst snd] in Hl.
  destruct fatal; [intros _; exists [], reply; auto|].
  specialize (IH c1). destruct (session debug _ c1) as [[replies ended] c2]. intros He.
  destruct (IH He) as (told & r & -> & Hr). by exists (reply :: told), r.
Qed.
End kvload.


(** ** The theorems *)

Lemma handle_serves {T : Tcp} {TL : TcpLaws T} {R : Redis} debug fuel lines_fuel lines c (s : stream) :
  Forall (λ l, Forall is_char l ∧ 10 ∉ l) lines → incoming s = typed_lines lines → steady s →
  (length lines < fuel)%nat → (N.to_nat (len (incoming s)) < lines_fuel)%nat →
  ∃ c' s', handle debug fuel lines_fuel (Some c) s = Val (Some c', s') ∧
    served debug (trim_end_matches is_line_end <$> lines) c s c' s'.
Proof.
  intros Hl Hi Hst Hf Hlf.
  destruct (wp_val _ _ _ (handle_loop_spec debug fuel lines_fuel lines (mkProxied (reader_new s) c) Hl Hi Hst Hf Hlf))
    as (r & [cn c'] & Hrun & Hpost).
  unfold handle. rewrite Hrun. by exists c', (inner cn).
Qed.

(** C34: a client's connection is the session of its lines.  For a client that sends some lines of
    text and closes, [handle] ends with Redis asked exactly what [session] asks it, in order,
    and the client sent exactly the session's replies: one for each request, up to the first
    that ends the connection, each ended by a newline.  A reply has a newline inside only
    where it is relayed text: what [PING] or [GET] brought, an error's display, an unknown
    command's.  Or the write of one reply failed, with those before it sent and Redis asked
    no further. *)
Theorem proxy_serves_session {T : Tcp} {TL : TcpLaws T} {R : Redis} debug
    fuel lines_fuel lines c (s : stream) :
  Forall (λ l, Forall is_char l ∧ 10 ∉ l) lines → incoming s = typed_lines lines → steady s →
  (length lines < fuel)%nat → (N.to_nat (len (incoming s)) < lines_fuel)%nat →
  let asked := trim_end_matches is_line_end <$> lines in
  (∃ c' s', handle debug fuel lines_fuel (Some c) s = Val (Some c', s') ∧ served debug asked c s c' s') ∧
  let '(replies, ended, _) := session debug asked c in
  Forall (well_ended debug) replies ∧
  (if ended : bool then length replies ≤ length lines else length replies = length lines)%nat.
Proof.
  intros Hl Hi Hst Hf Hlf asked. split; [by apply handle_serves|].
  pose proof (session_replies debug asked c) as Hs. destruct (session _ _ c) as [[replies ended] c1].
  unfold asked in Hs. by rewrite length_fmap in Hs.
Qed.

(** C35: [kvload] against the proxy: every batch of [n] commands, whatever the workload, is [n]
    lines, answered with exactly [n] replies, each ended by a newline, unless Redis gives an
    error that ends the connection, whose reply is then the last, or a reply cannot be written.
    The load generator waits for [n] lines: that is what [n] replies make exactly when none has
    a newline inside, which only relayed text can have (a stored value, [PING]'s answer, an
    error's display); where one does they make more. *)
Theorem kvload_batch_answered {T : Tcp} {TL : TcpLaws T} {R : Redis} debug {A} (opts : Opts A)
    id n p rng fuel lines_fuel c (s : stream) :
  incoming s = (batch opts id n p rng).1 → steady s →
  (n < fuel)%nat → (N.to_nat (len (incoming s)) < lines_fuel)%nat →
  ∃ lines, (batch opts id n p rng).1 = typed_lines lines ∧ length lines = n ∧
  let asked := trim_end_matches is_line_end <$> lines in
  (∃ c' s', handle debug fuel lines_fuel (Some c) s = Val (Some c', s') ∧ served debug asked c s c' s') ∧
  let '(replies, ended, _) := session debug asked c in
  (if ended : bool
   then (length replies ≤ n)%nat ∧ ∃ told reply, replies = told ++ [reply] ∧ fatal_reply reply
   else length replies = n) ∧
  Forall (well_ended debug) replies ∧
  (length replies ≤ lines_in (as_bytes (concat replies)))%nat ∧
  (lines_in (as_bytes (concat replies)) = length replies ↔ Forall one_line replies).
Proof.
  intros Hi Hst Hf Hlf. destruct (batch_typed debug opts id n p rng) as (lines & Hb & Hn & Hq).
  exists lines. split_and!; [done|done|]. intros asked. split.
  { apply handle_serves; [|congruence|done|lia|done]. eapply Forall_impl; [exact Hq|]. by intros l (? & ? & _). }
  pose proof (session_replies debug asked c) as Hs. pose proof (session_quiet debug lines c Hq) as Hend.
  fold asked in Hend. destruct (session _ _ c) as [[replies ended] c1].
  unfold asked in Hs. rewrite length_fmap, Hn in Hs. destruct Hs as [Hall Hlen].
  split; [|split; [done|by apply (reply_lines debug)]]. destruct ended; auto.
Qed.

(** ** A concrete Redis *)

#[local] Existing Instance script_tcp.

(** A store of strings; counting is refused. *)
Definition demo_redis : Redis := {|
  redis := gmap (list N) (list N);
  RedisError := unit;
  is_io_error _ := false;
  is_connection_dropped _ := false;
  is_connection_refusal _ := false;
  display _ := codes "not an integer";
  redis_ping c := (Ok (codes "PONG"), c);
  redis_get k c := (Ok (c !! k), c);
  redis_set k v c := (Ok tt, <[k := v]> c);
  redis_incr k n c := (Err tt, c);
  redis_del k c := (Ok (match c !! k with Some _ => 1 | None => 0 end)%Z, delete k c)
|}.
#[local] Existing Instance demo_redis.

Definition quiet (w : list N) : list N := [].
Definition demo_lines : list (list N) := [codes "set k v"; codes "get k"; codes "incr k"; codes "quit"; codes "ping"].
Definition demo_user : stream (Tcp:=script_tcp) := mkScript (typed_lines demo_lines) [Ok 3; Ok 7] [] [].

(** The last line is not asked: the client had quit. *)
Lemma proxy_serves_session_witness :
  ∃ c' s', handle quiet 6 60 (Some ∅) demo_user = Val (Some c', s') ∧
    s'.(written) = codes "OK" ++ [10] ++ codes "v" ++ [10] ++ codes "ERR not an integer" ++ [10] ++ codes "BYE" ++ [10] ∧
    served quiet (trim_end_matches is_line_end <$> demo_lines) ∅ demo_user c' s'.
Proof.
  destruct (proxy_serves_session (R := demo_redis) quiet 6 60 demo_lines ∅ demo_user) as [(c' & s' & He & Hr) _].
  - apply (bool_decide_unpack _). vm_compute. exact I.
  - reflexivity.
  - repeat constructor; by eexists.
  - apply Nat.ltb_lt. reflexivity.
  - apply Nat.ltb_lt. vm_compute. reflexivity.
  - exists c', s'. split_and!; [exact He| |exact Hr].
    revert He. clear Hr. vm_compute. intros [= _ <-]. reflexivity.
Defined.

Definition demo_opts : Opts unit := mkOpts [tt] 1 1 Mix 4 8 3.
Definition demo_load : stream (Tcp:=script_tcp) := mkScript (batch demo_opts 1 3 0 7).1 [] [] [].
(** From an empty store the batch is answered with three lines. *)
Lemma kvload_batch_answered_witness :
  ∃ c' s', handle quiet 4 80 (Some ∅) demo_load = Val (Some c', s') ∧ lines_in s'.(written) = 3%nat ∧
    ∃ replies, length replies = 3%nat ∧ Forall (well_ended quiet) replies.
Proof.
  destruct (kvload_batch_answered (R := demo_redis) quiet demo_opts 1 3 0 7 4 80 ∅ demo_load)
    as (lines & Hb & Hn & (c' & s' & He & Hr) & Hs).
  - reflexivity.
  - constructor.
  - apply Nat.ltb_lt. reflexivity.
  - apply Nat.ltb_lt. vm_compute. reflexivity.
  - assert (Hw : lines_in s'.(written) = 3%nat).
    { revert He. clear. vm_compute. intros [= _ <-]. reflexivity. }
    exists c', s'. split_and!; [exact He|exact Hw|].
    destruct (session quiet _ _) as [[replies ended] c1]. destruct Hs as (Hlen & Hall & _).
    exists replies. split; [|exact Hall]. destruct ended; [|exact Hlen].
    destruct Hlen as (_ & told & reply & _ & e & [=] & _).
Defined.
